(* ===== verification/_CoqProject ===== *)
-Q . S2P
Prelude.v
Env.v
RaftTypes.v
RaftStorage.v
RaftNode.v
RaftElection.v
RaftNet.v
RaftMonotone.v
RaftLog.v
RaftCommit.v
RaftScenarios.v
Slot.v
Resp.v
RespDecode.v
RespDecodeProofs.v
RespReply.v
RespReplyProofs.v
RespEncodeProofs.v
RespDouble.v
Resp3.v
RespScenarios.v
RaftCodec.v
RaftCodecProofs.v
FileStorage.v
FileStorageProofs.v
FileScenarios.v
Expiry.v
ExpiryProofs.v
SlotMap.v
ConfigSm.v
SlotMapProofs.v
ConfigSmProofs.v
SlotSnapshot.v
ConfigScenarios.v
Glob.v
GlobProofs.v
Dash.v
DashSegment.v
DashDirectory.v
DashProofs.v
DashMap.v
ReplFrames.v
ReplFramesProofs.v
ReplDisk.v
ReplDiskProofs.v
ReplTail.v
ReplStream.v
ReplProofs.v
ReplConverge.v
Keyspace.v
KeyspaceProofs.v
KeyspaceOps.v
KeyspaceWatch.v
KeyspaceObserve.v
Values.v
ValuesText.v
ValuesProofs.v
ValuesHash.v
ValuesSets.v
ValuesZset.v
Snapshot.v
SnapshotSave.v
SnapshotProofs.v
SnapshotLoad.v
SnapshotChain.v
KvCodec.v
KvCodecProofs.v
SnapshotBuild.v
SnapshotCommit.v
SnapshotWorld.v
SnapshotRestore.v
SnapshotScenarios.v
