(* ===== verification/Prelude.v ===== *)
(** * IronCache: a verification development

    IronCache is a sharded in-memory cache server that speaks the Redis
    protocol, with a Raft-replicated cluster configuration.  This library
    models parts of its Rust sources (under src/crates/) as executable Rocq
    definitions and proves what makes them correct.

    ** Conventions

    The release profile builds with overflow checks and aborts on panic, so an
    operation that may panic returns an [option] and [None] is the abort.
    Integers are [N] (or [Z] when signed), bytes are [byte], Rust strings are
    byte lists or [string], [BTreeSet<NodeId>] is a [gset N] iterated in
    ascending order.  A method that mutates its receiver is a [step] of the
    panic/state monad of this file; [wp] is its weakest precondition.
    Third-party code is an argument of the definitions that call it: memchr,
    ryu, and the sharing of [bytes::Bytes].

    ** The parts and the files that model them

    - Environment (ironcache-env).  Env.v: monotonic time, durations, the
      [Rng] interface and SplitMix64.
    - Raft engine (ironcache-raft).  RaftTypes.v has the messages, entries,
      configuration and effects; RaftStorage.v the storage trait as a class,
      its laws and the in-memory store; RaftNode.v every handler of the
      engine as a step over (node, rng, effects).  RaftElection.v proves the
      per-node election lemmas; RaftNet.v closes a fixed voter set over an
      asynchronous network that may delay, drop, duplicate and reorder
      messages, and proves that a term has at most one leader and that all
      AppendEntries of a term come from it.  RaftMonotone.v: terms, commit
      and apply indices never go back.  RaftLog.v: what AppendEntries does to
      a follower's log.  RaftCommit.v: the leader's commit rule,
      membership recomputation and quorum overlap, compaction and the chunked
      snapshot transfer.  RaftScenarios.v: concrete runs, among them two that
      break agreement (a membership change right after an election, and a
      delayed AppendEntries below a compacted log).
    - Raft adapter (ironcache-raft-net).  RaftCodec.v: the binary codec of
      messages and records; RaftCodecProofs.v: framed round trips.
      FileStorage.v: the durable store - framed, checksummed records, replay,
      sidecars, compaction; FileStorageProofs.v: refinement of the in-memory
      store, crash safety at every byte of every call, and detection of
      damaged bytes.  FileScenarios.v: concrete stores.
    - Protocol (ironcache-protocol).  Slot.v: CRC16, hash tags, key slots.
      Resp.v: values, errors and the serializer; RespDecode.v: the request
      decoder; RespDecodeProofs.v: the decoder is total, consistent under
      more input, and its zero-copy variant agrees.  RespReply.v: the
      command encoder of the cluster bus and the console's reply parser;
      RespReplyProofs.v, RespEncodeProofs.v, Resp3.v: commands and replies
      are read back as sent, under RESP2 and RESP3; RespDouble.v: the decimal
      text of a double denotes the number ryu printed.  RespScenarios.v:
      concrete frames.
    - Active expiry (ironcache-expiry).  Expiry.v: the four-level timing
      wheel; ExpiryProofs.v: a drain never offers a deadline early, loses no
      entry, and repeated bounded drains offer exactly the due ones; a
      deadline registered before the first advance is the exception.
    - Cluster configuration (ironcache-cluster, and config_sm.rs of
      ironcache-raft-net).  SlotMap.v: the slot map with its mutators and
      snapshot codec; ConfigSm.v: the state machine that applies committed
      commands to it, and the abstract [SlotConfig] a log describes.
      SlotMapProofs.v: the invariant that ties the lock-free ownership bitmap
      to the owner array, kept by every mutator but the endpoint
      deduplication.  ConfigSmProofs.v: the machine refines the abstract
      configuration, and two nodes at the same prefix never both own a slot.
      SlotSnapshot.v: a restored snapshot agrees with the same configuration.
      ConfigSmProofs.v assumes that every node a command names was registered
      before ([cmd_ok]), and SlotSnapshot.v starts from the relation it
      establishes.  The sources state the assumption as a duty of the proposal
      path, which does not check it; ConfigScenarios.v shows that without it
      two nodes own one slot, and two faults around migration tags.

    - Glob patterns (glob.rs of ironcache-server).  Glob.v: the two-pointer
      matcher; GlobProofs.v: it terminates and decides the language of the
      pattern.
    - Shard index (ironcache-dashtable).  Dash.v: segments, fingerprints,
      directory and splits; DashSegment.v: the fingerprint probe agrees with a
      scan; DashDirectory.v and DashProofs.v: routing and splits; DashMap.v:
      through the entry handles the store uses, the index is a finite map,
      whatever the hash function.
    - Shard store (ironcache-store: lib.rs).  Keyspace.v: slot tables, the
      write funnels and what they report to (the [Ledger]), and every store
      primitive and keyspace command over them.  Its values are any instance
      of the class [StoredValue].  KeyspaceProofs.v: the placement invariant
      and each operation as a sequence of writes.  KeyspaceOps.v: the dirty
      set covers every key that changed.  KeyspaceWatch.v: a clean watch means
      an unchanged key.  KeyspaceObserve.v: a replica that replays the
      observer's calls shows the live keyspace of its primary.
    - Stored values (ironcache-store: kvobj.rs and encoding.rs, with the types
      of ironcache-storage).  Values.v: lists, hashes with field deadlines,
      sets and sorted sets in each resident form, and the instance of
      [StoredValue].  ValuesText.v: the two integer parsers agree with the
      printer.  ValuesProofs.v, ValuesHash.v, ValuesSets.v, ValuesZset.v: any
      sequence of operations, under thresholds that may change at each, answers
      as the plain sequence, map, set or scored map does, and the form only
      moves up.  ValuesZset.v also shows that a negative zero is ordered apart
      from a zero.
    - Replication (ironcache-repl, and replica_attach.rs of ironcache).
      ReplFrames.v and ReplFramesProofs.v: the frames and their round trip.
      ReplDisk.v, ReplDiskProofs.v, ReplTail.v: the backlog on disk behind the
      bounded window.  ReplStream.v: shipping passes and the applier.
      ReplProofs.v and ReplConverge.v: a replica is always at an offset of its
      primary's log and converges to it, and the states where a stream stops.
      KvCodec.v: the wire form of one entry (kvcodec.rs); KvCodecProofs.v: its
      round trip, and the instance of [EntryCodec].
    - Snapshots (ironcache-persist, and persist.rs and coordinator.rs of
      ironcache).  Snapshot.v: manifest, base and delta files, and the load;
      SnapshotSave.v: the save round.  SnapshotProofs.v: round trips of the
      files.  SnapshotLoad.v and SnapshotChain.v: what a boot loads, against
      the interface [EntryCodec] of the codec.  SnapshotBuild.v and
      SnapshotCommit.v: what a save writes and keeps.  SnapshotWorld.v and
      SnapshotRestore.v: a node as a state machine.  SnapshotScenarios.v: with
      the real values and codec, a boot restores the last committed save, and
      a base save that fails half way loses a shard of the previous one.
    ** Bounds and fuel

    Loops that are not structural take fuel.  The decoders use the buffer
    length plus one, and every round consumes at least one byte; replay uses
    the file length plus one, and every round passes an eight-byte header; the
    commit scan uses the distance to the commit index; entry lists read from
    the wire use the bytes left; the wheel's walk uses its cap on ticks per
    call; the glob loop a bound from the two lengths; LREM the number of
    elements.  The theorems are stated for the functions
    with that fuel already chosen.

    Where a theorem assumes a bound it says so: replication offsets below the
    u64 ceiling at which they saturate, byte strings and counts that fit their
    32-bit wire fields, at most 2^32 databases and 2^28 shards, and a boot
    whose clock is not behind the last save.  The version clock of the watches
    does not wrap.  Scores are the bit patterns of 64-bit floats, added by the
    Standard Library's specification of floating point.

    ** Not modelled

    Sockets, threads, timers and processes (ironcache, ironcache-runtime,
    the tokio task of ironcache-raft-net), the HTTP console, metrics, and the
    benchmark and simulation harnesses: I/O around the modelled logic.  Of
    the raft-mode CLUSTER commands only the one SETSLOT IMPORTING proposes is
    modelled; of the slot map, not the rebalance planner and its steps, and
    the static [build], [ranges] and the deduplication have definitions but
    no theorems.  Readers of the slot map that interleave with a mutator are
    not modelled: a mutator is one step.  The command
    handlers (argument parsing and replies around the modelled primitives) and
    the layers of the configuration are left out, as is the choice of an
    eviction victim, a heuristic: an eviction is a removal to the store.  Of
    an entry, the packed byte layout and its unsafe code, and the frequency
    bits, are left out; of the store, keyspace notifications and the fence of
    the zero-copy path.  The warm-start machine has no failing base save,
    because one overwrites files the last manifest names; that case is the
    scenario above.
    A failing system call aborts the process and is covered by the crash
    model of the durable store; damage to a file beyond torn appends and a
    changed byte in a record is not. *)

From Stdlib Require Import Lia ZArith NArith.
From Stdlib Require Export Strings.Byte.
From stdpp Require Export base gmap sorting numbers option list.

(** ** Machine integers

    The release profile of the workspace is built with [overflow-checks = true]
    and [panic = "abort"]: an overflowing [+] or [-] stops the process.  The
    arithmetic below therefore returns [None] exactly where the code panics. *)

Definition U64_MAX : N := 18446744073709551615.
Definition U32_MAX : N := 4294967295.

Definition add64 (a b : N) : option N :=
  if decide (a + b ≤ U64_MAX)%N then Some (a + b)%N else None.

Definition sub64 (a b : N) : option N :=
  if decide (b ≤ a)%N then Some (a - b)%N else None.

Definition wrap64 (a : N) : N := (a mod 18446744073709551616)%N.

Definition sat_add32 (a b : N) : N := N.min (a + b) U32_MAX.
Definition sat_add64 (a b : N) : N := N.min (a + b) U64_MAX.

Lemma add64_Some a b c : add64 a b = Some c → c = (a + b)%N ∧ (a + b ≤ U64_MAX)%N.
Proof. unfold add64. case_decide; naive_solver. Qed.

Lemma add64_small a b : (a + b ≤ U64_MAX)%N → add64 a b = Some (a + b)%N.
Proof. intros. unfold add64. by rewrite decide_True. Qed.

(** The bind of a result that is there, as a rewrite. *)
Lemma obind_Some {A B} (x : A) (f : A → option B) : Some x ≫= f = f x.
Proof. done. Qed.

Lemma sub64_small a b : (b ≤ a)%N → sub64 a b = Some (a - b)%N.
Proof. intros. unfold sub64. by rewrite decide_True. Qed.

Lemma sub64_Some a b c : sub64 a b = Some c → c = (a - b)%N ∧ (b ≤ a)%N.
Proof. unfold sub64. case_decide; naive_solver. Qed.

(** Little-endian fixed-width encodings ([to_le_bytes] / [from_le_bytes]). *)

Lemma shiftr_lt_pow2 (a n k : N) : (a < 2 ^ n → N.shiftr a k < 2 ^ n)%N.
Proof.
  intros. rewrite N.shiftr_div_pow2.
  eapply N.le_lt_trans; [|done]. apply N.Div0.div_le_upper_bound.
  assert (2 ^ k ≠ 0)%N by (apply N.pow_nonzero; lia). nia.
Qed.

Lemma lxor_lt_pow2 (a b n : N) : (a < 2 ^ n → b < 2 ^ n → N.lxor a b < 2 ^ n)%N.
Proof.
  intros Ha Hb.
  assert (∀ c, c < 2 ^ n → ∀ i, n ≤ i → N.testbit c i = false)%N as Hhi.
  { intros c Hc i Hi. rewrite <- (N.mod_small c (2 ^ n)%N) by done.
    by apply N.mod_pow2_bits_high. }
  destruct (N.eq_dec (N.lxor a b) 0%N) as [->|Hne]; [apply N.neq_0_lt_0, N.pow_nonzero; lia|].
  apply N.log2_lt_pow2; [lia|].
  destruct (N.lt_ge_cases (N.log2 (N.lxor a b)) n) as [|Hge]; [done|exfalso].
  pose proof (N.bit_log2 _ Hne) as Hbit.
  rewrite N.lxor_spec, !Hhi in Hbit by done. done.
Qed.

Definition byte_of_N (n : N) : byte :=
  default x00 (Byte.of_N (n mod 256)).

Lemma to_N_byte_of_N n : Byte.to_N (byte_of_N n) = (n mod 256)%N.
Proof.
  unfold byte_of_N. pose proof (N.mod_upper_bound n 256 ltac:(lia)).
  destruct (Byte.of_N (n mod 256)) as [b|] eqn:E; simpl.
  - by apply Byte.to_of_N in E.
  - apply Byte.of_N_None_iff in E. lia.
Qed.

Lemma byte_to_N_bound b : (Byte.to_N b < 256)%N.
Proof. pose proof (Byte.to_N_bounded b). lia. Qed.

Lemma byte_of_to_N b : byte_of_N (Byte.to_N b) = b.
Proof.
  unfold byte_of_N. rewrite N.mod_small by apply byte_to_N_bound.
  by rewrite Byte.of_to_N.
Qed.

#[export] Instance byte_eq_dec : EqDecision byte := Byte.byte_eq_dec.
#[export] Instance byte_countable : Countable byte := inj_countable' Byte.to_N byte_of_N byte_of_to_N.

(** The order of byte strings. *)
Fixpoint bytes_leb (a b : list byte) : bool :=
  match a, b with
  | [], _ => true
  | _ :: _, [] => false
  | x :: a, y :: b =>
      (Byte.to_N x <? Byte.to_N y)%N || ((Byte.to_N x =? Byte.to_N y)%N && bytes_leb a b)
  end.

Lemma to_N_byte_inj x y : Byte.to_N x = Byte.to_N y → x = y.
Proof. intros E. by rewrite <- (byte_of_to_N x), E, byte_of_to_N. Qed.

Lemma bytes_leb_cons x a y b :
  bytes_leb (x :: a) (y :: b) = true ↔ (Byte.to_N x < Byte.to_N y)%N ∨ x = y ∧ bytes_leb a b = true.
Proof.
  cbn. rewrite orb_true_iff, andb_true_iff, N.ltb_lt, N.eqb_eq. split; [|naive_solver].
  intros [?|[?%to_N_byte_inj ?]]; auto.
Qed.

Lemma bytes_leb_total a b : bytes_leb a b = true ∨ bytes_leb b a = true.
Proof.
  revert b. induction a as [|x a IH]; intros [|y b]; [auto..|]. rewrite !bytes_leb_cons.
  destruct (N.lt_trichotomy (Byte.to_N x) (Byte.to_N y)) as [?|[?%to_N_byte_inj|?]]; [auto| |auto].
  destruct (IH b); auto.
Qed.

Lemma bytes_leb_antisymm a b : bytes_leb a b = true → bytes_leb b a = true → a = b.
Proof.
  revert b. induction a as [|x a IH]; intros [|y b]; [done..|]. rewrite !bytes_leb_cons.
  intros [?|[-> ?]] [?|[? ?]]; subst; try lia. by rewrite (IH b).
Qed.

Lemma bytes_leb_trans a b c : bytes_leb a b = true → bytes_leb b c = true → bytes_leb a c = true.
Proof.
  revert b c. induction a as [|x a IH]; intros [|y b] [|z c]; [done..|]. rewrite !bytes_leb_cons.
  intros [?|[-> ?]] [?|[? ?]]; subst; eauto; left; lia.
Qed.

Fixpoint to_le_bytes (w : nat) (n : N) : list byte :=
  match w with
  | O => []
  | S w => byte_of_N n :: to_le_bytes w (n / 256)
  end.

Fixpoint from_le_bytes (bs : list byte) : N :=
  match bs with
  | [] => 0
  | b :: bs => Byte.to_N b + 256 * from_le_bytes bs
  end.

Lemma length_to_le_bytes w n : length (to_le_bytes w n) = w.
Proof. revert n. induction w; simpl; intros; congruence. Qed.

Lemma from_to_le_bytes w n :
  (n < 256 ^ N.of_nat w)%N → from_le_bytes (to_le_bytes w n) = n.
Proof.
  revert n. induction w as [|w IH]; intros n Hn; simpl to_le_bytes; simpl from_le_bytes.
  - simpl in Hn. lia.
  - rewrite Nat2N.inj_succ, N.pow_succ_r' in Hn.
    rewrite to_N_byte_of_N, IH.
    + pose proof (N.div_mod n 256 ltac:(lia)). lia.
    + apply N.Div0.div_lt_upper_bound; lia.
Qed.

Lemma to_from_le_bytes bs : to_le_bytes (length bs) (from_le_bytes bs) = bs.
Proof.
  induction bs as [|b bs IH]; simpl; [done|].
  pose proof (byte_to_N_bound b). f_equal.
  - rewrite <- (byte_of_to_N b) at 2. unfold byte_of_N.
    replace ((_ + _) mod 256)%N with (Byte.to_N b mod 256)%N; [done|].
    rewrite N.mul_comm, N.Div0.mod_add. done.
  - replace ((_ + _) / 256)%N with (from_le_bytes bs); [done|].
    apply (N.div_unique _ _ _ (Byte.to_N b)); lia.
Qed.

#[global] Arguments to_le_bytes : simpl never.
#[global] Arguments from_le_bytes : simpl never.

(** ** Ordered collections

    [BTreeSet<NodeId>] is a [gset N] whose iteration order is ascending. *)

Definition btree_iter (X : gset N) : list N := merge_sort N.le (elements X).

Lemma elem_of_btree_iter X x : x ∈ btree_iter X ↔ x ∈ X.
Proof.
  unfold btree_iter. rewrite merge_sort_Permutation. apply elem_of_elements.
Qed.

Lemma NoDup_btree_iter X : NoDup (btree_iter X).
Proof. unfold btree_iter. rewrite merge_sort_Permutation. apply NoDup_elements. Qed.

Lemma btree_iter_sorted X : StronglySorted N.le (btree_iter X).
Proof. unfold btree_iter. apply StronglySorted_merge_sort; [intros ???; lia|intros ??; lia]. Qed.

(** [iter().filter(p).count()] over a [BTreeSet]. *)
Definition count_in (X Y : gset N) : nat := size (X ∩ Y).

(** A strict majority of [V]: [V.len() / 2 + 1] members. *)
Definition majority_of (V : gset N) : nat := size V / 2 + 1.

Lemma majorities_intersect (V Q1 Q2 : gset N) :
  majority_of V ≤ size (Q1 ∩ V) → majority_of V ≤ size (Q2 ∩ V) →
  ∃ x, x ∈ V ∧ x ∈ Q1 ∧ x ∈ Q2.
Proof.
  unfold majority_of. intros H1 H2.
  destruct (decide ((Q1 ∩ V) ∩ (Q2 ∩ V) = ∅)) as [He|Hne].
  - assert (size ((Q1 ∩ V) ∪ (Q2 ∩ V)) = size (Q1 ∩ V) + size (Q2 ∩ V)) as Hs.
    { apply size_union. set_solver. }
    assert (size ((Q1 ∩ V) ∪ (Q2 ∩ V)) ≤ size V) by (apply subseteq_size; set_solver).
    pose proof (Nat.div_mod_eq (size V) 2). pose proof (Nat.mod_upper_bound (size V) 2). lia.
  - apply set_choose_L in Hne as [x Hx]. exists x. set_solver.
Qed.

(** ** The panic/state monad

    A routine that mutates its receiver and may panic is a [step]: [None] is
    the abort of the process. *)

Definition step (St A : Type) : Type := St → option (A * St).

#[export] Instance step_ret St : MRet (step St) := λ A x s, Some (x, s).
#[export] Instance step_bind St : MBind (step St) := λ A B k m s,
  match m s with
  | Some (x, s') => k x s'
  | None => None
  end.

Definition panic {St A} : step St A := λ _, None.
Definition gets {St A} (f : St → A) : step St A := λ s, Some (f s, s).
Definition modify {St} (f : St → St) : step St unit := λ s, Some (tt, f s).
Definition lift {St A} (o : option A) : step St A := λ s,
  match o with Some x => Some (x, s) | None => None end.
Definition when {St} (b : bool) (m : step St unit) : step St unit :=
  if b then m else mret tt.

Fixpoint for_each {St A} (l : list A) (f : A → step St unit) : step St unit :=
  match l with
  | [] => mret tt
  | x :: l => f x ;; for_each l f
  end.

(** [wp P m Q s]: running [m] from [s] ends in [Q], or panics where [P] allows
    it ([P := True] for partial correctness, [P := False] for no panic). *)
Definition wp {St A} (P : Prop) (m : step St A) (Q : A → St → Prop) (s : St) : Prop :=
  match m s with Some (a, s') => Q a s' | None => P end.

Section wp.
Context {St : Type} (P : Prop).

Lemma wp_mono {A} (m : step St A) (Q Q' : A → St → Prop) s :
  wp P m Q s → (∀ a s', Q a s' → Q' a s') → wp P m Q' s.
Proof. unfold wp. destruct (m s) as [[a s']|]; auto. Qed.

Lemma wp_ret {A} (x : A) (Q : A → St → Prop) s : Q x s → wp P (mret x) Q s.
Proof. done. Qed.

Lemma wp_bind {A B} (m : step St A) (k : A → step St B) (Q : B → St → Prop) s :
  wp P m (λ a s', wp P (k a) Q s') s → wp P (m ≫= k) Q s.
Proof.
  unfold wp, mbind, step_bind. by destruct (m s) as [[a s']|].
Qed.

Lemma wp_gets {A} (f : St → A) (Q : A → St → Prop) s : Q (f s) s → wp P (gets f) Q s.
Proof. done. Qed.

Lemma wp_modify f (Q : unit → St → Prop) s : Q tt (f s) → wp P (modify f) Q s.
Proof. done. Qed.

Lemma wp_lift {A} (o : option A) (Q : A → St → Prop) s :
  (∀ x, o = Some x → Q x s) → (o = None → P) → wp P (lift o) Q s.
Proof. unfold wp, lift. destruct o; auto. Qed.

Lemma wp_panic {A} (Q : A → St → Prop) s : P → wp P panic Q s.
Proof. done. Qed.

Lemma wp_when b (m : step St unit) (Q : unit → St → Prop) s :
  (b = true → wp P m Q s) → (b = false → Q tt s) → wp P (when b m) Q s.
Proof. destruct b; simpl; [auto|]. intros _ HQ. apply wp_ret. by apply HQ. Qed.

(** Loop rule with an invariant. *)
Lemma wp_for_each {A} (l : list A) (f : A → step St unit) (I : St → Prop) s :
  I s → (∀ x s, x ∈ l → I s → wp P (f x) (λ _, I) s) →
  wp P (for_each l f) (λ _, I) s.
Proof.
  revert s. induction l as [|x l IH]; intros s Hs Hf; simpl; [by apply wp_ret|].
  apply wp_bind. eapply wp_mono; [apply Hf; [by left|done]|].
  intros ? s' ?. apply IH; [done|]. intros. apply Hf; [by right|done].
Qed.
End wp.

Lemma wp_Some {St A} (m : step St A) Q s a s' :
  wp True m Q s → m s = Some (a, s') → Q a s'.
Proof. unfold wp. intros H E. by rewrite E in H. Qed.

Lemma wp_total {St A} (m : step St A) Q s :
  wp False m Q s → ∃ a s', m s = Some (a, s') ∧ Q a s'.
Proof. unfold wp. destruct (m s) as [[a s']|]; [eauto|done]. Qed.

(** One symbolic-execution step. *)
Ltac wp_step :=
  lazymatch goal with
  | |- wp _ (mret _) _ _ => apply wp_ret
  | |- wp _ (mbind _ _) _ _ => apply wp_bind
  | |- wp _ (gets _) _ _ => apply wp_gets
  | |- wp _ (modify _) _ _ => apply wp_modify
  | |- wp _ (lift _) _ _ => apply wp_lift; [intros ? ?|intros ?; try exact I]
  | |- wp _ panic _ _ => apply wp_panic; try exact I
  | |- wp _ (when _ _) _ _ => apply wp_when; intros ?
  | |- wp _ (if ?b then _ else _) _ _ => destruct b eqn:?
  | |- wp _ (match ?o with Some _ => _ | None => _ end) _ _ => destruct o eqn:?
  end.

(** ** The first position of a byte, [slice::iter().position] *)

Fixpoint position (c : byte) (l : list byte) : option nat :=
  match l with
  | [] => None
  | x :: l => if decide (x = c) then Some 0 else S <$> position c l
  end.

Lemma position_None c l : position c l = None ↔ c ∉ l.
Proof.
  induction l as [|x l IH]; simpl; [split; [inversion 2|done]|].
  rewrite not_elem_of_cons. case_decide; subst; [naive_solver|].
  rewrite fmap_None, IH. naive_solver.
Qed.

Lemma position_app c pre post : c ∉ pre → position c (pre ++ (c :: post)) = Some (length pre).
Proof.
  induction pre as [|x pre IH]; simpl; intros Hc.
  - by rewrite decide_True.
  - apply not_elem_of_cons in Hc as [??]. rewrite decide_False, IH by done. done.
Qed.

Lemma position_split c l i :
  position c l = Some i → ∃ pre post, l = pre ++ (c :: post) ∧ (c ∉ pre) ∧ i = length pre.
Proof.
  revert i. induction l as [|x l IH]; simpl; intros i; [done|]. case_decide; subst.
  - intros [= <-]. exists [], l. split_and!; [done|inversion 1|done].
  - intros (j&(pre&post&->&?&->)%IH&->)%fmap_Some. exists (x :: pre), post.
    split_and!; [done| |done]. by rewrite not_elem_of_cons.
Qed.

Lemma drop_middle {A} (pre : list A) c post : drop (length pre + 1) (pre ++ c :: post) = post.
Proof. induction pre as [|x pre IH]; simpl; [by rewrite drop_0|done]. Qed.
