(* ===== verification/Env.v ===== *)
(** * The environment seam (crates/ironcache-env/src/lib.rs)

    Virtual time and randomness reach the engine only through this crate:
    [Duration] and [Monotonic] (nanoseconds since an origin, with saturating
    arithmetic), the [Rng] trait with its multiply-shift [gen_below], and the
    one generator of the repository, [SplitMix64]. *)

From Stdlib Require Import Lia ZArith NArith.
From S2P Require Import Prelude.

Open Scope N_scope.

(** [core::time::Duration] in nanoseconds: at most [u64::MAX] seconds and
    [999_999_999] nanoseconds. *)
Definition Duration : Type := N.
Definition DURATION_MAX : Duration := U64_MAX * 1000000000 + 999999999.

Definition dur_saturating_add (a b : Duration) : Duration := N.min (a + b) DURATION_MAX.
Definition dur_saturating_sub (a b : Duration) : Duration := a - b.
Definition dur_from_millis (ms : N) : Duration := ms * 1000000.

(** [Duration::as_millis] narrowed with [u64::try_from(..).unwrap_or(u64::MAX)]. *)
Definition dur_as_millis_u64 (d : Duration) : N := N.min (d / 1000000) U64_MAX.

(** [Monotonic] is an instant: the duration since the clock's origin. *)
Definition Monotonic : Type := Duration.
Definition monotonic_as_millis (m : Monotonic) : N := dur_as_millis_u64 m.
Definition saturating_duration_since (self earlier : Monotonic) : Duration :=
  dur_saturating_sub self earlier.
Definition monotonic_saturating_add (self : Monotonic) (d : Duration) : Monotonic :=
  dur_saturating_add self d.

(** The [Rng] trait: one required method; [gen_below] is its default method. *)
Class Rng (R : Type) := { next_u64 : R → N * R }.

Class RngLaws (R : Type) `{Rng R} := {
  next_u64_bound : ∀ r, (next_u64 r).1 ≤ U64_MAX
}.

Definition gen_below {R} `{Rng R} (r : R) (bound : N) : N * R :=
  if decide (bound = 0) then (0, r)
  else let '(x, r') := next_u64 r in (N.shiftr (x * bound) 64, r').

(** [SplitMix64]: the state is one u64 advanced by the golden-ratio constant. *)
Record SplitMix64 := { sm_state : N }.

Definition splitmix64_new (seed : N) : SplitMix64 := {| sm_state := seed |}.

Definition splitmix64_next (r : SplitMix64) : N * SplitMix64 :=
  let st := wrap64 (sm_state r + 0x9E3779B97F4A7C15) in
  let z := st in
  let z := wrap64 (N.lxor z (N.shiftr z 30) * 0xBF58476D1CE4E5B9) in
  let z := wrap64 (N.lxor z (N.shiftr z 27) * 0x94D049BB133111EB) in
  (N.lxor z (N.shiftr z 31), {| sm_state := st |}).

#[export] Instance SplitMix64_Rng : Rng SplitMix64 := {| next_u64 := splitmix64_next |}.

(** ** Bounds *)

Lemma wrap64_bound a : wrap64 a < 2 ^ 64.
Proof. unfold wrap64. apply N.mod_lt. lia. Qed.

#[export] Instance SplitMix64_laws : RngLaws SplitMix64.
Proof.
  split. intros r. simpl.
  match goal with |- N.lxor ?a ?b ≤ _ => assert (N.lxor a b < 2 ^ 64) as Hb end.
  { apply lxor_lt_pow2; [|apply shiftr_lt_pow2]; apply wrap64_bound. }
  unfold U64_MAX. change (2 ^ 64) with 18446744073709551616 in Hb. lia.
Qed.

(** The multiply-shift draw stays below its bound. *)
Lemma gen_below_lt {R} `{RngLaws R} (r : R) (bound : N) :
  0 < bound → (gen_below r bound).1 < bound.
Proof.
  intros Hb. unfold gen_below. rewrite decide_False by lia.
  pose proof (next_u64_bound r) as Hx. destruct (next_u64 r) as [x r']; simpl in *.
  rewrite N.shiftr_div_pow2. apply N.Div0.div_lt_upper_bound.
  unfold U64_MAX in Hx. change (2 ^ 64) with 18446744073709551616. nia.
Qed.
