(* ===== verification/RaftTypes.v ===== *)
(** * Raft: data types, configuration and effects

    crates/ironcache-raft/src/raft_types.rs, raft_config.rs, raft_effects.rs
    and raft_sm.rs: identities, roles, log entries, the wire messages, the
    timing configuration, the effects a step records, and the state-machine
    seam with its default [CountingSm]. *)

From Stdlib Require Import Lia ZArith NArith.
From S2P Require Import Prelude Env.
From stdpp Require Import strings.

Open Scope N_scope.

(** ** raft_types.rs *)

(** The newtype [NodeId(u64)]. *)
Abbreviation NodeId := N (only parsing).

Inductive Role := Follower | Candidate | Leader.

#[export] Instance Role_eq_dec : EqDecision Role.
Proof. solve_decision. Defined.

Inductive MembershipChange :=
  | AddVoter (node : NodeId)
  | RemoveVoter (node : NodeId)
  | AddLearner (node : NodeId)
  | PromoteLearner (node : NodeId)
  | RemoveLearner (node : NodeId).

#[export] Instance MembershipChange_eq_dec : EqDecision MembershipChange.
Proof. solve_decision. Defined.

(** Slots and ports are u16; node names and hosts are Rust strings. *)
Inductive ConfigCmd :=
  | AddNode (id host : string) (port : N)
  | RemoveNode (id : string)
  | SetSlotOwner (slot : N) (node : string)
  | AssignSlots (node : string) (slots : list N)
  | UnassignSlots (slots : list N)
  | SetConfigEpoch (epoch : N)
  | AssignReplica (node : string) (slots : list N)
  | PromoteReplica (slots : list N) (new_primary : string)
  | SetSlotMigrating (slot : N) (dest : string)
  | SetSlotImporting (slot : N) (src dest : string)
  | SetSlotStable (slot : N).

#[export] Instance ConfigCmd_eq_dec : EqDecision ConfigCmd.
Proof. solve_decision. Defined.

Inductive EntryPayload :=
  | Noop
  | Bytes (data : list byte)
  | Config (cmd : ConfigCmd)
  | ConfigChange (change : MembershipChange).

#[export] Instance EntryPayload_eq_dec : EqDecision EntryPayload.
Proof. solve_decision. Defined.

Record LogEntry := mkEntry {
  e_term : N;
  e_index : N;
  e_payload : EntryPayload
}.

#[export] Instance LogEntry_eq_dec : EqDecision LogEntry.
Proof. solve_decision. Defined.

(** The voter and learner sets, as the code passes them around in pairs. *)
Definition Membership : Type := gset NodeId * gset NodeId.

Inductive RaftMsg :=
  | RequestVote (term : N) (candidate : NodeId) (last_log_index last_log_term : N)
  | RequestVoteResp (term : N) (vote_granted : bool)
  | PreVote (term : N) (candidate : NodeId) (last_log_index last_log_term : N)
  | PreVoteResp (term : N) (vote_granted : bool)
  | AppendEntries (term : N) (leader : NodeId) (prev_log_index prev_log_term : N)
      (entries : list LogEntry) (leader_commit : N)
  | AppendEntriesResp (term : N) (success : bool) (match_index : N)
  | Propose (payload : EntryPayload)
  | ForwardPropose (corr : N) (payload : EntryPayload)
  | ForwardProposeResult (corr : N) (outcome : option N)
  | InstallSnapshot (term : N) (leader_id : NodeId) (last_included_index last_included_term : N)
      (offset : N) (data : list byte) (done : bool) (voters learners : gset NodeId)
  | InstallSnapshotResp (term last_included_index : N) (installed : bool) (next_offset : N).

#[export] Instance RaftMsg_eq_dec : EqDecision RaftMsg.
Proof. solve_decision. Defined.

(** ** raft_config.rs *)

Record RaftConfig := {
  election_timeout_base : Duration;
  election_timeout_jitter : Duration;
  heartbeat_interval : Duration;
  snapshot_threshold : N;
  snapshot_chunk_bytes : N;
  pre_vote : bool;
  check_quorum : bool
}.

Definition DEFAULT_SNAPSHOT_THRESHOLD : N := 0.
Definition DEFAULT_SNAPSHOT_CHUNK_BYTES : N := 256 * 1024.

Definition RaftConfig_default : RaftConfig := {|
  election_timeout_base := dur_from_millis 150;
  election_timeout_jitter := dur_from_millis 150;
  heartbeat_interval := dur_from_millis 50;
  snapshot_threshold := DEFAULT_SNAPSHOT_THRESHOLD;
  snapshot_chunk_bytes := DEFAULT_SNAPSHOT_CHUNK_BYTES;
  pre_vote := true;
  check_quorum := true
|}.

Definition ELECTION_TIMEOUT : N := 0.
Definition HEARTBEAT : N := 1.
Definition LEARNER_CATCHUP_LAG : N := 2.
Definition PRE_VOTE_FALLBACK_ROUNDS : N := 3.

(** ** raft_effects.rs *)

Inductive TimerOp :=
  | TimerSet (token : N) (after : Duration)
  | TimerCancel (token : N).

(** [sends] and [timer_ops] are [Vec]s pushed at the end. *)
Record Effects := mkEffects {
  sends : list (NodeId * RaftMsg);
  timer_ops : list TimerOp;
  committed_through : option N
}.

Definition effects_new : Effects := mkEffects [] [] None.

Definition eff_send (to : NodeId) (msg : RaftMsg) (out : Effects) : Effects :=
  mkEffects (sends out ++ [(to, msg)]) (timer_ops out) (committed_through out).

Definition eff_set_timer (token : N) (after : Duration) (out : Effects) : Effects :=
  mkEffects (sends out) (timer_ops out ++ [TimerSet token after]) (committed_through out).

Definition eff_cancel_timer (token : N) (out : Effects) : Effects :=
  mkEffects (sends out) (timer_ops out ++ [TimerCancel token]) (committed_through out).

Definition note_committed_through (index : N) (out : Effects) : Effects :=
  mkEffects (sends out) (timer_ops out)
    (Some (match committed_through out with
           | Some prev => N.max prev index
           | None => index
           end)).

(** ** raft_sm.rs

    The state machine a node drives.  [snapshot] and [restore] have default
    bodies that panic ([unimplemented!]), hence the [option]s. *)
Class StateMachine (M : Type) := {
  sm_apply : LogEntry → M → M;
  sm_snapshot : M → option (list byte);
  sm_restore : list byte → M → option M
}.

Record CountingSm := { cs_applied : N }.

Definition CountingSm_new : CountingSm := {| cs_applied := 0 |}.

Definition CountingSm_apply (_ : LogEntry) (m : CountingSm) : CountingSm :=
  {| cs_applied := sat_add64 (cs_applied m) 1 |}.

Definition CountingSm_snapshot (m : CountingSm) : option (list byte) :=
  Some (to_le_bytes 8 (cs_applied m)).

(** [data.get(..8)] is [None] on a short buffer, which restores zero. *)
Definition CountingSm_restore (data : list byte) (_ : CountingSm) : option CountingSm :=
  Some {| cs_applied :=
    if decide (8 ≤ length data)%nat then from_le_bytes (take 8 data) else 0 |}.

#[export] Instance CountingSm_StateMachine : StateMachine CountingSm := {|
  sm_apply := CountingSm_apply;
  sm_snapshot := CountingSm_snapshot;
  sm_restore := CountingSm_restore
|}.

(** Restoring a snapshot of any u64 counter gives the counter back. *)
Lemma CountingSm_snapshot_restore m m' data :
  cs_applied m ≤ U64_MAX → sm_snapshot m = Some data → sm_restore data m' = Some m.
Proof.
  simpl. unfold CountingSm_snapshot, CountingSm_restore. intros Hm [= <-].
  rewrite length_to_le_bytes, decide_True by lia.
  rewrite take_ge by (rewrite length_to_le_bytes; lia).
  rewrite from_to_le_bytes.
  - by destruct m.
  - change (256 ^ N.of_nat 8) with 18446744073709551616. unfold U64_MAX in Hm. lia.
Qed.
