(* ===== verification/RaftStorage.v ===== *)
(** * Raft: the storage seam

    crates/ironcache-raft/src/raft_storage.rs: the [RaftStorage] trait, the
    in-memory [MemStorage], and what the engine may rely on.  The trait is the
    class [RaftStorage]; its laws, [RaftStorageLaws], say that an implementation
    is observationally [MemStorage], the reference the engine is tested with.
    [mem_wf] is the shape of a well-formed store: consecutive indices above the
    snapshot point. *)

From Stdlib Require Import Lia ZArith NArith.
From S2P Require Import Prelude RaftTypes.

Open Scope N_scope.

Record SnapshotMeta := mkMeta {
  last_included_index : N;
  last_included_term : N
}.

(** The trait.  [compact_to] computes [index + 1] and panics on overflow. *)
Class RaftStorage (S : Type) := {
  current_term : S → N;
  set_current_term : N → S → S;
  voted_for : S → option NodeId;
  set_voted_for : option NodeId → S → S;
  last_log_index : S → N;
  last_log_term : S → N;
  append : LogEntry → S → S;
  term_at : N → S → N;
  entries_from : N → S → list LogEntry;
  truncate_from : N → S → S;
  append_entries : list LogEntry → S → S;
  entry_at : N → S → option LogEntry;
  save_snapshot : SnapshotMeta → list byte → S → S;
  load_snapshot : S → option (SnapshotMeta * list byte);
  compact_to : N → S → option S;
  log_start_index : S → N;
  save_config_baseline : gset NodeId → gset NodeId → S → S;
  load_config_baseline : S → option Membership
}.

(** ** MemStorage *)

Record MemStorage := mkMem {
  m_current_term : N;
  m_voted_for : option NodeId;
  m_log : list LogEntry;
  m_log_start : N;
  m_snap_meta : option SnapshotMeta;
  m_snap_data : list byte;
  m_config_baseline : option Membership
}.

Definition mem_new : MemStorage := mkMem 0 None [] 0 None [] None.

Definition mem_set_log (l : list LogEntry) (m : MemStorage) : MemStorage :=
  mkMem (m_current_term m) (m_voted_for m) l (m_log_start m) (m_snap_meta m)
    (m_snap_data m) (m_config_baseline m).

Definition mem_start (m : MemStorage) : N :=
  if decide (m_log_start m = 0) then 1 else m_log_start m.

Definition mem_pos_of (m : MemStorage) (index : N) : option nat :=
  let start := mem_start m in
  if decide (index < start) then None
  else let p := N.to_nat (index - start) in
       if decide (p < length (m_log m))%nat then Some p else None.

Definition mem_set_current_term (t : N) (m : MemStorage) : MemStorage :=
  mkMem t (m_voted_for m) (m_log m) (m_log_start m) (m_snap_meta m) (m_snap_data m)
    (m_config_baseline m).

Definition mem_set_voted_for (v : option NodeId) (m : MemStorage) : MemStorage :=
  mkMem (m_current_term m) v (m_log m) (m_log_start m) (m_snap_meta m) (m_snap_data m)
    (m_config_baseline m).

Definition mem_last_log_index (m : MemStorage) : N :=
  match last (m_log m) with
  | Some e => e_index e
  | None => match m_snap_meta m with Some meta => last_included_index meta | None => 0 end
  end.

Definition mem_last_log_term (m : MemStorage) : N :=
  match last (m_log m) with
  | Some e => e_term e
  | None => match m_snap_meta m with Some meta => last_included_term meta | None => 0 end
  end.

Definition mem_append (e : LogEntry) (m : MemStorage) : MemStorage :=
  mem_set_log (m_log m ++ [e]) m.

(** The log lookup behind [term_at] and [entry_at]: [self.log[pos_of(index)]]. *)
Definition mem_log_at (m : MemStorage) (index : N) : option LogEntry :=
  match mem_pos_of m index with
  | Some pos => m_log m !! pos
  | None => None
  end.

Definition mem_term_at (index : N) (m : MemStorage) : N :=
  if decide (index = 0) then 0 else
  match m_snap_meta m with
  | Some meta =>
      if decide (index = last_included_index meta) then last_included_term meta
      else default 0 (e_term <$> mem_log_at m index)
  | None => default 0 (e_term <$> mem_log_at m index)
  end.

Definition mem_entries_from (index : N) (m : MemStorage) : list LogEntry :=
  let start := mem_start m in
  let from := N.max index start in
  drop (N.to_nat (from - start)) (m_log m).

Definition mem_truncate_from (index : N) (m : MemStorage) : MemStorage :=
  let start := mem_start m in
  let keep := if decide (index ≤ start) then 0%nat else N.to_nat (index - start) in
  if decide (keep < length (m_log m))%nat then mem_set_log (take keep (m_log m)) m else m.

Definition mem_append_entries (es : list LogEntry) (m : MemStorage) : MemStorage :=
  mem_set_log (m_log m ++ es) m.

Definition mem_entry_at (index : N) (m : MemStorage) : option LogEntry :=
  if decide (index = 0) then None else mem_log_at m index.

Definition mem_save_snapshot (meta : SnapshotMeta) (data : list byte) (m : MemStorage) : MemStorage :=
  mkMem (m_current_term m) (m_voted_for m) (m_log m) (m_log_start m) (Some meta) data
    (m_config_baseline m).

Definition mem_load_snapshot (m : MemStorage) : option (SnapshotMeta * list byte) :=
  match m_snap_meta m with Some meta => Some (meta, m_snap_data m) | None => None end.

Definition mem_compact_to (index : N) (m : MemStorage) : option MemStorage :=
  let start := mem_start m in
  if decide (index < start ∨ index = 0) then Some m
  else
    let d := Nat.min (N.to_nat (index - start + 1)) (length (m_log m)) in
    match add64 index 1 with
    | Some s' =>
        Some (mkMem (m_current_term m) (m_voted_for m) (drop d (m_log m)) s' (m_snap_meta m)
                (m_snap_data m) (m_config_baseline m))
    | None => None
    end.

Definition mem_save_config_baseline (voters learners : gset NodeId) (m : MemStorage) : MemStorage :=
  mkMem (m_current_term m) (m_voted_for m) (m_log m) (m_log_start m) (m_snap_meta m)
    (m_snap_data m) (Some (voters, learners)).

#[export] Instance MemStorage_RaftStorage : RaftStorage MemStorage := {|
  current_term := m_current_term;
  set_current_term := mem_set_current_term;
  voted_for := m_voted_for;
  set_voted_for := mem_set_voted_for;
  last_log_index := mem_last_log_index;
  last_log_term := mem_last_log_term;
  append := mem_append;
  term_at := mem_term_at;
  entries_from := mem_entries_from;
  truncate_from := mem_truncate_from;
  append_entries := mem_append_entries;
  entry_at := mem_entry_at;
  save_snapshot := mem_save_snapshot;
  load_snapshot := mem_load_snapshot;
  compact_to := mem_compact_to;
  log_start_index := mem_start;
  save_config_baseline := mem_save_config_baseline;
  load_config_baseline := m_config_baseline
|}.

(** ** The contract

    [abs] is the in-memory store an implementation stands for.  Every getter
    reads it and every update commutes with it. *)
Class RaftStorageLaws (S : Type) `{RaftStorage S} := {
  abs : S → MemStorage;
  abs_current_term s : current_term s = m_current_term (abs s);
  abs_voted_for s : voted_for s = m_voted_for (abs s);
  abs_last_log_index s : last_log_index s = mem_last_log_index (abs s);
  abs_last_log_term s : last_log_term s = mem_last_log_term (abs s);
  abs_term_at i s : term_at i s = mem_term_at i (abs s);
  abs_entries_from i s : entries_from i s = mem_entries_from i (abs s);
  abs_entry_at i s : entry_at i s = mem_entry_at i (abs s);
  abs_load_snapshot s : load_snapshot s = mem_load_snapshot (abs s);
  abs_log_start_index s : log_start_index s = mem_start (abs s);
  abs_load_config_baseline s : load_config_baseline s = m_config_baseline (abs s);
  abs_set_current_term t s : abs (set_current_term t s) = mem_set_current_term t (abs s);
  abs_set_voted_for v s : abs (set_voted_for v s) = mem_set_voted_for v (abs s);
  abs_append e s : abs (append e s) = mem_append e (abs s);
  abs_truncate_from i s : abs (truncate_from i s) = mem_truncate_from i (abs s);
  abs_append_entries es s : abs (append_entries es s) = mem_append_entries es (abs s);
  abs_save_snapshot meta d s : abs (save_snapshot meta d s) = mem_save_snapshot meta d (abs s);
  abs_compact_to i s : abs <$> compact_to i s = mem_compact_to i (abs s);
  abs_save_config_baseline v l s :
    abs (save_config_baseline v l s) = mem_save_config_baseline v l (abs s)
}.

#[export, refine] Instance MemStorage_laws : RaftStorageLaws MemStorage := {| abs := id |}.
Proof. all: intros; try reflexivity. simpl. by destruct (mem_compact_to i s). Defined.

Create Rewrite HintDb storage.
#[export] Hint Rewrite @abs_set_current_term @abs_set_voted_for @abs_append
  @abs_truncate_from @abs_append_entries @abs_save_snapshot @abs_save_config_baseline : storage.

(** Read every getter off the abstract store. *)
Ltac to_abs :=
  rewrite ?abs_current_term, ?abs_voted_for, ?abs_last_log_index, ?abs_last_log_term,
    ?abs_term_at, ?abs_entries_from, ?abs_entry_at, ?abs_load_snapshot, ?abs_log_start_index,
    ?abs_load_config_baseline in *;
  autorewrite with storage in *.
