(* ===== verification/RaftNode.v ===== *)
(** * Raft: the step engine

    crates/ironcache-raft/src/lib.rs: [RaftNode] with every handler of the
    engine.  A handler is a [step] over [Ctx], the node together with the
    random source and the effects it records; [None] is a panic (an overflow,
    or the [expect] in [apply_committed]).  The storage and the state machine
    are the classes of RaftStorage.v and RaftTypes.v. *)

From Stdlib Require Import Lia ZArith NArith.
From S2P Require Import Prelude Env RaftTypes RaftStorage.

Open Scope N_scope.

(** The reassembly buffer of a chunked snapshot transfer. *)
Record SnapshotRx := mkRx {
  rx_last_included_index : N;
  rx_last_included_term : N;
  rx_voters : gset NodeId;
  rx_learners : gset NodeId;
  rx_data : list byte
}.

Section node.
Context {S M R : Type}.

Record RaftNode := mkNode {
  n_id : NodeId;
  n_voters : gset NodeId;
  n_learners : gset NodeId;
  n_config_baseline : Membership;
  n_role : Role;
  n_votes : gset NodeId;
  n_pre_votes : option (gset NodeId);
  n_pre_vote_term : N;
  n_failed_pre_vote_rounds : N;
  n_pre_vote_round_responded : bool;
  n_last_leader_contact : option Monotonic;
  n_quorum_contact : gmap NodeId Monotonic;
  n_leader_id : option NodeId;
  n_config : RaftConfig;
  n_storage : S;
  n_commit_index : N;
  n_last_applied : N;
  n_next_index : gmap NodeId N;
  n_match_index : gmap NodeId N;
  n_applied_count : N;
  n_snapshot_next_offset : gmap NodeId N;
  n_snapshot_rx : option SnapshotRx;
  n_sm : M
}.

(** Field updates. *)
Definition set_voters (v : gset NodeId) (n : RaftNode) : RaftNode :=
  mkNode (n_id n) v (n_learners n) (n_config_baseline n) (n_role n) (n_votes n)
    (n_pre_votes n) (n_pre_vote_term n) (n_failed_pre_vote_rounds n)
    (n_pre_vote_round_responded n) (n_last_leader_contact n) (n_quorum_contact n)
    (n_leader_id n) (n_config n) (n_storage n) (n_commit_index n) (n_last_applied n)
    (n_next_index n) (n_match_index n) (n_applied_count n) (n_snapshot_next_offset n)
    (n_snapshot_rx n) (n_sm n).
Definition set_learners (v : gset NodeId) (n : RaftNode) : RaftNode :=
  mkNode (n_id n) (n_voters n) v (n_config_baseline n) (n_role n) (n_votes n)
    (n_pre_votes n) (n_pre_vote_term n) (n_failed_pre_vote_rounds n)
    (n_pre_vote_round_responded n) (n_last_leader_contact n) (n_quorum_contact n)
    (n_leader_id n) (n_config n) (n_storage n) (n_commit_index n) (n_last_applied n)
    (n_next_index n) (n_match_index n) (n_applied_count n) (n_snapshot_next_offset n)
    (n_snapshot_rx n) (n_sm n).
Definition set_config_baseline (v : Membership) (n : RaftNode) : RaftNode :=
  mkNode (n_id n) (n_voters n) (n_learners n) v (n_role n) (n_votes n) (n_pre_votes n)
    (n_pre_vote_term n) (n_failed_pre_vote_rounds n) (n_pre_vote_round_responded n)
    (n_last_leader_contact n) (n_quorum_contact n) (n_leader_id n) (n_config n)
    (n_storage n) (n_commit_index n) (n_last_applied n) (n_next_index n) (n_match_index n)
    (n_applied_count n) (n_snapshot_next_offset n) (n_snapshot_rx n) (n_sm n).
Definition set_role (v : Role) (n : RaftNode) : RaftNode :=
  mkNode (n_id n) (n_voters n) (n_learners n) (n_config_baseline n) v (n_votes n)
    (n_pre_votes n) (n_pre_vote_term n) (n_failed_pre_vote_rounds n)
    (n_pre_vote_round_responded n) (n_last_leader_contact n) (n_quorum_contact n)
    (n_leader_id n) (n_config n) (n_storage n) (n_commit_index n) (n_last_applied n)
    (n_next_index n) (n_match_index n) (n_applied_count n) (n_snapshot_next_offset n)
    (n_snapshot_rx n) (n_sm n).
Definition set_votes (v : gset NodeId) (n : RaftNode) : RaftNode :=
  mkNode (n_id n) (n_voters n) (n_learners n) (n_config_baseline n) (n_role n) v
    (n_pre_votes n) (n_pre_vote_term n) (n_failed_pre_vote_rounds n)
    (n_pre_vote_round_responded n) (n_last_leader_contact n) (n_quorum_contact n)
    (n_leader_id n) (n_config n) (n_storage n) (n_commit_index n) (n_last_applied n)
    (n_next_index n) (n_match_index n) (n_applied_count n) (n_snapshot_next_offset n)
    (n_snapshot_rx n) (n_sm n).
Definition set_pre_votes (v : option (gset NodeId)) (n : RaftNode) : RaftNode :=
  mkNode (n_id n) (n_voters n) (n_learners n) (n_config_baseline n) (n_role n) (n_votes n) v
    (n_pre_vote_term n) (n_failed_pre_vote_rounds n) (n_pre_vote_round_responded n)
    (n_last_leader_contact n) (n_quorum_contact n) (n_leader_id n) (n_config n)
    (n_storage n) (n_commit_index n) (n_last_applied n) (n_next_index n) (n_match_index n)
    (n_applied_count n) (n_snapshot_next_offset n) (n_snapshot_rx n) (n_sm n).
Definition set_pre_vote_term (v : N) (n : RaftNode) : RaftNode :=
  mkNode (n_id n) (n_voters n) (n_learners n) (n_config_baseline n) (n_role n) (n_votes n)
    (n_pre_votes n) v (n_failed_pre_vote_rounds n) (n_pre_vote_round_responded n)
    (n_last_leader_contact n) (n_quorum_contact n) (n_leader_id n) (n_config n)
    (n_storage n) (n_commit_index n) (n_last_applied n) (n_next_index n) (n_match_index n)
    (n_applied_count n) (n_snapshot_next_offset n) (n_snapshot_rx n) (n_sm n).
Definition set_failed_pre_vote_rounds (v : N) (n : RaftNode) : RaftNode :=
  mkNode (n_id n) (n_voters n) (n_learners n) (n_config_baseline n) (n_role n) (n_votes n)
    (n_pre_votes n) (n_pre_vote_term n) v (n_pre_vote_round_responded n)
    (n_last_leader_contact n) (n_quorum_contact n) (n_leader_id n) (n_config n)
    (n_storage n) (n_commit_index n) (n_last_applied n) (n_next_index n) (n_match_index n)
    (n_applied_count n) (n_snapshot_next_offset n) (n_snapshot_rx n) (n_sm n).
Definition set_pre_vote_round_responded (v : bool) (n : RaftNode) : RaftNode :=
  mkNode (n_id n) (n_voters n) (n_learners n) (n_config_baseline n) (n_role n) (n_votes n)
    (n_pre_votes n) (n_pre_vote_term n) (n_failed_pre_vote_rounds n) v
    (n_last_leader_contact n) (n_quorum_contact n) (n_leader_id n) (n_config n)
    (n_storage n) (n_commit_index n) (n_last_applied n) (n_next_index n) (n_match_index n)
    (n_applied_count n) (n_snapshot_next_offset n) (n_snapshot_rx n) (n_sm n).
Definition set_last_leader_contact (v : option Monotonic) (n : RaftNode) : RaftNode :=
  mkNode (n_id n) (n_voters n) (n_learners n) (n_config_baseline n) (n_role n) (n_votes n)
    (n_pre_votes n) (n_pre_vote_term n) (n_failed_pre_vote_rounds n)
    (n_pre_vote_round_responded n) v (n_quorum_contact n) (n_leader_id n) (n_config n)
    (n_storage n) (n_commit_index n) (n_last_applied n) (n_next_index n) (n_match_index n)
    (n_applied_count n) (n_snapshot_next_offset n) (n_snapshot_rx n) (n_sm n).
Definition set_quorum_contact (v : gmap NodeId Monotonic) (n : RaftNode) : RaftNode :=
  mkNode (n_id n) (n_voters n) (n_learners n) (n_config_baseline n) (n_role n) (n_votes n)
    (n_pre_votes n) (n_pre_vote_term n) (n_failed_pre_vote_rounds n)
    (n_pre_vote_round_responded n) (n_last_leader_contact n) v (n_leader_id n) (n_config n)
    (n_storage n) (n_commit_index n) (n_last_applied n) (n_next_index n) (n_match_index n)
    (n_applied_count n) (n_snapshot_next_offset n) (n_snapshot_rx n) (n_sm n).
Definition set_leader_id (v : option NodeId) (n : RaftNode) : RaftNode :=
  mkNode (n_id n) (n_voters n) (n_learners n) (n_config_baseline n) (n_role n) (n_votes n)
    (n_pre_votes n) (n_pre_vote_term n) (n_failed_pre_vote_rounds n)
    (n_pre_vote_round_responded n) (n_last_leader_contact n) (n_quorum_contact n) v
    (n_config n) (n_storage n) (n_commit_index n) (n_last_applied n) (n_next_index n)
    (n_match_index n) (n_applied_count n) (n_snapshot_next_offset n) (n_snapshot_rx n)
    (n_sm n).
Definition set_storage (v : S) (n : RaftNode) : RaftNode :=
  mkNode (n_id n) (n_voters n) (n_learners n) (n_config_baseline n) (n_role n) (n_votes n)
    (n_pre_votes n) (n_pre_vote_term n) (n_failed_pre_vote_rounds n)
    (n_pre_vote_round_responded n) (n_last_leader_contact n) (n_quorum_contact n)
    (n_leader_id n) (n_config n) v (n_commit_index n) (n_last_applied n) (n_next_index n)
    (n_match_index n) (n_applied_count n) (n_snapshot_next_offset n) (n_snapshot_rx n)
    (n_sm n).
Definition set_commit_index (v : N) (n : RaftNode) : RaftNode :=
  mkNode (n_id n) (n_voters n) (n_learners n) (n_config_baseline n) (n_role n) (n_votes n)
    (n_pre_votes n) (n_pre_vote_term n) (n_failed_pre_vote_rounds n)
    (n_pre_vote_round_responded n) (n_last_leader_contact n) (n_quorum_contact n)
    (n_leader_id n) (n_config n) (n_storage n) v (n_last_applied n) (n_next_index n)
    (n_match_index n) (n_applied_count n) (n_snapshot_next_offset n) (n_snapshot_rx n)
    (n_sm n).
Definition set_last_applied (v : N) (n : RaftNode) : RaftNode :=
  mkNode (n_id n) (n_voters n) (n_learners n) (n_config_baseline n) (n_role n) (n_votes n)
    (n_pre_votes n) (n_pre_vote_term n) (n_failed_pre_vote_rounds n)
    (n_pre_vote_round_responded n) (n_last_leader_contact n) (n_quorum_contact n)
    (n_leader_id n) (n_config n) (n_storage n) (n_commit_index n) v (n_next_index n)
    (n_match_index n) (n_applied_count n) (n_snapshot_next_offset n) (n_snapshot_rx n)
    (n_sm n).
Definition set_next_index (v : gmap NodeId N) (n : RaftNode) : RaftNode :=
  mkNode (n_id n) (n_voters n) (n_learners n) (n_config_baseline n) (n_role n) (n_votes n)
    (n_pre_votes n) (n_pre_vote_term n) (n_failed_pre_vote_rounds n)
    (n_pre_vote_round_responded n) (n_last_leader_contact n) (n_quorum_contact n)
    (n_leader_id n) (n_config n) (n_storage n) (n_commit_index n) (n_last_applied n) v
    (n_match_index n) (n_applied_count n) (n_snapshot_next_offset n) (n_snapshot_rx n)
    (n_sm n).
Definition set_match_index (v : gmap NodeId N) (n : RaftNode) : RaftNode :=
  mkNode (n_id n) (n_voters n) (n_learners n) (n_config_baseline n) (n_role n) (n_votes n)
    (n_pre_votes n) (n_pre_vote_term n) (n_failed_pre_vote_rounds n)
    (n_pre_vote_round_responded n) (n_last_leader_contact n) (n_quorum_contact n)
    (n_leader_id n) (n_config n) (n_storage n) (n_commit_index n) (n_last_applied n)
    (n_next_index n) v (n_applied_count n) (n_snapshot_next_offset n) (n_snapshot_rx n)
    (n_sm n).
Definition set_applied_count (v : N) (n : RaftNode) : RaftNode :=
  mkNode (n_id n) (n_voters n) (n_learners n) (n_config_baseline n) (n_role n) (n_votes n)
    (n_pre_votes n) (n_pre_vote_term n) (n_failed_pre_vote_rounds n)
    (n_pre_vote_round_responded n) (n_last_leader_contact n) (n_quorum_contact n)
    (n_leader_id n) (n_config n) (n_storage n) (n_commit_index n) (n_last_applied n)
    (n_next_index n) (n_match_index n) v (n_snapshot_next_offset n) (n_snapshot_rx n)
    (n_sm n).
Definition set_snapshot_next_offset (v : gmap NodeId N) (n : RaftNode) : RaftNode :=
  mkNode (n_id n) (n_voters n) (n_learners n) (n_config_baseline n) (n_role n) (n_votes n)
    (n_pre_votes n) (n_pre_vote_term n) (n_failed_pre_vote_rounds n)
    (n_pre_vote_round_responded n) (n_last_leader_contact n) (n_quorum_contact n)
    (n_leader_id n) (n_config n) (n_storage n) (n_commit_index n) (n_last_applied n)
    (n_next_index n) (n_match_index n) (n_applied_count n) v (n_snapshot_rx n) (n_sm n).
Definition set_snapshot_rx (v : option SnapshotRx) (n : RaftNode) : RaftNode :=
  mkNode (n_id n) (n_voters n) (n_learners n) (n_config_baseline n) (n_role n) (n_votes n)
    (n_pre_votes n) (n_pre_vote_term n) (n_failed_pre_vote_rounds n)
    (n_pre_vote_round_responded n) (n_last_leader_contact n) (n_quorum_contact n)
    (n_leader_id n) (n_config n) (n_storage n) (n_commit_index n) (n_last_applied n)
    (n_next_index n) (n_match_index n) (n_applied_count n) (n_snapshot_next_offset n) v
    (n_sm n).
Definition set_sm (v : M) (n : RaftNode) : RaftNode :=
  mkNode (n_id n) (n_voters n) (n_learners n) (n_config_baseline n) (n_role n) (n_votes n)
    (n_pre_votes n) (n_pre_vote_term n) (n_failed_pre_vote_rounds n)
    (n_pre_vote_round_responded n) (n_last_leader_contact n) (n_quorum_contact n)
    (n_leader_id n) (n_config n) (n_storage n) (n_commit_index n) (n_last_applied n)
    (n_next_index n) (n_match_index n) (n_applied_count n) (n_snapshot_next_offset n)
    (n_snapshot_rx n) v.

(** The receiver of a handler: the node, the random source, the effects. *)
Record Ctx := mkCtx { nd : RaftNode; rg : R; out : Effects }.

Definition with_nd (f : RaftNode → RaftNode) (c : Ctx) : Ctx := mkCtx (f (nd c)) (rg c) (out c).
Definition with_out (f : Effects → Effects) (c : Ctx) : Ctx := mkCtx (nd c) (rg c) (f (out c)).

Definition read {A} (f : RaftNode → A) : step Ctx A := gets (λ c, f (nd c)).
Definition self : step Ctx RaftNode := gets nd.
Definition upd (f : RaftNode → RaftNode) : step Ctx unit := modify (with_nd f).
Definition emit (f : Effects → Effects) : step Ctx unit := modify (with_out f).
Definition send (to : NodeId) (msg : RaftMsg) : step Ctx unit := emit (eff_send to msg).

Context `{RaftStorage S, StateMachine M, Rng R}.

(** [map.get(&k).copied().unwrap_or(d)], [map.entry(k).or_insert(d)]. *)
Definition get_or (m : gmap NodeId N) (k : NodeId) (d : N) : N := default d (m !! k).
Definition or_insert (k : NodeId) (d : N) (m : gmap NodeId N) : gmap NodeId N :=
  match m !! k with Some _ => m | None => <[k := d]> m end.

(** Updates of the persistent state. *)
Definition upd_storage (f : S → S) (n : RaftNode) : RaftNode := set_storage (f (n_storage n)) n.

(** ** Timers *)

Definition arm_election_timer : step Ctx unit := λ c,
  let cfg := n_config (nd c) in
  let base := election_timeout_base cfg in
  let jitter_ms := dur_as_millis_u64 (election_timeout_jitter cfg) in
  let '(extra, rg') := gen_below (rg c) jitter_ms in
  let after := dur_saturating_add base (dur_from_millis extra) in
  Some (tt, mkCtx (nd c) rg' (eff_set_timer ELECTION_TIMEOUT after (out c))).

Definition arm_election_timer_now : step Ctx unit :=
  n ← self;
  emit (eff_set_timer ELECTION_TIMEOUT (election_timeout_base (n_config n))).

Definition start (_ : Monotonic) : step Ctx unit := arm_election_timer.

Definition min_election_timeout (n : RaftNode) : Duration := election_timeout_base (n_config n).

Definition leader_is_fresh (now : Monotonic) (n : RaftNode) : bool :=
  match n_last_leader_contact n with
  | Some w => bool_decide (saturating_duration_since now w < min_election_timeout n)
  | None => false
  end.

(** ** Terms and roles *)

Definition observe_term (term : N) : step Ctx bool :=
  n ← self;
  if decide (current_term (n_storage n) < term) then
    upd (upd_storage (λ s, set_voted_for None (set_current_term term s)));;
    let was_leader := bool_decide (n_role n = Leader) in
    upd (set_role Follower);;
    upd (set_votes ∅);;
    upd (set_pre_votes None);;
    upd (set_quorum_contact ∅);;
    upd (set_failed_pre_vote_rounds 0);;
    upd (set_leader_id None);;
    upd (set_next_index ∅);;
    upd (set_match_index ∅);;
    upd (set_snapshot_next_offset ∅);;
    when was_leader (emit (eff_cancel_timer HEARTBEAT));;
    arm_election_timer;;
    mret true
  else mret false.

Definition step_down_to_follower : step Ctx unit :=
  n ← self;
  when (bool_decide (n_role n = Leader)) (emit (eff_cancel_timer HEARTBEAT));;
  upd (set_role Follower);;
  upd (set_votes ∅);;
  upd (set_next_index ∅);;
  upd (set_match_index ∅);;
  upd (set_snapshot_next_offset ∅);;
  upd (set_quorum_contact ∅).

(** ** Configuration *)

Definition apply_membership_delta (vl : Membership) (change : MembershipChange) : Membership :=
  let '(voters, learners) := vl in
  match change with
  | AddVoter node => (voters ∪ {[node]}, learners ∖ {[node]})
  | RemoveVoter node => (voters ∖ {[node]}, learners)
  | AddLearner node =>
      if decide (node ∈ voters) then (voters, learners) else (voters, learners ∪ {[node]})
  | PromoteLearner node => (voters ∪ {[node]}, learners ∖ {[node]})
  | RemoveLearner node => (voters, learners ∖ {[node]})
  end.

(** The effect of one log entry on the configuration. *)
Definition config_entry (s : S) (idx : N) (vl : Membership) : Membership :=
  match entry_at idx s with
  | Some e => match e_payload e with
              | ConfigChange change => apply_membership_delta vl change
              | _ => vl
              end
  | None => vl
  end.

(** The loop of [config_at] and [recompute_config_from_log]:
    [while idx <= last { ...; idx += 1 }]. *)
Fixpoint config_scan (fuel : nat) (s : S) (idx last : N) (vl : Membership) : option Membership :=
  if decide (idx ≤ last) then
    match fuel with
    | O => None
    | Datatypes.S fuel =>
        idx' ← add64 idx 1;
        config_scan fuel s idx' last (config_entry s idx vl)
    end
  else Some vl.

(** One unit of fuel per index of the range. *)
Definition scan_fuel (idx last : N) : nat := N.to_nat (last + 1 - idx).

Definition config_at (index : N) (n : RaftNode) : option Membership :=
  let s := n_storage n in
  let start := log_start_index s in
  let last := N.min (last_log_index s) index in
  config_scan (scan_fuel start last) s start last (n_config_baseline n).

Definition recompute_config_from_log (n : RaftNode) : option RaftNode :=
  let s := n_storage n in
  let start := log_start_index s in
  let last := last_log_index s in
  match config_scan (scan_fuel start last) s start last (n_config_baseline n) with
  | Some (voters, learners) => Some (set_learners learners (set_voters voters n))
  | None => None
  end.

Definition recompute_config : step Ctx unit :=
  n ← self;
  n' ← lift (recompute_config_from_log n);
  upd (λ _, n').

Definition committed_config_contains_self (n : RaftNode) : option bool :=
  match config_at (n_commit_index n) n with
  | Some (voters, _) => Some (bool_decide (n_id n ∈ voters))
  | None => None
  end.

Definition is_config_change (p : EntryPayload) : bool :=
  match p with ConfigChange _ => true | _ => false end.

Fixpoint in_flight_scan (fuel : nat) (s : S) (idx last : N) : option bool :=
  if decide (idx ≤ last) then
    match fuel with
    | O => None
    | Datatypes.S fuel =>
        if match entry_at idx s with Some e => is_config_change (e_payload e) | None => false end
        then Some true
        else idx' ← add64 idx 1; in_flight_scan fuel s idx' last
    end
  else Some false.

Definition membership_change_in_flight (n : RaftNode) : option bool :=
  let s := n_storage n in
  c1 ← add64 (n_commit_index n) 1;
  let start := N.max (log_start_index s) c1 in
  let last := last_log_index s in
  in_flight_scan (scan_fuel start last) s start last.

Definition learner_caught_up (learner : NodeId) (n : RaftNode) : option bool :=
  if decide (n_role n ≠ Leader ∨ learner ∉ n_learners n) then Some false
  else
    let last := last_log_index (n_storage n) in
    let mi := get_or (n_match_index n) learner 0 in
    x ← add64 mi LEARNER_CATCHUP_LAG;
    Some (bool_decide (last ≤ x)).

(** ** Applying and compacting *)

Definition maybe_compact : step Ctx unit :=
  n ← self;
  let threshold := snapshot_threshold (n_config n) in
  if decide (threshold = 0) then mret tt else
  let snap_index :=
    match load_snapshot (n_storage n) with
    | Some (meta, _) => last_included_index meta
    | None => 0
    end in
  if decide (n_last_applied n ≤ snap_index) then mret tt else
  let above_snapshot := n_last_applied n - snap_index in
  if decide (above_snapshot ≤ threshold) then mret tt else
  let lii := n_last_applied n in
  let lit := term_at lii (n_storage n) in
  data ← lift (sm_snapshot (n_sm n));
  baseline ← lift (config_at lii n);
  upd (upd_storage (save_config_baseline baseline.1 baseline.2));;
  upd (set_config_baseline baseline);;
  upd (upd_storage (save_snapshot (mkMeta lii lit) data));;
  s ← read n_storage;
  s' ← lift (compact_to lii s);
  upd (set_storage s').

(** [while last_applied < commit_index]: one iteration per index. *)
Fixpoint apply_loop (fuel : nat) : step Ctx unit :=
  match fuel with
  | O => mret tt
  | Datatypes.S fuel =>
      n ← self;
      if decide (n_last_applied n < n_commit_index n) then
        let next := n_last_applied n + 1 in
        entry ← lift (entry_at next (n_storage n));
        upd (set_last_applied next);;
        upd (λ n, set_sm (sm_apply entry (n_sm n)) n);;
        cnt ← lift (add64 (n_applied_count n) 1);
        upd (set_applied_count cnt);;
        apply_loop fuel
      else mret tt
  end.

Definition apply_committed : step Ctx unit :=
  n ← self;
  apply_loop (N.to_nat (n_commit_index n - n_last_applied n));;
  maybe_compact.

(** ** Replication *)

(** The chunk of a snapshot at a byte offset: its start, its bytes, and
    whether it is the last one. *)
Definition snapshot_chunk (cap : N) (data : list byte) (offset : N) : N * list byte * bool :=
  let total := N.of_nat (length data) in
  let start := N.min offset total in
  let chunk_cap := if decide (cap = 0) then total else cap in
  let end_ := N.min (sat_add64 start chunk_cap) total in
  let chunk := take (N.to_nat (end_ - start)) (drop (N.to_nat start) data) in
  (start, chunk, bool_decide (total ≤ end_)).

Definition send_snapshot_chunk_to (peer : NodeId) (offset : N) : step Ctx unit :=
  n ← self;
  match load_snapshot (n_storage n) with
  | None => upd (set_snapshot_next_offset (delete peer (n_snapshot_next_offset n)))
  | Some (meta, data) =>
      let term := current_term (n_storage n) in
      let '(voters, learners) := default (∅, ∅) (load_config_baseline (n_storage n)) in
      let '(start, chunk, done) := snapshot_chunk (snapshot_chunk_bytes (n_config n)) data offset in
      send peer (InstallSnapshot term (n_id n) (last_included_index meta)
                   (last_included_term meta) start chunk done voters learners)
  end.

Definition send_append_entries_to (peer : NodeId) : step Ctx unit :=
  n ← self;
  let s := n_storage n in
  let term := current_term s in
  let next := get_or (n_next_index n) peer 1 in
  let snapshot_it :=
    match load_snapshot s with
    | Some (meta, _) => bool_decide (next ≤ last_included_index meta)
    | None => false
    end in
  if snapshot_it then
    let offset := get_or (n_snapshot_next_offset n) peer 0 in
    upd (set_snapshot_next_offset (<[peer := offset]> (n_snapshot_next_offset n)));;
    send_snapshot_chunk_to peer offset
  else
    upd (set_snapshot_next_offset (delete peer (n_snapshot_next_offset n)));;
    let prev_log_index := next - 1 in
    let prev_log_term := term_at prev_log_index s in
    let entries := entries_from next s in
    send peer (AppendEntries term (n_id n) prev_log_index prev_log_term entries (n_commit_index n)).

(** Voters then learners, each ascending, without the node itself. *)
Definition replication_peers (n : RaftNode) : list NodeId :=
  filter (λ peer, peer ≠ n_id n) (btree_iter (n_voters n) ++ btree_iter (n_learners n)).

Definition broadcast_heartbeat : step Ctx unit :=
  n ← self;
  for_each (replication_peers n) send_append_entries_to.

(** How many voters hold index [i]: the leader itself if it votes, plus the
    voting peers whose [match_index] reaches [i]. *)
Definition replicated_count (n : RaftNode) (i : N) : nat :=
  (if decide (n_id n ∈ n_voters n) then 1 else 0) +
  size (filter (λ p : NodeId * N, p.1 ∈ n_voters n ∧ i ≤ p.2) (n_match_index n)).

(** [while n > commit_index]: the highest index of the current term a majority
    holds, scanning down from [i]. *)
Fixpoint commit_scan (fuel : nat) (nd : RaftNode) (i : N) : N :=
  match fuel with
  | O => n_commit_index nd
  | Datatypes.S fuel =>
      if decide (n_commit_index nd < i) then
        if decide (term_at i (n_storage nd) = current_term (n_storage nd) ∧
                   (majority_of (n_voters nd) ≤ replicated_count nd i)%nat)
        then i
        else commit_scan fuel nd (i - 1)
      else n_commit_index nd
  end.

Definition maybe_advance_commit : step Ctx unit :=
  n ← self;
  if decide (n_role n ≠ Leader) then mret tt else
  let last := last_log_index (n_storage n) in
  let new_commit := commit_scan (N.to_nat (last - n_commit_index n)) n last in
  when (bool_decide (n_commit_index n < new_commit))
    (upd (set_commit_index new_commit);;
     emit (note_committed_through new_commit);;
     apply_committed);;
  n ← self;
  in_cfg ← lift (committed_config_contains_self n);
  when (bool_decide (n_role n = Leader) && negb in_cfg)
    (step_down_to_follower;; arm_election_timer_now).

(** ** Elections *)

Definition maybe_become_leader (now : Monotonic) : step Ctx unit :=
  n ← self;
  if decide (n_role n ≠ Candidate) then mret tt else
  if decide (count_in (n_votes n) (n_voters n) < majority_of (n_voters n))%nat then mret tt else
  upd (set_role Leader);;
  upd (set_leader_id (Some (n_id n)));;
  upd (set_failed_pre_vote_rounds 0);;
  emit (eff_cancel_timer ELECTION_TIMEOUT);;
  next ← lift (add64 (last_log_index (n_storage n)) 1);
  let peers := replication_peers n in
  upd (set_next_index (foldr (λ p m, <[p := next]> m) ∅ peers));;
  upd (set_match_index (foldr (λ p m, <[p := 0]> m) ∅ peers));;
  upd (set_snapshot_next_offset ∅);;
  upd (set_quorum_contact (foldr (λ p m, <[p := now]> m) ∅ (btree_iter (n_voters n))));;
  upd (upd_storage (append (mkEntry (current_term (n_storage n)) next Noop)));;
  broadcast_heartbeat;;
  emit (eff_set_timer HEARTBEAT (heartbeat_interval (n_config n))).

Definition start_real_election (now : Monotonic) : step Ctx unit :=
  n ← self;
  new_term ← lift (add64 (current_term (n_storage n)) 1);
  upd (upd_storage (λ s, set_voted_for (Some (n_id n)) (set_current_term new_term s)));;
  upd (set_role Candidate);;
  upd (set_votes {[n_id n]});;
  upd (set_pre_votes None);;
  upd (set_leader_id None);;
  let lli := last_log_index (n_storage n) in
  let llt := last_log_term (n_storage n) in
  for_each (btree_iter (n_voters n)) (λ peer,
    when (bool_decide (peer ≠ n_id n)) (send peer (RequestVote new_term (n_id n) lli llt)));;
  maybe_become_leader now.

Definition maybe_promote_pre_candidate (now : Monotonic) : step Ctx unit :=
  n ← self;
  match n_pre_votes n with
  | None => mret tt
  | Some tally =>
      if decide (count_in tally (n_voters n) < majority_of (n_voters n))%nat then mret tt else
      upd (set_failed_pre_vote_rounds 0);;
      upd (set_pre_votes None);;
      start_real_election now
  end.

Definition start_pre_vote (now : Monotonic) : step Ctx unit :=
  n ← self;
  pre_term ← lift (add64 (current_term (n_storage n)) 1);
  upd (set_pre_vote_term pre_term);;
  upd (set_pre_votes (Some {[n_id n]}));;
  upd (set_pre_vote_round_responded false);;
  let lli := last_log_index (n_storage n) in
  let llt := last_log_term (n_storage n) in
  for_each (btree_iter (n_voters n)) (λ peer,
    when (bool_decide (peer ≠ n_id n)) (send peer (PreVote pre_term (n_id n) lli llt)));;
  arm_election_timer;;
  maybe_promote_pre_candidate now.

Definition on_election_timeout (now : Monotonic) : step Ctx unit :=
  n ← self;
  if decide (n_role n = Leader) then mret tt else
  if decide (n_id n ∉ n_voters n) then arm_election_timer else
  if pre_vote (n_config n) then
    when (bool_decide (is_Some (n_pre_votes n)) && n_pre_vote_round_responded n)
      (upd (set_failed_pre_vote_rounds (sat_add32 (n_failed_pre_vote_rounds n) 1)));;
    failed ← read n_failed_pre_vote_rounds;
    if decide (PRE_VOTE_FALLBACK_ROUNDS ≤ failed) then
      upd (set_failed_pre_vote_rounds 0);;
      upd (set_pre_votes None);;
      start_real_election now;;
      arm_election_timer
    else start_pre_vote now
  else
    start_real_election now;;
    arm_election_timer.

Definition candidate_log_up_to_date (cand_last_index cand_last_term : N) (n : RaftNode) : bool :=
  let my_term := last_log_term (n_storage n) in
  let my_index := last_log_index (n_storage n) in
  if decide (cand_last_term = my_term) then bool_decide (my_index ≤ cand_last_index)
  else bool_decide (my_term < cand_last_term).

Definition on_request_vote (now : Monotonic) (term : N) (candidate : NodeId)
    (lli llt : N) : step Ctx unit :=
  n ← self;
  if pre_vote (n_config n) && leader_is_fresh now n then
    send candidate (RequestVoteResp (current_term (n_storage n)) false)
  else
    observe_term term;;
    n ← self;
    let current := current_term (n_storage n) in
    let grant :=
      if decide (term < current) then false
      else
        let already := voted_for (n_storage n) in
        bool_decide (already = None ∨ already = Some candidate)
          && candidate_log_up_to_date lli llt n in
    when grant
      (upd (upd_storage (set_voted_for (Some candidate)));; arm_election_timer);;
    n ← self;
    send candidate (RequestVoteResp (current_term (n_storage n)) grant).

Definition on_pre_vote (now : Monotonic) (term : N) (candidate : NodeId)
    (lli llt : N) : step Ctx unit :=
  n ← self;
  let grant := bool_decide (current_term (n_storage n) < term)
                 && candidate_log_up_to_date lli llt n
                 && negb (leader_is_fresh now n) in
  send candidate (PreVoteResp term grant).

Definition on_pre_vote_resp (now : Monotonic) (from : NodeId) (term : N)
    (vote_granted : bool) : step Ctx unit :=
  n ← self;
  if decide (n_pre_votes n = None ∨ term ≠ n_pre_vote_term n) then mret tt else
  upd (set_pre_vote_round_responded true);;
  if negb vote_granted then mret tt else
  upd (λ n, set_pre_votes ((λ tally, tally ∪ {[from]}) <$> n_pre_votes n) n);;
  maybe_promote_pre_candidate now.

Definition record_vote (now : Monotonic) (voter : NodeId) (term : N) : step Ctx unit :=
  n ← self;
  if decide (n_role n ≠ Candidate ∨ term ≠ current_term (n_storage n)) then mret tt else
  upd (set_votes (n_votes n ∪ {[voter]}));;
  maybe_become_leader now.

Definition on_request_vote_resp (now : Monotonic) (from : NodeId) (term : N)
    (vote_granted : bool) : step Ctx unit :=
  stepped ← observe_term term;
  if (stepped : bool) then mret tt else
  if vote_granted then record_vote now from term else mret tt.

(** ** AppendEntries *)

(** The reconciliation loop: the store after a conflict truncation, the
    position of the first entry to append, and whether it truncated. *)
Fixpoint reconcile (s : S) (prev : N) (entries : list LogEntry) (i : nat)
    : option (S * nat * bool) :=
  match entries with
  | [] => Some (s, i, false)
  | entry :: rest =>
      p1 ← add64 prev 1;
      idx ← add64 p1 (N.of_nat i);
      let existing_term := term_at idx s in
      if decide (existing_term = 0) then Some (s, i, false)
      else if decide (existing_term ≠ e_term entry) then Some (truncate_from idx s, i, true)
      else reconcile s prev rest (Datatypes.S i)
  end.

(** The handler once the consistency check has passed: reconcile, adopt the
    configuration, advance the commit watermark, reply. *)
Definition accept_entries (current : N) (leader : NodeId) (prev_log_index : N)
    (entries : list LogEntry) (leader_commit : N) : step Ctx unit :=
  n ← self;
  r ← lift (reconcile (n_storage n) prev_log_index entries 0);
  let '(s', append_from, truncated) := r in
  upd (set_storage s');;
  let appended := bool_decide (append_from < length entries)%nat in
  when appended (upd (upd_storage (append_entries (drop append_from entries))));;
  when (truncated || appended) recompute_config;;
  last_new_index ← lift (add64 prev_log_index (N.of_nat (length entries)));
  commit ← read n_commit_index;
  when (bool_decide (commit < leader_commit))
    (let new_commit := N.min leader_commit last_new_index in
     when (bool_decide (commit < new_commit))
       (upd (set_commit_index new_commit);;
        emit (note_committed_through new_commit);;
        apply_committed));;
  send leader (AppendEntriesResp current true last_new_index).

Definition on_append_entries (now : Monotonic) (term : N) (leader : NodeId)
    (prev_log_index prev_log_term : N) (entries : list LogEntry) (leader_commit : N)
    : step Ctx unit :=
  observe_term term;;
  n ← self;
  let current := current_term (n_storage n) in
  if decide (term < current) then
    send leader (AppendEntriesResp current false (last_log_index (n_storage n)))
  else
    when (bool_decide (n_role n ≠ Follower)) step_down_to_follower;;
    arm_election_timer;;
    upd (set_leader_id (Some leader));;
    upd (set_last_leader_contact (Some now));;
    upd (set_pre_votes None);;
    upd (set_failed_pre_vote_rounds 0);;
    n ← self;
    if decide (term_at prev_log_index (n_storage n) ≠ prev_log_term) then
      send leader (AppendEntriesResp current false (last_log_index (n_storage n)))
    else
      accept_entries current leader prev_log_index entries leader_commit.

Definition on_append_entries_resp (now : Monotonic) (from : NodeId) (term : N)
    (success : bool) (match_idx : N) : step Ctx unit :=
  stepped ← observe_term term;
  if (stepped : bool) then mret tt else
  n ← self;
  if decide (n_role n ≠ Leader ∨ term ≠ current_term (n_storage n)) then mret tt else
  if success then
    upd (set_quorum_contact (<[from := now]> (n_quorum_contact n)));;
    let mi := N.max (get_or (n_match_index n) from 0) match_idx in
    upd (set_match_index (<[from := mi]> (n_match_index n)));;
    next ← lift (add64 mi 1);
    upd (set_next_index (<[from := next]> (n_next_index n)));;
    maybe_advance_commit
  else
    let ni := get_or (n_next_index n) from 1 in
    upd (set_next_index (<[from := if decide (1 < ni) then ni - 1 else ni]> (n_next_index n)));;
    send_append_entries_to from.

(** ** Heartbeats and check-quorum *)

Definition contact_fresh (now : Monotonic) (window : Duration) (w : option Monotonic) : bool :=
  match w with
  | Some w => bool_decide (saturating_duration_since now w < window)
  | None => false
  end.

Definition has_quorum_contact (now : Monotonic) (n : RaftNode) : bool :=
  let window := min_election_timeout n in
  let self_fresh := if decide (n_id n ∈ n_voters n) then 1%nat else 0%nat in
  let peers_fresh := length (filter (λ peer,
      peer ≠ n_id n ∧ contact_fresh now window (n_quorum_contact n !! peer) = true)
      (btree_iter (n_voters n))) in
  bool_decide (majority_of (n_voters n) ≤ self_fresh + peers_fresh)%nat.

Definition on_heartbeat_timer (now : Monotonic) : step Ctx unit :=
  n ← self;
  if decide (n_role n ≠ Leader) then mret tt else
  if check_quorum (n_config n) && negb (has_quorum_contact now n) then
    step_down_to_follower;;
    upd (set_leader_id None);;
    arm_election_timer
  else
    broadcast_heartbeat;;
    emit (eff_set_timer HEARTBEAT (heartbeat_interval (n_config n))).

Definition on_timer (now : Monotonic) (token : N) : step Ctx unit :=
  if decide (token = ELECTION_TIMEOUT) then on_election_timeout now
  else if decide (token = HEARTBEAT) then on_heartbeat_timer now
  else mret tt.

(** ** Snapshots *)

Definition install_assembled_snapshot (rx : SnapshotRx) : step Ctx unit :=
  n ← self;
  let lii := rx_last_included_index rx in
  let lit := rx_last_included_term rx in
  let suffix_valid := bool_decide (term_at lii (n_storage n) = lit) in
  when (negb suffix_valid)
    (upd (upd_storage (λ s, truncate_from (log_start_index s) s)));;
  upd (upd_storage (save_snapshot (mkMeta lii lit) (rx_data rx)));;
  s ← read n_storage;
  s' ← lift (compact_to lii s);
  upd (set_storage s');;
  m ← read n_sm;
  m' ← lift (sm_restore (rx_data rx) m);
  upd (set_sm m');;
  upd (set_config_baseline (rx_voters rx, rx_learners rx));;
  upd (upd_storage (save_config_baseline (rx_voters rx) (rx_learners rx)));;
  recompute_config;;
  upd (set_commit_index lii);;
  upd (set_last_applied lii);;
  emit (note_committed_through lii).

(** Does the buffer belong to the snapshot this chunk names? *)
Definition rx_same (rx : SnapshotRx) (lii lit : N) : bool :=
  bool_decide (rx_last_included_index rx = lii ∧ rx_last_included_term rx = lit).

Definition rx_extend (data : list byte) (rx : SnapshotRx) : SnapshotRx :=
  mkRx (rx_last_included_index rx) (rx_last_included_term rx) (rx_voters rx) (rx_learners rx)
    (rx_data rx ++ data).

Definition rx_len (rx : SnapshotRx) : N := N.of_nat (length (rx_data rx)).

(** The buffer after this chunk, or [None] when the chunk is not the next one. *)
Definition rx_accept (orx : option SnapshotRx) (lii lit offset : N) (data : list byte)
    (voters learners : gset NodeId) : option SnapshotRx :=
  if decide (offset = 0) then Some (mkRx lii lit voters learners data)
  else match orx with
       | Some rx =>
           if rx_same rx lii lit && bool_decide (offset = rx_len rx)
           then Some (rx_extend data rx) else None
       | None => None
       end.

Definition on_install_snapshot (now : Monotonic) (term : N) (leader : NodeId) (lii lit : N)
    (offset : N) (data : list byte) (done : bool) (voters learners : gset NodeId)
    : step Ctx unit :=
  observe_term term;;
  n ← self;
  let current := current_term (n_storage n) in
  if decide (term < current) then send leader (InstallSnapshotResp current lii false 0)
  else
    when (bool_decide (n_role n ≠ Follower)) step_down_to_follower;;
    arm_election_timer;;
    upd (set_leader_id (Some leader));;
    upd (set_last_leader_contact (Some now));;
    upd (set_pre_votes None);;
    upd (set_failed_pre_vote_rounds 0);;
    orx ← read n_snapshot_rx;
    match rx_accept orx lii lit offset data voters learners with
    | None =>
        let expect := match orx with
                      | Some rx => if rx_same rx lii lit then rx_len rx else 0
                      | None => 0
                      end in
        send leader (InstallSnapshotResp current lii false expect)
    | Some rx =>
        upd (set_snapshot_rx (Some rx));;
        if negb done then send leader (InstallSnapshotResp current lii false (rx_len rx))
        else
          upd (set_snapshot_rx None);;
          commit ← read n_commit_index;
          if decide (rx_last_included_index rx ≤ commit) then
            send leader (InstallSnapshotResp current (rx_last_included_index rx) true 0)
          else
            install_assembled_snapshot rx;;
            send leader (InstallSnapshotResp current (rx_last_included_index rx) true 0)
    end.

Definition on_install_snapshot_resp (from : NodeId) (term installed_index : N)
    (installed : bool) (next_offset : N) : step Ctx unit :=
  stepped ← observe_term term;
  if (stepped : bool) then mret tt else
  n ← self;
  if decide (n_role n ≠ Leader ∨ term ≠ current_term (n_storage n)) then mret tt else
  if negb installed then
    match n_snapshot_next_offset n !! from with
    | Some _ =>
        upd (set_snapshot_next_offset (<[from := next_offset]> (n_snapshot_next_offset n)));;
        send_snapshot_chunk_to from next_offset
    | None => mret tt
    end
  else
    upd (set_snapshot_next_offset (delete from (n_snapshot_next_offset n)));;
    let mi := N.max (get_or (n_match_index n) from 0) installed_index in
    upd (set_match_index (<[from := mi]> (n_match_index n)));;
    next ← lift (add64 mi 1);
    upd (set_next_index (<[from := next]> (n_next_index n)));;
    maybe_advance_commit;;
    send_append_entries_to from.

(** ** Proposals *)

Definition propose (payload : EntryPayload) : step Ctx (option N) :=
  n ← self;
  if decide (n_role n ≠ Leader) then mret None else
  let cc := is_config_change payload in
  refused ← (if cc then lift (membership_change_in_flight n) else mret false);
  if (refused : bool) then mret None else
  index ← lift (add64 (last_log_index (n_storage n)) 1);
  let term := current_term (n_storage n) in
  upd (upd_storage (append (mkEntry term index payload)));;
  when cc
    (recompute_config;;
     n ← self;
     next ← lift (add64 (last_log_index (n_storage n)) 1);
     let peers := replication_peers n in
     upd (λ n, set_next_index (foldr (λ p, or_insert p next) (n_next_index n) peers) n);;
     upd (λ n, set_match_index (foldr (λ p, or_insert p 0) (n_match_index n) peers) n));;
  broadcast_heartbeat;;
  maybe_advance_commit;;
  mret (Some index).

Definition propose_membership_change (change : MembershipChange) : step Ctx (option N) :=
  propose (ConfigChange change).

(** ** Dispatch and construction *)

Definition on_message (now : Monotonic) (from : NodeId) (msg : RaftMsg) : step Ctx unit :=
  match msg with
  | RequestVote term candidate lli llt => on_request_vote now term candidate lli llt
  | RequestVoteResp term granted => on_request_vote_resp now from term granted
  | PreVote term candidate lli llt => on_pre_vote now term candidate lli llt
  | PreVoteResp term granted => on_pre_vote_resp now from term granted
  | AppendEntries term leader pli plt entries commit =>
      on_append_entries now term leader pli plt entries commit
  | AppendEntriesResp term success mi => on_append_entries_resp now from term success mi
  | Propose payload => propose payload;; mret tt
  | ForwardPropose _ _ | ForwardProposeResult _ _ => mret tt
  | InstallSnapshot term leader lii lit offset data done voters learners =>
      on_install_snapshot now term leader lii lit offset data done voters learners
  | InstallSnapshotResp term lii installed next_offset =>
      on_install_snapshot_resp from term lii installed next_offset
  end.

Definition with_state_machine (id : NodeId) (voters : gset NodeId) (storage : S)
    (config : RaftConfig) (sm : M) : option RaftNode :=
  r ← match load_snapshot storage with
      | Some (meta, data) =>
          sm' ← sm_restore data sm;
          Some (sm', last_included_index meta)
      | None => Some (sm, 0)
      end;
  let '(sm', wm) := (r : M * N) in
  let baseline := default (voters, ∅) (load_config_baseline storage) in
  recompute_config_from_log
    (mkNode id baseline.1 baseline.2 baseline Follower ∅ None 0 0 false None ∅ None config
       storage wm wm ∅ ∅ 0 ∅ None sm').

End node.

Arguments RaftNode : clear implicits.
Arguments Ctx : clear implicits.

(** [RaftNode::new]: the counting state machine. *)
Definition node_new {S} `{RaftStorage S} (id : NodeId) (voters : gset NodeId) (storage : S)
    (config : RaftConfig) : option (RaftNode S CountingSm) :=
  with_state_machine id voters storage config CountingSm_new.

(** ** Symbolic execution of a handler *)

Ltac rstep :=
  lazymatch goal with
  | |- wp _ self _ _ => apply wp_gets
  | |- wp _ (read _) _ _ => apply wp_gets; cbn beta
  | |- wp _ (upd _) _ _ => apply wp_modify
  | |- wp _ (emit _) _ _ => apply wp_modify
  | |- wp _ (send _ _) _ _ => apply wp_modify
  | |- wp _ (let _ := _ in _) _ _ => cbv zeta
  | |- wp _ (if decide ?P then _ else _) _ _ => destruct (decide P)
  | |- _ => wp_step
  end.
Ltac rsteps := repeat rstep.
(** Straight-line steps only: stops at the next branch or call. *)
Ltac rlin :=
  repeat lazymatch goal with
  | |- wp _ (mbind _ _) _ _ => rstep
  | |- wp _ self _ _ => rstep
  | |- wp _ (read _) _ _ => rstep
  | |- wp _ (upd _) _ _ => rstep
  | |- wp _ (emit _) _ _ => rstep
  | |- wp _ (send _ _) _ _ => rstep
  | |- wp _ (lift _) _ _ => rstep
  | |- wp _ (let _ := _ in _) _ _ => rstep
  | |- wp _ (mret _) _ _ => rstep
  end.
