(* ===== verification/RaftElection.v ===== *)
(** * Raft: what one step of a node preserves

    The node-level half of Election Safety.  For a fixed voter set [V], [Inv]
    relates a node in the middle of a step to the node the step started from:
    its term and vote only move forward, a candidate or leader has voted for
    itself and holds only votes it was granted, a leader holds a majority, and
    every message recorded so far is justified by the node's state.  Each
    handler of RaftNode.v keeps it. *)

From Stdlib Require Import Lia ZArith NArith.
From S2P Require Import Prelude Env RaftTypes RaftStorage RaftNode.

Open Scope N_scope.

(** ** Fixed membership *)

Definition plain_entry (e : LogEntry) : Prop := is_config_change (e_payload e) = false.

(** A store of a cluster that never changed its membership. *)
Record store_fixed (V : gset NodeId) (m : MemStorage) : Prop := {
  sf_baseline : ∀ b, m_config_baseline m = Some b → b = (V, ∅);
  sf_snap : m_snap_meta m ≠ None → m_config_baseline m ≠ None;
  sf_log : Forall plain_entry (m_log m)
}.

Definition msg_fixed (V : gset NodeId) (m : RaftMsg) : Prop :=
  match m with
  | AppendEntries _ _ _ _ entries _ => Forall plain_entry entries
  | InstallSnapshot _ _ _ _ _ _ _ voters learners => voters = V ∧ learners = ∅
  | Propose payload => is_config_change payload = false
  | _ => True
  end.

Lemma mem_log_at_In m i e : mem_log_at m i = Some e → e ∈ m_log m.
Proof.
  unfold mem_log_at. destruct (mem_pos_of m i); [|done]. apply list_elem_of_lookup_2.
Qed.

Lemma mem_entry_at_In m i e : mem_entry_at i m = Some e → e ∈ m_log m.
Proof. unfold mem_entry_at. case_decide; [done|]. apply mem_log_at_In. Qed.

Section stores.
Context (V : gset NodeId).

Lemma store_fixed_entries m i :
  store_fixed V m → Forall plain_entry (mem_entries_from i m).
Proof. intros [_ _ Hl]. unfold mem_entries_from. by apply Forall_drop. Qed.

Lemma store_fixed_set_term m t : store_fixed V m → store_fixed V (mem_set_current_term t m).
Proof. by intros []. Qed.

Lemma store_fixed_set_vote m v : store_fixed V m → store_fixed V (mem_set_voted_for v m).
Proof. by intros []. Qed.

Lemma store_fixed_set_log m l :
  Forall plain_entry l → store_fixed V m → store_fixed V (mem_set_log l m).
Proof. intros ? []. by split. Qed.

Lemma store_fixed_append m e :
  plain_entry e → store_fixed V m → store_fixed V (mem_append e m).
Proof.
  intros ? Hm. apply store_fixed_set_log; [|done].
  apply Forall_app; split; [apply Hm|]. by constructor.
Qed.

Lemma store_fixed_append_entries m es :
  Forall plain_entry es → store_fixed V m → store_fixed V (mem_append_entries es m).
Proof. intros ? Hm. apply store_fixed_set_log; [|done]. apply Forall_app; split; [apply Hm|done]. Qed.

Lemma store_fixed_truncate m i : store_fixed V m → store_fixed V (mem_truncate_from i m).
Proof.
  intros Hm. unfold mem_truncate_from. repeat case_decide; try done;
    (apply store_fixed_set_log; [apply Forall_take, Hm|done]).
Qed.

Lemma store_fixed_compact m i m' :
  mem_compact_to i m = Some m' → store_fixed V m → store_fixed V m'.
Proof.
  unfold mem_compact_to. case_decide; [by intros [= <-]|].
  destruct (add64 i 1); [|done]. intros [= <-] []. split; simpl; [done..|]. by apply Forall_drop.
Qed.

Lemma store_fixed_baseline m : store_fixed V m → store_fixed V (mem_save_config_baseline V ∅ m).
Proof. intros []. split; simpl; [|done|done]. by intros ? [= <-]. Qed.

(** Saving a snapshot is fine once the baseline is on disk. *)
Lemma store_fixed_snapshot m meta d :
  m_config_baseline m ≠ None → store_fixed V m → store_fixed V (mem_save_snapshot meta d m).
Proof. intros ? []. by split. Qed.

(** The order of [install_assembled_snapshot]: snapshot, then baseline. *)
Lemma store_fixed_snapshot_baseline m meta d m' i :
  store_fixed V m → mem_compact_to i (mem_save_snapshot meta d m) = Some m' →
  store_fixed V (mem_save_config_baseline V ∅ m').
Proof.
  intros Hm Hc.
  assert (∀ b, m_config_baseline m' = Some b → b = (V, ∅)) as Hb.
  { revert Hc. unfold mem_compact_to. case_decide; [intros [= <-]; apply Hm|].
    destruct (add64 i 1); [|done]. intros [= <-]. apply Hm. }
  assert (Forall plain_entry (m_log m')) as Hl.
  { revert Hc. unfold mem_compact_to. case_decide; [intros [= <-]; apply Hm|].
    destruct (add64 i 1); [|done]. intros [= <-]. simpl. apply Forall_drop, Hm. }
  split; simpl; [by intros ? [= <-]|done|done].
Qed.
End stores.

(** With no membership entry in the log, every scan returns the baseline. *)
Lemma config_scan_plain {S} `{RaftStorageLaws S} fuel (s : S) idx last vl vl' :
  Forall plain_entry (m_log (abs s)) →
  config_scan fuel s idx last vl = Some vl' → vl' = vl.
Proof.
  intros Hl. revert idx vl. induction fuel as [|fuel IH]; intros idx vl; simpl;
    case_decide; try congruence.
  destruct (add64 idx 1) as [idx'|]; simpl; [|done].
  intros Hs. apply IH in Hs as ->. unfold config_entry.
  rewrite abs_entry_at. destruct (mem_entry_at idx (abs s)) as [e|] eqn:E; [|done].
  apply mem_entry_at_In in E. rewrite Forall_forall in Hl. apply Hl in E.
  unfold plain_entry, is_config_change in E. by destruct (e_payload e).
Qed.

Lemma reconcile_store {S} `{RaftStorage S} (s : S) prev entries i s' af tr :
  reconcile s prev entries i = Some (s', af, tr) →
  s' = s ∨ ∃ idx, s' = truncate_from idx s.
Proof.
  revert i. induction entries as [|e es IH]; intros i; simpl; [naive_solver|].
  destruct (add64 prev 1) as [p1|]; simpl; [|done].
  destruct (add64 p1 (N.of_nat i)) as [idx|]; simpl; [|done].
  repeat case_decide; try naive_solver.
Qed.

Lemma mem_truncate_tv i m :
  m_current_term (mem_truncate_from i m) = m_current_term m ∧
  m_voted_for (mem_truncate_from i m) = m_voted_for m.
Proof. unfold mem_truncate_from. by repeat case_decide. Qed.

(** ** The invariant of a step *)

Section handlers.
Context {S M R : Type} `{RaftStorageLaws S} `{StateMachine M} `{Rng R}.
Context (V : gset NodeId).
(** [G t u]: voter [u] has granted this node its vote of term [t]. *)
Context (G : N → NodeId → Prop).
(** The identity, term and vote the step started from. *)
Context (id0 : NodeId) (t0 : N) (v0 : option NodeId).

Implicit Types (n : RaftNode S M) (c : Ctx S M R).

Definition term_of n : N := m_current_term (abs (n_storage n)).
Definition vote_of n : option NodeId := m_voted_for (abs (n_storage n)).

Record node_inv n : Prop := {
  ni_id : n_id n = id0;
  ni_voters : n_voters n = V;
  ni_learners : n_learners n = ∅;
  ni_baseline : n_config_baseline n = (V, ∅);
  ni_store : store_fixed V (abs (n_storage n));
  ni_rx : ∀ rx, n_snapshot_rx n = Some rx → rx_voters rx = V ∧ rx_learners rx = ∅;
  ni_forward : t0 < term_of n ∨ t0 = term_of n ∧ (v0 = None ∨ v0 = vote_of n);
  ni_stand : n_role n ≠ Follower →
    vote_of n = Some id0 ∧ ∀ u, u ∈ n_votes n → u = id0 ∨ G (term_of n) u;
  ni_lead : n_role n = Leader → (majority_of V ≤ count_in (n_votes n) V)%nat
}.

(** The node has won the election of its current term. *)
Definition elected n : Prop :=
  vote_of n = Some id0 ∧
  ∃ Q, (majority_of V ≤ count_in Q V)%nat ∧ ∀ u, u ∈ Q → u = id0 ∨ G (term_of n) u.

Definition send_ok n (p : NodeId * RaftMsg) : Prop :=
  msg_fixed V p.2 ∧
  match p.2 with
  | RequestVoteResp t true => t = term_of n ∧ vote_of n = Some p.1
  | AppendEntries t l _ _ _ _ | InstallSnapshot t l _ _ _ _ _ _ _ =>
      l = id0 ∧ t = term_of n ∧ elected n
  | _ => True
  end.

Definition Inv c : Prop := node_inv (nd c) ∧ Forall (send_ok (nd c)) (sends (out c)).

Lemma leader_elected n : node_inv n → n_role n = Leader → elected n.
Proof.
  intros [] Hr. destruct ni_stand0 as [??]; [congruence|].
  split; [done|]. exists (n_votes n). auto.
Qed.

Lemma send_ok_keep n n' p :
  term_of n' = term_of n → vote_of n' = vote_of n → send_ok n p → send_ok n' p.
Proof. unfold send_ok, elected. intros -> ->. done. Qed.

(** The parts of a node the invariant does not look at may change freely. *)
Lemma Inv_keep c c' :
  Inv c →
  n_id (nd c') = n_id (nd c) →
  n_voters (nd c') = n_voters (nd c) →
  n_learners (nd c') = n_learners (nd c) →
  n_config_baseline (nd c') = n_config_baseline (nd c) →
  n_role (nd c') = n_role (nd c) →
  n_votes (nd c') = n_votes (nd c) →
  n_snapshot_rx (nd c') = n_snapshot_rx (nd c) →
  sends (out c') = sends (out c) →
  term_of (nd c') = term_of (nd c) →
  vote_of (nd c') = vote_of (nd c) →
  store_fixed V (abs (n_storage (nd c'))) →
  Inv c'.
Proof.
  intros [[] Hs] Hid Hv Hl Hb Hr Hvs Hrx Hso Ht Hvo Hst.
  split.
  - split; rewrite ?Hid, ?Hv, ?Hl, ?Hb, ?Hr, ?Hvs, ?Hrx, ?Ht, ?Hvo; auto.
  - rewrite Hso. eapply Forall_impl; [done|]. intros p. by apply send_ok_keep.
Qed.

(** As [Inv_keep], when the node is untouched apart from fields outside the
    invariant. *)
Lemma Inv_frame c c' :
  Inv c →
  n_id (nd c') = n_id (nd c) →
  n_voters (nd c') = n_voters (nd c) →
  n_learners (nd c') = n_learners (nd c) →
  n_config_baseline (nd c') = n_config_baseline (nd c) →
  n_role (nd c') = n_role (nd c) →
  n_votes (nd c') = n_votes (nd c) →
  n_snapshot_rx (nd c') = n_snapshot_rx (nd c) →
  sends (out c') = sends (out c) →
  n_storage (nd c') = n_storage (nd c) →
  Inv c'.
Proof.
  intros HI ???????? Hst. eapply Inv_keep; eauto; unfold term_of, vote_of; rewrite Hst; try done.
  apply HI.
Qed.

(** Recording one more justified message. *)
Lemma Inv_send c to msg :
  Inv c → send_ok (nd c) (to, msg) → Inv (with_out (eff_send to msg) c).
Proof. intros [? Hs] ?. split; [done|]. simpl. apply Forall_app; split; [done|]. by constructor. Qed.

(** Stepping back to follower forgets the votes. *)
Lemma Inv_follower c c' :
  Inv c →
  n_id (nd c') = n_id (nd c) →
  n_voters (nd c') = n_voters (nd c) →
  n_learners (nd c') = n_learners (nd c) →
  n_config_baseline (nd c') = n_config_baseline (nd c) →
  n_role (nd c') = Follower →
  n_snapshot_rx (nd c') = n_snapshot_rx (nd c) →
  sends (out c') = sends (out c) →
  n_storage (nd c') = n_storage (nd c) →
  Inv c'.
Proof.
  intros [[] Hs] Hid Hv Hl Hb Hr Hrx Hso Hst.
  assert (term_of (nd c') = term_of (nd c)) as Ht by (unfold term_of; by rewrite Hst).
  assert (vote_of (nd c') = vote_of (nd c)) as Hvo by (unfold vote_of; by rewrite Hst).
  split.
  - split; rewrite ?Hid, ?Hv, ?Hl, ?Hb, ?Hr, ?Hrx, ?Ht, ?Hvo, ?Hst; auto; congruence.
  - rewrite Hso. eapply Forall_impl; [done|]. intros p. by apply send_ok_keep.
Qed.

(** Entering a newer term as a follower. *)
Lemma Inv_newer c c' :
  Inv c →
  n_id (nd c') = n_id (nd c) →
  n_voters (nd c') = n_voters (nd c) →
  n_learners (nd c') = n_learners (nd c) →
  n_config_baseline (nd c') = n_config_baseline (nd c) →
  n_role (nd c') = Follower →
  n_snapshot_rx (nd c') = n_snapshot_rx (nd c) →
  sends (out c') = [] →
  term_of (nd c) < term_of (nd c') →
  store_fixed V (abs (n_storage (nd c'))) →
  Inv c'.
Proof.
  intros [[] _] Hid Hv Hl Hb Hr Hrx Hso Ht Hst. split.
  - split; rewrite ?Hid, ?Hv, ?Hl, ?Hb, ?Hr, ?Hrx; auto; try congruence. left. lia.
  - rewrite Hso. constructor.
Qed.

Ltac frame := eapply Inv_frame; [eassumption|reflexivity..].

(** ** Handler lemmas: timers, terms, step-down *)

Lemma wp_arm (P : Prop) (Q : unit → Ctx S M R → Prop) c :
  (∀ rg' d, Q tt (mkCtx (nd c) rg' (eff_set_timer ELECTION_TIMEOUT d (out c)))) →
  wp P arm_election_timer Q c.
Proof.
  intros HQ. unfold wp, arm_election_timer. destruct (gen_below _ _) as [x rg']. apply HQ.
Qed.

(** What a handler may assume about the context it continues with. *)
Definition same_election c c' : Prop :=
  term_of (nd c') = term_of (nd c) ∧ vote_of (nd c') = vote_of (nd c) ∧
  n_role (nd c') = n_role (nd c).

Lemma observe_term_spec term c :
  Inv c → sends (out c) = [] →
  wp True (observe_term term) (λ b c',
    Inv c' ∧ sends (out c') = [] ∧
    if (b : bool) then term_of (nd c') = term ∧ vote_of (nd c') = None ∧ n_role (nd c') = Follower
    else nd c' = nd c ∧ term ≤ term_of (nd c)) c.
Proof.
  intros HI Hs. unfold observe_term. rstep. rstep. rstep.
  - simpl in l. rewrite abs_current_term in l.
    rsteps; apply wp_arm; intros; rstep; (split; [eapply (Inv_newer c); eauto|]);
      unfold term_of, vote_of; simpl; autorewrite with storage; simpl; auto.
    all: apply store_fixed_set_vote, store_fixed_set_term, HI.
  - rstep. split; [done|]. split; [done|]. split; [done|]. 
    rewrite abs_current_term in *. unfold term_of. simpl in *. lia.
Qed.

Definition same_tv c c' : Prop :=
  term_of (nd c') = term_of (nd c) ∧ vote_of (nd c') = vote_of (nd c).

Lemma elected_tv c c' : same_tv c c' → elected (nd c) → elected (nd c').
Proof. unfold elected. intros [-> ->]. done. Qed.

Lemma same_tv_trans c c' c'' : same_tv c c' → same_tv c' c'' → same_tv c c''.
Proof. intros [] []. split; congruence. Qed.

Lemma step_down_spec c :
  Inv c →
  wp True step_down_to_follower (λ _ c',
    Inv c' ∧ n_role (nd c') = Follower ∧ n_storage (nd c') = n_storage (nd c) ∧
    n_snapshot_rx (nd c') = n_snapshot_rx (nd c) ∧ n_commit_index (nd c') = n_commit_index (nd c)) c.
Proof.
  intros HI. unfold step_down_to_follower. rsteps;
    (split; [by eapply (Inv_follower c)|done]).
Qed.

(** *** Applying and compacting *)

Lemma config_at_fixed i n vl :
  node_inv n → config_at i n = Some vl → vl = (V, ∅).
Proof.
  intros [] Hc. apply config_scan_plain in Hc as ->; [done|]. apply ni_store0.
Qed.

Lemma maybe_compact_spec c :
  Inv c → wp True maybe_compact (λ _ c', Inv c' ∧ same_election c c') c.
Proof.
  intros HI. unfold maybe_compact. rsteps; try by (split; [done|]).
  apply config_at_fixed in H4 as ->; [|apply HI]. simpl in *.
  rename H5 into Hc. apply (f_equal (fmap abs)) in Hc. rewrite abs_compact_to in Hc.
  autorewrite with storage in Hc.
  assert (store_fixed V (abs x1)) as Hsf.
  { eapply store_fixed_compact; [exact Hc|].
    apply store_fixed_snapshot; [done|]. apply store_fixed_baseline, HI. }
  assert (m_current_term (abs x1) = term_of (nd c) ∧ m_voted_for (abs x1) = vote_of (nd c))
    as [Ht Hv].
  { revert Hc. unfold mem_compact_to. case_decide; [by intros [= <-]|].
    destruct (add64 _ 1); [|done]. by intros [= <-]. }
  split; [|done]. eapply Inv_keep; [exact HI|..]; try done.
  simpl. symmetry. apply HI.
Qed.

Lemma apply_loop_spec fuel c :
  Inv c → wp True (apply_loop fuel) (λ _ c', Inv c' ∧ same_election c c') c.
Proof.
  revert c. induction fuel as [|fuel IH]; intros c HI; simpl; [by apply wp_ret|].
  rsteps; [|done]. eapply wp_mono; [apply IH; frame|].
  intros _ c' [? (?&?&?)]. done.
Qed.

Lemma apply_committed_spec c :
  Inv c → wp True apply_committed (λ _ c', Inv c' ∧ same_election c c') c.
Proof.
  intros HI. unfold apply_committed. rsteps.
  eapply wp_mono; [by apply apply_loop_spec|]. intros _ c' [HI' (?&?&?)].
  eapply wp_mono; [by apply maybe_compact_spec|]. intros _ c'' [? (?&?&?)].
  split; [done|]. split; [congruence|]. split; congruence.
Qed.

(** *** Replication *)

Lemma send_snapshot_chunk_spec peer offset c :
  Inv c → elected (nd c) →
  wp True (send_snapshot_chunk_to peer offset) (λ _ c', Inv c' ∧ same_election c c') c.
Proof.
  intros HI He. unfold send_snapshot_chunk_to. rsteps.
  - destruct p as [meta data]. simpl.
    destruct (default (∅, ∅) (load_config_baseline (n_storage (nd c)))) as [vs ls] eqn:Hb.
    rsteps. split; [|done]. apply Inv_send; [done|].
    destruct HI as [[] _]. destruct ni_store0 as [Hbl Hsn _].
    to_abs. unfold mem_load_snapshot in *. simpl in *.
    destruct (m_snap_meta (abs (n_storage (nd c)))); [|done].
    destruct (m_config_baseline (abs (n_storage (nd c)))) as [b|]; [|by destruct Hsn].
    specialize (Hbl b eq_refl). subst b. simpl in Hb. injection Hb as <- <-.
    repeat split; auto; apply He.
  - split; [frame|done].
Qed.

Lemma send_append_entries_spec peer c :
  Inv c → elected (nd c) →
  wp True (send_append_entries_to peer) (λ _ c', Inv c' ∧ same_election c c') c.
Proof.
  intros HI He. unfold send_append_entries_to. rsteps.
  - eapply wp_mono; [apply send_snapshot_chunk_spec; [frame|done]|].
    intros _ c' [? (?&?&?)]. done.
  - split; [|done]. apply Inv_send; [frame|]. simpl.
    rewrite abs_current_term, abs_entries_from.
    split; [apply (store_fixed_entries V), HI|]. split; [apply HI|done].
Qed.

Lemma broadcast_spec c :
  Inv c → elected (nd c) →
  wp True broadcast_heartbeat (λ _ c', Inv c' ∧ same_election c c') c.
Proof.
  intros HI He. unfold broadcast_heartbeat. rsteps.
  apply wp_for_each; [done|]. intros peer c1 _ [HI1 (Ht&Hv&Hr)].
  eapply wp_mono; [apply send_append_entries_spec; [done|by eapply elected_tv]|].
  intros _ c2 [? (?&?&?)]. split; [done|]. split; [congruence|]. split; congruence.
Qed.

Lemma maybe_advance_commit_spec c :
  Inv c → wp True maybe_advance_commit (λ _ c', Inv c' ∧ same_tv c c') c.
Proof.
  intros HI. unfold maybe_advance_commit. rstep. rstep. rstep; [by rstep|].
  rstep. eapply wp_mono with (Q := λ _ c', Inv c' ∧ same_tv c c').
  - rstep; [|done]. rsteps. eapply wp_mono; [apply apply_committed_spec; frame|].
    intros _ c' [? (?&?&?)]. done.
  - intros _ c1 [HI1 Htv]. rsteps; [|done].
    eapply wp_mono; [by apply step_down_spec|]. intros _ c2 (HI2&_&Hst&_).
    unfold arm_election_timer_now. rsteps. split; [frame|].
    eapply same_tv_trans; [done|]. unfold same_tv, term_of, vote_of. simpl. by rewrite Hst.
Qed.

(** *** Elections *)

(** A candidate with a majority of votes becomes leader and may append. *)
Lemma Inv_promote c c' :
  Inv c →
  n_role (nd c) = Candidate → n_role (nd c') = Leader →
  (majority_of V ≤ count_in (n_votes (nd c)) V)%nat →
  n_id (nd c') = n_id (nd c) →
  n_voters (nd c') = n_voters (nd c) →
  n_learners (nd c') = n_learners (nd c) →
  n_config_baseline (nd c') = n_config_baseline (nd c) →
  n_votes (nd c') = n_votes (nd c) →
  n_snapshot_rx (nd c') = n_snapshot_rx (nd c) →
  sends (out c') = sends (out c) →
  term_of (nd c') = term_of (nd c) →
  vote_of (nd c') = vote_of (nd c) →
  store_fixed V (abs (n_storage (nd c'))) →
  Inv c'.
Proof.
  intros [[] Hs] Hc Hr Hm Hid Hv Hl Hb Hvs Hrx Hso Ht Hvo Hst. split.
  - split; rewrite ?Hid, ?Hv, ?Hl, ?Hb, ?Hvs, ?Hrx, ?Ht, ?Hvo; auto.
    intros _. apply ni_stand0. congruence.
  - rewrite Hso. eapply Forall_impl; [done|]. intros p. by apply send_ok_keep.
Qed.

Lemma maybe_become_leader_spec now c :
  Inv c → wp True (maybe_become_leader now) (λ _ c', Inv c' ∧ same_tv c c') c.
Proof.
  intros HI. unfold maybe_become_leader. rstep. rstep. rstep; [by rstep|].
  rstep; [by rstep|]. rsteps.
  apply dec_stable in n. rewrite (ni_voters _ (proj1 HI)) in n0.
  match goal with |- wp _ _ _ ?c1 => assert (Inv c1 ∧ same_tv c c1) as [HI1 Htv1] end.
  { split.
    - eapply (Inv_promote c); try done; simpl; unfold term_of, vote_of; simpl; to_abs;
        [lia|done|done|]. apply store_fixed_append; [done|]. apply HI.
    - unfold same_tv, term_of, vote_of. simpl. by to_abs. }
  eapply wp_mono; [apply broadcast_spec; [done|by apply leader_elected; [apply HI1|]]|].
  intros _ c2 [HI2 (?&?&?)]. rsteps. split; [frame|].
  eapply same_tv_trans; [done|]. done.
Qed.

(** Messages that say nothing about the node's term or vote. *)
Definition neutral (p : NodeId * RaftMsg) : Prop :=
  match p.2 with
  | RequestVoteResp _ true | AppendEntries _ _ _ _ _ _ | InstallSnapshot _ _ _ _ _ _ _ _ _ => False
  | _ => True
  end.

(** Standing for election: a newer term, a vote for itself, no other vote. *)
Lemma Inv_candidate c c' :
  Inv c → Forall neutral (sends (out c)) →
  n_id (nd c') = n_id (nd c) →
  n_voters (nd c') = n_voters (nd c) →
  n_learners (nd c') = n_learners (nd c) →
  n_config_baseline (nd c') = n_config_baseline (nd c) →
  n_role (nd c') = Candidate →
  n_votes (nd c') = {[n_id (nd c)]} →
  n_snapshot_rx (nd c') = n_snapshot_rx (nd c) →
  sends (out c') = sends (out c) →
  term_of (nd c) < term_of (nd c') →
  vote_of (nd c') = Some (n_id (nd c)) →
  store_fixed V (abs (n_storage (nd c'))) →
  Inv c'.
Proof.
  intros [[] Hs] Hn Hid Hv Hl Hb Hr Hvs Hrx Hso Ht Hvo Hst. split.
  - split; rewrite ?Hid, ?Hv, ?Hl, ?Hb, ?Hrx, ?Hvo, ?Hr; auto; try congruence; [left; lia|].
    intros _. rewrite Hvs, ni_id0. split; [done|]. intros u ->%elem_of_singleton. by left.
  - rewrite Hso. rewrite Forall_forall in *. intros p Hp. specialize (Hs p Hp). specialize (Hn p Hp).
    destruct p as [to m]. unfold send_ok, neutral in *. simpl in *. destruct Hs.
    split; [done|]. by destruct m as [|? []| | | | | | | | |].
Qed.

Lemma send_loop_spec c (peers : list NodeId) (mk : NodeId → RaftMsg) (b : NodeId → bool) :
  Inv c → (∀ p, msg_fixed V (mk p) ∧ neutral (p, mk p)) →
  wp True (for_each peers (λ p, when (b p) (send p (mk p)))) (λ _ c',
    Inv c' ∧ nd c' = nd c ∧
    (Forall neutral (sends (out c)) → Forall neutral (sends (out c')))) c.
Proof.
  intros HI Hmk. apply wp_for_each; [done|]. intros p c1 _ (HI1&Hn1&Hs1).
  destruct (Hmk p) as [Hf Hne]. rsteps; [|done]. split; [|split; [done|]].
  - apply Inv_send; [done|]. split; [done|]. unfold neutral in Hne. simpl in *.
    by destruct (mk p) as [|? []| | | | | | | | |].
  - intros ?. simpl. apply Forall_app; split; [auto|]. by constructor.
Qed.

Lemma start_real_election_spec now c :
  Inv c → Forall neutral (sends (out c)) →
  wp True (start_real_election now) (λ _, Inv) c.
Proof.
  intros HI Hn. unfold start_real_election. rsteps. apply add64_Some in H3 as [-> _].
  eapply wp_mono.
  - apply (send_loop_spec _ _ (λ _, RequestVote _ _ _ _)); [|done].
    eapply (Inv_candidate c); try done; simpl; unfold term_of, vote_of; simpl; to_abs; simpl;
      [lia|done|]. apply store_fixed_set_vote, store_fixed_set_term, HI.
  - simpl. intros _ c1 (HI1&_&_). eapply wp_mono; [by apply maybe_become_leader_spec|].
    intros _ c2 [? _]. done.
Qed.

Lemma maybe_promote_pre_candidate_spec now c :
  Inv c → Forall neutral (sends (out c)) →
  wp True (maybe_promote_pre_candidate now) (λ _, Inv) c.
Proof.
  intros HI Hn. unfold maybe_promote_pre_candidate. rsteps; try done.
  apply start_real_election_spec; [frame|done].
Qed.

Lemma start_pre_vote_spec now c :
  Inv c → Forall neutral (sends (out c)) → wp True (start_pre_vote now) (λ _, Inv) c.
Proof.
  intros HI Hn. unfold start_pre_vote. rsteps.
  eapply wp_mono; [apply (send_loop_spec _ _ (λ _, PreVote _ _ _ _)); [frame|done]|].
  simpl. intros _ c1 (HI1&_&Hn1). rsteps. apply wp_arm. intros.
  apply maybe_promote_pre_candidate_spec; [frame|auto].
Qed.

Lemma on_election_timeout_spec now c :
  Inv c → sends (out c) = [] → wp True (on_election_timeout now) (λ _, Inv) c.
Proof.
  intros HI Hs. assert (Forall neutral (sends (out c))) by (rewrite Hs; constructor).
  unfold on_election_timeout. rstep. rstep. rstep; [by rstep|].
  rstep; [apply wp_arm; intros; frame|]. rstep.
  - rstep. eapply wp_mono with (Q := λ _ c', Inv c' ∧ Forall neutral (sends (out c'))).
    { rstep; [|done]. rsteps. split; [frame|done]. }
    intros _ c1 [HI1 Hn1]. rsteps.
    + eapply wp_mono; [apply start_real_election_spec; [frame|done]|].
      intros ? c2 HI2. simpl in HI2. apply wp_arm. intros. frame.
    + by apply start_pre_vote_spec.
  - rsteps. eapply wp_mono; [by apply start_real_election_spec|].
    intros ? c2 HI2. simpl in HI2. apply wp_arm. intros. frame.
Qed.

(** Casting a vote the node is still free to cast. *)
Lemma Inv_vote c c' candidate :
  Inv c → sends (out c) = [] →
  vote_of (nd c) = None ∨ vote_of (nd c) = Some candidate →
  nd c' = upd_storage (set_voted_for (Some candidate)) (nd c) → sends (out c') = [] → Inv c'.
Proof.
  intros [[] _] Hs Hfree Hnd Hs'. split; [|rewrite Hs'; constructor].
  rewrite Hnd. unfold term_of, vote_of, upd_storage in *.
  split; simpl; unfold term_of, vote_of; simpl; to_abs; simpl; auto.
  - by apply store_fixed_set_vote.
  - destruct ni_forward0 as [|[? [|Hv]]]; auto. destruct Hfree as [Hf|Hf]; rewrite Hf in Hv; auto.
  - intros Hr. destruct (ni_stand0 Hr) as [Hself ?]. split; [|done].
    destruct Hfree; congruence.
Qed.

Lemma on_request_vote_spec now term candidate lli llt c :
  Inv c → sends (out c) = [] →
  wp True (on_request_vote now term candidate lli llt) (λ _, Inv) c.
Proof.
  intros HI Hs. unfold on_request_vote. rstep. rstep. rstep.
  { rsteps. by apply Inv_send. }
  rstep. eapply wp_mono; [by apply observe_term_spec|]. intros b c1 (HI1&Hs1&Hb).
  assert (term ≤ term_of (nd c1)) as Hle.
  { destruct b; [destruct Hb; lia|]. destruct Hb as [-> ?]. lia. }
  clear Hb. rstep. rstep. rstep. rstep. rstep.
  - destruct (decide (term < current_term (n_storage (nd c1)))) as [|Hge]; [done|].
    apply andb_true_iff in H3 as [Hfree%bool_decide_eq_true _]. to_abs.
    rsteps. apply wp_arm. intros. rsteps. apply Inv_send.
    + eapply (Inv_vote c1); try done.
    + unfold send_ok, term_of, vote_of. simpl. to_abs. split; [done|]. by case_match.
  - rsteps. apply Inv_send; [done|]. simpl.
    destruct (decide _); [done|]. by rewrite H3.
Qed.

Lemma on_pre_vote_spec now term candidate lli llt c :
  Inv c → wp True (on_pre_vote now term candidate lli llt) (λ _, Inv) c.
Proof. intros HI. unfold on_pre_vote. rsteps. by apply Inv_send. Qed.

Lemma on_pre_vote_resp_spec now from term granted c :
  Inv c → sends (out c) = [] →
  wp True (on_pre_vote_resp now from term granted) (λ _, Inv) c.
Proof.
  intros HI Hs. unfold on_pre_vote_resp. rsteps; try frame.
  apply maybe_promote_pre_candidate_spec; [frame|]. simpl. rewrite Hs. constructor.
Qed.

(** Counting one more granted vote. *)
Lemma Inv_count_vote c voter :
  Inv c → G (term_of (nd c)) voter →
  Inv (with_nd (set_votes (n_votes (nd c) ∪ {[voter]})) c).
Proof.
  intros [[] Hs] Hg. split; [|done]. split; simpl; auto.
  - intros Hr. destruct (ni_stand0 Hr) as [? Hv]. split; [done|]. intros u.
    rewrite elem_of_union, elem_of_singleton. intros [?| ->]; auto.
  - intros Hr. etrans; [by apply ni_lead0|]. unfold count_in. apply subseteq_size. set_solver.
Qed.

Lemma on_request_vote_resp_spec now from term granted c :
  Inv c → sends (out c) = [] → (granted = true → G term from) →
  wp True (on_request_vote_resp now from term granted) (λ _, Inv) c.
Proof.
  intros HI Hs Hg. unfold on_request_vote_resp. rstep.
  eapply wp_mono; [by apply observe_term_spec|]. intros b c1 (HI1&Hs1&Hb).
  unfold record_vote. rsteps; try done. to_abs.
  eapply wp_mono; [apply maybe_become_leader_spec, Inv_count_vote; [done|]|by intros ?? [? _]].
  assert (term = term_of (nd c1)) as <- by (unfold term_of; destruct (decide (term = m_current_term (abs (n_storage (nd c1))))); naive_solver).
  auto.
Qed.

(** *** Log replication handlers *)

Lemma recompute_fixed n n' :
  node_inv n → recompute_config_from_log n = Some n' →
  n' = set_learners ∅ (set_voters V n).
Proof.
  intros [] Hr. unfold recompute_config_from_log in Hr.
  destruct (config_scan _ _ _ _ _) as [[vs ls]|] eqn:Hc; [|done].
  apply config_scan_plain in Hc; [|apply ni_store0]. congruence.
Qed.

Lemma recompute_spec c :
  Inv c → wp True recompute_config (λ _ c', Inv c' ∧ same_tv c c' ∧ n_role (nd c') = n_role (nd c)) c.
Proof.
  intros HI. unfold recompute_config. rsteps.
  apply recompute_fixed in H3 as ->; [|apply HI].
  split; [|done]. eapply Inv_keep; [exact HI|..]; try done; simpl;
    first [apply HI|symmetry; apply HI].
Qed.

Lemma on_append_entries_spec now term leader pli plt entries lc c :
  Inv c → sends (out c) = [] → Forall plain_entry entries →
  wp True (on_append_entries now term leader pli plt entries lc) (λ _, Inv) c.
Proof.
  intros HI Hs Hpl. unfold on_append_entries, accept_entries. rlin.
  eapply wp_mono; [by apply observe_term_spec|]. intros b c1 (HI1&_&_).
  rlin. rstep; [rlin; by apply Inv_send|]. rlin.
  eapply wp_mono with (Q := λ _, Inv).
  { rstep; [|done]. eapply wp_mono; [by apply step_down_spec|]. by intros ?? [? _]. }
  intros ? c2 HI2. simpl in HI2. rlin. apply wp_arm. intros. rlin.
  rstep; [rlin; apply Inv_send; [frame|done]|]. rlin.
  destruct x as [[s' af] tr]. simpl in *.
  assert (store_fixed V (abs s') ∧ m_current_term (abs s') = term_of (nd c2) ∧
    m_voted_for (abs s') = vote_of (nd c2)) as (Hsf&Ht&Hv).
  { apply reconcile_store in H3 as [->|[idx ->]]; [split; [apply HI2|done]|].
    to_abs. split; [apply store_fixed_truncate, HI2|]. apply mem_truncate_tv. }
  rlin.
  eapply wp_mono with (Q := λ _, Inv).
  { rstep.
    - rsteps. eapply Inv_keep; [exact HI2|..]; try done; unfold term_of, vote_of; simpl; to_abs; simpl;
        try done. by apply store_fixed_append_entries; [apply Forall_drop|].
    - eapply Inv_keep; [exact HI2|..]; done. }
  intros ? c3 HI3. simpl in HI3. rlin.
  eapply wp_mono with (Q := λ _, Inv).
  { rstep; [|done]. eapply wp_mono; [by apply recompute_spec|]. by intros ?? [? _]. }
  intros ? c4 HI4. simpl in HI4. rlin.
  eapply wp_mono with (Q := λ _, Inv).
  { repeat (rstep; [|done]). rsteps. eapply wp_mono; [apply apply_committed_spec; frame|].
    by intros ?? [? _]. }
  intros ? c5 HI5. simpl in HI5. rsteps. by apply Inv_send.
Qed.

Lemma on_append_entries_resp_spec now from term success mi c :
  Inv c → sends (out c) = [] →
  wp True (on_append_entries_resp now from term success mi) (λ _, Inv) c.
Proof.
  intros HI Hs. unfold on_append_entries_resp. rlin.
  eapply wp_mono; [by apply observe_term_spec|]. intros b c1 (HI1&_&_).
  rstep; [by rlin|]. rlin. rstep; [by rlin|].
  assert (elected (nd c1)) as He.
  { apply leader_elected; [apply HI1|]. apply dec_stable; naive_solver. }
  rstep; rlin.
  - eapply wp_mono; [apply maybe_advance_commit_spec; frame|]. by intros ?? [? _].
  - eapply wp_mono; [apply send_append_entries_spec; [frame|done]|by intros ?? [? _]].
Qed.

Lemma on_heartbeat_timer_spec now c :
  Inv c → wp True (on_heartbeat_timer now) (λ _, Inv) c.
Proof.
  intros HI. unfold on_heartbeat_timer. rlin. rstep; [by rlin|].
  apply dec_stable in n. rstep; rlin.
  - eapply wp_mono; [by apply step_down_spec|]. intros ? c1 (HI1&_). rlin.
    apply wp_arm. intros. frame.
  - eapply wp_mono; [apply broadcast_spec; [done|apply leader_elected; [apply HI|done]]|].
    intros ? c1 [HI1 _]. rlin. frame.
Qed.

(** *** Snapshots *)

Lemma install_assembled_snapshot_spec rx c :
  Inv c → rx_voters rx = V → rx_learners rx = ∅ →
  wp True (install_assembled_snapshot rx) (λ _, Inv) c.
Proof.
  intros HI Hv Hl. unfold install_assembled_snapshot. rlin.
  eapply wp_mono with (Q := λ _ c', Inv c').
  { rstep; [|done]. rlin. eapply Inv_keep; [exact HI|..]; try done;
      unfold term_of, vote_of; simpl; to_abs; try apply mem_truncate_tv.
    apply store_fixed_truncate, HI. }
  intros ? c1 HI1. rlin.
  rename H3 into Hc. simpl in Hc. apply (f_equal (fmap abs)) in Hc.
  rewrite abs_compact_to in Hc. simpl in Hc. to_abs. rewrite Hv, Hl.
  pose proof (store_fixed_snapshot_baseline V _ _ _ _ _ (ni_store _ (proj1 HI1)) Hc) as Hsf.
  assert (m_current_term (abs x) = term_of (nd c1) ∧ m_voted_for (abs x) = vote_of (nd c1))
    as [Ht Hvt].
  { revert Hc. unfold mem_compact_to. case_decide; [by intros [= <-]|].
    destruct (add64 _ 1); [|done]. by intros [= <-]. }
  eapply wp_mono; [apply recompute_spec|].
  - eapply Inv_keep; [exact HI1|..]; try done; unfold term_of, vote_of; simpl; to_abs; try done.
    symmetry. apply HI1.
  - intros ? c2 (HI2&_). rlin. frame.
Qed.

Lemma rx_accept_fixed orx lii lit offset data rx :
  (∀ rx, orx = Some rx → rx_voters rx = V ∧ rx_learners rx = ∅) →
  rx_accept orx lii lit offset data V ∅ = Some rx → rx_voters rx = V ∧ rx_learners rx = ∅.
Proof.
  intros Ho. unfold rx_accept. case_decide; [by intros [= <-]|].
  destruct orx as [rx'|]; [|done]. case_match; [|done]. intros [= <-]. simpl. auto.
Qed.

(** The receive buffer may only change to another buffer of this membership. *)
Lemma Inv_rx c orx :
  Inv c → (∀ rx, orx = Some rx → rx_voters rx = V ∧ rx_learners rx = ∅) →
  Inv (with_nd (set_snapshot_rx orx) c).
Proof. intros [[] Hs] Ho. split; [|done]. by split. Qed.

Lemma on_install_snapshot_spec now term leader lii lit offset data done c :
  Inv c → sends (out c) = [] →
  wp True (on_install_snapshot now term leader lii lit offset data done V ∅) (λ _, Inv) c.
Proof.
  intros HI Hs. unfold on_install_snapshot. rlin.
  eapply wp_mono; [by apply observe_term_spec|]. intros b c1 (HI1&_&_). rlin.
  rstep; [rlin; by apply Inv_send|]. rlin.
  eapply wp_mono with (Q := λ _, Inv).
  { rstep; [|done]. eapply wp_mono; [by apply step_down_spec|]. by intros ?? [? _]. }
  intros ? c2 HI2. simpl in HI2. rlin. apply wp_arm. intros. rlin.
  match goal with |- wp _ _ _ ?c => assert (Inv c) as HI3 by frame; revert HI3;
    generalize c; intros c3 HI3 end. simpl.
  rstep; [|rlin; by apply Inv_send].
  pose proof (rx_accept_fixed _ _ _ _ _ _ (ni_rx _ (proj1 HI3)) Heqo) as [Hrv Hrl].
  rlin. assert (Inv (with_nd (set_snapshot_rx (Some s)) c3)) as HI4.
  { apply Inv_rx; [done|]. by intros ? [= <-]. }
  rstep; [rlin; by apply Inv_send|]. rlin.
  assert (Inv (with_nd (set_snapshot_rx None) (with_nd (set_snapshot_rx (Some s)) c3))) as HI5.
  { by apply Inv_rx. }
  rstep; rlin; [by apply Inv_send|].
  eapply wp_mono; [by apply install_assembled_snapshot_spec|].
  intros ? c6 HI6. simpl in HI6. rlin. by apply Inv_send.
Qed.

Lemma on_install_snapshot_resp_spec from term ii installed noff c :
  Inv c → sends (out c) = [] →
  wp True (on_install_snapshot_resp from term ii installed noff) (λ _, Inv) c.
Proof.
  intros HI Hs. unfold on_install_snapshot_resp. rlin.
  eapply wp_mono; [by apply observe_term_spec|]. intros b c1 (HI1&_&_).
  rstep; [by rlin|]. rlin. rstep; [by rlin|].
  assert (elected (nd c1)) as He.
  { apply leader_elected; [apply HI1|]. apply dec_stable; naive_solver. }
  rstep; rlin.
  - rstep; rlin; [|done]. eapply wp_mono; [apply send_snapshot_chunk_spec; [frame|done]|].
    by intros ?? [? _].
  - eapply wp_mono; [apply maybe_advance_commit_spec; frame|]. intros ? c2 [HI2 Htv].
    eapply wp_mono; [apply send_append_entries_spec; [done|]|by intros ?? [? _]].
    eapply elected_tv; [exact Htv|done].
Qed.

(** *** Proposals and dispatch *)

Lemma propose_spec payload c :
  Inv c → is_config_change payload = false → wp True (propose payload) (λ _, Inv) c.
Proof.
  intros HI Hp. unfold propose. rlin. rstep; [by rlin|]. apply dec_stable in n.
  rewrite Hp. rlin. simpl. rlin.
  assert (Inv (with_nd (upd_storage
    (append (mkEntry (current_term (n_storage (nd c))) x payload))) c)) as HI1.
  { eapply Inv_keep; [exact HI|..]; try done; unfold term_of, vote_of; simpl; to_abs; try done.
    apply store_fixed_append; [done|apply HI]. }
  eapply wp_mono; [apply broadcast_spec; [done|apply leader_elected; [apply HI1|done]]|].
  intros ? c2 [HI2 _]. rlin.
  eapply wp_mono; [by apply maybe_advance_commit_spec|]. intros ? c3 [HI3 _]. by rlin.
Qed.

Lemma on_message_spec now from msg c :
  Inv c → sends (out c) = [] → msg_fixed V msg →
  (∀ t, msg = RequestVoteResp t true → G t from) →
  wp True (on_message now from msg) (λ _, Inv) c.
Proof.
  intros HI Hs Hm Hg. destruct msg; simpl in *.
  - by apply on_request_vote_spec.
  - apply on_request_vote_resp_spec; [done..|]. intros ->. eauto.
  - by apply on_pre_vote_spec.
  - by apply on_pre_vote_resp_spec.
  - by apply on_append_entries_spec.
  - by apply on_append_entries_resp_spec.
  - rlin. eapply wp_mono; [by apply propose_spec|]. intros. by rlin.
  - by rlin.
  - by rlin.
  - destruct Hm as [-> ->]. by apply on_install_snapshot_spec.
  - by apply on_install_snapshot_resp_spec.
Qed.

Lemma on_timer_spec now token c :
  Inv c → sends (out c) = [] → wp True (on_timer now token) (λ _, Inv) c.
Proof.
  intros HI Hs. unfold on_timer. rstep; [by apply on_election_timeout_spec|].
  rstep; [by apply on_heartbeat_timer_spec|by rlin].
Qed.

End handlers.
