(* ===== verification/RaftNet.v ===== *)
(** * Raft: a cluster of nodes and Election Safety

    Nodes of RaftNode.v exchange packets over a network that may lose, delay,
    reorder and duplicate them: a packet once sent stays deliverable, and any
    event may be the next one.  A node may restart from its persistent state
    at any time ([RaftNode::with_state_machine]).  [election_safety]: as long
    as the membership is not changed, two leaders of one term are one node. *)

From Stdlib Require Import Lia ZArith NArith.
From S2P Require Import Prelude Env RaftTypes RaftStorage RaftNode RaftElection.

Open Scope N_scope.

Record Packet := mkPacket { p_from : NodeId; p_to : NodeId; p_msg : RaftMsg }.

#[export] Instance Packet_eq_dec : EqDecision Packet.
Proof. solve_decision. Defined.

Inductive Event :=
  | EvDeliver (now : Monotonic) (p : Packet)
  | EvStart (now : Monotonic) (i : NodeId)
  | EvTimer (now : Monotonic) (i : NodeId) (token : N)
  | EvPropose (i : NodeId) (payload : EntryPayload)
  | EvRestart (i : NodeId).

Section net.
Context {S M R : Type} `{RaftStorage S, StateMachine M, Rng R}.
(** What every node is booted with: the voter set and the initial machine. *)
Context (V : gset NodeId) (sm0 : M).

Record World := mkWorld { w_nodes : gmap NodeId (RaftNode S M); w_net : list Packet }.

(** One handler call at node [i]: the new node, and its messages on the wire. *)
Definition exec_at {A} (i : NodeId) (r : R) (m : step (Ctx S M R) A) (w : World) : option World :=
  n ← w_nodes w !! i;
  match m (mkCtx n r effects_new) with
  | Some (_, c) =>
      Some (mkWorld (<[i := nd c]> (w_nodes w))
              (w_net w ++ ((λ x, mkPacket i x.1 x.2) <$> sends (out c))))
  | None => None
  end.

Definition exec_event (r : R) (e : Event) (w : World) : option World :=
  match e with
  | EvDeliver now p =>
      if decide (p ∈ w_net w) then exec_at (p_to p) r (on_message now (p_from p) (p_msg p)) w
      else None
  | EvStart now i => exec_at i r (start now) w
  | EvTimer now i token => exec_at i r (on_timer now token) w
  | EvPropose i payload => exec_at i r (propose payload) w
  | EvRestart i =>
      n ← w_nodes w !! i;
      n' ← with_state_machine i V (n_storage n) (n_config n) sm0;
      Some (mkWorld (<[i := n']> (w_nodes w)) (w_net w))
  end.

Fixpoint exec_trace (tr : list (R * Event)) (w : World) : option World :=
  match tr with
  | [] => Some w
  | (r, e) :: tr => w' ← exec_event r e w; exec_trace tr w'
  end.

(** No client asks for a membership change. *)
Definition plain_event (e : Event) : Prop :=
  match e with
  | EvPropose _ payload => is_config_change payload = false
  | _ => True
  end.
End net.

Arguments World : clear implicits.

Section safety.
Context {S M R : Type} `{RaftStorageLaws S} `{StateMachine M} `{Rng R}.
Context (V : gset NodeId) (sm0 : M).

(** Every node booted with [V] on an empty store. *)
Definition initial (w : World S M) : Prop :=
  w_net w = [] ∧
  ∀ i n, w_nodes w !! i = Some n →
    ∃ s cfg, abs s = mem_new ∧ with_state_machine i V s cfg sm0 = Some n.

Inductive reachable : World S M → Prop :=
  | reach_initial w : initial w → reachable w
  | reach_step w w' (r : R) e :
      reachable w → plain_event e → exec_event V sm0 r e w = Some w' → reachable w'.

(** ** The invariant of the cluster

    [GV t u c]: in term [t] voter [u] voted for [c], at some point of the run. *)
Implicit Types (GV : N → NodeId → NodeId → Prop).

Definition won GV (t : N) (i : NodeId) : Prop :=
  ∃ Q, (majority_of V ≤ count_in Q V)%nat ∧ ∀ u, u ∈ Q → GV t u i.

Record net_inv GV (w : World S M) : Prop := {
  nv_node : ∀ i n, w_nodes w !! i = Some n →
    node_inv V (λ t u, GV t u i) i (term_of n) (vote_of n) n;
  nv_recorded : ∀ i n c, w_nodes w !! i = Some n → vote_of n = Some c → GV (term_of n) i c;
  nv_past : ∀ t u c, GV t u c → ∃ n, w_nodes w !! u = Some n ∧
    (t < term_of n ∨ t = term_of n ∧ vote_of n = Some c);
  nv_once : ∀ t u c c', GV t u c → GV t u c' → c = c';
  nv_fixed : ∀ p, p ∈ w_net w → msg_fixed V (p_msg p);
  nv_grant : ∀ p t, p ∈ w_net w → p_msg p = RequestVoteResp t true → GV t (p_from p) (p_to p);
  nv_append : ∀ p t l a b es lc, p ∈ w_net w → p_msg p = AppendEntries t l a b es lc →
    l = p_from p ∧ won GV t l;
  nv_snap : ∀ p t l a b o d dn vs ls, p ∈ w_net w →
    p_msg p = InstallSnapshot t l a b o d dn vs ls → l = p_from p ∧ won GV t l
}.

Lemma node_inv_mono (G G' : N → NodeId → Prop) i t v (n : RaftNode S M) :
  (∀ t u, G t u → G' t u) → node_inv V G i t v n → node_inv V G' i t v n.
Proof.
  intros HG []. split; auto. intros Hr. destruct (ni_stand Hr) as [? Hv].
  split; [done|]. intros u Hu. destruct (Hv u Hu); auto.
Qed.

(** A step ends where the next one starts. *)
Lemma node_inv_restart (G : N → NodeId → Prop) i t v (n : RaftNode S M) :
  node_inv V G i t v n → node_inv V G i (term_of n) (vote_of n) n.
Proof. intros []. split; auto. Qed.

(** Two winners of one term share a voter, who voted once. *)
Lemma won_unique GV w t i j : net_inv GV w → won GV t i → won GV t j → i = j.
Proof.
  intros Hw (Q1&Hm1&H1') (Q2&Hm2&H2').
  destruct (majorities_intersect V Q1 Q2 Hm1 Hm2) as (u&_&Hu1&Hu2).
  eapply (nv_once _ _ Hw); eauto.
Qed.

Lemma elected_won GV w i n :
  net_inv GV w → w_nodes w !! i = Some n →
  elected V (λ t u, GV t u i) i n → won GV (term_of n) i.
Proof.
  intros Hw Hn [Hv (Q&Hm&HQ)]. exists Q. split; [done|].
  intros u Hu. destruct (HQ u Hu) as [->|?]; [|done]. by eapply nv_recorded.
Qed.

(** The votes of the run after node [i] has become [n']. *)
Definition record_vote_of GV i (n' : RaftNode S M) (t : N) (u c : NodeId) : Prop :=
  GV t u c ∨ (u = i ∧ t = term_of n' ∧ vote_of n' = Some c).

(** One step of node [i], from [n] to [n'], sending [ps]. *)
Lemma net_inv_step GV w i n n' ps :
  net_inv GV w → w_nodes w !! i = Some n →
  node_inv V (λ t u, GV t u i) i (term_of n) (vote_of n) n' →
  Forall (send_ok V (λ t u, GV t u i) i n') ps →
  net_inv (record_vote_of GV i n')
    (mkWorld (<[i := n']> (w_nodes w)) (w_net w ++ ((λ x, mkPacket i x.1 x.2) <$> ps))).
Proof.
  intros Hw Hn Hn' Hps.
  assert (∀ t c, GV t i c → t < term_of n' ∨ t = term_of n' ∧ vote_of n' = Some c) as Hpast.
  { intros t c Hg. destruct (nv_past _ _ Hw _ _ _ Hg) as (n0&?&Hf); simplify_eq.
    destruct (ni_forward _ _ _ _ _ _ Hn') as [|[<- [Hv|Hv]]], Hf as [|[-> Hv']];
      try (left; lia); try congruence. right. split; [done|congruence]. }
  assert (∀ p, p ∈ w_net w ++ ((λ x, mkPacket i x.1 x.2) <$> ps) →
    p ∈ w_net w ∨ p_from p = i ∧ send_ok V (λ t u, GV t u i) i n' (p_to p, p_msg p)) as Hnet.
  { intros p [?|(x&->&Hx)%list_elem_of_fmap]%elem_of_app; [by left|right].
    rewrite Forall_forall in Hps. split; [done|]. destruct x. by apply (Hps _ Hx). }
  assert (∀ t j, won GV t j → won (record_vote_of GV i n') t j) as Hwon.
  { intros t j (Q&?&HQ). exists Q. split; [done|]. intros. left. auto. }
  assert (elected V (λ t u, GV t u i) i n' → won (record_vote_of GV i n') (term_of n') i) as Hel.
  { intros [Hv (Q&?&HQ)]. exists Q. split; [done|]. intros u Hu.
    destruct (HQ u Hu) as [->|?]; [by right|by left]. }
  split; simpl.
  - intros j m. destruct (decide (i = j)) as [<-|Hne].
    + rewrite lookup_insert_eq. intros [= <-]. apply node_inv_restart in Hn'.
      eapply node_inv_mono; [|done]. by left.
    + rewrite lookup_insert_ne by done. intros Hm. eapply node_inv_mono; [|by eapply nv_node].
      by left.
  - intros j m c. destruct (decide (i = j)) as [<-|Hne].
    + rewrite lookup_insert_eq. intros [= <-] ?. by right.
    + rewrite lookup_insert_ne by done. left. by eapply nv_recorded.
  - intros t u c [Hg|(->&->&Hv)].
    + destruct (decide (i = u)) as [<-|Hne]; [rewrite lookup_insert_eq; eauto|].
      rewrite lookup_insert_ne by done. by eapply nv_past.
    + rewrite lookup_insert_eq. eauto.
  - intros t u c c' [Hg|(->&->&Hv)] [Hg'|(Hu&Ht&Hv')]; [by eapply nv_once|subst..|congruence].
    + destruct (Hpast _ _ Hg) as [|[_ ?]]; [lia|congruence].
    + destruct (Hpast _ _ Hg') as [|[_ ?]]; [lia|congruence].
  - intros p [?|[_ [? _]]]%Hnet; [by eapply nv_fixed|done].
  - intros p t [?|[Hf [_ Hs]]]%Hnet Hp; [left; by eapply nv_grant|].
    simpl in Hs. rewrite Hp in Hs. destruct Hs. by right.
  - intros p t l a b es lc [Hin|[Hf [_ Hs]]]%Hnet Hp.
    + destruct (nv_append _ _ Hw _ _ _ _ _ _ _ Hin Hp). auto.
    + simpl in Hs. rewrite Hp in Hs. destruct Hs as (->&->&?). auto.
  - intros p t l a b o d dn vs ls [Hin|[Hf [_ Hs]]]%Hnet Hp.
    + destruct (nv_snap _ _ Hw _ _ _ _ _ _ _ _ _ _ Hin Hp). auto.
    + simpl in Hs. rewrite Hp in Hs. destruct Hs as (->&->&?). auto.
Qed.

(** A handler that keeps [Inv] keeps the cluster invariant. *)
Lemma net_inv_exec {A} GV w w' i r (m : step (Ctx S M R) A) :
  net_inv GV w →
  (∀ n, w_nodes w !! i = Some n →
     node_inv V (λ t u, GV t u i) i (term_of n) (vote_of n) n →
     wp True m (λ _, Inv V (λ t u, GV t u i) i (term_of n) (vote_of n))
       (mkCtx n r effects_new)) →
  exec_at i r m w = Some w' → ∃ GV', net_inv GV' w'.
Proof.
  intros Hw Hm. unfold exec_at. destruct (w_nodes w !! i) as [n|] eqn:Hn; simpl; [|done].
  destruct (m _) as [[a c]|] eqn:Hrun; [|done]. intros [= <-].
  specialize (Hm n eq_refl (nv_node _ _ Hw _ _ Hn)).
  destruct (wp_Some _ _ _ _ _ Hm Hrun) as [Hn' Hps].
  eexists. by eapply net_inv_step.
Qed.

(** Recovery: a node rebuilt on a fixed-membership store. *)
Lemma with_state_machine_inv (G : N → NodeId → Prop) i s cfg (n : RaftNode S M) :
  store_fixed V (abs s) → with_state_machine i V s cfg sm0 = Some n →
  node_inv V G i (m_current_term (abs s)) (m_voted_for (abs s)) n ∧ n_storage n = s.
Proof.
  intros Hs. unfold with_state_machine.
  assert (default (V, ∅) (load_config_baseline s) = (V, ∅)) as ->.
  { rewrite abs_load_config_baseline. destruct (m_config_baseline (abs s)) eqn:Hb; [|done].
    by apply (sf_baseline _ _ Hs) in Hb. }
  destruct (match load_snapshot s with Some _ => _ | None => _ end) as [[sm' wm]|]; simpl; [|done].
  intros Hr. unfold recompute_config_from_log in Hr. simpl in Hr.
  destruct (config_scan _ _ _ _ _) as [[vs ls]|] eqn:Hc; [|done].
  apply config_scan_plain in Hc; [|apply Hs]. simplify_eq.
  split; [|done]. split; try done. by right; split; [|right].
Qed.

Lemma initial_inv w : initial w → net_inv (λ _ _ _, False) w.
Proof.
  intros [Hnet Hinit]. assert (∀ p, p ∉ w_net w) as Hno.
  { intros p Hp. rewrite Hnet in Hp. by apply not_elem_of_nil in Hp. }
  split; [| |naive_solver..].
  - intros i n Hn. destruct (Hinit i n Hn) as (s&cfg&Habs&Hb).
    eapply with_state_machine_inv in Hb as [Hb _]; [by eapply node_inv_restart|].
    rewrite Habs. by split; simpl; try constructor.
  - intros i n c Hn Hv. destruct (Hinit i n Hn) as (s&cfg&Habs&Hb).
    eapply (with_state_machine_inv (λ _ _, False)) in Hb as [_ Hb].
    + unfold vote_of in Hv. by rewrite Hb, Habs in Hv.
    + rewrite Habs. by split; simpl; try constructor.
Qed.

Lemma exec_event_inv GV w w' r e :
  net_inv GV w → plain_event e → exec_event V sm0 r e w = Some w' → ∃ GV', net_inv GV' w'.
Proof.
  intros Hw Hpl. destruct e as [now p|now i|now i token|i payload|i]; simpl.
  - case_decide as Hp; [|done]. apply (net_inv_exec GV); [done|]. intros n Hn Hi.
    apply on_message_spec; [by split; [|constructor]|done|by eapply nv_fixed|].
    intros t Ht. pose proof (nv_grant _ _ Hw p t Hp Ht). done.
  - apply (net_inv_exec GV); [done|]. intros n Hn Hi. apply wp_arm. intros. by split; [|constructor].
  - apply (net_inv_exec GV); [done|]. intros n Hn Hi.
    apply on_timer_spec; [by split; [|constructor]|done].
  - apply (net_inv_exec GV); [done|]. intros n Hn Hi. apply propose_spec; [by split; [|constructor]|done].
  - destruct (w_nodes w !! i) as [n|] eqn:Hn; simpl; [|done].
    destruct (with_state_machine _ _ _ _ _) as [n'|] eqn:Hb; simpl; [|done]. intros [= <-].
    eapply (with_state_machine_inv (λ t u, GV t u i)) in Hb as [Hb _];
      [|by apply (nv_node _ _ Hw _ _ Hn)].
    pose proof (net_inv_step _ _ i n n' [] Hw Hn Hb ltac:(constructor)) as Hw'.
    simpl in Hw'. rewrite app_nil_r in Hw'. eauto.
Qed.

Lemma reachable_inv w : reachable w → ∃ GV, net_inv GV w.
Proof.
  induction 1 as [w Hi|w w' r e _ [GV IH] Hpl He].
  - eexists. by apply initial_inv.
  - by eapply exec_event_inv.
Qed.

Lemma exec_trace_reachable tr w w' :
  reachable w → Forall (λ re, plain_event re.2) tr → exec_trace V sm0 tr w = Some w' → reachable w'.
Proof.
  revert w. induction tr as [|[r e] tr IH]; intros w Hw; simpl.
  - by intros _ [= <-].
  - intros [Hp Htr]%Forall_cons. destruct (exec_event V sm0 r e w) as [w1|] eqn:He; simpl; [|done].
    apply IH; [|done]. by eapply reach_step.
Qed.

(** Election Safety (C1): in every run without membership changes, over a network that
    loses, reorders and duplicates packets and with nodes restarting from
    their stores, two nodes that are leaders of the same term are the same
    node. *)
Theorem election_safety w i j n1 n2 :
  reachable w →
  w_nodes w !! i = Some n1 → w_nodes w !! j = Some n2 →
  n_role n1 = Leader → n_role n2 = Leader →
  current_term (n_storage n1) = current_term (n_storage n2) → i = j.
Proof.
  intros [GV Hw]%reachable_inv Hi Hj H1' H2' Ht. rewrite !abs_current_term in Ht.
  pose proof (nv_node _ _ Hw _ _ Hi) as Hn1. pose proof (nv_node _ _ Hw _ _ Hj) as Hn2.
  eapply leader_elected, elected_won in H1'; [|done..].
  eapply leader_elected, elected_won in H2'; [|done..].
  unfold term_of in H2'. rewrite <- Ht in H2'. by eapply won_unique.
Qed.

(** Leadership claims on the wire (C20): two AppendEntries packets ever sent for
    the same term, by whichever nodes and however long ago, name the same
    leader, and that leader is their sender. *)
Theorem append_entries_one_leader w p q t l l' a b es lc a' b' es' lc' :
  reachable w → p ∈ w_net w → q ∈ w_net w →
  p_msg p = AppendEntries t l a b es lc →
  p_msg q = AppendEntries t l' a' b' es' lc' →
  l = l' ∧ l = p_from p ∧ l' = p_from q.
Proof.
  intros [GV Hw]%reachable_inv Hp Hq Ep Eq.
  destruct (nv_append _ _ Hw _ _ _ _ _ _ _ Hp Ep).
  destruct (nv_append _ _ Hw _ _ _ _ _ _ _ Hq Eq).
  split; [by eapply won_unique|done].
Qed.

End safety.
