(* ===== verification/RaftMonotone.v ===== *)
(** * Raft: what never goes back

    Node-level facts that hold with any membership: the term never decreases,
    a vote once cast in a term is not changed in it, the commit and apply
    watermarks never decrease, and nothing is applied before it is committed.
    [mono n0 n] says this of a node [n] reached from [n0] within one step. *)

From Stdlib Require Import Lia ZArith NArith.
From S2P Require Import Prelude Env RaftTypes RaftStorage RaftNode RaftElection RaftNet.

Open Scope N_scope.

Section mono.
Context {S M R : Type} `{RaftStorageLaws S} `{StateMachine M} `{Rng R}.
Implicit Types (n : RaftNode S M) (c : Ctx S M R).

Record mono n0 n : Prop := {
  mo_id : n_id n = n_id n0;
  mo_config : n_config n = n_config n0;
  mo_tv : term_of n0 < term_of n ∨
          term_of n0 = term_of n ∧ (vote_of n0 = None ∨ vote_of n0 = vote_of n);
  mo_commit : n_commit_index n0 ≤ n_commit_index n;
  mo_applied : n_last_applied n0 ≤ n_last_applied n;
  mo_order : n_last_applied n ≤ n_commit_index n
}.

Lemma mono_refl n : n_last_applied n ≤ n_commit_index n → mono n n.
Proof. intros. split; auto; try lia. Qed.

(** A change to other fields, or to the log alone. *)
Lemma mono_keep n0 n n' :
  mono n0 n →
  n_id n' = n_id n → n_config n' = n_config n →
  term_of n' = term_of n → vote_of n' = vote_of n →
  n_commit_index n' = n_commit_index n → n_last_applied n' = n_last_applied n →
  mono n0 n'.
Proof. intros [] ?? Ht Hv Hc Ha. split; rewrite ?Ht, ?Hv, ?Hc, ?Ha; auto; congruence. Qed.

(** Raising the commit watermark. *)
Lemma mono_commit n0 n v : mono n0 n → n_commit_index n ≤ v → mono n0 (set_commit_index v n).
Proof. intros [] ?. split; simpl; auto; lia. Qed.

(** A newer term, with any vote. *)
Lemma mono_term n0 n n' :
  mono n0 n →
  n_id n' = n_id n → n_config n' = n_config n → term_of n < term_of n' →
  n_commit_index n' = n_commit_index n → n_last_applied n' = n_last_applied n →
  mono n0 n'.
Proof.
  intros [] ?? Ht Hc Ha. split; rewrite ?Hc, ?Ha; auto; [congruence..|].
  left. destruct mo_tv0 as [|[? _]]; lia.
Qed.

Ltac keep := eapply mono_keep; [eassumption|reflexivity..].

(** A handler that keeps [mono n0]. *)
Definition keeps {A} (m : step (Ctx S M R) A) : Prop :=
  ∀ n0 c, mono n0 (nd c) → wp True m (λ _ c', mono n0 (nd c')) c.

Lemma keeps_arm : keeps arm_election_timer.
Proof. intros n0 c Hm. by apply wp_arm. Qed.

Lemma keeps_observe_term t : keeps (observe_term t).
Proof.
  intros n0 c Hm. unfold observe_term. rlin. rstep; [|by rlin].
  to_abs. rlin. rstep; rlin; apply wp_arm; intros; rlin;
    (eapply mono_term; [exact Hm|done|done| |done|done]);
    unfold term_of; simpl; to_abs; done.
Qed.

Lemma keeps_step_down : keeps step_down_to_follower.
Proof. intros n0 c Hm. unfold step_down_to_follower. rlin. rstep; rlin; keep. Qed.

Lemma keeps_recompute : keeps recompute_config.
Proof.
  intros n0 c Hm. unfold recompute_config. rlin.
  unfold recompute_config_from_log in *. destruct (config_scan _ _ _ _ _) as [[]|]; simplify_eq.
  keep.
Qed.

Lemma compact_tv i (s s' : S) :
  compact_to i s = Some s' →
  m_current_term (abs s') = m_current_term (abs s) ∧ m_voted_for (abs s') = m_voted_for (abs s).
Proof.
  intros Hc%(f_equal (fmap abs)). rewrite abs_compact_to in Hc. revert Hc.
  unfold mem_compact_to. case_decide; simpl; [by intros [= <-]|].
  destruct (add64 i 1); [|done]. by intros [= <-].
Qed.

Lemma keeps_maybe_compact : keeps maybe_compact.
Proof.
  intros n0 c Hm. unfold maybe_compact. rsteps; try done.
  apply compact_tv in H5 as [Ht Hv]. simpl in *. to_abs. by eapply mono_keep.
Qed.

Lemma keeps_apply_loop fuel : keeps (apply_loop fuel).
Proof.
  induction fuel as [|fuel IH]; intros n0 c Hm; simpl; [by rlin|].
  rlin. rstep; [|by rlin]. rlin. apply IH. destruct Hm. split; simpl; auto; lia.
Qed.

Lemma keeps_apply_committed : keeps apply_committed.
Proof.
  intros n0 c Hm. unfold apply_committed. rlin.
  eapply wp_mono; [by apply keeps_apply_loop|]. intros. by apply keeps_maybe_compact.
Qed.

Lemma keeps_send_chunk peer o : keeps (send_snapshot_chunk_to peer o).
Proof.
  intros n0 c Hm. unfold send_snapshot_chunk_to. rlin. rstep; rlin; [|keep].
  destruct p, (default _ _), (snapshot_chunk _ _ _) as [[]]. rlin. keep.
Qed.

Lemma keeps_send_append peer : keeps (send_append_entries_to peer).
Proof.
  intros n0 c Hm. unfold send_append_entries_to. rlin. rstep; rlin; [|keep].
  apply keeps_send_chunk. keep.
Qed.

Lemma keeps_broadcast : keeps broadcast_heartbeat.
Proof.
  intros n0 c Hm. unfold broadcast_heartbeat. rlin. apply wp_for_each; [done|].
  intros. by apply keeps_send_append.
Qed.

Lemma commit_scan_ge fuel n i : n_commit_index n ≤ commit_scan fuel n i.
Proof.
  revert i. induction fuel; intros i; simpl; [lia|]. repeat case_decide; try lia. done.
Qed.

Lemma keeps_maybe_advance_commit : keeps maybe_advance_commit.
Proof.
  intros n0 c Hm. unfold maybe_advance_commit. rlin. rstep; [by rlin|]. rlin.
  eapply wp_mono with (Q := λ _ c', mono n0 (nd c')).
  - rstep; [|done]. rlin. apply keeps_apply_committed. simpl.
    apply mono_commit; [done|]. apply commit_scan_ge.
  - intros ? c1 Hm1. rlin. rstep; [|done]. rlin.
    eapply wp_mono; [by apply keeps_step_down|]. intros ? c2 Hm2. simpl in Hm2.
    unfold arm_election_timer_now. rlin. keep.
Qed.

Lemma keeps_maybe_become_leader now : keeps (maybe_become_leader now).
Proof.
  intros n0 c Hm. unfold maybe_become_leader. rlin. rstep; [by rlin|]. rstep; [by rlin|]. rlin.
  eapply wp_mono; [apply keeps_broadcast|].
  - eapply mono_keep; [exact Hm|..]; try done; unfold term_of, vote_of; simpl; by to_abs.
  - intros ? c1 Hm1. simpl in Hm1. rlin. keep.
Qed.

Lemma keeps_send_loop (peers : list NodeId) (mk : NodeId → RaftMsg) (b : NodeId → bool) :
  keeps (for_each peers (λ p, when (b p) (send p (mk p)))).
Proof.
  intros n0 c Hm. apply wp_for_each; [done|]. intros. rstep; [|done]. rlin. keep.
Qed.

Lemma keeps_start_real_election now : keeps (start_real_election now).
Proof.
  intros n0 c Hm. unfold start_real_election. rlin. apply add64_Some in H3 as [-> _].
  eapply wp_mono; [apply (keeps_send_loop _ (λ _, RequestVote _ _ _ _))|].
  - eapply mono_term; [exact Hm|..]; try done; unfold term_of; simpl; to_abs; simpl; lia.
  - intros. by apply keeps_maybe_become_leader.
Qed.

Lemma keeps_maybe_promote now : keeps (maybe_promote_pre_candidate now).
Proof.
  intros n0 c Hm. unfold maybe_promote_pre_candidate. rlin. rstep; [|by rlin].
  rstep; [by rlin|]. rlin. apply keeps_start_real_election. keep.
Qed.

Lemma keeps_start_pre_vote now : keeps (start_pre_vote now).
Proof.
  intros n0 c Hm. unfold start_pre_vote. rlin.
  eapply wp_mono; [apply (keeps_send_loop _ (λ _, PreVote _ _ _ _)); keep|].
  intros ? c1 Hm1. simpl in Hm1. rlin. eapply wp_mono; [by apply keeps_arm|].
  intros. by apply keeps_maybe_promote.
Qed.

Lemma keeps_election_timeout now : keeps (on_election_timeout now).
Proof.
  intros n0 c Hm. unfold on_election_timeout. rlin. rstep; [by rlin|].
  rstep; [by apply keeps_arm|]. rstep; rlin.
  - eapply wp_mono with (Q := λ _ c', mono n0 (nd c')); [rstep; rlin; [keep|done]|].
    intros ? c1 Hm1. simpl in Hm1. rlin. rstep; rlin; [|by apply keeps_start_pre_vote].
    eapply wp_mono; [apply keeps_start_real_election; keep|]. intros. by apply keeps_arm.
  - eapply wp_mono; [by apply keeps_start_real_election|]. intros. by apply keeps_arm.
Qed.

Lemma keeps_request_vote now t cand lli llt : keeps (on_request_vote now t cand lli llt).
Proof.
  intros n0 c Hm. unfold on_request_vote. rlin. rstep; rlin; [keep|].
  eapply wp_mono; [by apply keeps_observe_term|]. intros ? c1 Hm1. simpl in Hm1. rlin. rstep.
  - destruct (decide (t < _)); [done|].
    apply andb_true_iff in H3 as [Hfree%bool_decide_eq_true _]. to_abs.
    rlin. apply wp_arm. intros. rlin.
    destruct Hm1. split; simpl; auto. unfold term_of, vote_of in *. simpl. to_abs. simpl.
    destruct mo_tv0 as [|[? [|Hv]]]; auto. destruct Hfree as [Hf|Hf]; rewrite Hf in Hv; auto.
  - rlin. keep.
Qed.

Lemma keeps_append_entries now t l pli plt es lc : keeps (on_append_entries now t l pli plt es lc).
Proof.
  intros n0 c Hm. unfold on_append_entries, accept_entries. rlin.
  eapply wp_mono; [by apply keeps_observe_term|]. intros ? c1 Hm1. simpl in Hm1. rlin.
  rstep; rlin; [keep|].
  eapply wp_mono with (Q := λ _ c', mono n0 (nd c')); [rstep; [by apply keeps_step_down|done]|].
  intros ? c2 Hm2. simpl in Hm2. rlin. apply wp_arm. intros. rlin.
  rstep; rlin; [keep|]. destruct x as [[s' af] tr]. simpl in *.
  assert (m_current_term (abs s') = term_of (nd c2) ∧ m_voted_for (abs s') = vote_of (nd c2))
    as [Ht Hv].
  { apply reconcile_store in H3 as [->|[idx ->]]; [done|]. to_abs. apply mem_truncate_tv. }
  rlin. eapply wp_mono with (Q := λ _ c', mono n0 (nd c')).
  { rstep; rlin; (eapply mono_keep; [exact Hm2|..]; try done; unfold term_of, vote_of; simpl;
      by to_abs). }
  intros ? c3 Hm3. simpl in Hm3. rlin.
  eapply wp_mono with (Q := λ _ c', mono n0 (nd c')); [rstep; [by apply keeps_recompute|done]|].
  intros ? c4 Hm4. simpl in Hm4. rlin.
  eapply wp_mono with (Q := λ _ c', mono n0 (nd c')).
  { rstep; [|done]. rlin. rstep; [|done]. rlin. apply keeps_apply_committed. simpl.
    apply mono_commit; [done|]. apply bool_decide_eq_true in H6. lia. }
  intros ? c5 Hm5. simpl in Hm5. rlin. keep.
Qed.

Lemma keeps_append_entries_resp now from t ok mi : keeps (on_append_entries_resp now from t ok mi).
Proof.
  intros n0 c Hm. unfold on_append_entries_resp. rlin.
  eapply wp_mono; [by apply keeps_observe_term|]. intros ? c1 Hm1. simpl in Hm1.
  rstep; [by rlin|]. rlin. rstep; [by rlin|]. rstep; rlin.
  - apply keeps_maybe_advance_commit. keep.
  - apply keeps_send_append. keep.
Qed.

Lemma keeps_heartbeat now : keeps (on_heartbeat_timer now).
Proof.
  intros n0 c Hm. unfold on_heartbeat_timer. rlin. rstep; [by rlin|]. rstep; rlin.
  - eapply wp_mono; [by apply keeps_step_down|]. intros ? c1 Hm1. simpl in Hm1. rlin.
    apply keeps_arm. keep.
  - eapply wp_mono; [by apply keeps_broadcast|]. intros ? c1 Hm1. simpl in Hm1. rlin. keep.
Qed.

Lemma keeps_install n0 c rx :
  mono n0 (nd c) → n_commit_index (nd c) < rx_last_included_index rx →
  wp True (install_assembled_snapshot rx) (λ _ c', mono n0 (nd c')) c.
Proof.
  intros Hm Hlt. unfold install_assembled_snapshot. rlin.
  eapply wp_mono with (Q := λ _ c', mono n0 (nd c') ∧ n_commit_index (nd c') = n_commit_index (nd c)).
  { rstep; [|done]. rlin. split; [|done]. eapply mono_keep; [exact Hm|..]; try done;
      unfold term_of, vote_of; simpl; to_abs; apply mem_truncate_tv. }
  intros ? c1 [Hm1 Hc1]. rlin. apply compact_tv in H3 as [Ht Hv]. simpl in Ht, Hv. to_abs. simpl in *.
  unfold recompute_config. rlin. unfold recompute_config_from_log in *.
  destruct (config_scan _ _ _ _ _) as [[]|]; simplify_eq.
  destruct Hm1. unfold term_of, vote_of in *.
  split; unfold term_of, vote_of; simpl; to_abs; simpl; auto; [by rewrite Ht, Hv|lia..].
Qed.

Lemma keeps_install_snapshot now t l lii lit o d dn vs ls :
  keeps (on_install_snapshot now t l lii lit o d dn vs ls).
Proof.
  intros n0 c Hm. unfold on_install_snapshot. rlin.
  eapply wp_mono; [by apply keeps_observe_term|]. intros ? c1 Hm1. simpl in Hm1. rlin.
  rstep; rlin; [keep|].
  eapply wp_mono with (Q := λ _ c', mono n0 (nd c')); [rstep; [by apply keeps_step_down|done]|].
  intros ? c2 Hm2. simpl in Hm2. rlin. apply wp_arm. intros. rlin.
  rstep; rlin; [|keep]. rstep; rlin; [keep|]. rstep; rlin; [keep|].
  eapply wp_mono; [apply (keeps_install n0); [keep|simpl in *; lia]|].
  intros ? c3 Hm3. simpl in Hm3. rlin. keep.
Qed.

Lemma keeps_install_snapshot_resp from t ii inst no : keeps (on_install_snapshot_resp from t ii inst no).
Proof.
  intros n0 c Hm. unfold on_install_snapshot_resp. rlin.
  eapply wp_mono; [by apply keeps_observe_term|]. intros ? c1 Hm1. simpl in Hm1.
  rstep; [by rlin|]. rlin. rstep; [by rlin|]. rstep.
  - rstep; rlin; [|done]. apply keeps_send_chunk. keep.
  - rlin. eapply wp_mono; [apply keeps_maybe_advance_commit; keep|].
    intros. by apply keeps_send_append.
Qed.

Lemma keeps_propose payload : keeps (propose payload).
Proof.
  intros n0 c Hm. unfold propose. rlin. rstep; [by rlin|]. rlin.
  eapply wp_mono with (Q := λ _ c', mono n0 (nd c')); [destruct (is_config_change payload); by rlin|].
  intros refused c1 Hm1. simpl in Hm1. rstep; [by rlin|]. rlin.
  eapply wp_mono with (Q := λ _ c', mono n0 (nd c')).
  { rstep; [rlin|].
    - eapply wp_mono; [apply keeps_recompute|]; [|intros ? c2 Hm2; simpl in Hm2; rlin; keep].
      eapply mono_keep; [exact Hm1|..]; try done; unfold term_of, vote_of; simpl; by to_abs.
    - eapply mono_keep; [exact Hm1|..]; try done; unfold term_of, vote_of; simpl; by to_abs. }
  intros ? c2 Hm2. simpl in Hm2. rlin. eapply wp_mono; [by apply keeps_broadcast|].
  intros ? c3 Hm3. simpl in Hm3. rlin. eapply wp_mono; [by apply keeps_maybe_advance_commit|].
  intros ? c4 Hm4. by rlin.
Qed.

Lemma keeps_on_message now from msg : keeps (on_message now from msg).
Proof.
  intros n0 c Hm. destruct msg; simpl.
  - by apply keeps_request_vote.
  - unfold on_request_vote_resp, record_vote. rlin.
    eapply wp_mono; [by apply keeps_observe_term|]. intros ? c1 Hm1. simpl in Hm1.
    rstep; [by rlin|]. rstep; rlin; [|done]. rstep; rlin; [done|].
    apply keeps_maybe_become_leader. keep.
  - unfold on_pre_vote. rlin. keep.
  - unfold on_pre_vote_resp. rlin. rstep; rlin; [done|]. rstep; rlin; [keep|].
    apply keeps_maybe_promote. keep.
  - by apply keeps_append_entries.
  - by apply keeps_append_entries_resp.
  - rlin. eapply wp_mono; [by apply keeps_propose|]. intros. by rlin.
  - by rlin.
  - by rlin.
  - by apply keeps_install_snapshot.
  - by apply keeps_install_snapshot_resp.
Qed.

Lemma keeps_on_timer now token : keeps (on_timer now token).
Proof.
  intros n0 c Hm. unfold on_timer. rstep; [by apply keeps_election_timeout|].
  rstep; [by apply keeps_heartbeat|by rlin].
Qed.

Lemma exec_at_mono {A} i r (m : step (Ctx S M R) A) w w' j n :
  keeps m → exec_at i r m w = Some w' →
  w_nodes w !! j = Some n → n_last_applied n ≤ n_commit_index n →
  ∃ n', w_nodes w' !! j = Some n' ∧ mono n n'.
Proof.
  intros Hk. unfold exec_at. destruct (w_nodes w !! i) as [n1|] eqn:Hn1; simpl; [|done].
  destruct (m _) as [[a c]|] eqn:Hrun; [|done]. intros [= <-] Hj Hle. simpl.
  destruct (decide (i = j)) as [->|Hne].
  - simplify_eq. rewrite lookup_insert_eq. eexists. split; [done|].
    exact (wp_Some _ _ _ _ _ (Hk n1 (mkCtx n1 r effects_new) (mono_refl n1 Hle)) Hrun).
  - rewrite lookup_insert_ne by done. eexists. split; [done|]. by apply mono_refl.
Qed.

Definition is_restart (e : Event) : bool := match e with EvRestart _ => true | _ => false end.

(** Monotonicity (C15): any event other than a restart, membership changes
    included, takes every node to one with the same identity, a term and vote
    that only moved forward (a newer term, or the same term with the vote kept
    or newly cast), commit and apply watermarks that did not decrease, and
    nothing applied beyond the commit watermark. *)
Theorem step_monotone V (sm0 : M) (r : R) e w w' j n :
  is_restart e = false → exec_event V sm0 r e w = Some w' →
  w_nodes w !! j = Some n → n_last_applied n ≤ n_commit_index n →
  ∃ n', w_nodes w' !! j = Some n' ∧ mono n n'.
Proof.
  intros He. destruct e; simpl in *; try done.
  - case_decide; [|done]. apply exec_at_mono, keeps_on_message.
  - apply exec_at_mono, keeps_arm.
  - apply exec_at_mono, keeps_on_timer.
  - apply exec_at_mono, keeps_propose.
Qed.

End mono.
