(* ===== verification/RaftLog.v ===== *)
(** * Raft: the log

    Well-formed stores ([mem_wf]: consecutive indices above the snapshot point,
    nonzero terms), what reconciling an AppendEntries request does to one, when
    a leader advances its commit watermark, and the membership algebra. *)

From Stdlib Require Import Lia ZArith NArith.
From S2P Require Import Prelude Env RaftTypes RaftStorage RaftNode RaftElection.

Open Scope N_scope.

(** ** Well-formed stores *)

Record mem_wf (m : MemStorage) : Prop := {
  wf_index : ∀ k e, m_log m !! k = Some e → e_index e = mem_start m + N.of_nat k;
  wf_term : ∀ e, e ∈ m_log m → e_term e ≠ 0;
  wf_snap : match m_snap_meta m with
            | Some meta => last_included_index meta + 1 = mem_start m ∧
                           last_included_index meta ≠ 0 ∧ last_included_term meta ≠ 0
            | None => mem_start m = 1
            end
}.

(** The index just below the log: the snapshot point, or zero. *)
Definition mem_base (m : MemStorage) : N := mem_start m - 1.

Lemma mem_start_pos m : 1 ≤ mem_start m.
Proof. unfold mem_start. case_decide; lia. Qed.

Lemma wf_last_index m :
  mem_wf m → mem_last_log_index m = mem_base m + N.of_nat (length (m_log m)).
Proof.
  intros [Hi _ Hs]. unfold mem_last_log_index, mem_base. pose proof (mem_start_pos m).
  destruct (last (m_log m)) as [e|] eqn:Hl.
  - rewrite last_lookup in Hl. pose proof (lookup_lt_Some _ _ _ Hl). rewrite (Hi _ _ Hl). lia.
  - apply last_None in Hl as ->. simpl. destruct (m_snap_meta m); lia.
Qed.

Lemma mem_log_at_pos m k : mem_log_at m (mem_start m + N.of_nat k) = m_log m !! k.
Proof.
  unfold mem_log_at, mem_pos_of. rewrite decide_False by lia.
  replace (N.to_nat _) with k by lia. case_decide as Hlt; [done|].
  symmetry. apply lookup_ge_None. lia.
Qed.

Lemma mem_log_at_low m i : i < mem_start m → mem_log_at m i = None.
Proof. intros. unfold mem_log_at, mem_pos_of. by rewrite decide_True. Qed.

(** Above the base, [term_at] reads the log. *)
Lemma mem_term_at_pos m k :
  mem_wf m → mem_term_at (mem_start m + N.of_nat k) m = default 0 (e_term <$> m_log m !! k).
Proof.
  intros [_ _ Hs]. pose proof (mem_start_pos m). unfold mem_term_at.
  rewrite decide_False, mem_log_at_pos by lia.
  destruct (m_snap_meta m); [|done]. by rewrite decide_False by lia.
Qed.

Lemma mem_term_at_zero_pos m k :
  mem_wf m → mem_term_at (mem_start m + N.of_nat k) m = 0 → (length (m_log m) ≤ k)%nat.
Proof.
  intros Hwf. rewrite mem_term_at_pos by done. destruct (m_log m !! k) as [e|] eqn:E; simpl.
  - intros Ht. by apply list_elem_of_lookup_2, (wf_term _ Hwf) in E.
  - intros _. by apply lookup_ge_None.
Qed.

Lemma mem_set_log_eta m : mem_set_log (m_log m) m = m.
Proof. by destruct m. Qed.

Lemma mem_start_set_log m l : mem_start (mem_set_log l m) = mem_start m.
Proof. done. Qed.

(** Replacing the log by another consecutive one. *)
Lemma mem_wf_set_log m l :
  mem_wf m →
  (∀ k e, l !! k = Some e → e_index e = mem_start m + N.of_nat k ∧ e_term e ≠ 0) →
  mem_wf (mem_set_log l m).
Proof.
  intros [] Hl. split; simpl; rewrite ?mem_start_set_log; [|..|done].
  - intros k e He. by apply Hl in He as [? _].
  - intros e [k He]%list_elem_of_lookup. by apply Hl in He as [_ ?].
Qed.

Lemma mem_wf_new : mem_wf mem_new.
Proof. split; simpl; [done|by intros ? ?%not_elem_of_nil|done]. Qed.

(** Appending the next index keeps the store well formed. *)
Lemma mem_wf_append m e :
  mem_wf m → e_index e = mem_last_log_index m + 1 → e_term e ≠ 0 → mem_wf (mem_append e m).
Proof.
  intros Hwf Hi Ht. apply mem_wf_set_log; [done|]. pose proof (mem_start_pos m).
  rewrite wf_last_index in Hi by done. unfold mem_base in Hi.
  intros k e' [He|[? He]]%lookup_app_Some.
  - split; [by apply (wf_index _ Hwf)|]. by apply list_elem_of_lookup_2, (wf_term _ Hwf) in He.
  - destruct (k - length (m_log m))%nat eqn:E; simplify_eq/=. split; [|done]. lia.
Qed.

(** ** Reconciling an AppendEntries request *)

(** The request's entries follow [prev] without a gap. *)
Definition entries_after (prev : N) (es : list LogEntry) : Prop :=
  ∀ k e, es !! k = Some e → e_index e = prev + 1 + N.of_nat k ∧ e_term e ≠ 0.

Section reconcile.
Context {S : Type} `{RaftStorageLaws S}.

(** The loop finds the longest run of entries already present; it truncates
    right after it exactly when a different entry follows. *)
Lemma reconcile_spec (s s' : S) prev p es i af tr :
  mem_wf (abs s) →
  prev + 1 = mem_start (abs s) + N.of_nat p →
  (p + i ≤ length (m_log (abs s)))%nat →
  reconcile s prev es i = Some (s', af, tr) →
  ∃ j, af = (i + j)%nat ∧ (j ≤ length es)%nat ∧
    (∀ k, (k < j)%nat → ∃ e e', es !! k = Some e ∧ m_log (abs s) !! (p + i + k)%nat = Some e' ∧
       e_term e = e_term e') ∧
    (∀ e e', es !! j = Some e → m_log (abs s) !! (p + i + j)%nat = Some e' → e_term e ≠ e_term e') ∧
    if decide (j = length es) then s' = s
    else abs s' = mem_set_log (take (p + i + j) (m_log (abs s))) (abs s).
Proof.
  intros Hwf Hprev. revert i. induction es as [|e es IH]; intros i Hpi; simpl.
  { intros [= <- <- <-]. exists 0%nat. repeat split; [lia|lia|intros; lia|done]. }
  destruct (add64 prev 1) as [p1|] eqn:E1; simpl; [|done].
  destruct (add64 p1 (N.of_nat i)) as [idx|] eqn:E2; simpl; [|done].
  apply add64_Some in E1 as [-> _]. apply add64_Some in E2 as [-> _].
  replace (prev + 1 + N.of_nat i) with (mem_start (abs s) + N.of_nat (p + i)) by lia.
  rewrite abs_term_at. case_decide as H0'.
  { apply mem_term_at_zero_pos in H0'; [|done]. intros [= <- <- <-]. exists 0%nat.
    repeat split; [lia|lia|intros; lia| |].
    - intros ?? _ Hl%lookup_lt_Some. lia.
    - simpl. rewrite Nat.add_0_r, take_ge by lia. by rewrite mem_set_log_eta. }
  rewrite mem_term_at_pos in * by done.
  destruct (m_log (abs s) !! (p + i)%nat) as [e'|] eqn:E; simpl in *; [|done].
  pose proof (lookup_lt_Some _ _ _ E). case_decide as Hne.
  { intros [= <- <- <-]. exists 0%nat. repeat split; [lia|lia|intros; lia| |].
    { rewrite Nat.add_0_r, E. intros ?? [= <-] [= <-]. congruence. }
    simpl. rewrite abs_truncate_from. unfold mem_truncate_from.
    assert ((if decide (mem_start (abs s) + N.of_nat (p + i) ≤ mem_start (abs s)) then 0%nat
      else N.to_nat (mem_start (abs s) + N.of_nat (p + i) - mem_start (abs s))) = (p + i)%nat)
      as -> by (case_decide; lia).
    rewrite decide_True by lia. by rewrite Nat.add_0_r. }
  intros (j&->&Hj&Hk&Hc&Hs)%IH; [|lia]. exists (Datatypes.S j). repeat split; [lia|simpl; lia| | |].
  - intros [|k] Hlt.
    { exists e, e'. rewrite Nat.add_0_r. auto. }
    destruct (Hk k) as (e1&e2&?&?&?); [lia|]. exists e1, e2. repeat split; [done| |done].
    by replace (p + i + Datatypes.S k)%nat with (p + Datatypes.S i + k)%nat by lia.
  - simpl. by replace (p + i + Datatypes.S j)%nat with (p + Datatypes.S i + j)%nat by lia.
  - simpl. repeat case_decide; try lia; [done|].
    by replace (p + i + Datatypes.S j)%nat with (p + Datatypes.S i + j)%nat by lia.
Qed.
End reconcile.

(** The store holds, at each index of the request, an entry of its term. *)
Definition log_agrees (m : MemStorage) (prev : N) (es : list LogEntry) : Prop :=
  ∀ k e, es !! k = Some e → mem_term_at (prev + 1 + N.of_nat k) m = e_term e.

(** The store the handler ends with after [reconcile]. *)
Definition reconciled {S} `{RaftStorage S} (s' : S) (af : nat) (es : list LogEntry) : S :=
  if decide (af < length es)%nat then append_entries (drop af es) s' else s'.

(** The log after reconciliation: the old entries up to the end of the common
    run of length [af] at position [p], then the rest of the request; or the
    old log, when the whole request was there. *)
Definition merged_log (p af : nat) (l es : list LogEntry) : list LogEntry :=
  if decide (af = length es) then l else take (p + af) l ++ drop af es.

(** The first [af] entries of the request sit at position [p] of the log. *)
Definition common_run (p af : nat) (l es : list LogEntry) : Prop :=
  (af ≤ length es)%nat ∧
  ∀ k, (k < af)%nat → ∃ e e', es !! k = Some e ∧ l !! (p + k)%nat = Some e' ∧ e_term e = e_term e'.

Section merged.
Context (p af : nat) (l es : list LogEntry).
Context (Hp : (p ≤ length l)%nat) (Hrun : common_run p af l es).

Lemma common_run_fits : (p + af ≤ length l)%nat.
Proof using Hp Hrun.
  destruct Hrun as [_ Hk]. destruct af as [|a]; [lia|].
  destruct (Hk a) as (?&?&_&Hlk&_); [lia|]. apply lookup_lt_Some in Hlk. lia.
Qed.

Lemma merged_low k : (k < p)%nat → merged_log p af l es !! k = l !! k.
Proof using Hp Hrun.
  intros Hlt. unfold merged_log. case_decide; [done|]. pose proof common_run_fits.
  rewrite lookup_app_l by (rewrite length_take; lia). by rewrite lookup_take_lt by lia.
Qed.

Lemma merged_request k e :
  es !! k = Some e → ∃ e', merged_log p af l es !! (p + k)%nat = Some e' ∧ e_term e' = e_term e.
Proof using Hp Hrun.
  intros He. pose proof (lookup_lt_Some _ _ _ He). pose proof common_run_fits.
  destruct Hrun as [Haf Hk]. unfold merged_log. destruct (decide (k < af)%nat) as [Hlt|Hge].
  - destruct (Hk k Hlt) as (e1&e2&?&Hl2&?). simplify_eq. exists e2. split; [|done].
    case_decide; [done|].
    rewrite lookup_app_l by (rewrite length_take; lia). by rewrite lookup_take_lt by lia.
  - rewrite decide_False by lia. exists e. split; [|done].
    rewrite lookup_app_r by (rewrite length_take; lia).
    rewrite length_take, lookup_drop, <- He. f_equal. lia.
Qed.

(** Every entry of the merged log is an old one or one of the request, at its
    place. *)
Lemma merged_origin k e :
  merged_log p af l es !! k = Some e →
  l !! k = Some e ∨ ∃ j, es !! j = Some e ∧ k = (p + j)%nat.
Proof using Hp Hrun.
  pose proof common_run_fits. unfold merged_log. case_decide; [by left|].
  intros [[He _]%lookup_take_Some|[Hge He]]%lookup_app_Some; [by left|right].
  rewrite length_take in *. rewrite lookup_drop in He. eexists. split; [done|]. lia.
Qed.

(** Without a conflict nothing is lost. *)
Lemma merged_prefix :
  (∀ e e', es !! af = Some e → l !! (p + af)%nat = Some e' → False) →
  l `prefix_of` merged_log p af l es.
Proof using Hp Hrun.
  intros Hno. pose proof common_run_fits. destruct Hrun as [Haf _].
  unfold merged_log. case_decide; [done|].
  destruct (lookup_lt_is_Some_2 es af ltac:(lia)) as [e He].
  destruct (l !! (p + af)%nat) as [e'|] eqn:E; [by edestruct Hno|].
  apply lookup_ge_None in E. rewrite take_ge by lia. by apply prefix_app_r.
Qed.
End merged.

Section append.
Context {S : Type} `{RaftStorageLaws S}.

Lemma reconciled_log (s s' : S) prev p es af tr :
  mem_wf (abs s) → prev + 1 = mem_start (abs s) + N.of_nat p →
  (p ≤ length (m_log (abs s)))%nat →
  reconcile s prev es 0 = Some (s', af, tr) →
  common_run p af (m_log (abs s)) es ∧
  (∀ e e', es !! af = Some e → m_log (abs s) !! (p + af)%nat = Some e' → e_term e ≠ e_term e') ∧
  abs (reconciled s' af es) = mem_set_log (merged_log p af (m_log (abs s)) es) (abs s).
Proof.
  intros Hwf Hprev Hp Hr. eapply reconcile_spec in Hr as (j&->&Hj&Hk&Hc&Hs); [|done..|lia].
  rewrite Nat.add_0_r in *. simpl in *. split; [done|]. split; [done|].
  unfold reconciled, merged_log. repeat case_decide; try lia.
  - subst s'. by rewrite mem_set_log_eta.
  - rewrite abs_append_entries. unfold mem_append_entries. rewrite Hs. done.
Qed.

(** AppendEntries on a well-formed store: it stays well formed, agrees with the
    whole request, is unchanged up to [prev], and loses nothing when it does
    not conflict with the request. *)
Lemma append_entries_store (s s' : S) prev es af tr :
  mem_wf (abs s) → mem_base (abs s) ≤ prev → prev ≤ mem_last_log_index (abs s) →
  entries_after prev es → reconcile s prev es 0 = Some (s', af, tr) →
  let m' := abs (reconciled s' af es) in
  mem_wf m' ∧ log_agrees m' prev es ∧
  (∀ i, i ≤ prev → mem_log_at m' i = mem_log_at (abs s) i) ∧
  (log_agrees (abs s) prev (take (N.to_nat (mem_last_log_index (abs s) - prev)) es) →
   m_log (abs s) `prefix_of` m_log m').
Proof.
  intros Hwf Hb Hl Hes Hr. pose proof (mem_start_pos (abs s)).
  rewrite wf_last_index in * by done. unfold mem_base in *.
  set (m := abs s) in *. set (p := N.to_nat (prev + 1 - mem_start m)).
  assert (prev + 1 = mem_start m + N.of_nat p) as Hp by lia.
  assert (p ≤ length (m_log m))%nat as Hple by lia.
  destruct (reconciled_log s s' prev p es af tr Hwf Hp Hple Hr) as (Hrun&Hc&->).
  fold m in Hrun, Hc |- *. set (l' := merged_log p af (m_log m) es).
  assert (mem_wf (mem_set_log l' m)) as Hwf'.
  { apply mem_wf_set_log; [done|]. intros k e [He|(j&He&->)]%merged_origin; [..|done|done].
    - split; [by apply (wf_index _ Hwf)|]. by apply list_elem_of_lookup_2, (wf_term _ Hwf) in He.
    - apply Hes in He as [Hi ?]. split; [|done]. lia. }
  assert (∀ k, prev + 1 + N.of_nat k = mem_start m + N.of_nat (p + k)) as Hidx by (intros; lia).
  split; [done|]. split; [|split].
  - intros k e He. rewrite Hidx. change (mem_start m) with (mem_start (mem_set_log l' m)).
    rewrite mem_term_at_pos by done. cbn [m_log mem_set_log].
    destruct (merged_request _ _ _ _ Hple Hrun k e He) as (e'&He'&<-).
    unfold l'. by rewrite He'.
  - intros i Hi. destruct (decide (i < mem_start m)); [by rewrite !mem_log_at_low|].
    replace i with (mem_start m + N.of_nat (N.to_nat (i - mem_start m))) by lia.
    rewrite mem_log_at_pos. change (mem_start m) with (mem_start (mem_set_log l' m)) at 1.
    rewrite mem_log_at_pos. apply merged_low; [done..|lia].
  - intros Hag. apply merged_prefix; [done..|]. intros e e' He He'. apply (Hc e e' He He').
    pose proof (lookup_lt_Some _ _ _ He'). rewrite <- (Hag af e), Hidx, mem_term_at_pos, He' by
      first [done|rewrite lookup_take_lt; [done|lia]]. done.
Qed.
End append.

(** ** The AppendEntries handler *)

Section handler.
Context {S M R : Type} `{RaftStorageLaws S} `{StateMachine M} `{Rng R}.
Implicit Types (n : RaftNode S M) (c : Ctx S M R).

(** Everything about a context the log handlers depend on, terms and votes
    aside. *)
Record log_frame c c' : Prop := {
  lf_log : m_log (abs (n_storage (nd c'))) = m_log (abs (n_storage (nd c)));
  lf_start : m_log_start (abs (n_storage (nd c'))) = m_log_start (abs (n_storage (nd c)));
  lf_snap : m_snap_meta (abs (n_storage (nd c'))) = m_snap_meta (abs (n_storage (nd c)));
  lf_config : n_config (nd c') = n_config (nd c);
  lf_commit : n_commit_index (nd c') = n_commit_index (nd c);
  lf_applied : n_last_applied (nd c') = n_last_applied (nd c);
  lf_count : n_applied_count (nd c') = n_applied_count (nd c);
  lf_sends : sends (out c') = sends (out c)
}.

Lemma log_frame_refl c : log_frame c c.
Proof. by split. Qed.

Lemma log_frame_trans c1 c2 c3 : log_frame c1 c2 → log_frame c2 c3 → log_frame c1 c3.
Proof. intros [] []. split; congruence. Qed.

Lemma observe_term_frame P t c : wp P (observe_term t) (λ _ c', log_frame c c') c.
Proof.
  unfold observe_term. rlin. rstep; [|rlin; apply log_frame_refl].
  rlin. rstep; rlin; apply wp_arm; intros; rlin; split; simpl; by to_abs.
Qed.

Lemma step_down_frame P c : wp P step_down_to_follower (λ _ c', log_frame c c') c.
Proof. unfold step_down_to_follower. rlin. rstep; rlin; by split. Qed.

(** Stores with the same log, start and snapshot point read the same. *)
Definition same_log (m m' : MemStorage) : Prop :=
  m_log m' = m_log m ∧ m_log_start m' = m_log_start m ∧ m_snap_meta m' = m_snap_meta m.

Lemma log_frame_same c c' :
  log_frame c c' → same_log (abs (n_storage (nd c))) (abs (n_storage (nd c'))).
Proof. by intros []. Qed.

Lemma same_log_reads m m' :
  same_log m m' →
  mem_start m' = mem_start m ∧ mem_last_log_index m' = mem_last_log_index m ∧
  (∀ i, mem_log_at m' i = mem_log_at m i) ∧ (∀ i, mem_term_at i m' = mem_term_at i m).
Proof.
  intros (Hl&Hs&Hn). assert (mem_start m' = mem_start m) as Hst by (unfold mem_start; by rewrite Hs).
  assert (∀ i, mem_log_at m' i = mem_log_at m i) as Hat.
  { intros i. unfold mem_log_at, mem_pos_of. by rewrite Hst, Hl. }
  unfold mem_last_log_index, mem_term_at. rewrite Hl, Hn. repeat split; auto.
  intros i. destruct (m_snap_meta m); by rewrite Hat.
Qed.

Lemma same_log_wf m m' : same_log m m' → mem_wf m → mem_wf m'.
Proof.
  intros Hs [Hi Ht Hn]. destruct (same_log_reads _ _ Hs) as (Hst&_&_&_). destruct Hs as (Hl&_&Hm).
  split; rewrite ?Hl, ?Hst, ?Hm; auto.
Qed.

(** A scan over a range that ends below the machine maximum terminates. *)
Lemma config_scan_total (s : S) idx last vl :
  last < U64_MAX → is_Some (config_scan (scan_fuel idx last) s idx last vl).
Proof.
  intros Hl. unfold scan_fuel. remember (N.to_nat (last + 1 - idx)) as fuel eqn:Hf.
  revert idx vl Hf. induction fuel as [|fuel IH]; intros idx vl Hf; simpl; case_decide; eauto; [lia|].
  rewrite add64_small by lia. simpl. apply IH. lia.
Qed.

Lemma recompute_total c :
  last_log_index (n_storage (nd c)) < U64_MAX →
  wp False recompute_config (λ _ c', log_frame c c') c.
Proof.
  intros Hl. unfold recompute_config. rlin.
  - unfold recompute_config_from_log in *. destruct (config_scan _ _ _ _ _) as [[]|]; simplify_eq.
    by split.
  - unfold recompute_config_from_log in *.
    destruct (config_scan_total (n_storage (nd c)) (log_start_index (n_storage (nd c)))
      (last_log_index (n_storage (nd c))) (n_config_baseline (nd c)) Hl) as [[] Hs].
    by rewrite Hs in *.
Qed.

(** Applying reaches the commit watermark when every index up to it is there. *)
Lemma apply_loop_total c :
  (∀ i, n_last_applied (nd c) < i ≤ n_commit_index (nd c) →
     is_Some (entry_at i (n_storage (nd c)))) →
  n_applied_count (nd c) + (n_commit_index (nd c) - n_last_applied (nd c)) ≤ U64_MAX →
  wp False (apply_loop (N.to_nat (n_commit_index (nd c) - n_last_applied (nd c)))) (λ _ c',
    n_storage (nd c') = n_storage (nd c) ∧ n_config (nd c') = n_config (nd c) ∧
    sends (out c') = sends (out c)) c.
Proof.
  remember (N.to_nat _) as fuel eqn:Hf. revert c Hf.
  induction fuel as [|fuel IH]; intros c Hf Hent Hcnt; simpl; [by rlin|].
  rlin. rstep; [|by rlin]. rlin.
  - apply add64_Some in H4 as [-> _]. eapply wp_mono; [apply IH; simpl; [lia| |lia]|done].
    intros i Hi. apply Hent. lia.
  - unfold add64 in *. case_decide; [done|]. lia.
  - destruct (Hent (n_last_applied (nd c) + 1)) as [e He]; [lia|]. congruence.
Qed.

Lemma apply_committed_total c :
  snapshot_threshold (n_config (nd c)) = 0 →
  (∀ i, n_last_applied (nd c) < i ≤ n_commit_index (nd c) →
     is_Some (entry_at i (n_storage (nd c)))) →
  n_applied_count (nd c) + (n_commit_index (nd c) - n_last_applied (nd c)) ≤ U64_MAX →
  wp False apply_committed (λ _ c',
    n_storage (nd c') = n_storage (nd c) ∧ sends (out c') = sends (out c)) c.
Proof.
  intros Hth Hent Hcnt. unfold apply_committed. rlin.
  eapply wp_mono; [by apply apply_loop_total|]. intros ? c1 (Hs&Hc&Ho).
  unfold maybe_compact. rlin. rewrite Hc, Hth. rstep; [by rlin|done].
Qed.

(** A matching previous entry is one the store has. *)
Lemma prev_in_log m pli plt :
  mem_wf m → (pli ≠ 0 → plt ≠ 0) → mem_term_at pli m = plt → mem_base m ≤ pli →
  pli ≤ mem_last_log_index m.
Proof.
  intros Hwf Hplt Ht Hb. rewrite wf_last_index by done. unfold mem_base in *.
  destruct (decide (pli = 0)) as [->|Hne]; [lia|]. specialize (Hplt Hne).
  pose proof (mem_start_pos m). destruct (decide (pli < mem_start m)); [lia|].
  replace pli with (mem_start m + N.of_nat (N.to_nat (pli - mem_start m))) in * by lia.
  rewrite mem_term_at_pos in Ht by done.
  destruct (m_log m !! N.to_nat (pli - mem_start m)) as [e|] eqn:E; simpl in Ht; [|congruence].
  apply lookup_lt_Some in E. lia.
Qed.

Lemma reconcile_total (s : S) prev es i :
  prev + 1 + N.of_nat (i + length es) ≤ U64_MAX → is_Some (reconcile s prev es i).
Proof.
  revert i. induction es as [|e es IH]; intros i Hb; simpl in *; [eauto|].
  rewrite add64_small by lia. simpl. rewrite add64_small by lia. simpl.
  repeat case_decide; eauto. apply IH. lia.
Qed.

(** Every index between the base and the last one has an entry. *)
Lemma entry_at_range m i :
  mem_wf m → mem_base m < i ≤ mem_last_log_index m → is_Some (mem_entry_at i m).
Proof.
  intros Hwf. rewrite wf_last_index by done. unfold mem_base, mem_entry_at.
  pose proof (mem_start_pos m). intros Hi. rewrite decide_False by lia.
  replace i with (mem_start m + N.of_nat (N.to_nat (i - mem_start m))) by lia.
  rewrite mem_log_at_pos. apply lookup_lt_is_Some_2. lia.
Qed.

(** The last entry a request vouches for is in a log that agrees with it. *)
Lemma log_agrees_last m prev es :
  mem_wf m → mem_base m ≤ prev → prev ≤ mem_last_log_index m → entries_after prev es →
  log_agrees m prev es → prev + N.of_nat (length es) ≤ mem_last_log_index m.
Proof.
  intros Hwf Hb Hp Hes Hag. destruct (decide (es = [])) as [->|Hne]; [simpl; lia|].
  destruct (lookup_lt_is_Some_2 es (length es - 1)) as [e He].
  { destruct es; simpl in *; [done|lia]. }
  pose proof (lookup_lt_Some _ _ _ He). specialize (Hag _ _ He).
  apply prev_in_log in Hag; [lia|done| |lia]. intros _. by apply (Hes _ _ He).
Qed.

(** What a reply to AppendEntries promises about the stores [m] before and
    [m'] after the request. *)
Definition append_reply (m m' : MemStorage) (pli : N) (es : list LogEntry) (ok : bool) (mi : N) : Prop :=
  if ok then
    mi = pli + N.of_nat (length es) ∧ log_agrees m' pli es ∧
    (∀ i, i ≤ pli → mem_log_at m' i = mem_log_at m i) ∧
    (log_agrees m pli (take (N.to_nat (mem_last_log_index m - pli)) es) →
     m_log m `prefix_of` m_log m')
  else same_log m m'.

(** A request the handler can work with on store [m]: it starts at or above
    the snapshot point, its entries are consecutive with real terms, and its
    indices fit the machine width. *)
Record good_request (m : MemStorage) (pli plt : N) (es : list LogEntry) : Prop := {
  gr_base : mem_base m ≤ pli;
  gr_prev : pli ≠ 0 → plt ≠ 0;
  gr_entries : entries_after pli es;
  gr_last : mem_last_log_index m < U64_MAX;
  gr_fits : pli + N.of_nat (length es) < U64_MAX
}.

Lemma good_request_same m m' pli plt es :
  same_log m m' → good_request m pli plt es → good_request m' pli plt es.
Proof.
  intros (Hst&Hl&_&_)%same_log_reads []. unfold mem_base in *.
  split; unfold mem_base; rewrite ?Hst, ?Hl; auto.
Qed.

Lemma append_reply_same m0 m m' pli es ok mi :
  same_log m0 m → append_reply m m' pli es ok mi → append_reply m0 m' pli es ok mi.
Proof.
  intros Hs. destruct (same_log_reads _ _ Hs) as (_&Hl&Hat&Ht). destruct Hs as (Hm&Hls&Hsn).
  unfold append_reply. destruct ok.
  - rewrite Hl, Hm. intros (?&?&Hlow&Hpre). repeat split; auto.
    + intros i Hi. rewrite Hlow by done. apply Hat.
    + intros Hag. apply Hpre. intros k e He. rewrite Ht. by apply Hag.
  - intros (?&?&?). repeat split; congruence.
Qed.

(** The part of the handler after the consistency check. *)
Lemma reconcile_step_total c pli plt es :
  mem_wf (abs (n_storage (nd c))) → good_request (abs (n_storage (nd c))) pli plt es →
  term_at pli (n_storage (nd c)) = plt →
  ∃ s' af tr, reconcile (n_storage (nd c)) pli es 0 = Some (s', af, tr) ∧
    let m' := abs (reconciled s' af es) in
    mem_wf m' ∧ append_reply (abs (n_storage (nd c))) m' pli es true (pli + N.of_nat (length es)) ∧
    pli + N.of_nat (length es) ≤ mem_last_log_index m' ∧ mem_last_log_index m' < U64_MAX ∧
    mem_base m' = mem_base (abs (n_storage (nd c))).
Proof.
  intros Hwf [] Ht. rewrite abs_term_at in Ht.
  destruct (reconcile_total (n_storage (nd c)) pli es 0) as [[[s' af] tr] Hr]; [simpl; lia|].
  exists s', af, tr. split; [done|].
  assert (pli ≤ mem_last_log_index (abs (n_storage (nd c)))) as Hle by (by eapply prev_in_log).
  destruct (append_entries_store _ _ _ _ _ _ Hwf gr_base0 Hle gr_entries0 Hr) as (Hwf'&Hag&Hlow&Hpre).
  pose proof (mem_start_pos (abs (n_storage (nd c)))).
  rewrite wf_last_index in Hle by done. unfold mem_base in *.
  set (p := N.to_nat (pli + 1 - mem_start (abs (n_storage (nd c))))).
  destruct (reconciled_log (n_storage (nd c)) s' pli p es af tr Hwf
    ltac:(lia) ltac:(lia) Hr) as (Hrun&_&Heq).
  split; [done|]. split; [by repeat split|].
  assert (mem_start (abs (reconciled s' af es)) = mem_start (abs (n_storage (nd c)))) as Hst
    by (by rewrite Heq).
  pose proof (common_run_fits p af (m_log (abs (n_storage (nd c)))) es ltac:(lia) Hrun).
  assert (pli + N.of_nat (length es) ≤ mem_last_log_index (abs (reconciled s' af es))) as Hlast.
  { apply log_agrees_last; try done; unfold mem_base; rewrite ?Hst; [done|].
    rewrite wf_last_index by done. unfold mem_base. rewrite Hst, Heq. simpl.
    unfold merged_log. case_decide; [lia|]. rewrite length_app, length_take. lia. }
  split; [done|]. split; [|unfold mem_base; by rewrite Hst].
  rewrite wf_last_index in * by done. unfold mem_base in *. rewrite Hst, Heq in *. simpl in *.
  unfold merged_log in *. case_decide; [lia|]. destruct Hrun.
  rewrite length_app, length_take, length_drop in *. lia.
Qed.

(** The handler after the consistency check. *)
Lemma accept_entries_total current leader pli plt es lc c :
  snapshot_threshold (n_config (nd c)) = 0 →
  mem_wf (abs (n_storage (nd c))) →
  good_request (abs (n_storage (nd c))) pli plt es →
  term_at pli (n_storage (nd c)) = plt →
  mem_base (abs (n_storage (nd c))) ≤ n_last_applied (nd c) →
  n_applied_count (nd c) + (pli + N.of_nat (length es)) ≤ U64_MAX →
  wp False (accept_entries current leader pli es lc) (λ _ c',
    mem_wf (abs (n_storage (nd c'))) ∧
    sends (out c') = sends (out c) ++
      [(leader, AppendEntriesResp current true (pli + N.of_nat (length es)))] ∧
    append_reply (abs (n_storage (nd c))) (abs (n_storage (nd c'))) pli es true
      (pli + N.of_nat (length es))) c.
Proof.
  intros Hth Hwf Hgr Ht Hbase Hcnt.
  destruct (reconcile_step_total c pli plt es Hwf Hgr Ht) as (s'&af&tr&Hr&Hwf'&Hrep&Hlast&Hmax&Hb').
  unfold accept_entries. rlin; [|simpl in *; congruence]. rewrite Hr in H3. simplify_eq. rlin.
  pose (c1 := with_nd (set_storage (reconciled s' af es)) c).
  eapply wp_mono with (Q := λ _ c', log_frame c1 c').
  { unfold c1, reconciled. rstep; rlin;
      [rewrite decide_True by (by eapply bool_decide_eq_true)
      |rewrite decide_False by (by eapply bool_decide_eq_false)]; by split. }
  intros ? c2 Hf2. simpl in Hf2. rlin.
  eapply wp_mono with (Q := λ _ c', log_frame c1 c').
  { rstep; [|done]. eapply wp_mono; [apply recompute_total|].
    - to_abs. destruct (same_log_reads _ _ (log_frame_same _ _ Hf2)) as (_&->&_). done.
    - intros ? c' Hf. exact (log_frame_trans _ _ _ Hf2 Hf). }
  intros ? c3 Hf3. simpl in Hf3. rlin; [|unfold add64 in *; case_decide; [done|]; destruct Hgr; lia].
  apply add64_Some in H3 as [-> _]. pose proof (log_frame_same _ _ Hf3) as Hsame.
  destruct (same_log_reads _ _ Hsame) as (Hst&Hli&Hat&Hta).
  eapply wp_mono with (Q := λ _ c', n_storage (nd c') = n_storage (nd c3) ∧ sends (out c') = sends (out c3)).
  { rstep; [|done]. rlin. rstep; [|done]. rlin.
    destruct Hf3. unfold c1 in *. simpl in *.
    eapply wp_mono; [apply apply_committed_total; simpl; [congruence|..]|done].
    - intros i Hi. to_abs. apply entry_at_range; [by eapply same_log_wf|].
      unfold mem_base in *. rewrite Hst, Hli. lia.
    - lia. }
  intros ? c4 [Hs4 Ho4]. rlin. simpl. rewrite Hs4, Ho4, (lf_sends _ _ Hf3).
  split; [by eapply same_log_wf|]. split; [done|]. unfold append_reply in *.
  destruct Hrep as (?&Hag&Hlow&Hpre), Hsame as (Hl3&_&_). unfold c1 in *. simpl in *.
  split; [done|]. split; [|split].
  - intros k e He. rewrite Hta. by apply Hag.
  - intros i Hi. rewrite Hat. by apply Hlow.
  - rewrite Hl3. done.
Qed.


End handler.
