(* ===== verification/RaftCommit.v ===== *)
(** * Raft: commit rule, configurations and snapshot transfer

    When a leader advances its commit watermark, what the configuration of a
    node is as a function of its log and survives compaction, why consecutive
    configurations share a quorum, and that a chunked snapshot arrives whole. *)

From Stdlib Require Import Lia ZArith NArith.
From S2P Require Import Prelude Env RaftTypes RaftStorage RaftNode RaftElection RaftLog.

Open Scope N_scope.

(** ** The commit rule *)

Section commit.
Context {S M R : Type} `{RaftStorageLaws S} `{StateMachine M} `{Rng R}.
Implicit Types (n : RaftNode S M) (c : Ctx S M R).

(** An index a leader may commit: of its own term, on a majority of voters. *)
Definition committable n (i : N) : Prop :=
  term_at i (n_storage n) = current_term (n_storage n) ∧
  (majority_of (n_voters n) ≤ replicated_count n i)%nat.

(** The watermark [v] a commit step of leader [n] may end with. *)
Definition commit_outcome n (v : N) : Prop :=
  let last := last_log_index (n_storage n) in
  (v = n_commit_index n ∨ n_commit_index n < v ≤ last ∧ committable n v) ∧
  ∀ j, v < j ≤ last → ¬ committable n j.

Lemma commit_scan_spec fuel n i :
  n_commit_index n + N.of_nat fuel = i ∨ i ≤ n_commit_index n →
  let r := commit_scan fuel n i in
  (r = n_commit_index n ∨ n_commit_index n < r ≤ i ∧ committable n r) ∧
  ∀ j, r < j ≤ i → ¬ committable n j.
Proof.
  revert i. induction fuel as [|fuel IH]; intros i Hi; simpl.
  { split; [by left|]. intros j Hj. lia. }
  case_decide as Hlt; [|split; [by left|]; intros j Hj; lia].
  case_decide as Hc.
  - split; [right; split; [lia|done]|]. intros j Hj. lia.
  - destruct (IH (i - 1)) as [Hr Hno]; [lia|]. split.
    + destruct Hr as [?|[??]]; [by left|right]. split; [lia|done].
    + intros j Hj. destruct (decide (j = i)) as [->|]; [done|]. apply Hno. lia.
Qed.

Lemma apply_committed_commit c :
  wp True apply_committed (λ _ c', n_commit_index (nd c') = n_commit_index (nd c)) c.
Proof.
  unfold apply_committed. rlin.
  eapply wp_mono with (Q := λ _ c', n_commit_index (nd c') = n_commit_index (nd c)).
  - generalize (N.to_nat (n_commit_index (nd c) - n_last_applied (nd c))) as fuel.
    intros fuel. revert c. induction fuel as [|fuel IH]; intros c; simpl; [by rlin|].
    rlin. rstep; [|by rlin]. rlin. eapply wp_mono; [apply IH|done].
  - intros ? c1 H1'. unfold maybe_compact. rsteps; done.
Qed.


(** The voters [replicated_count] counts, as a set: with the node itself out of
    its own [match_index], the count is the size of a set of voters. *)
Definition replicas n (i : N) : gset NodeId :=
  n_voters n ∩ ({[n_id n]} ∪ dom (filter (λ p : NodeId * N, p.1 ∈ n_voters n ∧ i ≤ p.2) (n_match_index n))).

Lemma replicated_count_size n i :
  n_match_index n !! n_id n = None → replicated_count n i = size (replicas n i).
Proof.
  intros Hself. unfold replicated_count, replicas.
  set (f := filter _ _). rewrite <- size_dom.
  assert (n_id n ∉ dom f) as Hni.
  { rewrite elem_of_dom. intros [x [Hx _]%map_lookup_filter_Some]. congruence. }
  assert (dom f ⊆ n_voters n) as Hsub.
  { intros p [x [_ [Hp _]]%map_lookup_filter_Some]%elem_of_dom. done. }
  case_decide as Hv.
  - replace (n_voters n ∩ ({[n_id n]} ∪ dom f)) with ({[n_id n]} ∪ dom f) by set_solver.
    rewrite size_union by set_solver. by rewrite size_singleton.
  - replace (n_voters n ∩ ({[n_id n]} ∪ dom f)) with (dom f) by set_solver. done.
Qed.
End commit.

(** ** Configurations *)

(** The membership a log implies on top of a baseline. *)
Definition config_of_log (b : Membership) (l : list LogEntry) : Membership :=
  foldl (λ vl e, match e_payload e with
                 | ConfigChange ch => apply_membership_delta vl ch
                 | _ => vl
                 end) b l.

Section config.
Context {S M : Type} `{RaftStorageLaws S} `{StateMachine M}.
Implicit Types (n : RaftNode S M).

Lemma config_scan_log (s : S) idx last vl vl' fuel :
  mem_wf (abs s) → mem_start (abs s) ≤ idx →
  config_scan fuel s idx last vl = Some vl' →
  vl' = config_of_log vl
          (take (N.to_nat (last + 1 - idx)) (drop (N.to_nat (idx - mem_start (abs s))) (m_log (abs s)))).
Proof.
  intros Hwf. revert idx vl. induction fuel as [|fuel IH]; intros idx vl Hidx; simpl;
    case_decide as Hle; try done.
  1,3: intros [= <-]; by replace (N.to_nat (last + 1 - idx)) with 0%nat by lia.
  destruct (add64 idx 1) as [idx'|] eqn:E; simpl; [|done]. apply add64_Some in E as [-> _].
  intros ->%IH; [|lia]. clear IH. unfold config_entry. rewrite abs_entry_at.
  unfold mem_entry_at. pose proof (mem_start_pos (abs s)). rewrite decide_False by lia.
  set (k := N.to_nat (idx - mem_start (abs s))).
  replace idx with (mem_start (abs s) + N.of_nat k) by lia. rewrite mem_log_at_pos.
  replace (N.to_nat (mem_start (abs s) + N.of_nat k + 1 - mem_start (abs s))) with (Datatypes.S k) by lia.
  replace (N.to_nat (last + 1 - (mem_start (abs s) + N.of_nat k)))
    with (Datatypes.S (N.to_nat (last + 1 - (mem_start (abs s) + N.of_nat k + 1)))) by lia.
  destruct (m_log (abs s) !! k) as [e|] eqn:Ek.
  - rewrite (drop_S _ _ _ Ek). simpl. done.
  - apply lookup_ge_None in Ek. rewrite !drop_ge by lia. by rewrite !take_nil.
Qed.

(** The live configuration (C22): on a well-formed store, recomputing the
    configuration never panics below the machine maximum and yields exactly
    the membership changes of the log applied to the baseline, in order. *)
Theorem recompute_config_correct n :
  mem_wf (abs (n_storage n)) → mem_last_log_index (abs (n_storage n)) < U64_MAX →
  recompute_config_from_log n =
    Some (let vl := config_of_log (n_config_baseline n) (m_log (abs (n_storage n))) in
          set_learners vl.2 (set_voters vl.1 n)).
Proof.
  intros Hwf Hmax. unfold recompute_config_from_log.
  rewrite <- abs_last_log_index in Hmax.
  destruct (config_scan_total (n_storage n) (log_start_index (n_storage n))
    (last_log_index (n_storage n)) (n_config_baseline n) Hmax) as [[vs ls] Hs].
  rewrite Hs. apply config_scan_log in Hs; [|done|by rewrite abs_log_start_index].
  to_abs. rewrite wf_last_index in Hs by done. unfold mem_base in Hs.
  pose proof (mem_start_pos (abs (n_storage n))).
  rewrite N.sub_diag, take_ge in Hs by (rewrite length_drop; lia).
  simpl in Hs. rewrite drop_0 in Hs. by rewrite <- Hs.
Qed.

Lemma config_at_log n i vl :
  mem_wf (abs (n_storage n)) → config_at i n = Some vl →
  vl = config_of_log (n_config_baseline n)
         (take (N.to_nat (i - mem_base (abs (n_storage n)))) (m_log (abs (n_storage n)))).
Proof.
  intros Hwf. unfold config_at. intros ->%config_scan_log; [|done|by rewrite abs_log_start_index].
  to_abs. rewrite wf_last_index by done. unfold mem_base.
  pose proof (mem_start_pos (abs (n_storage n))). rewrite N.sub_diag. simpl. rewrite drop_0.
  f_equal. destruct (decide (i ≤ mem_base (abs (n_storage n)) + N.of_nat (length (m_log (abs (n_storage n)))))).
  - f_equal. unfold mem_base in *. lia.
  - unfold mem_base in *. rewrite !take_ge by lia. done.
Qed.

(** Voters and learners stay apart. *)
Lemma delta_disjoint vs ls ch :
  vs ## ls → (apply_membership_delta (vs, ls) ch).1 ## (apply_membership_delta (vs, ls) ch).2.
Proof. intros Hd. destruct ch; simpl; try case_decide; simpl; set_solver. Qed.

(** One change adds or removes at most one voter. *)
Lemma delta_one_voter vs ls ch :
  ∃ x, let vs' := (apply_membership_delta (vs, ls) ch).1 in
       vs' = vs ∨ vs' = vs ∪ {[x]} ∨ vs' = vs ∖ {[x]}.
Proof. destruct ch as [x|x|x|x|x]; exists x; simpl; try case_decide; auto. Qed.

Lemma quorum_add (V Q1 Q2 : gset NodeId) x :
  x ∉ V → (majority_of V ≤ size (Q1 ∩ V))%nat →
  (majority_of (V ∪ {[x]}) ≤ size (Q2 ∩ (V ∪ {[x]})))%nat → ∃ u, u ∈ Q1 ∧ u ∈ Q2.
Proof.
  intros Hx H1' H2'. destruct (decide ((Q1 ∩ V) ∩ (Q2 ∩ (V ∪ {[x]})) = ∅)) as [He|Hne].
  - exfalso. assert (size (V ∪ {[x]}) = size V + 1)%nat as Hsz
      by (rewrite size_union by set_solver; by rewrite size_singleton).
    assert (size (Q1 ∩ V) + size (Q2 ∩ (V ∪ {[x]})) ≤ size (V ∪ {[x]}))%nat.
    { rewrite <- size_union by set_solver. apply subseteq_size. set_solver. }
    assert (majority_of (V ∪ {[x]}) = (size V + 1) / 2 + 1)%nat as Hm by (rewrite <- Hsz; done).
    rewrite Hm in H2'. unfold majority_of in *. rewrite Hsz in *.
    pose proof (Nat.div_mod_eq (size V) 2). pose proof (Nat.mod_upper_bound (size V) 2).
    pose proof (Nat.div_mod_eq (size V + 1) 2). pose proof (Nat.mod_upper_bound (size V + 1) 2). lia.
  - apply set_choose_L in Hne as [u Hu]. exists u. set_solver.
Qed.

(** Single-server changes (C23): every majority of the voters before a
    membership change and every majority of the voters after it have a member
    in common, for each of the five kinds of change. *)
Theorem membership_change_quorums_overlap vs ls ch vs' (Q1 Q2 : gset NodeId) :
  (apply_membership_delta (vs, ls) ch).1 = vs' →
  (majority_of vs ≤ count_in Q1 vs)%nat → (majority_of vs' ≤ count_in Q2 vs')%nat →
  ∃ u, u ∈ Q1 ∧ u ∈ Q2.
Proof.
  intros <-. unfold count_in. destruct (delta_one_voter vs ls ch) as [x Hx]. simpl in *.
  destruct Hx as [->|[Hx|Hx]].
  - intros Ha Hb. destruct (majorities_intersect _ _ _ Ha Hb) as (u&_&?&?). eauto.
  - rewrite Hx. destruct (decide (x ∈ vs)).
    + replace (vs ∪ {[x]}) with vs by set_solver.
      intros Ha Hb. destruct (majorities_intersect _ _ _ Ha Hb) as (u&_&?&?). eauto.
    + by apply quorum_add.
  - rewrite Hx. destruct (decide (x ∈ vs)).
    + intros Ha Hb. replace vs with (vs ∖ {[x]} ∪ {[x]}) in Ha
        by (rewrite difference_union_L; set_solver).
      destruct (quorum_add (vs ∖ {[x]}) Q2 Q1 x) as (u&?&?); [set_solver|done..|eauto].
    + replace (vs ∖ {[x]}) with vs by set_solver.
      intros Ha Hb. destruct (majorities_intersect _ _ _ Ha Hb) as (u&_&?&?). eauto.
Qed.
End config.

(** ** Compaction *)

Section compact.
Context {S M R : Type} `{RaftStorageLaws S} `{StateMachine M} `{Rng R}.
Implicit Types (n : RaftNode S M) (c : Ctx S M R).

(** The store after a snapshot at [lii] with baseline [b]. *)
Definition compacted (m : MemStorage) (lii : N) (b : Membership) (data : list byte) : option MemStorage :=
  mem_compact_to lii (mem_save_snapshot (mkMeta lii (mem_term_at lii m)) data
    (mem_save_config_baseline b.1 b.2 m)).

(** What compaction at [lii] leaves as it was. *)
Record compact_ok (m m' : MemStorage) (lii : N) : Prop := {
  co_wf : mem_wf m';
  co_log : m_log m = take (N.to_nat (lii - mem_base m)) (m_log m) ++ m_log m';
  co_last : mem_last_log_index m' = mem_last_log_index m;
  co_last_term : mem_last_log_term m' = mem_last_log_term m;
  co_term : ∀ i, lii ≤ i → mem_term_at i m' = mem_term_at i m;
  co_tv : m_current_term m' = m_current_term m ∧ m_voted_for m' = m_voted_for m
}.

Lemma mem_last_term_at m : mem_wf m → mem_last_log_term m = mem_term_at (mem_last_log_index m) m.
Proof.
  intros Hwf. unfold mem_last_log_term. destruct (last (m_log m)) as [e|] eqn:Hl.
  - rewrite wf_last_index by done. rewrite last_lookup in Hl. pose proof (lookup_lt_Some _ _ _ Hl).
    pose proof (mem_start_pos m). unfold mem_base.
    replace (mem_start m - 1 + N.of_nat (length (m_log m)))
      with (mem_start m + N.of_nat (Nat.pred (length (m_log m)))) by lia.
    rewrite mem_term_at_pos, Hl by done. done.
  - unfold mem_last_log_index, mem_term_at. rewrite Hl. pose proof (wf_snap _ Hwf).
    destruct (m_snap_meta m) as [meta|]; [|by rewrite decide_True].
    rewrite decide_False by lia. by rewrite decide_True.
Qed.

Lemma compacted_ok m m' lii b data :
  mem_wf m → mem_base m < lii ≤ mem_last_log_index m →
  compacted m lii b data = Some m' →
  compact_ok m m' lii ∧ m_config_baseline m' = Some b.
Proof.
  intros Hwf Hlii. pose proof (mem_start_pos m). rewrite wf_last_index in Hlii by done.
  unfold compacted, mem_compact_to, mem_base in *.
  change (mem_start (mem_save_snapshot _ _ _)) with (mem_start m).
  rewrite decide_False by lia. destruct (add64 lii 1) as [s'|] eqn:E; [|done].
  apply add64_Some in E as [-> _]. intros [= <-]. simpl.
  set (d := N.to_nat (lii - mem_start m + 1)). rewrite Nat.min_l by lia.
  set (m' := mkMem _ _ _ _ _ _ _).
  assert (mem_start m' = lii + 1) as Hst by (unfold mem_start; simpl; rewrite decide_False; lia).
  assert (∃ e, m_log m !! N.to_nat (lii - mem_start m) = Some e) as [e He]
    by (apply lookup_lt_is_Some_2; lia).
  assert (mem_term_at lii m = e_term e) as Hte.
  { replace lii with (mem_start m + N.of_nat (N.to_nat (lii - mem_start m))) by lia.
    by rewrite mem_term_at_pos, He. }
  assert (mem_wf m') as Hwf'.
  { split; rewrite ?Hst; simpl.
    - intros k e'. rewrite lookup_drop. intros Hk%(wf_index _ Hwf). lia.
    - intros e' [k Hk]%list_elem_of_lookup. rewrite lookup_drop in Hk.
      by apply list_elem_of_lookup_2, (wf_term _ Hwf) in Hk.
    - split; [done|]. split; [lia|]. rewrite Hte. by apply list_elem_of_lookup_2, (wf_term _ Hwf) in He. }
  assert (mem_last_log_index m' = mem_last_log_index m) as Hlast.
  { rewrite !wf_last_index by done. unfold mem_base. rewrite Hst. simpl. rewrite length_drop. lia. }
  assert (∀ i, lii ≤ i → mem_term_at i m' = mem_term_at i m) as Hterm.
  { intros i Hi. destruct (decide (i = lii)) as [->|Hne].
    - unfold mem_term_at at 1. simpl. rewrite decide_False by lia. by rewrite decide_True.
    - replace i with (mem_start m' + N.of_nat (N.to_nat (i - (lii + 1)))) at 1 by lia.
      rewrite mem_term_at_pos by done. simpl. rewrite lookup_drop.
      replace i with (mem_start m + N.of_nat (d + N.to_nat (i - (lii + 1)))) by lia.
      rewrite mem_term_at_pos by done. repeat f_equal. lia. }
  split; [|by destruct b]. split; try done; simpl.
  - unfold mem_base. replace (N.to_nat (lii - (mem_start m - 1))) with d by lia.
    by rewrite take_drop.
  - rewrite !mem_last_term_at, Hlast by done. apply Hterm. rewrite wf_last_index by done.
    unfold mem_base. lia.
Qed.

(** Compaction is transparent (C21): on a well-formed store whose applied
    watermark lies in the log, [maybe_compact] leaves a well-formed store with
    the same last index and term, the same terms from the snapshot point on
    and the same entries above it; the live configuration computed from the
    new baseline and the remaining log is the one before, and whenever the log
    was cut that baseline has been persisted. *)
Theorem compaction_transparent c c' :
  let m := abs (n_storage (nd c)) in
  mem_wf m → mem_base m ≤ n_last_applied (nd c) ≤ mem_last_log_index m →
  maybe_compact c = Some (tt, c') →
  let m' := abs (n_storage (nd c')) in
  config_of_log (n_config_baseline (nd c')) (m_log m') =
    config_of_log (n_config_baseline (nd c)) (m_log m) ∧
  (c' = c ∨ compact_ok m m' (n_last_applied (nd c)) ∧
            m_config_baseline m' = Some (n_config_baseline (nd c'))).
Proof.
  intros m Hwf Hla Hrun.
  refine (wp_Some _ (λ _ c', config_of_log (n_config_baseline (nd c')) (m_log (abs (n_storage (nd c')))) =
      config_of_log (n_config_baseline (nd c)) (m_log m) ∧
    (c' = c ∨ compact_ok m (abs (n_storage (nd c'))) (n_last_applied (nd c)) ∧
       m_config_baseline (abs (n_storage (nd c'))) = Some (n_config_baseline (nd c')))) _ _ _ _ Hrun).
  clear Hrun c'. unfold maybe_compact. rlin. rstep; [rlin; auto|]. rstep; [rlin; auto|].
  rstep; [rlin; auto|]. rlin. simpl in *.
  apply (f_equal (fmap abs)) in H5. rewrite abs_compact_to in H5. simpl in H5. to_abs.
  fold (compacted m (n_last_applied (nd c)) x0 x) in H5. fold m in n0, n1.
  assert (mem_base m < n_last_applied (nd c)) as Hlt.
  { pose proof (wf_snap _ Hwf) as Hs. unfold mem_load_snapshot, mem_base in *.
    destruct (m_snap_meta m); lia. }
  destruct (compacted_ok m (abs x1) (n_last_applied (nd c)) x0 x Hwf ltac:(lia) H5) as [Hok Hb].
  split; [|by right]. apply config_at_log in H4; [|done]. rewrite H4. fold m.
  rewrite (co_log _ _ _ Hok) at 2. unfold config_of_log. by rewrite foldl_app.
Qed.
End compact.

(** ** Chunked snapshot transfer *)

(** The exchange of a leader with one follower: the leader sends the chunk at
    the offset the follower last asked for, the follower buffers it, and the
    transfer ends with the chunk marked done. *)
Fixpoint transfer (fuel : nat) (cap lii lit : N) (data : list byte) (vs ls : gset NodeId)
    (offset : N) (buf : option SnapshotRx) : option SnapshotRx :=
  match fuel with
  | O => None
  | Datatypes.S fuel =>
      let '(start, chunk, done) := snapshot_chunk cap data offset in
      match rx_accept buf lii lit start chunk vs ls with
      | Some rx => if done then Some rx else transfer fuel cap lii lit data vs ls (rx_len rx) (Some rx)
      | None => None
      end
  end.

Lemma transfer_from cap lii lit data vs ls fuel offset buf :
  N.of_nat (length data) ≤ U64_MAX → (N.to_nat offset ≤ length data)%nat →
  (length data - N.to_nat offset < fuel)%nat →
  (offset ≠ 0 → buf = Some (mkRx lii lit vs ls (take (N.to_nat offset) data))) →
  transfer fuel cap lii lit data vs ls offset buf = Some (mkRx lii lit vs ls data).
Proof.
  intros Hmax. revert offset buf. induction fuel as [|fuel IH]; intros offset buf Ho Hf Hb; [lia|].
  simpl. rewrite (N.min_l offset) by lia.
  set (e := N.min (sat_add64 offset _) _).
  assert (offset ≤ e ≤ N.of_nat (length data)) as He by (unfold e, sat_add64; lia).
  assert (offset < N.of_nat (length data) → offset < e) as Hprog
    by (unfold e, sat_add64; case_decide; lia).
  assert (rx_accept buf lii lit offset (take (N.to_nat (e - offset)) (drop (N.to_nat offset) data)) vs ls
    = Some (mkRx lii lit vs ls (take (N.to_nat e) data))) as ->.
  { unfold rx_accept. case_decide as H0'.
    - subst offset. rewrite N.sub_0_r. done.
    - rewrite Hb by done. unfold rx_same, rx_len, rx_extend. simpl. rewrite length_take.
      rewrite !bool_decide_eq_true_2 by (try done; lia). simpl. do 2 f_equal.
      rewrite take_take_drop. f_equal. lia. }
  case_bool_decide as Hdone.
  - rewrite take_ge by lia. done.
  - apply IH; unfold rx_len; simpl; rewrite ?length_take; [lia..|]. intros _. do 2 f_equal. f_equal. lia.
Qed.

(** Snapshot transfer (C24): for every chunk size, zero included, and whatever
    the follower had buffered before, exchanging chunks from offset 0 ends
    after at most one chunk per byte plus one, with exactly the leader's
    snapshot bytes, meta and configuration in the follower's buffer. *)
Theorem snapshot_transfer_complete cap lii lit data vs ls buf :
  N.of_nat (length data) ≤ U64_MAX →
  transfer (Datatypes.S (length data)) cap lii lit data vs ls 0 buf = Some (mkRx lii lit vs ls data).
Proof. intros Hmax. apply transfer_from; [done|simpl; lia..|done]. Qed.
