(* ===== verification/RaftScenarios.v ===== *)
(** * Raft: concrete runs

    Small clusters of RaftNet.v executed by computation, on [MemStorage] and
    [CountingSm] with the default configuration: an ordinary election and
    commit, and two runs in which the engine loses a guarantee. *)

From Stdlib Require Import Lia ZArith NArith.
From S2P Require Import Prelude Env RaftTypes RaftStorage RaftNode RaftElection RaftNet.
From S2P Require Import RaftMonotone RaftLog RaftCommit.

Open Scope N_scope.

(** A script delivers packets by their position on the wire. *)
Inductive Cmd :=
  | Deliver (now : Monotonic) (k : nat)
  | Do (e : Event).

Abbreviation TestWorld := (World MemStorage CountingSm).

Definition cmd_event (c : Cmd) (w : TestWorld) : option Event :=
  match c with
  | Deliver now k => (λ p, EvDeliver now p) <$> (w_net w !! k)
  | Do e => Some e
  end.

Fixpoint exec_script (V : gset NodeId) (cs : list Cmd) (w : TestWorld) : option TestWorld :=
  match cs with
  | [] => Some w
  | c :: cs =>
      e ← cmd_event c w;
      w' ← exec_event V CountingSm_new (splitmix64_new 7) e w;
      exec_script V cs w'
  end.

Definition boot (V : gset NodeId) (cfg : RaftConfig) (ids : list NodeId) : TestWorld :=
  mkWorld (list_to_map (omap (λ i, pair i <$> node_new i V mem_new cfg) ids)) [].

Lemma boot_initial V cfg ids : initial V CountingSm_new (boot V cfg ids).
Proof.
  split; [done|]. intros i n. simpl. intros Hn%elem_of_list_to_map_2.
  apply list_elem_of_omap in Hn as (j&_&Hj).
  destruct (node_new j V mem_new cfg) eqn:E; simplify_eq/=.
  exists mem_new, cfg. done.
Qed.

Definition plain_cmd (c : Cmd) : bool :=
  match c with Do (EvPropose _ p) => negb (is_config_change p) | _ => true end.

Lemma exec_script_reachable V cs (w w' : TestWorld) :
  reachable (R := SplitMix64) V CountingSm_new w → forallb plain_cmd cs = true →
  exec_script V cs w = Some w' → reachable (R := SplitMix64) V CountingSm_new w'.
Proof.
  revert w. induction cs as [|c cs IH]; intros w Hw; simpl; [by intros _ [= <-]|].
  intros [Hc Hcs]%andb_true_iff. destruct (cmd_event c w) as [e|] eqn:He; simpl; [|done].
  destruct (exec_event _ _ _ e w) as [w1|] eqn:Hx; simpl; [|done].
  apply IH; [|done]. eapply reach_step; [done| |done].
  destruct c as [now k|[]]; simplify_eq/=; try done.
  - destruct (w_net w !! k); simplify_eq/=. done.
  - by apply negb_true_iff.
Qed.

Definition election (now : Monotonic) (i : NodeId) : Cmd := Do (EvTimer now i ELECTION_TIMEOUT).
Definition deliver (now : Monotonic) : list nat → list Cmd := map (Deliver now).

(** ** Three nodes elect node 1 and commit its no-op *)

Definition V3 : gset NodeId := {[1; 2; 3]}.

Definition election_script : list Cmd :=
  election 0 1 :: deliver 0 [0; 2; 3; 5; 6; 8]%nat.

Definition elected_world : option TestWorld :=
  exec_script V3 election_script (boot V3 RaftConfig_default [1; 2; 3]).

(** ** A membership change by a leader that has committed nothing in its term

    Leader 1 of term 1 appends [AddVoter 5] and reaches only node 5.  Node 2 is
    elected in term 2 by {2,3,4}, appends [RemoveVoter 1] and commits it with
    {2,3}, a majority of {2,3,4}.  Node 1 is then elected in term 3 by {1,4,5},
    a majority of {1,2,3,4,5} disjoint from {2,3}. *)

Definition V4 : gset NodeId := {[1; 2; 3; 4]}.

Definition T1 : Monotonic := dur_from_millis 10000.
Definition T2 : Monotonic := dur_from_millis 20000.

Definition membership_script : list Cmd :=
  election 0 1 :: deliver 0 [0; 1; 3; 4; 5; 6; 8; 9; 10; 11; 12; 13; 14]%nat ++
  Do (EvPropose 1 (ConfigChange (AddVoter 5))) :: deliver 0 [19; 20; 21; 22; 23; 24]%nat ++
  election T1 2 :: deliver T1 [26; 27; 28; 29; 31; 32; 33; 34]%nat ++
  Do (EvPropose 2 (ConfigChange (RemoveVoter 1))) :: deliver T1 [38; 40]%nat ++
  deliver T2 [30]%nat ++ election T2 1 ::
  deliver T2 [44; 45; 46; 47; 50; 51; 52; 53; 56; 57; 58; 59; 60; 61]%nat.

(** What a node has applied at index [i]. *)
Definition applied_at (w : TestWorld) (node : NodeId) (i : N) : option LogEntry :=
  n ← w_nodes w !! node;
  if decide (i ≤ n_last_applied n) then entry_at i (n_storage n) else None.

(** ** A retransmitted AppendEntries after the follower compacted

    With a snapshot threshold of 1, follower 2 applies entries 1 and 2 and
    compacts them away; then the leader's first AppendEntries packet ([prev = 0],
    entry 1) reaches it once more. *)

Definition compacting : RaftConfig := {|
  election_timeout_base := dur_from_millis 150;
  election_timeout_jitter := dur_from_millis 150;
  heartbeat_interval := dur_from_millis 50;
  snapshot_threshold := 1;
  snapshot_chunk_bytes := DEFAULT_SNAPSHOT_CHUNK_BYTES;
  pre_vote := true;
  check_quorum := true
|}.

Definition compaction_script : list Cmd :=
  election_script ++
  Do (EvPropose 1 Noop) :: deliver 0 [9; 11]%nat ++ Do (EvPropose 1 Noop) :: deliver 0 [12]%nat.

(** ** What the runs show *)

Lemma elected_world_reachable w :
  elected_world = Some w → reachable (R := SplitMix64) V3 CountingSm_new w.
Proof.
  apply exec_script_reachable; [|done]. apply reach_initial, boot_initial.
Qed.

(** Witness of [election_safety]: node 1 is the leader of term 1 after
    [election_script]. *)
Lemma election_safety_witness :
  ∃ w n, elected_world = Some w ∧ w_nodes w !! 1 = Some n ∧ n_role n = Leader ∧ 1 = 1.
Proof.
  eexists _, _. split; [vm_compute; reflexivity|].
  split; [vm_compute; reflexivity|]. split; [vm_compute; reflexivity|].
  eapply (election_safety V3 CountingSm_new);
    [apply elected_world_reachable; vm_compute; reflexivity|vm_compute; reflexivity..].
Defined.

(** Witness of [append_entries_one_leader]: the two packets that carry the no-op
    of node 1. *)
Lemma append_entries_one_leader_witness :
  ∃ w p q, elected_world = Some w ∧ w_net w !! 6%nat = Some p ∧ w_net w !! 7%nat = Some q ∧
    1 = 1 ∧ 1 = p_from p ∧ 1 = p_from q.
Proof.
  eexists _, _, _. split; [vm_compute; reflexivity|].
  split; [vm_compute; reflexivity|]. split; [vm_compute; reflexivity|].
  eapply (append_entries_one_leader V3 CountingSm_new);
    [apply elected_world_reachable; vm_compute; reflexivity
    |eapply (list_elem_of_lookup_2 _ 6); reflexivity|eapply (list_elem_of_lookup_2 _ 7); reflexivity
    |reflexivity..].
Defined.


(** Retransmission after compaction : in a run without membership changes
    a duplicated AppendEntries packet that starts below the snapshot point is
    accepted and appended behind newer entries, so a follower's last log index
    drops to 1 below its own commit watermark 2 and its store is no longer
    well formed. *)
Theorem stale_append_corrupts_log :
  ∃ w n,
    exec_script V3 (compaction_script ++ [Deliver 0 6%nat]) (boot V3 compacting [1; 2; 3]) = Some w ∧
    reachable (R := SplitMix64) V3 CountingSm_new w ∧
    w_nodes w !! 2 = Some n ∧
    last_log_index (n_storage n) = 1 ∧ n_commit_index n = 2 ∧ ¬ mem_wf (n_storage n).
Proof.
  eexists _, _. split; [vm_compute; reflexivity|].
  split; [|split; [vm_compute; reflexivity|]].
  - eapply (exec_script_reachable _ (compaction_script ++ [Deliver 0 6%nat]));
      [apply reach_initial, (boot_initial V3 compacting [1; 2; 3])|reflexivity|vm_compute; reflexivity].
  - split; [reflexivity|]. split; [reflexivity|]. intros [Hi _ _].
    specialize (Hi 1%nat _ eq_refl). by vm_compute in Hi.
Qed.

(** Witness of [step_monotone]: the first election timeout of node 1. *)
Lemma step_monotone_witness :
  ∃ w' n, exec_event V3 CountingSm_new (splitmix64_new 7) (EvTimer 0 1 ELECTION_TIMEOUT)
      (boot V3 RaftConfig_default [1; 2; 3]) = Some w' ∧
    w_nodes (boot V3 RaftConfig_default [1; 2; 3]) !! 1 = Some n ∧
    ∃ n', w_nodes w' !! 1 = Some n' ∧ mono n n'.
Proof.
  eexists _, _. split; [vm_compute; reflexivity|]. split; [vm_compute; reflexivity|].
  eapply (step_monotone V3 CountingSm_new (splitmix64_new 7) (EvTimer 0 1 ELECTION_TIMEOUT)
    (boot V3 RaftConfig_default [1; 2; 3]));
    [reflexivity|vm_compute; reflexivity|vm_compute; reflexivity|vm_compute; discriminate].
Defined.

(** A follower whose log conflicts with a request from its second entry on. *)
Definition noop (t i : N) : LogEntry := mkEntry t i Noop.

Definition follower_store : MemStorage :=
  mkMem 2 None [noop 1 1; noop 1 2; noop 1 3] 0 None [] None.

Definition follower_node : RaftNode MemStorage CountingSm :=
  mkNode 2 V3 ∅ (V3, ∅) Follower ∅ None 0 0 false None ∅ None RaftConfig_default follower_store
    1 1 ∅ ∅ 1 ∅ None CountingSm_new.

Definition follower_ctx : Ctx MemStorage CountingSm SplitMix64 :=
  mkCtx follower_node (splitmix64_new 7) effects_new.

Lemma follower_store_wf : mem_wf follower_store.
Proof.
  split.
  - intros [|[|[|]]] e; simpl; intros; simplify_eq; done.
  - intros e. simpl. rewrite !elem_of_cons, elem_of_nil.
    intros [->|[->|[->|[]]]]; done.
  - done.
Qed.


(** A leader of term 2 whose peers hold its log up to index 2 and 3. *)
Definition leader_node : RaftNode MemStorage CountingSm :=
  mkNode 1 V3 ∅ (V3, ∅) Leader {[1; 2]} None 0 0 false None ∅ (Some 1) RaftConfig_default
    (mkMem 2 (Some 1) [noop 1 1; noop 2 2; noop 2 3] 0 None [] None)
    1 1 {[2 := 3; 3 := 4]} {[2 := 2; 3 := 3]} 1 ∅ None CountingSm_new.


(** Witness of [recompute_config_correct]. *)
Lemma recompute_config_correct_witness :
  recompute_config_from_log follower_node =
    Some (let vl := config_of_log (V3, ∅) (m_log follower_store) in
          set_learners vl.2 (set_voters vl.1 follower_node)).
Proof.
  refine (recompute_config_correct follower_node _ _); [exact follower_store_wf|vm_compute; reflexivity].
Defined.

(** Witness of [membership_change_quorums_overlap]: adding node 4 to {1,2,3}. *)
Lemma membership_change_quorums_overlap_witness :
  ∃ u : NodeId, u ∈ ({[1; 2]} : gset NodeId) ∧ u ∈ ({[2; 3; 4]} : gset NodeId).
Proof.
  apply (membership_change_quorums_overlap V3 ∅ (AddVoter 4) {[1; 2; 3; 4]} {[1; 2]} {[2; 3; 4]});
    [vm_compute; reflexivity|vm_compute; repeat constructor..].
Defined.

(** The follower above with everything applied and a snapshot threshold of 1. *)
Definition applied_ctx : Ctx MemStorage CountingSm SplitMix64 :=
  mkCtx (mkNode 2 V3 ∅ (V3, ∅) Follower ∅ None 0 0 false None ∅ None compacting follower_store
    2 2 ∅ ∅ 2 ∅ None CountingSm_new) (splitmix64_new 7) effects_new.

(** Witness of [compaction_transparent]: the first two entries are cut. *)
Lemma compaction_transparent_witness :
  ∃ c', maybe_compact applied_ctx = Some (tt, c') ∧
    m_log (n_storage (nd c')) = [noop 1 3] ∧
    let m := abs (n_storage (nd applied_ctx)) in
    let m' := abs (n_storage (nd c')) in
    config_of_log (n_config_baseline (nd c')) (m_log m') =
      config_of_log (n_config_baseline (nd applied_ctx)) (m_log m) ∧
    (c' = applied_ctx ∨ compact_ok m m' (n_last_applied (nd applied_ctx)) ∧
       m_config_baseline m' = Some (n_config_baseline (nd c'))).
Proof.
  eexists. split; [vm_compute; reflexivity|]. split; [reflexivity|].
  refine (compaction_transparent applied_ctx _ _ _ _);
    [exact follower_store_wf|vm_compute; split; discriminate|vm_compute; reflexivity].
Defined.

(** Witness of [snapshot_transfer_complete]: five bytes in chunks of two. *)
Lemma snapshot_transfer_complete_witness :
  transfer 6 2 7 1 [x01; x02; x03; x04; x05] V3 ∅ 0 None =
    Some (mkRx 7 1 V3 ∅ [x01; x02; x03; x04; x05]).
Proof.
  apply (snapshot_transfer_complete 2 7 1 [x01; x02; x03; x04; x05] V3 ∅ None).
  vm_compute. discriminate.
Defined.
