(* ===== verification/Slot.v ===== *)
(** * The cluster slot space (crates/ironcache-protocol/src/slot.rs)

    CRC16/XMODEM, the hash-tag rule and the key-to-slot map.  The bitwise CRC of
    the code is proved to be the remainder of the message polynomial, over the
    field with two elements, divided by x^16 + x^12 + x^5 + 1. *)

From Stdlib Require Import Lia ZArith NArith.
From S2P Require Import Prelude.

#[local] Open Scope N_scope.

(** ** The code *)

Definition CLUSTER_SLOTS : N := 16384.

(** One of the eight shifts of the inner loop, on a 16-bit register. *)
Definition crc16_bit (crc : N) : N :=
  if negb (N.land crc 0x8000 =? 0)
  then N.lxor (N.shiftl crc 1 mod 2 ^ 16) 0x1021
  else N.shiftl crc 1 mod 2 ^ 16.

Definition crc16_byte (crc : N) (b : byte) : N :=
  Nat.iter 8 crc16_bit (N.lxor crc (N.shiftl (Byte.to_N b) 8)).

Definition crc16 (data : list byte) : N := foldl crc16_byte 0 data.

Definition hash_tag (key : list byte) : list byte :=
  match position "{"%byte key with
  | Some open =>
      match position "}"%byte (drop (open + 1) key) with
      | Some rel => if decide (rel ≠ 0%nat) then take rel (drop (open + 1) key) else key
      | None => key
      end
  | None => key
  end.

Definition key_slot (key : list byte) : N := crc16 (hash_tag key) mod CLUSTER_SLOTS.

(** ** Polynomials over the field with two elements, as bit vectors *)

(** Carry-less product. *)
Fixpoint clmul_pos (q : positive) (p : N) : N :=
  match q with
  | xH => p
  | xO q => N.double (clmul_pos q p)
  | xI q => N.lxor p (N.double (clmul_pos q p))
  end.

Definition clmul (q p : N) : N := match q with 0 => 0 | Npos q => clmul_pos q p end.

(** The generator x^16 + x^12 + x^5 + 1. *)
Definition XMODEM : N := 0x11021.

(** The bytes of a message as coefficients, most significant bit first. *)
Definition message (data : list byte) : N :=
  foldl (λ m b, N.lxor (N.shiftl m 8) (Byte.to_N b)) 0 data.

(** [r] is the remainder of [m] modulo [p]. *)
Definition is_remainder (m p r : N) : Prop :=
  (r = 0 ∨ N.log2 r < N.log2 p) ∧ ∃ q, m = N.lxor (clmul q p) r.

Lemma double_lxor a b : N.double (N.lxor a b) = N.lxor (N.double a) (N.double b).
Proof. rewrite !N.double_spec, <- !(N.mul_comm _ 2), <- !(N.shiftl_mul_pow2 _ 1). apply N.shiftl_lxor. Qed.

Lemma lxor_swap a b c d : N.lxor (N.lxor a b) (N.lxor c d) = N.lxor (N.lxor a c) (N.lxor b d).
Proof.
  rewrite !N.lxor_assoc. f_equal. rewrite <- !N.lxor_assoc. f_equal. apply N.lxor_comm.
Qed.

Lemma clmul_double q p : clmul (N.double q) p = N.double (clmul q p).
Proof. by destruct q. Qed.

Lemma clmul_succ_double q p : clmul (N.succ_double q) p = N.lxor p (N.double (clmul q p)).
Proof. destruct q; simpl; [by rewrite N.lxor_0_r|done]. Qed.

Lemma clmul_lxor a b p : clmul (N.lxor a b) p = N.lxor (clmul a p) (clmul b p).
Proof.
  revert b. induction a as [|a IH|a IH] using N.binary_ind; intros b.
  - by rewrite !N.lxor_0_l.
  - induction b as [|b _|b _] using N.binary_ind.
    + by rewrite !N.lxor_0_r.
    + rewrite <- double_lxor, !clmul_double, IH. by rewrite double_lxor.
    + replace (N.lxor (N.double a) (N.succ_double b)) with (N.succ_double (N.lxor a b))
        by (by destruct a, b).
      rewrite !clmul_succ_double, clmul_double, IH, double_lxor.
      rewrite <- !N.lxor_assoc. f_equal. apply N.lxor_comm.
  - induction b as [|b _|b _] using N.binary_ind.
    + by rewrite !N.lxor_0_r.
    + replace (N.lxor (N.succ_double a) (N.double b)) with (N.succ_double (N.lxor a b))
        by (by destruct a, b).
      by rewrite !clmul_succ_double, clmul_double, IH, double_lxor, N.lxor_assoc.
    + replace (N.lxor (N.succ_double a) (N.succ_double b)) with (N.double (N.lxor a b))
        by (by destruct a, b).
      rewrite !clmul_succ_double, clmul_double, IH, double_lxor.
      by rewrite lxor_swap, N.lxor_nilpotent, N.lxor_0_l.
Qed.

(** A product has the degree of its factors together. *)
Lemma log2_lxor_lt a b : N.log2 a < N.log2 b → N.log2 (N.lxor a b) = N.log2 b.
Proof.
  intros Hlt. apply N.log2_bits_unique.
  - rewrite N.lxor_spec, N.bit_log2 by (intros ->; simpl in Hlt; lia).
    by rewrite (N.bits_above_log2 a).
  - intros m Hm. rewrite N.lxor_spec, !N.bits_above_log2 by lia. done.
Qed.

Lemma clmul_degree q p :
  q ≠ 0 → p ≠ 0 → clmul q p ≠ 0 ∧ N.log2 (clmul q p) = N.log2 q + N.log2 p.
Proof.
  intros Hq Hp. induction q as [|q IH|q IH] using N.binary_ind; [done|..].
  - destruct IH as [Hne Hlog]; [by destruct q|].
    rewrite clmul_double, !N.double_spec, !N.log2_double, Hlog; lia.
  - rewrite clmul_succ_double. destruct (decide (q = 0)) as [->|Hq0].
    { simpl. by rewrite N.lxor_0_r. }
    destruct IH as [Hne Hlog]; [done|].
    assert (N.log2 (N.double (clmul q p)) = N.succ (N.log2 q + N.log2 p)) as Hd
      by (rewrite N.double_spec, N.log2_double by lia; congruence).
    assert (N.log2 (N.lxor p (N.double (clmul q p))) = N.succ (N.log2 q + N.log2 p)) as Hx
      by (rewrite log2_lxor_lt by lia; done).
    split; [intros H0; rewrite H0 in Hx; simpl in Hx; lia|].
    rewrite Hx, N.succ_double_spec, N.log2_succ_double by lia. lia.
Qed.

(** The remainder is unique, so [is_remainder] determines the checksum. *)
Lemma is_remainder_unique m p r1 r2 :
  p ≠ 0 → is_remainder m p r1 → is_remainder m p r2 → r1 = r2.
Proof.
  intros Hp [H1 [q1 E1]] [H2 [q2 E2]].
  assert (clmul (N.lxor q1 q2) p = N.lxor r1 r2) as E.
  { rewrite clmul_lxor. apply N.lxor_eq. rewrite lxor_swap, <- E1, <- E2.
    apply N.lxor_nilpotent. }
  destruct (decide (N.lxor q1 q2 = 0)) as [Hq|Hq].
  { rewrite Hq in E. by apply N.lxor_eq. }
  destruct (clmul_degree _ p Hq Hp) as [Hne Hlog]. rewrite E in *.
  pose proof (N.log2_lxor r1 r2).
  destruct H1 as [->|], H2 as [->|]; rewrite ?N.lxor_0_l, ?N.lxor_0_r in *; lia || done.
Qed.

(** ** The bitwise register computes the remainder *)

Definition cong (a b : N) : Prop := ∃ q, N.lxor a b = clmul q XMODEM.

Lemma cong_lxor a b c d : cong a b → cong c d → cong (N.lxor a c) (N.lxor b d).
Proof. intros [q Hq] [q' Hq']. exists (N.lxor q q'). by rewrite clmul_lxor, lxor_swap, Hq, Hq'. Qed.

Lemma cong_refl a : cong a a.
Proof. exists 0. by rewrite N.lxor_nilpotent. Qed.

Lemma cong_trans a b c : cong a b → cong b c → cong a c.
Proof.
  intros [q Hq] [q' Hq']. exists (N.lxor q q'). rewrite clmul_lxor, <- Hq, <- Hq'.
  by rewrite N.lxor_assoc, <- (N.lxor_assoc b b c), N.lxor_nilpotent, N.lxor_0_l.
Qed.

Lemma cong_shiftl a b n : cong a b → cong (N.shiftl a n) (N.shiftl b n).
Proof.
  intros [q Hq]. exists (N.shiftl q n). rewrite <- N.shiftl_lxor, Hq. clear Hq.
  induction n as [|n IH] using N.peano_ind; [by rewrite !N.shiftl_0_r|].
  by rewrite !N.shiftl_succ_r, clmul_double, IH.
Qed.

(** The register has 2^16 states: each of them is checked. *)
Definition bit_step_ok (crc : N) : bool :=
  (crc16_bit crc <? 2 ^ 16) &&
  (N.lxor (crc16_bit crc) (N.shiftl crc 1) =? (if N.testbit crc 15 then XMODEM else 0)).

Fixpoint all_words (n : nat) (acc : N) (f : N → bool) : bool :=
  match n with
  | O => f acc
  | S n => all_words n (N.double acc) f && all_words n (N.succ_double acc) f
  end.

Lemma all_words_spec n acc f k :
  all_words n acc f = true → k < 2 ^ N.of_nat n → f (acc * 2 ^ N.of_nat n + k) = true.
Proof.
  revert acc k. induction n as [|n IH]; intros acc k; [simpl; intros Hf Hk|].
  { replace k with 0 by lia. by rewrite N.mul_1_r, N.add_0_r. }
  rewrite Nat2N.inj_succ, N.pow_succ_r' by lia. simpl. intros [H1 H2]%andb_prop Hk.
  destruct (decide (k < 2 ^ N.of_nat n)).
  - replace (acc * _ + k) with (N.double acc * 2 ^ N.of_nat n + k) by (rewrite N.double_spec; lia).
    by apply IH.
  - replace (acc * _ + k) with (N.succ_double acc * 2 ^ N.of_nat n + (k - 2 ^ N.of_nat n))
      by (rewrite N.succ_double_spec; lia).
    apply IH; [done|lia].
Qed.

Lemma bit_step_all : all_words 16 0 bit_step_ok = true.
Proof. vm_compute. reflexivity. Qed.

Lemma crc16_bit_ok crc : crc < 2 ^ 16 → crc16_bit crc < 2 ^ 16 ∧ cong (crc16_bit crc) (N.shiftl crc 1).
Proof.
  intros Hlt. apply (all_words_spec 16 0 bit_step_ok crc bit_step_all) in Hlt.
  change (bit_step_ok crc = true) in Hlt. apply andb_prop in Hlt as [H1 H2].
  split; [by apply N.ltb_lt|]. apply N.eqb_eq in H2.
  destruct (N.testbit crc 15); [exists 1|exists 0]; done.
Qed.

Lemma crc16_bits_ok n crc :
  crc < 2 ^ 16 →
  Nat.iter n crc16_bit crc < 2 ^ 16 ∧ cong (Nat.iter n crc16_bit crc) (N.shiftl crc (N.of_nat n)).
Proof.
  intros Hlt. induction n as [|n [IHlt IH]]; simpl.
  { split; [done|]. rewrite N.shiftl_0_r. apply cong_refl. }
  destruct (crc16_bit_ok _ IHlt) as [? Hc]. split; [done|].
  eapply cong_trans; [exact Hc|]. eapply (cong_shiftl _ _ 1) in IH.
  rewrite N.shiftl_shiftl in IH.
  replace (N.of_nat (S n)) with (N.of_nat n + 1) by lia. exact IH.
Qed.

Lemma crc16_byte_ok crc b m :
  crc < 2 ^ 16 → cong crc (N.shiftl m 16) →
  crc16_byte crc b < 2 ^ 16 ∧
  cong (crc16_byte crc b) (N.shiftl (N.lxor (N.shiftl m 8) (Byte.to_N b)) 16).
Proof.
  intros Hlt Hc. pose proof (byte_to_N_bound b) as Hb.
  assert (N.shiftl (Byte.to_N b) 8 < 2 ^ 16) by (rewrite N.shiftl_mul_pow2; lia).
  destruct (crc16_bits_ok 8 (N.lxor crc (N.shiftl (Byte.to_N b) 8))) as [? Hk].
  { by apply lxor_lt_pow2. }
  split; [done|]. eapply cong_trans; [exact Hk|].
  rewrite !N.shiftl_lxor, !N.shiftl_shiftl. apply cong_lxor; [|apply cong_refl].
  eapply (cong_shiftl _ _ 8) in Hc. by rewrite N.shiftl_shiftl in Hc.
Qed.

Lemma crc16_cong data crc m :
  crc < 2 ^ 16 → cong crc (N.shiftl m 16) →
  foldl crc16_byte crc data < 2 ^ 16 ∧
  cong (foldl crc16_byte crc data)
       (N.shiftl (foldl (λ m b, N.lxor (N.shiftl m 8) (Byte.to_N b)) m data) 16).
Proof.
  revert crc m. induction data as [|b data IH]; intros crc m Hlt Hc; simpl; [done|].
  destruct (crc16_byte_ok crc b m Hlt Hc). by apply IH.
Qed.

(** CRC16/XMODEM : for every byte string the bitwise loop returns the
    remainder of the message, shifted by sixteen bits, modulo the generator
    x^16 + x^12 + x^5 + 1 over the field with two elements; that remainder is
    the only value with this property. *)
Theorem crc16_is_remainder data r :
  is_remainder (N.shiftl (message data) 16) XMODEM r ↔ r = crc16 data.
Proof.
  assert (is_remainder (N.shiftl (message data) 16) XMODEM (crc16 data)) as Hrem.
  { destruct (crc16_cong data 0 0) as [Hlt [q Hq]]; [done|apply cong_refl|]. split.
    - destruct (decide (crc16 data = 0)); [by left|right].
      apply N.log2_lt_pow2; [by apply N.neq_0_lt_0|exact Hlt].
    - exists q. rewrite <- Hq. fold (message data). fold (crc16 data).
      by rewrite (N.lxor_comm (crc16 data)), N.lxor_assoc, N.lxor_nilpotent, N.lxor_0_r. }
  split; [|by intros ->]. intros Hr. exact (is_remainder_unique _ XMODEM _ _ (λ H, ltac:(discriminate H)) Hr Hrem).
Qed.

(** ** Hash tags *)

(** The tag of a key: the bytes between the first opening brace and the first
    closing brace after it, when there are any. *)
Definition tagged (key tag : list byte) : Prop :=
  ∃ pre post, key = pre ++ ("{"%byte :: tag ++ "}"%byte :: post) ∧
    ("{"%byte ∉ pre) ∧ ("}"%byte ∉ tag) ∧ tag ≠ [].

(** The hash-tag rule : a key that has a tag is hashed by exactly that tag,
    any other key by all its bytes; so a key in braces lands on the slot of the
    key itself, and every slot is below 16384. *)
Theorem key_slot_tag key :
  (∀ tag, tagged key tag → hash_tag key = tag) ∧
  ((∀ tag, ¬ tagged key tag) → hash_tag key = key) ∧
  (∀ tag post, "{"%byte ∉ tag → "}"%byte ∉ tag → tag ≠ [] →
     key = "{"%byte :: (tag ++ "}"%byte :: post) → key_slot key = key_slot tag) ∧
  key_slot key < CLUSTER_SLOTS.
Proof.
  assert (∀ k tag, tagged k tag → hash_tag k = tag) as Htag.
  { intros ? tag (pre&post&->&Hpre&Htag&Hne). unfold hash_tag. rewrite position_app by done.
    rewrite drop_middle, position_app by done.
    destruct (decide _) as [_|Hz]; [by rewrite take_app_length|].
    destruct tag; [done|]. by destruct Hz. }
  assert (∀ k, (∀ tag, ¬ tagged k tag) → hash_tag k = k) as Hwhole.
  { intros k Hno. unfold hash_tag.
    destruct (position "{"%byte k) as [i|] eqn:Hi; [|done].
    apply position_split in Hi as (pre&post&->&Hpre&->).
    rewrite drop_middle.
    destruct (position "}"%byte post) as [j|] eqn:Hj; [|done].
    apply position_split in Hj as (tag&post'&->&Htg&->).
    destruct (decide _); [|done]. destruct (Hno tag). exists pre, post'.
    split_and!; try done. by intros ->. }
  split; [apply Htag|]. split; [apply Hwhole|]. split.
  - intros tag post Ho Hc Hne ->. unfold key_slot. do 2 f_equal.
    rewrite (Htag _ tag) by (exists [], post; set_solver). symmetry. apply Hwhole.
    intros t (pre&post'&->&_). set_solver.
  - apply N.mod_lt. done.
Qed.
