(* ===== verification/Resp.v ===== *)
(** * RESP values, errors and the serializer (crates/ironcache-protocol/src:
    value.rs, error.rs, encode.rs)

    [encode] produces the reply bytes for a value under the negotiated protocol
    version.  A [String] is modelled by its UTF-8 bytes, an [f64] by the binary
    floating-point values of the Standard Library's [spec_float]; the shortest
    decimal digits come from the [ryu] crate, a parameter here. *)

From Stdlib Require Import Lia ZArith NArith.
From Stdlib Require Import SpecFloat.
From stdpp Require Export strings.
From S2P Require Import Prelude.

(** The bytes of a string literal. *)
Definition str (s : string) : list byte := String.list_byte_of_string s.

Definition CR : byte := x0d.
Definition LF : byte := x0a.
Definition CRLF : list byte := [CR; LF].

(** ** Errors (error.rs) *)

Inductive ErrorCode :=
  | Err | WrongType | NoProto | NoAuth | WrongPass | NoPerm | ExecAbort | Oom | BusyKey
  | OutOfRange | NotBusy | Moved | CrossSlot | ClusterDown | Ask | TryAgain | NoReplicas
  | Loading.

#[export] Instance ErrorCode_eq_dec : EqDecision ErrorCode.
Proof. solve_decision. Defined.

Definition token (c : ErrorCode) : list byte :=
  str match c with
      | Err => "ERR"
      | WrongType => "WRONGTYPE"
      | NoProto => "NOPROTO"
      | NoAuth => "NOAUTH"
      | WrongPass => "WRONGPASS"
      | NoPerm => "NOPERM"
      | ExecAbort => "EXECABORT"
      | Oom => "OOM"
      | BusyKey => "BUSYKEY"
      | OutOfRange => "OUTOFRANGE"
      | NotBusy => "NOTBUSY"
      | Moved => "MOVED"
      | CrossSlot => "CROSSSLOT"
      | ClusterDown => "CLUSTERDOWN"
      | Ask => "ASK"
      | TryAgain => "TRYAGAIN"
      | NoReplicas => "NOREPLICAS"
      | Loading => "LOADING"
      end.

Record ErrorReply := mkError { code : ErrorCode; er_message : list byte }.

#[export] Instance ErrorReply_eq_dec : EqDecision ErrorReply.
Proof. solve_decision. Defined.

Definition line (e : ErrorReply) : list byte :=
  "-"%byte :: token (code e) ++ " "%byte :: er_message e.

Definition protocol (detail : list byte) : ErrorReply :=
  mkError Err (str "Protocol error: " ++ detail).

(** ** Values (value.rs) *)

Inductive ProtoVersion := Resp2 | Resp3.

#[export] Instance ProtoVersion_eq_dec : EqDecision ProtoVersion.
Proof. solve_decision. Defined.

Abbreviation f64 := spec_float (only parsing).

Inductive Value :=
  | SimpleString (s : list byte)
  | Error (e : ErrorReply)
  | Integer (n : Z)
  | BulkString (opt : option (list byte))
  | Array (opt : option (list Value))
  | Null
  | Double (d : f64)
  | Boolean (b : bool)
  | BigNumber (s : list byte)
  | BulkError (e : ErrorReply)
  | VerbatimString (format : byte * byte * byte) (data : list byte)
  | Map (pairs : list (Value * Value))
  | Pairs (pairs : list (Value * Value))
  | Set_ (items : list Value)
  | Push (items : list Value).

(** ** Integers as text *)

Definition digit (n : N) : byte := byte_of_N (48 + n).

(** [while v > 0 { i -= 1; buf[i] = b'0' + v % 10; v /= 10 }] on a 20-byte
    buffer, the fuel being the bytes left in it. *)
Fixpoint itoa_loop (fuel : nat) (v : N) (acc : list byte) : list byte :=
  match fuel with
  | O => acc
  | S fuel => if decide (v = 0)%N then acc
              else itoa_loop fuel (v / 10)%N (digit (v mod 10) :: acc)
  end.

Definition i64_to_str (n : Z) : list byte :=
  if decide (n = 0)%Z then ["0"%byte]
  else let ds := itoa_loop 20 (Z.abs_N n) [] in
       if decide (n < 0)%Z then "-"%byte :: ds else ds.

(** ** Doubles as text *)

(** [str::split_once] on a set of bytes. *)
Fixpoint split_once (p : byte → bool) (s : list byte) : option (list byte * list byte) :=
  match s with
  | [] => None
  | c :: s => if p c then Some ([], s)
              else '(a, b) ← split_once p s; Some (c :: a, b)
  end.

Definition is_digit (b : byte) : bool :=
  (48 <=? Byte.to_N b)%N && (Byte.to_N b <=? 57)%N.

(** [str::parse] of a signed integer type with bounds [lo] and [hi]. *)
Fixpoint digits_value (acc : Z) (ds : list byte) : option Z :=
  match ds with
  | [] => Some acc
  | d :: ds => if is_digit d then digits_value (acc * 10 + (Z.of_N (Byte.to_N d) - 48)) ds else None
  end%Z.

Definition str_parse (lo hi : Z) (s : list byte) : option Z :=
  let '(neg, ds) := match s with
                    | c :: s' => if decide (c = "-"%byte) then (true, s')
                                 else if decide (c = "+"%byte) then (false, s') else (false, s)
                    | [] => (false, [])
                    end in
  match ds with
  | [] => None
  | _ => v ← digits_value 0 ds;
         let v := if neg : bool then (- v)%Z else v in
         if decide (lo ≤ v ≤ hi)%Z then Some v else None
  end.

Definition I32_MIN : Z := (-2147483648)%Z.
Definition I32_MAX : Z := 2147483647%Z.
Definition I64_MIN : Z := (-9223372036854775808)%Z.
Definition I64_MAX : Z := 9223372036854775807%Z.

Fixpoint trim_start0 (s : list byte) : list byte :=
  match s with
  | c :: s' => if decide (c = "0"%byte) then trim_start0 s' else s
  | [] => []
  end.

Definition trim_end0 (s : list byte) : list byte := rev (trim_start0 (rev s)).

(** Sign, significant digits and decimal exponent of a formatted number. *)
Definition decompose_ryu (s : list byte) : bool * list byte * Z :=
  let neg := bool_decide (head s = Some "-"%byte) in
  let s := if neg then tail s else s in
  let '(mantissa, exp) :=
    match split_once (λ c, bool_decide (c = "e"%byte ∨ c = "E"%byte)) s with
    | Some (m, e) => (m, default 0%Z (str_parse I32_MIN I32_MAX e))
    | None => (s, 0%Z)
    end in
  let '(int_part, frac_part) :=
    match split_once (λ c, bool_decide (c = "."%byte)) mantissa with
    | Some (i, f) => (i, f)
    | None => (mantissa, [])
    end in
  let digits := int_part ++ frac_part in
  let k := (exp - Z.of_nat (length frac_part))%Z in
  let lead_trimmed := trim_start0 digits in
  let digits := match lead_trimmed with [] => ["0"%byte] | _ => lead_trimmed end in
  if decide (digits ≠ ["0"%byte]) then
    let t := trim_end0 digits in
    (neg, t, (k + Z.of_nat (length digits - length t))%Z)
  else (neg, digits, k).

(** The decimal exponent of the scientific form, unpadded. *)
Definition emit_exp (exp : N) : list byte :=
  let cent := (exp / 100)%N in
  let '(out, exp, cent) :=
    if decide (99 < exp)%N then ([digit cent], (exp - cent * 100)%N, cent) else ([], exp, 0%N) in
  let '(out, exp) :=
    if decide (9 < exp)%N then (out ++ [digit (exp / 10)], (exp - exp / 10 * 10)%N)
    else if decide (cent ≠ 0)%N then (out ++ ["0"%byte], exp) else (out, exp) in
  out ++ [digit (exp mod 10)].

Definition emit_digits (digits : list byte) (k : Z) (neg : bool) : list byte :=
  let ndigits := Z.of_nat (length digits) in
  let exp := Z.abs (k + ndigits - 1) in
  let max_trailing_zeros := if neg then 6%Z else 7%Z in
  if decide (0 ≤ k ∧ exp < ndigits + max_trailing_zeros)%Z then
    digits ++ replicate (Z.to_nat k) "0"%byte
  else if decide (k < 0 ∧ (-7 < k ∨ exp < 4))%Z then
    let offset := (ndigits - Z.abs k)%Z in
    if decide (offset ≤ 0)%Z then
      "0"%byte :: "."%byte :: replicate (Z.to_nat (- offset)) "0"%byte ++ digits
    else take (Z.to_nat offset) digits ++ "."%byte :: drop (Z.to_nat offset) digits
  else
    let nd := Nat.min (length digits) (18 - (if neg then 1 else 0)) in
    take 1 digits ++
    (if decide (1 < nd)%nat then "."%byte :: take (nd - 1) (drop 1 digits) else []) ++
    "e"%byte :: (if decide (k + ndigits - 1 < 0)%Z then "-"%byte else "+"%byte) ::
    emit_exp (Z.to_N exp).

(** ** The serializer *)

Definition sanitize_byte (b : byte) : byte :=
  if decide (b = CR ∨ b = LF) then " "%byte else b.

Definition sanitize_line (s : list byte) : list byte :=
  if existsb (λ b, bool_decide (b = CR ∨ b = LF)) s then sanitize_byte <$> s else s.

Definition put_i64 (n : Z) : list byte := i64_to_str n.

Definition encode_error_line (e : ErrorReply) : list byte := sanitize_line (line e) ++ CRLF.

Definition null_bulk : list byte := str "$-1" ++ CRLF.

Definition null_array (proto : ProtoVersion) : list byte :=
  match proto with Resp3 => str "_" ++ CRLF | Resp2 => str "*-1" ++ CRLF end.

Definition encode_bulk_len_prefix (len : nat) : list byte :=
  "$"%byte :: put_i64 (Z.of_nat len) ++ CRLF.

Definition encode_bulk_ref (data : list byte) : list byte :=
  encode_bulk_len_prefix (length data) ++ data ++ CRLF.

(** A marker, a count and CRLF: the header of an aggregate. *)
Definition header (marker : byte) (n : nat) : list byte :=
  marker :: put_i64 (Z.of_nat n) ++ CRLF.

Section encode.
(** [ryu::Buffer::format]. *)
Context (ryu : f64 → list byte).

Definition format_double (d : f64) : list byte :=
  match d with
  | S754_nan => str "nan"
  | S754_infinity s => if s then str "-inf" else str "inf"
  | S754_zero s => if s then str "-0" else str "0"
  | S754_finite _ _ _ =>
      let '(neg, digits, k) := decompose_ryu (ryu d) in
      let body := emit_digits digits k neg in
      if neg then "-"%byte :: body else body
  end.

Fixpoint encode (value : Value) (proto : ProtoVersion) : list byte :=
  match value with
  | SimpleString s => "+"%byte :: sanitize_line s ++ CRLF
  | Error e => encode_error_line e
  | Integer n => ":"%byte :: put_i64 n ++ CRLF
  | BulkString (Some data) =>
      "$"%byte :: put_i64 (Z.of_nat (length data)) ++ CRLF ++ data ++ CRLF
  | BulkString None => null_bulk
  | Array (Some items) =>
      header "*"%byte (length items) ++ concat (map (λ item, encode item proto) items)
  | Array None => null_array proto
  | Null => match proto with Resp3 => str "_" ++ CRLF | Resp2 => null_bulk end
  | Double d =>
      match proto with
      | Resp3 => ","%byte :: format_double d ++ CRLF
      | Resp2 => encode_bulk_ref (format_double d)
      end
  | Boolean b =>
      match proto with
      | Resp3 => (if b then str "#t" else str "#f") ++ CRLF
      | Resp2 => ":"%byte :: put_i64 (if b then 1 else 0) ++ CRLF
      end
  | BigNumber s =>
      match proto with
      | Resp3 => "("%byte :: sanitize_line s ++ CRLF
      | Resp2 => encode_bulk_ref s
      end
  | BulkError e =>
      match proto with
      | Resp3 => let body := tail (line e) in header "!"%byte (length body) ++ body ++ CRLF
      | Resp2 => encode_error_line e
      end
  | VerbatimString (f0, f1, f2) data =>
      match proto with
      | Resp3 => header "="%byte (4 + length data) ++ [f0; f1; f2; ":"%byte] ++ data ++ CRLF
      | Resp2 => encode_bulk_ref data
      end
  | Map pairs =>
      match proto with
      | Resp3 => header "%"%byte (length pairs)
      | Resp2 => header "*"%byte (length pairs * 2)
      end ++ concat (map (λ kv, encode kv.1 proto ++ encode kv.2 proto) pairs)
  | Pairs pairs =>
      match proto with
      | Resp3 => header "*"%byte (length pairs) ++
                 concat (map (λ ab, str "*2" ++ CRLF ++ encode ab.1 proto ++ encode ab.2 proto) pairs)
      | Resp2 => header "*"%byte (length pairs * 2) ++
                 concat (map (λ ab, encode ab.1 proto ++ encode ab.2 proto) pairs)
      end
  | Set_ items =>
      header (if decide (proto = Resp3) then "~"%byte else "*"%byte) (length items) ++
      concat (map (λ item, encode item proto) items)
  | Push items =>
      header (if decide (proto = Resp3) then ">"%byte else "*"%byte) (length items) ++
      concat (map (λ item, encode item proto) items)
  end.

End encode.

(** ** Decimal text *)

Lemma to_N_digit d : (d < 10)%N → Byte.to_N (digit d) = (48 + d)%N.
Proof. intros. unfold digit. rewrite to_N_byte_of_N. apply N.mod_small. lia. Qed.

Lemma is_digit_digit d : (d < 10)%N → is_digit (digit d) = true.
Proof.
  intros Hd. unfold is_digit. rewrite to_N_digit by done.
  apply andb_true_intro; split; apply N.leb_le; lia.
Qed.

Lemma itoa_loop_app fuel v acc : itoa_loop fuel v acc = itoa_loop fuel v [] ++ acc.
Proof.
  revert v acc. induction fuel as [|fuel IH]; intros v acc; simpl; [done|].
  case_decide; [done|]. rewrite IH, (IH _ [_]). by rewrite <- app_assoc.
Qed.

Lemma itoa_loop_S fuel v :
  v ≠ 0%N → itoa_loop (S fuel) v [] = itoa_loop fuel (v / 10) [] ++ [digit (v mod 10)].
Proof. intros Hv. simpl. rewrite decide_False by done. apply itoa_loop_app. Qed.

Lemma itoa_digits fuel v : Forall (λ b, is_digit b = true) (itoa_loop fuel v []).
Proof.
  revert v. induction fuel as [|fuel IH]; intros v; [constructor|].
  destruct (decide (v = 0%N)) as [->|Hv]; [constructor|].
  rewrite itoa_loop_S by done. apply Forall_app. split; [done|].
  constructor; [|constructor]. apply is_digit_digit, N.mod_lt. lia.
Qed.

Lemma digits_value_app acc l1 l2 :
  digits_value acc (l1 ++ l2) = digits_value acc l1 ≫= λ a, digits_value a l2.
Proof.
  revert acc. induction l1 as [|d l1 IH]; intros acc; simpl; [done|].
  destruct (is_digit d); [apply IH|done].
Qed.

Lemma itoa_value fuel v :
  (v < 10 ^ N.of_nat fuel)%N → digits_value 0 (itoa_loop fuel v []) = Some (Z.of_N v).
Proof.
  revert v. induction fuel as [|fuel IH]; intros v Hv.
  { replace v with 0%N by (change (10 ^ N.of_nat 0)%N with 1%N in Hv; lia). done. }
  destruct (decide (v = 0%N)) as [->|Hne]; [done|].
  rewrite itoa_loop_S, digits_value_app, IH by
    (done || (rewrite Nat2N.inj_succ, N.pow_succ_r' in Hv; apply N.Div0.div_lt_upper_bound; lia)).
  simpl. assert (v mod 10 < 10)%N by (apply N.mod_lt; lia).
  rewrite is_digit_digit, to_N_digit by done. f_equal.
  pose proof (N.div_mod v 10). lia.
Qed.

Lemma itoa_nonempty fuel v : v ≠ 0%N → itoa_loop (S fuel) v [] ≠ [].
Proof. intros Hv. rewrite itoa_loop_S by done. by destruct (itoa_loop _ _ _). Qed.

(** The text of an [i64]: an optional minus sign and digits that denote it. *)
Lemma i64_to_str_text n :
  (I64_MIN ≤ n ≤ I64_MAX)%Z →
  ∃ ds, i64_to_str n = (if decide (n < 0)%Z then "-"%byte :: ds else ds) ∧ ds ≠ [] ∧
    Forall (λ b, is_digit b = true) ds ∧ digits_value 0 ds = Some (Z.abs n).
Proof.
  intros Hn. unfold i64_to_str. destruct (decide (n = 0)%Z) as [->|Hne].
  { exists ["0"%byte]. split_and!; try done. by repeat constructor. }
  exists (itoa_loop 20 (Z.abs_N n) []). split_and!; [done| | |].
  - apply itoa_nonempty. lia.
  - apply itoa_digits.
  - rewrite itoa_value; [f_equal; lia|]. change (10 ^ N.of_nat 20)%N with 100000000000000000000%N.
    unfold I64_MIN, I64_MAX in *. lia.
Qed.

Lemma digit_not b c : is_digit b = true → is_digit c = false → b ≠ c.
Proof. congruence. Qed.

Lemma digits_no c ds : is_digit c = false → Forall (λ b, is_digit b = true) ds → c ∉ ds.
Proof. intros Hc Hall Hin. eapply Forall_forall in Hall; [|done]. congruence. Qed.

Lemma i64_to_str_no_CR n : (I64_MIN ≤ n ≤ I64_MAX)%Z → CR ∉ i64_to_str n.
Proof.
  intros Hn. destruct (i64_to_str_text n Hn) as (ds&->&_&Hd&_).
  case_decide; [rewrite not_elem_of_cons; split; [done|]|]; by apply digits_no.
Qed.

(** [str::parse] reads back what the serializer prints. *)
Lemma str_parse_i64_to_str n : (I64_MIN ≤ n ≤ I64_MAX)%Z → str_parse I64_MIN I64_MAX (i64_to_str n) = Some n.
Proof.
  intros Hn. destruct (i64_to_str_text n Hn) as (ds&->&Hne&Hd&Hv). unfold str_parse.
  case_decide as Hneg.
  - rewrite decide_True by done. destruct ds as [|d ds]; [done|]. rewrite Hv. simpl.
    rewrite decide_True by lia. f_equal. lia.
  - destruct ds as [|d ds]; [done|]. inversion Hd; subst.
    rewrite !decide_False by (by apply digit_not). rewrite Hv. simpl.
    rewrite decide_True by lia. f_equal. lia.
Qed.
