(* ===== verification/RespDecode.v ===== *)
(** * The incremental request decoder (crates/ironcache-protocol/src/decode.rs)

    [decode] reads one request from the front of the connection's buffer.  The
    model keeps the code's cursors; a result of [None] stands for a panic (an
    index past the end of a slice, or integer overflow) and for running out of
    the loop's fuel.  The byte search of the [memchr] crate is a parameter. *)

From Stdlib Require Import Lia ZArith NArith.
From S2P Require Import Prelude Resp.

Record Limits := mkLimits {
  max_multibulk : Z;
  max_bulk_len : Z;
  max_inline_len : nat;
}.

Definition Limits_default : Limits :=
  mkLimits (1024 * 1024) (512 * 1024 * 1024) (N.to_nat (64 * 1024)).

Definition Request : Type := list (list byte).

Inductive DecodeOutcome :=
  | Complete (request : Request) (consumed : nat)
  | Incomplete
  | DecodeError (e : ErrorReply).

Inductive FrameStep :=
  | FsRequest (request : Request) (consumed : nat)
  | FsSkip (consumed : nat)
  | FsIncomplete
  | FsError (e : ErrorReply).

Definition checked_i64 (z : Z) : option Z :=
  if decide (I64_MIN ≤ z ≤ I64_MAX)%Z then Some z else None.

(** [acc.checked_mul(10)?.checked_add(d)?] over the digits. *)
Fixpoint parse_digits (acc : Z) (ds : list byte) : option Z :=
  match ds with
  | [] => Some acc
  | b :: ds =>
      if is_digit b then
        m ← checked_i64 (acc * 10);
        a ← checked_i64 (m + (Z.of_N (Byte.to_N b) - 48));
        parse_digits a ds
      else None
  end%Z.

Definition parse_i64 (bytes : list byte) : option Z :=
  match bytes with
  | [] => None
  | c :: rest =>
      let '(neg, digits) := if decide (c = "-"%byte) then (true, rest)
                            else if decide (c = "+"%byte) then (false, rest)
                            else (false, bytes) in
      match digits with
      | [] => None
      | _ => acc ← parse_digits 0 digits; Some (if neg : bool then - acc else acc)%Z
      end
  end.

(** [char::from(u8)] in UTF-8. *)
Definition latin1_utf8 (b : byte) : list byte :=
  let n := Byte.to_N b in
  if decide (n < 128)%N then [b]
  else [byte_of_N (192 + n / 64); byte_of_N (128 + n mod 64)].

(** ** Inline commands *)

Definition is_blank (b : byte) : bool := bool_decide (b = " "%byte ∨ b = x09).

Definition DQUOTE : byte := x22.
Definition SQUOTE : byte := x27.
Definition BACKSLASH : byte := x5c.

Inductive ScanMode := Word | DoubleQuoted | SingleQuoted.

Definition unbalanced : ErrorReply := protocol (str "unbalanced quotes in request").

(** What follows a closing quote: a blank or the end of the line. *)
Definition quote_closed (rest : list byte) : bool :=
  match rest with [] => true | c :: _ => is_blank c end.

(** One argument: its bytes and the rest of the line. *)
Fixpoint scan_arg (m : ScanMode) (cur l : list byte) : list byte * list byte + ErrorReply :=
  match m, l with
  | Word, [] => inl (cur, [])
  | Word, c :: l =>
      if is_blank c then inl (cur, l)
      else if decide (c = DQUOTE) then scan_arg DoubleQuoted cur l
      else if decide (c = SQUOTE) then scan_arg SingleQuoted cur l
      else scan_arg Word (cur ++ [c]) l
  | _, [] => inr unbalanced
  | DoubleQuoted, c :: l =>
      if decide (c = BACKSLASH) then
        match l with
        | c2 :: l2 => scan_arg DoubleQuoted (cur ++ [c2]) l2
        | [] => scan_arg DoubleQuoted (cur ++ [c]) l
        end
      else if decide (c = DQUOTE) then
        if quote_closed l then scan_arg Word cur l else inr unbalanced
      else scan_arg DoubleQuoted (cur ++ [c]) l
  | SingleQuoted, c :: l =>
      if decide (c = SQUOTE) then
        if quote_closed l then scan_arg Word cur l else inr unbalanced
      else scan_arg SingleQuoted (cur ++ [c]) l
  end.

Fixpoint skip_blanks (l : list byte) : list byte :=
  match l with
  | c :: l' => if is_blank c then skip_blanks l' else l
  | [] => []
  end.

(** The outer loop; every argument takes at least one byte of the line. *)
Fixpoint split_inline_loop (fuel : nat) (l : list byte) (args : list (list byte))
    : option (list (list byte) + ErrorReply) :=
  match fuel with
  | O => None
  | S fuel =>
      match skip_blanks l with
      | [] => Some (inl args)
      | l' => match scan_arg Word [] l' with
              | inl (cur, rest) => split_inline_loop fuel rest (args ++ [cur])
              | inr e => Some (inr e)
              end
      end
  end.

Definition split_inline (line : list byte) : option (list (list byte) + ErrorReply) :=
  split_inline_loop (S (length line)) line [].

Section decode.
(** [memchr::memchr]. *)
Context (memchr : byte → list byte → option nat).

(** ** Line ends *)

Fixpoint find_crlf_loop (fuel : nat) (buf : list byte) (start : nat) : option nat :=
  match fuel with
  | O => None
  | S fuel =>
      rel ← memchr CR (drop start buf);
      let idx := start + rel in
      if decide (idx + 1 < length buf) then
        if decide (buf !! (idx + 1) = Some LF) then Some idx
        else find_crlf_loop fuel buf (idx + 1)
      else None
  end.

Definition find_crlf (buf : list byte) (from : nat) : option nat :=
  find_crlf_loop (S (length buf)) buf from.

Definition find_crlf_or_lf (input : list byte) : option (nat * nat) :=
  lf ← memchr LF input;
  Some (if decide (0 < lf ∧ input !! (lf - 1) = Some CR) then (lf - 1, lf + 1) else (lf, lf + 1)).

(** ** Frames *)

Definition slice {A} (s e : nat) (l : list A) : list A := take (e - s) (drop s l).

Definition bad_bulk_len : ErrorReply := protocol (str "invalid bulk length").

(** One bulk string at [pos]: its payload range and the position after it.
    [Incomplete] and errors leave through the sum. *)
Definition bulk_header (input : list byte) (limits : Limits) (pos : nat) (not_dollar : byte → ErrorReply)
    : nat * Z + FrameStep :=
  match input !! pos with
  | None => inr FsIncomplete
  | Some b =>
      if decide (b ≠ "$"%byte) then inr (FsError (not_dollar b)) else
      match find_crlf input (pos + 1) with
      | None => inr FsIncomplete
      | Some len_crlf =>
          match parse_i64 (slice (pos + 1) len_crlf input) with
          | None => inr (FsError bad_bulk_len)
          | Some blen =>
              if decide (blen < 0 ∨ max_bulk_len limits < blen)%Z then inr (FsError bad_bulk_len)
              else if decide (Z.of_nat (len_crlf + 2) + blen + 2 ≤ Z.of_nat (length input))%Z
              then inl (len_crlf + 2, blen)
              else inr FsIncomplete
          end
      end
  end.

Definition expected_dollar (b : byte) : ErrorReply :=
  protocol (str "expected '$', got '" ++ latin1_utf8 b ++ str "'").

(** The argument loop, [count] arguments to go. *)
Fixpoint multibulk_args (count : nat) (input : list byte) (limits : Limits)
    (make_arg : nat → nat → list byte) (pos : nat) (args : list (list byte)) : FrameStep :=
  match count with
  | O => FsRequest args pos
  | S count =>
      match bulk_header input limits pos expected_dollar with
      | inr s => s
      | inl (data_start, blen) =>
          let data_end := data_start + Z.to_nat blen in
          if decide (input !! data_end ≠ Some CR ∨ input !! (data_end + 1) ≠ Some LF) then
            FsError (protocol (str "expected CRLF after bulk payload"))
          else multibulk_args count input limits make_arg (data_end + 2)
                 (args ++ [make_arg data_start data_end])
      end
  end.

Definition decode_multibulk (input : list byte) (limits : Limits)
    (make_arg : nat → nat → list byte) : FrameStep :=
  match find_crlf input 1 with
  | None => FsIncomplete
  | Some crlf =>
      match parse_i64 (slice 1 crlf input) with
      | None => FsError (protocol (str "invalid multibulk length"))
      | Some count =>
          if decide (max_multibulk limits < count)%Z then
            FsError (protocol (str "invalid multibulk length"))
          else if decide (count ≤ 0)%Z then FsSkip (crlf + 2)
          else multibulk_args (Z.to_nat count) input limits make_arg (crlf + 2) []
      end
  end.

Definition too_big_inline : ErrorReply := protocol (str "too big inline request").

Definition decode_inline (input : list byte) (limits : Limits) : option FrameStep :=
  match find_crlf_or_lf input with
  | None => Some (if decide (max_inline_len limits < length input) then FsError too_big_inline
                  else FsIncomplete)
  | Some (line_end, consumed) =>
      if decide (max_inline_len limits < line_end) then Some (FsError too_big_inline)
      else r ← split_inline (take line_end input);
           Some match r with
                | inl [] => FsSkip consumed
                | inl args => FsRequest args consumed
                | inr e => FsError e
                end
  end.

Definition bad_attr_len : ErrorReply := protocol (str "invalid attribute length").

(** The skip loop over [n] bulk strings, whose trailing CRLF is not read. *)
Fixpoint skip_bulks (n : nat) (input : list byte) (limits : Limits) (pos : nat) : FrameStep :=
  match n with
  | O => FsSkip pos
  | S n =>
      match bulk_header input limits pos (λ _, protocol (str "invalid attribute element")) with
      | inr s => s
      | inl (data_start, blen) => skip_bulks n input limits (data_start + Z.to_nat blen + 2)
      end
  end.

(** [pairs * 2] is an [i64] product: it panics on overflow. *)
Definition decode_and_skip_attribute (input : list byte) (limits : Limits) : option FrameStep :=
  match find_crlf input 1 with
  | None => Some FsIncomplete
  | Some crlf =>
      match parse_i64 (slice 1 crlf input) with
      | None => Some (FsError bad_attr_len)
      | Some pairs =>
          if decide (pairs < 0)%Z then Some (FsError bad_attr_len)
          else if decide (max_multibulk limits < pairs)%Z then Some (FsError bad_attr_len)
          else n ← checked_i64 (pairs * 2);
               Some (skip_bulks (Z.to_nat n) input limits (crlf + 2))
      end
  end.

(** ** The frame loop *)

Definition decode_frame (rest : list byte) (limits : Limits) (make_arg : nat → nat → list byte)
    : option FrameStep :=
  match rest with
  | [] => Some FsIncomplete
  | b :: _ =>
      if decide (b = "*"%byte) then Some (decode_multibulk rest limits make_arg)
      else if decide (b = "|"%byte) then decode_and_skip_attribute rest limits
      else decode_inline rest limits
  end.

Fixpoint decode_loop (fuel : nat) (input : list byte) (limits : Limits)
    (make_arg : nat → nat → list byte) (cursor : nat) : option DecodeOutcome :=
  match fuel with
  | O => None
  | S fuel =>
      if decide (length input < cursor) then None else
      step ← decode_frame (drop cursor input) limits (λ s e, make_arg (cursor + s) (cursor + e));
      match step with
      | FsRequest request consumed => Some (Complete request (cursor + consumed))
      | FsSkip consumed => decode_loop fuel input limits make_arg (cursor + consumed)
      | FsIncomplete => Some Incomplete
      | FsError e => Some (DecodeError e)
      end
  end.

Definition decode_core (input : list byte) (limits : Limits) (make_arg : nat → nat → list byte)
    : option DecodeOutcome :=
  decode_loop (S (length input)) input limits make_arg 0.

Definition decode (input : list byte) (limits : Limits) : option DecodeOutcome :=
  decode_core input limits (λ s e, slice s e input).

(** [Bytes::slice] of the shared read buffer is the argument [shared_slice]. *)
Definition decode_shared (shared_slice : list byte → nat → nat → list byte) (base : list byte)
    (limits : Limits) : option DecodeOutcome :=
  decode_core base limits (shared_slice base).

End decode.
