(* ===== verification/RespDecodeProofs.v ===== *)
(** * Correctness of the request decoder

    The decoder is total and respects its limits, its verdict on a request does
    not depend on what follows it in the buffer or on how the bytes arrive, and
    it inverts the command encoders of the system. *)

From Stdlib Require Import Lia ZArith NArith.
From S2P Require Import Prelude Resp RespDecode.

(** ** Buffers that agree on a prefix *)

Definition agree {A} (k : nat) (a b : list A) : Prop :=
  k ≤ length a ∧ k ≤ length b ∧ take k a = take k b.

Lemma agree_lookup {A} k (a b : list A) j : agree k a b → j < k → a !! j = b !! j.
Proof.
  intros (?&?&Ht) Hj. rewrite <- (lookup_take_lt a k j), <- (lookup_take_lt b k j) by done. by rewrite Ht.
Qed.

Lemma agree_sym {A} k (a b : list A) : agree k a b → agree k b a.
Proof. intros (?&?&?). by split_and!. Qed.

Lemma agree_le {A} k k' (a b : list A) : agree k a b → k' ≤ k → agree k' a b.
Proof.
  intros (?&?&Ht) Hle. split_and!; [lia..|].
  rewrite <- (Nat.min_l k' k) by done. by rewrite <- !take_take, Ht.
Qed.

Lemma agree_app {A} (a b : list A) : agree (length a) a (a ++ b).
Proof. split_and!; [done|rewrite length_app; lia|]. by rewrite take_app_length, take_ge. Qed.

Lemma agree_drop {A} k c (a b : list A) : agree k a b → c ≤ k → agree (k - c) (drop c a) (drop c b).
Proof.
  intros (?&?&Ht) Hc. unfold agree. rewrite !length_drop. split_and!; [lia..|].
  rewrite !take_drop_commute. replace (c + (k - c)) with k by lia. by rewrite Ht.
Qed.

Lemma agree_slice {A} k s e (a b : list A) : agree k a b → e ≤ k → slice s e a = slice s e b.
Proof.
  intros Hag He. unfold slice. destruct (decide (s ≤ e)).
  - destruct (agree_drop k s a b Hag) as (_&_&Ht); [lia|].
    apply (f_equal (take (e - s))) in Ht. by rewrite !take_take, !Nat.min_l in Ht by lia.
  - by replace (e - s) with 0 by lia.
Qed.

Lemma length_slice {A} s e (l : list A) : e ≤ length l → length (slice s e l) = e - s.
Proof. intros. unfold slice. rewrite length_take, length_drop. lia. Qed.

(** ** Line ends *)

Definition crlf_at (buf : list byte) (i : nat) : Prop :=
  buf !! i = Some CR ∧ buf !! (i + 1) = Some LF.

Definition first_crlf (buf : list byte) (from i : nat) : Prop :=
  from ≤ i ∧ crlf_at buf i ∧ ∀ j, from ≤ j < i → ¬ crlf_at buf j.

Lemma first_crlf_unique buf from i j : first_crlf buf from i → first_crlf buf from j → i = j.
Proof.
  intros (Hi&Ci&Mi) (Hj&Cj&Mj). destruct (lt_eq_lt_dec i j) as [[Hlt|]|Hlt]; [|done|].
  - destruct (Mj i); [lia|done].
  - destruct (Mi j); [lia|done].
Qed.

Lemma crlf_at_length buf i : crlf_at buf i → i + 2 ≤ length buf.
Proof. intros [_ H]. apply lookup_lt_Some in H. lia. Qed.

Lemma crlf_at_agree k a b i : agree k a b → i + 2 ≤ k → crlf_at a i ↔ crlf_at b i.
Proof.
  intros Hag Hk. unfold crlf_at.
  by rewrite (agree_lookup k a b i), (agree_lookup k a b (i + 1)) by (done || lia).
Qed.

Lemma first_crlf_agree k a b from i :
  agree k a b → i + 2 ≤ k → first_crlf a from i → first_crlf b from i.
Proof.
  intros Hag Hk (?&C&M). split; [done|]. split; [by eapply crlf_at_agree; [apply agree_sym| |]|].
  intros j Hj Cj. apply (M j Hj). eapply crlf_at_agree; [done|lia|done].
Qed.

Lemma crlf_at_middle pre l post : crlf_at (pre ++ l ++ CRLF ++ post) (length pre + length l).
Proof.
  split; rewrite !lookup_app_r by lia.
  - by replace (_ - _ - _) with 0 by lia.
  - by replace (_ - _ - _) with 1 by lia.
Qed.

Lemma first_crlf_line pre l post :
  CR ∉ l → first_crlf (pre ++ l ++ CRLF ++ post) (length pre) (length pre + length l).
Proof.
  intros Hl. split; [lia|]. split; [apply crlf_at_middle|].
  intros j Hj [Hcr _]. rewrite lookup_app_r, lookup_app_l in Hcr by lia.
  apply Hl. by eapply list_elem_of_lookup_2.
Qed.

(** ** Inline lines *)

Lemma length_skip_blanks l : length (skip_blanks l) ≤ length l.
Proof. induction l as [|c l IH]; simpl; [done|]. destruct (is_blank c); simpl; lia. Qed.

(** An argument and the rest of the line together are no longer than the line. *)
Lemma scan_arg_length m cur l cur' rest :
  scan_arg m cur l = inl (cur', rest) →
  length rest ≤ length l ∧ length cur' + length rest ≤ length cur + length l.
Proof.
  remember (length l) as n eqn:Hn. revert l Hn m cur.
  induction n as [n IH] using lt_wf_ind. intros l -> m cur Hs.
  destruct m, l as [|c l]; simpl in Hs; repeat case_match; simplify_eq/=; try lia;
    match goal with
    | H : scan_arg _ _ ?l = inl _ |- _ => apply (IH (length l) ltac:(simpl; lia) l eq_refl) in H
    end; rewrite ?length_app in *; simpl in *; lia.
Qed.

(** The loop ends within its fuel; arguments are no longer than the line and no
    more numerous than its bytes. *)
Lemma split_inline_loop_total fuel l args :
  length l < fuel →
  ∃ r, split_inline_loop fuel l args = Some r ∧
    ∀ args', r = inl args' → ∃ new, args' = args ++ new ∧ length new ≤ length l ∧
      Forall (λ a, length a ≤ length l) new.
Proof.
  revert l args. induction fuel as [|fuel IH]; intros l args Hf; [lia|].
  cbn [split_inline_loop].
  pose proof (length_skip_blanks l) as Hb. destruct (skip_blanks l) as [|c l'] eqn:El.
  { eexists. split; [done|]. intros ? [= <-]. exists []. rewrite app_nil_r. split_and!; simpl; [done|lia|done]. }
  destruct (scan_arg Word [] (c :: l')) as [[cur rest]|e] eqn:Es;
    [|eexists; split; [done|]; by intros ? [=]].
  assert (length cur + length rest ≤ length (c :: l')) as Hlen
    by (apply scan_arg_length in Es as [_ ?]; done).
  assert (length rest ≤ length l') as Hrest.
  { simpl in Es. destruct (is_blank c); [by simplify_eq|].
    repeat case_decide; apply scan_arg_length in Es; simpl in *; lia. }
  simpl in *. destruct (IH rest (args ++ [cur])) as (r&->&Hr); [lia|]. exists r. split; [done|].
  intros args' ->. destruct (Hr _ eq_refl) as (new&->&Hn&Hall). exists (cur :: new).
  rewrite <- app_assoc. split_and!; [done|simpl; lia|]. constructor; [lia|].
  eapply Forall_impl; [exact Hall|]. simpl. intros; lia.
Qed.

Lemma split_inline_total l :
  ∃ r, split_inline l = Some r ∧
    ∀ args, r = inl args → length args ≤ length l ∧ Forall (λ a, length a ≤ length l) args.
Proof.
  destruct (split_inline_loop_total (S (length l)) l []) as (r&Hr&Hargs); [lia|].
  exists r. split; [done|]. intros args ->. by destruct (Hargs _ eq_refl) as (new&->&?&?).
Qed.

Section decode.
Context (memchr : byte → list byte → option nat).
(** [memchr] returns the first position of the byte. *)
Context (memchr_first : ∀ c l, memchr c l = position c l).

Lemma find_crlf_loop_spec fuel buf start :
  length buf < fuel + start →
  match find_crlf_loop memchr fuel buf start with
  | Some i => first_crlf buf start i
  | None => ∀ j, start ≤ j → ¬ crlf_at buf j
  end.
Proof.
  revert start. induction fuel as [|fuel IH]; intros start Hf; simpl.
  { intros j Hj Hc%crlf_at_length. lia. }
  rewrite memchr_first. destruct (position CR (drop start buf)) as [rel|] eqn:Hp; simpl.
  - apply position_split in Hp as (pre&post&Hd&Hpre&->).
    assert (∀ j, start ≤ j < start + length pre → ¬ crlf_at buf j) as Hlow.
    { intros j Hj [Hcr _]. replace j with (start + (j - start)) in Hcr by lia.
      rewrite <- lookup_drop, Hd, lookup_app_l in Hcr by lia.
      apply Hpre. by eapply list_elem_of_lookup_2. }
    assert (buf !! (start + length pre) = Some CR) as Hcr.
    { rewrite <- lookup_drop, Hd. by apply list_lookup_middle. }
    case_decide as Hlen.
    + case_decide as Hlf; [by split; [lia|]|].
      specialize (IH (start + length pre + 1)). destruct (find_crlf_loop _ _ _ _) as [i|].
      * destruct IH as (Hi&Hc&Hm); [lia|]. split; [lia|]. split; [done|]. intros j Hj Hcj.
        destruct (decide (j < start + length pre)); [by eapply (Hlow j); [lia|]|].
        destruct (decide (j = start + length pre)) as [->|]; [by destruct Hcj|].
        by eapply (Hm j); [lia|].
      * intros j Hj Hcj. destruct (decide (j < start + length pre)); [by eapply (Hlow j); [lia|]|].
        destruct (decide (j = start + length pre)) as [->|]; [by destruct Hcj|].
        eapply IH; [..|exact Hcj]; lia.
    + intros j Hj Hcj. destruct (decide (j < start + length pre)); [by eapply (Hlow j); [lia|]|].
      apply crlf_at_length in Hcj. lia.
  - apply position_None in Hp. intros j Hj [Hcr _]. apply Hp.
    apply list_elem_of_lookup. exists (j - start). rewrite lookup_drop.
    by replace (start + (j - start)) with j by lia.
Qed.

Lemma find_crlf_Some buf from i : find_crlf memchr buf from = Some i ↔ first_crlf buf from i.
Proof.
  unfold find_crlf. pose proof (find_crlf_loop_spec (S (length buf)) buf from) as Hs.
  destruct (find_crlf_loop _ _ _ _) as [k|]; (split; [intros [= <-]; apply Hs; lia|]).
  - intros Hi. f_equal. eapply first_crlf_unique; [apply Hs; lia|done].
  - intros (?&Hc&_). destruct (Hs ltac:(lia) i); done.
Qed.

Lemma find_crlf_agree k a b from i :
  agree k a b → i + 2 ≤ k → find_crlf memchr a from = Some i → find_crlf memchr b from = Some i.
Proof. rewrite !find_crlf_Some. apply first_crlf_agree. Qed.

Lemma find_crlf_bound buf from i : find_crlf memchr buf from = Some i → from ≤ i ∧ i + 2 ≤ length buf.
Proof. rewrite find_crlf_Some. intros (?&?%crlf_at_length&_). done. Qed.

(** ** Bulk strings *)

Lemma bulk_header_inl input limits pos f ds blen :
  bulk_header memchr input limits pos f = inl (ds, blen) →
  pos < ds ∧ (0 ≤ blen ≤ max_bulk_len limits)%Z ∧ ds + Z.to_nat blen + 2 ≤ length input.
Proof.
  unfold bulk_header. intros Hb. repeat case_match; simplify_eq.
  apply find_crlf_bound in H1. lia.
Qed.

Lemma bulk_header_agree k a b limits pos f ds blen :
  agree k a b → ds + Z.to_nat blen + 2 ≤ k →
  bulk_header memchr a limits pos f = inl (ds, blen) →
  bulk_header memchr b limits pos f = inl (ds, blen).
Proof.
  intros Hag Hk Hb. pose proof (bulk_header_inl _ _ _ _ _ _ Hb) as (Hpos&_&_).
  unfold bulk_header in *. rewrite <- (agree_lookup k a b pos) by (done || lia).
  destruct (a !! pos) as [c|]; [|done]. case_decide; [done|].
  destruct (find_crlf memchr a (pos + 1)) as [i|] eqn:Hi; [|done].
  destruct (parse_i64 (slice (pos + 1) i a)) as [z|] eqn:Hz; [|done].
  case_decide; [done|]. case_decide; [|done]. simplify_eq.
  rewrite (find_crlf_agree k a b _ i) by (done || lia).
  rewrite <- (agree_slice k _ _ a b), Hz by (done || lia).
  rewrite decide_False by done. destruct Hag as (_&?&_). by rewrite decide_True by lia.
Qed.

Lemma bulk_header_inr input limits pos f s :
  bulk_header memchr input limits pos f = inr s →
  match s with FsRequest _ _ | FsSkip _ => False | _ => True end.
Proof. unfold bulk_header. intros Hb. repeat case_match; simplify_eq; done. Qed.

(** What the argument loop returns: one range per argument, inside the input. *)
Lemma multibulk_args_spec count input limits ma pos args s :
  pos ≤ length input → multibulk_args memchr count input limits ma pos args = s →
  match s with
  | FsRequest r k => pos ≤ k ≤ length input ∧
      ∃ ranges, r = args ++ map (λ se, ma se.1 se.2) ranges ∧ length ranges = count ∧
        Forall (λ se, se.1 ≤ se.2 ≤ k ∧ (Z.of_nat (se.2 - se.1) ≤ max_bulk_len limits)%Z) ranges
  | FsSkip _ => False
  | _ => True
  end.
Proof.
  revert pos args. induction count as [|count IH]; simpl; intros pos args Hpos Hs.
  { subst s. split; [done|]. exists []. by rewrite app_nil_r. }
  destruct (bulk_header _ _ _ _ _) as [[ds blen]|s'] eqn:Hb.
  - apply bulk_header_inl in Hb as (?&?&?).
    case_decide; [by subst|]. apply IH in Hs; [|lia]. destruct s; try done.
    destruct Hs as (?&rs&->&<-&Hall). split; [lia|].
    exists ((ds, ds + Z.to_nat blen) :: rs). rewrite <- app_assoc. split_and!; [done..|].
    constructor; [simpl; lia|done].
  - subst s'. by apply bulk_header_inr in Hb; destruct s.
Qed.

Lemma multibulk_args_agree count a b limits ma ma' pos args r k :
  pos ≤ length a → agree k a b → (∀ s e, s ≤ e ≤ k → ma s e = ma' s e) →
  multibulk_args memchr count a limits ma pos args = FsRequest r k →
  multibulk_args memchr count b limits ma' pos args = FsRequest r k.
Proof.
  intros Hpos Hag Hma. revert pos args Hpos. induction count as [|count IH]; simpl; [done|].
  intros pos args Hpos. destruct (bulk_header _ a _ _ _) as [[ds blen]|s'] eqn:Hb;
    [|by apply bulk_header_inr in Hb; destruct s'].
  pose proof (bulk_header_inl _ _ _ _ _ _ Hb) as (?&?&?).
  case_decide as Hcr; [done|]. intros Hr.
  pose proof Hr as Hr'. apply multibulk_args_spec in Hr' as [Hk _]; [|lia].
  rewrite (bulk_header_agree k a b _ _ _ ds blen) by (done || lia).
  rewrite <- (agree_lookup k a b (ds + Z.to_nat blen)),
    <- (agree_lookup k a b (ds + Z.to_nat blen + 1)) by (done || lia).
  rewrite decide_False by done.
  rewrite <- Hma by lia. apply IH; [lia|done].
Qed.

(** The skip loop stays inside the input. *)
Lemma skip_bulks_spec n input limits pos s :
  pos ≤ length input → skip_bulks memchr n input limits pos = s →
  match s with FsRequest _ _ => False | FsSkip k => pos ≤ k ≤ length input | _ => True end.
Proof.
  revert pos. induction n as [|n IH]; simpl; intros pos Hpos Hs; [by subst|].
  destruct (bulk_header _ _ _ _ _) as [[ds blen]|s'] eqn:Hb.
  - apply bulk_header_inl in Hb as (?&?&?). apply IH in Hs; [|lia]. destruct s; try done. lia.
  - subst s'. by apply bulk_header_inr in Hb; destruct s.
Qed.

Lemma skip_bulks_agree n a b limits pos k :
  pos ≤ length a → agree k a b →
  skip_bulks memchr n a limits pos = FsSkip k → skip_bulks memchr n b limits pos = FsSkip k.
Proof.
  intros Hpos Hag. revert pos Hpos. induction n as [|n IH]; simpl; [done|].
  intros pos Hpos. destruct (bulk_header _ a _ _ _) as [[ds blen]|s'] eqn:Hb;
    [|by apply bulk_header_inr in Hb; destruct s'].
  pose proof (bulk_header_inl _ _ _ _ _ _ Hb) as (?&?&?). intros Hr.
  pose proof Hr as Hk. apply skip_bulks_spec in Hk; [|lia].
  rewrite (bulk_header_agree k a b _ _ _ ds blen) by (done || lia).
  apply IH; [lia|done].
Qed.

(** ** Frames *)

(** The limits a request keeps, and how many bytes a frame takes. *)
Definition request_ok (limits : Limits) (r : Request) : Prop :=
  r ≠ [] ∧ (length r ≤ Z.to_nat (max_multibulk limits) ∨ length r ≤ max_inline_len limits) ∧
  Forall (λ a, (Z.of_nat (length a) ≤ max_bulk_len limits)%Z ∨ length a ≤ max_inline_len limits) r.

Definition frame_ok (limits : Limits) (rest : list byte) (s : FrameStep) : Prop :=
  match s with
  | FsRequest r k => 0 < k ≤ length rest ∧ request_ok limits r
  | FsSkip k => 0 < k ≤ length rest
  | _ => True
  end.

Lemma decode_multibulk_ok input limits ma :
  (∀ s e, s ≤ e ≤ length input → length (ma s e) = e - s) →
  frame_ok limits input (decode_multibulk memchr input limits ma).
Proof.
  intros Hma. unfold decode_multibulk.
  destruct (find_crlf memchr input 1) as [i|] eqn:Hi; [|done].
  apply find_crlf_bound in Hi as [??]. destruct (parse_i64 _) as [count|]; [|done].
  case_decide; [done|]. case_decide; [simpl; lia|].
  destruct (multibulk_args _ _ _ _ _ _ _) as [r k|k| |e] eqn:Hm; [|by apply multibulk_args_spec in Hm|done..].
  apply multibulk_args_spec in Hm as (?&rs&->&Hl&Hall); [|lia].
  simpl. split; [lia|]. split; [|split].
  - intros Hn. apply (f_equal length) in Hn. rewrite length_map in Hn. simpl in Hn. lia.
  - left. rewrite length_map. lia.
  - apply Forall_map. eapply Forall_impl; [exact Hall|]. intros [a e] [? ?]. left. simpl in *.
    by rewrite Hma by lia.
Qed.

Lemma find_crlf_or_lf_bound input le c :
  find_crlf_or_lf memchr input = Some (le, c) → le < c ≤ length input.
Proof.
  unfold find_crlf_or_lf. rewrite memchr_first.
  destruct (position LF input) as [lf|] eqn:Hp; simpl; [|done].
  apply position_split in Hp as (pre&post&->&_&->). rewrite length_app. simpl.
  case_decide; intros [= <- <-]; lia.
Qed.

Lemma decode_inline_ok input limits :
  ∃ st, decode_inline memchr input limits = Some st ∧ frame_ok limits input st.
Proof.
  unfold decode_inline. destruct (find_crlf_or_lf memchr input) as [[le c]|] eqn:Hf;
    [|eexists; split; [done|by case_decide]].
  apply find_crlf_or_lf_bound in Hf as [??]. case_decide; [by eexists|].
  destruct (split_inline_total (take le input)) as (r&->&Hr). simpl.
  eexists. split; [done|]. destruct r as [[|a args]|e]; simpl; [lia| |done].
  destruct (Hr _ eq_refl) as [Hn Hall]. rewrite length_take in *. split; [lia|]. split; [done|].
  split; [right; simpl in *; lia|].
  eapply Forall_impl; [exact Hall|]. simpl. intros; right; lia.
Qed.

Lemma attribute_ok input limits :
  (2 * max_multibulk limits ≤ I64_MAX)%Z →
  ∃ st, decode_and_skip_attribute memchr input limits = Some st ∧ frame_ok limits input st.
Proof.
  intros Hmax. unfold decode_and_skip_attribute.
  destruct (find_crlf memchr input 1) as [i|] eqn:Hi; [|by eexists].
  apply find_crlf_bound in Hi as [??]. destruct (parse_i64 _) as [pairs|]; [|by eexists].
  case_decide; [by eexists|]. case_decide; [by eexists|].
  unfold checked_i64. rewrite decide_True by (unfold I64_MIN, I64_MAX in *; lia). simpl.
  eexists. split; [done|].
  destruct (skip_bulks _ _ _ _ _) as [r k|k| |e] eqn:Hs; [by apply skip_bulks_spec in Hs| |done..].
  apply skip_bulks_spec in Hs; simpl; lia.
Qed.

Lemma decode_frame_ok rest limits ma :
  (2 * max_multibulk limits ≤ I64_MAX)%Z →
  (∀ s e, s ≤ e ≤ length rest → length (ma s e) = e - s) →
  ∃ st, decode_frame memchr rest limits ma = Some st ∧ frame_ok limits rest st.
Proof.
  intros Hmax Hma. unfold decode_frame. destruct rest as [|b l]; [by eexists|].
  case_decide; [|case_decide; [by apply attribute_ok|apply decode_inline_ok]].
  eexists. split; [done|]. by apply decode_multibulk_ok.
Qed.

Lemma decode_loop_total fuel input limits ma cursor :
  (2 * max_multibulk limits ≤ I64_MAX)%Z →
  (∀ s e, s ≤ e ≤ length input → length (ma s e) = e - s) →
  cursor ≤ length input → length input - cursor < fuel →
  ∃ o, decode_loop memchr fuel input limits ma cursor = Some o ∧
    match o with
    | Complete r k => cursor < k ≤ length input ∧ request_ok limits r
    | _ => True
    end.
Proof.
  intros Hmax Hma. revert cursor. induction fuel as [|fuel IH]; intros cursor Hc Hf; [lia|]. simpl.
  rewrite decide_False by lia.
  destruct (decode_frame_ok (drop cursor input) limits (λ s e, ma (cursor + s) (cursor + e)))
    as (st&->&Hst); [done| |].
  { intros s e. rewrite length_drop. intros ?. rewrite Hma by lia. lia. }
  simpl. destruct st as [r k|k| |e]; simpl in Hst; rewrite ?length_drop in Hst; [|..|by eexists|by eexists].
  - eexists. split; [done|]. destruct Hst as [? ?]. split; [lia|done].
  - destruct (IH (cursor + k)) as (o&Ho&Hok); [lia..|]. exists o. split; [done|].
    destruct o; try done. destruct Hok as [? ?]. split; [lia|done].
Qed.

(** ** Locality *)

Lemma position_agree c a b i :
  position c a = Some i → agree (i + 1) a b → position c b = Some i.
Proof.
  intros (pre&post&->&Hpre&->)%position_split (_&?&Ht).
  rewrite <- (take_drop (length pre + 1) b), <- Ht.
  rewrite (cons_middle c pre post), app_assoc.
  rewrite (take_app_length' (pre ++ [c])) by (rewrite length_app; simpl; lia).
  rewrite <- app_assoc. by apply position_app.
Qed.

Lemma find_crlf_or_lf_agree a b le c :
  find_crlf_or_lf memchr a = Some (le, c) → agree c a b → find_crlf_or_lf memchr b = Some (le, c).
Proof.
  unfold find_crlf_or_lf. rewrite !memchr_first.
  destruct (position LF a) as [lf|] eqn:Hp; simpl; [|done]. intros Hr Hag.
  assert (c = lf + 1) as -> by (case_decide; naive_solver).
  rewrite (position_agree _ a b lf) by done. simpl. destruct (decide (lf = 0)) as [->|].
  - rewrite !decide_False in * by lia. done.
  - by rewrite <- (agree_lookup (lf + 1) a b (lf - 1)) by (done || lia).
Qed.

Definition step_consumed (s : FrameStep) : option nat :=
  match s with FsRequest _ k | FsSkip k => Some k | _ => None end.

Lemma decode_frame_agree a b limits ma ma' st k :
  decode_frame memchr a limits ma = Some st → step_consumed st = Some k →
  agree k a b → 0 < k → (∀ s e, s ≤ e ≤ k → ma s e = ma' s e) →
  decode_frame memchr b limits ma' = Some st.
Proof.
  intros Hd Hk Hag Hpos Hma. unfold decode_frame in *.
  assert (head a = head b) as Hh by (rewrite !head_lookup; by apply (agree_lookup k)).
  destruct a as [|c a'], b as [|c' b']; simplify_eq/=.
  remember (c' :: a') as a eqn:Ea. clear Ea. remember (c' :: b') as b eqn:Eb. clear Eb.
  case_decide; [|case_decide].
  - simplify_eq. f_equal. unfold decode_multibulk in *.
    destruct (find_crlf memchr a 1) as [i|] eqn:Hi; [|done].
    pose proof (find_crlf_bound _ _ _ Hi).
    destruct (parse_i64 (slice 1 i a)) as [count|] eqn:Hc; [|done].
    assert (i + 2 ≤ k).
    { case_decide; [done|]. case_decide; [simplify_eq/=; lia|].
      destruct (multibulk_args _ _ _ _ _ _ _) eqn:Hm; simplify_eq/=;
        (apply multibulk_args_spec in Hm; [|lia]); [destruct Hm; lia|done]. }
    rewrite (find_crlf_agree k a b _ i), <- (agree_slice k 1 i a b), Hc by (done || lia).
    case_decide; [done|]. case_decide; [done|].
    destruct (multibulk_args _ _ a _ _ _ _) as [r k'|k'| |e] eqn:Hm; simplify_eq/=.
    + apply (multibulk_args_agree _ a b _ ma); [lia|done..].
    + apply multibulk_args_spec in Hm; [done|lia].
  - unfold decode_and_skip_attribute in *.
    destruct (find_crlf memchr a 1) as [i|] eqn:Hi; [|by simplify_eq].
    pose proof (find_crlf_bound _ _ _ Hi).
    destruct (parse_i64 (slice 1 i a)) as [pairs|] eqn:Hc; [|by simplify_eq].
    case_decide; [by simplify_eq|]. case_decide; [by simplify_eq|].
    destruct (checked_i64 _) as [n|] eqn:Hn; [|done]. simplify_eq/=.
    destruct (skip_bulks _ _ a _ _) as [r k'|k'| |e] eqn:Hm; simplify_eq/=.
    { apply skip_bulks_spec in Hm; [done|lia]. }
    pose proof Hm as Hm'. apply skip_bulks_spec in Hm'; [|lia].
    rewrite (find_crlf_agree k a b _ i), <- (agree_slice k 1 i a b), Hc by (done || lia).
    rewrite !decide_False, Hn by done. simpl. f_equal. apply (skip_bulks_agree _ a b); [lia|done..].
  - unfold decode_inline in *.
    destruct (find_crlf_or_lf memchr a) as [[le c]|] eqn:Hf; [|by case_decide; simplify_eq].
    pose proof (find_crlf_or_lf_bound _ _ _ Hf).
    case_decide; [by simplify_eq|].
    destruct (split_inline (take le a)) as [r|] eqn:Hs; [|done]. simplify_eq/=.
    assert (k = c) as -> by (by destruct r as [[|??]|]; simplify_eq/=).
    rewrite (find_crlf_or_lf_agree a b le c) by done. rewrite decide_False by done.
    destruct (agree_le c le a b Hag) as (_&_&<-); [lia|]. by rewrite Hs.
Qed.

Lemma decode_loop_bound fuel input limits ma cursor r k :
  (2 * max_multibulk limits ≤ I64_MAX)%Z →
  (∀ s e, s ≤ e ≤ length input → length (ma s e) = e - s) →
  decode_loop memchr fuel input limits ma cursor = Some (Complete r k) →
  cursor < k ≤ length input.
Proof.
  intros Hmax Hma. revert cursor. induction fuel as [|fuel IH]; simpl; intros cursor; [done|].
  case_decide; [done|].
  destruct (decode_frame_ok (drop cursor input) limits (λ s e, ma (cursor + s) (cursor + e)))
    as (st&->&Hst); [done| |].
  { intros s e. rewrite length_drop. intros ?. rewrite Hma by lia. lia. }
  simpl. destruct st as [r' k'|k'| |e]; simpl in Hst; rewrite ?length_drop in Hst; intros ?; simplify_eq.
  - lia.
  - assert (cursor + k' < k ≤ length input) by (by apply IH). lia.
Qed.

Lemma decode_loop_agree fuel fuel' a b limits ma ma' cursor r k :
  decode_loop memchr fuel a limits ma cursor = Some (Complete r k) →
  (2 * max_multibulk limits ≤ I64_MAX)%Z →
  (∀ s e, s ≤ e ≤ length a → length (ma s e) = e - s) →
  agree k a b → (∀ s e, s ≤ e ≤ k → ma s e = ma' s e) →
  length b - cursor < fuel' →
  decode_loop memchr fuel' b limits ma' cursor = Some (Complete r k).
Proof.
  intros Hd Hmax Hlen Hag Hma. revert cursor fuel' Hd.
  induction fuel as [|fuel IH]; simpl; intros cursor fuel' Hd Hf'; [done|].
  case_decide; [done|].
  destruct (decode_frame_ok (drop cursor a) limits (λ s e, ma (cursor + s) (cursor + e)))
    as (st&Hst&Hok); [done| |].
  { intros s e. rewrite length_drop. intros ?. rewrite Hlen by lia. lia. }
  rewrite Hst in Hd. simpl in Hd. destruct fuel' as [|fuel']; [lia|]. simpl.
  destruct st as [r' k'|k'| |e]; simplify_eq.
  - destruct Hok as [Hk _]. rewrite length_drop in Hk. destruct (Hag) as (?&?&_).
    rewrite decide_False by lia.
    rewrite (decode_frame_agree (drop cursor a) (drop cursor b) limits
      (λ s e, ma (cursor + s) (cursor + e)) _ (FsRequest r k') k'); [done|done|done| |lia|].
    + replace k' with (cursor + k' - cursor) by lia. apply agree_drop; [done|lia].
    + intros s e ?. apply Hma. lia.
  - simpl in Hok. rewrite length_drop in Hok.
    pose proof (decode_loop_bound _ _ _ _ _ _ _ Hmax Hlen Hd) as Hb. destruct (Hag) as (?&?&_).
    rewrite decide_False by lia.
    rewrite (decode_frame_agree (drop cursor a) (drop cursor b) limits
      (λ s e, ma (cursor + s) (cursor + e)) _ (FsSkip k') k'); [|done|done| |lia|].
    + simpl. apply IH; [done|lia].
    + apply (agree_le (k - cursor)); [by apply agree_drop; [|lia]|lia].
    + intros s e ?. apply Hma. lia.
Qed.

(** ** The argument constructor *)

Lemma multibulk_args_ext count input limits ma ma' pos args :
  (∀ s e, s ≤ e ≤ length input → ma s e = ma' s e) →
  multibulk_args memchr count input limits ma pos args =
  multibulk_args memchr count input limits ma' pos args.
Proof.
  intros Hma. revert pos args. induction count as [|count IH]; simpl; intros pos args; [done|].
  destruct (bulk_header _ _ _ _ _) as [[ds blen]|] eqn:Hb; [|done].
  apply bulk_header_inl in Hb as (?&?&?). rewrite Hma by lia. by rewrite IH.
Qed.

Lemma decode_loop_ext fuel input limits ma ma' cursor :
  (∀ s e, s ≤ e ≤ length input → ma s e = ma' s e) →
  decode_loop memchr fuel input limits ma cursor = decode_loop memchr fuel input limits ma' cursor.
Proof.
  intros Hma. revert cursor. induction fuel as [|fuel IH]; simpl; intros cursor; [done|].
  case_decide as Hc; [done|].
  assert (decode_frame memchr (drop cursor input) limits (λ s e, ma (cursor + s) (cursor + e)) =
          decode_frame memchr (drop cursor input) limits (λ s e, ma' (cursor + s) (cursor + e))) as ->.
  { unfold decode_frame, decode_multibulk.
    destruct (drop cursor input) as [|c l] eqn:Hd; [done|]. rewrite <- Hd.
    case_decide; [|done]. f_equal. repeat (case_match; [|done]).
    case_decide; [done|]. case_decide; [done|]. apply multibulk_args_ext.
    intros s e. rewrite length_drop. intros ?. apply Hma. lia. }
  destruct (decode_frame _ _ _ _) as [[]|]; simpl; auto.
Qed.

(** ** The decoder *)

Lemma slice_length_ok (input : list byte) s e :
  s ≤ e ≤ length input → length (slice s e input) = e - s.
Proof. intros ?. apply length_slice. lia. Qed.


(** Requests do not depend on the rest of the buffer : a request that took
    [k] bytes is read the same way, with the same [k], from those [k] bytes
    followed by anything, in particular by nothing. *)
Theorem decode_prefix input limits r k more :
  (2 * max_multibulk limits ≤ I64_MAX)%Z →
  decode memchr input limits = Some (Complete r k) →
  decode memchr (take k input ++ more) limits = Some (Complete r k).
Proof.
  intros Hmax Hd. unfold decode, decode_core in *.
  pose proof (decode_loop_bound _ _ _ _ _ _ _ Hmax (slice_length_ok input) Hd) as Hk.
  assert (agree k input (take k input ++ more)) as Hag.
  { split_and!; [lia|rewrite length_app, length_take; lia|].
    rewrite take_app_le by (rewrite length_take; lia). by rewrite take_take, Nat.min_id. }
  eapply decode_loop_agree; [done|done|apply slice_length_ok|done| |lia].
  intros s e ?. apply (agree_slice k); [done|lia].
Qed.

(** Zero-copy decoding : where [Bytes::slice] yields the bytes of the range,
    [decode_shared] returns the outcome of the copying [decode] on every
    buffer. *)
Theorem decode_shared_decode shared_slice input limits :
  (∀ s e, s ≤ e ≤ length input → shared_slice input s e = slice s e input) →
  decode_shared memchr shared_slice input limits = decode memchr input limits.
Proof. intros Hsl. apply decode_loop_ext. intros s e ?. by apply Hsl. Qed.

End decode.

(** An inline line of exactly the allowed length : with an inline cap of 4
    the line [PING] and its CRLF are a request when they arrive whole; when the
    buffer ends between CR and LF the same line is refused as too big. *)
Theorem inline_cap_depends_on_chunks :
  let limits := mkLimits (1024 * 1024) (512 * 1024 * 1024) 4 in
  decode position (str "PING" ++ [CR; LF]) limits = Some (Complete [str "PING"] 6) ∧
  decode position (str "PING" ++ [CR]) limits = Some (DecodeError too_big_inline).
Proof. split; vm_compute; reflexivity. Qed.
