(* ===== verification/RespReply.v ===== *)
(** * Clients of the wire format (crates/ironcache-clusterbus/src/lib.rs:
    encode_command, parse_reply; crates/ironcache-console/src/resp.rs)

    The cluster bus sends commands as arrays of bulk strings, which the server's
    decoder must read back; the console reads the server's RESP2 replies. *)

From Stdlib Require Import Lia ZArith NArith.
From S2P Require Import Prelude Resp RespDecode.

(** ** Commands of the cluster bus *)

(** [format!] of a [usize]. *)
Definition display_usize (n : nat) : list byte :=
  if decide (n = 0) then ["0"%byte] else itoa_loop 20 (N.of_nat n) [].

Definition encode_bulk_arg (a : list byte) : list byte :=
  "$"%byte :: display_usize (length a) ++ CRLF ++ a ++ CRLF.

#[global] Arguments encode_bulk_arg : simpl never.
#[global] Arguments display_usize : simpl never.

Definition encode_command (args : list (list byte)) : list byte :=
  "*"%byte :: display_usize (length args) ++ CRLF ++ concat (map encode_bulk_arg args).

(** ** Replies read by the console *)

Inductive RespValue :=
  | RvSimple (body : list byte)
  | RvError (body : list byte)
  | RvInteger (n : Z)
  | RvBulk (body : option (list byte))
  | RvArray (items : list RespValue).

Definition MAX_DEPTH : nat := 32.
Definition MAX_ELEMENTS : Z := 1048576.
Definition MAX_BULK : Z := 8388608.

(** [Err(Protocol m)], [Ok(None)] and [Ok(Some(v))] with the cursor after it. *)
Inductive Parsed :=
  | PErr (m : list byte)
  | PMore
  | PDone (v : RespValue) (pos : nat).

Fixpoint scan_crlf (fuel : nat) (buf : list byte) (i : nat) : option nat :=
  match fuel with
  | O => None
  | S fuel =>
      if decide (i + 1 < length buf) then
        if decide (buf !! i = Some CR ∧ buf !! (i + 1) = Some LF) then Some i
        else scan_crlf fuel buf (i + 1)
      else None
  end.

Definition console_find_crlf (buf : list byte) (from : nat) : option nat :=
  scan_crlf (S (length buf)) buf from.

Definition parse_line (buf : list byte) (pos : nat) (tag : byte) : Parsed :=
  match console_find_crlf buf (pos + 1) with
  | None => PMore
  | Some cr =>
      let l := slice (pos + 1) cr buf in
      if decide (tag = "+"%byte) then PDone (RvSimple l) (cr + 2)
      else if decide (tag = "-"%byte) then PDone (RvError l) (cr + 2)
      else match str_parse I64_MIN I64_MAX l with
           | Some n => PDone (RvInteger n) (cr + 2)
           | None => PErr (str "invalid integer reply")
           end
  end.

Definition parse_bulk (buf : list byte) (pos : nat) : Parsed :=
  match console_find_crlf buf (pos + 1) with
  | None => PMore
  | Some cr =>
      match str_parse I64_MIN I64_MAX (slice (pos + 1) cr buf) with
      | None => PErr (str "invalid bulk length")
      | Some len =>
          let body_start := cr + 2 in
          if decide (len < 0)%Z then PDone (RvBulk None) body_start
          else if decide (MAX_BULK < len)%Z then PErr (str "bulk length too large")
          else let body_end := body_start + Z.to_nat len in
               if decide (length buf < body_end + 2) then PMore
               else PDone (RvBulk (Some (slice body_start body_end buf))) (body_end + 2)
      end
  end.

(** The element loop of an array, with [parse] for one element. *)
Fixpoint parse_items (parse : nat → Parsed) (count : nat) (local : nat) (items : list RespValue)
    : Parsed :=
  match count with
  | O => PDone (RvArray items) local
  | S count =>
      match parse local with
      | PDone v local' => parse_items parse count local' (items ++ [v])
      | other => other
      end
  end.

(** An array frame, with [parse] for one element, a level deeper. *)
Definition parse_array (parse : nat → Parsed) (buf : list byte) (pos : nat) : Parsed :=
  match console_find_crlf buf (pos + 1) with
  | None => PMore
  | Some cr =>
      match str_parse I64_MIN I64_MAX (slice (pos + 1) cr buf) with
      | None => PErr (str "invalid array count")
      | Some count =>
          if decide (count < 0)%Z then PDone (RvArray []) (cr + 2)
          else if decide (MAX_ELEMENTS < count)%Z then PErr (str "array too large")
          else parse_items parse (Z.to_nat count) (cr + 2) []
      end
  end.

(** [levels] is [MAX_DEPTH + 1 - depth]: the code refuses a value deeper than
    [MAX_DEPTH]. *)
Fixpoint parse_at (levels : nat) (buf : list byte) (pos : nat) : Parsed :=
  match levels with
  | O => PErr (str "reply nesting too deep")
  | S levels =>
      match buf !! pos with
      | None => PMore
      | Some tag =>
          if decide (tag = "+"%byte ∨ tag = "-"%byte ∨ tag = ":"%byte) then parse_line buf pos tag
          else if decide (tag = "$"%byte) then parse_bulk buf pos
          else if decide (tag = "*"%byte) then parse_array (parse_at levels buf) buf pos
          else PErr (str "unknown RESP leading byte")
      end
  end.

Definition parse_reply (buf : list byte) : Parsed := parse_at (S MAX_DEPTH) buf 0.
