(* ===== verification/RespReplyProofs.v ===== *)
(** * Round trips between the server and its clients

    Commands of the cluster bus are read back by the server's decoder, quoted
    inline lines by the inline splitter, and RESP2 replies by the console. *)

From Stdlib Require Import Lia ZArith NArith.
From Stdlib Require Import SpecFloat.
From S2P Require Import Prelude Resp RespDecode RespDecodeProofs RespReply.

(** Arithmetic over the lengths of concatenations. *)
Ltac len := repeat (rewrite ?length_app; progress simpl); rewrite ?length_app; lia.

(** ** Numbers on the wire *)

Lemma display_usize_i64 n : display_usize n = i64_to_str (Z.of_nat n).
Proof.
  unfold display_usize, i64_to_str. destruct (decide (n = 0)) as [->|]; [done|].
  rewrite !decide_False by lia. by replace (Z.abs_N (Z.of_nat n)) with (N.of_nat n) by lia.
Qed.

Lemma parse_digits_value acc ds v :
  (0 ≤ acc)%Z → digits_value acc ds = Some v → (v ≤ I64_MAX)%Z → parse_digits acc ds = Some v.
Proof.
  assert (∀ ds acc v, (0 ≤ acc)%Z → digits_value acc ds = Some v → (acc ≤ v)%Z) as Hmono.
  { clear. induction ds as [|d ds IH]; simpl; intros acc v Ha Hv; [by simplify_eq|].
    destruct (is_digit d) eqn:Hd; [|done]. apply andb_prop in Hd as [?%N.leb_le _].
    apply IH in Hv; lia. }
  revert acc v. induction ds as [|d ds IH]; simpl; intros acc v Ha Hv Hmax; [done|].
  destruct (is_digit d) eqn:Hd; [|done].
  assert (48 ≤ Z.of_N (Byte.to_N d))%Z by (apply andb_prop in Hd as [?%N.leb_le _]; lia).
  pose proof Hv as Hge. apply Hmono in Hge; [|lia]. unfold checked_i64.
  rewrite decide_True by (unfold I64_MIN; lia). simpl.
  rewrite decide_True by (unfold I64_MIN; lia). simpl. apply IH; [lia|done..].
Qed.

Lemma parse_i64_to_str n : (I64_MIN < n ≤ I64_MAX)%Z → parse_i64 (i64_to_str n) = Some n.
Proof.
  intros Hn. destruct (i64_to_str_text n) as (ds&->&Hne&Hd&Hv); [lia|].
  assert (Z.abs n ≤ I64_MAX)%Z by (unfold I64_MIN, I64_MAX in *; lia).
  unfold parse_i64. destruct (decide (n < 0)%Z).
  - rewrite decide_True by done. destruct ds as [|d ds]; [done|].
    rewrite (parse_digits_value 0 _ _ ltac:(lia) Hv) by done. simpl. f_equal. lia.
  - destruct ds as [|d ds]; [done|]. inversion Hd; subst.
    rewrite !decide_False by (by apply digit_not).
    rewrite (parse_digits_value 0 _ _ ltac:(lia) Hv) by done. simpl. f_equal. lia.
Qed.

Lemma usize_i64 n : (Z.of_nat n ≤ I64_MAX)%Z → (I64_MIN < Z.of_nat n ≤ I64_MAX)%Z.
Proof. unfold I64_MIN, I64_MAX. lia. Qed.

Lemma display_no_CR n : (Z.of_nat n ≤ I64_MAX)%Z → CR ∉ display_usize n.
Proof.
  intros. rewrite display_usize_i64. apply i64_to_str_no_CR. unfold I64_MIN in *. lia.
Qed.

Lemma parse_display n : (Z.of_nat n ≤ I64_MAX)%Z → parse_i64 (display_usize n) = Some (Z.of_nat n).
Proof. intros. rewrite display_usize_i64. by apply parse_i64_to_str, usize_i64. Qed.

(** ** Buffers cut at a known place *)

Lemma slice_middle {A} (pre l post : list A) :
  slice (length pre) (length pre + length l) (pre ++ l ++ post) = l.
Proof.
  unfold slice. rewrite drop_app_length.
  replace (length pre + length l - length pre) with (length l) by lia. by rewrite take_app_length.
Qed.

Lemma lookup_at {A} (pre : list A) c l : (pre ++ c :: l) !! length pre = Some c.
Proof. by apply list_lookup_middle. Qed.

(** The line after a marker at the end of [pre]. *)
Lemma marked_line (pre : list byte) m l post :
  CR ∉ l →
  first_crlf (pre ++ (m :: l ++ CRLF ++ post)) (length pre + 1) (length pre + 1 + length l) ∧
  slice (length pre + 1) (length pre + 1 + length l) (pre ++ (m :: l ++ CRLF ++ post)) = l.
Proof.
  intros Hl. rewrite (cons_middle m pre), app_assoc.
  replace (length pre + 1) with (length (pre ++ [m])) by (rewrite length_app; simpl; lia).
  split; [by apply first_crlf_line|apply slice_middle].
Qed.

Lemma app_cons_middle {A} (pre : list A) c l post : pre ++ (c :: l) ++ post = pre ++ c :: l ++ post.
Proof. done. Qed.

Section bus.
Context (memchr : byte → list byte → option nat).
Context (memchr_first : ∀ c l, memchr c l = position c l).

(** One encoded argument at the end of [pre]. *)
Lemma bulk_header_arg pre a post limits f :
  (Z.of_nat (length a) ≤ max_bulk_len limits)%Z → (Z.of_nat (length a) ≤ I64_MAX)%Z →
  bulk_header memchr (pre ++ encode_bulk_arg a ++ post) limits (length pre) f =
    inl (length pre + 1 + length (display_usize (length a)) + 2, Z.of_nat (length a)).
Proof.
  intros Hmax Hi. unfold encode_bulk_arg.
  rewrite <- app_comm_cons, <- !app_assoc.
  destruct (marked_line pre "$"%byte (display_usize (length a)) (a ++ CRLF ++ post))
    as [Hf Hs]; [by apply display_no_CR|].
  unfold bulk_header. rewrite lookup_at, decide_False by (by intros []).
  apply (find_crlf_Some _ memchr_first) in Hf. rewrite Hf, Hs.
  rewrite parse_display by done.
  rewrite decide_False by lia. rewrite decide_True; [done|].
  len.
Qed.

Lemma length_encode_bulk_arg a :
  length (encode_bulk_arg a) = 1 + length (display_usize (length a)) + 2 + length a + 2.
Proof. unfold encode_bulk_arg. len. Qed.

Lemma multibulk_args_encoded args limits pre post acc :
  Forall (λ a, Z.of_nat (length a) ≤ max_bulk_len limits ∧ Z.of_nat (length a) ≤ I64_MAX)%Z args →
  multibulk_args memchr (length args) (pre ++ concat (map encode_bulk_arg args) ++ post) limits
    (λ s e, slice s e (pre ++ concat (map encode_bulk_arg args) ++ post)) (length pre) acc =
  FsRequest (acc ++ args) (length pre + length (concat (map encode_bulk_arg args))).
Proof.
  revert pre acc. induction args as [|a args IH]; intros pre acc Hall;
    cbn [multibulk_args length map concat].
  { rewrite app_nil_r. f_equal. lia. }
  inversion Hall as [|? ? [??] Hall']; subst.
  rewrite <- app_assoc, bulk_header_arg by done.
  set (rest := concat (map encode_bulk_arg args) ++ post).
  rewrite Nat2Z.id.
  assert (∃ pre2, pre ++ encode_bulk_arg a ++ rest = pre2 ++ a ++ CRLF ++ rest ∧
    length pre2 = length pre + 1 + length (display_usize (length a)) + 2) as (pre2&E&Hl2).
  { exists (pre ++ "$"%byte :: display_usize (length a) ++ CRLF). split.
    - unfold encode_bulk_arg. by rewrite <- !app_assoc, <- !app_comm_cons, <- !app_assoc.
    - len. }
  rewrite <- Hl2, E.
  rewrite decide_False.
  2: { destruct (crlf_at_middle pre2 a rest). by intros [Hn|Hn]. }
  rewrite slice_middle, <- E.
  replace (length pre2 + length a + 2) with (length (pre ++ encode_bulk_arg a))
    by (rewrite length_app, length_encode_bulk_arg; lia).
  unfold rest. rewrite (app_assoc pre). rewrite IH by done.
  rewrite <- app_assoc. f_equal. rewrite !length_app. lia.
Qed.

Lemma decode_frame_command args limits more :
  args ≠ [] → (Z.of_nat (length args) ≤ max_multibulk limits)%Z →
  Forall (λ a, Z.of_nat (length a) ≤ max_bulk_len limits)%Z args →
  (max_multibulk limits ≤ I64_MAX ∧ max_bulk_len limits ≤ I64_MAX)%Z →
  decode_frame memchr (encode_command args ++ more) limits
    (λ s e, slice s e (encode_command args ++ more)) =
  Some (FsRequest args (length (encode_command args))).
Proof.
  intros Hne Hlen Hall [Hm1 Hm2]. unfold encode_command at 1. cbn [decode_frame app].
  rewrite decide_True by done. f_equal. unfold decode_multibulk.
  destruct (marked_line [] "*"%byte (display_usize (length args))
    (concat (map encode_bulk_arg args) ++ more)) as [Hf Hs]; [apply display_no_CR; lia|].
  apply (find_crlf_Some _ memchr_first) in Hf.
  replace ("*"%byte :: (display_usize (length args) ++ CRLF ++ concat (map encode_bulk_arg args)) ++ more)
    with ([] ++ "*"%byte :: display_usize (length args) ++ CRLF ++ concat (map encode_bulk_arg args) ++ more)
    by (by rewrite <- !app_assoc).
  cbn [length Nat.add] in Hf, Hs. rewrite Hf, Hs, parse_display by lia.
  rewrite decide_False by lia.
  rewrite decide_False by (destruct args; [done|simpl; lia]). rewrite Nat2Z.id.
  set (pre := "*"%byte :: display_usize (length args) ++ CRLF).
  replace (encode_command args) with (pre ++ concat (map encode_bulk_arg args))
    by (unfold encode_command, pre; by rewrite <- !app_comm_cons, <- app_assoc).
  replace (_ ++ "*"%byte :: _) with (pre ++ concat (map encode_bulk_arg args) ++ more)
    by (unfold pre; by rewrite <- !app_comm_cons, <- app_assoc).
  rewrite <- app_assoc.
  replace (S (length _) + 2) with (length pre) by (unfold pre; len).
  rewrite multibulk_args_encoded by (eapply Forall_impl; [exact Hall|]; simpl; lia).
  by rewrite length_app.
Qed.

(** Commands round-trip : the server decodes every command the cluster bus
    encodes, of at least one argument and within the limits, back to its
    arguments, and consumes exactly the command, whatever follows it. *)
Theorem encode_command_decode args limits more :
  args ≠ [] → (Z.of_nat (length args) ≤ max_multibulk limits)%Z →
  Forall (λ a, Z.of_nat (length a) ≤ max_bulk_len limits)%Z args →
  (max_multibulk limits ≤ I64_MAX ∧ max_bulk_len limits ≤ I64_MAX)%Z →
  decode memchr (encode_command args ++ more) limits =
    Some (Complete args (length (encode_command args))).
Proof.
  intros Hne Hlen Hall Hmax. unfold decode, decode_core. cbn [decode_loop].
  rewrite decide_False by lia. rewrite drop_0.
  change (decode_frame _ _ _ _) with (decode_frame memchr (encode_command args ++ more) limits
    (λ s e, slice s e (encode_command args ++ more))).
  by rewrite (decode_frame_command args limits more Hne Hlen Hall Hmax).
Qed.

End bus.

(** ** Inline commands *)

(** An argument in double quotes, with quotes and backslashes escaped. *)
Definition escape (c : byte) : list byte :=
  if decide (c = DQUOTE ∨ c = BACKSLASH) then [BACKSLASH; c] else [c].

Definition quote_arg (a : list byte) : list byte :=
  DQUOTE :: concat (map escape a) ++ [DQUOTE].

Fixpoint quoted_line (args : list (list byte)) : list byte :=
  match args with
  | [] => []
  | [a] => quote_arg a
  | a :: args => quote_arg a ++ " "%byte :: quoted_line args
  end.

Lemma scan_quoted a cur rest :
  quote_closed rest = true →
  scan_arg DoubleQuoted cur (concat (map escape a) ++ DQUOTE :: rest) = scan_arg Word (cur ++ a) rest.
Proof.
  intros Hc. revert cur. induction a as [|c a IH]; intros cur; simpl.
  { rewrite Hc. by rewrite app_nil_r. }
  unfold escape at 1. case_decide as Hq; simpl.
  - by rewrite IH, <- app_assoc.
  - rewrite !decide_False by naive_solver. by rewrite IH, <- app_assoc.
Qed.

Lemma split_inline_step fuel l acc :
  skip_blanks l = l → l ≠ [] →
  split_inline_loop (S fuel) l acc =
    match scan_arg Word [] l with
    | inl (cur, rest) => split_inline_loop fuel rest (acc ++ [cur])
    | inr e => Some (inr e)
    end.
Proof. intros Hb Hne. cbn [split_inline_loop]. rewrite Hb. by destruct l. Qed.

Lemma split_quoted_line args fuel acc :
  length (quoted_line args) < fuel →
  split_inline_loop fuel (quoted_line args) acc = Some (inl (acc ++ args)).
Proof.
  revert fuel acc. induction args as [|a args IH]; intros fuel acc Hf.
  { destruct fuel; [simpl in Hf; lia|]. simpl. by rewrite app_nil_r. }
  destruct fuel as [|fuel]; [lia|].
  assert (∀ rest, quote_closed rest = true →
    scan_arg Word [] (quote_arg a ++ rest) = scan_arg Word a rest) as Hscan.
  { intros rest Hr. unfold quote_arg. simpl. rewrite <- app_assoc. simpl. by apply scan_quoted. }
  destruct args as [|b args].
  - rewrite split_inline_step by done. cbn [quoted_line].
    specialize (Hscan [] eq_refl). rewrite app_nil_r in Hscan. rewrite Hscan. simpl.
    destruct fuel; [simpl in Hf; lia|]. done.
  - change (quoted_line (a :: b :: args)) with (quote_arg a ++ " "%byte :: quoted_line (b :: args)) in *.
    rewrite split_inline_step, Hscan by done. cbn [scan_arg]. change (is_blank " "%byte) with true. cbv iota.
    rewrite IH; [by rewrite <- app_assoc|]. rewrite length_app in Hf. simpl in Hf. simpl. lia.
Qed.

Section inline.
Context (memchr : byte → list byte → option nat).
Context (memchr_first : ∀ c l, memchr c l = position c l).

Lemma LF_not_quoted args : Forall (λ a, LF ∉ a) args → LF ∉ quoted_line args.
Proof.
  assert (∀ a, LF ∉ a → LF ∉ quote_arg a) as Hq.
  { intros a Ha [?|[Hin|?%list_elem_of_singleton]%elem_of_app]%elem_of_cons; [done| |done].
    apply list_elem_of_In, in_concat in Hin as (l&Hl&Hin).
    apply in_map_iff in Hl as (c&<-&Hc). apply Ha. apply list_elem_of_In in Hc, Hin.
    unfold escape in Hin. case_decide; set_solver. }
  induction args as [|a [|b args] IH]; intros Hall; [inversion 1|..].
  - apply Hq. by inversion Hall.
  - inversion Hall; subst.
    change (quoted_line (a :: b :: args)) with (quote_arg a ++ " "%byte :: quoted_line (b :: args)).
    rewrite not_elem_of_app, not_elem_of_cons. split_and!; [by apply Hq|done|].
    by apply IH.
Qed.

(** Inline commands : a line that gives every argument in double quotes,
    with quotes and backslashes escaped, decodes to exactly those arguments, for
    arguments of any bytes but the line feed and a line within the cap. *)
Theorem quoted_line_decode args limits more :
  args ≠ [] → Forall (λ a, LF ∉ a) args → length (quoted_line args) ≤ max_inline_len limits →
  decode memchr (quoted_line args ++ CRLF ++ more) limits =
    Some (Complete args (length (quoted_line args) + 2)).
Proof.
  intros Hne Hlf Hlen. unfold decode, decode_core. cbn [decode_loop].
  rewrite decide_False by lia. rewrite drop_0.
  set (input := quoted_line args ++ CRLF ++ more).
  assert (find_crlf_or_lf memchr input = Some (length (quoted_line args), length (quoted_line args) + 2)) as Hf.
  { unfold find_crlf_or_lf. rewrite memchr_first. unfold input.
    change (CRLF ++ more) with ([CR] ++ LF :: more). rewrite app_assoc, position_app.
    2: { rewrite not_elem_of_app. split; [by apply LF_not_quoted|]. by rewrite list_elem_of_singleton. }
    rewrite length_app. simpl. rewrite decide_True; [f_equal; f_equal; lia|]. split; [lia|].
    replace (length (quoted_line args) + 1 - 1) with (length (quoted_line args)) by lia.
    rewrite <- app_assoc. apply lookup_at. }
  assert (decode_frame memchr input limits (λ s e, slice s e input) = decode_inline memchr input limits) as Hd.
  { unfold input. by destruct args as [|a [|b args]]. }
  change (decode_frame _ _ _ _) with (decode_frame memchr input limits (λ s e, slice s e input)).
  rewrite Hd. unfold decode_inline. rewrite Hf, decide_False by lia.
  replace (take _ input) with (quoted_line args) by (unfold input; by rewrite take_app_length).
  unfold split_inline. rewrite split_quoted_line by lia.
  simpl. by destruct args.
Qed.

End inline.
