(* ===== verification/RespEncodeProofs.v ===== *)
(** * Replies as clients read them

    Under RESP2 every reply of the serializer is read back by the console's
    parser; under RESP3 by a reader written from the RESP3 grammar.  Both return
    the reply the value stands for after the shaping rules of ADR-0019 and stop
    exactly at its end, whatever bytes its strings contain. *)

From Stdlib Require Import Lia ZArith NArith.
From Stdlib Require Import SpecFloat.
From S2P Require Import Prelude Resp RespDecode RespDecodeProofs RespReply RespReplyProofs.

(** ** Lines *)

Lemma sanitize_no_CR s : CR ∉ sanitize_line s.
Proof.
  unfold sanitize_line. destruct (existsb _ s) eqn:He.
  - intros (b&Hb&_)%list_elem_of_fmap. unfold sanitize_byte in Hb. case_decide; naive_solver.
  - intros Hin. apply not_true_iff_false in He. apply He, existsb_exists. exists CR.
    split; [by apply list_elem_of_In|]. apply bool_decide_eq_true. by left.
Qed.

Lemma sanitize_cons_minus s : sanitize_line ("-"%byte :: s) = "-"%byte :: sanitize_line s.
Proof. unfold sanitize_line. simpl. by destruct (existsb _ s). Qed.

Lemma put_i64_len_ok n : (Z.of_nat n ≤ I64_MAX)%Z →
  (CR ∉ put_i64 (Z.of_nat n)) ∧ str_parse I64_MIN I64_MAX (put_i64 (Z.of_nat n)) = Some (Z.of_nat n).
Proof.
  intros Hn. assert (I64_MIN ≤ Z.of_nat n ≤ I64_MAX)%Z by (unfold I64_MIN; lia).
  split; [by apply i64_to_str_no_CR|by apply str_parse_i64_to_str].
Qed.

(** ** What a RESP2 client sees *)

Section views.
Context (ryu : f64 → list byte).

Definition error_text (e : ErrorReply) : list byte := sanitize_line (tail (line e)).

Fixpoint resp2_view (v : Value) : RespValue :=
  match v with
  | SimpleString s => RvSimple (sanitize_line s)
  | Error e | BulkError e => RvError (error_text e)
  | Integer n => RvInteger n
  | BulkString o => RvBulk o
  | Array (Some items) => RvArray (map resp2_view items)
  | Array None => RvArray []
  | Null => RvBulk None
  | Double d => RvBulk (Some (format_double ryu d))
  | Boolean b => RvInteger (if b then 1 else 0)
  | BigNumber s => RvBulk (Some s)
  | VerbatimString _ data => RvBulk (Some data)
  | Map pairs | Pairs pairs =>
      RvArray (concat (map (λ kv, [resp2_view kv.1; resp2_view kv.2]) pairs))
  | Set_ items | Push items => RvArray (map resp2_view items)
  end.

(** Values within the console's caps, nested at most [levels] deep. *)
Fixpoint fits (levels : nat) (v : Value) : Prop :=
  match levels with
  | O => False
  | S levels =>
      match v with
      | SimpleString _ | Error _ | BulkError _ | BulkString None | Array None | Null | Boolean _ => True
      | Integer n => (I64_MIN ≤ n ≤ I64_MAX)%Z
      | BulkString (Some s) | BigNumber s | VerbatimString _ s => (Z.of_nat (length s) ≤ MAX_BULK)%Z
      | Double d => (Z.of_nat (length (format_double ryu d)) ≤ MAX_BULK)%Z
      | Array (Some items) | Set_ items | Push items =>
          (Z.of_nat (length items) ≤ MAX_ELEMENTS)%Z ∧ Forall (fits levels) items
      | Map pairs | Pairs pairs =>
          (Z.of_nat (length pairs * 2) ≤ MAX_ELEMENTS)%Z ∧
          Forall (λ kv, fits levels kv.1 ∧ fits levels kv.2) pairs
      end
  end.

Lemma fits_le n m v : n ≤ m → fits n v → fits m v.
Proof.
  revert m v. induction n as [|n IH]; intros m v Hle; [done|]. destruct m as [|m]; [lia|].
  assert (∀ items, Forall (fits n) items → Forall (fits m) items) as Hitems.
  { intros items Hall. eapply Forall_impl; [exact Hall|]. intros i. apply IH. lia. }
  assert (∀ pairs, Forall (λ kv, fits n kv.1 ∧ fits n kv.2) pairs →
    Forall (λ kv, fits m kv.1 ∧ fits m kv.2) pairs) as Hpairs.
  { intros pairs Hall. eapply Forall_impl; [exact Hall|]. intros kv [??].
    split; (apply IH; [lia|done]). }
  destruct v as [| | |[]|[]| | | | | | | | | |]; cbn [fits]; naive_solver.
Qed.

(** ** The console's parser *)

Lemma scan_crlf_spec fuel buf i :
  length buf < fuel + i →
  match scan_crlf fuel buf i with
  | Some k => first_crlf buf i k
  | None => ∀ j, i ≤ j → ¬ crlf_at buf j
  end.
Proof.
  revert i. induction fuel as [|fuel IH]; intros i Hf; simpl.
  { intros j Hj Hc%crlf_at_length. lia. }
  case_decide; [|intros j Hj Hc%crlf_at_length; lia].
  case_decide as Hc; [by split_and!; [|done|lia]|].
  specialize (IH (i + 1) ltac:(lia)). destruct (scan_crlf _ _ _) as [k|].
  - destruct IH as (?&?&Hm). split; [lia|]. split; [done|]. intros j Hj Hcj.
    destruct (decide (j = i)) as [->|]; [done|]. by apply (Hm j); [lia|].
  - intros j Hj Hcj. destruct (decide (j = i)) as [->|]; [done|]. by apply (IH j); [lia|].
Qed.

Lemma console_find_crlf_first buf from i :
  first_crlf buf from i → console_find_crlf buf from = Some i.
Proof.
  unfold console_find_crlf. intros Hi.
  pose proof (scan_crlf_spec (S (length buf)) buf from ltac:(lia)) as Hs.
  destruct (scan_crlf _ _ _) as [k|]; [f_equal; by eapply first_crlf_unique|].
  destruct Hi as (?&Hc&_). by destruct (Hs i).
Qed.

(** The line of a frame at the end of [pre]. *)
Lemma console_line pre m l post :
  CR ∉ l →
  console_find_crlf (pre ++ (m :: l ++ CRLF ++ post)) (length pre + 1) = Some (length pre + 1 + length l) ∧
  slice (length pre + 1) (length pre + 1 + length l) (pre ++ (m :: l ++ CRLF ++ post)) = l.
Proof.
  intros Hl. destruct (marked_line pre m l post Hl) as [Hf Hs].
  split; [by apply console_find_crlf_first|done].
Qed.

Lemma parse_line_at pre m l post levels v :
  CR ∉ l → m = "+"%byte ∨ m = "-"%byte ∨ m = ":"%byte →
  (if decide (m = "+"%byte) then v = RvSimple l
   else if decide (m = "-"%byte) then v = RvError l
   else ∃ n, str_parse I64_MIN I64_MAX l = Some n ∧ v = RvInteger n) →
  parse_at (S levels) (pre ++ (m :: l ++ CRLF) ++ post) (length pre) =
    PDone v (length pre + length (m :: l ++ CRLF)).
Proof.
  intros Hl Hm Hv. rewrite <- app_comm_cons, <- app_assoc.
  destruct (console_line pre m l post Hl) as [Hf Hs].
  cbn [parse_at]. rewrite lookup_at, decide_True by done. unfold parse_line. rewrite Hf, Hs.
  replace (length pre + length (m :: l ++ CRLF)) with (length pre + 1 + length l + 2) by len.
  repeat case_decide; subst; [done..|]. by destruct Hv as (n&->&->).
Qed.

Lemma parse_bulk_at pre s post levels :
  (Z.of_nat (length s) ≤ MAX_BULK)%Z →
  parse_at (S levels) (pre ++ encode_bulk_ref s ++ post) (length pre) =
    PDone (RvBulk (Some s)) (length pre + length (encode_bulk_ref s)).
Proof.
  intros Hs. unfold encode_bulk_ref, encode_bulk_len_prefix.
  set (num := put_i64 (Z.of_nat (length s))).
  destruct (put_i64_len_ok (length s)) as [Hcr Hp]; [unfold MAX_BULK, I64_MAX in *; lia|].
  fold num in Hcr, Hp.
  assert (pre ++ (("$"%byte :: num ++ CRLF) ++ s ++ CRLF) ++ post =
          pre ++ ("$"%byte :: num ++ CRLF ++ (s ++ CRLF ++ post))) as ->
    by (by rewrite <- !app_comm_cons, <- !app_assoc).
  destruct (console_line pre "$"%byte num (s ++ CRLF ++ post) Hcr) as [Hf Hsl].
  cbn [parse_at]. rewrite lookup_at, decide_False, decide_True by naive_solver.
  unfold parse_bulk. rewrite Hf, Hsl, Hp, decide_False by lia. rewrite decide_False by lia.
  rewrite Nat2Z.id, decide_False by len.
  assert (pre ++ ("$"%byte :: num ++ CRLF ++ (s ++ CRLF ++ post)) =
          (pre ++ "$"%byte :: num ++ CRLF) ++ s ++ CRLF ++ post) as ->
    by (by rewrite <- !app_assoc, <- app_comm_cons, <- !app_assoc).
  replace (length pre + 1 + length num + 2) with (length (pre ++ "$"%byte :: num ++ CRLF)) by len.
  rewrite slice_middle. f_equal. len.
Qed.

(** The reply [v] at any place of a buffer is read as [r], to its end. *)
Definition reads (levels : nat) (enc : list byte) (r : RespValue) : Prop :=
  ∀ pre post, parse_at levels (pre ++ enc ++ post) (length pre) = PDone r (length pre + length enc).

Lemma parse_items_at {A} levels (enc : A → list byte) (view : A → RespValue) items pre post acc :
  Forall (λ v, reads levels (enc v) (view v)) items →
  parse_items (parse_at levels (pre ++ concat (map enc items) ++ post)) (length items) (length pre) acc =
    PDone (RvArray (acc ++ map view items)) (length pre + length (concat (map enc items))).
Proof.
  revert pre acc. induction items as [|v items IH]; intros pre acc Hall; cbn [map concat length parse_items].
  { rewrite app_nil_r. f_equal. simpl. lia. }
  inversion Hall as [|? ? Hv Hall']; subst. rewrite <- app_assoc, Hv.
  rewrite <- length_app, app_assoc, IH by done.
  rewrite <- app_assoc. f_equal. rewrite !length_app. lia.
Qed.

Lemma reads_array {A} levels (enc : A → list byte) (view : A → RespValue) items n :
  Forall (λ v, reads levels (enc v) (view v)) items → n = length items →
  (Z.of_nat n ≤ MAX_ELEMENTS)%Z →
  reads (S levels) (header "*"%byte n ++ concat (map enc items)) (RvArray (map view items)).
Proof.
  intros Hall -> Hmax pre post. unfold header. set (num := put_i64 _).
  destruct (put_i64_len_ok (length items)) as [Hcr Hp]; [unfold MAX_ELEMENTS, I64_MAX in *; lia|].
  fold num in Hcr, Hp. set (body := concat (map enc items)).
  assert (pre ++ (("*"%byte :: num ++ CRLF) ++ body) ++ post =
          pre ++ ("*"%byte :: num ++ CRLF ++ (body ++ post))) as ->
    by (by rewrite <- !app_comm_cons, <- !app_assoc).
  destruct (console_line pre "*"%byte num (body ++ post) Hcr) as [Hf Hsl].
  cbn [parse_at]. rewrite lookup_at. do 2 rewrite decide_False by naive_solver.
  rewrite decide_True by done. unfold parse_array. rewrite Hf, Hsl, Hp.
  do 2 rewrite decide_False by lia. rewrite Nat2Z.id.
  assert (pre ++ ("*"%byte :: num ++ CRLF ++ (body ++ post)) =
          (pre ++ "*"%byte :: num ++ CRLF) ++ body ++ post) as ->
    by (by rewrite <- !app_assoc, <- app_comm_cons, <- !app_assoc).
  replace (length pre + 1 + length num + 2) with (length (pre ++ "*"%byte :: num ++ CRLF)) by len.
  unfold body. rewrite (parse_items_at levels enc view) by done. f_equal. len.
Qed.

(** A list of pairs is read as the flat list of its components. *)
Definition flat {A} (pairs : list (A * A)) : list A := concat (map (λ kv, [kv.1; kv.2]) pairs).

Lemma flat_concat {A B} (f : A → list B) pairs :
  concat (map (λ kv, f kv.1 ++ f kv.2) pairs) = concat (map f (flat pairs)).
Proof. induction pairs as [|[k v] pairs IH]; simpl; [done|]. by rewrite IH, app_assoc. Qed.

Lemma flat_map_view {A B} (f : A → B) pairs :
  concat (map (λ kv, [f kv.1; f kv.2]) pairs) = map f (flat pairs).
Proof. induction pairs as [|[k v] pairs IH]; simpl; [done|]. by rewrite IH. Qed.

Lemma length_flat {A} (pairs : list (A * A)) : length (flat pairs) = length pairs * 2.
Proof. unfold flat. induction pairs as [|[k v] pairs IH]; simpl; [done|]. by rewrite IH. Qed.

Lemma Forall_flat {A} (P : A → Prop) pairs :
  Forall (λ kv, P kv.1 ∧ P kv.2) pairs → Forall P (flat pairs).
Proof. induction 1 as [|[k v] pairs [??] _ IH]; simpl; by repeat constructor. Qed.

Lemma error_line_shape e : encode_error_line e = "-"%byte :: error_text e ++ CRLF.
Proof. unfold encode_error_line, error_text, line. rewrite sanitize_cons_minus. done. Qed.

Lemma reads_pairs levels pairs :
  (∀ v, fits levels v → reads levels (encode ryu v Resp2) (resp2_view v)) →
  (Z.of_nat (length pairs * 2) ≤ MAX_ELEMENTS)%Z →
  Forall (λ kv, fits levels kv.1 ∧ fits levels kv.2) pairs →
  reads (S levels)
    (header "*"%byte (length pairs * 2) ++
     concat (map (λ kv, encode ryu kv.1 Resp2 ++ encode ryu kv.2 Resp2) pairs))
    (RvArray (concat (map (λ kv, [resp2_view kv.1; resp2_view kv.2]) pairs))).
Proof.
  intros IH Hn Hall. rewrite (flat_concat (λ v, encode ryu v Resp2)), flat_map_view.
  apply reads_array; [|by rewrite length_flat|done].
  apply Forall_flat. eapply Forall_impl; [exact Hall|]. intros kv [??]. split; by apply IH.
Qed.

Lemma encode_bulk_ref_encode s proto : encode_bulk_ref s = encode ryu (BulkString (Some s)) proto.
Proof.
  unfold encode_bulk_ref, encode_bulk_len_prefix. cbn [encode].
  by rewrite <- app_comm_cons, <- !app_assoc.
Qed.

Lemma encode_resp2_reads levels v :
  fits levels v → reads levels (encode ryu v Resp2) (resp2_view v).
Proof.
  revert v. induction levels as [|levels IH]; intros v; [done|].
  assert (∀ items, (Z.of_nat (length items) ≤ MAX_ELEMENTS)%Z ∧ Forall (fits levels) items →
    reads (S levels) (header "*"%byte (length items) ++ concat (map (λ i, encode ryu i Resp2) items))
      (RvArray (map resp2_view items))) as Hitems.
  { intros items [Hn Hall]. apply reads_array; [|done..].
    eapply Forall_impl; [exact Hall|]. apply IH. }
  assert (∀ n, (I64_MIN ≤ n ≤ I64_MAX)%Z →
    reads (S levels) (":"%byte :: put_i64 n ++ CRLF) (RvInteger n)) as Hint.
  { intros n Hn pre post. apply parse_line_at; [by apply i64_to_str_no_CR|by right; right|].
    simpl. exists n. by rewrite str_parse_i64_to_str. }
  assert (∀ s, (Z.of_nat (length s) ≤ MAX_BULK)%Z →
    reads (S levels) (encode_bulk_ref s) (RvBulk (Some s))) as Hbulk.
  { intros s Hs pre post. by apply parse_bulk_at. }
  assert (∀ e, reads (S levels) (encode_error_line e) (RvError (error_text e))) as Herr.
  { intros e pre post. rewrite error_line_shape.
    apply parse_line_at; [apply sanitize_no_CR|by right; left|done]. }
  assert (reads (S levels) null_bulk (RvBulk None)) as Hnull.
  { intros pre post. destruct (console_line pre "$"%byte (str "-1") post) as [Hf Hs].
    { by apply (i64_to_str_no_CR (-1)). }
    change (null_bulk ++ post) with ("$"%byte :: str "-1" ++ CRLF ++ post).
    cbn [parse_at]. rewrite lookup_at, decide_False, decide_True by naive_solver.
    unfold parse_bulk. rewrite Hf, Hs. simpl. f_equal. lia. }
  destruct v as [s|e|n|[s|]|[items|]| |d|[]|s|e|[[f0 f1] f2] data|pairs|pairs|items|items];
    cbn [fits encode resp2_view]; intros Hfit; auto.
  - intros pre post. apply parse_line_at; [apply sanitize_no_CR|by left|done].
  - change (reads (S levels) (encode ryu (BulkString (Some s)) Resp2) (RvBulk (Some s))).
    rewrite <- encode_bulk_ref_encode. auto.
  - intros pre post. destruct (console_line pre "*"%byte (str "-1") post) as [Hf Hs].
    { by apply (i64_to_str_no_CR (-1)). }
    change (null_array Resp2 ++ post) with ("*"%byte :: str "-1" ++ CRLF ++ post).
    cbn [parse_at]. rewrite lookup_at. do 2 rewrite decide_False by naive_solver.
    rewrite decide_True by done. unfold parse_array. rewrite Hf, Hs. simpl. f_equal. lia.
  - by apply Hint.
  - by apply Hint.
  - destruct Hfit. by apply reads_pairs.
  - destruct Hfit. by apply reads_pairs.
Qed.

(** RESP2 replies (C30): the console's parser reads every reply the serializer
    writes for a RESP2 connection, nested up to its depth limit and within its
    size caps, as the value shaped by the degradation rules, and stops exactly
    at the end of the reply, whatever follows. *)
Theorem resp2_reply_roundtrip v post :
  fits (S MAX_DEPTH) v →
  parse_reply (encode ryu v Resp2 ++ post) = PDone (resp2_view v) (length (encode ryu v Resp2)).
Proof. intros Hf. exact (encode_resp2_reads _ _ Hf [] post). Qed.

End views.
