(* ===== verification/RespDouble.v ===== *)
(** * Doubles as text (crates/ironcache-protocol/src/encode.rs: format_double,
    decompose_ryu, emit_digits)

    The serializer re-spells the shortest decimal of the [ryu] crate in the
    format Redis uses.  The theorem shows that the re-spelling denotes the same
    number, for every text of ryu's documented shape. *)

From Stdlib Require Import Lia ZArith NArith.
From Stdlib Require Import SpecFloat.
From S2P Require Import Prelude Resp.

#[local] Open Scope Z_scope.

(** ** The number a decimal text denotes *)

(** Mantissa [m] and exponent [e] of [[-]digits[.digits][e[+-]digits]]; the
    number is [m * 10 ^ e]. *)
Definition decimal (s : list byte) : option (Z * Z) :=
  let neg := bool_decide (head s = Some "-"%byte) in
  let s := if neg then tail s else s in
  '(mantissa, e) ← match split_once (λ c, bool_decide (c = "e"%byte ∨ c = "E"%byte)) s with
                   | Some (m, e) => e ← str_parse I32_MIN I32_MAX e; Some (m, e)
                   | None => Some (s, 0)
                   end;
  let '(ip, fp) := match split_once (λ c, bool_decide (c = "."%byte)) mantissa with
                   | Some (i, f) => (i, f)
                   | None => (mantissa, [])
                   end in
  m ← digits_value 0 (ip ++ fp);
  Some ((if neg then - m else m), e - Z.of_nat (length fp)).

(** [m1 * 10 ^ e1 = m2 * 10 ^ e2]. *)
Definition same_number (x y : Z * Z) : Prop :=
  let '(m1, e1) := x in let '(m2, e2) := y in
  ∃ lo, lo ≤ e1 ∧ lo ≤ e2 ∧ m1 * 10 ^ (e1 - lo) = m2 * 10 ^ (e2 - lo).

Definition all_digits (s : list byte) : Prop := Forall (λ b, is_digit b = true) s.

(** The shape of what [ryu] prints for a finite number: digits, possibly a
    point and digits, possibly an exponent; at most 17 significant digits, not
    all of them zero, and a magnitude an f64 can have. *)
Record ryu_shape (s : list byte) (neg : bool) (ip fp : list byte) (ex : option (list byte)) (x : Z)
  : Prop := {
  rs_text : s = (if neg then ["-"%byte] else []) ++ ip ++
                (match fp with [] => [] | _ => "."%byte :: fp end) ++
                (match ex with Some e => "e"%byte :: e | None => [] end);
  rs_ip : ip ≠ [] ∧ all_digits ip;
  rs_fp : all_digits fp;
  rs_ex : match ex with
          | Some e => str_parse I32_MIN I32_MAX e = Some x ∧
                      Forall (λ b, is_digit b = true ∨ b = "-"%byte) e
          | None => x = 0
          end;
  rs_nonzero : trim_start0 (ip ++ fp) ≠ [];
  rs_digits : (length (trim_end0 (trim_start0 (ip ++ fp))) ≤ 17)%nat;
  rs_range : Z.abs (x - Z.of_nat (length fp) + Z.of_nat (length (trim_start0 (ip ++ fp))) - 1) ≤ 999;
}.

Definition ryu_text (s : list byte) : Prop := ∃ neg ip fp ex x, ryu_shape s neg ip fp ex x.

(** ** Splitting *)

Lemma split_once_app p a c b :
  Forall (λ x, p x = false) a → p c = true → split_once p (a ++ c :: b) = Some (a, b).
Proof.
  intros Ha Hc. induction Ha as [|x a Hx _ IH]; simpl; [by rewrite Hc|]. by rewrite Hx, IH.
Qed.

Lemma split_once_none p a : Forall (λ x, p x = false) a → split_once p a = None.
Proof. induction 1 as [|x a Hx _ IH]; simpl; [done|]. by rewrite Hx, IH. Qed.

Lemma digits_forall (p : byte → bool) s :
  (∀ b, is_digit b = true → p b = false) → all_digits s → Forall (λ x, p x = false) s.
Proof. intros Hp Hs. exact (Forall_impl _ _ _ Hs Hp). Qed.

Definition is_exp (c : byte) : bool := bool_decide (c = "e"%byte ∨ c = "E"%byte).
Definition is_point (c : byte) : bool := bool_decide (c = "."%byte).

Lemma digit_not_exp b : is_digit b = true → is_exp b = false.
Proof. intros Hb. apply bool_decide_eq_false. intros [->| ->]; done. Qed.

Lemma digit_not_point b : is_digit b = true → is_point b = false.
Proof. intros Hb. apply bool_decide_eq_false. intros ->; done. Qed.

(** The mantissa of a number text. *)
Definition mant (ip fp : list byte) : list byte :=
  ip ++ match fp with [] => [] | _ => "."%byte :: fp end.

Lemma split_mant ip fp :
  all_digits ip → all_digits fp →
  match split_once is_point (mant ip fp) with Some (i, f) => (i, f) | None => (mant ip fp, []) end
  = (ip, fp).
Proof.
  intros Hi Hf. unfold mant. destruct fp as [|f fp].
  - rewrite app_nil_r, split_once_none; [done|]. by apply digits_forall; [apply digit_not_point|].
  - rewrite split_once_app; [done| |done]. by apply digits_forall; [apply digit_not_point|].
Qed.

Lemma mant_no_exp ip fp :
  all_digits ip → all_digits fp → Forall (λ x, is_exp x = false) (mant ip fp).
Proof.
  intros Hi Hf. unfold mant. apply Forall_app. split; [by apply digits_forall; [apply digit_not_exp|]|].
  destruct fp; [done|]. constructor; [done|]. by apply digits_forall; [apply digit_not_exp|].
Qed.

(** ** Digit strings *)

Lemma digits_value_total acc s : all_digits s → ∃ v, digits_value acc s = Some v.
Proof.
  intros Hs. revert acc. induction Hs as [|d s Hd _ IH]; intros acc; simpl; [by eexists|].
  rewrite Hd. apply IH.
Qed.

Lemma digits_value_trim s : digits_value 0 (trim_start0 s) = digits_value 0 s.
Proof. induction s as [|c s IH]; simpl; [done|]. by case_decide; subst. Qed.

Lemma digits_value_zeros acc n :
  digits_value acc (replicate n "0"%byte) = Some (acc * 10 ^ Z.of_nat n).
Proof.
  revert acc. induction n as [|n IH]; intros acc; simpl; [f_equal; lia|].
  rewrite IH. f_equal. rewrite Nat2Z.inj_succ, Z.pow_succ_r by lia. lia.
Qed.

Lemma trim_start0_split s : ∃ n, s = replicate n "0"%byte ++ trim_start0 s.
Proof.
  induction s as [|c s [n IH]]; [by exists 0%nat|]. simpl.
  case_decide as Hc; [exists (S n); simpl; congruence|by exists 0%nat].
Qed.

Lemma trim_end0_split s : ∃ n, s = trim_end0 s ++ replicate n "0"%byte.
Proof.
  destruct (trim_start0_split (rev s)) as [n Hn]. exists n. unfold trim_end0.
  apply (f_equal (@rev byte)) in Hn. rewrite rev_involutive, rev_app_distr in Hn.
  rewrite Hn at 1. f_equal. rewrite rev_alt. apply reverse_replicate.
Qed.

Lemma all_digits_app a b : all_digits (a ++ b) ↔ all_digits a ∧ all_digits b.
Proof. apply Forall_app. Qed.

Lemma all_digits_zeros n : all_digits (replicate n "0"%byte).
Proof. by apply Forall_replicate. Qed.

(** ** Texts of the grammar *)

Definition exp_part (ex : option (list byte)) : list byte :=
  match ex with Some e => "e"%byte :: e | None => [] end.

Definition exp_value (ex : option (list byte)) (x : Z) : Prop :=
  match ex with Some e => str_parse I32_MIN I32_MAX e = Some x | None => x = 0 end.

Lemma split_exp ip fp ex x :
  all_digits ip → all_digits fp → exp_value ex x →
  (match split_once is_exp (mant ip fp ++ exp_part ex) with
   | Some (m, e) => e ← str_parse I32_MIN I32_MAX e; Some (m, e)
   | None => Some (mant ip fp ++ exp_part ex, 0)
   end) = Some (mant ip fp, x).
Proof.
  intros Hi Hf Hx. pose proof (mant_no_exp ip fp Hi Hf) as Hm. destruct ex as [e|]; simpl in *.
  - rewrite split_once_app by done. by rewrite Hx.
  - subst x. rewrite app_nil_r. by rewrite split_once_none.
Qed.

Lemma digit_head_not_minus (ip rest : list byte) :
  ip ≠ [] → all_digits ip → bool_decide (head (ip ++ rest) = Some "-"%byte) = false.
Proof.
  intros Hne Hi. destruct Hi as [|c ip Hc]; [done|]. simpl. apply bool_decide_eq_false.
  intros [= ->]. done.
Qed.

Lemma decimal_text (neg : bool) ip fp ex x v :
  ip ≠ [] → all_digits ip → all_digits fp → exp_value ex x → digits_value 0 (ip ++ fp) = Some v →
  decimal ((if neg then ["-"%byte] else []) ++ mant ip fp ++ exp_part ex) =
    Some (if neg then - v else v, x - Z.of_nat (length fp)).
Proof.
  intros Hne Hi Hf Hx Hv. unfold decimal.
  assert (bool_decide (head ((if neg then ["-"%byte] else []) ++ mant ip fp ++ exp_part ex) =
    Some "-"%byte) = neg) as ->.
  { destruct neg; [done|]. simpl. unfold mant. rewrite <- app_assoc. by apply digit_head_not_minus. }
  replace (if neg then tail ((if neg then ["-"%byte] else []) ++ mant ip fp ++ exp_part ex)
    else (if neg then ["-"%byte] else []) ++ mant ip fp ++ exp_part ex)
    with (mant ip fp ++ exp_part ex) by (by destruct neg).
  change (λ c, bool_decide (c = "e"%byte ∨ c = "E"%byte)) with is_exp.
  change (λ c, bool_decide (c = "."%byte)) with is_point.
  rewrite (split_exp ip fp ex x) by done. simpl.
  rewrite (split_mant ip fp) by done. by rewrite Hv.
Qed.

(** ** The spelling of significand and exponent *)

Definition emit_exp_ok (x : N) : bool :=
  forallb is_digit (emit_exp x) && bool_decide (emit_exp x ≠ []) &&
  bool_decide (digits_value 0 (emit_exp x) = Some (Z.of_N x)).

Lemma emit_exp_all : forallb (λ n, emit_exp_ok (N.of_nat n)) (seq 0 1000) = true.
Proof. vm_compute. reflexivity. Qed.

Lemma emit_exp_spec x :
  (x ≤ 999)%N → all_digits (emit_exp x) ∧ emit_exp x ≠ [] ∧
    digits_value 0 (emit_exp x) = Some (Z.of_N x).
Proof.
  intros Hx. pose proof emit_exp_all as Hall. rewrite forallb_forall in Hall.
  specialize (Hall (N.to_nat x)). rewrite N2Nat.id in Hall.
  assert (emit_exp_ok x = true) as Hok by (apply Hall, in_seq; lia).
  apply andb_prop in Hok as [[H1 H2]%andb_prop H3].
  split_and!; [|by apply bool_decide_eq_true in H2|by apply bool_decide_eq_true in H3].
  apply Forall_forall. intros b Hb. rewrite forallb_forall in H1. by apply H1, list_elem_of_In.
Qed.

Lemma str_parse_minus lo hi ds v :
  ds ≠ [] → digits_value 0 ds = Some v → lo ≤ - v ≤ hi →
  str_parse lo hi ("-"%byte :: ds) = Some (- v).
Proof.
  intros Hne Hv Hr. unfold str_parse. rewrite decide_True by done.
  destruct ds; [done|]. rewrite Hv. simpl. by rewrite decide_True.
Qed.

Lemma str_parse_plus lo hi ds v :
  ds ≠ [] → digits_value 0 ds = Some v → lo ≤ v ≤ hi →
  str_parse lo hi ("+"%byte :: ds) = Some v.
Proof.
  intros Hne Hv Hr. unfold str_parse. rewrite decide_False, decide_True by done.
  destruct ds; [done|]. rewrite Hv. simpl. by rewrite decide_True.
Qed.

(** What [emit_digits] prints is a text of the grammar with the digits and the
    exponent it was given. *)
Lemma emit_digits_text ds k neg D :
  ds ≠ [] → all_digits ds → (length ds ≤ 17)%nat → digits_value 0 ds = Some D →
  Z.abs (k + Z.of_nat (length ds) - 1) ≤ 999 →
  ∃ ip fp ex x v j, emit_digits ds k neg = mant ip fp ++ exp_part ex ∧
    ip ≠ [] ∧ all_digits ip ∧ all_digits fp ∧ exp_value ex x ∧
    Forall (λ b, b ≠ CR) (exp_part ex) ∧
    digits_value 0 (ip ++ fp) = Some v ∧ 0 ≤ j ∧ v = D * 10 ^ j ∧ x - Z.of_nat (length fp) = k - j.
Proof.
  intros Hne Hds Hlen HD Habs. unfold emit_digits.
  destruct (decide (0 ≤ k ∧ _)) as [[Hk _]|Hnot].
  { exists (ds ++ replicate (Z.to_nat k) "0"%byte), [], None, 0, (D * 10 ^ k), k.
    unfold mant. simpl. rewrite !app_nil_r. split_and!; try done; try (by repeat constructor).
    - by destruct ds.
    - apply all_digits_app. split; [done|apply all_digits_zeros].
    - rewrite digits_value_app, HD. simpl. rewrite digits_value_zeros. by rewrite Z2Nat.id.
    - lia. }
  destruct (decide (k < 0 ∧ _)) as [[Hk _]|Hnot2].
  - destruct (decide (_ ≤ 0)) as [Hoff|Hoff].
    + set (z := Z.to_nat (- (Z.of_nat (length ds) - Z.abs k))).
      exists ["0"%byte], (replicate z "0"%byte ++ ds), None, 0, D, 0.
      unfold mant. simpl. rewrite app_nil_r. split_and!; try done; try (by repeat constructor); try lia.
      * destruct (replicate z "0"%byte ++ ds) eqn:E; [|done]. apply app_nil in E. naive_solver.
      * apply all_digits_app. split; [apply all_digits_zeros|done].
      * rewrite digits_value_app, digits_value_zeros. simpl. exact HD.
      * rewrite length_app, length_replicate. unfold z. lia.
    + set (o := Z.to_nat (Z.of_nat (length ds) - Z.abs k)).
      assert (o < length ds)%nat as Ho by (unfold o; lia).
      exists (take o ds), (drop o ds), None, 0, D, 0.
      unfold mant. simpl. rewrite app_nil_r. split_and!; try done; try (by repeat constructor); try lia.
      * destruct (drop o ds) eqn:E; [|done]. apply (f_equal length) in E. rewrite length_drop in E.
        simpl in E. lia.
      * intros E. apply (f_equal length) in E. rewrite length_take in E. simpl in E. unfold o in *. lia.
      * by apply Forall_take.
      * by apply Forall_drop.
      * by rewrite take_drop.
      * rewrite length_drop. unfold o. lia.
  - set (X := Z.to_N (Z.abs (k + Z.of_nat (length ds) - 1))).
    assert (X ≤ 999)%N as HX by (unfold X; lia).
    destruct (emit_exp_spec X HX) as (Hed&Hen&Hev).
    set (sgn := if decide (k + Z.of_nat (length ds) - 1 < 0) then "-"%byte else "+"%byte).
    rewrite Nat.min_l by (destruct neg; lia).
    exists (take 1 ds), (drop 1 ds), (Some (sgn :: emit_exp X)),
      (k + Z.of_nat (length ds) - 1), D, 0.
    split_and!; try done; try lia.
    + unfold mant. rewrite <- app_assoc. f_equal. destruct ds as [|d ds]; [done|]. simpl.
      rewrite drop_0. replace (length ds - 0)%nat with (length ds) by lia.
      rewrite firstn_all. destruct ds; [done|]. rewrite decide_True by (simpl; lia). done.
    + by destruct ds.
    + by apply Forall_take.
    + by apply Forall_drop.
    + simpl. unfold sgn. case_decide as Hs.
      * rewrite (str_parse_minus _ _ _ _ Hen Hev) by (unfold I32_MIN, I32_MAX; lia).
        f_equal. unfold X. lia.
      * rewrite (str_parse_plus _ _ _ _ Hen Hev) by (unfold I32_MIN, I32_MAX; lia).
        f_equal. unfold X. lia.
    + simpl. constructor; [done|]. constructor; [by unfold sgn; case_decide|].
      eapply Forall_impl; [exact Hed|]. intros b Hb ->. done.
    + by rewrite take_drop.
    + rewrite length_drop. destruct ds; simpl; [done|]. lia.
Qed.

(** ** From ryu's text to Redis's *)

Lemma shape_text s neg ip fp ex x :
  ryu_shape s neg ip fp ex x →
  s = (if neg then ["-"%byte] else []) ++ mant ip fp ++ exp_part ex.
Proof. intros []. rewrite rs_text0. unfold mant. by rewrite <- !app_assoc. Qed.

Lemma shape_exp s neg ip fp ex x : ryu_shape s neg ip fp ex x → exp_value ex x.
Proof. intros [_ _ _ Hex _ _ _]. destruct ex; [by destruct Hex|done]. Qed.

Lemma trim_start0_not_zero s : trim_start0 s ≠ ["0"%byte].
Proof. induction s as [|c s IH]; simpl; [done|]. case_decide; [done|]. by intros [= -> ->]. Qed.

Lemma decompose_shape s neg ip fp ex x :
  ryu_shape s neg ip fp ex x →
  let ts := trim_start0 (ip ++ fp) in
  decompose_ryu s =
    (neg, trim_end0 ts, x - Z.of_nat (length fp) + Z.of_nat (length ts - length (trim_end0 ts))).
Proof.
  intros Hs. pose proof (shape_text _ _ _ _ _ _ Hs) as ->. pose proof (shape_exp _ _ _ _ _ _ Hs) as Hx.
  destruct Hs as [_ [Hne Hi] Hf _ Hnz _ _]. unfold decompose_ryu.
  assert (bool_decide (head ((if neg then ["-"%byte] else []) ++ mant ip fp ++ exp_part ex) =
    Some "-"%byte) = neg) as ->.
  { destruct neg; [done|]. simpl. unfold mant. rewrite <- app_assoc. by apply digit_head_not_minus. }
  replace (if neg then tail ((if neg then ["-"%byte] else []) ++ mant ip fp ++ exp_part ex)
    else (if neg then ["-"%byte] else []) ++ mant ip fp ++ exp_part ex)
    with (mant ip fp ++ exp_part ex) by (by destruct neg).
  change (λ c, bool_decide (c = "e"%byte ∨ c = "E"%byte)) with is_exp.
  change (λ c, bool_decide (c = "."%byte)) with is_point.
  pose proof (split_exp ip fp ex x Hi Hf Hx) as Hsp.
  assert (match split_once is_exp (mant ip fp ++ exp_part ex) with
    | Some (m, e) => (m, default 0 (str_parse I32_MIN I32_MAX e))
    | None => (mant ip fp ++ exp_part ex, 0)
    end = (mant ip fp, x)) as ->.
  { destruct (split_once _ _) as [[m e]|]; [|by injection Hsp as -> ->].
    destruct (str_parse _ _ e) eqn:E; simplify_eq/=. done. }
  rewrite (split_mant ip fp) by done.
  assert (match trim_start0 (ip ++ fp) with [] => ["0"%byte] | _ => trim_start0 (ip ++ fp) end =
    trim_start0 (ip ++ fp)) as ->.
  { by destruct (trim_start0 _). }
  rewrite decide_True; [done|apply trim_start0_not_zero].
Qed.

(** The digits [decompose_ryu] keeps, and the value they had. *)
Lemma shape_digits s neg ip fp ex x :
  ryu_shape s neg ip fp ex x →
  let ts := trim_start0 (ip ++ fp) in
  ∃ D, trim_end0 ts ≠ [] ∧ all_digits (trim_end0 ts) ∧ digits_value 0 (trim_end0 ts) = Some D ∧
    (length (trim_end0 ts) ≤ length ts)%nat ∧
    digits_value 0 (ip ++ fp) = Some (D * 10 ^ Z.of_nat (length ts - length (trim_end0 ts))).
Proof.
  intros [_ [Hne Hi] Hf _ Hnz _ _] ts.
  destruct (trim_start0_split (ip ++ fp)) as [n0 Hn0]. destruct (trim_end0_split ts) as [n Hn].
  assert (all_digits ts) as Hts.
  { assert (all_digits (ip ++ fp)) as H by (by apply all_digits_app).
    rewrite Hn0 in H. by apply all_digits_app in H as [_ ?]. }
  rewrite Hn in Hts. apply all_digits_app in Hts as [Hte _].
  destruct (digits_value_total 0 _ Hte) as [D HD]. exists D.
  assert (length ts = length (trim_end0 ts) + n)%nat as Hl
    by (rewrite Hn at 1; by rewrite length_app, length_replicate).
  split_and!; [|done..|lia|].
  - intros E. rewrite E in HD, Hl, Hn. simpl in Hn. unfold ts in Hn.
    destruct n as [|n]; [done|]. simpl in Hn.
    pose proof (trim_start0_split (ip ++ fp)). clear -Hn.
    assert (∀ l r, trim_start0 l = "0"%byte :: r → False) as Hno.
    { induction l as [|c l IH]; simpl; intros r; [done|]. case_decide; [apply IH|]. by intros [= -> _]. }
    by apply Hno in Hn.
  - rewrite <- digits_value_trim. fold ts. rewrite Hn at 1. rewrite digits_value_app, HD. simpl.
    rewrite digits_value_zeros. repeat f_equal. lia.
Qed.

Section format.
Context (ryu : f64 → list byte).

(** The text of a finite double. *)
Lemma format_double_text s m e neg ip fp ex x :
  ryu_shape (ryu (S754_finite s m e)) neg ip fp ex x →
  ∃ ip' fp' ex' x' v j D,
    format_double ryu (S754_finite s m e) =
      (if neg then ["-"%byte] else []) ++ mant ip' fp' ++ exp_part ex' ∧
    ip' ≠ [] ∧ all_digits ip' ∧ all_digits fp' ∧ exp_value ex' x' ∧
    Forall (λ b, b ≠ CR) (exp_part ex') ∧ digits_value 0 (ip' ++ fp') = Some v ∧ 0 ≤ j ∧
    v = D * 10 ^ j ∧
    ∃ n : nat, digits_value 0 (ip ++ fp) = Some (D * 10 ^ Z.of_nat n) ∧
      x' - Z.of_nat (length fp') = x - Z.of_nat (length fp) + Z.of_nat n - j.
Proof.
  intros Hs. pose proof (decompose_shape _ _ _ _ _ _ Hs) as Hd.
  destruct (shape_digits _ _ _ _ _ _ Hs) as (D&Hne&Hall&HD&Hle&Hval). simpl in Hd.
  set (ts := trim_start0 (ip ++ fp)) in *.
  destruct Hs as [_ _ _ _ _ Hlen Hrange]. fold ts in Hlen, Hrange.
  destruct (emit_digits_text (trim_end0 ts)
    (x - Z.of_nat (length fp) + Z.of_nat (length ts - length (trim_end0 ts))) neg D)
    as (ip'&fp'&ex'&x'&v&j&Htext&?&?&?&?&?&?&?&?&?); [done..| |].
  { replace (_ + _ - 1) with (x - Z.of_nat (length fp) + Z.of_nat (length ts) - 1) by lia. done. }
  exists ip', fp', ex', x', v, j, D. split_and!; try done.
  - unfold format_double. rewrite Hd, Htext. by destruct neg.
  - exists (length ts - length (trim_end0 ts))%nat. split; [done|lia].
Qed.

Lemma format_double_no_CR d :
  (∀ s m e, ryu_text (ryu (S754_finite s m e))) → CR ∉ format_double ryu d.
Proof.
  intros Hryu. assert (∀ l, Forall (λ b, b ≠ CR) l → CR ∉ l) as Hno.
  { intros l Hl Hin. by eapply Forall_forall in Hl. }
  apply Hno. destruct d as [[]|[]| |s m e]; [by repeat constructor..|].
  destruct (Hryu s m e) as (neg&ip&fp&ex&x&Hs).
  destruct (format_double_text _ _ _ _ _ _ _ _ Hs)
    as (ip'&fp'&ex'&x'&v&j&D&->&_&Hi&Hf&_&He&_).
  assert (∀ l, all_digits l → Forall (λ b, b ≠ CR) l) as Hdig.
  { intros l Hl. eapply Forall_impl; [exact Hl|]. by intros b Hb ->. }
  apply Forall_app. split; [destruct neg; by repeat constructor|].
  apply Forall_app. split; [|done]. unfold mant. apply Forall_app. split; [by apply Hdig|].
  destruct fp'; [done|]. constructor; [done|]. by apply Hdig.
Qed.

(** Doubles keep their value : for a finite double and a [ryu] text of the
    documented shape, the text the serializer prints denotes the same number. *)
Theorem format_double_same_number s m e :
  ryu_text (ryu (S754_finite s m e)) →
  ∃ a b, decimal (ryu (S754_finite s m e)) = Some a ∧
    decimal (format_double ryu (S754_finite s m e)) = Some b ∧ same_number a b.
Proof.
  intros (neg&ip&fp&ex&x&Hs). pose proof (shape_exp _ _ _ _ _ _ Hs) as Hx.
  destruct (format_double_text _ _ _ _ _ _ _ _ Hs)
    as (ip'&fp'&ex'&x'&v&j&D&->&Hne'&Hi'&Hf'&Hx'&_&Hv'&Hj&->&n&Hv&He).
  rewrite (shape_text _ _ _ _ _ _ Hs). destruct Hs as [_ [Hne Hi] Hf _ _ _ _].
  rewrite (decimal_text neg ip fp ex x _ Hne Hi Hf Hx Hv).
  rewrite (decimal_text neg ip' fp' ex' x' _ Hne' Hi' Hf' Hx' Hv').
  eexists _, _. split; [done|]. split; [done|]. unfold same_number.
  exists (x - Z.of_nat (length fp) - j). split_and!; [lia..|].
  replace (x - Z.of_nat (length fp) - (x - Z.of_nat (length fp) - j)) with j by lia.
  replace (x' - Z.of_nat (length fp') - (x - Z.of_nat (length fp) - j)) with (Z.of_nat n) by lia.
  destruct neg; lia.
Qed.

End format.
