(* ===== verification/Resp3.v ===== *)
(** * RESP3 replies read by the grammar

    A reader written from the RESP3 grammar, independent of the serializer, and
    the theorem that it reads back every reply the serializer writes for a RESP3
    connection. *)

From Stdlib Require Import Lia ZArith NArith.
From Stdlib Require Import SpecFloat.
From S2P Require Import Prelude Resp RespReply RespReplyProofs RespEncodeProofs RespDouble.

(** ** The reader *)

(** A RESP3 reply as a tree; [WAggregate] carries the aggregate's marker and its
    elements, for a map keys and values alternating. *)
Inductive Wire :=
  | WLine (marker : byte) (body : list byte)
  | WInt (n : Z)
  | WNull
  | WBool (b : bool)
  | WBlob (marker : byte) (body : list byte)
  | WAggregate (marker : byte) (items : list Wire).

(** The bytes up to the first CRLF, and those after it. *)
Fixpoint take_line (buf : list byte) : option (list byte * list byte) :=
  match buf with
  | c :: (d :: rest) as tl =>
      if decide (c = CR ∧ d = LF) then Some ([], rest)
      else '(l, r) ← take_line tl; Some (c :: l, r)
  | _ => None
  end.

Fixpoint read_items (read : list byte → option (Wire * list byte)) (n : nat) (buf : list byte)
    : option (list Wire * list byte) :=
  match n with
  | O => Some ([], buf)
  | S n => '(w, rest) ← read buf; '(ws, rest') ← read_items read n rest; Some (w :: ws, rest')
  end.

(** [n] bytes followed by CRLF. *)
Definition take_blob (n : nat) (buf : list byte) : option (list byte * list byte) :=
  if decide (length buf < n + 2) then None
  else if decide (take 2 (drop n buf) = CRLF) then Some (take n buf, drop (n + 2) buf) else None.

Definition is_line_marker (m : byte) : Prop :=
  m = "+"%byte ∨ m = "-"%byte ∨ m = ","%byte ∨ m = "("%byte.

Definition is_blob_marker (m : byte) : Prop := m = "$"%byte ∨ m = "!"%byte ∨ m = "="%byte.

#[export] Instance is_line_marker_dec m : Decision (is_line_marker m).
Proof. unfold is_line_marker. apply _. Defined.

#[export] Instance is_blob_marker_dec m : Decision (is_blob_marker m).
Proof. unfold is_blob_marker. apply _. Defined.

(** How many elements an aggregate with header count [n] has. *)
Definition arity (m : byte) (n : nat) : option nat :=
  if decide (m = "*"%byte ∨ m = "~"%byte ∨ m = ">"%byte) then Some n
  else if decide (m = "%"%byte) then Some (n * 2)
  else None.

Definition read_number (l : list byte) : option Z := str_parse I64_MIN I64_MAX l.

(** One reply, nested at most [levels] deep. *)
Fixpoint read_wire (levels : nat) (buf : list byte) : option (Wire * list byte) :=
  match levels, buf with
  | S levels, m :: buf =>
      '(l, rest) ← take_line buf;
      if decide (is_line_marker m) then Some (WLine m l, rest)
      else if decide (m = ":"%byte) then n ← read_number l; Some (WInt n, rest)
      else if decide (m = "_"%byte) then (if decide (l = []) then Some (WNull, rest) else None)
      else if decide (m = "#"%byte) then
        (if decide (l = str "t") then Some (WBool true, rest)
         else if decide (l = str "f") then Some (WBool false, rest) else None)
      else
        n ← read_number l;
        if decide (is_blob_marker m) then
          (if decide (n < 0)%Z then Some (WNull, rest)
           else '(body, rest') ← take_blob (Z.to_nat n) rest; Some (WBlob m body, rest'))
        else
          k ← arity m (Z.to_nat n);
          '(ws, rest') ← read_items (read_wire levels) k rest;
          Some (WAggregate m ws, rest')
  | _, _ => None
  end.

(** ** What a RESP3 client sees *)

Section resp3.
Context (ryu : f64 → list byte).

Fixpoint resp3_view (v : Value) : Wire :=
  match v with
  | SimpleString s => WLine "+"%byte (sanitize_line s)
  | Error e => WLine "-"%byte (error_text e)
  | Integer n => WInt n
  | BulkString (Some s) => WBlob "$"%byte s
  | BulkString None | Array None | Null => WNull
  | Array (Some items) => WAggregate "*"%byte (map resp3_view items)
  | Double d => WLine ","%byte (format_double ryu d)
  | Boolean b => WBool b
  | BigNumber s => WLine "("%byte (sanitize_line s)
  | BulkError e => WBlob "!"%byte (tail (line e))
  | VerbatimString (f0, f1, f2) data => WBlob "="%byte ([f0; f1; f2; ":"%byte] ++ data)
  | Map pairs =>
      WAggregate "%"%byte (concat (map (λ kv, [resp3_view kv.1; resp3_view kv.2]) pairs))
  | Pairs pairs =>
      WAggregate "*"%byte
        (map (λ ab, WAggregate "*"%byte [resp3_view ab.1; resp3_view ab.2]) pairs)
  | Set_ items => WAggregate "~"%byte (map resp3_view items)
  | Push items => WAggregate ">"%byte (map resp3_view items)
  end.

(** Lengths and counts are machine integers. *)
Definition small (n : nat) : Prop := (Z.of_nat n ≤ I64_MAX)%Z.

(** Values whose lengths and integers are [i64]s, nested at most [levels] deep. *)
Fixpoint fits3 (levels : nat) (v : Value) : Prop :=
  match levels with
  | O => False
  | S levels =>
      match v with
      | SimpleString _ | Error _ | BulkString None | Array None | Null | Boolean _ | Double _
      | BigNumber _ => True
      | Integer n => (I64_MIN ≤ n ≤ I64_MAX)%Z
      | BulkString (Some s) => small (length s)
      | BulkError e => small (length (line e))
      | VerbatimString _ s => small (4 + length s)
      | Array (Some items) | Set_ items | Push items =>
          small (length items) ∧ Forall (fits3 levels) items
      | Map pairs => small (length pairs) ∧ Forall (λ kv, fits3 levels kv.1 ∧ fits3 levels kv.2) pairs
      | Pairs pairs =>
          small (length pairs) ∧
          match levels with
          | O => pairs = []
          | S levels => Forall (λ kv, fits3 levels kv.1 ∧ fits3 levels kv.2) pairs
          end
      end
  end.

Definition reads3 (levels : nat) (enc : list byte) (w : Wire) : Prop :=
  ∀ post, read_wire levels (enc ++ post) = Some (w, post).

Lemma take_line_app l post : CR ∉ l → take_line (l ++ CRLF ++ post) = Some (l, post).
Proof.
  induction l as [|c l IH]; intros Hl; [done|].
  apply not_elem_of_cons in Hl as [Hc Hl]. specialize (IH Hl).
  destruct (l ++ CRLF ++ post) as [|d rest] eqn:E; [by destruct l|].
  change ((c :: l) ++ CRLF ++ post) with (c :: (l ++ CRLF ++ post)). rewrite E.
  change (take_line (c :: d :: rest)) with
    (if decide (c = CR ∧ d = LF) then Some ([], rest)
     else '(l, r) ← take_line (d :: rest); Some (c :: l, r)).
  rewrite decide_False by (intros [-> _]; done). by rewrite IH.
Qed.

Lemma take_blob_app body post : take_blob (length body) (body ++ CRLF ++ post) = Some (body, post).
Proof.
  unfold take_blob. rewrite decide_False by len.
  rewrite drop_app_length, decide_True by done. rewrite take_app_length. do 2 f_equal.
  rewrite <- drop_drop, drop_app_length. done.
Qed.

Ltac decide_marker :=
  repeat first
    [ rewrite decide_True by (solve [done | unfold is_line_marker, is_blob_marker; naive_solver])
    | rewrite decide_False by (solve [done | unfold is_line_marker, is_blob_marker; naive_solver]) ].

(** A marker, a line and the rest. *)
Lemma reads3_line levels m l :
  CR ∉ l → is_line_marker m → reads3 (S levels) (m :: l ++ CRLF) (WLine m l).
Proof.
  intros Hl Hm post. rewrite <- app_comm_cons, <- app_assoc. cbn [read_wire].
  rewrite take_line_app by done. cbn [mbind option_bind]. by rewrite decide_True.
Qed.

Lemma small_number n : small n →
  (CR ∉ put_i64 (Z.of_nat n)) ∧ read_number (put_i64 (Z.of_nat n)) = Some (Z.of_nat n).
Proof. apply put_i64_len_ok. Qed.

Lemma reads3_blob levels m body :
  small (length body) → is_blob_marker m →
  reads3 (S levels) (header m (length body) ++ body ++ CRLF) (WBlob m body).
Proof.
  intros Hs Hm post. destruct (small_number _ Hs) as [Hcr Hp]. unfold header.
  rewrite <- !app_assoc, <- app_comm_cons, <- !app_assoc. cbn [read_wire].
  rewrite take_line_app by done. cbn [mbind option_bind]. rewrite Hp. cbn [mbind option_bind].
  destruct Hm as [->|[->| ->]]; decide_marker; rewrite decide_False by lia;
    by rewrite Nat2Z.id, take_blob_app.
Qed.

Lemma read_items_app {A} levels (enc : A → list byte) (view : A → Wire) items post :
  Forall (λ v, reads3 levels (enc v) (view v)) items →
  read_items (read_wire levels) (length items) (concat (map enc items) ++ post) =
    Some (map view items, post).
Proof.
  induction 1 as [|v items Hv _ IH]; cbn [map concat length read_items]; [done|].
  rewrite <- app_assoc, Hv. simpl. by rewrite IH.
Qed.

Lemma reads3_aggregate {A} levels m (enc : A → list byte) (view : A → Wire) items n :
  small n → arity m n = Some (length items) →
  Forall (λ v, reads3 levels (enc v) (view v)) items →
  reads3 (S levels) (header m n ++ concat (map enc items)) (WAggregate m (map view items)).
Proof.
  intros Hs Ha Hall post. destruct (small_number _ Hs) as [Hcr Hp]. unfold header.
  rewrite <- !app_assoc, <- app_comm_cons, <- !app_assoc. cbn [read_wire].
  rewrite take_line_app by done. cbn [mbind option_bind]. rewrite Hp. cbn [mbind option_bind]. rewrite Nat2Z.id, Ha. cbn [mbind option_bind].
  rewrite (read_items_app levels enc view) by done.
  unfold arity in Ha.
  destruct (decide (m = "*"%byte ∨ m = "~"%byte ∨ m = ">"%byte)) as [[->|[->| ->]]|];
    [by decide_marker..|].
  destruct (decide (m = "%"%byte)) as [->|]; [by decide_marker|done].
Qed.

Lemma encode_resp3_reads (Hryu : ∀ s m e, ryu_text (ryu (S754_finite s m e))) levels v :
  fits3 levels v → reads3 levels (encode ryu v Resp3) (resp3_view v).
Proof.
  revert v. induction levels as [levels IH] using lt_wf_ind. destruct levels as [|levels]; intros v; [done|].
  assert (∀ m items, arity m (length items) = Some (length items) →
    small (length items) ∧ Forall (fits3 levels) items →
    reads3 (S levels) (header m (length items) ++ concat (map (λ i, encode ryu i Resp3) items))
      (WAggregate m (map resp3_view items))) as Hitems.
  { intros m items Ha [Hs Hall]. apply reads3_aggregate; [done..|].
    eapply Forall_impl; [exact Hall|]. apply IH. lia. }
  destruct v as [s|e|n|[s|]|[items|]| |d|[]|s|e|[[f0 f1] f2] data|pairs|pairs|items|items];
    cbn [fits3 encode resp3_view]; intros Hfit; try (by apply Hitems); try (by intros post).
  - apply reads3_line; [apply sanitize_no_CR|by left].
  - rewrite error_line_shape. apply reads3_line; [apply sanitize_no_CR|by right; left].
  - intros post. rewrite <- app_comm_cons, <- app_assoc. cbn [read_wire].
    rewrite take_line_app by (by apply i64_to_str_no_CR). simpl. decide_marker.
    unfold read_number. by rewrite str_parse_i64_to_str.
  - change (reads3 (S levels) (encode ryu (BulkString (Some s)) Resp3) (WBlob "$"%byte s)).
    rewrite <- encode_bulk_ref_encode. apply (reads3_blob levels "$"%byte s); [done|by left].
  - apply reads3_line; [by apply format_double_no_CR|by right; right; left].
  - apply reads3_line; [apply sanitize_no_CR|by right; right; right].
  - apply reads3_blob; [unfold small in *; simpl in *; lia|by right; left].
  - change (4 + length data) with (length ([f0; f1; f2; ":"%byte] ++ data)).
    rewrite (app_assoc [f0; f1; f2; ":"%byte]).
    apply reads3_blob; [done|by right; right].
  - destruct Hfit as [Hs Hall].
    rewrite (flat_concat (λ v, encode ryu v Resp3)), flat_map_view.
    apply reads3_aggregate; [done|by rewrite length_flat|].
    apply Forall_flat. eapply Forall_impl; [exact Hall|]. intros kv [??]. split; apply IH; by try lia.
  - destruct Hfit as [Hs Hall].
    apply (reads3_aggregate levels "*"%byte
      (λ ab : Value * Value, str "*2" ++ CRLF ++ encode ryu ab.1 Resp3 ++ encode ryu ab.2 Resp3)
      (λ ab : Value * Value, WAggregate "*"%byte [resp3_view ab.1; resp3_view ab.2])); [done..|].
    destruct levels as [|levels]; [by subst|].
    eapply Forall_impl; [exact Hall|]. intros [a b] [Ha Hb]. simpl.
    pose proof (reads3_aggregate levels "*"%byte (λ v, encode ryu v Resp3) resp3_view [a; b] 2) as Hp.
    simpl in Hp. rewrite app_nil_r in Hp. apply Hp; [done..|].
    repeat constructor; apply IH; by try lia.
Qed.


End resp3.
