(* ===== verification/RespScenarios.v ===== *)
(** * The wire format on concrete inputs

    Each general theorem about the RESP protocol applied to a concrete buffer or
    value. *)

From Stdlib Require Import Lia ZArith NArith.
From Stdlib Require Import SpecFloat.
From S2P Require Import Prelude Resp RespDecode RespDecodeProofs RespReply RespReplyProofs.
From S2P Require Import RespEncodeProofs RespDouble Resp3.

Definition ping : list byte := str "*1" ++ CRLF ++ str "$4" ++ CRLF ++ str "PING" ++ CRLF.

Definition small_limits : Limits := mkLimits 8 64 32.


Lemma decode_prefix_witness :
  decode position (take 14 (ping ++ str "junk") ++ str "QUIT") small_limits =
    Some (Complete [str "PING"] 14).
Proof.
  apply (decode_prefix position (λ _ _, eq_refl) (ping ++ str "junk") small_limits);
    [vm_compute; discriminate|vm_compute; reflexivity].
Defined.

Lemma decode_shared_decode_witness :
  decode_shared position (λ b s e, slice s e b) ping small_limits = decode position ping small_limits.
Proof.
  apply (decode_shared_decode position (λ _ _, eq_refl) (λ b s e, slice s e b) ping small_limits).
  reflexivity.
Defined.

Lemma encode_command_decode_witness :
  decode position (encode_command [str "CLUSTER"; str "MYID"] ++ str "*") small_limits =
    Some (Complete [str "CLUSTER"; str "MYID"] (length (encode_command [str "CLUSTER"; str "MYID"]))).
Proof.
  apply (encode_command_decode position (λ _ _, eq_refl) [str "CLUSTER"; str "MYID"] small_limits (str "*"));
    [discriminate|vm_compute; discriminate|repeat constructor; vm_compute; discriminate
    |vm_compute; split; discriminate].
Defined.

Lemma quoted_line_decode_witness :
  decode position (quoted_line [str "SET"; [DQUOTE; CR]; []] ++ CRLF ++ ping) small_limits =
    Some (Complete [str "SET"; [DQUOTE; CR]; []] (length (quoted_line [str "SET"; [DQUOTE; CR]; []]) + 2)).
Proof.
  apply (quoted_line_decode position (λ _ _, eq_refl) [str "SET"; [DQUOTE; CR]; []] small_limits ping);
    [discriminate| |vm_compute; repeat constructor].
  apply (bool_decide_unpack _). vm_compute. exact I.
Defined.

(** A printer that gives the same short text for every number. *)
Definition const_ryu (_ : f64) : list byte := str "1.5e-7".

Definition reply : Value :=
  Map [(SimpleString (str "a" ++ CRLF), Array (Some [Integer (-7); Null; Boolean true]));
       (BulkString (Some CRLF), Double (S754_finite false 3 (-1)))].

Lemma reply_fits : fits const_ryu 3 reply.
Proof.
  split; [done|]. apply Forall_cons_2; [|apply Forall_cons_2; [|apply Forall_nil_2]].
  - split; [exact I|]. split; [done|].
    apply Forall_cons_2; [done|]. apply Forall_cons_2; [exact I|].
    apply Forall_cons_2; [exact I|apply Forall_nil_2].
  - split; done.
Qed.

Lemma reply_fits3 : fits3 3 reply.
Proof.
  split; [done|]. apply Forall_cons_2; [|apply Forall_cons_2; [|apply Forall_nil_2]].
  - split; [exact I|]. split; [done|].
    apply Forall_cons_2; [done|]. apply Forall_cons_2; [exact I|].
    apply Forall_cons_2; [exact I|apply Forall_nil_2].
  - split; done.
Qed.

Lemma resp2_reply_roundtrip_witness :
  parse_reply (encode const_ryu reply Resp2 ++ str "+") =
    PDone (resp2_view const_ryu reply) (length (encode const_ryu reply Resp2)).
Proof.
  apply (resp2_reply_roundtrip const_ryu reply (str "+")).
  apply (fits_le const_ryu 3); [unfold MAX_DEPTH; lia|exact reply_fits].
Defined.

Lemma const_ryu_text d : ryu_text (const_ryu d).
Proof.
  exists false, (str "1"), (str "5"), (Some (str "-7")), (-7)%Z.
  split; try (vm_compute; (reflexivity || discriminate)).
  - split; [discriminate|]. by repeat constructor.
  - by repeat constructor.
  - split; [vm_compute; reflexivity|].
    apply Forall_cons_2; [by right|]. apply Forall_cons_2; [by left|apply Forall_nil_2].
  - vm_compute. repeat constructor.
Qed.


Lemma format_double_same_number_witness :
  ∃ a b, decimal (const_ryu (S754_finite false 3 (-1))) = Some a ∧
    decimal (format_double const_ryu (S754_finite false 3 (-1))) = Some b ∧ same_number a b.
Proof. apply (format_double_same_number const_ryu false 3 (-1)), const_ryu_text. Defined.
