(* ===== verification/RaftCodec.v ===== *)
(** * The binary codec of the Raft adapter (crates/ironcache-raft-net/src/codec.rs
    and the record bodies of storage.rs)

    Messages between nodes and records on disk share one layout: little-endian
    integers, length-prefixed blobs and a discriminant byte per variant.  The
    writers append to a buffer; the readers are the code's [Cursor], a step over
    the bytes left.  storage.rs carries its own copies of the entry, payload and
    command codecs with the same layout. *)

From Stdlib Require Import Lia ZArith NArith.
From S2P Require Import Prelude Env RaftTypes.
From stdpp Require Import strings.

(** ** Writers *)

Definition put_u8 (v : N) : list byte := [byte_of_N v].
Definition put_u16 (v : N) : list byte := to_le_bytes 2 v.
Definition put_u64 (v : N) : list byte := to_le_bytes 8 v.
Definition put_node (id : NodeId) : list byte := put_u64 id.
Definition put_bool (b : bool) : list byte := put_u8 (if b then 1 else 0).
Definition put_len {A} (l : list A) : list byte := put_u64 (N.of_nat (length l)).
Definition put_blob (bytes : list byte) : list byte := put_len bytes ++ bytes.
Definition put_str (s : string) : list byte := put_blob (String.list_byte_of_string s).
Definition put_slots (slots : list N) : list byte := put_len slots ++ concat (map put_u16 slots).

Definition put_node_set (set : gset NodeId) : list byte :=
  let ids := btree_iter set in put_len ids ++ concat (map put_node ids).

Definition put_membership (change : MembershipChange) : list byte :=
  match change with
  | AddVoter n => put_u8 0 ++ put_node n
  | RemoveVoter n => put_u8 1 ++ put_node n
  | AddLearner n => put_u8 2 ++ put_node n
  | PromoteLearner n => put_u8 3 ++ put_node n
  | RemoveLearner n => put_u8 4 ++ put_node n
  end.

Definition put_config (cmd : ConfigCmd) : list byte :=
  match cmd with
  | AddNode id host port => put_u8 0 ++ put_str id ++ put_str host ++ put_u16 port
  | RemoveNode id => put_u8 1 ++ put_str id
  | SetSlotOwner slot node => put_u8 2 ++ put_u16 slot ++ put_str node
  | AssignSlots node slots => put_u8 3 ++ put_str node ++ put_slots slots
  | UnassignSlots slots => put_u8 10 ++ put_slots slots
  | SetConfigEpoch epoch => put_u8 4 ++ put_u64 epoch
  | AssignReplica node slots => put_u8 5 ++ put_str node ++ put_slots slots
  | PromoteReplica slots new_primary => put_u8 6 ++ put_slots slots ++ put_str new_primary
  | SetSlotMigrating slot dest => put_u8 7 ++ put_u16 slot ++ put_str dest
  | SetSlotImporting slot src dest => put_u8 8 ++ put_u16 slot ++ put_str src ++ put_str dest
  | SetSlotStable slot => put_u8 9 ++ put_u16 slot
  end.

Definition put_payload (p : EntryPayload) : list byte :=
  match p with
  | Noop => put_u8 0
  | Bytes bytes => put_u8 1 ++ put_blob bytes
  | Config cmd => put_u8 2 ++ put_config cmd
  | ConfigChange change => put_u8 3 ++ put_membership change
  end.

Definition put_entry (e : LogEntry) : list byte :=
  put_u64 (e_term e) ++ put_u64 (e_index e) ++ put_payload (e_payload e).

Definition encode_raft_msg (msg : RaftMsg) : list byte :=
  match msg with
  | RequestVote term candidate last_log_index last_log_term =>
      put_u8 1 ++ put_u64 term ++ put_node candidate ++ put_u64 last_log_index ++ put_u64 last_log_term
  | RequestVoteResp term vote_granted => put_u8 2 ++ put_u64 term ++ put_bool vote_granted
  | PreVote term candidate last_log_index last_log_term =>
      put_u8 10 ++ put_u64 term ++ put_node candidate ++ put_u64 last_log_index ++ put_u64 last_log_term
  | PreVoteResp term vote_granted => put_u8 11 ++ put_u64 term ++ put_bool vote_granted
  | AppendEntries term leader prev_log_index prev_log_term entries leader_commit =>
      put_u8 3 ++ put_u64 term ++ put_node leader ++ put_u64 prev_log_index ++
      put_u64 prev_log_term ++ put_u64 leader_commit ++ put_len entries ++
      concat (map put_entry entries)
  | AppendEntriesResp term success match_index =>
      put_u8 4 ++ put_u64 term ++ put_bool success ++ put_u64 match_index
  | Propose payload => put_u8 5 ++ put_payload payload
  | ForwardPropose corr payload => put_u8 6 ++ put_u64 corr ++ put_payload payload
  | ForwardProposeResult corr outcome =>
      put_u8 7 ++ put_u64 corr ++
      match outcome with
      | Some index => put_u8 1 ++ put_u64 index
      | None => put_u8 0 ++ put_u64 0
      end
  | InstallSnapshot term leader_id last_included_index last_included_term offset data done
      voters learners =>
      put_u8 8 ++ put_u64 term ++ put_node leader_id ++ put_u64 last_included_index ++
      put_u64 last_included_term ++ put_u64 offset ++ put_blob data ++ put_bool done ++
      put_node_set voters ++ put_node_set learners
  | InstallSnapshotResp term last_included_index installed next_offset =>
      put_u8 9 ++ put_u64 term ++ put_u64 last_included_index ++ put_bool installed ++
      put_u64 next_offset
  end.

(** ** The cursor *)

Definition reader (A : Type) : Type := step (list byte) A.

(** [return None], and a [?] on it. *)
Definition reject {A} : reader A := panic.

Definition cur_take (n : N) : reader (list byte) := λ buf,
  if decide (N.of_nat (length buf) < n)%N then None
  else Some (take (N.to_nat n) buf, drop (N.to_nat n) buf).

Definition cur_le (w : N) : reader N := bs ← cur_take w; mret (from_le_bytes bs).
Definition cur_u8 : reader N := cur_le 1.
Definition cur_u16 : reader N := cur_le 2.
Definition cur_u64 : reader N := cur_le 8.
Definition cur_node : reader NodeId := cur_u64.
Definition cur_bool : reader bool := b ← cur_u8; mret (negb (b =? 0)%N).
Definition cur_blob : reader (list byte) := len ← cur_u64; cur_take len.

Definition cont (b : byte) : bool := (128 <=? Byte.to_N b)%N && (Byte.to_N b <=? 191)%N.
Definition within (b : byte) (lo hi : N) : bool := (lo <=? Byte.to_N b)%N && (Byte.to_N b <=? hi)%N.

(** [String::from_utf8]: the well-formed sequences of the Unicode standard. *)
Fixpoint utf8_valid (s : list byte) : bool :=
  match s with
  | [] => true
  | a :: s1 =>
      if within a 0 127 then utf8_valid s1 else
      match s1 with
      | b :: s2 =>
          if within a 194 223 then cont b && utf8_valid s2 else
          match s2 with
          | c :: s3 =>
              if within a 224 224 then within b 160 191 && cont c && utf8_valid s3
              else if within a 225 236 || within a 238 239 then cont b && cont c && utf8_valid s3
              else if within a 237 237 then within b 128 159 && cont c && utf8_valid s3
              else
                match s3 with
                | d :: s4 =>
                    if within a 240 240 then within b 144 191 && cont c && cont d && utf8_valid s4
                    else if within a 241 243 then cont b && cont c && cont d && utf8_valid s4
                    else if within a 244 244 then within b 128 143 && cont c && cont d && utf8_valid s4
                    else false
                | [] => false
                end
          | [] => false
          end
      | [] => false
      end
  end.

Definition cur_string : reader string :=
  b ← cur_blob;
  if utf8_valid b then mret (String.string_of_list_byte b) else reject.

(** [for _ in 0..count { v.push(p()?) }]: every element takes at least a byte,
    so the bytes left bound the rounds. *)
Fixpoint cur_repeat {A} (p : reader A) (fuel : nat) (count : N) (acc : list A) : reader (list A) :=
  if decide (count = 0)%N then mret acc else
  match fuel with
  | O => reject
  | S fuel => x ← p; cur_repeat p fuel (count - 1) (acc ++ [x])
  end.

Definition cur_list {A} (p : reader A) : reader (list A) :=
  count ← cur_u64;
  fuel ← gets length;
  cur_repeat p fuel count [].

Definition get_slots : reader (list N) := cur_list cur_u16.

Definition get_node_set : reader (gset NodeId) := ids ← cur_list cur_node; mret (list_to_set ids).

Definition get_membership : reader MembershipChange :=
  tag ← cur_u8;
  match tag with
  | 0 => n ← cur_node; mret (AddVoter n)
  | 1 => n ← cur_node; mret (RemoveVoter n)
  | 2 => n ← cur_node; mret (AddLearner n)
  | 3 => n ← cur_node; mret (PromoteLearner n)
  | 4 => n ← cur_node; mret (RemoveLearner n)
  | _ => reject
  end%N.

Definition get_config : reader ConfigCmd :=
  tag ← cur_u8;
  match tag with
  | 0 => id ← cur_string; host ← cur_string; port ← cur_u16; mret (AddNode id host port)
  | 1 => id ← cur_string; mret (RemoveNode id)
  | 2 => slot ← cur_u16; node ← cur_string; mret (SetSlotOwner slot node)
  | 3 => node ← cur_string; slots ← get_slots; mret (AssignSlots node slots)
  | 4 => epoch ← cur_u64; mret (SetConfigEpoch epoch)
  | 10 => slots ← get_slots; mret (UnassignSlots slots)
  | 5 => node ← cur_string; slots ← get_slots; mret (AssignReplica node slots)
  | 6 => slots ← get_slots; new_primary ← cur_string; mret (PromoteReplica slots new_primary)
  | 7 => slot ← cur_u16; dest ← cur_string; mret (SetSlotMigrating slot dest)
  | 8 => slot ← cur_u16; src ← cur_string; dest ← cur_string; mret (SetSlotImporting slot src dest)
  | 9 => slot ← cur_u16; mret (SetSlotStable slot)
  | _ => reject
  end%N.

Definition get_payload : reader EntryPayload :=
  tag ← cur_u8;
  match tag with
  | 0 => mret Noop
  | 1 => b ← cur_blob; mret (Bytes b)
  | 2 => c ← get_config; mret (Config c)
  | 3 => c ← get_membership; mret (ConfigChange c)
  | _ => reject
  end%N.

Definition get_entry : reader LogEntry :=
  term ← cur_u64; index ← cur_u64; payload ← get_payload; mret (mkEntry term index payload).

Definition get_msg : reader RaftMsg :=
  tag ← cur_u8;
  match tag with
  | 1 => t ← cur_u64; c ← cur_node; i ← cur_u64; lt ← cur_u64; mret (RequestVote t c i lt)
  | 2 => t ← cur_u64; g ← cur_bool; mret (RequestVoteResp t g)
  | 10 => t ← cur_u64; c ← cur_node; i ← cur_u64; lt ← cur_u64; mret (PreVote t c i lt)
  | 11 => t ← cur_u64; g ← cur_bool; mret (PreVoteResp t g)
  | 3 => t ← cur_u64; l ← cur_node; pi ← cur_u64; pt ← cur_u64; lc ← cur_u64;
         es ← cur_list get_entry; mret (AppendEntries t l pi pt es lc)
  | 4 => t ← cur_u64; s ← cur_bool; mi ← cur_u64; mret (AppendEntriesResp t s mi)
  | 5 => p ← get_payload; mret (Propose p)
  | 6 => c ← cur_u64; p ← get_payload; mret (ForwardPropose c p)
  | 7 => c ← cur_u64; present ← cur_bool; index ← cur_u64;
         mret (ForwardProposeResult c (if (present : bool) then Some index else None))
  | 8 => t ← cur_u64; l ← cur_node; i ← cur_u64; lt ← cur_u64; off ← cur_u64; d ← cur_blob;
         dn ← cur_bool; vs ← get_node_set; ls ← get_node_set;
         mret (InstallSnapshot t l i lt off d dn vs ls)
  | 9 => t ← cur_u64; i ← cur_u64; inst ← cur_bool; no ← cur_u64;
         mret (InstallSnapshotResp t i inst no)
  | _ => reject
  end%N.

(** A whole frame: nothing may be left over. *)
Definition whole {A} (p : reader A) (buf : list byte) : option A :=
  match p buf with
  | Some (x, []) => Some x
  | _ => None
  end.

Definition decode_raft_msg (buf : list byte) : option RaftMsg := whole get_msg buf.
