(* ===== verification/RaftCodecProofs.v ===== *)
(** * The binary codec: round trips and framing

    Every message a node can hold is read back exactly, and no frame that is
    cut short or followed by other bytes is taken for a message. *)

From Stdlib Require Import Lia ZArith NArith.
From S2P Require Import Prelude Env RaftTypes RaftCodec.
From stdpp Require Import strings.

(** ** Values that fit their Rust types *)

Definition u16 (n : N) : Prop := (n < 65536)%N.
Definition u64 (n : N) : Prop := (n ≤ U64_MAX)%N.
Definition vec {A} (l : list A) : Prop := u64 (N.of_nat (length l)).
Definition rust_string (s : string) : Prop :=
  vec (String.list_byte_of_string s) ∧ utf8_valid (String.list_byte_of_string s) = true.
Definition node_set (X : gset NodeId) : Prop := vec (btree_iter X) ∧ set_Forall u64 X.
Definition slots_wf (l : list N) : Prop := vec l ∧ Forall u16 l.

Definition membership_wf (ch : MembershipChange) : Prop :=
  match ch with
  | AddVoter n | RemoveVoter n | AddLearner n | PromoteLearner n | RemoveLearner n => u64 n
  end.

Definition config_wf (cmd : ConfigCmd) : Prop :=
  match cmd with
  | AddNode id host port => rust_string id ∧ rust_string host ∧ u16 port
  | RemoveNode id => rust_string id
  | SetSlotOwner slot node => u16 slot ∧ rust_string node
  | AssignSlots node slots | AssignReplica node slots | PromoteReplica slots node =>
      rust_string node ∧ slots_wf slots
  | UnassignSlots slots => slots_wf slots
  | SetConfigEpoch epoch => u64 epoch
  | SetSlotMigrating slot dest => u16 slot ∧ rust_string dest
  | SetSlotImporting slot src dest => u16 slot ∧ rust_string src ∧ rust_string dest
  | SetSlotStable slot => u16 slot
  end.

Definition payload_wf (p : EntryPayload) : Prop :=
  match p with
  | Noop => True
  | Bytes b => vec b
  | Config c => config_wf c
  | ConfigChange ch => membership_wf ch
  end.

Definition entry_wf (e : LogEntry) : Prop :=
  u64 (e_term e) ∧ u64 (e_index e) ∧ payload_wf (e_payload e).

Definition msg_wf (m : RaftMsg) : Prop :=
  match m with
  | RequestVote t c i lt | PreVote t c i lt => u64 t ∧ u64 c ∧ u64 i ∧ u64 lt
  | RequestVoteResp t _ | PreVoteResp t _ => u64 t
  | AppendEntries t l pi pt es lc =>
      u64 t ∧ u64 l ∧ u64 pi ∧ u64 pt ∧ u64 lc ∧ vec es ∧ Forall entry_wf es
  | AppendEntriesResp t _ mi => u64 t ∧ u64 mi
  | Propose p => payload_wf p
  | ForwardPropose c p => u64 c ∧ payload_wf p
  | ForwardProposeResult c o => u64 c ∧ match o with Some i => u64 i | None => True end
  | InstallSnapshot t l i lt off d _ vs ls =>
      u64 t ∧ u64 l ∧ u64 i ∧ u64 lt ∧ u64 off ∧ vec d ∧ node_set vs ∧ node_set ls
  | InstallSnapshotResp t i _ no => u64 t ∧ u64 i ∧ u64 no
  end.

(** ** Reading back what was written

    [reads p e x]: from any buffer that starts with [e] the reader takes [e]
    off and returns [x]. *)

Definition reads {A} (p : reader A) (e : list byte) (x : A) : Prop :=
  ∀ rest, p (e ++ rest) = Some (x, rest).

Lemma reads_ret {A} (x : A) : reads (mret x) [] x.
Proof. done. Qed.

Lemma reads_bind {A B} (p : reader A) (k : A → reader B) e1 e2 x y :
  reads p e1 x → reads (k x) e2 y → reads (p ≫= k) (e1 ++ e2) y.
Proof.
  intros Hp Hk rest. rewrite <- (assoc_L (++)). unfold mbind, step_bind. by rewrite Hp, Hk.
Qed.

Lemma reads_map {A B} (p : reader A) (f : A → B) e x :
  reads p e x → reads (y ← p; mret (f y)) e (f x).
Proof.
  intros Hp. rewrite <- (app_nil_r e). eapply reads_bind; [done|apply reads_ret].
Qed.

Lemma reads_last {A B} (p : reader A) (f : A → B) e x y :
  reads p e x → f x = y → reads (y ← p; mret (f y)) e y.
Proof. intros ? <-. by apply reads_map. Qed.

Lemma reads_take bs n : n = N.of_nat (length bs) → reads (cur_take n) bs bs.
Proof.
  intros -> rest. unfold cur_take. rewrite decide_False by (rewrite length_app; lia).
  by rewrite Nat2N.id, take_app_length, drop_app_length.
Qed.

Lemma reads_le w n : (n < 256 ^ N.of_nat w)%N → reads (cur_le (N.of_nat w)) (to_le_bytes w n) n.
Proof.
  intros. rewrite <- (from_to_le_bytes w n) at 2 by done.
  apply (reads_map (cur_take _) from_le_bytes), reads_take. by rewrite length_to_le_bytes.
Qed.

Lemma reads_u8 n : (n < 256)%N → reads cur_u8 (put_u8 n) n.
Proof. apply (reads_le 1). Qed.

Lemma reads_u16 n : u16 n → reads cur_u16 (put_u16 n) n.
Proof. apply (reads_le 2). Qed.

Lemma reads_u64 n : u64 n → reads cur_u64 (put_u64 n) n.
Proof. unfold u64, U64_MAX. intros. apply (reads_le 8). simpl. lia. Qed.

Lemma reads_bool b : reads cur_bool (put_bool b) b.
Proof.
  destruct b; [apply (reads_map cur_u8 (λ n, negb (n =? 0)%N) _ 1%N)|
    apply (reads_map cur_u8 (λ n, negb (n =? 0)%N) _ 0%N)]; by apply reads_u8.
Qed.

Lemma reads_blob b : vec b → reads cur_blob (put_blob b) b.
Proof. intros. eapply reads_bind; [by apply reads_u64|by apply reads_take]. Qed.

Lemma reads_string s : rust_string s → reads cur_string (put_str s) s.
Proof.
  intros [Hl Hu]. unfold put_str. rewrite <- (app_nil_r (put_blob _)).
  eapply reads_bind; [by apply reads_blob|]. cbv beta. rewrite Hu.
  rewrite String.string_of_list_byte_of_string. apply reads_ret.
Qed.

(** Each reader of the codec takes at least one byte per element. *)
Lemma reads_repeat {A} (p : reader A) (enc : A → list byte) l acc fuel :
  Forall (λ x, reads p (enc x) x) l → length l ≤ fuel →
  reads (cur_repeat p fuel (N.of_nat (length l)) acc) (concat (map enc l)) (acc ++ l).
Proof.
  intros Hl. revert acc fuel. induction Hl as [|x l Hx Hl IH]; intros acc fuel Hf; simpl length.
  - rewrite app_nil_r. destruct fuel; apply reads_ret.
  - destruct fuel as [|fuel]; simpl in Hf; [lia|]. cbn [cur_repeat map concat].
    rewrite decide_False by lia. eapply reads_bind; [done|].
    replace (N.of_nat (S (length l)) - 1)%N with (N.of_nat (length l)) by lia.
    replace (acc ++ x :: l) with ((acc ++ [x]) ++ l) by (by rewrite <- (assoc_L (++))).
    apply IH. lia.
Qed.

Lemma length_concat_ge {A} (enc : A → list byte) l :
  Forall (λ x, enc x ≠ []) l → length l ≤ length (concat (map enc l)).
Proof.
  induction 1 as [|x l Hx _ IH]; simpl; [lia|]. rewrite length_app.
  destruct (enc x); [done|]. simpl. lia.
Qed.

Lemma reads_list {A} (p : reader A) (enc : A → list byte) l :
  vec l → Forall (λ x, reads p (enc x) x) l → Forall (λ x, enc x ≠ []) l →
  reads (cur_list p) (put_len l ++ concat (map enc l)) l.
Proof.
  intros Hv Hl Hne. eapply reads_bind; [by apply reads_u64|]. intros rest.
  apply (reads_repeat p enc l []); [done|]. rewrite length_app.
  pose proof (length_concat_ge enc l Hne). lia.
Qed.

Lemma reads_slots l : slots_wf l → reads get_slots (put_slots l) l.
Proof.
  intros [Hv Hl]. apply reads_list; [done|..].
  - eapply Forall_impl; [done|]. apply reads_u16.
  - by apply Forall_true.
Qed.

Lemma list_to_set_btree_iter X : list_to_set (btree_iter X) = X.
Proof. apply set_eq. intros x. by rewrite elem_of_list_to_set, elem_of_btree_iter. Qed.

Lemma reads_node_set X : node_set X → reads get_node_set (put_node_set X) X.
Proof.
  intros [Hv HX]. rewrite <- (list_to_set_btree_iter X) at 2.
  apply (reads_map (cur_list cur_node) list_to_set), reads_list; [done|..].
  - apply Forall_forall. intros x Hx. apply reads_u64, HX. by apply elem_of_btree_iter.
  - by apply Forall_true.
Qed.

Create HintDb codec.
#[export] Hint Resolve reads_u16 reads_u64 reads_bool reads_blob reads_string
  reads_slots reads_node_set : codec.

(** A variant is its tag byte and its fields in order. *)
Ltac reads_tag := eapply reads_bind; [by apply reads_u8|]; cbv beta iota.

Ltac reads_fields :=
  first
    [ apply reads_ret
    | solve [eauto with codec]
    | eapply reads_last; [solve [eauto with codec]|done]
    | eapply reads_bind; [solve [eauto with codec]|]; reads_fields ].

Lemma reads_membership ch : membership_wf ch → reads get_membership (put_membership ch) ch.
Proof. intros Hw. destruct ch; simpl in Hw; reads_tag; reads_fields. Qed.

Lemma reads_config cmd : config_wf cmd → reads get_config (put_config cmd) cmd.
Proof. intros Hw. destruct cmd; simpl in Hw; destruct_and?; reads_tag; reads_fields. Qed.

#[export] Hint Resolve reads_membership reads_config : codec.

Lemma reads_payload p : payload_wf p → reads get_payload (put_payload p) p.
Proof.
  intros Hw. destruct p; simpl in Hw; [|reads_tag; reads_fields..].
  unfold put_payload. rewrite <- (app_nil_r (put_u8 0)). reads_tag. reads_fields.
Qed.

#[export] Hint Resolve reads_payload : codec.

Lemma reads_entry e : entry_wf e → reads get_entry (put_entry e) e.
Proof.
  destruct e as [t i p]. intros (Ht & Hi & Hp). unfold get_entry, put_entry.
  cbn [e_term e_index e_payload] in *.
  reads_fields.
Qed.

Lemma reads_entries es :
  vec es → Forall entry_wf es → reads (cur_list get_entry) (put_len es ++ concat (map put_entry es)) es.
Proof.
  intros Hv Hes. apply reads_list; [done|..].
  - eapply Forall_impl; [done|]. apply reads_entry.
  - by apply Forall_true.
Qed.

#[export] Hint Resolve reads_entries : codec.

Lemma reads_msg m : msg_wf m → reads get_msg (encode_raft_msg m) m.
Proof.
  intros Hw. destruct m as [| | | | | | | |c [i|]| |]; simpl in Hw; destruct_and?;
    reads_tag; try reads_fields.
  - do 2 (eapply reads_bind; [first [by apply (reads_bool true)|eauto with codec]|]; cbv beta).
    reads_fields.
  - do 2 (eapply reads_bind; [first [by apply (reads_bool false)|eauto with codec]|]; cbv beta).
    eapply reads_last; [by apply reads_u64|done].
Qed.

(** ** Frames

    [stable p]: what the reader takes off a buffer does not depend on what
    follows. *)

Definition stable {A} (p : reader A) : Prop :=
  ∀ b x r z, p b = Some (x, r) → p (b ++ z) = Some (x, r ++ z).

Lemma stable_ret {A} (x : A) : stable (mret x).
Proof. intros ????. unfold mret, step_ret. naive_solver. Qed.

Lemma stable_reject {A} : stable (@reject A).
Proof. by intros ????. Qed.

Lemma stable_bind {A B} (p : reader A) (k : A → reader B) :
  stable p → (∀ x, stable (k x)) → stable (p ≫= k).
Proof.
  intros Hp Hk b y r z. unfold mbind, step_bind.
  destruct (p b) as [[x b']|] eqn:E; [|done]. intros Hy. rewrite (Hp _ _ _ z E). by apply Hk.
Qed.

Lemma stable_take n : stable (cur_take n).
Proof.
  intros b x r z. unfold cur_take. case_decide; [done|]. intros [= <- <-].
  rewrite decide_False by (rewrite length_app; lia). by rewrite take_app_le, drop_app_le by lia.
Qed.

Lemma stable_le w : stable (cur_le w).
Proof. apply stable_bind; [apply stable_take|]. intros. apply stable_ret. Qed.

Lemma stable_string : stable cur_string.
Proof.
  apply stable_bind; [apply stable_bind; intros; [apply stable_le|apply stable_take]|].
  intros x. destruct (utf8_valid x); [apply stable_ret|apply stable_reject].
Qed.

Lemma stable_repeat {A} (p : reader A) : stable p →
  ∀ fuel fuel' count acc b x r z, fuel ≤ fuel' →
  cur_repeat p fuel count acc b = Some (x, r) →
  cur_repeat p fuel' count acc (b ++ z) = Some (x, r ++ z).
Proof.
  intros Hp fuel. induction fuel as [|fuel IH]; intros fuel' count acc b x r z Hf H.
  - destruct fuel'; cbn [cur_repeat] in H |- *; destruct (decide (count = 0)%N) as [->|];
      try done; unfold mret, step_ret in *; naive_solver.
  - destruct fuel' as [|fuel']; [lia|]. cbn [cur_repeat] in H |- *.
    destruct (decide (count = 0)%N) as [->|]; [unfold mret, step_ret in *; naive_solver|].
    unfold mbind, step_bind in *. destruct (p b) as [[y b']|] eqn:E; [|done].
    rewrite (Hp _ _ _ z E). apply IH; [lia|done].
Qed.

Lemma stable_list {A} (p : reader A) : stable p → stable (cur_list p).
Proof.
  intros Hp. apply stable_bind; [apply stable_le|]. intros count b x r z H.
  unfold mbind, step_bind, gets in *. eapply stable_repeat; [done| |done].
  rewrite length_app. lia.
Qed.

#[export] Hint Resolve stable_ret stable_reject stable_take stable_le stable_string
  stable_list : codec.

Ltac stable_all :=
  repeat first
    [ solve [eauto 2 with codec]
    | apply stable_bind; [|intros]
    | case_match ].

Lemma stable_membership : stable get_membership.
Proof. unfold get_membership, cur_node, cur_u64, cur_u8. stable_all. Qed.

Lemma stable_config : stable get_config.
Proof. unfold get_config, get_slots, cur_u64, cur_u16, cur_u8. stable_all. Qed.

#[export] Hint Resolve stable_membership stable_config : codec.

Lemma stable_payload : stable get_payload.
Proof. unfold get_payload, cur_blob, cur_u64, cur_u8. stable_all. Qed.

#[export] Hint Resolve stable_payload : codec.

Lemma stable_entry : stable get_entry.
Proof. unfold get_entry, cur_u64. stable_all. Qed.

#[export] Hint Resolve stable_entry : codec.

Lemma stable_msg : stable get_msg.
Proof.
  unfold get_msg, get_node_set, cur_blob, cur_bool, cur_node, cur_u64, cur_u8. stable_all.
Qed.

Lemma whole_Some {A} (p : reader A) b x : whole p b = Some x ↔ p b = Some (x, []).
Proof. unfold whole. destruct (p b) as [[? [|]]|]; naive_solver. Qed.

(** A reader that takes exactly [e] accepts no other frame that [e] is a prefix
    of or that is a prefix of [e]. *)
Lemma whole_framed {A} (p : reader A) e x b y :
  stable p → reads p e x → e `prefix_of` b ∨ b `prefix_of` e → whole p b = Some y → b = e ∧ y = x.
Proof.
  intros Hst He Hb H%whole_Some. specialize (He []) as He'. rewrite app_nil_r in He'.
  destruct Hb as [[z ->]|[z ->]].
  - rewrite He in H. simplify_eq. by rewrite app_nil_r.
  - rewrite (Hst _ _ _ z H) in He'. simplify_eq/=. by rewrite app_nil_r.
Qed.

(** (C35) The message codec is a framed round trip: a message whose fields fit
    their Rust types is read back exactly from its encoding, and no other
    frame that extends the encoding or is cut out of its front is accepted
    as a message, whatever follows or is missing. *)
Theorem raft_msg_roundtrip (m : RaftMsg) (Hm : msg_wf m) :
  decode_raft_msg (encode_raft_msg m) = Some m ∧
  (∀ b, encode_raft_msg m `prefix_of` b ∨ b `prefix_of` encode_raft_msg m →
    b ≠ encode_raft_msg m → decode_raft_msg b = None).
Proof.
  pose proof (reads_msg m Hm) as Hr. split.
  - apply whole_Some. by rewrite <- (app_nil_r (encode_raft_msg m)), Hr.
  - intros b Hb Hne. destruct (decode_raft_msg b) as [y|] eqn:E; [|done].
    apply (whole_framed _ _ _ _ _ stable_msg Hr Hb) in E as [-> _]. done.
Qed.

(** ** What is read fits its type *)

Definition yields {A} (p : reader A) (P : A → Prop) : Prop :=
  ∀ b x r, p b = Some (x, r) → P x.

Lemma yields_ret {A} (x : A) (P : A → Prop) : P x → yields (mret x) P.
Proof. intros ? b y r. unfold mret, step_ret. naive_solver. Qed.

Lemma yields_reject {A} (P : A → Prop) : yields reject P.
Proof. by intros ???. Qed.

Lemma yields_bind {A B} (p : reader A) (k : A → reader B) P Q :
  yields p P → (∀ x, P x → yields (k x) Q) → yields (p ≫= k) Q.
Proof.
  intros Hp Hk b y r. unfold mbind, step_bind. destruct (p b) as [[x b']|] eqn:E; [|done].
  apply Hk. by eapply Hp.
Qed.

Lemma from_le_bytes_bound bs : (from_le_bytes bs < 256 ^ N.of_nat (length bs))%N.
Proof.
  induction bs as [|b bs IH]; unfold from_le_bytes; fold from_le_bytes; [simpl; lia|].
  simpl length. rewrite Nat2N.inj_succ, N.pow_succ_r'. pose proof (byte_to_N_bound b). lia.
Qed.

Lemma yields_take n : yields (cur_take n) (λ bs, N.of_nat (length bs) = n).
Proof.
  intros b x r. unfold cur_take. case_decide; [done|]. intros [= <- _].
  rewrite length_take. lia.
Qed.

Lemma yields_le w : yields (cur_le w) (λ n, n < 256 ^ w)%N.
Proof.
  eapply yields_bind; [apply yields_take|]. intros bs <-. apply yields_ret, from_le_bytes_bound.
Qed.

Lemma yields_u16 : yields cur_u16 u16.
Proof. exact (yields_le 2). Qed.

Lemma yields_u64 : yields cur_u64 u64.
Proof. intros b n r H%(yields_le 8). unfold u64, U64_MAX. simpl in H. lia. Qed.

Lemma yields_bool : yields cur_bool (λ _, True).
Proof. by intros ???. Qed.

Lemma yields_blob : yields cur_blob vec.
Proof.
  eapply yields_bind; [apply yields_u64|]. intros n Hn b x r <-%yields_take. done.
Qed.

Lemma yields_string : yields cur_string rust_string.
Proof.
  eapply yields_bind; [apply yields_blob|]. intros bs Hbs. cbv beta.
  destruct (utf8_valid bs) eqn:E; [|apply yields_reject]. apply yields_ret.
  unfold rust_string. by rewrite String.list_byte_of_string_of_list_byte.
Qed.

Lemma yields_repeat {A} (p : reader A) P : yields p P →
  ∀ fuel count acc, Forall P acc →
  yields (cur_repeat p fuel count acc)
    (λ l, N.of_nat (length l) = N.of_nat (length acc) + count ∧ Forall P l)%N.
Proof.
  intros Hp fuel. induction fuel as [|fuel IH]; intros count acc Hacc; cbn [cur_repeat];
    destruct (decide (count = 0)%N) as [->|].
  1,3: apply yields_ret; split; [lia|done].
  - apply yields_reject.
  - eapply yields_bind; [done|]. intros x Hx b l r H.
    apply IH in H as [Hlen Hl]; [|by apply Forall_app_2; [|apply Forall_singleton]].
    split; [|done]. rewrite Hlen, length_app. simpl. lia.
Qed.

Lemma yields_list {A} (p : reader A) P :
  yields p P → yields (cur_list p) (λ l, vec l ∧ Forall P l).
Proof.
  intros Hp. eapply yields_bind; [apply yields_u64|]. intros count Hc b l r H.
  unfold mbind, step_bind, gets in H.
  eapply yields_repeat in H as [Hlen Hl]; [|done|by constructor].
  split; [|done]. unfold vec. by rewrite Hlen.
Qed.

Lemma yields_slots : yields get_slots slots_wf.
Proof. apply yields_list, yields_u16. Qed.

Lemma yields_node_set : yields get_node_set node_set.
Proof.
  eapply yields_bind; [apply yields_list, yields_u64|]. intros ids [Hv Hids].
  apply yields_ret. split.
  - unfold vec, u64 in *. assert (length (btree_iter (list_to_set ids)) ≤ length ids); [|lia].
    apply submseteq_length, NoDup_submseteq; [apply NoDup_btree_iter|].
    intros x. by rewrite elem_of_btree_iter, elem_of_list_to_set.
  - intros x Hx%elem_of_list_to_set. by eapply Forall_forall in Hids.
Qed.

#[export] Hint Resolve yields_u16 yields_u64 yields_bool yields_blob yields_string
  yields_slots yields_node_set yields_list : codec.

Ltac yields_all :=
  repeat first
    [ apply yields_reject
    | apply yields_ret; simpl in *; split_and?; solve [done | naive_solver]
    | eapply yields_bind; [eauto 2 with codec|]; intros ? ?; cbv beta
    | case_match ].

Lemma yields_membership : yields get_membership membership_wf.
Proof.
  unfold get_membership, cur_node. eapply yields_bind; [apply yields_le|]. intros tag _. yields_all.
Qed.

Lemma yields_config : yields get_config config_wf.
Proof.
  unfold get_config. eapply yields_bind; [apply yields_le|]. intros tag _. yields_all.
Qed.

#[export] Hint Resolve yields_membership yields_config : codec.

Lemma yields_payload : yields get_payload payload_wf.
Proof. unfold get_payload. eapply yields_bind; [apply yields_le|]. intros tag _. yields_all. Qed.

#[export] Hint Resolve yields_payload : codec.

Lemma yields_entry : yields get_entry entry_wf.
Proof. unfold get_entry. yields_all. Qed.

#[export] Hint Resolve yields_entry : codec.

Lemma yields_msg : yields get_msg msg_wf.
Proof.
  unfold get_msg, cur_node. eapply yields_bind; [apply yields_le|]. intros tag _. yields_all.
Qed.

(** Whatever bytes arrive, a message that is accepted fits the Rust types
    (integers at their width, strings valid UTF-8, lengths below 2^64), and
    sending it on reproduces it. *)
Theorem decode_raft_msg_wf (b : list byte) (m : RaftMsg) (Hd : decode_raft_msg b = Some m) :
  msg_wf m ∧ decode_raft_msg (encode_raft_msg m) = Some m.
Proof.
  apply whole_Some in Hd. assert (msg_wf m) as Hm by (by eapply yields_msg). split; [done|].
  apply whole_Some. by rewrite <- (app_nil_r (encode_raft_msg m)), reads_msg.
Qed.

(** The frame of a vote whose flag byte is 2. *)
Definition odd_vote : list byte := put_u8 2 ++ put_u64 7 ++ put_u8 2.

(** The decoder accepts frames that are not the encoding of any message,
    although its documentation promises [None] for them: a flag byte other
    than 0 or 1 reads as true. *)
Theorem decode_raft_msg_noncanonical :
  decode_raft_msg odd_vote = Some (RequestVoteResp 7 true) ∧
  ∀ m, msg_wf m → encode_raft_msg m ≠ odd_vote.
Proof.
  assert (decode_raft_msg odd_vote = Some (RequestVoteResp 7 true)) as Hd by reflexivity.
  split; [done|]. intros m Hm Heq. rewrite <- Heq in Hd.
  apply whole_Some in Hd. pose proof (reads_msg m Hm []) as Hr.
  rewrite app_nil_r in Hr. rewrite Hr in Hd. simplify_eq.
Qed.
