(* ===== verification/FileStorage.v ===== *)
(** * The durable Raft store (crates/ironcache-raft-net/src/storage.rs)

    [FileStorage] keeps an append-only log of framed records on disk, two
    sidecar files for the snapshot and the configuration baseline, and an
    in-memory mirror that serves the reads.  A record body uses the codec of
    RaftCodec.v.

    The disk is the contents of the three files.  [write_all] followed by
    [sync_all] appends; a temporary file renamed over its target replaces the
    target in one step, and the temporary files themselves are never read.  A
    panic ([expect], arithmetic overflow) is [None]; a failing system call also
    panics, and is covered by the crashes of FileStorageProofs.v. *)

From Stdlib Require Import Lia ZArith NArith.
From S2P Require Import Prelude Env RaftTypes RaftStorage RaftCodec.

#[local] Open Scope nat_scope.

(** ** CRC-32 *)

Definition CRC32_POLY : N := 3988292384.
Definition CRC32_ONES : N := 4294967295.

Definition wrapping_neg32 (n : N) : N := ((4294967296 - n) mod 4294967296)%N.

Definition crc32_bit (crc : N) : N :=
  let mask := wrapping_neg32 (N.land crc 1) in
  N.lxor (N.shiftr crc 1) (N.land CRC32_POLY mask).

Definition crc32_byte (crc : N) (b : byte) : N :=
  Nat.iter 8 crc32_bit (N.lxor crc (Byte.to_N b)).

Definition crc32 (data : list byte) : N :=
  N.lxor (foldl crc32_byte CRC32_ONES data) CRC32_ONES.

(** ** Records *)

Inductive LogRecord :=
  | SetTerm (term : N)
  | SetVote (vote : option NodeId)
  | AppendEntry (entry : LogEntry)
  | Truncate (index : N).

Definition encode_body (record : LogRecord) : list byte :=
  match record with
  | SetTerm term => put_u8 1 ++ put_u64 term
  | SetVote None => put_u8 2 ++ put_u8 0
  | SetVote (Some id) => put_u8 2 ++ put_u8 1 ++ put_u64 id
  | AppendEntry entry => put_u8 3 ++ put_entry entry
  | Truncate index => put_u8 4 ++ put_u64 index
  end.

(** The frame around a body; [u32::try_from(len).expect(..)] panics above u32. *)
Definition frame (body : list byte) : option (list byte) :=
  if decide (N.of_nat (length body) ≤ U32_MAX)%N then
    Some (to_le_bytes 4 (N.of_nat (length body)) ++ to_le_bytes 4 (crc32 body) ++ body)
  else None.

Definition encode_frame (record : LogRecord) : option (list byte) := frame (encode_body record).

Definition get_record : reader LogRecord :=
  kind ← cur_u8;
  match kind with
  | 1 => term ← cur_u64; mret (SetTerm term)
  | 2 => present ← cur_u8;
         match present with
         | 0 => mret (SetVote None)
         | 1 => id ← cur_u64; mret (SetVote (Some id))
         | _ => reject
         end
  | 3 => entry ← get_entry; mret (AppendEntry entry)
  | 4 => index ← cur_u64; mret (Truncate index)
  | _ => reject
  end%N.

Definition decode_body (body : list byte) : option LogRecord := whole get_record body.

(** ** The mirror

    The struct [Mirror] has the fields and the helpers ([start], [pos_of]) of
    [MemStorage], and every getter of [FileStorage] is [MemStorage]'s over it. *)

Abbreviation Mirror := MemStorage (only parsing).

Definition mirror_apply (mirror : Mirror) (record : LogRecord) : Mirror :=
  match record with
  | SetTerm term => mem_set_current_term term mirror
  | SetVote vote => mem_set_voted_for vote mirror
  | AppendEntry entry =>
      if decide (mem_start mirror ≤ e_index entry)%N
      then mem_set_log (m_log mirror ++ [entry]) mirror else mirror
  | Truncate index =>
      let start := mem_start mirror in
      let keep := if decide (index ≤ start)%N then 0%nat else N.to_nat (index - start) in
      if decide (keep < length (m_log mirror))
      then mem_set_log (take keep (m_log mirror)) mirror else mirror
  end.

(** ** The files *)

Record Disk := mkDisk {
  d_log : list byte;
  d_snap : option (list byte);
  d_cfg : option (list byte)
}.

Record FileStorage := mkFile { disk : Disk; mirror : Mirror }.

Definition FRAME_HEADER_LEN : nat := 8.

(** The checked frame at [pos]: its body and the offset just past it.  Offsets
    are file positions, so the [checked_add] never overflows. *)
Definition frame_at (bytes : list byte) (pos : nat) : option (list byte * nat) :=
  if decide (length bytes < pos + FRAME_HEADER_LEN) then None else
  let body_len := from_le_bytes (take 4 (drop pos bytes)) in
  let stored_crc := from_le_bytes (take 4 (drop (pos + 4) bytes)) in
  let body_start := pos + FRAME_HEADER_LEN in
  if decide (N.of_nat (length bytes) < N.of_nat body_start + body_len)%N then None else
  let body := take (N.to_nat body_len) (drop body_start bytes) in
  if decide (crc32 body = stored_crc) then Some (body, body_start + N.to_nat body_len)
  else None.

(** Every round moves past a header, so the file length bounds the rounds. *)
Fixpoint replay_loop (fuel : nat) (bytes : list byte) (mirror : Mirror) (pos : nat) : Mirror * nat :=
  match fuel with
  | O => (mirror, pos)
  | S fuel =>
      match frame_at bytes pos with
      | Some (body, body_end) =>
          match decode_body body with
          | Some record => replay_loop fuel bytes (mirror_apply mirror record) body_end
          | None => (mirror, pos)
          end
      | None => (mirror, pos)
      end
  end.

Definition replay_into (seed : Mirror) (bytes : list byte) : Mirror * nat :=
  replay_loop (S (length bytes)) bytes seed 0.

(** *** Sidecars *)

Definition snapshot_body (meta : SnapshotMeta) (data : list byte) : list byte :=
  put_u64 (last_included_index meta) ++ put_u64 (last_included_term meta) ++ put_blob data.

Definition encode_snapshot_frame (meta : SnapshotMeta) (data : list byte) : option (list byte) :=
  frame (snapshot_body meta data).

Definition get_snapshot : reader (SnapshotMeta * list byte) :=
  i ← cur_u64; t ← cur_u64; data ← cur_blob; mret (mkMeta i t, data).

(** A missing file and a damaged one both mean "no snapshot". *)
Definition load_sidecar {A} (p : reader A) (file : option (list byte)) : option A :=
  match file with
  | Some bytes =>
      match frame_at bytes 0 with
      | Some (body, _) => whole p body
      | None => None
      end
  | None => None
  end.

Definition load_snapshot_file : option (list byte) → option (SnapshotMeta * list byte) :=
  load_sidecar get_snapshot.

Definition config_body (voters learners : gset NodeId) : list byte :=
  put_node_set voters ++ put_node_set learners.

Definition encode_config_baseline_frame (voters learners : gset NodeId) : option (list byte) :=
  frame (config_body voters learners).

Definition get_config_baseline : reader Membership :=
  voters ← get_node_set; learners ← get_node_set; mret (voters, learners).

Definition load_config_baseline_file : option (list byte) → option Membership :=
  load_sidecar get_config_baseline.

(** ** Opening *)

Definition seed_snapshot (snapshot : option (SnapshotMeta * list byte)) : option Mirror :=
  match snapshot with
  | Some (meta, data) =>
      start ← add64 (last_included_index meta) 1;
      Some (mkMem 0 None [] start (Some meta) data None)
  | None => Some mem_new
  end.

Definition mem_set_config (c : option Membership) (m : Mirror) : Mirror :=
  mkMem (m_current_term m) (m_voted_for m) (m_log m) (m_log_start m) (m_snap_meta m)
    (m_snap_data m) c.

Definition file_open (d : Disk) : option FileStorage :=
  seed ← seed_snapshot (load_snapshot_file (d_snap d));
  let '(mirror, good_len) :=
    replay_into (mem_set_config (load_config_baseline_file (d_cfg d)) seed) (d_log d) in
  let log := if decide (good_len < length (d_log d)) then take good_len (d_log d) else d_log d in
  Some (mkFile (mkDisk log (d_snap d) (d_cfg d)) mirror).

(** ** Mutations *)

Definition write_all (bytes : list byte) (d : Disk) : Disk :=
  mkDisk (d_log d ++ bytes) (d_snap d) (d_cfg d).

Definition append_record (record : LogRecord) (fs : FileStorage) : option FileStorage :=
  f ← encode_frame record;
  Some (mkFile (write_all f (disk fs)) (mirror_apply (mirror fs) record)).

Fixpoint encode_frames (records : list LogRecord) : option (list byte) :=
  match records with
  | [] => Some []
  | r :: records => f ← encode_frame r; buf ← encode_frames records; Some (f ++ buf)
  end.

Definition append_records (records : list LogRecord) (fs : FileStorage) : option FileStorage :=
  match records with
  | [] => Some fs
  | _ =>
      buf ← encode_frames records;
      Some (mkFile (write_all buf (disk fs)) (foldl mirror_apply (mirror fs) records))
  end.

Definition persist_snapshot (meta : SnapshotMeta) (data : list byte) (fs : FileStorage)
    : option FileStorage :=
  f ← encode_snapshot_frame meta data;
  Some (mkFile (mkDisk (d_log (disk fs)) (Some f) (d_cfg (disk fs)))
          (mem_save_snapshot meta data (mirror fs))).

Definition persist_config_baseline (voters learners : gset NodeId) (fs : FileStorage)
    : option FileStorage :=
  f ← encode_config_baseline_frame voters learners;
  Some (mkFile (mkDisk (d_log (disk fs)) (d_snap (disk fs)) (Some f))
          (mem_save_config_baseline voters learners (mirror fs))).

(** The records the compacted log is rebuilt from. *)
Definition mirror_records (m : Mirror) : list LogRecord :=
  [SetTerm (m_current_term m); SetVote (m_voted_for m)] ++ map AppendEntry (m_log m).

Definition compact_log_to (index : N) (fs : FileStorage) : option FileStorage :=
  let m := mirror fs in
  let start := mem_start m in
  if decide (index < start ∨ index = 0)%N then Some fs
  else
    let d := Nat.min (N.to_nat (index - start + 1)) (length (m_log m)) in
    s' ← add64 index 1;
    let m' := mkMem (m_current_term m) (m_voted_for m) (drop d (m_log m)) s' (m_snap_meta m)
                (m_snap_data m) (m_config_baseline m) in
    buf ← encode_frames (mirror_records m');
    Some (mkFile (mkDisk buf (d_snap (disk fs)) (d_cfg (disk fs))) m').

(** ** The trait's mutators *)

Inductive StorageOp :=
  | OpSetCurrentTerm (term : N)
  | OpSetVotedFor (v : option NodeId)
  | OpAppend (entry : LogEntry)
  | OpTruncateFrom (index : N)
  | OpAppendEntries (entries : list LogEntry)
  | OpSaveSnapshot (meta : SnapshotMeta) (data : list byte)
  | OpCompactTo (index : N)
  | OpSaveConfigBaseline (voters learners : gset NodeId).

Definition file_op (op : StorageOp) : FileStorage → option FileStorage :=
  match op with
  | OpSetCurrentTerm term => append_record (SetTerm term)
  | OpSetVotedFor v => append_record (SetVote v)
  | OpAppend entry => append_record (AppendEntry entry)
  | OpTruncateFrom index => append_record (Truncate index)
  | OpAppendEntries entries => append_records (map AppendEntry entries)
  | OpSaveSnapshot meta data => persist_snapshot meta data
  | OpCompactTo index => compact_log_to index
  | OpSaveConfigBaseline voters learners => persist_config_baseline voters learners
  end.

(** The same call on the in-memory store. *)
Definition mem_op (op : StorageOp) (m : MemStorage) : option MemStorage :=
  match op with
  | OpSetCurrentTerm term => Some (set_current_term term m)
  | OpSetVotedFor v => Some (set_voted_for v m)
  | OpAppend entry => Some (append entry m)
  | OpTruncateFrom index => Some (truncate_from index m)
  | OpAppendEntries entries => Some (append_entries entries m)
  | OpSaveSnapshot meta data => Some (save_snapshot meta data m)
  | OpCompactTo index => compact_to index m
  | OpSaveConfigBaseline voters learners => Some (save_config_baseline voters learners m)
  end.
