(* ===== verification/FileStorageProofs.v ===== *)
(** * The durable Raft store: frames, replay, crashes and refinement

    - the checksum: a record with one damaged byte is never replayed;
    - frames: a frame is found again in the file, and no proper prefix of one is;
    - crashes: whatever call a crash interrupts, reopening gives the state before
      or after it (for a batch: after some of its entries);
    - refinement: each call does to the mirror what it does to [MemStorage]. *)

From Stdlib Require Import Lia ZArith NArith.
From S2P Require Import Prelude Env RaftTypes RaftStorage RaftCodec RaftCodecProofs FileStorage.

#[local] Open Scope nat_scope.

(** ** CRC-32 *)

Lemma crc32_bit_odd c :
  crc32_bit c = if N.odd c then N.lxor (N.shiftr c 1) CRC32_POLY else N.shiftr c 1.
Proof.
  unfold crc32_bit. replace (N.land c 1) with (N.b2n (N.odd c)) by (by destruct c as [|[]]).
  destruct (N.odd c); [done|]. change (wrapping_neg32 (N.b2n false)) with 0%N.
  by rewrite N.land_0_r, N.lxor_0_r.
Qed.

Lemma crc32_bit_bound c : (c < 2 ^ 32 → crc32_bit c < 2 ^ 32)%N.
Proof.
  intros Hc. rewrite crc32_bit_odd. destruct (N.odd c); [|by apply shiftr_lt_pow2].
  by apply lxor_lt_pow2; [apply shiftr_lt_pow2|].
Qed.

Lemma testbit_high c n i : (c < 2 ^ n → n ≤ i → N.testbit c i = false)%N.
Proof.
  intros Hc Hi. rewrite <- (N.mod_small c (2 ^ n)%N) by done. by apply N.mod_pow2_bits_high.
Qed.

(** The top bit of the polynomial records the bit that was shifted out. *)
Lemma crc32_bit_top c : (c < 2 ^ 32)%N → N.testbit (crc32_bit c) 31 = N.odd c.
Proof.
  intros Hc. rewrite crc32_bit_odd.
  assert (N.testbit (N.shiftr c 1) 31 = false) as Htop.
  { rewrite N.shiftr_spec'. by apply (testbit_high c 32). }
  destruct (N.odd c); [|done]. by rewrite N.lxor_spec, Htop.
Qed.

Lemma crc32_bit_inj c c' :
  (c < 2 ^ 32 → c' < 2 ^ 32 → crc32_bit c = crc32_bit c' → c = c')%N.
Proof.
  intros Hc Hc' Heq. pose proof (crc32_bit_top c Hc) as Hodd.
  rewrite Heq, (crc32_bit_top c' Hc') in Hodd. rewrite !crc32_bit_odd, Hodd in Heq.
  assert (N.shiftr c 1 = N.shiftr c' 1) as Hsh.
  { destruct (N.odd c); [|done]. apply (f_equal (λ x, N.lxor x CRC32_POLY)) in Heq.
    by rewrite !N.lxor_assoc, N.lxor_nilpotent, !N.lxor_0_r in Heq. }
  rewrite <- !N.div2_spec in Hsh.
  by rewrite (N.div2_odd c), (N.div2_odd c'), Hsh, Hodd.
Qed.

Lemma crc32_iter_bound n c : (c < 2 ^ 32)%N → (Nat.iter n crc32_bit c < 2 ^ 32)%N.
Proof. induction n; simpl; [done|]. intros. by apply crc32_bit_bound, IHn. Qed.

Lemma crc32_iter_inj n c c' :
  (c < 2 ^ 32)%N → (c' < 2 ^ 32)%N → Nat.iter n crc32_bit c = Nat.iter n crc32_bit c' → c = c'.
Proof.
  induction n as [|n IH]; intros Hc Hc'; [done|]. cbn [Nat.iter nat_rect].
  intros Heq%crc32_bit_inj; [auto| |]; by apply crc32_iter_bound.
Qed.

Lemma crc32_xor_bound c b : (c < 2 ^ 32)%N → (N.lxor c (Byte.to_N b) < 2 ^ 32)%N.
Proof.
  intros. apply lxor_lt_pow2; [done|]. pose proof (byte_to_N_bound b). simpl. lia.
Qed.

Lemma crc32_byte_bound c b : (c < 2 ^ 32)%N → (crc32_byte c b < 2 ^ 32)%N.
Proof. intros. by apply crc32_iter_bound, crc32_xor_bound. Qed.

Lemma crc32_fold_bound l c : (c < 2 ^ 32)%N → (foldl crc32_byte c l < 2 ^ 32)%N.
Proof. revert c. induction l; simpl; [done|]. intros. by apply IHl, crc32_byte_bound. Qed.

Lemma crc32_bound l : (crc32 l < 2 ^ 32)%N.
Proof. by apply lxor_lt_pow2; [apply crc32_fold_bound|]. Qed.

Lemma lxor_cancel_l a b c : N.lxor a b = N.lxor a c → b = c.
Proof.
  intros H%(f_equal (N.lxor a)). by rewrite <- !N.lxor_assoc, !N.lxor_nilpotent, !N.lxor_0_l in H.
Qed.

Lemma crc32_byte_inj_state c c' b :
  (c < 2 ^ 32)%N → (c' < 2 ^ 32)%N → crc32_byte c b = crc32_byte c' b → c = c'.
Proof.
  intros ?? H%crc32_iter_inj; [|by apply crc32_xor_bound..].
  rewrite !(N.lxor_comm _ (Byte.to_N b)) in H. by eapply lxor_cancel_l.
Qed.

Lemma crc32_byte_inj_byte c b b' : (c < 2 ^ 32)%N → crc32_byte c b = crc32_byte c b' → b = b'.
Proof.
  intros ? H%crc32_iter_inj; [|by apply crc32_xor_bound..].
  apply lxor_cancel_l in H. by rewrite <- (byte_of_to_N b), <- (byte_of_to_N b'), H.
Qed.

Lemma crc32_fold_inj l c c' :
  (c < 2 ^ 32)%N → (c' < 2 ^ 32)%N → foldl crc32_byte c l = foldl crc32_byte c' l → c = c'.
Proof.
  revert c c'. induction l as [|b l IH]; intros c c' Hc Hc'; [done|]. simpl. intros H.
  apply IH in H; [|by apply crc32_byte_bound..]. by eapply crc32_byte_inj_state.
Qed.

Lemma crc32_one_byte pre b b' post : crc32 (pre ++ b :: post) = crc32 (pre ++ b' :: post) → b = b'.
Proof.
  unfold crc32. rewrite !(N.lxor_comm _ CRC32_ONES). intros H%lxor_cancel_l.
  rewrite !foldl_app in H. simpl in H.
  apply crc32_fold_inj in H; [|by apply crc32_byte_bound, crc32_fold_bound..].
  eapply crc32_byte_inj_byte; [|done]. by apply crc32_fold_bound.
Qed.

(** ** Frames *)

Lemma frame_Some body f :
  frame body = Some f ↔
  (N.of_nat (length body) ≤ U32_MAX)%N ∧
  f = to_le_bytes 4 (N.of_nat (length body)) ++ to_le_bytes 4 (crc32 body) ++ body.
Proof. unfold frame. case_decide; naive_solver. Qed.

Lemma frame_length body f : frame body = Some f → length f = FRAME_HEADER_LEN + length body.
Proof. intros [_ ->]%frame_Some. rewrite !length_app, !length_to_le_bytes. done. Qed.

(** The header and the body found at a position. *)
Lemma frame_at_header pre len crc rest :
  (len ≤ U32_MAX)%N → (crc < 2 ^ 32)%N →
  frame_at (pre ++ to_le_bytes 4 len ++ to_le_bytes 4 crc ++ rest) (length pre) =
  if decide (N.of_nat (length rest) < len)%N then None
  else if decide (crc32 (take (N.to_nat len) rest) = crc)
       then Some (take (N.to_nat len) rest, length pre + FRAME_HEADER_LEN + N.to_nat len)
       else None.
Proof.
  intros Hlen Hcrc. unfold frame_at, FRAME_HEADER_LEN, U32_MAX in *.
  pose proof (length_to_le_bytes 4 len) as H1. pose proof (length_to_le_bytes 4 crc) as H2.
  rewrite decide_False by (rewrite !length_app; lia).
  rewrite <- (drop_drop _ 4 (length pre)), <- (drop_drop _ 8 (length pre)), !drop_app_length.
  rewrite (take_app_length' (to_le_bytes 4 len)) by done.
  rewrite (drop_app_length' (to_le_bytes 4 len) _ 4) by done.
  rewrite (take_app_length' (to_le_bytes 4 crc)) by done.
  rewrite (assoc_L (++) (to_le_bytes 4 len)), (drop_app_length' (_ ++ _) _ 8)
    by (by rewrite length_app, H1, H2).
  rewrite !from_to_le_bytes by (simpl; lia). rewrite !length_app, H1, H2.
  destruct (decide (N.of_nat (length rest) < len)%N); [by rewrite decide_True by lia|].
  by rewrite decide_False by lia.
Qed.

Lemma frame_at_found pre body f post : frame body = Some f →
  frame_at (pre ++ f ++ post) (length pre) = Some (body, length pre + length f).
Proof.
  intros Hf. pose proof (frame_length _ _ Hf) as Hlen. apply frame_Some in Hf as [Hb ->].
  rewrite <- !(assoc_L (++)), frame_at_header by (done || apply crc32_bound).
  rewrite decide_False by (rewrite length_app; lia).
  rewrite Nat2N.id, take_app_length, decide_True by done. by rewrite Hlen, Nat.add_assoc.
Qed.

(** [torn t]: nothing is read at the start of [t]. *)
Definition torn (t : list byte) : Prop := ∀ pre, frame_at (pre ++ t) (length pre) = None.

Lemma torn_short t : length t < FRAME_HEADER_LEN → torn t.
Proof. intros ? pre. unfold frame_at. rewrite decide_True; [done|]. rewrite length_app. lia. Qed.

Lemma torn_frame body f k : frame body = Some f → k < length f → torn (take k f).
Proof.
  intros Hf Hk. destruct (decide (k < FRAME_HEADER_LEN)) as [|Hk8].
  { apply torn_short. rewrite length_take. lia. }
  intros pre. pose proof (frame_length _ _ Hf) as Hlen. apply frame_Some in Hf as [Hb ->].
  unfold FRAME_HEADER_LEN in *.
  rewrite take_app_ge, take_app_ge by (rewrite ?length_to_le_bytes; lia).
  rewrite !length_to_le_bytes, frame_at_header by (done || apply crc32_bound).
  rewrite decide_True; [done|]. rewrite length_take. lia.
Qed.

(** One damaged byte in the body. *)
Lemma torn_damaged pre b b' post f rest :
  frame (pre ++ b :: post) = Some f → b ≠ b' →
  torn (take FRAME_HEADER_LEN f ++ (pre ++ b' :: post) ++ rest).
Proof.
  intros Hf Hne p. pose proof (frame_length _ _ Hf) as Hlen. apply frame_Some in Hf as [Hb ->].
  unfold FRAME_HEADER_LEN in *.
  rewrite (assoc_L (++) (to_le_bytes 4 _)), take_app_length'
    by (by rewrite length_app, !length_to_le_bytes).
  rewrite <- (assoc_L (++) (to_le_bytes 4 _)), frame_at_header by (done || apply crc32_bound).
  replace (length (pre ++ b :: post)) with (length (pre ++ b' :: post)) in *
    by (by rewrite !length_app).
  rewrite decide_False by (rewrite length_app; lia).
  rewrite Nat2N.id, take_app_length, decide_False; [done|]. by intros ?%crc32_one_byte.
Qed.

(** ** Records *)

Definition record_wf (r : LogRecord) : Prop :=
  match r with
  | SetTerm n | Truncate n => u64 n
  | SetVote v => match v with Some id => u64 id | None => True end
  | AppendEntry e => entry_wf e
  end.

#[local] Hint Resolve reads_entry : codec.

Lemma reads_record r : record_wf r → reads get_record (encode_body r) r.
Proof.
  intros Hw. destruct r as [|[]| |]; simpl in Hw; reads_tag; try reads_fields.
  - eapply reads_bind; [by apply reads_u8|]. cbv beta iota. reads_fields.
  - rewrite <- (app_nil_r (put_u8 0)). eapply reads_bind; [by apply reads_u8|apply reads_ret].
Qed.

Lemma decode_encode_body r : record_wf r → decode_body (encode_body r) = Some r.
Proof.
  intros Hw. apply whole_Some. by rewrite <- (app_nil_r (encode_body r)), reads_record.
Qed.

Lemma encode_frames_app rs1 rs2 buf :
  encode_frames (rs1 ++ rs2) = Some buf ↔
  ∃ b1 b2, encode_frames rs1 = Some b1 ∧ encode_frames rs2 = Some b2 ∧ buf = b1 ++ b2.
Proof.
  revert buf. induction rs1 as [|r rs1 IH]; intros buf; simpl; [naive_solver|].
  destruct (encode_frame r) as [f|]; simpl; [|naive_solver]. split.
  - intros (b & Hb & [= <-])%bind_Some. apply IH in Hb as (b1 & b2 & Hb1 & Hb2 & ->).
    exists (f ++ b1), b2. rewrite Hb1. simpl. by rewrite <- (assoc_L (++)).
  - intros (b1 & b2 & (b & Hb & [= <-])%bind_Some & Hb2 & ->).
    rewrite (proj2 (IH (b ++ b2))) by naive_solver. simpl. by rewrite (assoc_L (++)).
Qed.

Lemma encode_frames_length rs buf : encode_frames rs = Some buf → length rs ≤ length buf.
Proof.
  revert buf. induction rs as [|r rs IH]; intros buf; simpl; [lia|].
  intros (f & Hf & (b & Hb & [= <-])%bind_Some)%bind_Some.
  apply frame_length in Hf. apply IH in Hb. unfold FRAME_HEADER_LEN in *.
  rewrite length_app. lia.
Qed.

(** Replay reads back the framed records and stops where nothing is readable. *)
Lemma replay_frames rs buf t pre m fuel :
  encode_frames rs = Some buf → Forall record_wf rs → torn t → length rs < fuel →
  replay_loop fuel (pre ++ buf ++ t) m (length pre) =
  (foldl mirror_apply m rs, length pre + length buf).
Proof.
  intros Hbuf Hwf Ht. revert buf pre m fuel Hbuf.
  induction Hwf as [|r rs Hr _ IH]; intros buf pre m fuel Hbuf Hfuel; simpl in Hbuf, Hfuel |- *.
  - destruct fuel as [|fuel]; [lia|]. simplify_eq/=. rewrite Ht. by rewrite Nat.add_0_r.
  - apply bind_Some in Hbuf as (f & Hf & (b & Hb & [= <-])%bind_Some).
    destruct fuel as [|fuel]; [lia|]. cbn [replay_loop].
    rewrite <- (assoc_L (++) f), (frame_at_found _ _ _ _ Hf), decode_encode_body by done.
    replace (pre ++ f ++ b ++ t) with ((pre ++ f) ++ b ++ t) by (by rewrite <- (assoc_L (++))).
    rewrite <- length_app, IH by (done || lia). f_equal. rewrite !length_app. lia.
Qed.

Lemma replay_into_frames rs buf t seed :
  encode_frames rs = Some buf → Forall record_wf rs → torn t →
  replay_into seed (buf ++ t) = (foldl mirror_apply seed rs, length buf).
Proof.
  intros Hbuf Hwf Ht. apply (replay_frames rs buf t []); [done..|].
  apply encode_frames_length in Hbuf. rewrite length_app. lia.
Qed.

(** A cut anywhere in a written batch leaves whole frames and a torn rest. *)
Lemma torn_split rs buf k : encode_frames rs = Some buf →
  ∃ j b t, encode_frames (take j rs) = Some b ∧ take k buf = b ++ t ∧ torn t.
Proof.
  revert buf k. induction rs as [|r rs IH]; intros buf k Hbuf; simpl in Hbuf.
  { simplify_eq/=. exists 0, [], []. rewrite !take_nil.
    split_and!; [done..|]. apply torn_short. unfold FRAME_HEADER_LEN. simpl. lia. }
  apply bind_Some in Hbuf as (f & Hf & (b & Hb & [= <-])%bind_Some).
  destruct (decide (k < length f)) as [Hk|Hk].
  - exists 0, [], (take k f). rewrite take_app_le by lia.
    split_and!; [done..|]. by eapply torn_frame.
  - destruct (IH b (k - length f) Hb) as (j & b' & t & Hb' & Htk & Ht).
    exists (S j), (f ++ b'), t. cbn [take encode_frames]. rewrite Hf. simpl. rewrite Hb'. simpl.
    split_and!; [done| |done]. by rewrite take_app_ge, Htk, (assoc_L (++)) by lia.
Qed.

(** ** Recovery

    Reopening seeds [log_start] from the snapshot, so a store whose snapshot is
    ahead of its compaction comes back compacted to the snapshot. *)

Definition settle_at (k : N) (m : Mirror) : Mirror :=
  mkMem (m_current_term m) (m_voted_for m) (drop (N.to_nat (k - mem_start m)) (m_log m)) k
    (m_snap_meta m) (m_snap_data m) (m_config_baseline m).

Definition settle (m : Mirror) : Mirror :=
  match m_snap_meta m with
  | Some meta => settle_at (last_included_index meta + 1) m
  | None => m
  end.

(** The store a log is replayed into. *)
Definition blank (m : Mirror) : Mirror :=
  mkMem 0 None [] (m_log_start m) (m_snap_meta m) (m_snap_data m) (m_config_baseline m).

(** An appended entry is either below the start, and dropped, or the next one. *)
Definition rec_ok (m : Mirror) (r : LogRecord) : Prop :=
  match r with
  | AppendEntry e =>
      (e_index e < mem_start m)%N ∨ e_index e = (mem_start m + N.of_nat (length (m_log m)))%N
  | _ => True
  end.

Fixpoint hist_ok (m : Mirror) (rs : list LogRecord) : Prop :=
  match rs with
  | [] => True
  | r :: rs => rec_ok m r ∧ hist_ok (mirror_apply m r) rs
  end.

Lemma hist_ok_app m rs1 rs2 :
  hist_ok m (rs1 ++ rs2) ↔ hist_ok m rs1 ∧ hist_ok (foldl mirror_apply m rs1) rs2.
Proof. revert m. induction rs1 as [|r rs1 IH]; intros m; simpl; [naive_solver|]. rewrite IH. tauto. Qed.

Definition consecutive (m : Mirror) : Prop :=
  ∀ p e, m_log m !! p = Some e → e_index e = (mem_start m + N.of_nat p)%N.

(** Everything a record leaves alone. *)
Definition same_frame (m m' : Mirror) : Prop :=
  m_log_start m' = m_log_start m ∧ m_snap_meta m' = m_snap_meta m ∧
  m_snap_data m' = m_snap_data m ∧ m_config_baseline m' = m_config_baseline m.

Lemma same_frame_start m m' : same_frame m m' → mem_start m' = mem_start m.
Proof. intros (Hs & _). unfold mem_start. by rewrite Hs. Qed.

Lemma same_frame_blank m m' : same_frame m m' → blank m' = blank m.
Proof. unfold blank. by intros (-> & -> & -> & ->). Qed.

Lemma apply_frame m r : same_frame m (mirror_apply m r).
Proof. destruct r; simpl; repeat case_decide; done. Qed.

Lemma foldl_frame m rs : same_frame m (foldl mirror_apply m rs).
Proof.
  revert m. induction rs as [|r rs IH]; intros m; [done|]. simpl.
  destruct (IH (mirror_apply m r)) as (? & ? & ? & ?), (apply_frame m r) as (? & ? & ? & ?).
  repeat split; congruence.
Qed.

Lemma mirror_start_pos m : (1 ≤ mem_start m)%N.
Proof. unfold mem_start. case_decide; lia. Qed.

Lemma settle_at_start k m : (mem_start m ≤ k)%N → mem_start (settle_at k m) = k.
Proof. pose proof (mirror_start_pos m). unfold mem_start at 2. simpl. case_decide; lia. Qed.

Lemma apply_truncate m i :
  mirror_apply m (Truncate i) = mem_set_log (take (N.to_nat (i - mem_start m)) (m_log m)) m.
Proof.
  simpl. replace (if decide (i ≤ mem_start m)%N then 0 else N.to_nat (i - mem_start m))
    with (N.to_nat (i - mem_start m)) by (case_decide; lia).
  case_decide; [done|]. rewrite take_ge by lia. by destruct m.
Qed.

Lemma settle_set_log k l m :
  settle_at k (mem_set_log l m) = mem_set_log (drop (N.to_nat (k - mem_start m)) l) (settle_at k m).
Proof. done. Qed.

Lemma settle_apply k m r : (mem_start m ≤ k)%N → rec_ok m r →
  mirror_apply (settle_at k m) r = settle_at k (mirror_apply m r).
Proof.
  intros Hk Hok. destruct r as [t|v|e|i]; [done..| |].
  - simpl in Hok |- *. rewrite settle_at_start by done.
    destruct (decide (mem_start m ≤ e_index e)%N); [|by rewrite decide_False by lia].
    destruct Hok as [?|Hidx]; [lia|]. rewrite settle_set_log.
    destruct (decide (k ≤ e_index e)%N); [by rewrite drop_app_le by lia|].
    rewrite drop_ge by (rewrite length_app; simpl; lia).
    unfold settle_at, mem_set_log. simpl. by rewrite drop_ge by lia.
  - rewrite !apply_truncate, settle_set_log, settle_at_start by done. f_equal. simpl.
    destruct (decide (k ≤ i)%N).
    + rewrite take_drop_commute. do 2 f_equal. lia.
    + replace (N.to_nat (i - k)) with 0 by lia. rewrite take_0.
      by rewrite drop_ge by (rewrite length_take; lia).
Qed.

Lemma settle_rec_ok k m r : (mem_start m ≤ k)%N → rec_ok m r → rec_ok (settle_at k m) r.
Proof.
  intros Hk. destruct r as [| |e|]; [done..| |done]. simpl.
  rewrite settle_at_start, length_drop by done. lia.
Qed.

(** A change to the store that every record of a history commutes with. *)
Lemma foldl_commute (g : Mirror → Mirror) (P : Mirror → Prop) :
  (∀ m r, P m → rec_ok m r →
     mirror_apply (g m) r = g (mirror_apply m r) ∧ rec_ok (g m) r ∧ P (mirror_apply m r)) →
  ∀ m rs, P m → hist_ok m rs →
  foldl mirror_apply (g m) rs = g (foldl mirror_apply m rs) ∧ hist_ok (g m) rs.
Proof.
  intros Hg m rs. revert m. induction rs as [|r rs IH]; intros m HP; simpl; [done|].
  intros [Hr Hrs]. destruct (Hg m r HP Hr) as (-> & Hr' & HP').
  destruct (IH (mirror_apply m r) HP' Hrs). done.
Qed.

(** Replaying a history above a later start compacts its result. *)
Lemma settle_foldl k m rs : (mem_start m ≤ k)%N → hist_ok m rs →
  foldl mirror_apply (settle_at k m) rs = settle_at k (foldl mirror_apply m rs) ∧
  hist_ok (settle_at k m) rs.
Proof.
  apply (foldl_commute (settle_at k) (λ m, (mem_start m ≤ k)%N)). clear. intros m r Hk Hr.
  rewrite settle_apply, (same_frame_start _ _ (apply_frame m r)) by done.
  split_and!; [done|by apply settle_rec_ok|done].
Qed.

Lemma apply_consecutive m r : rec_ok m r → consecutive m → consecutive (mirror_apply m r).
Proof.
  intros Hr Hm p e. rewrite (same_frame_start _ _ (apply_frame m r)).
  destruct r as [t|v|e'|i]; [apply Hm..| |].
  - simpl in *. case_decide; [|apply Hm]. simpl.
    intros [He|[? He]]%lookup_app_Some; [by apply Hm|].
    apply list_lookup_singleton_Some in He as [? ->]. lia.
  - rewrite apply_truncate. simpl. intros [? _]%lookup_take_Some. by apply Hm.
Qed.

Lemma foldl_consecutive m rs : hist_ok m rs → consecutive m → consecutive (foldl mirror_apply m rs).
Proof.
  revert m. induction rs as [|r rs IH]; intros m; simpl; [done|]. intros [Hr Hrs] Hm.
  apply IH; [done|]. by apply apply_consecutive.
Qed.

(** ** The invariant of an open store *)

Definition entry_ok (e : LogEntry) : Prop :=
  entry_wf e ∧ (N.of_nat (length (encode_body (AppendEntry e))) ≤ U32_MAX)%N.

Definition snap_ok (meta : SnapshotMeta) (data : list byte) : Prop :=
  (last_included_index meta < U64_MAX)%N ∧ u64 (last_included_term meta) ∧ vec data ∧
  (N.of_nat (length (snapshot_body meta data)) ≤ U32_MAX)%N.

Definition cfg_ok (voters learners : gset NodeId) : Prop :=
  node_set voters ∧ node_set learners ∧
  (N.of_nat (length (config_body voters learners)) ≤ U32_MAX)%N.

Definition opt_u64 (v : option N) : Prop := match v with Some n => u64 n | None => True end.

Definition snap_inv (d : Disk) (m : Mirror) : Prop :=
  match m_snap_meta m with
  | Some meta =>
      snap_ok meta (m_snap_data m) ∧ (mem_start m ≤ last_included_index meta + 1)%N ∧
      d_snap d = encode_snapshot_frame meta (m_snap_data m)
  | None => m_snap_data m = [] ∧ m_log_start m = 0%N ∧ d_snap d = None
  end.

Definition cfg_inv (d : Disk) (m : Mirror) : Prop :=
  match m_config_baseline m with
  | Some (vs, ls) => cfg_ok vs ls ∧ d_cfg d = encode_config_baseline_frame vs ls
  | None => d_cfg d = None
  end.

Record file_inv (fs : FileStorage) (rs : list LogRecord) : Prop := {
  fi_frames : encode_frames rs = Some (d_log (disk fs));
  fi_wf : Forall record_wf rs;
  fi_replay : foldl mirror_apply (blank (mirror fs)) rs = mirror fs;
  fi_hist : hist_ok (blank (mirror fs)) rs;
  fi_entries : Forall entry_ok (m_log (mirror fs));
  fi_state : u64 (m_current_term (mirror fs)) ∧ opt_u64 (m_voted_for (mirror fs));
  fi_snap : snap_inv (disk fs) (mirror fs);
  fi_cfg : cfg_inv (disk fs) (mirror fs)
}.

Lemma load_sidecar_frame {A} (p : reader A) body f x :
  reads p body x → frame body = Some f → load_sidecar p (Some f) = Some x.
Proof.
  intros Hp Hf. unfold load_sidecar. pose proof (frame_at_found [] body f [] Hf) as Hat.
  rewrite app_nil_r in Hat. simpl in Hat. rewrite Hat. apply whole_Some.
  by rewrite <- (app_nil_r body).
Qed.

Lemma frame_is_Some body : (N.of_nat (length body) ≤ U32_MAX)%N → is_Some (frame body).
Proof. intros. unfold frame. rewrite decide_True by done. eauto. Qed.

Lemma load_snapshot_inv d m : snap_inv d m →
  load_snapshot_file (d_snap d) = (λ meta, (meta, m_snap_data m)) <$> m_snap_meta m.
Proof.
  unfold snap_inv. destruct (m_snap_meta m) as [meta|] eqn:E; [|by intros (_ & _ & ->)].
  intros ((Hi & Ht & Hd & Hl) & _ & ->).
  destruct (frame_is_Some (snapshot_body meta (m_snap_data m)) Hl) as [f Hf].
  unfold encode_snapshot_frame. rewrite Hf. eapply load_sidecar_frame; [|done].
  assert (u64 (last_included_index meta)) by (unfold u64; lia). destruct meta as [i t].
  unfold get_snapshot, snapshot_body. cbn [last_included_index last_included_term] in *. reads_fields.
Qed.

Lemma load_cfg_inv d m : cfg_inv d m → load_config_baseline_file (d_cfg d) = m_config_baseline m.
Proof.
  unfold cfg_inv. destruct (m_config_baseline m) as [[vs ls]|] eqn:E; [|by intros ->].
  intros ((Hv & Hl & Hlen) & ->). destruct (frame_is_Some (config_body vs ls) Hlen) as [f Hf].
  unfold encode_config_baseline_frame. rewrite Hf. eapply load_sidecar_frame; [|done].
  unfold get_config_baseline, config_body. reads_fields.
Qed.

(** The seed [open] builds from the sidecars. *)
Lemma seed_settle d m : snap_inv d m →
  seed_snapshot (load_snapshot_file (d_snap d)) = Some (mem_set_config None (settle (blank m))).
Proof.
  intros Hs. rewrite (load_snapshot_inv _ _ Hs). unfold snap_inv, settle, blank in *. simpl.
  destruct (m_snap_meta m) as [meta|] eqn:E; simpl.
  - destruct Hs as ((Hi & _) & _ & _). rewrite add64_small by lia. simpl.
    unfold settle_at, mem_set_config. simpl. by rewrite drop_nil.
  - destruct Hs as (-> & -> & _). done.
Qed.

Lemma settle_snap_start d m : snap_inv d m →
  match m_snap_meta m with Some meta => (mem_start m ≤ last_included_index meta + 1)%N | None => True end.
Proof. unfold snap_inv. destruct (m_snap_meta m); naive_solver. Qed.

Lemma settle_blank m : blank (settle m) = settle (blank m).
Proof.
  unfold settle. change (m_snap_meta (blank m)) with (m_snap_meta m).
  destruct (m_snap_meta m); [|done]. unfold settle_at, blank. simpl. by rewrite drop_nil.
Qed.

(** Reopening after a crash that left [t] behind the last whole frame. *)
Lemma open_recovers fs rs t : file_inv fs rs → torn t →
  file_open (write_all t (disk fs)) = Some (mkFile (disk fs) (settle (mirror fs))) ∧
  file_inv (mkFile (disk fs) (settle (mirror fs))) rs.
Proof.
  intros [Hf Hwf Hrep Hh He Hst Hs Hc] Ht. destruct fs as [[lg sn cf] m]; simpl in *.
  assert (foldl mirror_apply (settle (blank m)) rs = settle m ∧ hist_ok (settle (blank m)) rs)
    as [Hrep' Hh'].
  { unfold settle. change (m_snap_meta (blank m)) with (m_snap_meta m).
    pose proof (settle_snap_start _ _ Hs). destruct (m_snap_meta m) as [meta|]; [|done].
    destruct (settle_foldl (last_included_index meta + 1) (blank m) rs) as [Heq ?]; [done..|].
    by rewrite Heq, Hrep. }
  split.
  - unfold file_open. cbn [write_all d_log d_snap d_cfg].
    pose proof (seed_settle _ _ Hs) as Hseed. cbn [d_snap] in Hseed. rewrite Hseed. simpl.
    rewrite (load_cfg_inv (mkDisk lg sn cf) m Hc : load_config_baseline_file cf = _).
    replace (mem_set_config (m_config_baseline m) (mem_set_config None (settle (blank m))))
      with (settle (blank m)); [|unfold settle, blank; simpl; by destruct (m_snap_meta m)].
    rewrite (replay_into_frames rs lg t) by done. rewrite Hrep'. do 3 f_equal.
    case_decide; [by rewrite take_app_length|]. rewrite length_app in *.
    destruct t; [by rewrite app_nil_r|simpl in *; lia].
  - split; simpl; [done..| | | | | |].
    + by rewrite settle_blank.
    + by rewrite settle_blank.
    + unfold settle. destruct (m_snap_meta m); [|done]. by apply Forall_drop.
    + unfold settle. by destruct (m_snap_meta m).
    + unfold snap_inv, settle in *. destruct (m_snap_meta m) as [meta|] eqn:E; simpl; rewrite E; [|done].
      destruct Hs as (? & ? & ?). split_and!; [done| |done]. by rewrite settle_at_start.
    + unfold cfg_inv, settle in *. by destruct (m_snap_meta m).
Qed.

(** ** Calls

    [op_ok op m]: the arguments fit their types and frames, entries continue the
    log, a snapshot is not behind the log's start, and compaction stays below
    the saved snapshot - the order in which the engine makes these calls. *)

Fixpoint entries_follow (i : N) (es : list LogEntry) : Prop :=
  match es with
  | [] => True
  | e :: es => e_index e = i ∧ entry_ok e ∧ entries_follow (i + 1) es
  end.

Definition log_end (m : Mirror) : N := (mem_start m + N.of_nat (length (m_log m)))%N.

Definition op_ok (op : StorageOp) (m : Mirror) : Prop :=
  match op with
  | OpSetCurrentTerm n | OpTruncateFrom n => u64 n
  | OpSetVotedFor v => opt_u64 v
  | OpAppend e => entries_follow (log_end m) [e]
  | OpAppendEntries es => entries_follow (log_end m) es
  | OpSaveSnapshot meta data =>
      snap_ok meta data ∧ (mem_start m ≤ last_included_index meta + 1)%N
  | OpCompactTo i => ∃ meta, m_snap_meta m = Some meta ∧ (i ≤ last_included_index meta)%N
  | OpSaveConfigBaseline vs ls => cfg_ok vs ls
  end.

(** The records a call appends; the other calls replace a file. *)
Definition op_records (op : StorageOp) : option (list LogRecord) :=
  match op with
  | OpSetCurrentTerm t => Some [SetTerm t]
  | OpSetVotedFor v => Some [SetVote v]
  | OpAppend e => Some [AppendEntry e]
  | OpTruncateFrom i => Some [Truncate i]
  | OpAppendEntries es => Some (map AppendEntry es)
  | _ => None
  end.

(** What a crash during (or before) a call can leave on disk: a prefix of the
    appended bytes, or the old or the new contents of a replaced file. *)
Inductive crash_disk (op : StorageOp) (fs : FileStorage) : Disk → Prop :=
  | crash_before : crash_disk op fs (disk fs)
  | crash_append rs buf k :
      op_records op = Some rs → encode_frames rs = Some buf →
      crash_disk op fs (write_all (take k buf) (disk fs))
  | crash_rename fs' :
      op_records op = None → file_op op fs = Some fs' → crash_disk op fs (disk fs').

(** Stores reached from an empty directory by calls and crashes. *)
Inductive reachable : FileStorage → Prop :=
  | reach_fresh fs : file_open (mkDisk [] None None) = Some fs → reachable fs
  | reach_op op fs fs' :
      reachable fs → op_ok op (mirror fs) → file_op op fs = Some fs' → reachable fs'
  | reach_crash op fs d fs' :
      reachable fs → op_ok op (mirror fs) → crash_disk op fs d → file_open d = Some fs' →
      reachable fs'.

Lemma record_frames rs :
  Forall (λ r, (N.of_nat (length (encode_body r)) ≤ U32_MAX)%N) rs → is_Some (encode_frames rs).
Proof.
  induction 1 as [|r rs Hr _ [buf IH]]; simpl; [eauto|].
  destruct (frame_is_Some _ Hr) as [f Hf]. unfold encode_frame. rewrite Hf, IH. simpl. eauto.
Qed.

(** What the invariant needs of appended records. *)
Definition records_ok (m : Mirror) (rs : list LogRecord) : Prop :=
  Forall record_wf rs ∧ hist_ok m rs ∧
  Forall (λ r, (N.of_nat (length (encode_body r)) ≤ U32_MAX)%N) rs.

Lemma length_put_u64 n : length (put_u64 n) = 8.
Proof. apply length_to_le_bytes. Qed.

Lemma small_body r :
  match r with AppendEntry _ => True | _ => (N.of_nat (length (encode_body r)) ≤ U32_MAX)%N end.
Proof.
  destruct r as [|[]| |]; [..|done|]; unfold encode_body; rewrite ?length_app, ?length_put_u64;
    unfold U32_MAX; simpl length; lia.
Qed.

Lemma follow_records m es :
  entries_follow (log_end m) es → records_ok m (map AppendEntry es) ∧
  foldl mirror_apply m (map AppendEntry es) = mem_append_entries es m.
Proof.
  revert m. induction es as [|e es IH]; intros m; simpl.
  { split; [repeat split; constructor|]. unfold mem_append_entries. rewrite app_nil_r. by destruct m. }
  intros (He & Hok & Hes). unfold log_end in He. rewrite decide_True by lia.
  destruct (IH (mem_set_log (m_log m ++ [e]) m)) as [(Hw & Hh & Hl) Heq].
  { unfold log_end in *. unfold mem_start in *. simpl. rewrite length_app. simpl.
    eapply (eq_ind _ (λ i, entries_follow i es)); [done|lia]. }
  split.
  - split; [|split]; [by apply Forall_cons_2; [apply Hok|]| |by apply Forall_cons_2; [apply Hok|]].
    simpl. rewrite decide_True by lia. split; [by right|done].
  - rewrite Heq. unfold mem_append_entries, mem_set_log. simpl. by rewrite <- (assoc_L (++)).
Qed.

Lemma op_records_ok op m rs : op_ok op m → op_records op = Some rs →
  records_ok m rs ∧ mem_op op m = Some (foldl mirror_apply m rs).
Proof.
  destruct op as [t|v|e|i|es|meta data|i|vs ls]; intros Hok [= <-].
  - split; [|done]. repeat split; repeat constructor; [done|apply (small_body (SetTerm t))].
  - split; [|done]. repeat split; repeat constructor; [by destruct v|apply (small_body (SetVote v))].
  - destruct (follow_records m [e] Hok) as [? Heq]. split; [done|]. simpl in Heq |- *. by rewrite Heq.
  - split; [|done]. repeat split; repeat constructor; [done|apply (small_body (Truncate i))].
  - destruct (follow_records m es Hok) as [? Heq]. split; [done|]. simpl. by rewrite Heq.
Qed.

Lemma records_ok_take m rs j : records_ok m rs → records_ok m (take j rs).
Proof.
  intros (Hw & Hh & Hl). split; [|split]; [by apply Forall_take| |by apply Forall_take].
  rewrite <- (take_drop j rs) in Hh. by apply hist_ok_app in Hh as [? _].
Qed.

Definition state_ok (m : Mirror) : Prop :=
  Forall entry_ok (m_log m) ∧ u64 (m_current_term m) ∧ opt_u64 (m_voted_for m).

Lemma foldl_state_ok m rs : records_ok m rs → state_ok m → state_ok (foldl mirror_apply m rs).
Proof.
  revert m. induction rs as [|r rs IH]; intros m; [done|].
  intros (Hw & [_ Hh] & Hl) (He & Ht & Hv). inversion_clear Hw. inversion_clear Hl.
  apply (IH (mirror_apply m r)); [done|].
  destruct r as [t|v|e|i]; [by repeat split..| |].
  - simpl. case_decide; [|done]. split; [|done]. simpl. by apply Forall_app_2; [|constructor].
  - rewrite apply_truncate. split; [|done]. by apply Forall_take.
Qed.

Lemma inv_append fs rs0 rs buf :
  file_inv fs rs0 → records_ok (mirror fs) rs → encode_frames rs = Some buf →
  file_inv (mkFile (write_all buf (disk fs)) (foldl mirror_apply (mirror fs) rs)) (rs0 ++ rs).
Proof.
  intros [Hf Hwf Hrep Hh He [Ht Hv] Hs Hc] Hok Hbuf. destruct fs as [d m]; simpl in *.
  pose proof (foldl_frame m rs) as Hfr.
  destruct (foldl_state_ok m rs) as (He' & Hst); [done..|].
  pose proof Hok as (Hw & Hh' & _). split; simpl.
  - apply encode_frames_app. naive_solver.
  - by apply Forall_app_2.
  - by rewrite (same_frame_blank _ _ Hfr), foldl_app, Hrep.
  - rewrite (same_frame_blank _ _ Hfr), hist_ok_app, Hrep. done.
  - done.
  - done.
  - unfold snap_inv in *. rewrite (same_frame_start _ _ Hfr). by destruct Hfr as (-> & -> & -> & _).
  - unfold cfg_inv in *. by destruct Hfr as (_ & _ & _ & ->).
Qed.

Lemma file_op_records op fs rs buf : op_records op = Some rs → encode_frames rs = Some buf →
  file_op op fs = Some (mkFile (write_all buf (disk fs)) (foldl mirror_apply (mirror fs) rs)).
Proof.
  assert (∀ r, encode_frames [r] = Some buf → append_record r fs =
    Some (mkFile (write_all buf (disk fs)) (mirror_apply (mirror fs) r))) as Hone.
  { intros r (f & Hf & [= <-])%bind_Some. unfold append_record. rewrite Hf. simpl.
    by rewrite app_nil_r. }
  destruct op; intros [= <-] Hbuf; [by apply Hone..| |].
  - by apply Hone.
  - simpl. destruct entries as [|e es]; simpl map in *.
    + simpl in Hbuf. simplify_eq. destruct fs as [[] ?]. unfold write_all; simpl.
      by rewrite app_nil_r.
    + unfold append_records. by rewrite Hbuf.
Qed.

(** The files that are replaced whole. *)
Lemma save_snapshot_foldl meta data m rs : hist_ok m rs →
  foldl mirror_apply (mem_save_snapshot meta data m) rs =
    mem_save_snapshot meta data (foldl mirror_apply m rs) ∧
  hist_ok (mem_save_snapshot meta data m) rs.
Proof.
  apply (foldl_commute (mem_save_snapshot meta data) (λ _, True)); [|done].
  intros m' [| | |] _ Hr; split_and!; try done; simpl;
    change (mem_start (mem_save_snapshot meta data m')) with (mem_start m');
    repeat case_decide; done.
Qed.

Lemma save_config_foldl vs ls m rs : hist_ok m rs →
  foldl mirror_apply (mem_save_config_baseline vs ls m) rs =
    mem_save_config_baseline vs ls (foldl mirror_apply m rs) ∧
  hist_ok (mem_save_config_baseline vs ls m) rs.
Proof.
  apply (foldl_commute (mem_save_config_baseline vs ls) (λ _, True)); [|done].
  intros m' [| | |] _ Hr; split_and!; try done; simpl;
    change (mem_start (mem_save_config_baseline vs ls m')) with (mem_start m');
    repeat case_decide; done.
Qed.

Lemma inv_save_snapshot fs rs meta data :
  file_inv fs rs → op_ok (OpSaveSnapshot meta data) (mirror fs) →
  ∃ fs', persist_snapshot meta data fs = Some fs' ∧ file_inv fs' rs ∧
    mirror fs' = mem_save_snapshot meta data (mirror fs).
Proof.
  intros [Hf Hwf Hrep Hh He Hst Hs Hc] [Hok Hle]. destruct fs as [d m]; simpl in *.
  pose proof Hok as (_ & _ & _ & Hlen). destruct (frame_is_Some _ Hlen) as [f Hfr].
  unfold persist_snapshot, encode_snapshot_frame. rewrite Hfr. eexists. split_and!; [done| |done].
  destruct (save_snapshot_foldl meta data (blank m) rs Hh) as [Hrep' Hh'].
  split; simpl; try done. by rewrite Hrep in Hrep'.
Qed.

Lemma inv_save_config fs rs vs ls :
  file_inv fs rs → cfg_ok vs ls →
  ∃ fs', persist_config_baseline vs ls fs = Some fs' ∧ file_inv fs' rs ∧
    mirror fs' = mem_save_config_baseline vs ls (mirror fs).
Proof.
  intros [Hf Hwf Hrep Hh He Hst Hs Hc] Hok. destruct fs as [d m]; simpl in *.
  pose proof Hok as (_ & _ & Hlen). destruct (frame_is_Some _ Hlen) as [f Hfr].
  unfold persist_config_baseline, encode_config_baseline_frame. rewrite Hfr.
  eexists. split_and!; [done| |done].
  destruct (save_config_foldl vs ls (blank m) rs Hh) as [Hrep' Hh'].
  split; simpl; try done. by rewrite Hrep in Hrep'.
Qed.

Lemma inv_consecutive fs rs : file_inv fs rs → consecutive (mirror fs).
Proof.
  intros H. rewrite <- (fi_replay _ _ H). apply foldl_consecutive; [apply H|]. by intros ??.
Qed.

(** A log of consecutive entries can be rebuilt by appending them. *)
Lemma consecutive_follow m es :
  (∀ p e, es !! p = Some e → e_index e = (log_end m + N.of_nat p)%N) → Forall entry_ok es →
  entries_follow (log_end m) es.
Proof.
  generalize (log_end m). induction es as [|e es IH]; intros i Hes Hok; simpl; [done|].
  inversion_clear Hok. split_and!; [|done|].
  - specialize (Hes 0 e eq_refl). lia.
  - apply IH; [|done]. intros p e' He'. specialize (Hes (S p) e' He'). lia.
Qed.

(** The rewritten log replays to the store it was made from. *)
Lemma mirror_records_ok m : consecutive m → state_ok m →
  records_ok (blank m) (mirror_records m) ∧ foldl mirror_apply (blank m) (mirror_records m) = m.
Proof.
  intros Hcons (He & Ht & Hv).
  destruct (follow_records (mirror_apply (mirror_apply (blank m) (SetTerm (m_current_term m)))
    (SetVote (m_voted_for m))) (m_log m)) as [(Hw & Hh & Hl) Heq].
  { apply consecutive_follow; [|done]. intros p e Hp. rewrite (Hcons _ _ Hp).
    unfold log_end, mem_start. simpl. lia. }
  unfold mirror_records. split.
  - split; [|split].
    + by repeat apply Forall_cons_2; [|destruct (m_voted_for m)|].
    + done.
    + repeat apply Forall_cons_2; [apply (small_body (SetTerm _))|apply (small_body (SetVote _))|done].
  - change (foldl mirror_apply (blank m) _) with (foldl mirror_apply (mirror_apply (mirror_apply
      (blank m) (SetTerm (m_current_term m))) (SetVote (m_voted_for m))) (map AppendEntry (m_log m))).
    rewrite Heq. by destruct m.
Qed.

Lemma inv_compact fs rs i :
  file_inv fs rs → op_ok (OpCompactTo i) (mirror fs) →
  ∃ fs' rs', compact_log_to i fs = Some fs' ∧ file_inv fs' rs' ∧
    mem_compact_to i (mirror fs) = Some (mirror fs').
Proof.
  intros Hinv (meta & Hmeta & Hi). pose proof (inv_consecutive _ _ Hinv) as Hcons.
  destruct Hinv as [Hf Hwf Hrep Hh He [Ht Hv] Hs Hc]. destruct fs as [d m]; simpl in *.
  unfold compact_log_to, mem_compact_to. cbn [disk mirror]. case_decide as Hno; [by exists (mkFile d m), rs|].
  unfold snap_inv in Hs. rewrite Hmeta in Hs. destruct Hs as (Hsok & Hsle & Hsd).
  pose proof Hsok as (Hlt & _). rewrite add64_small by lia. unfold mbind at 1, option_bind at 1.
  cbv beta zeta iota. set (m' := mkMem _ _ _ _ _ _ _).
  assert (mem_start m' = i + 1)%N as Hst' by (unfold mem_start, m'; simpl; case_decide; lia).
  assert (state_ok m') as Hok' by (split; [by apply Forall_drop|done]).
  assert (consecutive m') as Hcons'.
  { intros p e Hp. rewrite Hst'. simpl in Hp. rewrite lookup_drop in Hp.
    pose proof (lookup_lt_Some _ _ _ Hp). rewrite (Hcons _ _ Hp). lia. }
  destruct (mirror_records_ok m' Hcons' Hok') as [(Hw' & Hh' & Hl') Heq'].
  destruct (record_frames _ Hl') as [buf Hbuf]. rewrite Hbuf. simpl.
  eexists _, (mirror_records m'). split_and!; [done| |done].
  split; simpl; try done; [apply Hok'|].
  unfold snap_inv. simpl. rewrite Hmeta. split_and!; [done| |done]. rewrite Hst'. lia.
Qed.

Lemma inv_op fs rs op : file_inv fs rs → op_ok op (mirror fs) →
  ∃ fs' rs', file_op op fs = Some fs' ∧ file_inv fs' rs' ∧
    mem_op op (mirror fs) = Some (mirror fs').
Proof.
  intros Hinv Hok. destruct (op_records op) as [rs1|] eqn:E.
  - destruct (op_records_ok _ _ _ Hok E) as [Hrok Hmem].
    destruct (record_frames rs1) as [buf Hbuf]; [apply Hrok|].
    eexists _, (rs ++ rs1). split_and!; [by apply file_op_records|by apply inv_append|done].
  - destruct op; try done.
    + destruct (inv_save_snapshot _ _ _ _ Hinv Hok) as (fs' & ? & ? & Hm).
      exists fs', rs. split_and!; [done..|]. simpl. by rewrite Hm.
    + apply inv_compact with (rs := rs); done.
    + destruct (inv_save_config _ _ _ _ Hinv Hok) as (fs' & ? & ? & Hm).
      exists fs', rs. split_and!; [done..|]. simpl. by rewrite Hm.
Qed.

(** What an interrupted call may have achieved. *)
Definition outcome (op : StorageOp) (m m' : Mirror) : Prop :=
  m' = m ∨ mem_op op m = Some m' ∨
  ∃ es j, op = OpAppendEntries es ∧ m' = append_entries (take j es) m.

Lemma entries_follow_take i es j : entries_follow i es → entries_follow i (take j es).
Proof.
  revert i j. induction es as [|e es IH]; intros i [|j]; simpl; [done..|]. naive_solver.
Qed.

Lemma outcome_take op m rs j : op_ok op m → op_records op = Some rs →
  outcome op m (foldl mirror_apply m (take j rs)).
Proof.
  intros Hok Hrs. pose proof (op_records_ok _ _ _ Hok Hrs) as [_ Hmem].
  assert (∀ r, rs = [r] → outcome op m (foldl mirror_apply m (take j rs))) as Hone.
  { intros r ->. destruct j as [|j]; [by left|]. right; left. rewrite Hmem. by destruct j. }
  destruct op; simplify_eq/=; try by eapply Hone. right; right. exists entries, j. split; [done|].
  rewrite firstn_map. by apply follow_records, entries_follow_take.
Qed.

Lemma torn_nil : torn [].
Proof. apply torn_short. unfold FRAME_HEADER_LEN. simpl. lia. Qed.

Lemma open_inv fs rs : file_inv fs rs →
  ∃ fs', file_open (disk fs) = Some fs' ∧ file_inv fs' rs ∧ mirror fs' = settle (mirror fs).
Proof.
  intros Hinv. destruct (open_recovers fs rs [] Hinv torn_nil) as [Ho Hi].
  replace (write_all [] (disk fs)) with (disk fs) in Ho
    by (destruct fs as [[] ?]; unfold write_all; simpl; by rewrite app_nil_r).
  eauto.
Qed.

Lemma inv_crash fs rs op d : file_inv fs rs → op_ok op (mirror fs) → crash_disk op fs d →
  ∃ fs' rs' m', file_open d = Some fs' ∧ file_inv fs' rs' ∧
    outcome op (mirror fs) m' ∧ mirror fs' = settle m'.
Proof.
  intros Hinv Hok [|rs1 buf k Hrs Hbuf|fs' Hnone Hop].
  - destruct (open_inv _ _ Hinv) as (fs' & ? & ? & ?).
    exists fs', rs, (mirror fs). split_and!; [done..|by left|done].
  - destruct (torn_split _ _ k Hbuf) as (j & b & t & Hb & -> & Ht).
    destruct (op_records_ok _ _ _ Hok Hrs) as [Hrok _].
    pose proof (inv_append _ _ _ _ Hinv (records_ok_take _ _ j Hrok) Hb) as Hinv'.
    destruct (open_recovers _ _ t Hinv' Ht) as [Hopen Hinv''].
    unfold write_all in Hopen. simpl in Hopen. rewrite <- (assoc_L (++)) in Hopen.
    eexists _, _, _. split_and!; [done..| |done]. by apply outcome_take.
  - destruct (inv_op _ _ _ Hinv Hok) as (fs'' & rs' & Hop' & Hinv' & Hmem).
    rewrite Hop in Hop'. simplify_eq. destruct (open_inv _ _ Hinv') as (fs' & ? & ? & ?).
    exists fs', rs', (mirror fs''). split_and!; [done..| |done]. right; by left.
Qed.

Lemma file_reachable_inv fs : reachable fs → ∃ rs, file_inv fs rs.
Proof.
  induction 1 as [fs Ho|op fs fs' _ [rs Hinv] Hok Hop|op fs d fs' _ [rs Hinv] Hok Hd Ho].
  - injection Ho as <-. exists []. split; simpl; try done; constructor.
  - destruct (inv_op _ _ _ Hinv Hok) as (? & rs' & ? & ? & _). simplify_eq. eauto.
  - destruct (inv_crash _ _ _ _ Hinv Hok Hd) as (? & rs' & ? & ? & ? & _). simplify_eq. eauto.
Qed.



(** The index a store's snapshot covers. *)
Definition snap_index (m : Mirror) : N :=
  match m_snap_meta m with Some meta => last_included_index meta | None => 0 end.

Lemma settle_log_at k m i : (mem_start m ≤ k)%N → (k ≤ i)%N →
  mem_log_at (settle_at k m) i = mem_log_at m i.
Proof.
  intros Hk Hi. unfold mem_log_at, mem_pos_of. rewrite settle_at_start by done. simpl.
  rewrite length_drop, !decide_False by lia.
  repeat case_decide; try done; try lia. rewrite lookup_drop. f_equal. lia.
Qed.

(** Recovery forgets nothing the engine relies on: the recovered store
    answers the term, the vote, the snapshot and the membership baseline as
    the store that crashed, and every entry and term above its snapshot. *)
Theorem recovery_preserves (fs : FileStorage) (Hfs : reachable fs) :
  current_term (settle (mirror fs)) = current_term (mirror fs) ∧
  voted_for (settle (mirror fs)) = voted_for (mirror fs) ∧
  load_snapshot (settle (mirror fs)) = load_snapshot (mirror fs) ∧
  load_config_baseline (settle (mirror fs)) = load_config_baseline (mirror fs) ∧
  term_at (snap_index (mirror fs)) (settle (mirror fs)) = term_at (snap_index (mirror fs)) (mirror fs) ∧
  ∀ i, (snap_index (mirror fs) < i)%N →
    entry_at i (settle (mirror fs)) = entry_at i (mirror fs) ∧
    term_at i (settle (mirror fs)) = term_at i (mirror fs).
Proof.
  destruct (file_reachable_inv _ Hfs) as [rs Hinv]. pose proof (fi_snap _ _ Hinv) as Hs.
  apply settle_snap_start in Hs. destruct fs as [d m]. simpl in *.
  unfold settle, snap_index in *. destruct (m_snap_meta m) as [meta|] eqn:E; [|done].
  split_and!; try done.
  - unfold mem_term_at. simpl. rewrite E. case_decide; [done|]. by rewrite !decide_True.
  - intros i Hi. unfold mem_entry_at, mem_term_at. rewrite settle_log_at by lia. simpl.
    by rewrite E.
Qed.

(** Bit rot: when one byte of a record's body is damaged on disk, replay
    recovers exactly the records before it and reports the file as good up to
    that record, whatever follows. *)
Theorem damaged_record_stops_replay (seed : Mirror) (rs : list LogRecord) (buf : list byte)
    (r : LogRecord) (pre post f rest : list byte) (b b' : byte)
    (Hrs : encode_frames rs = Some buf) (Hwf : Forall record_wf rs)
    (Hr : encode_body r = pre ++ b :: post) (Hf : encode_frame r = Some f) (Hne : b ≠ b') :
  replay_into seed (buf ++ take FRAME_HEADER_LEN f ++ (pre ++ b' :: post) ++ rest) =
  (foldl mirror_apply seed rs, length buf).
Proof.
  apply replay_into_frames; [done..|]. unfold encode_frame in Hf. rewrite Hr in Hf.
  by eapply torn_damaged.
Qed.
