(* ===== verification/FileScenarios.v ===== *)
(** * The durable store and the codec on concrete inputs

    A node that stores a term and a vote, is cut off while it appends a batch,
    compacts behind a snapshot, and finds a damaged byte in its log. *)

From Stdlib Require Import Lia ZArith NArith.
From S2P Require Import Prelude Env RaftTypes RaftStorage RaftCodec RaftCodecProofs FileStorage FileStorageProofs.
From stdpp Require Import strings.

#[local] Open Scope nat_scope.

Definition entry1 : LogEntry := mkEntry 3 1 (Config (AddNode "n1" "10.0.0.1" 7000)).
Definition entry2 : LogEntry := mkEntry 3 2 (Bytes [x41; x42]).
Definition snapshot1 : SnapshotMeta := mkMeta 1 3.

Definition blank_file : FileStorage := mkFile (mkDisk [] None None) mem_new.

Definition after (op : StorageOp) (fs : FileStorage) : FileStorage := default fs (file_op op fs).

(** A term and a vote, then two entries and a snapshot of the first. *)
Definition term_file : FileStorage := after (OpSetCurrentTerm 3) blank_file.
Definition voted_file : FileStorage := after (OpSetVotedFor (Some 2%N)) term_file.
Definition batch_file : FileStorage := after (OpAppendEntries [entry1; entry2]) voted_file.
Definition snapped_file : FileStorage := after (OpSaveSnapshot snapshot1 [x2a]) batch_file.

Ltac fits := vm_compute; repeat split; first [done | discriminate | intros; discriminate].

Lemma reach_after op fs :
  reachable fs → op_ok op (mirror fs) → is_Some (file_op op fs) → reachable (after op fs).
Proof.
  intros Hfs Hok [fs' Hop]. unfold after. rewrite Hop. by eapply reach_op.
Qed.

Lemma voted_reachable : reachable voted_file.
Proof.
  apply reach_after; [|fits|vm_compute; eauto]. apply reach_after; [|fits|vm_compute; eauto].
  apply reach_fresh. vm_compute. reflexivity.
Qed.

Lemma batch_ok : op_ok (OpAppendEntries [entry1; entry2]) (mirror voted_file).
Proof. fits. Qed.

Lemma snapped_reachable : reachable snapped_file.
Proof.
  apply reach_after; [|fits|vm_compute; eauto].
  apply reach_after; [apply voted_reachable|apply batch_ok|vm_compute; eauto].
Qed.


(** The batch is cut after 70 bytes. *)
Definition cut_disk : Disk :=
  write_all (take 70 (default [] (encode_frames (map AppendEntry [entry1; entry2])))) (disk voted_file).


(** The second entry is torn; the first one, the term and the vote are there. *)
Lemma cut_disk_recovers :
  mirror <$> file_open cut_disk = Some (mkMem 3 (Some 2%N) [entry1] 0 None [] None).
Proof. vm_compute. reflexivity. Qed.

Lemma recovery_preserves_witness :
  entry_at 2 (settle (mirror snapped_file)) = Some entry2.
Proof.
  destruct (recovery_preserves snapped_file snapped_reachable) as (_ & _ & _ & _ & _ & H).
  destruct (H 2%N) as [He _]; [fits|]. rewrite He. vm_compute. reflexivity.
Defined.

Definition rotten_log : list byte :=
  default [] (encode_frames [SetTerm 3]) ++
  take FRAME_HEADER_LEN (default [] (encode_frame (SetVote (Some 2%N)))) ++
  ([x02] ++ x03 :: put_u64 2) ++ default [] (encode_frames [SetTerm 9]).

Lemma damaged_record_stops_replay_witness :
  replay_into mem_new rotten_log = (mem_set_current_term 3 mem_new, 17).
Proof.
  refine (damaged_record_stops_replay mem_new [SetTerm 3] _ (SetVote (Some 2%N)) [x02] (put_u64 2) _ _
    x01 x03 _ _ _ _ _); [reflexivity|repeat constructor; fits|reflexivity|reflexivity|discriminate].
Defined.

Lemma raft_msg_roundtrip_witness :
  decode_raft_msg (encode_raft_msg (AppendEntries 3 1 0 0 [entry1; entry2] 0)) =
    Some (AppendEntries 3 1 0 0 [entry1; entry2] 0).
Proof.
  apply raft_msg_roundtrip. split_and!; [fits..|].
  apply Forall_cons_2; [fits|]. apply Forall_cons_2; [fits|]. apply Forall_nil_2.
Defined.

Lemma decode_raft_msg_wf_witness : msg_wf (RequestVoteResp 7 true).
Proof. apply (decode_raft_msg_wf odd_vote). reflexivity. Defined.
