(* ===== verification/Expiry.v ===== *)
(** * The timing wheel of active expiry (crates/ironcache-expiry/src/lib.rs)

    Four levels of 64 slots, each a queue of pending deadlines.  A deadline sits
    at the finest level that still tells its delay apart, and cascades down as
    the wheel turns.  Ticks are u64 counts of 100 ms. *)

From Stdlib Require Import Lia ZArith NArith.
From S2P Require Import Prelude.

#[local] Open Scope N_scope.

Definition TICK_MS : N := 100.
Definition WHEEL_SIZE : N := 64.
Definition LEVELS : nat := 4.
Definition MAX_TICKS_PER_CALL : N := 4 * WHEEL_SIZE.

Record Pending := mkPending { p_db : N; p_key : list byte; p_tick : N }.

(** [slots[level][slot]]. *)
Abbreviation Slots := (list (list (list Pending))) (only parsing).

Record TimingWheel := mkWheel {
  w_slots : Slots;
  w_current_tick : option N;
  w_len : N
}.

Definition wheel_new : TimingWheel :=
  mkWheel (replicate LEVELS (replicate (N.to_nat WHEEL_SIZE) [])) None 0.

Definition level_span (level : nat) : N := WHEEL_SIZE ^ N.of_nat level.

(** The loop over the levels, finest first. *)
Fixpoint position_scan (levels : list nat) (delay tick : N) : nat * nat :=
  match levels with
  | level :: levels =>
      let span := level_span level in
      if decide (delay < span * WHEEL_SIZE)
      then (level, N.to_nat ((tick / span) mod WHEEL_SIZE))
      else position_scan levels delay tick
  | [] =>
      let top := (LEVELS - 1)%nat in
      (top, N.to_nat ((tick / level_span top) mod WHEEL_SIZE))
  end.

Definition wheel_position (base tick : N) : nat * nat :=
  let delay := tick - base in
  if decide (delay = 0) then (0%nat, N.to_nat (base mod WHEEL_SIZE))
  else position_scan (seq 0 LEVELS) delay tick.

(** [slots[level][slot]] read and changed in place. *)
Definition get_slot (sl : Slots) (level slot : nat) : list Pending :=
  default [] (sl !! level ≫= λ l, l !! slot).

Definition alter_slot (f : list Pending → list Pending) (level slot : nat) (sl : Slots) : Slots :=
  alter (alter f slot) level sl.

Definition push_back (p : Pending) (pos : nat * nat) (sl : Slots) : Slots :=
  alter_slot (λ q, q ++ [p]) pos.1 pos.2 sl.

Definition register (db : N) (key : list byte) (deadline : N) (w : TimingWheel) : TimingWheel :=
  let tick := deadline / TICK_MS in
  let base := default tick (w_current_tick w) in
  mkWheel (push_back (mkPending db key tick) (wheel_position base tick) (w_slots w))
    (w_current_tick w) (w_len w + 1).

Definition cascade_level (tick : N) (sl : Slots) (level : nat) : Slots :=
  let span := level_span level in
  if decide (tick mod span ≠ 0) then sl else
  let slot := N.to_nat ((tick / span) mod WHEEL_SIZE) in
  let drained := get_slot sl level slot in
  foldl (λ sl p, push_back p (wheel_position tick (p_tick p)) sl)
    (alter_slot (λ _, []) level slot sl) drained.

Definition cascade (tick : N) (sl : Slots) : Slots :=
  foldl (cascade_level tick) sl (seq 1 (LEVELS - 1)).

(** The inner drain: the queue, the entries still counted and what was popped;
    [self.len -= 1] panics below zero. *)
Fixpoint drain_slot (q : list Pending) (len : N) (due : list Pending) (max : nat)
    : option (list Pending * N * list Pending) :=
  if decide (length due < max)%nat then
    match q with
    | p :: q => len' ← sub64 len 1; drain_slot q len' (due ++ [p]) max
    | [] => Some ([], len, due)
    end
  else Some (q, len, due).

(** The walk from [cur] to [walk_limit], one round per tick. *)
Fixpoint walk (fuel : nat) (sl : Slots) (len cur walk_limit : N) (due : list Pending) (max : nat)
    : option (Slots * N * N * list Pending) :=
  match fuel with
  | O => Some (sl, len, cur, due)
  | S fuel =>
      if decide (cur < walk_limit) then
        let sl := cascade cur sl in
        let slot := N.to_nat (cur mod WHEEL_SIZE) in
        '(q, len, due) ← drain_slot (get_slot sl 0 slot) len due max;
        let sl := alter_slot (λ _, q) 0 slot sl in
        if decide (max ≤ length due)%nat then Some (sl, len, cur, due)
        else walk fuel sl len (cur + 1) walk_limit due max
      else Some (sl, len, cur, due)
  end.

Definition advance_pending (now : N) (max : nat) (w : TimingWheel)
    : option (list Pending * TimingWheel) :=
  let now_tick := now / TICK_MS in
  match w_current_tick w with
  | None => Some ([], mkWheel (w_slots w) (Some now_tick) (w_len w))
  | Some cur =>
      if decide (max = 0%nat) then Some ([], w) else
      if decide (w_len w = 0) then Some ([], mkWheel (w_slots w) (Some now_tick) (w_len w)) else
      let walk_limit := N.min now_tick (sat_add64 cur MAX_TICKS_PER_CALL) in
      '(sl, len, cur, due) ←
        walk (N.to_nat MAX_TICKS_PER_CALL) (w_slots w) (w_len w) cur walk_limit [] max;
      Some (due, mkWheel sl (Some cur) len)
  end.

(** The caller is given the [(db, key)] pairs. *)
Definition advance (now : N) (max : nat) (w : TimingWheel)
    : option (list (N * list byte) * TimingWheel) :=
  '(due, w') ← advance_pending now max w;
  Some (map (λ p, (p_db p, p_key p)) due, w').
