(* ===== verification/ExpiryProofs.v ===== *)
(** * The timing wheel: no deadline is early, lost, or left behind

    [placed cur l s p] says where an entry may sit when the wheel is at tick
    [cur]: at level 0 in the slot of its tick (or of the present, when it is
    past due), at a higher level in a slot whose cascade lies ahead. *)

From Stdlib Require Import Lia ZArith NArith.
From S2P Require Import Prelude Expiry.

#[local] Open Scope N_scope.

Definition placed (cur : N) (l s : nat) (p : Pending) : Prop :=
  match l with
  | O => s = N.to_nat (N.max (p_tick p) cur mod WHEEL_SIZE) ∧
         N.max (p_tick p) cur < cur + WHEEL_SIZE
  | _ => s = N.to_nat (p_tick p / level_span l mod WHEEL_SIZE) ∧
         cur ≤ p_tick p / level_span l * level_span l
  end.

Definition all_placed (cur : N) (sl : Slots) : Prop :=
  ∀ l s p, p ∈ get_slot sl l s → placed cur l s p.

(** Nothing above level 0 waits for the cascade of [cur]. *)
Definition cascaded (cur : N) (ls : nat → Prop) (sl : Slots) : Prop :=
  ∀ l s p, l ≠ 0%nat → ls l → p ∈ get_slot sl l s →
    cur < p_tick p / level_span l * level_span l.

Definition wheel_shape (sl : Slots) : Prop :=
  length sl = LEVELS ∧ Forall (λ l, length l = N.to_nat WHEEL_SIZE) sl.

Definition in_range (l s : nat) : Prop := (l < LEVELS)%nat ∧ (s < N.to_nat WHEEL_SIZE)%nat.

Definition entries (sl : Slots) : list Pending := concat (concat sl).

(** ** Slots *)

Lemma shape_lookup sl l s : wheel_shape sl → in_range l s →
  ∃ lv, sl !! l = Some lv ∧ lv !! s = Some (get_slot sl l s).
Proof.
  intros [Hlen Hall] [Hl Hs]. destruct (lookup_lt_is_Some_2 sl l) as [lv Hlv]; [lia|].
  eapply Forall_lookup in Hall; [|done].
  destruct (lookup_lt_is_Some_2 lv s) as [q Hq]; [lia|]. exists lv. split; [done|].
  unfold get_slot. rewrite Hlv. simpl. by rewrite Hq.
Qed.

Lemma shape_alter f l s sl : wheel_shape sl → wheel_shape (alter_slot f l s sl).
Proof.
  intros [Hlen Hall]. unfold alter_slot. split; [by rewrite length_alter|].
  apply Forall_alter; [done|]. intros lv _ Hlv. by rewrite length_alter.
Qed.

Lemma get_alter_eq f l s sl : wheel_shape sl → in_range l s →
  get_slot (alter_slot f l s sl) l s = f (get_slot sl l s).
Proof.
  intros Hsh Hr. destruct (shape_lookup _ _ _ Hsh Hr) as (lv & Hlv & Hq).
  unfold get_slot at 1, alter_slot. rewrite list_lookup_alter_eq, Hlv. simpl.
  by rewrite list_lookup_alter_eq, Hq.
Qed.

Lemma get_alter_ne f l s l' s' sl : (l, s) ≠ (l', s') →
  get_slot (alter_slot f l s sl) l' s' = get_slot sl l' s'.
Proof.
  intros Hne. unfold get_slot, alter_slot. destruct (decide (l = l')) as [<-|Hl].
  - rewrite list_lookup_alter_eq. destruct (sl !! l) as [lv|]; simpl; [|done].
    rewrite list_lookup_alter_ne; [done|congruence].
  - by rewrite list_lookup_alter_ne.
Qed.

Lemma concat_alter {A} (f : list A → list A) i (l : list (list A)) x : l !! i = Some x →
  concat (alter f i l) ++ x ≡ₚ concat l ++ f x.
Proof.
  revert i. induction l as [|y l IH]; intros [|i] Hi; simplify_eq/=.
  - rewrite <- !(assoc_L (++)), (Permutation_app_comm (f x)), (assoc_L (++) x).
    apply Permutation_app_tail, Permutation_app_comm.
  - rewrite <- !(assoc_L (++)). apply Permutation_app_head. by apply IH.
Qed.

Lemma concat_concat_alter f l s sl lv q :
  sl !! l = Some lv → lv !! s = Some q →
  entries (alter_slot f l s sl) ++ q ≡ₚ entries sl ++ f q.
Proof.
  unfold entries, alter_slot. revert l. induction sl as [|y sl IH]; intros [|l] Hl Hq; simplify_eq/=.
  - rewrite !concat_app. rewrite <- !(assoc_L (++)), (Permutation_app_comm (concat (concat sl))).
    rewrite (assoc_L (++)), concat_alter by done.
    rewrite <- (assoc_L (++)). apply Permutation_app_head, Permutation_app_comm.
  - rewrite !concat_app, <- !(assoc_L (++)). apply Permutation_app_head. by apply IH.
Qed.

Lemma entries_alter f l s sl : wheel_shape sl → in_range l s →
  entries (alter_slot f l s sl) ++ get_slot sl l s ≡ₚ entries sl ++ f (get_slot sl l s).
Proof.
  intros Hsh Hr. destruct (shape_lookup _ _ _ Hsh Hr) as (lv & Hlv & Hq).
  by eapply concat_concat_alter.
Qed.

Lemma get_slot_entries sl l s p : p ∈ get_slot sl l s → p ∈ entries sl.
Proof.
  unfold get_slot. destruct (sl !! l) as [lv|] eqn:Hl; simpl; [|by intros ?%not_elem_of_nil].
  destruct (lv !! s) as [q|] eqn:Hs; simpl; [|by intros ?%not_elem_of_nil].
  intros Hp%list_elem_of_In. apply list_elem_of_In, in_concat. exists q. split; [|done].
  apply in_concat. exists lv. split; apply list_elem_of_In; by eapply list_elem_of_lookup_2.
Qed.

Lemma length_slot_le l s sl : wheel_shape sl → in_range l s →
  (length (get_slot sl l s) ≤ length (entries sl))%nat.
Proof.
  intros Hsh Hr. pose proof (Permutation_length (entries_alter (λ _, []) l s sl Hsh Hr)) as H.
  rewrite !length_app in H. simpl in H. lia.
Qed.

Lemma elem_of_entries sl p : p ∈ entries sl → ∃ l s, p ∈ get_slot sl l s.
Proof.
  unfold entries. rewrite list_elem_of_In, in_concat. intros (q & Hq & Hp).
  apply in_concat in Hq as (lv & Hlv & Hq).
  apply list_elem_of_In, list_elem_of_lookup in Hlv as [l Hl].
  apply list_elem_of_In, list_elem_of_lookup in Hq as [s Hs].
  exists l, s. unfold get_slot. rewrite Hl. simpl. rewrite Hs. by apply list_elem_of_In.
Qed.

(** ** Where an entry goes *)

Lemma level_span_pos l : 0 < level_span l.
Proof. unfold level_span, WHEEL_SIZE. apply N.neq_0_lt_0, N.pow_nonzero. lia. Qed.

Lemma level_span_S l : level_span (S l) = level_span l * WHEEL_SIZE.
Proof. unfold level_span. rewrite Nat2N.inj_succ, N.pow_succ_r'. lia. Qed.

Lemma slot_range n : (N.to_nat (n mod WHEEL_SIZE) < N.to_nat WHEEL_SIZE)%nat.
Proof. pose proof (N.mod_lt n WHEEL_SIZE ltac:(done)). lia. Qed.

(** A tick a whole span ahead belongs to a later boundary. *)
Lemma boundary_ahead base tick span : 0 < span → base + span ≤ tick → base < tick / span * span.
Proof.
  intros Hs Hle. pose proof (N.div_mod tick span ltac:(lia)).
  pose proof (N.mod_lt tick span ltac:(lia)). nia.
Qed.

(** Where a new or re-bucketed entry is put: correctly, and strictly ahead. *)
Lemma position_placed base p l s : wheel_position base (p_tick p) = (l, s) →
  in_range l s ∧ placed base l s p ∧
  (l ≠ 0%nat → base < p_tick p / level_span l * level_span l).
Proof.
  unfold wheel_position. case_decide as Hd.
  { intros [= <- <-]. split_and!; [split; [unfold LEVELS; lia|apply slot_range]| |done].
    simpl. unfold WHEEL_SIZE. rewrite N.max_r by lia. lia. }
  assert (∀ l', l = l' → l' ≠ 0%nat → base + level_span l' ≤ p_tick p →
    s = N.to_nat (p_tick p / level_span l' mod WHEEL_SIZE) → (l' < LEVELS)%nat →
    in_range l s ∧ placed base l s p ∧
    (l ≠ 0%nat → base < p_tick p / level_span l * level_span l)) as Hhigh.
  { intros l' -> Hl' Hle -> Hlt.
    pose proof (boundary_ahead base (p_tick p) (level_span l') (level_span_pos l') Hle).
    split_and!; [split; [done|apply slot_range]| |done].
    destruct l'; [done|]. split; [done|lia]. }
  pose proof (level_span_S 0). pose proof (level_span_S 1). pose proof (level_span_S 2).
  pose proof (level_span_S 3). cbn [seq LEVELS position_scan].
  change (level_span 0) with 1 in *. unfold WHEEL_SIZE in *.
  repeat case_decide; intros [= <- <-].
  - split_and!; [split; [unfold LEVELS; lia|apply slot_range]| |done].
    simpl. rewrite N.div_1_r, N.max_l by lia. split; [done|unfold WHEEL_SIZE; lia].
  - apply (Hhigh 1%nat); [done..|lia|done|unfold LEVELS; lia].
  - apply (Hhigh 2%nat); [done..|lia|done|unfold LEVELS; lia].
  - apply (Hhigh 3%nat); [done..|lia|done|unfold LEVELS; lia].
  - apply (Hhigh 3%nat); [done..|lia|done|unfold LEVELS; lia].
Qed.

(** ** Pushing and cascading *)

Lemma push_spec base p sl : wheel_shape sl →
  wheel_shape (push_back p (wheel_position base (p_tick p)) sl) ∧
  entries (push_back p (wheel_position base (p_tick p)) sl) ≡ₚ p :: entries sl ∧
  ∀ l s q, q ∈ get_slot (push_back p (wheel_position base (p_tick p)) sl) l s →
    q ∈ get_slot sl l s ∨ (q = p ∧ wheel_position base (p_tick q) = (l, s)).
Proof.
  intros Hsh. destruct (wheel_position base (p_tick p)) as [l s] eqn:Hpos.
  destruct (position_placed _ _ _ _ Hpos) as [Hr _]. unfold push_back; simpl.
  split_and!; [by apply shape_alter| |].
  - apply (Permutation_app_inv_r (get_slot sl l s)). rewrite entries_alter by done.
    rewrite (Permutation_app_comm _ [p]), (assoc_L (++)), (Permutation_app_comm _ [p]). done.
  - intros l' s' q. destruct (decide ((l, s) = (l', s'))) as [Heq|Hne].
    + simplify_eq. rewrite get_alter_eq by done. rewrite elem_of_app, list_elem_of_singleton.
      intros [?| ->]; auto.
    + rewrite get_alter_ne by done. auto.
Qed.

Definition rebucket (base : N) (ps : list Pending) (sl : Slots) : Slots :=
  foldl (λ sl p, push_back p (wheel_position base (p_tick p)) sl) sl ps.

Lemma rebucket_spec base ps sl : wheel_shape sl →
  wheel_shape (rebucket base ps sl) ∧ entries (rebucket base ps sl) ≡ₚ ps ++ entries sl ∧
  ∀ l s q, q ∈ get_slot (rebucket base ps sl) l s →
    q ∈ get_slot sl l s ∨ wheel_position base (p_tick q) = (l, s).
Proof.
  unfold rebucket. revert sl. induction ps as [|p ps IH]; intros sl Hsh; simpl.
  { split_and!; [done..|]. auto. }
  destruct (push_spec base p sl Hsh) as (Hsh1 & He1 & Hin1).
  destruct (IH _ Hsh1) as (Hsh2 & He2 & Hin2). split_and!; [done| |].
  - by rewrite He2, He1, <- Permutation_middle.
  - intros l s q Hq. destruct (Hin2 _ _ _ Hq) as [Hq'|]; [|auto].
    destruct (Hin1 _ _ _ Hq') as [|[-> ?]]; auto.
Qed.

Lemma cascade_level_spec cur sl level :
  (0 < level < LEVELS)%nat → wheel_shape sl → all_placed cur sl →
  cascaded cur (λ l, (l < level)%nat) sl →
  wheel_shape (cascade_level cur sl level) ∧ entries (cascade_level cur sl level) ≡ₚ entries sl ∧
  all_placed cur (cascade_level cur sl level) ∧
  cascaded cur (λ l, (l < S level)%nat) (cascade_level cur sl level).
Proof.
  intros Hlv Hsh Hpl Hca. pose proof (level_span_pos level) as Hspan.
  (* an entry left at this level waits for a later boundary *)
  assert (∀ s p, p ∈ get_slot sl level s →
    (cur mod level_span level = 0 → s ≠ N.to_nat (cur / level_span level mod WHEEL_SIZE)) →
    cur < p_tick p / level_span level * level_span level) as Hleft.
  { intros s p Hp Hs. pose proof (Hpl _ _ _ Hp) as Hp'. destruct level; [lia|].
    destruct Hp' as [-> Hle]. apply N.lt_eq_cases in Hle as [|Heq]; [done|]. exfalso.
    rewrite Heq in Hs. rewrite N.Div0.mod_mul, N.div_mul in Hs by lia. by apply Hs. }
  unfold cascade_level. fold (rebucket cur). case_decide as Hmod.
  { split_and!; [done..|]. intros l s p Hl Hlt Hp. destruct (decide (l = level)) as [->|].
    - by apply (Hleft s).
    - apply (Hca l s p); [done|lia|done]. }
  set (slot := N.to_nat _) in *.
  assert (in_range level slot) as Hr by (split; [lia|apply slot_range]).
  destruct (rebucket_spec cur (get_slot sl level slot) (alter_slot (λ _, []) level slot sl))
    as (Hsh' & He & Hin); [by apply shape_alter|].
  assert (∀ l s q, q ∈ get_slot (alter_slot (λ _, []) level slot sl) l s →
    q ∈ get_slot sl l s ∧ (l, s) ≠ (level, slot)) as Hold.
  { intros l s q Hq. destruct (decide ((level, slot) = (l, s))) as [Heq|Hne].
    - simplify_eq. rewrite get_alter_eq in Hq by done. by apply not_elem_of_nil in Hq.
    - rewrite get_alter_ne in Hq by done. split; [done|congruence]. }
  split_and!; [done| | |].
  - rewrite He, Permutation_app_comm, entries_alter by done. by rewrite app_nil_r.
  - intros l s q Hq. destruct (Hin _ _ _ Hq) as [[Hq' _]%Hold|Hpos]; [by apply Hpl|].
    by apply position_placed in Hpos as (_ & ? & _).
  - intros l s q Hl Hlt Hq. destruct (Hin _ _ _ Hq) as [[Hq' Hne]%Hold|Hpos].
    + destruct (decide (l = level)) as [->|]; [apply (Hleft s); [done|congruence]|].
      apply (Hca l s q); [done|lia|done].
    + by apply position_placed in Hpos as (_ & _ & ?); auto.
Qed.

Lemma cascade_spec cur sl : wheel_shape sl → all_placed cur sl →
  wheel_shape (cascade cur sl) ∧ entries (cascade cur sl) ≡ₚ entries sl ∧
  all_placed cur (cascade cur sl) ∧ cascaded cur (λ _, True) (cascade cur sl).
Proof.
  intros Hsh Hpl. unfold cascade. cbn [seq LEVELS Nat.sub foldl].
  destruct (cascade_level_spec cur sl 1) as (Hsh1 & He1 & Hpl1 & Hc1);
    [unfold LEVELS; lia|done|done|intros ????; lia|].
  destruct (cascade_level_spec cur (cascade_level cur sl 1) 2) as (Hsh2 & He2 & Hpl2 & Hc2);
    [unfold LEVELS; lia|done..|].
  destruct (cascade_level_spec cur (cascade_level cur (cascade_level cur sl 1) 2) 3)
    as (Hsh3 & He3 & Hpl3 & Hc3); [unfold LEVELS; lia|done..|].
  split_and!; [done|by rewrite He3, He2, He1|done|].
  intros l s p Hl _ Hp. destruct (decide (l < 4)%nat); [by apply (Hc3 l s)|].
  exfalso. destruct Hsh3 as [Hlen _]. unfold get_slot in Hp.
  rewrite lookup_ge_None_2 in Hp by (rewrite Hlen; unfold LEVELS; lia).
  by apply not_elem_of_nil in Hp.
Qed.

(** ** Draining and walking *)

Lemma drain_slot_spec q len due max :
  (length due ≤ max)%nat → N.of_nat (length q) ≤ len →
  drain_slot q len due max =
  Some (drop (max - length due) q,
        len - N.of_nat (Nat.min (max - length due) (length q)), due ++ take (max - length due) q).
Proof.
  revert len due. induction q as [|p q IH]; intros len due Hdue Hlen; simpl.
  - rewrite drop_nil, take_nil, app_nil_r, Nat.min_0_r.
    case_decide; do 3 f_equal; lia.
  - case_decide as Hlt.
    + unfold sub64. rewrite decide_True by (simpl in Hlen; lia). simpl.
      rewrite IH by (rewrite ?length_app; simpl in *; lia). rewrite length_app. simpl.
      destruct (max - length due)%nat as [|k] eqn:E; [lia|].
      replace (max - (length due + 1))%nat with k by lia. simpl.
      rewrite <- (assoc_L (++)). do 3 f_equal. lia.
    + replace (max - length due)%nat with 0%nat by lia. simpl. rewrite app_nil_r.
      do 3 f_equal. lia.
Qed.

(** What sits in the current slot of level 0 after a cascade is due. *)
Lemma current_slot_due cur sl p : all_placed cur sl →
  p ∈ get_slot sl 0 (N.to_nat (cur mod WHEEL_SIZE)) → p_tick p ≤ cur.
Proof.
  intros Hpl Hp. apply Hpl in Hp as [Hs Hlt]. unfold WHEEL_SIZE in *.
  pose proof (N.mod_lt cur 64 ltac:(lia)). pose proof (N.mod_lt (N.max (p_tick p) cur) 64 ltac:(lia)).
  pose proof (N.div_mod cur 64 ltac:(lia)). pose proof (N.div_mod (N.max (p_tick p) cur) 64 ltac:(lia)).
  assert (cur mod 64 = N.max (p_tick p) cur mod 64) as Heq by lia. nia.
Qed.

(** Once its slot is empty, the wheel may move to the next tick. *)
Lemma placed_next cur sl :
  all_placed cur sl → cascaded cur (λ _, True) sl →
  get_slot sl 0 (N.to_nat (cur mod WHEEL_SIZE)) = [] →
  all_placed (cur + 1) sl ∧ ∀ p, p ∈ entries sl → cur + 1 ≤ p_tick p.
Proof.
  intros Hpl Hca Hempty.
  assert (∀ l s p, p ∈ get_slot sl l s → cur < p_tick p) as Hlate.
  { intros l s p Hp. destruct (decide (l = 0%nat)) as [->|Hl].
    - destruct (decide (p_tick p ≤ cur)) as [Hle|]; [exfalso|lia].
      pose proof (Hpl _ _ _ Hp) as [Hs _]. rewrite N.max_r in Hs by lia. subst s.
      rewrite Hempty in Hp. by apply not_elem_of_nil in Hp.
    - pose proof (Hca l s p Hl I Hp). pose proof (level_span_pos l).
      pose proof (N.Div0.mul_div_le (p_tick p) (level_span l)). lia. }
  split.
  - intros l s p Hp. pose proof (Hlate _ _ _ Hp). pose proof (Hpl _ _ _ Hp) as Hp'.
    destruct (decide (l = 0%nat)) as [->|Hl].
    + simpl in *. rewrite !N.max_l in * by lia. split; [apply Hp'|]. unfold WHEEL_SIZE in *. lia.
    + pose proof (Hca l s p Hl I Hp). destruct l; [done|]. split; [apply Hp'|lia].
  - intros p (l & s & Hp)%elem_of_entries. specialize (Hlate _ _ _ Hp). lia.
Qed.

Lemma drain_step cur sl k :
  wheel_shape sl → all_placed cur sl → cascaded cur (λ _, True) sl →
  let slot := N.to_nat (cur mod WHEEL_SIZE) in
  let q := get_slot sl 0 slot in
  let sl2 := alter_slot (λ _, drop k q) 0 slot sl in
  wheel_shape sl2 ∧ all_placed cur sl2 ∧ cascaded cur (λ _, True) sl2 ∧
  entries sl ≡ₚ take k q ++ entries sl2 ∧ Forall (λ p, p_tick p ≤ cur) (take k q) ∧
  get_slot sl2 0 slot = drop k q.
Proof.
  intros Hsh Hpl Hca slot q sl2.
  assert (in_range 0 slot) as Hr by (split; [unfold LEVELS; lia|apply slot_range]).
  assert (get_slot sl2 0 slot = drop k q) as Hget by (unfold sl2; by rewrite get_alter_eq).
  assert (∀ l s p, p ∈ get_slot sl2 l s → p ∈ get_slot sl l s) as Hsub.
  { intros l s p. destruct (decide ((0%nat, slot) = (l, s))) as [Heq|Hne].
    - simplify_eq. rewrite Hget. intros Hp. fold q. rewrite <- (take_drop k q). apply elem_of_app. auto.
    - unfold sl2. by rewrite get_alter_ne. }
  split_and!; [by apply shape_alter|intros ???; auto|intros l s p ??; eauto| | |done].
  - pose proof (entries_alter (λ _, drop k q) 0 slot sl Hsh Hr) as He. fold q sl2 in He.
    rewrite <- (take_drop k q) in He at 1. rewrite (assoc_L (++)) in He.
    apply Permutation_app_inv_r in He. by rewrite <- He, Permutation_app_comm.
  - apply Forall_take, Forall_forall. intros p. by apply current_slot_due.
Qed.

Lemma walk_spec fuel sl len cur limit due max :
  wheel_shape sl → all_placed cur sl → len = N.of_nat (length (entries sl)) →
  (length due < max)%nat → limit - cur ≤ N.of_nat fuel →
  ∃ sl' len' cur' popped,
    walk fuel sl len cur limit due max = Some (sl', len', cur', due ++ popped) ∧
    wheel_shape sl' ∧ all_placed cur' sl' ∧ len' = N.of_nat (length (entries sl')) ∧
    entries sl ≡ₚ popped ++ entries sl' ∧ Forall (λ p, p_tick p < limit) popped ∧
    (length (due ++ popped) ≤ max)%nat ∧ cur ≤ cur' ∧
    (length (due ++ popped) = max ∧ cur' < limit ∨
     (cur' = N.max cur limit ∧ (cur < limit → Forall (λ p, cur' ≤ p_tick p) (entries sl')))).
Proof.
  revert sl len cur due. induction fuel as [|fuel IH]; intros sl len cur due Hsh Hpl Hlen Hdue Hf; simpl.
  { exists sl, len, cur, []. rewrite app_nil_r. split_and!; try done; lia. }
  case_decide as Hlt; [|exists sl, len, cur, []; rewrite app_nil_r;
    split_and!; try done; lia].
  destruct (cascade_spec cur sl Hsh Hpl) as (Hsh1 & He1 & Hpl1 & Hca1).
  set (slot := N.to_nat (cur mod WHEEL_SIZE)). set (sl1 := cascade cur sl) in *.
  set (q := get_slot sl1 0 slot). set (k := (max - length due)%nat).
  destruct (drain_step cur sl1 k Hsh1 Hpl1 Hca1) as (Hsh2 & Hpl2 & Hca2 & He2 & Hdue2 & Hget2).
  fold slot q in Hsh2, Hpl2, Hca2, He2, Hdue2, Hget2. set (sl2 := alter_slot _ 0 slot sl1) in *.
  assert (length (entries sl) = length (take k q) + length (entries sl2))%nat as Hcount
    by (by rewrite <- length_app, <- He2, He1).
  rewrite length_take in Hcount.
  assert (length q ≤ length (entries sl))%nat as Hq
    by (rewrite <- He1; apply length_slot_le; [done|split; [unfold LEVELS; lia|apply slot_range]]).
  rewrite drain_slot_spec by lia. fold k. simpl. fold sl2. case_decide as Hfull.
  - exists sl2, (len - N.of_nat (Nat.min k (length q))), cur, (take k q).
    rewrite length_app, length_take in *. split_and!; try done; try lia.
    + by rewrite <- He1, He2.
    + eapply Forall_impl; [done|]. simpl. lia.
  - rewrite length_app, length_take in Hfull.
    destruct (placed_next cur sl2) as [Hpl3 Hlate]; [done..|fold slot; by rewrite Hget2, drop_ge by lia|].
    destruct (IH sl2 (len - N.of_nat (Nat.min k (length q))) (cur + 1) (due ++ take k q))
      as (sl' & len' & cur' & popped & Hw & Hsh' & Hpl' & Hlen' & He' & Hp' & Hmax' & Hcur' & Hend);
      [done|done|lia|rewrite length_app, length_take; lia|lia|].
    rewrite Hw. exists sl', len', cur', (take k q ++ popped). rewrite (assoc_L (++)).
    split_and!; try done; try lia.
    + by rewrite <- He1, He2, He', (assoc_L (++)).
    + apply Forall_app_2; [|done]. eapply Forall_impl; [done|]. simpl. lia.
    + destruct Hend as [?|[Hc Hall]]; [by left|right]. split; [lia|]. intros _.
      destruct (decide (cur + 1 < limit)); [by apply Hall|].
      apply Forall_forall. intros p Hp.
      assert (p ∈ entries sl2) by (rewrite He'; apply elem_of_app; by right).
      specialize (Hlate p ltac:(done)). lia.
Qed.

(** ** Wheels in use

    A wheel that has its origin, and every wheel reached from it. *)

Inductive wheel_run : TimingWheel → Prop :=
  | run_origin now : wheel_run (mkWheel (w_slots wheel_new) (Some (now / TICK_MS)) 0)
  | run_register db key deadline w : wheel_run w → wheel_run (register db key deadline w)
  | run_advance now max w due w' :
      wheel_run w → now ≤ U64_MAX → advance_pending now max w = Some (due, w') → wheel_run w'.

Definition pending (w : TimingWheel) : list Pending := entries (w_slots w).

Definition wheel_inv (w : TimingWheel) (cur : N) : Prop :=
  w_current_tick w = Some cur ∧ wheel_shape (w_slots w) ∧ all_placed cur (w_slots w) ∧
  w_len w = N.of_nat (length (pending w)).

Lemma register_inv db key deadline w cur : wheel_inv w cur →
  wheel_inv (register db key deadline w) cur ∧
  pending (register db key deadline w) ≡ₚ mkPending db key (deadline / TICK_MS) :: pending w.
Proof.
  intros (Hc & Hsh & Hpl & Hlen). unfold register. rewrite Hc. simpl.
  set (p := mkPending db key (deadline / TICK_MS)).
  destruct (push_spec cur p (w_slots w) Hsh) as (Hsh' & He & Hin).
  split; [|done]. split_and!; [done..| |].
  - intros l s q Hq. destruct (Hin _ _ _ Hq) as [?|[-> Hpos]]; [by apply Hpl|].
    by apply position_placed in Hpos as (_ & ? & _).
  - unfold pending; simpl. change (p_tick p) with (deadline / TICK_MS) in He.
    rewrite He, Hlen. unfold pending. simpl. lia.
Qed.

(** The tick one call may reach. *)
Definition reach_tick (cur now : N) : N := N.min (now / TICK_MS) (sat_add64 cur MAX_TICKS_PER_CALL).

Lemma advance_spec now max w cur : now ≤ U64_MAX → wheel_inv w cur →
  ∃ due w' cur', advance_pending now max w = Some (due, w') ∧ wheel_inv w' cur' ∧
    pending w ≡ₚ due ++ pending w' ∧ Forall (λ p, p_tick p < now / TICK_MS) due ∧
    (length due ≤ max)%nat ∧
    (max ≠ 0%nat → cur < now / TICK_MS →
      (length due = max ∧ cur' < now / TICK_MS ∧ cur ≤ cur') ∨
      (reach_tick cur now ≤ cur' ≤ now / TICK_MS ∧ Forall (λ p, cur' ≤ p_tick p) (pending w'))).
Proof.
  intros Hnow Hinv. pose proof Hinv as (Hc & Hsh & Hpl & Hlen). unfold advance_pending. rewrite Hc.
  case_decide as Hmax; [exists [], w, cur; split_and!; try done; simpl; lia|].
  case_decide as Hz.
  { assert (pending w = []) as Hnil by (apply length_zero_iff_nil; lia).
    eexists [], _, _. split_and!; [done| |done|done|simpl; lia|].
    - split_and!; [done|done| |done]. intros l s p Hp. exfalso.
      apply get_slot_entries in Hp. simpl in Hp. fold (pending w) in Hp. rewrite Hnil in Hp.
      by apply not_elem_of_nil in Hp.
    - intros _ _. right. unfold pending in *. simpl. rewrite Hnil.
      split; [unfold reach_tick; lia|constructor]. }
  fold (reach_tick cur now).
  destruct (walk_spec (N.to_nat MAX_TICKS_PER_CALL) (w_slots w) (w_len w) cur (reach_tick cur now) [] max)
    as (sl' & len' & cur' & popped & Hw & Hsh' & Hpl' & Hlen' & He & Hdue & Hlm & Hcur & Hend);
    [done..|simpl; lia|unfold reach_tick, sat_add64, MAX_TICKS_PER_CALL; lia|].
  rewrite Hw. clear Hw. cbn [app] in *. cbn [mbind option_bind].
  assert (reach_tick cur now ≤ now / TICK_MS) by (unfold reach_tick; lia).
  eexists popped, _, cur'. split_and!; [done|done|done| |done|].
  - eapply Forall_impl; [done|]. simpl. lia.
  - intros _ Hlt. destruct Hend as [[? ?]|[-> Hall]]; [left; lia|].
    assert (now / TICK_MS ≤ U64_MAX) by (apply N.Div0.div_le_upper_bound; unfold TICK_MS; lia).
    assert (cur < reach_tick cur now)
      by (unfold reach_tick, sat_add64, MAX_TICKS_PER_CALL, WHEEL_SIZE; lia).
    right. split; [lia|]. by apply Hall.
Qed.

Lemma wheel_run_inv w : wheel_run w → ∃ cur, wheel_inv w cur.
Proof.
  induction 1 as [now|db key deadline w _ [cur IH]|now max w due w' _ [cur IH] Hnow Hadv].
  - exists (now / TICK_MS). split_and!; [done| | |done].
    + split; [done|]. by repeat constructor.
    + intros l s p Hp%get_slot_entries. by apply not_elem_of_nil in Hp.
  - exists cur. by apply register_inv.
  - destruct (advance_spec now max w cur Hnow IH) as (? & ? & cur' & ? & ? & _). simplify_eq. eauto.
Qed.

(** Repeating a call: the batches and the wheel that is left. *)
Fixpoint advance_n (n : nat) (now : N) (max : nat) (w : TimingWheel)
    : option (list Pending * TimingWheel) :=
  match n with
  | O => Some ([], w)
  | S n => '(due, w1) ← advance_pending now max w; '(dues, w2) ← advance_n n now max w1;
           Some (due ++ dues, w2)
  end.

Definition calls (w : TimingWheel) (cur now : N) : nat :=
  length (pending w) + N.to_nat ((now / TICK_MS - cur + (MAX_TICKS_PER_CALL - 1)) / MAX_TICKS_PER_CALL).

(** When nothing is due, further calls pop nothing. *)
Lemma advance_n_idle n now max w cur :
  now ≤ U64_MAX → wheel_inv w cur → Forall (λ p, now / TICK_MS ≤ p_tick p) (pending w) →
  ∃ w', advance_n n now max w = Some ([], w') ∧ pending w' ≡ₚ pending w.
Proof.
  intros Hnow. revert w cur. induction n as [|n IH]; intros w cur Hinv Hall; [by exists w|].
  destruct (advance_spec now max w cur Hnow Hinv)
    as (due & w1 & cur1 & Hadv & Hinv1 & He & Hdue & _). cbn [advance_n]. rewrite Hadv.
  assert (due = []) as ->.
  { destruct due as [|p due]; [done|]. inversion_clear Hdue. rewrite He in Hall.
    inversion_clear Hall. lia. }
  cbn [mbind option_bind app] in *. destruct (IH w1 cur1 Hinv1) as (w2 & -> & He2); [by rewrite <- He|].
  exists w2. split; [done|]. by rewrite He2.
Qed.

(** Each call pops something or moves on by [MAX_TICKS_PER_CALL] ticks. *)
Lemma calls_decrease w cur now w1 cur1 k :
  pending w ≡ₚ k ++ pending w1 → cur < now / TICK_MS → cur1 < now / TICK_MS →
  (k ≠ [] ∧ cur ≤ cur1) ∨ cur + MAX_TICKS_PER_CALL ≤ cur1 →
  (calls w1 cur1 now < calls w cur now)%nat.
Proof.
  intros He Hc Hc1 Hk. apply Permutation_length in He. rewrite length_app in He.
  unfold calls. change MAX_TICKS_PER_CALL with 256 in *. change (256 - 1) with 255.
  set (t := now / TICK_MS) in *. clearbody t.
  assert (256 ≠ 0) by done. destruct Hk as [[Hne Hle]|Hle].
  - assert ((t - cur1 + 255) / 256 ≤ (t - cur + 255) / 256) by (apply N.Div0.div_le_mono; lia).
    destruct k; [done|]. simpl in He. lia.
  - assert ((t - cur1 + 255) / 256 + 1 ≤ (t - cur + 255) / 256); [|lia].
    rewrite <- N.div_add by done. apply N.Div0.div_le_mono. lia.
Qed.

Lemma advance_n_spec n now max w cur :
  now ≤ U64_MAX → max ≠ 0%nat → wheel_inv w cur → cur < now / TICK_MS → (calls w cur now ≤ n)%nat →
  ∃ due w', advance_n n now max w = Some (due, w') ∧ pending w ≡ₚ due ++ pending w' ∧
    Forall (λ p, p_tick p < now / TICK_MS) due ∧ Forall (λ p, now / TICK_MS ≤ p_tick p) (pending w').
Proof.
  intros Hnow Hmax. revert w cur. induction n as [|n IH]; intros w cur Hinv Hlt Hn.
  { exfalso. unfold calls in Hn. change MAX_TICKS_PER_CALL with 256 in Hn.
    assert (0 < (now / TICK_MS - cur + (256 - 1)) / 256) by (apply N.div_str_pos; lia). lia. }
  destruct (advance_spec now max w cur Hnow Hinv)
    as (due & w1 & cur1 & Hadv & Hinv1 & He & Hdue & Hlen & Hend). cbn [advance_n]. rewrite Hadv.
  cbn [mbind option_bind]. specialize (Hend Hmax Hlt).
  destruct (decide (now / TICK_MS ≤ cur1)) as [Hdone|Hmore].
  - destruct Hend as [(_ & ? & _)|[Hc Hall]]; [lia|]. replace cur1 with (now / TICK_MS) in * by lia.
    destruct (advance_n_idle n now max w1 _ Hnow Hinv1 Hall) as (w2 & -> & He2).
    cbn [mbind option_bind]. exists (due ++ []), w2. rewrite app_nil_r.
    split_and!; [done|by rewrite He, He2|done|by rewrite He2].
  - destruct (IH w1 cur1) as (dues & w2 & Hrest & He2 & Hd2 & Hp2); [done|lia| |].
    + assert (calls w1 cur1 now < calls w cur now)%nat; [|lia].
      eapply calls_decrease; [done|lia|lia|]. destruct Hend as [(Hd & _ & ?)|[Hc _]].
      * left. split; [|done]. intros ->. simpl in Hd. lia.
      * right. revert Hc Hmore. unfold reach_tick, sat_add64.
        assert (now / TICK_MS ≤ U64_MAX) by (apply N.Div0.div_le_upper_bound; unfold TICK_MS; lia).
        lia.
    + rewrite Hrest. cbn [mbind option_bind]. eexists _, _. split_and!; [done| | |done].
      * by rewrite He, He2, (assoc_L (++)).
      * by apply Forall_app_2.
Qed.

(** (C34) One drain of a wheel in use: it never panics, pops at most [max]
    entries, loses none (what was pending is what was popped and what is still
    pending), and pops only entries whose deadline tick has strictly passed. *)
Theorem wheel_advance_correct (w : TimingWheel) (now : N) (max : nat)
    (Hw : wheel_run w) (Hnow : now ≤ U64_MAX) :
  ∃ due w', advance_pending now max w = Some (due, w') ∧ pending w ≡ₚ due ++ pending w' ∧
    (length due ≤ max)%nat ∧ Forall (λ p, p_tick p < now / TICK_MS) due ∧
    w_len w' = N.of_nat (length (pending w')).
Proof.
  destruct (wheel_run_inv w Hw) as [cur Hinv].
  destruct (advance_spec now max w cur Hnow Hinv)
    as (due & w' & cur' & ? & (_ & _ & _ & ?) & ? & ? & ? & _). eauto 10.
Qed.


(** A key registered before the wheel has its origin can fire before its
    deadline: with a deadline of 10 s registered first, the drain at 3.7 s
    offers the key and forgets it.  The documentation says such a deadline is
    measured against real elapsed ticks and does not fire spuriously. *)
Theorem register_before_origin_fires_early :
  (first ← advance 0 16 (register 0 [x6b] 10000 wheel_new);
   second ← advance 3700 16 first.2;
   Some (first.1, second.1, w_len second.2)) = Some ([], [(0, [x6b])], 0).
Proof. vm_compute. reflexivity. Qed.

(** A key with a deadline of 10 s, registered once the wheel runs, among others. *)
Definition busy_wheel : TimingWheel :=
  register 0 [x61] 10000 (register 1 [x62] 700000 (register 0 [x63] 50
    (mkWheel (w_slots wheel_new) (Some 0) 0))).

Lemma busy_wheel_run : wheel_run busy_wheel.
Proof. do 3 apply run_register. apply (run_origin 0). Qed.

Lemma wheel_advance_correct_witness :
  ∃ due w', advance_pending 10100 16 busy_wheel = Some (due, w') ∧
    pending busy_wheel ≡ₚ due ++ pending w' ∧ (length due ≤ 16)%nat ∧
    Forall (λ p, p_tick p < 10100 / TICK_MS) due ∧ w_len w' = N.of_nat (length (pending w')).
Proof. apply wheel_advance_correct; [apply busy_wheel_run|done]. Defined.

