(* ===== verification/SlotMap.v ===== *)
(** * The slot ownership map (crates/ironcache-cluster/src/lib.rs)

    Which node owns each of the 16384 slots, which node is this one, replicas,
    per-slot migration tags and the configuration epochs.  The dense atomic
    arrays are lists of that length; an out-of-range index panics.  The node
    table is behind a lock and every mutator runs under it, so a mutator is one
    step of the panic/state monad; the lock-free read [owns] is a single load. *)

From Stdlib Require Import Lia ZArith NArith.
From S2P Require Import Prelude RaftTypes RaftCodec.
From stdpp Require Import strings.

#[local] Open Scope N_scope.

Definition CLUSTER_SLOTS : N := 16384.
Definition UNASSIGNED : N := 65535.

Inductive MigrationState := MigNone | Migrating | Importing.

Definition MIG_NONE : N := 0.
Definition MIG_MIGRATING : N := 1.
Definition MIG_IMPORTING : N := 2.

Record NodeEntry := mkNode { n_id : string; n_host : string; n_port : N }.

#[export] Instance NodeEntry_eq_dec : EqDecision NodeEntry.
Proof. solve_decision. Defined.

Record SlotMap := mkSlotMap {
  c_nodes : list NodeEntry;
  c_config_epochs : list N;
  c_mine : list bool;
  c_owner : list N;
  c_replicas : list N;
  c_migration_state : list N;
  c_migration_peer : list N;
  c_self_idx : N;
  c_my_epoch : N;
  c_current_epoch : N
}.

Inductive SlotMapError :=
  | EmptyTopology
  | BadId (id : string)
  | DuplicateId (id : string)
  | BadRange (start end_ : N)
  | Overlap (slot : N) (a b : string)
  | Gap (slot : N)
  | SelfNotPresent (id : string).

Inductive SlotMutError :=
  | SlotBusy (slot : N)
  | SlotUnassigned (slot : N)
  | SlotDuplicate (slot : N)
  | UnknownNode (id : string)
  | ForgetSelf
  | NodeOwnsSlots (id : string)
  | EpochKnowsOthers
  | EpochAlreadySet.

(** [Result<(), SlotMutError>]. *)
Abbreviation MutResult := (unit + SlotMutError)%type (only parsing).

(** ** Fields and arrays *)

Definition set_nodes (v : list NodeEntry) (m : SlotMap) : SlotMap :=
  mkSlotMap v (c_config_epochs m) (c_mine m) (c_owner m) (c_replicas m) (c_migration_state m)
    (c_migration_peer m) (c_self_idx m) (c_my_epoch m) (c_current_epoch m).
Definition set_config_epochs (v : list N) (m : SlotMap) : SlotMap :=
  mkSlotMap (c_nodes m) v (c_mine m) (c_owner m) (c_replicas m) (c_migration_state m)
    (c_migration_peer m) (c_self_idx m) (c_my_epoch m) (c_current_epoch m).
Definition set_mine (v : list bool) (m : SlotMap) : SlotMap :=
  mkSlotMap (c_nodes m) (c_config_epochs m) v (c_owner m) (c_replicas m) (c_migration_state m)
    (c_migration_peer m) (c_self_idx m) (c_my_epoch m) (c_current_epoch m).
Definition set_owner (v : list N) (m : SlotMap) : SlotMap :=
  mkSlotMap (c_nodes m) (c_config_epochs m) (c_mine m) v (c_replicas m) (c_migration_state m)
    (c_migration_peer m) (c_self_idx m) (c_my_epoch m) (c_current_epoch m).
Definition set_replicas (v : list N) (m : SlotMap) : SlotMap :=
  mkSlotMap (c_nodes m) (c_config_epochs m) (c_mine m) (c_owner m) v (c_migration_state m)
    (c_migration_peer m) (c_self_idx m) (c_my_epoch m) (c_current_epoch m).
Definition set_migration_state (v : list N) (m : SlotMap) : SlotMap :=
  mkSlotMap (c_nodes m) (c_config_epochs m) (c_mine m) (c_owner m) (c_replicas m) v
    (c_migration_peer m) (c_self_idx m) (c_my_epoch m) (c_current_epoch m).
Definition set_migration_peer (v : list N) (m : SlotMap) : SlotMap :=
  mkSlotMap (c_nodes m) (c_config_epochs m) (c_mine m) (c_owner m) (c_replicas m)
    (c_migration_state m) v (c_self_idx m) (c_my_epoch m) (c_current_epoch m).
Definition set_self_idx (v : N) (m : SlotMap) : SlotMap :=
  mkSlotMap (c_nodes m) (c_config_epochs m) (c_mine m) (c_owner m) (c_replicas m)
    (c_migration_state m) (c_migration_peer m) v (c_my_epoch m) (c_current_epoch m).
Definition set_my_epoch (v : N) (m : SlotMap) : SlotMap :=
  mkSlotMap (c_nodes m) (c_config_epochs m) (c_mine m) (c_owner m) (c_replicas m)
    (c_migration_state m) (c_migration_peer m) (c_self_idx m) v (c_current_epoch m).
Definition set_current_epoch (v : N) (m : SlotMap) : SlotMap :=
  mkSlotMap (c_nodes m) (c_config_epochs m) (c_mine m) (c_owner m) (c_replicas m)
    (c_migration_state m) (c_migration_peer m) (c_self_idx m) (c_my_epoch m) v.

(** [arr[slot].load(..)] and [arr[slot].store(v, ..)]. *)
Definition load {A} (arr : SlotMap → list A) (slot : N) : step SlotMap A := λ m,
  match arr m !! N.to_nat slot with Some v => Some (v, m) | None => None end.

Definition store {A} (arr : SlotMap → list A) (set : list A → SlotMap → SlotMap) (slot : N) (v : A)
    : step SlotMap unit := λ m,
  if decide (N.to_nat slot < length (arr m))%nat
  then Some (tt, set (<[N.to_nat slot := v]> (arr m)) m) else None.

Definition store_owner := store c_owner set_owner.
Definition store_mine := store c_mine set_mine.
Definition store_replica := store c_replicas set_replicas.
Definition store_mig_state := store c_migration_state set_migration_state.
Definition store_mig_peer := store c_migration_peer set_migration_peer.

Definition to_u16 (n : nat) : N := N.of_nat n mod 65536.

(** [nodes.iter().position(|n| n.id == id)] *)
Definition node_position (id : string) (nodes : list NodeEntry) : option nat :=
  fst <$> list_find (λ n, n_id n = id) nodes.

Definition same_endpoint (a b : NodeEntry) : bool :=
  bool_decide (n_host a = n_host b) && bool_decide (n_port a = n_port b).

(** ** Construction *)

Definition is_valid_node_id (id : string) : bool :=
  let bytes := String.list_byte_of_string id in
  bool_decide (length bytes = 40%nat) &&
  forallb (λ b, ((48 <=? Byte.to_N b) && (Byte.to_N b <=? 57)) ||
                ((97 <=? Byte.to_N b) && (Byte.to_N b <=? 102))) bytes.

Definition slot_array {A} (init : A) : list A := replicate (N.to_nat CLUSTER_SLOTS) init.

Definition empty_self (id host : string) (port : N) : SlotMap :=
  mkSlotMap [mkNode id host port] [0] (slot_array false) (slot_array UNASSIGNED)
    (slot_array UNASSIGNED) (slot_array MIG_NONE) (slot_array UNASSIGNED) 0 0 0.

(** [for slot in start..=end]: claim each slot for node [idx]. *)
Fixpoint claim_range (entries : list NodeEntry) (id : string) (idx : nat) (slots : list nat)
    (owner : list N) : list N + SlotMapError :=
  match slots with
  | [] => inl owner
  | slot :: slots =>
      match owner !! slot with
      | Some cur =>
          if decide (cur = UNASSIGNED)
          then claim_range entries id idx slots (<[slot := to_u16 idx]> owner)
          else inr (Overlap (N.of_nat slot)
                 (default EmptyString (n_id <$> entries !! N.to_nat cur)) id)
      | None => inl owner
      end
  end.

Fixpoint claim_ranges (entries : list NodeEntry) (id : string) (idx : nat) (ranges : list (N * N))
    (owner : list N) : list N + SlotMapError :=
  match ranges with
  | [] => inl owner
  | (start, end_) :: ranges =>
      if decide (end_ < start ∨ CLUSTER_SLOTS ≤ end_) then inr (BadRange start end_) else
      match claim_range entries id idx (seq (N.to_nat start) (N.to_nat (end_ - start + 1))) owner with
      | inl owner => claim_ranges entries id idx ranges owner
      | inr e => inr e
      end
  end.

Fixpoint build_nodes (nodes : list (NodeEntry * list (N * N))) (entries : list NodeEntry)
    (owner : list N) : list NodeEntry * list N + SlotMapError :=
  match nodes with
  | [] => inl (entries, owner)
  | (entry, ranges) :: nodes =>
      if negb (is_valid_node_id (n_id entry)) then inr (BadId (n_id entry)) else
      if bool_decide (node_position (n_id entry) entries ≠ None) then inr (DuplicateId (n_id entry)) else
      match claim_ranges entries (n_id entry) (length entries) ranges owner with
      | inl owner => build_nodes nodes (entries ++ [entry]) owner
      | inr e => inr e
      end
  end.

Definition build (nodes : list (NodeEntry * list (N * N))) (self_id : string)
    : SlotMap + SlotMapError :=
  if decide (nodes = []) then inr EmptyTopology else
  match build_nodes nodes [] (slot_array UNASSIGNED) with
  | inr e => inr e
  | inl (entries, owner) =>
      match list_find (λ o, o = UNASSIGNED) owner with
      | Some (slot, _) => inr (Gap (N.of_nat slot))
      | None =>
          match node_position self_id entries with
          | None => inr (SelfNotPresent self_id)
          | Some self_idx =>
              inl (mkSlotMap entries (replicate (length entries) 0)
                     (map (λ o, bool_decide (o = to_u16 self_idx)) owner) owner
                     (slot_array UNASSIGNED) (slot_array MIG_NONE) (slot_array UNASSIGNED)
                     (to_u16 self_idx) 0 0)
          end
      end
  end.

(** ** Reads *)

Definition owns (slot : N) (m : SlotMap) : option bool := c_mine m !! N.to_nat slot.

(** The table entry an index names. *)
Definition node_at (m : SlotMap) (idx : N) : option NodeEntry :=
  if decide (idx = UNASSIGNED) then None else c_nodes m !! N.to_nat idx.

Definition owner_entry (slot : N) (m : SlotMap) : option NodeEntry :=
  c_owner m !! N.to_nat slot ≫= node_at m.

Definition moved_target (slot : N) (m : SlotMap) : option (string * N) :=
  (λ n, (n_host n, n_port n)) <$> owner_entry slot m.

Definition owner_id (slot : N) (m : SlotMap) : option string := n_id <$> owner_entry slot m.

Definition replica_entry (slot : N) (m : SlotMap) : option NodeEntry :=
  c_replicas m !! N.to_nat slot ≫= node_at m.

Definition is_replica_of (slot : N) (node_id : string) (m : SlotMap) : bool :=
  match replica_entry slot m with Some n => bool_decide (n_id n = node_id) | None => false end.

Definition me (m : SlotMap) : option NodeEntry := c_nodes m !! N.to_nat (c_self_idx m).

Definition is_replica_of_self (slot : N) (m : SlotMap) : bool :=
  match replica_entry slot m, me m with
  | Some rep, Some self => same_endpoint rep self
  | _, _ => false
  end.

Definition migration_state (slot : N) (m : SlotMap) : option MigrationState :=
  st ← c_migration_state m !! N.to_nat slot;
  Some (if decide (st = MIG_MIGRATING) then Migrating
        else if decide (st = MIG_IMPORTING) then Importing else MigNone).

Definition migration_peer_entry (slot : N) (m : SlotMap) : option NodeEntry :=
  st ← c_migration_state m !! N.to_nat slot;
  if decide (st = MIG_NONE) then None
  else c_migration_peer m !! N.to_nat slot ≫= node_at m.

Definition is_self (node_id : string) (m : SlotMap) : bool :=
  match me m with
  | None => false
  | Some my_entry =>
      bool_decide (n_id my_entry = node_id) ||
      match list_find (λ n, n_id n = node_id) (c_nodes m) with
      | Some (_, n) => same_endpoint n my_entry
      | None => false
      end
  end.

(** ** Mutators *)

(** The index of a known node, or the error of the caller's [?]. *)
Definition known (id : string) (k : nat → step SlotMap MutResult) : step SlotMap MutResult :=
  nodes ← gets c_nodes;
  match node_position id nodes with
  | Some idx => k idx
  | None => mret (inr (UnknownNode id))
  end.

Definition set_migrating (slot : N) (dest : string) : step SlotMap MutResult :=
  known dest (λ idx,
    store_mig_peer slot (to_u16 idx);; store_mig_state slot MIG_MIGRATING;; mret (inl tt)).

Definition set_importing (slot : N) (src : string) : step SlotMap MutResult :=
  known src (λ idx,
    store_mig_peer slot (to_u16 idx);; store_mig_state slot MIG_IMPORTING;; mret (inl tt)).

Definition clear_migration (slot : N) : step SlotMap unit :=
  store_mig_state slot MIG_NONE;; store_mig_peer slot UNASSIGNED.

(** Whether the node at [idx] is this node, by index or by endpoint. *)
Definition is_self_idx (m : SlotMap) (idx : nat) : bool :=
  bool_decide (idx = N.to_nat (c_self_idx m)) ||
  match c_nodes m !! idx, me m with
  | Some new_owner, Some my_entry => same_endpoint new_owner my_entry
  | _, _ => false
  end.

Definition set_slot_node (slot : N) (node_id : string) : step SlotMap MutResult :=
  known node_id (λ idx,
    store_owner slot (to_u16 idx);;
    mine ← gets (λ m, is_self_idx m idx);
    store_mine slot mine;;
    clear_migration slot;;
    mret (inl tt)).

Definition clear_slot_owner (slot : N) : step SlotMap unit :=
  store_owner slot UNASSIGNED;; store_mine slot false.

Definition set_slot_replica (slot : N) (node_id : string) : step SlotMap MutResult :=
  known node_id (λ idx, store_replica slot (to_u16 idx);; mret (inl tt)).

Definition clear_slot_replica (slot : N) (node_id : string) : step SlotMap unit :=
  idx ← load c_replicas slot;
  if decide (idx = UNASSIGNED) then mret tt else
  entry ← gets (λ m, c_nodes m !! N.to_nat idx);
  match entry with
  | Some n => if decide (n_id n = node_id) then store_replica slot UNASSIGNED else mret tt
  | None => mret tt
  end.

(** The validation pass of ADDSLOTS ([adding]) and DELSLOTS: [seen] is the slots
    named so far. *)
Fixpoint check_batch (adding : bool) (slots seen owner : list N) : option MutResult :=
  match slots with
  | [] => Some (inl tt)
  | slot :: slots =>
      if decide (CLUSTER_SLOTS ≤ slot) then None else
      if decide (slot ∈ seen) then Some (inr (SlotDuplicate slot)) else
      o ← owner !! N.to_nat slot;
      if decide (o = UNASSIGNED) then
        if adding then check_batch adding slots (slot :: seen) owner
        else Some (inr (SlotUnassigned slot))
      else
        if adding then Some (inr (SlotBusy slot))
        else check_batch adding slots (slot :: seen) owner
  end.

Definition add_slots (slots : list N) : step SlotMap MutResult :=
  r ← (λ m, (λ r, (r, m)) <$> check_batch true slots [] (c_owner m));
  match r with
  | inr e => mret (inr e)
  | inl _ =>
      me ← gets c_self_idx;
      for_each slots (λ slot, store_owner slot me;; store_mine slot true);;
      mret (inl tt)
  end.

Definition del_slots (slots : list N) : step SlotMap MutResult :=
  r ← (λ m, (λ r, (r, m)) <$> check_batch false slots [] (c_owner m));
  match r with
  | inr e => mret (inr e)
  | inl _ =>
      for_each slots (λ slot, store_owner slot UNASSIGNED;; store_mine slot false);;
      mret (inl tt)
  end.

Definition flush_slots (m : SlotMap) : SlotMap :=
  let me := c_self_idx m in
  set_mine (zip_with (λ o b, if decide (o = me) then false else b) (c_owner m) (c_mine m))
    (set_owner (map (λ o, if decide (o = me) then UNASSIGNED else o) (c_owner m)) m).

Definition meet (entry : NodeEntry) (m : SlotMap) : SlotMap :=
  if decide (node_position (n_id entry) (c_nodes m) ≠ None) then m else
  set_config_epochs (c_config_epochs m ++ [0]) (set_nodes (c_nodes m ++ [entry]) m).

(** Renumbering after the entry at [removed] is gone. *)
Definition shift_down (removed idx : N) : N :=
  if decide (idx ≠ UNASSIGNED ∧ removed < idx) then idx - 1 else idx.
Definition shift_or_clear (removed idx : N) : N :=
  if decide (idx = removed) then UNASSIGNED else shift_down removed idx.

Definition remove_at {A} (i : nat) (l : list A) : list A := take i l ++ drop (S i) l.

Definition forget (node_id : string) : step SlotMap MutResult :=
  known node_id (λ removed,
    m ← gets id;
    let r := to_u16 removed in
    if decide (removed = N.to_nat (c_self_idx m)) then mret (inr ForgetSelf) else
    if decide (r ∈ c_owner m) then mret (inr (NodeOwnsSlots node_id)) else
    if decide (length (c_config_epochs m) ≤ removed)%nat then panic else
    modify (λ m,
      mkSlotMap (remove_at removed (c_nodes m)) (remove_at removed (c_config_epochs m)) (c_mine m)
        (map (shift_down r) (c_owner m)) (map (shift_or_clear r) (c_replicas m))
        (zip_with (λ p st, if decide (p = r) then MIG_NONE else st)
           (c_migration_peer m) (c_migration_state m))
        (map (shift_or_clear r) (c_migration_peer m))
        (if decide (removed < N.to_nat (c_self_idx m))%nat then c_self_idx m - 1 else c_self_idx m)
        (c_my_epoch m) (c_current_epoch m));;
    mret (inl tt)).

Definition set_committed_epoch (epoch : N) (m : SlotMap) : SlotMap := set_current_epoch epoch m.

Definition set_config_epoch (epoch : N) : step SlotMap MutResult :=
  m ← gets id;
  if decide (1 < length (c_nodes m))%nat then mret (inr EpochKnowsOthers) else
  if decide (c_my_epoch m ≠ 0) then mret (inr EpochAlreadySet) else
  modify (λ m,
    let m := set_my_epoch epoch m in
    let m := if decide (c_current_epoch m < epoch) then set_current_epoch epoch m else m in
    set_config_epochs (<[N.to_nat (c_self_idx m) := epoch]> (c_config_epochs m)) m);;
  mret (inl tt).

Inductive BumpEpoch := Bumped (epoch : N) | Still (epoch : N).

Definition bump_epoch : step SlotMap BumpEpoch :=
  m ← gets id;
  let max_epoch := foldl N.max (c_current_epoch m) (c_config_epochs m) in
  if decide (c_my_epoch m = 0 ∨ c_my_epoch m ≠ max_epoch) then
    next ← lift (add64 max_epoch 1);
    modify (λ m, set_config_epochs (<[N.to_nat (c_self_idx m) := next]> (c_config_epochs m))
                   (set_my_epoch next (set_current_epoch next m)));;
    mret (Bumped next)
  else mret (Still (c_my_epoch m)).

(** ** The committed snapshot *)

Definition id_of (m : SlotMap) (idx : N) : option string := n_id <$> node_at m idx.

(** [(slot, id)] for every slot whose index names a node, ascending. *)
Definition named_slots (m : SlotMap) (arr : list N) : list (N * string) :=
  omap (λ si, (λ id, (N.of_nat si.1, id)) <$> id_of m si.2) (zip (seq 0 (length arr)) arr).

Definition named_migs (m : SlotMap) : list (N * N * string) :=
  omap (λ sp : nat * (N * N),
          if decide (sp.2.1 = MIG_NONE) then None
          else (λ id, (N.of_nat sp.1, sp.2.1, id)) <$> id_of m sp.2.2)
    (zip (seq 0 (length (c_migration_state m))) (zip (c_migration_state m) (c_migration_peer m))).

Definition put_node_entry (n : NodeEntry) : list byte :=
  put_str (n_id n) ++ put_str (n_host n) ++ put_u16 (n_port n).
Definition put_slot_id (si : N * string) : list byte := put_u16 si.1 ++ put_str si.2.
Definition put_mig (sm : N * N * string) : list byte :=
  put_u16 sm.1.1 ++ put_u8 sm.1.2 ++ put_str sm.2.

Definition id_le (a b : NodeEntry) : Prop := String.leb (n_id a) (n_id b) = true.

#[export] Instance id_le_dec a b : Decision (id_le a b).
Proof. unfold id_le. apply _. Defined.

Definition serialize_committed (m : SlotMap) : list byte :=
  let nodes := merge_sort id_le (c_nodes m) in
  let owners := named_slots m (c_owner m) in
  let reps := named_slots m (c_replicas m) in
  let migs := named_migs m in
  put_u64 (c_current_epoch m) ++
  put_len nodes ++ concat (map put_node_entry nodes) ++
  put_len owners ++ concat (map put_slot_id owners) ++
  put_len reps ++ concat (map put_slot_id reps) ++
  put_len migs ++ concat (map put_mig migs).

Record CommittedSnapshot := mkSnap {
  s_epoch : N;
  s_nodes : list NodeEntry;
  s_owners : list (N * string);
  s_reps : list (N * string);
  s_migs : list (N * N * string)
}.

Definition get_node_entry : reader NodeEntry :=
  id ← cur_string; host ← cur_string; port ← cur_u16; mret (mkNode id host port).
Definition get_slot_id : reader (N * string) := slot ← cur_u16; id ← cur_string; mret (slot, id).
Definition get_mig : reader (N * N * string) :=
  slot ← cur_u16; st ← cur_u8; id ← cur_string; mret (slot, st, id).

Definition get_snapshot_parts : reader CommittedSnapshot :=
  epoch ← cur_u64;
  nodes ← cur_list get_node_entry;
  owners ← cur_list get_slot_id;
  reps ← cur_list get_slot_id;
  migs ← cur_list get_mig;
  mret (mkSnap epoch nodes owners reps migs).

(** Bytes after the last list are ignored. *)
Definition decode_committed_snapshot (data : list byte) : option CommittedSnapshot :=
  fst <$> get_snapshot_parts data.

(** Nodes whose id is new are appended. *)
Definition add_nodes (nodes snap : list NodeEntry) : list NodeEntry :=
  foldl (λ acc n, if decide (node_position (n_id n) acc ≠ None) then acc else acc ++ [n]) nodes snap.

(** One slot of a dense array, when the slot is in range and the id is known. *)
Definition put_slot {A} (slot : N) (v : A) (arr : list A) : list A :=
  if decide (slot < CLUSTER_SLOTS) then <[N.to_nat slot := v]> arr else arr.

Definition fill_ids (nodes : list NodeEntry) (l : list (N * string)) : list N :=
  foldl (λ arr si, match node_position si.2 nodes with
                   | Some idx => put_slot si.1 (to_u16 idx) arr
                   | None => arr end) (slot_array UNASSIGNED) l.

Definition fill_mine (nodes : list NodeEntry) (self : NodeEntry) (l : list (N * string)) : list bool :=
  foldl (λ arr si, match node_position si.2 nodes with
                   | Some idx =>
                       put_slot si.1
                         (bool_decide (to_u16 idx = 0) ||
                          match nodes !! N.to_nat (to_u16 idx) with
                          | Some owner => same_endpoint owner self
                          | None => false end) arr
                   | None => arr end) (slot_array false) l.

Definition mig_tag (st : N) : bool := bool_decide (st = MIG_MIGRATING ∨ st = MIG_IMPORTING).

Definition fill_mig_state (nodes : list NodeEntry) (l : list (N * N * string)) : list N :=
  foldl (λ arr sm, match node_position sm.2 nodes with
                   | Some _ => if mig_tag sm.1.2 then put_slot sm.1.1 sm.1.2 arr else arr
                   | None => arr end) (slot_array MIG_NONE) l.

Definition fill_mig_peer (nodes : list NodeEntry) (l : list (N * N * string)) : list N :=
  foldl (λ arr sm, match node_position sm.2 nodes with
                   | Some idx => if mig_tag sm.1.2 then put_slot sm.1.1 (to_u16 idx) arr else arr
                   | None => arr end) (slot_array UNASSIGNED) l.

Definition restore_committed (data : list byte) (m : SlotMap) : option SlotMap :=
  match decode_committed_snapshot data with
  | None => Some m
  | Some (mkSnap epoch snap_nodes owners reps migs) =>
      self_entry ← me m;
      let new_nodes := add_nodes [self_entry] snap_nodes in
      Some (mkSlotMap new_nodes (replicate (length new_nodes) 0)
              (fill_mine new_nodes self_entry owners) (fill_ids new_nodes owners)
              (fill_ids new_nodes reps) (fill_mig_state new_nodes migs)
              (fill_mig_peer new_nodes migs) 0 (c_my_epoch m) epoch)
  end.

(** ** Projection and maintenance *)

(** Runs of equal owners, ascending; [run] is the open run. *)
Fixpoint ranges_loop (slots : list (N * N)) (run : option (N * N)) (out : list (N * N * nat))
    : list (N * N * nat) :=
  match slots with
  | [] =>
      match run with
      | Some (start, owner_idx) => out ++ [(start, CLUSTER_SLOTS - 1, N.to_nat owner_idx)]
      | None => out
      end
  | (slot, o) :: slots =>
      let fresh := if decide (o = UNASSIGNED) then None else Some (slot, o) in
      match run with
      | Some (start, owner_idx) =>
          if decide (o = owner_idx) then ranges_loop slots run out
          else ranges_loop slots fresh (out ++ [(start, slot - 1, N.to_nat owner_idx)])
      | None => ranges_loop slots fresh out
      end
  end.

Definition ranges (m : SlotMap) : list (N * N * nat) :=
  ranges_loop (zip (map N.of_nat (seq 0 (N.to_nat CLUSTER_SLOTS))) (c_owner m)) None [].

(** [j] leads its group and shares [ni]'s endpoint. *)
Definition leads (nodes : list NodeEntry) (canonical : list nat) (ni : NodeEntry) (j : nat) : bool :=
  bool_decide (canonical !! j = Some j) &&
  match nodes !! j with Some nj => same_endpoint nj ni | None => false end.

(** The canonical entry of each endpoint group: [j]'s leader for the first [j < i]
    that leads and shares [i]'s endpoint, and [i] itself when [i] is this node. *)
Definition canonical_step (nodes : list NodeEntry) (me : nat) (canonical : list nat) (i : nat)
    : list nat :=
  match nodes !! i with
  | None => canonical
  | Some ni =>
      match list_find (λ j, leads nodes canonical ni j = true) (seq 0 i) with
      | None => canonical
      | Some (_, j) =>
          if decide (i = me)
          then <[i := i]> (map (λ c, if decide (c = j) then i else c) canonical)
          else <[i := default j (canonical !! j)]> canonical
      end
  end.

Definition canonical_of (nodes : list NodeEntry) (me : nat) : list nat :=
  foldl (canonical_step nodes me) (seq 0 (length nodes)) (seq 0 (length nodes)).

(** [old_to_new] of the survivors, in order. *)
Definition survivors (canonical : list nat) : list nat :=
  filter (λ i, canonical !! i = Some i) (seq 0 (length canonical)).

Definition old_to_new (canonical : list nat) (i : nat) : N :=
  match list_find (λ k, k = i) (survivors canonical) with
  | Some (k, _) => to_u16 k
  | None => UNASSIGNED
  end.

(** [remap] then [translate] on an index; both index a table and panic outside. *)
Definition dedup_index (canonical : list nat) (idx : N) : option N :=
  if decide (idx = UNASSIGNED) then Some UNASSIGNED else
  c ← canonical !! N.to_nat idx;
  if decide (to_u16 c = UNASSIGNED) then Some UNASSIGNED
  else if decide (N.to_nat (to_u16 c) < length canonical)%nat
  then Some (old_to_new canonical (N.to_nat (to_u16 c))) else None.

Definition dedup_nodes_by_endpoint : step SlotMap nat :=
  m ← gets id;
  let me := N.to_nat (c_self_idx m) in
  let n := length (c_nodes m) in
  let canonical := canonical_of (c_nodes m) me in
  if decide (canonical = seq 0 n) then mret 0%nat else
  owner ← lift (mapM (dedup_index canonical) (c_owner m));
  replicas ← lift (mapM (dedup_index canonical) (c_replicas m));
  peer ← lift (mapM (dedup_index canonical) (c_migration_peer m));
  new_self_old ← lift (canonical !! me);
  let keep := survivors canonical in
  new_nodes ← lift (mapM (λ i, c_nodes m !! i) keep);
  new_epochs ← lift (mapM (λ i, c_config_epochs m !! i) keep);
  modify (λ m, mkSlotMap new_nodes new_epochs (c_mine m) owner replicas (c_migration_state m) peer
                 (old_to_new canonical new_self_old) (c_my_epoch m) (c_current_epoch m));;
  mret (n - length new_nodes)%nat.
