(* ===== verification/ConfigSm.v ===== *)
(** * The configuration state machine (crates/ironcache-raft-net/src/config_sm.rs)

    Each node replays the committed configuration commands onto its own slot
    map.  [SlotConfig] is the abstract, node-independent configuration that
    the committed log describes; ConfigSmProofs.v relates the two. *)

From Stdlib Require Import Lia ZArith NArith.
From S2P Require Import Prelude RaftTypes RaftCodec SlotMap.
From stdpp Require Import strings.

#[local] Open Scope N_scope.

Record ConfigSm := mkConfigSm { cm_map : SlotMap; cm_epoch : N }.

Definition config_new (map : SlotMap) : ConfigSm := mkConfigSm map 0.

(** [let _ = ...]: the result is dropped, the effect stays. *)
Definition ignore {A} (m : step SlotMap A) : step SlotMap unit := m;; mret tt.

Definition promote_slot (new_primary : string) (slot : N) : step SlotMap unit :=
  old_owner ← gets (owner_id slot);
  ignore (set_slot_node slot new_primary);;
  clear_slot_replica slot new_primary;;
  match old_owner with
  | Some old =>
      if decide (old ≠ new_primary) then ignore (set_slot_replica slot old) else mret tt
  | None => mret tt
  end.

Definition apply_cmd (cmd : ConfigCmd) : step SlotMap unit :=
  match cmd with
  | AddNode id host port => modify (SlotMap.meet (mkNode id host port))
  | RemoveNode id => ignore (forget id)
  | SetSlotOwner slot node => ignore (set_slot_node slot node)
  | AssignSlots node slots => for_each slots (λ slot, ignore (set_slot_node slot node))
  | UnassignSlots slots => for_each slots clear_slot_owner
  | AssignReplica node slots => for_each slots (λ slot, ignore (set_slot_replica slot node))
  | PromoteReplica slots new_primary => for_each slots (promote_slot new_primary)
  | SetSlotMigrating slot dest =>
      mine ← load c_mine slot;
      if (mine : bool) then ignore (set_migrating slot dest) else mret tt
  | SetSlotImporting slot src dest =>
      self ← gets (is_self dest);
      if (self : bool) then ignore (set_importing slot src) else mret tt
  | SetSlotStable slot => clear_migration slot
  | SetConfigEpoch _ => mret tt
  end.

Definition config_apply (entry : LogEntry) (sm : ConfigSm) : option ConfigSm :=
  match e_payload entry with
  | Config cmd =>
      epoch ← add64 (cm_epoch sm) 1;
      '(_, map) ← apply_cmd cmd (set_committed_epoch epoch (cm_map sm));
      Some (mkConfigSm map epoch)
  | _ => Some sm
  end.

Definition config_snapshot (sm : ConfigSm) : list byte :=
  put_u64 (cm_epoch sm) ++ serialize_committed (cm_map sm).

Definition config_restore (data : list byte) (sm : ConfigSm) : option ConfigSm :=
  let '(epoch_bytes, map_bytes) := (take 8 data, drop 8 data) in
  let epoch := if decide (length epoch_bytes = 8%nat) then from_le_bytes epoch_bytes else 0 in
  map ← restore_committed map_bytes (cm_map sm);
  Some (mkConfigSm (set_committed_epoch epoch map) epoch).

(** ** The abstract configuration *)

Record SlotConfig := mkConf {
  g_nodes : gmap string (string * N);
  g_owner : gmap N string;
  g_replica : gmap N string
}.

Definition conf_new : SlotConfig := mkConf ∅ ∅ ∅.

Definition conf_own (node : string) (g : SlotConfig) (slot : N) : SlotConfig :=
  mkConf (g_nodes g) (<[slot := node]> (g_owner g)) (g_replica g).
Definition conf_unown (g : SlotConfig) (slot : N) : SlotConfig :=
  mkConf (g_nodes g) (delete slot (g_owner g)) (g_replica g).
Definition conf_replica (node : string) (g : SlotConfig) (slot : N) : SlotConfig :=
  mkConf (g_nodes g) (g_owner g) (<[slot := node]> (g_replica g)).

(** The old owner, if any other, becomes the replica of the promoted node; else
    the promoted node stops being one. *)
Definition conf_promote (new_primary : string) (g : SlotConfig) (slot : N) : SlotConfig :=
  mkConf (g_nodes g) (<[slot := new_primary]> (g_owner g))
    (match g_owner g !! slot with
     | Some old =>
         if decide (old ≠ new_primary) then <[slot := old]> (g_replica g)
         else if decide (g_replica g !! slot = Some new_primary) then delete slot (g_replica g)
         else g_replica g
     | None =>
         if decide (g_replica g !! slot = Some new_primary) then delete slot (g_replica g)
         else g_replica g
     end).

Definition conf_apply (cmd : ConfigCmd) (g : SlotConfig) : SlotConfig :=
  match cmd with
  | AddNode id host port =>
      if decide (g_nodes g !! id = None)
      then mkConf (<[id := (host, port)]> (g_nodes g)) (g_owner g) (g_replica g) else g
  | RemoveNode id =>
      if decide (map_Forall (λ _ o, o ≠ id) (g_owner g))
      then mkConf (delete id (g_nodes g)) (g_owner g) (filter (λ sr, sr.2 ≠ id) (g_replica g))
      else g
  | SetSlotOwner slot node => conf_own node g slot
  | AssignSlots node slots => foldl (conf_own node) g slots
  | UnassignSlots slots => foldl conf_unown g slots
  | AssignReplica node slots => foldl (conf_replica node) g slots
  | PromoteReplica slots new_primary => foldl (conf_promote new_primary) g slots
  | _ => g
  end.

(** The condition under which the machines agree.  That slots are in range is what
    [parse_slot_strict] enforces on every CLUSTER mutator.  That a named node is
    registered is assumed: the comment in [apply] says the proposal path validates
    it, but [build_setslot], [build_replicate] and [build_forget] propose any id.
    The bound on the table is the reach of its u16 indices, also assumed. *)
Definition cmd_ok (cmd : ConfigCmd) (g : SlotConfig) : Prop :=
  let known id := is_Some (g_nodes g !! id) in
  match cmd with
  | AddNode _ _ _ => N.of_nat (size (g_nodes g)) < 65534
  | SetConfigEpoch _ => True
  | RemoveNode id => known id
  | SetSlotOwner slot node => slot < CLUSTER_SLOTS ∧ known node
  | AssignSlots node slots | AssignReplica node slots | PromoteReplica slots node =>
      Forall (λ s, s < CLUSTER_SLOTS) slots ∧ known node
  | UnassignSlots slots => Forall (λ s, s < CLUSTER_SLOTS) slots
  | SetSlotMigrating slot dest => slot < CLUSTER_SLOTS
  | SetSlotImporting slot src dest => slot < CLUSTER_SLOTS
  | SetSlotStable slot => slot < CLUSTER_SLOTS
  end.

(** ** The destination of SETSLOT IMPORTING *)

Definition migration_peer_id (slot : N) (m : SlotMap) : option string :=
  n_id <$> migration_peer_entry slot m.

(** The command names only the source: [build_setslot] takes the destination from
    the migration recorded on the node that runs it, and else that node itself. *)
Definition importing_cmd (slot : N) (src : string) (m : SlotMap) : option ConfigCmd :=
  self ← me m;
  Some (SetSlotImporting slot src (default (n_id self) (migration_peer_id slot m))).
