(* ===== verification/SlotMapProofs.v ===== *)
(** * The slot map invariant

    [map_wf] ties the lock-free ownership bitmap to the owner array and keeps
    every index inside the node table.  Each mutator has a closed form on its
    success branch, keeps the invariant, and never panics on slots in range. *)

From Stdlib Require Import Lia ZArith NArith.
From S2P Require Import Prelude RaftTypes RaftCodec SlotMap.
From stdpp Require Import strings.

#[local] Open Scope N_scope.

Definition idx_ok (nodes : list NodeEntry) (i : N) : Prop :=
  i = UNASSIGNED ∨ (N.to_nat i < length nodes)%nat.

Definition is_self_at (nodes : list NodeEntry) (self : N) (idx : nat) : bool :=
  bool_decide (idx = N.to_nat self) ||
  match nodes !! idx, nodes !! N.to_nat self with
  | Some n, Some me => same_endpoint n me
  | _, _ => false
  end.

(** The bit the bitmap must hold for an owner index. *)
Definition mine_of (nodes : list NodeEntry) (self o : N) : bool :=
  bool_decide (o ≠ UNASSIGNED) && is_self_at nodes self (N.to_nat o).

Definition SLOTS : nat := N.to_nat CLUSTER_SLOTS.

Record map_wf (m : SlotMap) : Prop := {
  wf_owner_len : length (c_owner m) = SLOTS;
  wf_replicas_len : length (c_replicas m) = SLOTS;
  wf_state_len : length (c_migration_state m) = SLOTS;
  wf_peer_len : length (c_migration_peer m) = SLOTS;
  wf_epochs : length (c_config_epochs m) = length (c_nodes m);
  wf_ids : NoDup (n_id <$> c_nodes m);
  wf_self : (N.to_nat (c_self_idx m) < length (c_nodes m))%nat;
  wf_room : N.of_nat (length (c_nodes m)) ≤ 65535;
  wf_owner : Forall (idx_ok (c_nodes m)) (c_owner m);
  wf_replicas : Forall (idx_ok (c_nodes m)) (c_replicas m);
  wf_peer : Forall (idx_ok (c_nodes m)) (c_migration_peer m);
  wf_mine : c_mine m = mine_of (c_nodes m) (c_self_idx m) <$> c_owner m
}.

Definition in_range (slot : N) : Prop := (N.to_nat slot < SLOTS)%nat.

Lemma in_range_iff slot : in_range slot ↔ slot < CLUSTER_SLOTS.
Proof. unfold in_range, SLOTS. lia. Qed.

Lemma wf_mine_len m : map_wf m → length (c_mine m) = SLOTS.
Proof. intros H. rewrite (wf_mine _ H), length_fmap. apply H. Qed.

(** ** Positions and indices *)

Lemma node_position_Some id nodes i : node_position id nodes = Some i →
  ∃ n, nodes !! i = Some n ∧ n_id n = id.
Proof.
  unfold node_position. intros ([j n] & H & ->)%fmap_Some_1.
  apply list_find_Some in H as (H & Hid & _). eauto.
Qed.

Lemma node_position_None id nodes : node_position id nodes = None ↔ id ∉ n_id <$> nodes.
Proof.
  unfold node_position. rewrite fmap_None, list_find_None, Forall_forall.
  rewrite list_elem_of_fmap. split; [intros H (n & -> & Hn)|]; naive_solver.
Qed.

Lemma ids_inj nodes i j n k : NoDup (n_id <$> nodes) →
  nodes !! i = Some n → nodes !! j = Some k → n_id n = n_id k → i = j.
Proof.
  intros Hnd Hi Hj E. eapply (NoDup_lookup _ i j (n_id n)); [done|..];
    rewrite list_lookup_fmap; [rewrite Hi|rewrite Hj]; simpl; congruence.
Qed.

Lemma node_position_lookup nodes i n : NoDup (n_id <$> nodes) → nodes !! i = Some n →
  node_position (n_id n) nodes = Some i.
Proof.
  intros Hnd Hi. destruct (node_position (n_id n) nodes) as [j|] eqn:E.
  - apply node_position_Some in E as (k & Hj & Hid). f_equal. by eapply ids_inj.
  - apply node_position_None in E. destruct E. apply list_elem_of_fmap.
    exists n. split; [done|]. by eapply list_elem_of_lookup_2.
Qed.

(** An index below the table's bound survives the u16 cast and is not the sentinel. *)
Lemma to_u16_small i : N.of_nat i < 65535 → to_u16 i = N.of_nat i ∧ to_u16 i ≠ UNASSIGNED.
Proof.
  intros H. assert (to_u16 i = N.of_nat i) as -> by (unfold to_u16; apply N.mod_small; lia).
  unfold UNASSIGNED. lia.
Qed.

Lemma position_idx m id i : map_wf m → node_position id (c_nodes m) = Some i →
  (i < length (c_nodes m))%nat ∧ N.to_nat (to_u16 i) = i ∧ to_u16 i ≠ UNASSIGNED.
Proof.
  intros H (n & Hn & _)%node_position_Some. apply lookup_lt_Some in Hn.
  pose proof (wf_room _ H). destruct (to_u16_small i) as [-> ?]; [lia|]. lia.
Qed.

Lemma idx_ok_position m id i : map_wf m → node_position id (c_nodes m) = Some i →
  idx_ok (c_nodes m) (to_u16 i).
Proof. intros H Hp. destruct (position_idx _ _ _ H Hp) as (? & E & _). right. lia. Qed.

Lemma mine_of_unassigned nodes self : mine_of nodes self UNASSIGNED = false.
Proof. done. Qed.

Lemma mine_of_position m id i : map_wf m → node_position id (c_nodes m) = Some i →
  mine_of (c_nodes m) (c_self_idx m) (to_u16 i) = is_self_idx m i.
Proof.
  intros H Hp. destruct (position_idx _ _ _ H Hp) as (_ & E & Hne).
  unfold mine_of. rewrite E, bool_decide_true by done. done.
Qed.

(** ** Writing one slot *)

Definition own_slot (slot o : N) (m : SlotMap) : SlotMap :=
  set_mine (<[N.to_nat slot := mine_of (c_nodes m) (c_self_idx m) o]> (c_mine m))
    (set_owner (<[N.to_nat slot := o]> (c_owner m)) m).
Definition replica_slot (slot i : N) (m : SlotMap) : SlotMap :=
  set_replicas (<[N.to_nat slot := i]> (c_replicas m)) m.
Definition mig_slot (slot st peer : N) (m : SlotMap) : SlotMap :=
  set_migration_peer (<[N.to_nat slot := peer]> (c_migration_peer m))
    (set_migration_state (<[N.to_nat slot := st]> (c_migration_state m)) m).

Lemma own_slot_wf slot o m : map_wf m → idx_ok (c_nodes m) o → map_wf (own_slot slot o m).
Proof.
  intros [] Ho. split; simpl; rewrite ?length_insert; try done.
  - by apply Forall_insert.
  - rewrite list_fmap_insert. congruence.
Qed.

Lemma replica_slot_wf slot i m : map_wf m → idx_ok (c_nodes m) i → map_wf (replica_slot slot i m).
Proof. intros [] Hi. split; simpl; rewrite ?length_insert; try done. by apply Forall_insert. Qed.

Lemma mig_slot_wf slot st p m : map_wf m → idx_ok (c_nodes m) p → map_wf (mig_slot slot st p m).
Proof. intros [] Hi. split; simpl; rewrite ?length_insert; try done. by apply Forall_insert. Qed.

Lemma idx_ok_unassigned nodes : idx_ok nodes UNASSIGNED.
Proof. by left. Qed.

Create HintDb slotmap.
#[export] Hint Resolve own_slot_wf replica_slot_wf mig_slot_wf idx_ok_unassigned
  idx_ok_position : slotmap.

Lemma store_eq {A} (arr : SlotMap → list A) set slot v m :
  length (arr m) = SLOTS → in_range slot →
  store arr set slot v m = Some (tt, set (<[N.to_nat slot := v]> (arr m)) m).
Proof. unfold store, in_range. intros E H. rewrite decide_True by lia. done. Qed.

Ltac store_all H :=
  repeat (rewrite store_eq;
          [|simpl; rewrite ?length_insert; first [apply H | by apply wf_mine_len]|done];
          cbn [mbind step_bind]).

Lemma known_eq id k m : known id k m =
  match node_position id (c_nodes m) with
  | Some idx => k idx m
  | None => Some (inr (UnknownNode id), m)
  end.
Proof. unfold known, mbind, step_bind, gets. by destruct (node_position _ _). Qed.

Lemma set_slot_node_eq slot id m : map_wf m → in_range slot →
  set_slot_node slot id m =
  Some (match node_position id (c_nodes m) with
        | Some i => (inl tt, mig_slot slot MIG_NONE UNASSIGNED (own_slot slot (to_u16 i) m))
        | None => (inr (UnknownNode id), m)
        end).
Proof.
  intros H Hs. unfold set_slot_node. rewrite known_eq. destruct (node_position _ _) as [i|] eqn:E; [|done].
  unfold own_slot. rewrite (mine_of_position m id i) by done.
  unfold clear_migration, mbind, step_bind, store_owner, store_mine, store_mig_state, store_mig_peer, gets.
  store_all H. done.
Qed.

Lemma clear_slot_owner_eq slot m : map_wf m → in_range slot →
  clear_slot_owner slot m = Some (tt, own_slot slot UNASSIGNED m).
Proof.
  intros H Hs. unfold clear_slot_owner, mbind, step_bind, store_owner, store_mine.
  store_all H. done.
Qed.

Lemma set_slot_replica_eq slot id m : map_wf m → in_range slot →
  set_slot_replica slot id m =
  Some (match node_position id (c_nodes m) with
        | Some i => (inl tt, replica_slot slot (to_u16 i) m)
        | None => (inr (UnknownNode id), m)
        end).
Proof.
  intros H Hs. unfold set_slot_replica. rewrite known_eq. destruct (node_position _ _) as [i|]; [|done].
  unfold mbind, step_bind, store_replica. store_all H. done.
Qed.

Lemma clear_slot_replica_eq slot id m : map_wf m → in_range slot →
  clear_slot_replica slot id m =
  Some (tt, if is_replica_of slot id m then replica_slot slot UNASSIGNED m else m).
Proof.
  intros H Hs. unfold clear_slot_replica, is_replica_of, replica_entry, node_at, load, mbind, step_bind, gets, mret, step_ret.
  destruct (lookup_lt_is_Some_2 (c_replicas m) (N.to_nat slot)) as [i Hi];
    [rewrite (wf_replicas_len _ H); done|].
  rewrite Hi. cbn. destruct (decide (i = UNASSIGNED)); [done|].
  destruct (c_nodes m !! N.to_nat i) as [k|]; [|done]. cbn.
  case_decide; [rewrite bool_decide_true by done|by rewrite bool_decide_false].
  unfold store_replica. store_all H. done.
Qed.

Lemma set_migration_eq (mk : N → string → step SlotMap (unit + SlotMutError)) st slot id m :
  mk = set_migrating ∧ st = MIG_MIGRATING ∨ mk = set_importing ∧ st = MIG_IMPORTING →
  map_wf m → in_range slot →
  mk slot id m =
  Some (match node_position id (c_nodes m) with
        | Some i => (inl tt, mig_slot slot st (to_u16 i) m)
        | None => (inr (UnknownNode id), m)
        end).
Proof.
  intros [[-> ->]|[-> ->]] H Hs;
    unfold set_migrating, set_importing; rewrite known_eq; (destruct (node_position _ _) as [i|]; [|done]);
    unfold mbind, step_bind, store_mig_peer, store_mig_state; store_all H; done.
Qed.

Lemma clear_migration_eq slot m : map_wf m → in_range slot →
  clear_migration slot m = Some (tt, mig_slot slot MIG_NONE UNASSIGNED m).
Proof.
  intros H Hs. unfold clear_migration, mbind, step_bind, store_mig_state, store_mig_peer.
  store_all H. done.
Qed.

(** ** The node table grows and shrinks *)

Lemma idx_ok_app nodes l i : idx_ok nodes i → idx_ok (nodes ++ l) i.
Proof. intros [?|?]; [by left|right]. rewrite length_app. lia. Qed.

Lemma mine_of_app nodes l self o : (N.to_nat self < length nodes)%nat → idx_ok nodes o →
  mine_of (nodes ++ l) self o = mine_of nodes self o.
Proof.
  intros Hs [->|Ho]; [done|]. unfold mine_of, is_self_at. by rewrite !lookup_app_l.
Qed.

Lemma meet_wf e m : map_wf m → N.of_nat (length (c_nodes m)) < 65535 →
  map_wf (SlotMap.meet e m).
Proof.
  intros H Hroom. unfold SlotMap.meet. case_decide as Hn; [done|].
  apply node_position_None in Hn.
  destruct H as []. split; simpl; rewrite ?length_app; simpl; try done; try lia.
  - rewrite fmap_app. apply NoDup_app. split_and!; [done| |apply NoDup_singleton].
    intros x Hx ->%list_elem_of_singleton. done.
  - eapply Forall_impl; [done|]. intros. by apply idx_ok_app.
  - eapply Forall_impl; [done|]. intros. by apply idx_ok_app.
  - eapply Forall_impl; [done|]. intros. by apply idx_ok_app.
  - rewrite wf_mine0. apply Forall_fmap_ext. eapply Forall_impl; [exact wf_owner0|].
    intros o Ho. symmetry. by apply mine_of_app.
Qed.

Lemma remove_at_lookup {A} (r : nat) (l : list A) i : (r < length l)%nat → i ≠ r →
  remove_at r l !! (if decide (r < i)%nat then (i - 1)%nat else i) = l !! i.
Proof.
  intros Hr Hi. unfold remove_at. case_decide.
  - rewrite lookup_app_r; rewrite length_take; [|lia].
    rewrite lookup_drop. f_equal. lia.
  - rewrite lookup_app_l by (rewrite length_take; lia). apply lookup_take_lt. lia.
Qed.

Lemma length_remove_at {A} (r : nat) (l : list A) : (r < length l)%nat →
  length (remove_at r l) = (length l - 1)%nat.
Proof. intros. unfold remove_at. rewrite length_app, length_take, length_drop. lia. Qed.

Section forget.
Context (nodes : list NodeEntry) (r : nat).
Context (Hr : (r < length nodes)%nat) (Hroom : N.of_nat (length nodes) ≤ 65535).

(** An index other than the removed one names the same node after the shift. *)
Lemma shift_down_spec o : (N.to_nat o < length nodes)%nat → N.to_nat o ≠ r →
  shift_down (N.of_nat r) o ≠ UNASSIGNED ∧
  N.to_nat (shift_down (N.of_nat r) o) =
    (if decide (r < N.to_nat o)%nat then (N.to_nat o - 1)%nat else N.to_nat o) ∧
  remove_at r nodes !! N.to_nat (shift_down (N.of_nat r) o) = nodes !! N.to_nat o.
Proof.
  intros Ho Hne.
  assert (N.to_nat (shift_down (N.of_nat r) o) =
    (if decide (r < N.to_nat o)%nat then (N.to_nat o - 1)%nat else N.to_nat o)) as E.
  { unfold shift_down, UNASSIGNED. repeat case_decide; lia. }
  split_and!; [|done|by rewrite E, remove_at_lookup].
  unfold shift_down, UNASSIGNED in *. repeat case_decide; lia.
Qed.

Lemma shift_down_unassigned : shift_down (N.of_nat r) UNASSIGNED = UNASSIGNED.
Proof. unfold shift_down. rewrite decide_False; [done|]. by intros []. Qed.

Lemma idx_ok_shift_down o : idx_ok nodes o → o ≠ N.of_nat r →
  idx_ok (remove_at r nodes) (shift_down (N.of_nat r) o).
Proof.
  intros [->|Ho] Hne; [left; apply shift_down_unassigned|]. right.
  destruct (shift_down_spec o) as (_ & E & _); [done|lia|].
  rewrite length_remove_at, E by done. case_decide; lia.
Qed.

Lemma idx_ok_shift_or_clear o : idx_ok nodes o →
  idx_ok (remove_at r nodes) (shift_or_clear (N.of_nat r) o).
Proof. intros Ho. unfold shift_or_clear. case_decide; [by left|by apply idx_ok_shift_down]. Qed.

Lemma mine_of_shift_down self o : (N.to_nat self < length nodes)%nat → N.to_nat self ≠ r →
  idx_ok nodes o → o ≠ N.of_nat r →
  mine_of (remove_at r nodes) (shift_down (N.of_nat r) self) (shift_down (N.of_nat r) o) =
  mine_of nodes self o.
Proof.
  intros Hs Hsr [->|Ho] Hne; [by rewrite shift_down_unassigned|].
  destruct (shift_down_spec self) as (_ & Es & Ls); [done..|].
  destruct (shift_down_spec o) as (Ho' & Eo & Lo); [done|lia|].
  assert (o ≠ UNASSIGNED) by (unfold UNASSIGNED; lia).
  unfold mine_of, is_self_at. rewrite Ls, Lo, !(bool_decide_true (_ ≠ _)) by done.
  f_equal. f_equal. apply bool_decide_ext. rewrite Es, Eo. repeat case_decide; lia.
Qed.
End forget.

(** What a successful [forget] leaves. *)
Definition forgotten (r : nat) (m : SlotMap) : SlotMap :=
  mkSlotMap (remove_at r (c_nodes m)) (remove_at r (c_config_epochs m)) (c_mine m)
    (shift_down (N.of_nat r) <$> c_owner m) (shift_or_clear (N.of_nat r) <$> c_replicas m)
    (zip_with (λ p st, if decide (p = N.of_nat r) then MIG_NONE else st)
       (c_migration_peer m) (c_migration_state m))
    (shift_or_clear (N.of_nat r) <$> c_migration_peer m)
    (shift_down (N.of_nat r) (c_self_idx m)) (c_my_epoch m) (c_current_epoch m).

Lemma forget_eq id m : map_wf m →
  forget id m =
  Some (match node_position id (c_nodes m) with
        | None => (inr (UnknownNode id), m)
        | Some r =>
            if decide (r = N.to_nat (c_self_idx m)) then (inr ForgetSelf, m)
            else if decide (N.of_nat r ∈ c_owner m) then (inr (NodeOwnsSlots id), m)
            else (inl tt, forgotten r m)
        end).
Proof.
  intros H. unfold forget. rewrite known_eq. destruct (node_position _ _) as [r|] eqn:E; [|done].
  destruct (position_idx _ _ _ H E) as (Hr & Er & _).
  assert (to_u16 r = N.of_nat r) as Eu by lia.
  unfold mbind, step_bind, gets, modify, mret, step_ret. cbn. rewrite Eu.
  case_decide; [done|]. case_decide; [done|].
  rewrite decide_False by (rewrite (wf_epochs _ H); lia).
  unfold forgotten. do 4 f_equal. unfold shift_down.
  pose proof (wf_self _ H). pose proof (wf_room _ H).
  unfold UNASSIGNED. repeat case_decide; lia.
Qed.

Lemma forgotten_wf r m : map_wf m → (r < length (c_nodes m))%nat →
  r ≠ N.to_nat (c_self_idx m) → N.of_nat r ∉ c_owner m → map_wf (forgotten r m).
Proof.
  intros [] Hr Hs Ho. split; simpl; rewrite ?length_zip_with, ?length_fmap, ?length_remove_at by lia;
    try done; try lia.
  - unfold remove_at. rewrite fmap_app, fmap_take, fmap_drop.
    eapply sublist_NoDup; [done|]. rewrite <-(take_drop r (n_id <$> c_nodes m)) at 3.
    apply sublist_app; [done|]. rewrite <-Nat.add_1_r, <-drop_drop. apply sublist_drop.
  - destruct (shift_down_spec (c_nodes m) r Hr wf_room0 (c_self_idx m)) as (_ & E & _); [done|lia|].
    rewrite E. case_decide; lia.
  - apply Forall_fmap, Forall_forall. intros o Hin. apply idx_ok_shift_down; try done.
    + by eapply Forall_forall in wf_owner0.
    + by intros ->.
  - apply Forall_fmap. eapply Forall_impl; [done|]. intros. by apply idx_ok_shift_or_clear.
  - apply Forall_fmap. eapply Forall_impl; [done|]. intros. by apply idx_ok_shift_or_clear.
  - rewrite wf_mine0, <-list_fmap_compose. apply Forall_fmap_ext, Forall_forall. intros o Hin.
    symmetry. apply mine_of_shift_down; try done; [by eapply Forall_forall in wf_owner0|by intros ->].
Qed.

(** ** Batches *)

(** A loop whose body is a total function on an invariant is a fold. *)
Lemma for_each_foldl {St A} (I : St → Prop) (f : A → step St unit) (g : St → A → St) l s :
  (∀ x s, x ∈ l → I s → f x s = Some (tt, g s x) ∧ I (g s x)) → I s →
  for_each l f s = Some (tt, foldl g s l) ∧ I (foldl g s l).
Proof.
  revert s. induction l as [|x l IH]; intros s Hf Hs; [done|]. simpl.
  destruct (Hf x s) as [E HI]; [left|done|]. unfold mbind, step_bind. rewrite E.
  apply IH; [|done]. intros y t Hy. apply Hf. by right.
Qed.

Lemma check_batch_total adding slots seen owner :
  length owner = SLOTS → Forall in_range slots → ∃ r, check_batch adding slots seen owner = Some r.
Proof.
  intros Hlen. revert seen. induction slots as [|s slots IH]; intros seen H; [by eexists|].
  apply Forall_cons in H as [Hs H]. simpl. rewrite decide_False by (apply in_range_iff in Hs; lia).
  case_decide; [by eexists|].
  destruct (lookup_lt_is_Some_2 owner (N.to_nat s)) as [o ->]; [rewrite Hlen; done|]. simpl.
  case_decide; destruct adding; eauto.
Qed.

(** Owning every slot of a batch under one index. *)
Definition own_all (slots : list N) (o : N) (m : SlotMap) : SlotMap :=
  foldl (λ m slot, own_slot slot o m) m slots.

(** [own_slot] for the index [o] of this node or of no node. *)
Definition own_const (o : N) (m : SlotMap) : Prop :=
  map_wf m ∧ idx_ok (c_nodes m) o ∧ (o = UNASSIGNED ∨ o = c_self_idx m).

Lemma self_not_unassigned m : map_wf m → c_self_idx m ≠ UNASSIGNED.
Proof. intros H. pose proof (wf_self _ H). pose proof (wf_room _ H). unfold UNASSIGNED. lia. Qed.

Lemma mine_of_self m : map_wf m → mine_of (c_nodes m) (c_self_idx m) (c_self_idx m) = true.
Proof.
  intros H. unfold mine_of, is_self_at. rewrite !bool_decide_true by (done || by apply self_not_unassigned).
  done.
Qed.

Lemma own_batch (slots : list N) o b m : own_const o m → Forall in_range slots →
  b = bool_decide (o ≠ UNASSIGNED) →
  for_each slots (λ slot, store_owner slot o;; store_mine slot b) m =
    Some (tt, own_all slots o m) ∧ own_const o (own_all slots o m).
Proof.
  intros Hm Hs ->. apply (for_each_foldl (own_const o)); [|done]. intros s m' Hin (H & Hi & Ho).
  eapply Forall_forall in Hs; [|done].
  split; [|split_and!; [by apply own_slot_wf|done|done]].
  unfold mbind, step_bind, store_owner, store_mine. store_all H. unfold own_slot. do 4 f_equal.
  destruct Ho as [->| ->]; [done|]. rewrite mine_of_self by done.
  apply bool_decide_true. by apply self_not_unassigned.
Qed.

Lemma add_slots_eq slots m : map_wf m → Forall in_range slots →
  ∃ r, check_batch true slots [] (c_owner m) = Some r ∧
  add_slots slots m = Some (match r with
                            | inl _ => (inl tt, own_all slots (c_self_idx m) m)
                            | inr e => (inr e, m) end) ∧
  map_wf (own_all slots (c_self_idx m) m).
Proof.
  intros H Hs. destruct (check_batch_total true slots [] (c_owner m)) as [r E]; [apply H|done|].
  exists r. split; [done|]. unfold add_slots, mbind at 1, step_bind at 1. rewrite E. cbn.
  destruct (own_batch slots (c_self_idx m) true m) as [E' (Hw & _)]; [|done| |].
  { split_and!; [done|right; apply H|by right]. }
  { symmetry. apply bool_decide_true. by apply self_not_unassigned. }
  split; [|done]. destruct r; [|done]. unfold mbind, step_bind, gets. unfold mbind, step_bind in E'.
  by rewrite E'.
Qed.

Lemma del_slots_eq slots m : map_wf m → Forall in_range slots →
  ∃ r, check_batch false slots [] (c_owner m) = Some r ∧
  del_slots slots m = Some (match r with
                            | inl _ => (inl tt, own_all slots UNASSIGNED m)
                            | inr e => (inr e, m) end) ∧
  map_wf (own_all slots UNASSIGNED m).
Proof.
  intros H Hs. destruct (check_batch_total false slots [] (c_owner m)) as [r E]; [apply H|done|].
  exists r. split; [done|]. unfold del_slots, mbind at 1, step_bind at 1. rewrite E. cbn.
  destruct (own_batch slots UNASSIGNED false m) as [E' (Hw & _)]; [|done|done|].
  { split_and!; [done|by left|by left]. }
  split; [|done]. destruct r; [|done]. unfold mbind, step_bind in *. by rewrite E'.
Qed.

Lemma flush_slots_wf m : map_wf m → map_wf (flush_slots m).
Proof.
  intros H. pose proof (self_not_unassigned _ H) as Hne. destruct H.
  split; simpl; rewrite ?length_fmap; try done.
  - apply Forall_fmap. eapply Forall_impl; [done|]. intros o Ho. simpl. case_decide; [by left|done].
  - rewrite wf_mine0. clear -Hne. induction (c_owner m) as [|o l IH]; [done|].
    simpl. f_equal; [|exact IH]. by case_decide.
Qed.

(** ** Every operation *)

Lemma empty_self_wf id host port : map_wf (empty_self id host port).
Proof.
  split; simpl; unfold slot_array; rewrite ?length_replicate; try done; try (simpl; lia).
  - apply NoDup_singleton.
  - apply Forall_replicate. by left.
  - apply Forall_replicate. by left.
  - apply Forall_replicate. by left.
Qed.

Lemma add_nodes_spec nodes snap : NoDup (n_id <$> nodes) →
  NoDup (n_id <$> add_nodes nodes snap) ∧ ∃ l, add_nodes nodes snap = nodes ++ l.
Proof.
  unfold add_nodes. revert nodes. induction snap as [|n snap IH]; intros nodes Hnd; simpl.
  { split; [done|]. exists []. by rewrite app_nil_r. }
  case_decide as Hn; [by apply IH|]. apply node_position_None in Hn.
  destruct (IH (nodes ++ [n])) as [H (l & E)].
  - rewrite fmap_app. apply NoDup_app. split_and!; [done| |apply NoDup_singleton].
    intros x Hx ->%list_elem_of_singleton. done.
  - split; [done|]. exists (n :: l). by rewrite E, <-app_assoc.
Qed.

Section fill.
Context (nodes : list NodeEntry) (self : NodeEntry).
Context (Hroom : N.of_nat (length nodes) ≤ 65535) (Hself : nodes !! 0%nat = Some self).

Lemma length_put_slot {A} slot (v : A) arr : length (put_slot slot v arr) = length arr.
Proof. unfold put_slot. case_decide; [apply length_insert|done]. Qed.

Lemma position_small id i : node_position id nodes = Some i →
  (i < length nodes)%nat ∧ to_u16 i = N.of_nat i ∧ to_u16 i ≠ UNASSIGNED.
Proof.
  intros (n & Hn & _)%node_position_Some. apply lookup_lt_Some in Hn.
  split; [done|]. apply to_u16_small. lia.
Qed.

Lemma fill_ids_ok l : length (fill_ids nodes l) = SLOTS ∧ Forall (idx_ok nodes) (fill_ids nodes l).
Proof.
  unfold fill_ids. assert (length (slot_array UNASSIGNED) = SLOTS ∧
    Forall (idx_ok nodes) (slot_array UNASSIGNED)) as H.
  { unfold slot_array. rewrite length_replicate. split; [done|]. apply Forall_replicate. by left. }
  revert H. generalize (slot_array UNASSIGNED). induction l as [|[s id] l IH]; [done|].
  intros arr [Hlen Harr]. simpl. apply IH.
  destruct (node_position id nodes) as [i|] eqn:E; [|done].
  destruct (position_small id i E) as (? & Eu & _). rewrite length_put_slot. split; [done|].
  unfold put_slot. case_decide; [|done]. apply Forall_insert; [done|]. right. lia.
Qed.

Lemma fill_mine_ok l : fill_mine nodes self l = mine_of nodes 0 <$> fill_ids nodes l.
Proof.
  unfold fill_mine, fill_ids.
  assert (slot_array false = mine_of nodes 0 <$> slot_array UNASSIGNED) as H
    by (unfold slot_array; by rewrite fmap_replicate).
  revert H. generalize (slot_array UNASSIGNED) (slot_array false).
  induction l as [|[s id] l IH]; intros arr brr Hb; [done|]. simpl. apply IH.
  destruct (node_position id nodes) as [i|] eqn:E; [|done].
  destruct (position_small id i E) as (_ & _ & Hne). unfold put_slot.
  case_decide; [|done]. rewrite list_fmap_insert, Hb. f_equal.
  unfold mine_of, is_self_at. change (N.to_nat 0) with 0%nat.
  rewrite Hself, (bool_decide_true (to_u16 i ≠ UNASSIGNED)) by done. simpl. f_equal. apply bool_decide_ext. lia.
Qed.

Lemma fill_mig_ok l : length (fill_mig_state nodes l) = SLOTS ∧
  length (fill_mig_peer nodes l) = SLOTS ∧ Forall (idx_ok nodes) (fill_mig_peer nodes l).
Proof.
  unfold fill_mig_state, fill_mig_peer.
  assert (length (slot_array MIG_NONE) = SLOTS ∧ length (slot_array UNASSIGNED) = SLOTS ∧
    Forall (idx_ok nodes) (slot_array UNASSIGNED)) as H.
  { unfold slot_array. rewrite !length_replicate. split_and!; [done..|]. apply Forall_replicate. by left. }
  revert H. generalize (slot_array MIG_NONE) (slot_array UNASSIGNED).
  induction l as [|[[s st] id] l IH]; [done|]. intros arr brr (Hl & Hl' & Hf). simpl. apply IH.
  destruct (node_position id nodes) as [i|] eqn:E; [|done].
  destruct (position_small id i E) as (? & Eu & _). destruct (mig_tag st); [|done].
  rewrite !length_put_slot. split_and!; [done..|].
  unfold put_slot. case_decide; [|done]. apply Forall_insert; [done|]. right. lia.
Qed.
End fill.

(** The table a snapshot restores fits the u16 indices. *)
Definition snapshot_fits (data : list byte) : Prop :=
  match decode_committed_snapshot data with
  | Some snap => N.of_nat (length (s_nodes snap)) < 65535
  | None => True
  end.

Lemma length_add_nodes nodes snap :
  (length (add_nodes nodes snap) ≤ length nodes + length snap)%nat.
Proof.
  unfold add_nodes. revert nodes. induction snap as [|n snap IH]; intros nodes; simpl; [lia|].
  case_decide; [specialize (IH nodes)|specialize (IH (nodes ++ [n])); rewrite length_app in IH; simpl in IH]; lia.
Qed.

Lemma restore_committed_wf data m : map_wf m → snapshot_fits data →
  ∃ m', restore_committed data m = Some m' ∧ map_wf m' ∧ me m' = me m.
Proof.
  intros H Hfit. unfold restore_committed, snapshot_fits in *.
  destruct (decode_committed_snapshot data) as [[ep snap owners reps migs]|]; [|by eauto].
  destruct (lookup_lt_is_Some_2 (c_nodes m) (N.to_nat (c_self_idx m))) as [self Hme]; [apply H|].
  unfold me. rewrite Hme. simpl in *. eexists. split; [done|].
  destruct (add_nodes_spec [self] snap) as [Hnd (l & E)]; [apply NoDup_singleton|].
  pose proof (length_add_nodes [self] snap) as Hl. simpl in Hl.
  set (nodes := add_nodes [self] snap) in *.
  assert (N.of_nat (length nodes) ≤ 65535) as Hroom by lia.
  assert (nodes !! 0%nat = Some self) as Hself by by rewrite E.
  destruct (fill_ids_ok nodes Hroom owners) as [? ?], (fill_ids_ok nodes Hroom reps) as [? ?],
    (fill_mig_ok nodes Hroom migs) as (? & ? & ?).
  split; [|done]. split; simpl; rewrite ?length_replicate; try done.
  - rewrite E. simpl. lia.
  - by apply fill_mine_ok.
Qed.

(** The calls that change a map. *)
Inductive map_op :=
  | OpAddSlots (slots : list N)
  | OpDelSlots (slots : list N)
  | OpFlushSlots
  | OpMeet (entry : NodeEntry)
  | OpForget (id : string)
  | OpSetSlotNode (slot : N) (id : string)
  | OpClearSlotOwner (slot : N)
  | OpSetSlotReplica (slot : N) (id : string)
  | OpClearSlotReplica (slot : N) (id : string)
  | OpSetMigrating (slot : N) (id : string)
  | OpSetImporting (slot : N) (id : string)
  | OpClearMigration (slot : N)
  | OpSetCommittedEpoch (epoch : N)
  | OpSetConfigEpoch (epoch : N)
  | OpBumpEpoch
  | OpRestore (data : list byte).

Definition discard {A} (m : step SlotMap A) : step SlotMap unit := m;; mret tt.

Definition run_op (op : map_op) : step SlotMap unit :=
  match op with
  | OpAddSlots slots => discard (add_slots slots)
  | OpDelSlots slots => discard (del_slots slots)
  | OpFlushSlots => modify flush_slots
  | OpMeet entry => modify (SlotMap.meet entry)
  | OpForget id => discard (forget id)
  | OpSetSlotNode slot id => discard (set_slot_node slot id)
  | OpClearSlotOwner slot => clear_slot_owner slot
  | OpSetSlotReplica slot id => discard (set_slot_replica slot id)
  | OpClearSlotReplica slot id => clear_slot_replica slot id
  | OpSetMigrating slot id => discard (set_migrating slot id)
  | OpSetImporting slot id => discard (set_importing slot id)
  | OpClearMigration slot => clear_migration slot
  | OpSetCommittedEpoch epoch => modify (set_committed_epoch epoch)
  | OpSetConfigEpoch epoch => discard (set_config_epoch epoch)
  | OpBumpEpoch => discard bump_epoch
  | OpRestore data => λ m, (λ m', (tt, m')) <$> restore_committed data m
  end.

(** Slots in range, a table that fits the u16 indices, and an epoch to bump to. *)
Definition op_ok (op : map_op) (m : SlotMap) : Prop :=
  match op with
  | OpAddSlots slots | OpDelSlots slots => Forall (λ s, s < CLUSTER_SLOTS) slots
  | OpMeet _ => N.of_nat (length (c_nodes m)) < 65535
  | OpSetSlotNode slot _ | OpClearSlotOwner slot | OpSetSlotReplica slot _
  | OpClearSlotReplica slot _ | OpSetMigrating slot _ | OpSetImporting slot _
  | OpClearMigration slot => slot < CLUSTER_SLOTS
  | OpBumpEpoch => foldl N.max (c_current_epoch m) (c_config_epochs m) < U64_MAX
  | OpRestore data => snapshot_fits data
  | _ => True
  end.

Lemma discard_eq {A} (m : step SlotMap A) s x s' : m s = Some (x, s') → discard m s = Some (tt, s').
Proof. unfold discard, mbind, step_bind. by intros ->. Qed.

Lemma Forall_in_range slots : Forall (λ s, s < CLUSTER_SLOTS) slots → Forall in_range slots.
Proof. intros H. eapply Forall_impl; [exact H|]. intros. by apply in_range_iff. Qed.

#[export] Hint Resolve flush_slots_wf meet_wf : slotmap.

(** The removed index is another node's and owns nothing. *)
Lemma forget_wf id m : map_wf m → ∃ r m', forget id m = Some (r, m') ∧ map_wf m'.
Proof.
  intros H. rewrite forget_eq by done. destruct (node_position _ _) as [r|] eqn:E; [|by eauto].
  destruct (position_idx _ _ _ H E) as (Hr & _).
  case_decide; [by eauto|]. case_decide; [by eauto|]. eauto using forgotten_wf.
Qed.

Lemma set_config_epoch_wf epoch m : map_wf m →
  ∃ r m', set_config_epoch epoch m = Some (r, m') ∧ map_wf m'.
Proof.
  intros H. unfold set_config_epoch, mbind, step_bind, gets. cbn.
  case_decide; [by eauto|]. case_decide; [by eauto|]. do 2 eexists. split; [done|].
  case_decide; destruct H; split; simpl; by rewrite ?length_insert.
Qed.

Lemma bump_epoch_wf m : map_wf m → foldl N.max (c_current_epoch m) (c_config_epochs m) < U64_MAX →
  ∃ r m', bump_epoch m = Some (r, m') ∧ map_wf m'.
Proof.
  intros H Hm. unfold bump_epoch, mbind, step_bind, gets. cbn.
  case_decide; [|by eauto]. rewrite add64_small by lia. do 2 eexists. split; [done|].
  destruct H; split; simpl; by rewrite ?length_insert.
Qed.

Ltac finish_op E := eexists; split; [by eapply discard_eq, E|eauto 6 with slotmap].

Lemma run_op_wf op m : map_wf m → op_ok op m → ∃ m', run_op op m = Some (tt, m') ∧ map_wf m'.
Proof.
  intros H Hok. destruct op; simpl in *; try apply in_range_iff in Hok.
  - destruct (add_slots_eq slots m) as (r & _ & E & Hw); [done|by apply Forall_in_range|].
    destruct r; eauto using discard_eq.
  - destruct (del_slots_eq slots m) as (r & _ & E & Hw); [done|by apply Forall_in_range|].
    destruct r; eauto using discard_eq.
  - eexists. split; [done|auto with slotmap].
  - eexists. split; [done|auto with slotmap].
  - destruct (forget_wf id m) as (r & m' & E & Hw); eauto using discard_eq.
  - pose proof (set_slot_node_eq slot id m H Hok) as E.
    destruct (node_position _ _) eqn:?; finish_op E.
  - rewrite clear_slot_owner_eq by done. eauto with slotmap.
  - pose proof (set_slot_replica_eq slot id m H Hok) as E.
    destruct (node_position _ _) eqn:?; finish_op E.
  - rewrite clear_slot_replica_eq by done. destruct (is_replica_of _ _ _); eauto with slotmap.
  - pose proof (set_migration_eq set_migrating _ slot id m ltac:(by left) H Hok) as E.
    destruct (node_position _ _) eqn:?; finish_op E.
  - pose proof (set_migration_eq set_importing _ slot id m ltac:(by right) H Hok) as E.
    destruct (node_position _ _) eqn:?; finish_op E.
  - rewrite clear_migration_eq by done. eauto with slotmap.
  - eexists. split; [done|]. by destruct H.
  - destruct (set_config_epoch_wf epoch m) as (r & m' & E & Hw); eauto using discard_eq.
  - destruct (bump_epoch_wf m) as (r & m' & E & Hw); eauto using discard_eq.
  - destruct (restore_committed_wf data m) as (m' & -> & Hw & _); eauto.
Qed.

(** ** What the map answers *)

(** A map a node can reach from its fresh state. *)
Inductive map_reach (self : NodeEntry) : SlotMap → Prop :=
  | reach_new : map_reach self (empty_self (n_id self) (n_host self) (n_port self))
  | reach_op op m m' : map_reach self m → op_ok op m → run_op op m = Some (tt, m') →
      map_reach self m'.

Lemma map_reach_wf self m : map_reach self m → map_wf m.
Proof.
  induction 1 as [|op m m' _ IH Hok E]; [apply empty_self_wf|].
  destruct (run_op_wf op m) as (m1 & E1 & Hw); [done..|]. congruence.
Qed.

Lemma same_endpoint_true a b :
  same_endpoint a b = true ↔ (n_host a, n_port a) = (n_host b, n_port b).
Proof.
  unfold same_endpoint. rewrite andb_true_iff, !bool_decide_eq_true.
  split; [intros [-> ->]|intros [= -> ->]]; done.
Qed.

Lemma me_Some m : map_wf m → ∃ self, me m = Some self.
Proof. intros H. apply lookup_lt_is_Some_2, H. Qed.

(** The bitmap answers whether the redirect of the slot leads back here. *)
Lemma owns_redirect m slot self : map_wf m → in_range slot → me m = Some self →
  ∃ b, owns slot m = Some b ∧
       (b = true ↔ moved_target slot m = Some (n_host self, n_port self)).
Proof.
  intros H Hs Hme. destruct (lookup_lt_is_Some_2 (c_owner m) (N.to_nat slot)) as [o Ho];
    [rewrite (wf_owner_len _ H); done|].
  unfold owns, moved_target, owner_entry. rewrite (wf_mine _ H), list_lookup_fmap, Ho. simpl.
  eexists. split; [done|]. unfold node_at, mine_of, is_self_at. unfold me in Hme.
  case_decide as Hu; [by rewrite bool_decide_false by tauto|].
  rewrite (bool_decide_true (o ≠ UNASSIGNED)), Hme by done. simpl.
  rewrite orb_true_iff, bool_decide_eq_true.
  pose proof (proj1 (Forall_lookup _ _) (wf_owner _ H) _ _ Ho) as [?|Hlt]; [done|].
  destruct (lookup_lt_is_Some_2 _ _ Hlt) as [n Hn]. rewrite Hn. simpl.
  rewrite same_endpoint_true. split.
  - intros [E|E]; [|by rewrite E]. rewrite E, Hme in Hn. by simplify_eq.
  - intros [= -> ->]. by right.
Qed.

(** (C27) Slot map safety: on any map a node reaches, every mutator called with
    slots in range returns without a panic and leaves a map on which the same
    holds again. *)
Theorem slot_map_total (self : NodeEntry) (m : SlotMap) (op : map_op)
    (Hm : map_reach self m) (Hok : op_ok op m) :
  ∃ m', run_op op m = Some (tt, m') ∧ map_reach self m' ∧ map_wf m'.
Proof.
  destruct (run_op_wf op m) as (m' & E & Hw); [by eapply map_reach_wf|done|].
  eauto using map_reach.
Qed.

(** (C26) Routing consistency: on any map a node reaches, the lock-free bitmap
    says a slot is owned here exactly when the redirect of that slot names this
    node's own endpoint, so a node never redirects a client to itself. *)
Theorem owns_iff_redirect_self (self : NodeEntry) (m : SlotMap) (slot : N)
    (Hm : map_reach self m) (Hs : slot < CLUSTER_SLOTS) :
  ∃ e b, me m = Some e ∧ owns slot m = Some b ∧
    (b = true ↔ moved_target slot m = Some (n_host e, n_port e)).
Proof.
  apply map_reach_wf in Hm as H. destruct (me_Some m H) as [e He].
  destruct (owns_redirect m slot e) as (b & Hb & Hiff); [done|by apply in_range_iff|done|]. eauto.
Qed.
