(* ===== verification/ConfigSmProofs.v ===== *)
(** * The configuration machine implements the abstract configuration

    [agrees self m g] relates a node's slot map to the node-independent
    configuration the committed log describes.  Applying a command keeps it, so
    nodes at the same prefix agree on every owner. *)

From Stdlib Require Import Lia ZArith NArith.
From S2P Require Import Prelude RaftTypes RaftCodec SlotMap ConfigSm SlotMapProofs.
From stdpp Require Import strings.

#[local] Open Scope N_scope.

Definition replica_id (slot : N) (m : SlotMap) : option string := n_id <$> replica_entry slot m.

Record agrees (self : NodeEntry) (m : SlotMap) (g : SlotConfig) : Prop := {
  ag_wf : map_wf m;
  ag_me : me m = Some self;
  ag_owner : ∀ s, in_range s → owner_id s m = g_owner g !! s;
  ag_replica : ∀ s, in_range s → replica_id s m = g_replica g !! s;
  ag_table : ∀ n, n ∈ c_nodes m → n_id n ≠ n_id self →
    g_nodes g !! n_id n = Some (n_host n, n_port n);
  ag_known : ∀ id, is_Some (g_nodes g !! id) → id ∈ n_id <$> c_nodes m;
  ag_dom : ∀ s, is_Some (g_owner g !! s) → in_range s
}.

(** ** Reading back what was written *)

Section reads.
Context (m : SlotMap) (Hm : map_wf m) (s : N) (Hs : in_range s).

Lemma id_of_position id i : node_position id (c_nodes m) = Some i →
  n_id <$> node_at m (to_u16 i) = Some id.
Proof.
  intros Hp. destruct (position_idx _ _ _ Hm Hp) as (_ & E & Hne).
  apply node_position_Some in Hp as (n & Hn & <-).
  unfold node_at. by rewrite decide_False, E, Hn.
Qed.

Lemma owner_id_own o s' : owner_id s' (own_slot s o m) =
  if decide (s' = s) then n_id <$> node_at m o else owner_id s' m.
Proof.
  unfold owner_id, owner_entry. cbn [own_slot set_mine set_owner c_owner]. case_decide as E.
  - subst. rewrite list_lookup_insert_eq; [done|]. rewrite (wf_owner_len _ Hm). exact Hs.
  - by rewrite list_lookup_insert_ne by lia.
Qed.

Lemma replica_id_slot i s' : replica_id s' (replica_slot s i m) =
  if decide (s' = s) then n_id <$> node_at m i else replica_id s' m.
Proof.
  unfold replica_id, replica_entry. cbn [replica_slot set_replicas c_replicas]. case_decide as E.
  - subst. rewrite list_lookup_insert_eq; [done|]. rewrite (wf_replicas_len _ Hm). exact Hs.
  - by rewrite list_lookup_insert_ne by lia.
Qed.

Lemma is_replica_of_id id : is_replica_of s id m = bool_decide (replica_id s m = Some id).
Proof.
  unfold is_replica_of, replica_id. destruct (replica_entry s m) as [n|]; [|done].
  apply bool_decide_ext. naive_solver.
Qed.

Lemma owner_known id : owner_id s m = Some id → is_Some (node_position id (c_nodes m)).
Proof.
  unfold owner_id, owner_entry. intros (n & Hn & ->)%fmap_Some_1.
  apply bind_Some in Hn as (o & _ & Hn). unfold node_at in Hn. case_decide; [done|].
  rewrite (node_position_lookup _ _ _ (wf_ids _ Hm) Hn). by eexists.
Qed.
End reads.

Lemma known_position self m g id : agrees self m g → is_Some (g_nodes g !! id) →
  ∃ i, node_position id (c_nodes m) = Some i.
Proof.
  intros H Hid%(ag_known _ _ _ H). destruct (node_position id (c_nodes m)) as [i|] eqn:E; [by eauto|].
  by apply node_position_None in E.
Qed.

(** ** One slot *)

Section one_slot.
Context (self : NodeEntry) (m : SlotMap) (g : SlotConfig) (H : agrees self m g).
Context (s : N) (Hs : in_range s).

Lemma agrees_mig st p : idx_ok (c_nodes m) p → agrees self (mig_slot s st p m) g.
Proof. intros Hp. destruct H. split; try done. by apply mig_slot_wf. Qed.

Lemma agrees_own id i : node_position id (c_nodes m) = Some i →
  agrees self (own_slot s (to_u16 i) m) (conf_own id g s).
Proof.
  intros Hp. destruct H. split; try done.
  - eauto with slotmap.
  - intros s' Hs'. rewrite owner_id_own by done. cbn [conf_own g_owner].
    case_decide; [subst; by rewrite lookup_insert_eq, (id_of_position m ag_wf0 id i Hp)|].
    rewrite lookup_insert_ne by done. auto.
  - intros s'. cbn [conf_own g_owner]. destruct (decide (s' = s)) as [->|]; [done|].
    rewrite lookup_insert_ne by done. auto.
Qed.

Lemma agrees_unown : agrees self (own_slot s UNASSIGNED m) (conf_unown g s).
Proof.
  destruct H. split; try done.
  - eauto with slotmap.
  - intros s' Hs'. rewrite owner_id_own by done. cbn [conf_unown g_owner].
    case_decide; [subst; by rewrite lookup_delete_eq|]. rewrite lookup_delete_ne by done. auto.
  - intros s'. cbn [conf_unown g_owner]. intros [o [_ Ho]%lookup_delete_Some]. eauto.
Qed.

(** The replica of one slot, set to the node an index names. *)
Lemma agrees_replica i (r : option string) : idx_ok (c_nodes m) i → n_id <$> node_at m i = r →
  agrees self (replica_slot s i m)
    (mkConf (g_nodes g) (g_owner g) (partial_alter (λ _, r) s (g_replica g))).
Proof.
  intros Hi Hr. destruct H. split; try done.
  - eauto with slotmap.
  - intros s' Hs'. rewrite replica_id_slot by done. cbn [g_replica].
    case_decide; [subst; by rewrite lookup_partial_alter_eq|].
    rewrite lookup_partial_alter_ne by done. auto.
Qed.
End one_slot.

(** ** Promotion *)

Lemma ignore_eq {A} (c : step SlotMap A) m x m' : c m = Some (x, m') → ignore c m = Some (tt, m').
Proof. unfold ignore, mbind, step_bind. by intros ->. Qed.

Lemma set_slot_node_agrees self m g s id : agrees self m g → in_range s →
  is_Some (g_nodes g !! id) →
  ∃ m', ignore (set_slot_node s id) m = Some (tt, m') ∧ agrees self m' (conf_own id g s) ∧
        c_nodes m' = c_nodes m ∧ c_replicas m' = c_replicas m.
Proof.
  intros H Hs Hk. destruct (known_position _ _ _ _ H Hk) as [i Hi].
  pose proof (set_slot_node_eq s id m (ag_wf _ _ _ H) Hs) as E. rewrite Hi in E.
  eexists. split; [by eapply ignore_eq|]. split; [|done].
  apply agrees_mig; [by apply agrees_own|by left].
Qed.

Lemma set_slot_replica_agrees self m g s id i : agrees self m g → in_range s →
  node_position id (c_nodes m) = Some i →
  ∃ m', ignore (set_slot_replica s id) m = Some (tt, m') ∧ agrees self m' (conf_replica id g s).
Proof.
  intros H Hs Hi. pose proof (ag_wf _ _ _ H) as Hw.
  pose proof (set_slot_replica_eq s id m Hw Hs) as E. rewrite Hi in E.
  eexists. split; [by eapply ignore_eq|].
  eapply (agrees_replica _ _ _ H s Hs _ (Some id)); [eauto with slotmap|by apply id_of_position].
Qed.

Definition conf_clear_replica (id : string) (g : SlotConfig) (s : N) : SlotConfig :=
  if decide (g_replica g !! s = Some id)
  then mkConf (g_nodes g) (g_owner g) (delete s (g_replica g)) else g.

Lemma clear_slot_replica_agrees self m g s id : agrees self m g → in_range s →
  ∃ m', clear_slot_replica s id m = Some (tt, m') ∧ agrees self m' (conf_clear_replica id g s) ∧
        c_nodes m' = c_nodes m.
Proof.
  intros H Hs. rewrite (clear_slot_replica_eq s id m (ag_wf _ _ _ H) Hs).
  rewrite is_replica_of_id, (ag_replica _ _ _ H s Hs). unfold conf_clear_replica.
  eexists. split; [done|]. case_bool_decide; [|by rewrite decide_False].
  rewrite decide_True by done. split; [|done].
  by apply (agrees_replica _ _ _ H s Hs UNASSIGNED None); [left|].
Qed.

Lemma conf_promote_eq id g s : conf_promote id g s =
  match g_owner g !! s with
  | Some old => if decide (old ≠ id)
      then conf_replica old (conf_clear_replica id (conf_own id g s) s) s
      else conf_clear_replica id (conf_own id g s) s
  | None => conf_clear_replica id (conf_own id g s) s
  end.
Proof.
  unfold conf_promote, conf_clear_replica, conf_replica, conf_own.
  destruct (g_owner g !! s); repeat case_decide; simpl in *; try done.
  by rewrite insert_delete_eq.
Qed.

Lemma promote_slot_agrees self m g s id : agrees self m g → in_range s →
  is_Some (g_nodes g !! id) →
  ∃ m', promote_slot id s m = Some (tt, m') ∧ agrees self m' (conf_promote id g s).
Proof.
  intros H Hs Hk. rewrite conf_promote_eq. unfold promote_slot, mbind, step_bind, gets.
  pose proof (ag_owner _ _ _ H s Hs) as Ho.
  destruct (set_slot_node_agrees _ _ _ _ _ H Hs Hk) as (m1 & E1 & H1 & N1 & _).
  destruct (clear_slot_replica_agrees _ _ _ _ id H1 Hs) as (m2 & E2 & H2 & N2).
  rewrite E1, E2, Ho. destruct (g_owner g !! s) as [old|]; [|by eauto].
  case_decide; [|by eauto].
  destruct (owner_known m (ag_wf _ _ _ H) s old Ho) as [j Hj].
  eapply set_slot_replica_agrees; [done..|]. by rewrite N2, N1.
Qed.

(** A command that repeats a step for each slot. *)
Lemma for_slots_agrees self (f : N → step SlotMap unit) (c : SlotConfig → N → SlotConfig)
    (ok : SlotConfig → Prop) slots m g :
  (∀ s m g, agrees self m g → in_range s → ok g →
     ok (c g s) ∧ ∃ m', f s m = Some (tt, m') ∧ agrees self m' (c g s)) →
  agrees self m g → Forall (λ s, s < CLUSTER_SLOTS) slots → ok g →
  ∃ m', for_each slots f m = Some (tt, m') ∧ agrees self m' (foldl c g slots).
Proof.
  intros Hf. revert m g. induction slots as [|s slots IH]; intros m g H Hs Hok; [by eauto|].
  apply Forall_cons in Hs as [Hs%in_range_iff Hss]. simpl.
  destruct (Hf s m g) as (Hok' & m1 & E & H1); [done..|].
  unfold mbind, step_bind. rewrite E. by apply IH.
Qed.

(** ** The node table *)

Lemma table_size self m g : agrees self m g →
  (length (c_nodes m) ≤ S (size (g_nodes g)))%nat.
Proof.
  intros H. rewrite <-(length_fmap n_id), <-(size_list_to_set (C:=gset string)) by apply H.
  transitivity (size ({[n_id self]} ∪ dom (g_nodes g) : gset string)).
  - apply subseteq_size. intros id. rewrite elem_of_list_to_set, list_elem_of_fmap.
    intros (n & -> & Hn). destruct (decide (n_id n = n_id self)) as [->|Hne]; [set_solver|].
    apply elem_of_union_r, elem_of_dom. rewrite (ag_table _ _ _ H n) by done. by eexists.
  - rewrite size_union_alt, size_singleton, <-size_dom.
    pose proof (subseteq_size (dom (g_nodes g) ∖ {[n_id self]}) (dom (g_nodes g)) ltac:(set_solver)). lia.
Qed.

Lemma node_at_app m l i : idx_ok (c_nodes m) i →
  (if decide (i = UNASSIGNED) then None else (c_nodes m ++ l) !! N.to_nat i) = node_at m i.
Proof.
  intros [->|Hi]; [done|]. unfold node_at. case_decide; [done|]. by apply lookup_app_l.
Qed.

Lemma meet_agrees self m g id host port : agrees self m g →
  N.of_nat (size (g_nodes g)) < 65534 →
  agrees self (SlotMap.meet (mkNode id host port) m) (conf_apply (AddNode id host port) g).
Proof.
  intros H Hroom. pose proof (table_size _ _ _ H) as Hsize.
  pose proof (meet_wf (mkNode id host port) m (ag_wf _ _ _ H) ltac:(lia)) as Hw.
  unfold SlotMap.meet in *. simpl in *. destruct H.
  case_decide as Hn.
  - (* the id is known here: registered, or this node's own *)
    case_decide as Hg; [|by split]. split; try done; simpl.
    + intros n Hin Hne. rewrite lookup_insert_ne; [auto|]. intros ->. rewrite ag_table0 in Hg; done.
    + intros id'. destruct (decide (id' = id)) as [->|]; [intros _|rewrite lookup_insert_ne; auto].
      destruct (node_position id (c_nodes m)) as [i|] eqn:E; [|done].
      apply node_position_Some in E as (n & Hi & <-). apply list_elem_of_fmap.
      exists n. split; [done|]. by eapply list_elem_of_lookup_2.
  - pose proof Hn as Hn'. apply node_position_None in Hn'.
    rewrite decide_True by (apply eq_None_not_Some; intros Hs; by apply Hn', ag_known0).
    split; try done; simpl.
    + unfold me in *. simpl. rewrite lookup_app_l; [done|apply ag_wf0].
    + intros s Hs. rewrite <-ag_owner0 by done. unfold owner_id, owner_entry. simpl.
      destruct (c_owner m !! N.to_nat s) as [o|] eqn:Ho; [|done]. simpl. unfold node_at at 1. simpl.
      rewrite node_at_app; [done|]. by eapply Forall_lookup in Ho; [|apply ag_wf0].
    + intros s Hs. rewrite <-ag_replica0 by done. unfold replica_id, replica_entry. simpl.
      destruct (c_replicas m !! N.to_nat s) as [o|] eqn:Ho; [|done]. simpl. unfold node_at at 1. simpl.
      rewrite node_at_app; [done|]. by eapply Forall_lookup in Ho; [|apply ag_wf0].
    + intros n [Hin| ->%list_elem_of_singleton]%elem_of_app Hne; [|by rewrite lookup_insert_eq].
      rewrite lookup_insert_ne; [auto|]. intros ->. apply Hn', list_elem_of_fmap. eauto.
    + intros id'. rewrite fmap_app, elem_of_app. destruct (decide (id' = id)) as [->|].
      * intros _. right. by apply list_elem_of_singleton.
      * rewrite lookup_insert_ne by done. auto.
Qed.

Section forgotten.
Context (m : SlotMap) (Hm : map_wf m) (r : nat) (removed : NodeEntry).
Context (Hr : c_nodes m !! r = Some removed) (Hself : r ≠ N.to_nat (c_self_idx m)).
Context (Hfree : N.of_nat r ∉ c_owner m).

Lemma removed_lt : (r < length (c_nodes m))%nat.
Proof. by eapply lookup_lt_Some. Qed.

Lemma node_at_forgotten o : idx_ok (c_nodes m) o → o ≠ N.of_nat r →
  node_at (forgotten r m) (shift_down (N.of_nat r) o) = node_at m o.
Proof.
  intros [->|Ho] Hne; [by rewrite shift_down_unassigned|].
  destruct (shift_down_spec (c_nodes m) r removed_lt (wf_room _ Hm) o) as (Hu & _ & E); [done|lia|].
  pose proof (wf_room _ Hm). assert (o ≠ UNASSIGNED) by (unfold UNASSIGNED; lia).
  unfold node_at. rewrite !decide_False by done. exact E.
Qed.

Lemma me_forgotten : me (forgotten r m) = me m.
Proof.
  destruct (shift_down_spec (c_nodes m) r removed_lt (wf_room _ Hm) (c_self_idx m)) as (_ & _ & E);
    [apply Hm|done|]. exact E.
Qed.

Lemma owner_id_forgotten s : owner_id s (forgotten r m) = owner_id s m.
Proof.
  unfold owner_id, owner_entry. cbn [forgotten c_owner]. rewrite list_lookup_fmap.
  destruct (c_owner m !! N.to_nat s) as [o|] eqn:Ho; [|done]. simpl. f_equal.
  apply node_at_forgotten; [by eapply Forall_lookup in Ho; [|apply Hm]|].
  intros ->. by apply list_elem_of_lookup_2 in Ho.
Qed.

Lemma replica_id_forgotten s : replica_id s (forgotten r m) =
  if decide (replica_id s m = Some (n_id removed)) then None else replica_id s m.
Proof.
  unfold replica_id, replica_entry. cbn [forgotten c_replicas]. rewrite list_lookup_fmap.
  destruct (c_replicas m !! N.to_nat s) as [o|] eqn:Ho; [|by rewrite decide_False]. simpl.
  assert (idx_ok (c_nodes m) o) as Hok by (by eapply Forall_lookup in Ho; [|apply Hm]).
  unfold shift_or_clear. case_decide as E.
  - subst o. rewrite decide_True; [done|]. unfold node_at. rewrite decide_False.
    + by rewrite Nat2N.id, Hr.
    + pose proof removed_lt. pose proof (wf_room _ Hm). unfold UNASSIGNED. lia.
  - rewrite node_at_forgotten by done. rewrite decide_False; [done|].
    intros (n & Hn & Hid)%fmap_Some_1. unfold node_at in Hn. case_decide; [done|].
    pose proof (ids_inj _ _ _ _ _ (wf_ids _ Hm) Hn Hr (eq_sym Hid)). lia.
Qed.

Lemma elem_of_forgotten n : n ∈ c_nodes (forgotten r m) ↔ n ∈ c_nodes m ∧ n_id n ≠ n_id removed.
Proof.
  rewrite !list_elem_of_lookup. simpl. split.
  - intros (i & Hi). set (j := if decide (i < r)%nat then i else S i).
    assert (c_nodes m !! j = Some n) as Hj.
    { rewrite <-(remove_at_lookup r); [|apply removed_lt|unfold j; case_decide; lia].
      rewrite <-Hi. f_equal. unfold j. repeat case_decide; lia. }
    split; [by eauto|]. intros E. pose proof (ids_inj _ _ _ _ _ (wf_ids _ Hm) Hj Hr E).
    unfold j in *. case_decide; lia.
  - intros [(i & Hi) Hne]. eexists. rewrite remove_at_lookup; [exact Hi|apply removed_lt|].
    intros ->. by rewrite Hr in Hi; simplify_eq.
Qed.
End forgotten.

(** The removed node owns nothing exactly when no owner of the configuration is it. *)
Lemma owns_nothing self m g id r : agrees self m g → node_position id (c_nodes m) = Some r →
  N.of_nat r ∉ c_owner m ↔ map_Forall (λ _ o, o ≠ id) (g_owner g).
Proof.
  intros H Hp. pose proof (ag_wf _ _ _ H) as Hw.
  destruct (position_idx _ _ _ Hw Hp) as (Hlt & Er & Hu).
  pose proof (id_of_position m Hw id r Hp) as Hid.
  replace (N.of_nat r) with (to_u16 r) by lia. split.
  - intros Hn s o Ho ->. pose proof (ag_dom _ _ _ H s ltac:(eauto)) as Hs.
    rewrite <-(ag_owner _ _ _ H s Hs) in Ho. unfold owner_id, owner_entry in Ho.
    apply fmap_Some_1 in Ho as (n & Hb & Hnid). apply bind_Some in Hb as (i & Hi & Hn').
    unfold node_at in Hn'. case_decide; [done|].
    apply node_position_Some in Hp as (k & Hk & Hkid).
    pose proof (ids_inj _ _ _ _ _ (wf_ids _ Hw) Hn' Hk ltac:(congruence)) as E.
    apply Hn. replace (to_u16 r) with i by lia. by eapply list_elem_of_lookup_2.
  - intros Hall [s Hs]%list_elem_of_lookup_1.
    assert (in_range (N.of_nat s)) as Hr.
    { unfold in_range. rewrite Nat2N.id, <-(wf_owner_len _ Hw). by eapply lookup_lt_Some. }
    apply (Hall (N.of_nat s) id); [|done]. rewrite <-(ag_owner _ _ _ H _ Hr).
    unfold owner_id, owner_entry. by rewrite Nat2N.id, Hs.
Qed.

Lemma forget_agrees self m g id : agrees self m g → is_Some (g_nodes g !! id) → id ≠ n_id self →
  ∃ m', ignore (forget id) m = Some (tt, m') ∧ agrees self m' (conf_apply (RemoveNode id) g).
Proof.
  intros H Hk Hne. destruct (known_position _ _ _ _ H Hk) as [r Hp].
  pose proof (ag_wf _ _ _ H) as Hw. pose proof (forget_eq id m Hw) as E. rewrite Hp in E.
  pose proof (owns_nothing _ _ _ _ _ H Hp) as Hfree.
  destruct (position_idx _ _ _ Hw Hp) as (Hlt & _).
  apply node_position_Some in Hp as (n & Hn & <-).
  assert (r ≠ N.to_nat (c_self_idx m)) as Hs.
  { intros ->. pose proof (ag_me _ _ _ H) as Hme. unfold me in Hme. congruence. }
  rewrite decide_False in E by done. simpl.
  destruct (decide (map_Forall _ (g_owner g))) as [Hall|Hall].
  2:{ rewrite decide_True in E by (apply dec_stable; by rewrite Hfree).
      exists m. split; [by eapply ignore_eq|done]. }
  rewrite <-Hfree in Hall. rewrite decide_False in E by done.
  eexists. split; [by eapply ignore_eq|]. destruct H. split; simpl; try done.
  - by apply forgotten_wf.
  - by rewrite (me_forgotten m Hw r n).
  - intros s Hin. rewrite (owner_id_forgotten m Hw r n) by done. auto.
  - intros s Hin. rewrite (replica_id_forgotten m Hw r n), ag_replica0 by done.
    apply option_eq. intros x. rewrite map_lookup_filter_Some. simpl. case_decide; naive_solver.
  - intros k [Hk' Hid]%(elem_of_forgotten m Hw r n Hn Hs) Hks. rewrite lookup_delete_ne by done. by apply ag_table0.
  - intros id' [x [Hne' Hx]%lookup_delete_Some].
    destruct (list_elem_of_fmap_1 n_id (c_nodes m) id') as (k & -> & Hin); [by eauto|].
    apply list_elem_of_fmap. exists k. split; [done|]. by apply (elem_of_forgotten m Hw r n Hn Hs).
Qed.

(** ** Commands and logs *)

Lemma agrees_epoch self m g e : agrees self m g → agrees self (set_committed_epoch e m) g.
Proof. intros []. split; try done. by destruct ag_wf0. Qed.

Lemma apply_cmd_agrees self cmd m g : agrees self m g → cmd_ok cmd g → cmd ≠ RemoveNode (n_id self) →
  ∃ m', apply_cmd cmd m = Some (tt, m') ∧ agrees self m' (conf_apply cmd g).
Proof.
  intros H Hok Hne. pose proof (ag_wf _ _ _ H) as Hw.
  destruct cmd; cbn [apply_cmd]; cbn [cmd_ok] in Hok; try apply in_range_iff in Hok.
  - eexists. split; [done|]. by apply meet_agrees.
  - apply forget_agrees; [done..|congruence].
  - destruct Hok as [Hs%in_range_iff Hk].
    destruct (set_slot_node_agrees _ _ _ _ _ H Hs Hk) as (m' & E & H' & _). eauto.
  - destruct Hok as [Hs Hk]. eapply (for_slots_agrees _ _ _ (λ g, is_Some (g_nodes g !! node))); [|done..].
    intros s m1 g1 H1 Hs1 Hk1. split; [done|].
    destruct (set_slot_node_agrees _ _ _ _ _ H1 Hs1 Hk1) as (m' & E & H' & _). eauto.
  - eapply (for_slots_agrees _ _ _ (λ _, True)); [|done..]. intros s m1 g1 H1 Hs1 _. split; [done|].
    rewrite (clear_slot_owner_eq s m1 (ag_wf _ _ _ H1) Hs1). eauto using agrees_unown.
  - by eauto.
  - destruct Hok as [Hs Hk]. eapply (for_slots_agrees _ _ _ (λ g, is_Some (g_nodes g !! node))); [|done..].
    intros s m1 g1 H1 Hs1 Hk1. split; [done|].
    destruct (known_position _ _ _ _ H1 Hk1) as [i Hi]. by eapply set_slot_replica_agrees.
  - destruct Hok as [Hs Hk]. eapply (for_slots_agrees _ _ _ (λ g, is_Some (g_nodes g !! new_primary))); [|done..].
    intros s m1 g1 H1 Hs1 Hk1. split; [done|]. by apply promote_slot_agrees.
  - destruct (owns_redirect m slot self Hw Hok (ag_me _ _ _ H)) as (b & Hb & _).
    unfold owns in Hb. unfold load, mbind, step_bind. rewrite Hb.
    destruct b; [|by eauto].
    pose proof (set_migration_eq set_migrating _ slot dest m ltac:(by left) Hw Hok) as E.
    destruct (node_position _ _) eqn:Hp; (eexists; split; [by eapply ignore_eq, E|]);
      eauto using agrees_mig with slotmap.
  - unfold gets, mbind, step_bind. destruct (is_self dest m); [|by eauto].
    pose proof (set_migration_eq set_importing _ slot src m ltac:(by right) Hw Hok) as E.
    destruct (node_position _ _) eqn:Hp; (eexists; split; [by eapply ignore_eq, E|]);
      eauto using agrees_mig with slotmap.
  - rewrite clear_migration_eq by done. eauto using agrees_mig with slotmap.
Qed.

(** A committed log and what it leaves. *)
Fixpoint config_run (log : list LogEntry) (sm : ConfigSm) : option ConfigSm :=
  match log with
  | [] => Some sm
  | e :: log => sm ← config_apply e sm; config_run log sm
  end.

Definition conf_step (g : SlotConfig) (e : LogEntry) : SlotConfig :=
  match e_payload e with Config cmd => conf_apply cmd g | _ => g end.

Definition config_count (log : list LogEntry) : N :=
  N.of_nat (length (omap (λ e, match e_payload e with Config cmd => Some cmd | _ => None end) log)).

(** Every command meets its condition when its turn comes, and the log does not
    remove [self]. *)
Fixpoint log_ok (self : NodeEntry) (log : list LogEntry) (g : SlotConfig) : Prop :=
  match log with
  | [] => True
  | e :: log =>
      match e_payload e with
      | Config cmd => cmd_ok cmd g ∧ cmd ≠ RemoveNode (n_id self)
      | _ => True
      end ∧ log_ok self log (conf_step g e)
  end.

Lemma config_run_agrees self log sm g : agrees self (cm_map sm) g → log_ok self log g →
  cm_epoch sm + config_count log ≤ U64_MAX →
  ∃ sm', config_run log sm = Some sm' ∧ agrees self (cm_map sm') (foldl conf_step g log) ∧
         cm_epoch sm' = cm_epoch sm + config_count log.
Proof.
  revert sm g. induction log as [|e log IH]; intros sm g H Hok He.
  { exists sm. split_and!; [done..|]. unfold config_count. simpl. lia. }
  destruct Hok as [Hcmd Hok]. cbn [config_run foldl].
  unfold config_apply, config_count in *. cbn [omap list_omap] in *.
  assert (conf_step g e = match e_payload e with Config cmd => conf_apply cmd g | _ => g end) as Es
    by done. rewrite Es in *.
  destruct (e_payload e) as [|data|cmd|ch] eqn:Ep; try (by apply IH).
  cbn [length] in *. rewrite add64_small by lia. destruct Hcmd as [Hc Hne].
  destruct (apply_cmd_agrees self cmd (set_committed_epoch (cm_epoch sm + 1) (cm_map sm)) g)
    as (m' & E & H'); [by apply agrees_epoch|done..|].
  cbn [mbind option_bind]. rewrite E. cbn [mbind option_bind].
  destruct (IH (mkConfigSm m' (cm_epoch sm + 1)) (conf_apply cmd g)) as (sm' & Er & Ha & Hep);
    [done|done|simpl; lia|].
  exists sm'. split_and!; [done..|]. simpl in Hep. lia.
Qed.

(** The machine a node boots with. *)
Definition boot (self : NodeEntry) : ConfigSm :=
  config_new (empty_self (n_id self) (n_host self) (n_port self)).

Lemma boot_agrees self : agrees self (cm_map (boot self)) conf_new.
Proof.
  split; try done.
  - apply empty_self_wf.
  - by destruct self.
  - intros s Hs. unfold owner_id, owner_entry. cbn [boot config_new empty_self cm_map c_owner].
    unfold slot_array. by rewrite lookup_replicate_2.
  - intros s Hs. unfold replica_id, replica_entry. cbn [boot config_new empty_self cm_map c_replicas].
    unfold slot_array. by rewrite lookup_replicate_2.
  - intros n ->%list_elem_of_singleton. by destruct self.
  - by intros id [? ?].
  - by intros s [? ?].
Qed.

(** ** One owner per slot *)

Definition endpoint (n : NodeEntry) : string * N := (n_host n, n_port n).

(** The log registers [n] only under its own endpoint. *)
Definition cmd_honest (n : NodeEntry) (e : LogEntry) : Prop :=
  match e_payload e with
  | Config (AddNode id host port) => id = n_id n → (host, port) = endpoint n
  | _ => True
  end.

Definition honest (n : NodeEntry) (g : SlotConfig) : Prop :=
  ∀ hp, g_nodes g !! n_id n = Some hp → hp = endpoint n.

Lemma foldl_nodes {A} (f : SlotConfig → A → SlotConfig) l g :
  (∀ g x, g_nodes (f g x) = g_nodes g) → g_nodes (foldl f g l) = g_nodes g.
Proof. intros Hf. revert g. induction l as [|x l IH]; intros g; [done|]. simpl. by rewrite IH. Qed.

Lemma honest_step n g e : honest n g → cmd_honest n e → honest n (conf_step g e).
Proof.
  intros H He hp. unfold conf_step, cmd_honest in *. destruct (e_payload e) as [|?|cmd|?]; auto.
  destruct cmd; simpl; try (rewrite foldl_nodes by done); auto.
  - case_decide; [|auto]. simpl. rewrite lookup_insert. case_decide; [|auto].
    intros [= <-]. auto.
  - case_decide; [|auto]. simpl. intros [_ ?]%lookup_delete_Some. auto.
Qed.

Lemma honest_run n log g : honest n g → Forall (cmd_honest n) log → honest n (foldl conf_step g log).
Proof.
  revert g. induction log as [|e log IH]; intros g H Hl; [done|].
  apply Forall_cons in Hl as [He Hl]. simpl. apply IH; [|done]. by apply honest_step.
Qed.

(** An owner of a slot is registered under its endpoint, or is this very node. *)
Lemma owner_endpoint self m g slot : agrees self m g → in_range slot →
  owns slot m = Some true →
  ∃ id, g_owner g !! slot = Some id ∧ (id = n_id self ∨ g_nodes g !! id = Some (endpoint self)).
Proof.
  intros H Hs Ho. pose proof (ag_wf _ _ _ H) as Hw.
  destruct (owns_redirect m slot self Hw Hs (ag_me _ _ _ H)) as (b & Hb & Hiff).
  assert (b = true) as -> by congruence. destruct Hiff as [Hm _]. specialize (Hm eq_refl).
  unfold moved_target in Hm. apply fmap_Some_1 in Hm as (n & Hn & Hep).
  exists (n_id n). rewrite <-(ag_owner _ _ _ H slot Hs). unfold owner_id. rewrite Hn. split; [done|].
  destruct (decide (n_id n = n_id self)); [by left|right]. unfold endpoint. rewrite Hep.
  apply (ag_table _ _ _ H); [|done]. unfold owner_entry in Hn.
  apply bind_Some in Hn as (o & _ & Hat). unfold node_at in Hat. case_decide; [done|].
  by eapply list_elem_of_lookup_2.
Qed.

Lemma agrees_exclusive a b ma mb g slot : agrees a ma g → agrees b mb g → honest a g → honest b g →
  n_id a ≠ n_id b → endpoint a ≠ endpoint b → in_range slot →
  ¬ (owns slot ma = Some true ∧ owns slot mb = Some true).
Proof.
  intros Ha Hb Hha Hhb Hid Hep Hs [Oa Ob].
  destruct (owner_endpoint _ _ _ _ Ha Hs Oa) as (id & E & Ca).
  destruct (owner_endpoint _ _ _ _ Hb Hs Ob) as (id' & E' & Cb).
  assert (id' = id) as -> by congruence.
  destruct Ca as [->|Ca], Cb as [Eb|Cb]; [congruence| | |congruence].
  - apply Hha in Cb. congruence.
  - subst id. apply Hhb in Ca. congruence.
Qed.


(** (C18) Exclusive ownership: two nodes with different ids and endpoints that
    applied the same committed log, whose commands meet their conditions and
    register the two only under their own endpoints, are at the same epoch, name
    the same owner of every slot, and never both own a slot. *)
Theorem slot_ownership_exclusive (a b : NodeEntry) (log : list LogEntry)
    (Hid : n_id a ≠ n_id b) (Hep : endpoint a ≠ endpoint b)
    (Ha : log_ok a log conf_new) (Hb : log_ok b log conf_new)
    (Hha : Forall (cmd_honest a) log) (Hhb : Forall (cmd_honest b) log)
    (Hlen : config_count log ≤ U64_MAX) :
  ∃ sa sb, config_run log (boot a) = Some sa ∧ config_run log (boot b) = Some sb ∧
    cm_epoch sa = cm_epoch sb ∧
    ∀ slot, slot < CLUSTER_SLOTS →
      owner_id slot (cm_map sa) = owner_id slot (cm_map sb) ∧
      ¬ (owns slot (cm_map sa) = Some true ∧ owns slot (cm_map sb) = Some true).
Proof.
  destruct (config_run_agrees a log (boot a) conf_new) as (sa & Ea & Aa & Na);
    [apply boot_agrees|done..|].
  destruct (config_run_agrees b log (boot b) conf_new) as (sb & Eb & Ab & Nb);
    [apply boot_agrees|done..|].
  exists sa, sb. split_and!; [done..|by rewrite Na, Nb|]. intros slot Hs%in_range_iff. split.
  - by rewrite (ag_owner _ _ _ Aa slot Hs), (ag_owner _ _ _ Ab slot Hs).
  - apply (agrees_exclusive a b _ _ (foldl conf_step conf_new log)); try done; by apply honest_run.
Qed.
