(* ===== verification/SlotSnapshot.v ===== *)
(** * Snapshots of the configuration

    A snapshot of one node's committed view, restored on another node, leaves
    that node agreeing with the same abstract configuration. *)

From Stdlib Require Import Lia ZArith NArith.
From S2P Require Import Prelude RaftTypes RaftCodec RaftCodecProofs SlotMap ConfigSm SlotMapProofs ConfigSmProofs.
From stdpp Require Import strings.

#[local] Open Scope N_scope.

(** ** The wire form *)

Definition node_wire (n : NodeEntry) : Prop :=
  rust_string (n_id n) ∧ rust_string (n_host n) ∧ u16 (n_port n).

(** What the fields of a map need to fit their wire types. *)
Definition wire_ok (m : SlotMap) : Prop :=
  u64 (c_current_epoch m) ∧ Forall node_wire (c_nodes m) ∧
  Forall (λ st, st < 256) (c_migration_state m).

Definition snapshot_of (m : SlotMap) : CommittedSnapshot :=
  mkSnap (c_current_epoch m) (merge_sort id_le (c_nodes m)) (named_slots m (c_owner m))
    (named_slots m (c_replicas m)) (named_migs m).

Lemma id_of_wire m i id : wire_ok m → id_of m i = Some id → rust_string id.
Proof.
  intros (_ & Hn & _). unfold id_of, node_at. case_decide; [done|].
  intros (n & Hl & ->)%fmap_Some_1. eapply Forall_lookup in Hl; [|done]. apply Hl.
Qed.

(** The slots an array names, from slot [k] on. *)
Lemma elem_of_zip_seq {A} k (arr : list A) j x :
  (j, x) ∈ zip (seq k (length arr)) arr → (k ≤ j)%nat ∧ arr !! (j - k)%nat = Some x.
Proof.
  revert k. induction arr as [|a arr IH]; intros k; simpl; [by intros []%not_elem_of_nil|].
  intros [[= -> ->]|Hin]%elem_of_cons; [by rewrite Nat.sub_diag|].
  apply IH in Hin as [Hk Hl]. split; [lia|]. by replace (j - k)%nat with (S (j - S k)) by lia.
Qed.

Lemma zip_seq_elem_of {A} k (arr : list A) j x : arr !! j = Some x →
  ((k + j)%nat, x) ∈ zip (seq k (length arr)) arr.
Proof.
  revert k j. induction arr as [|a arr IH]; intros k [|j]; simpl; try done.
  - intros [= ->]. rewrite Nat.add_0_r. left.
  - intros Hl. right. rewrite <-Nat.add_succ_comm. by apply IH.
Qed.

Lemma elem_of_named m arr s id : (s, id) ∈ named_slots m arr ↔
  ∃ i, arr !! N.to_nat s = Some i ∧ id_of m i = Some id.
Proof.
  unfold named_slots. rewrite list_elem_of_omap. split.
  - intros ([j i] & Hin & (x & Hx & [= -> ->])%fmap_Some_1). simpl in *.
    apply elem_of_zip_seq in Hin as [_ Hl]. rewrite Nat.sub_0_r in Hl. rewrite Nat2N.id. eauto.
  - intros (i & Hl & Hid). exists (N.to_nat s, i). split; [by apply (zip_seq_elem_of 0)|].
    simpl. by rewrite Hid, N2Nat.id.
Qed.

Lemma NoDup_named m arr : NoDup (fst <$> named_slots m arr).
Proof.
  unfold named_slots. generalize 0%nat as k. induction arr as [|i arr IH]; intros k; simpl; [constructor|].
  destruct (id_of m i) as [id|]; simpl; [|apply IH]. constructor; [|apply IH].
  intros ([s' id'] & E & Hin)%list_elem_of_fmap_1. simpl in E. subst s'.
  apply list_elem_of_omap in Hin as ([j x] & Hin & (y & _ & [= E _])%fmap_Some_1).
  apply elem_of_zip_seq in Hin as [Hk _]. lia.
Qed.

Lemma length_omap_le {A B} (f : A → option B) l : (length (omap f l) ≤ length l)%nat.
Proof. induction l as [|x l IH]; [done|]. cbn [omap list_omap] in *. destruct (f x); cbn [length]; lia. Qed.

Lemma length_named m arr : (length (named_slots m arr) ≤ length arr)%nat.
Proof.
  unfold named_slots. etrans; [apply length_omap_le|]. rewrite length_zip_with, length_seq. lia.
Qed.

Lemma length_named_migs m : (length (named_migs m) ≤ length (c_migration_state m))%nat.
Proof.
  unfold named_migs. etrans; [apply length_omap_le|]. rewrite length_zip_with, length_seq. lia.
Qed.

(** A list no longer than the slot array has a u64 length. *)
Lemma vec_slots {A} (l : list A) : (length l ≤ SLOTS)%nat → vec l.
Proof. unfold vec, u64, SLOTS, CLUSTER_SLOTS, U64_MAX. lia. Qed.

Lemma named_wire m arr : map_wf m → wire_ok m → length arr = SLOTS →
  Forall (λ si, u16 si.1 ∧ rust_string si.2) (named_slots m arr).
Proof.
  intros H Hw Hlen. apply Forall_forall. intros [s id] (i & Hl & Hid)%elem_of_named. simpl.
  split; [|by eapply id_of_wire]. apply lookup_lt_Some in Hl. rewrite Hlen in Hl.
  unfold u16, SLOTS, CLUSTER_SLOTS in *. lia.
Qed.

Lemma named_migs_wire m : map_wf m → wire_ok m →
  Forall (λ sm, u16 sm.1.1 ∧ sm.1.2 < 256 ∧ rust_string sm.2) (named_migs m).
Proof.
  intros H Hw. apply Forall_forall. intros [[s st] id] Hin. unfold named_migs in Hin.
  apply list_elem_of_omap in Hin as ([j [x p]] & Hin & E). simpl in E. case_decide; [done|].
  apply fmap_Some_1 in E as (y & Hy & [= -> -> ->]). simpl.
  assert (length (c_migration_state m) = length (zip (c_migration_state m) (c_migration_peer m))) as El.
  { rewrite length_zip_with, (wf_state_len _ H), (wf_peer_len _ H). lia. }
  rewrite El in Hin. apply elem_of_zip_seq in Hin as [_ Hl]. rewrite Nat.sub_0_r in Hl.
  apply lookup_zip_with_Some in Hl as (a & b & [= -> ->] & Ha & _).
  split_and!; [|destruct Hw as (_ & _ & Hst); by eapply Forall_lookup in Ha; [|exact Hst]|by eapply id_of_wire].
  apply lookup_lt_Some in Ha. rewrite (wf_state_len _ H) in Ha.
  unfold u16, SLOTS, CLUSTER_SLOTS in *. lia.
Qed.

(** ** Decoding what was encoded *)

Lemma put_str_nonempty s rest : put_str s ++ rest ≠ [].
Proof. unfold put_str, put_blob, put_len, put_u64. by cbn [to_le_bytes app]. Qed.

Lemma put_u16_nonempty n rest : put_u16 n ++ rest ≠ [].
Proof. unfold put_u16. by cbn [to_le_bytes app]. Qed.

Lemma reads_node_entry n : node_wire n → reads get_node_entry (put_node_entry n) n.
Proof.
  intros (? & ? & ?). destruct n as [i h p]. unfold get_node_entry, put_node_entry; cbn [n_id n_host n_port] in *. reads_fields.
Qed.

Lemma reads_slot_id si : u16 si.1 ∧ rust_string si.2 → reads get_slot_id (put_slot_id si) si.
Proof. intros [? ?]. destruct si. unfold get_slot_id, put_slot_id; cbn [fst snd] in *. reads_fields. Qed.

Lemma reads_mig sm : u16 sm.1.1 ∧ sm.1.2 < 256 ∧ rust_string sm.2 → reads get_mig (put_mig sm) sm.
Proof.
  intros (? & ? & ?). destruct sm as [[? ?] ?]. unfold get_mig, put_mig; cbn [fst snd] in *.
  eapply reads_bind; [by apply reads_u16|]. eapply reads_bind; [by apply reads_u8|].
  eapply reads_last; [by apply reads_string|done].
Qed.

Lemma reads_elements {A} (p : reader A) enc (P : A → Prop) l : (length l ≤ SLOTS)%nat ∨ vec l →
  (∀ x, P x → reads p (enc x) x) → (∀ x, enc x ≠ []) → Forall P l →
  reads (cur_list p) (put_len l ++ concat (map enc l)) l.
Proof.
  intros Hlen Hp Hne HP. apply reads_list; [destruct Hlen; auto using vec_slots|..].
  - eapply Forall_impl; [exact HP|done].
  - by apply Forall_true.
Qed.

Lemma snapshot_decode m : map_wf m → wire_ok m →
  decode_committed_snapshot (serialize_committed m) = Some (snapshot_of m).
Proof.
  intros H Hw. unfold decode_committed_snapshot.
  assert (reads get_snapshot_parts (serialize_committed m) (snapshot_of m)) as Hr.
  { pose proof (merge_sort_Permutation id_le (c_nodes m)) as Hperm.
    unfold get_snapshot_parts, serialize_committed.
    eapply reads_bind; [apply reads_u64, Hw|]. cbv beta. rewrite !(assoc_L (++) (put_len _)).
    eapply reads_bind.
    { apply (reads_elements _ _ node_wire); [right| apply reads_node_entry
        |intros; apply put_str_nonempty|rewrite Hperm; apply Hw].
      pose proof (wf_room _ H). unfold vec, u64, U64_MAX. rewrite Hperm. lia. }
    cbv beta. eapply reads_bind.
    { eapply reads_elements; [left|apply reads_slot_id|intros; apply put_u16_nonempty
        |apply named_wire; [done..|apply H]]. rewrite length_named, (wf_owner_len _ H). done. }
    cbv beta. eapply reads_bind.
    { eapply reads_elements; [left|apply reads_slot_id|intros; apply put_u16_nonempty
        |apply named_wire; [done..|apply H]]. rewrite length_named, (wf_replicas_len _ H). done. }
    cbv beta. eapply reads_last; [|done].
    eapply reads_elements; [left|apply reads_mig|intros; apply put_u16_nonempty
      |by apply named_migs_wire]. rewrite length_named_migs, (wf_state_len _ H). done. }
  specialize (Hr []). rewrite app_nil_r in Hr. by rewrite Hr.
Qed.

(** ** Restoring *)

Lemma fill_ids_skip nodes l arr s : s ∉ fst <$> l →
  foldl (λ arr si, match node_position si.2 nodes with
                   | Some idx => put_slot si.1 (to_u16 idx) arr
                   | None => arr end) arr l !! N.to_nat s = arr !! N.to_nat s.
Proof.
  revert arr. induction l as [|[t id] l IH]; intros arr Hn; [done|]. simpl in *.
  apply not_elem_of_cons in Hn as [Hne Hn]. rewrite IH by done.
  destruct (node_position id nodes); [|done]. unfold put_slot. case_decide; [|done].
  apply list_lookup_insert_ne. lia.
Qed.

Lemma fill_ids_hit nodes l arr s id i : length arr = SLOTS → NoDup (fst <$> l) →
  (s, id) ∈ l → in_range s → node_position id nodes = Some i →
  foldl (λ arr si, match node_position si.2 nodes with
                   | Some idx => put_slot si.1 (to_u16 idx) arr
                   | None => arr end) arr l !! N.to_nat s = Some (to_u16 i).
Proof.
  intros Hlen Hnd Hin Hs Hp. revert arr Hlen. induction l as [|[t id'] l IH]; intros arr Hlen;
    [by apply not_elem_of_nil in Hin|]. simpl in *. apply NoDup_cons in Hnd as [Hnt Hnd].
  apply elem_of_cons in Hin as [[= <- <-]|Hin].
  - rewrite Hp, fill_ids_skip by done. unfold put_slot.
    rewrite decide_True by by apply in_range_iff. apply list_lookup_insert_eq. rewrite Hlen. exact Hs.
  - apply IH; [done..|]. destruct (node_position id' nodes); [|done]. by rewrite length_put_slot.
Qed.

(** The restored array names, slot by slot, the ids the snapshot's array named. *)
Lemma restored_ids m arr m' s : length arr = SLOTS → map_wf m' → in_range s →
  (∀ id, id ∈ n_id <$> c_nodes m → id ∈ n_id <$> c_nodes m') →
  n_id <$> (fill_ids (c_nodes m') (named_slots m arr) !! N.to_nat s ≫= node_at m') =
  arr !! N.to_nat s ≫= id_of m.
Proof.
  intros Hlen Hw Hs Hsub. unfold fill_ids.
  destruct (lookup_lt_is_Some_2 arr (N.to_nat s)) as [i Hi]; [rewrite Hlen; exact Hs|].
  rewrite Hi. simpl. destruct (id_of m i) as [id|] eqn:Hid.
  - assert (is_Some (node_position id (c_nodes m'))) as [k Hk].
    { rewrite <-not_eq_None_Some, node_position_None. intros Hn. apply Hn, Hsub.
      unfold id_of, node_at in Hid. case_decide; [done|].
      apply fmap_Some_1 in Hid as (n & Hn' & ->). apply list_elem_of_fmap.
      exists n. split; [done|]. by eapply list_elem_of_lookup_2. }
    rewrite (fill_ids_hit _ _ _ _ id k); [|apply length_replicate|apply NoDup_named
      |apply elem_of_named; eauto|done..]. simpl. by apply id_of_position.
  - rewrite fill_ids_skip.
    + unfold slot_array. by rewrite lookup_replicate_2.
    + intros ([t x] & E & (j & Hj & Hx)%elem_of_named)%list_elem_of_fmap_1. simpl in E. congruence.
Qed.

Lemma elem_of_add_nodes nodes snap n : n ∈ add_nodes nodes snap → n ∈ nodes ∨ n ∈ snap.
Proof.
  unfold add_nodes. revert nodes. induction snap as [|k snap IH]; intros nodes; simpl; [by left|].
  case_decide; intros [Hin|Hin]%IH; rewrite ?elem_of_cons; auto.
  apply elem_of_app in Hin as [?| ->%list_elem_of_singleton]; auto.
Qed.

Lemma add_nodes_known nodes snap id :
  id ∈ n_id <$> nodes ∨ id ∈ n_id <$> snap → id ∈ n_id <$> add_nodes nodes snap.
Proof.
  unfold add_nodes. revert nodes. induction snap as [|k snap IH]; intros nodes; simpl.
  { by intros [?|?%not_elem_of_nil]. }
  rewrite elem_of_cons. intros H. apply IH. case_decide as Hk.
  - destruct H as [?|[->|?]]; auto. left. apply dec_stable. by rewrite <-node_position_None.
  - rewrite fmap_app, elem_of_app. simpl. rewrite list_elem_of_singleton. tauto.
Qed.

Lemma restore_agrees a b ma mb g : agrees a ma g → g_nodes g !! n_id a = Some (endpoint a) →
  wire_ok ma → N.of_nat (length (c_nodes ma)) < 65535 → map_wf mb → me mb = Some b →
  ∃ m', restore_committed (serialize_committed ma) mb = Some m' ∧ agrees b m' g.
Proof.
  intros Ha Hreg Hwire Hroom Hb Hme. pose proof (ag_wf _ _ _ Ha) as Hwa.
  pose proof (merge_sort_Permutation id_le (c_nodes ma)) as Hperm.
  destruct (restore_committed_wf (serialize_committed ma) mb Hb) as (m' & E & Hw' & Hme').
  { unfold snapshot_fits. rewrite snapshot_decode by done. simpl. by rewrite Hperm. }
  exists m'. split; [done|]. unfold restore_committed in E. rewrite snapshot_decode, Hme in E by done.
  cbn [snapshot_of mbind option_bind] in E. injection E as E.
  assert (c_nodes m' = add_nodes [b] (merge_sort id_le (c_nodes ma))) as En by by rewrite <-E.
  assert (c_owner m' = fill_ids (c_nodes m') (named_slots ma (c_owner ma))) as Eo by by rewrite <-E.
  assert (c_replicas m' = fill_ids (c_nodes m') (named_slots ma (c_replicas ma))) as Er by by rewrite <-E.
  assert (∀ id, id ∈ n_id <$> c_nodes ma → id ∈ n_id <$> c_nodes m') as Hsub.
  { intros id Hid. rewrite En. apply add_nodes_known. right. by rewrite Hperm. }
  clear E. split; [done|congruence|..].
  - intros s Hs. unfold owner_id, owner_entry. rewrite Eo, restored_ids by (done || apply Hwa).
    rewrite <-(ag_owner _ _ _ Ha s Hs). unfold owner_id, owner_entry, id_of.
    by destruct (c_owner ma !! N.to_nat s).
  - intros s Hs. unfold replica_id, replica_entry. rewrite Er, restored_ids by (done || apply Hwa).
    rewrite <-(ag_replica _ _ _ Ha s Hs). unfold replica_id, replica_entry, id_of.
    by destruct (c_replicas ma !! N.to_nat s).
  - intros n Hin Hne. rewrite En in Hin.
    apply elem_of_add_nodes in Hin as [->%list_elem_of_singleton|Hin]; [done|]. rewrite Hperm in Hin.
    destruct (decide (n_id n = n_id a)) as [Ei|]; [|by apply (ag_table _ _ _ Ha)].
    apply list_elem_of_lookup in Hin as [i Hi]. pose proof (ag_me _ _ _ Ha) as Hma. unfold me in Hma.
    pose proof (ids_inj _ _ _ _ _ (wf_ids _ Hwa) Hi Hma Ei) as ->. rewrite Hi in Hma.
    injection Hma as ->. exact Hreg.
  - intros id Hid. apply Hsub. by apply (ag_known _ _ _ Ha).
  - apply Ha.
Qed.

(** (C25) Snapshot transfer: the snapshot of a node that agrees with a
    configuration and is registered in it, restored on any other node, leaves
    that node agreeing with the same configuration, at the sender's epoch. *)
Theorem config_snapshot_transfer (a b : NodeEntry) (sa sb : ConfigSm) (g : SlotConfig)
    (Ha : agrees a (cm_map sa) g) (Hreg : g_nodes g !! n_id a = Some (endpoint a))
    (Hwire : wire_ok (cm_map sa)) (Hepoch : cm_epoch sa ≤ U64_MAX)
    (Hroom : N.of_nat (length (c_nodes (cm_map sa))) < 65535)
    (Hb : map_wf (cm_map sb)) (Hme : me (cm_map sb) = Some b) :
  ∃ sb', config_restore (config_snapshot sa) sb = Some sb' ∧
         agrees b (cm_map sb') g ∧ cm_epoch sb' = cm_epoch sa.
Proof.
  destruct (restore_agrees a b (cm_map sa) (cm_map sb) g) as (m' & E & H'); [done..|].
  unfold config_restore, config_snapshot, put_u64.
  rewrite (take_app_length' _ _ 8), (drop_app_length' _ _ 8) by by rewrite length_to_le_bytes.
  rewrite E. cbn [mbind option_bind]. eexists. split; [done|]. cbn [cm_map cm_epoch].
  split; [by apply agrees_epoch|]. rewrite decide_True by by rewrite length_to_le_bytes.
  apply from_to_le_bytes. unfold U64_MAX in Hepoch. simpl. lia.
Qed.
