(* ===== verification/ConfigScenarios.v ===== *)
(** * Configuration scenarios

    Concrete logs for the theorems on the configuration machine, and what happens
    outside their conditions: an owner that was never registered, and migration
    tags that only the node they were set on should carry. *)

From Stdlib Require Import Lia ZArith NArith.
From S2P Require Import Prelude RaftTypes RaftCodec RaftCodecProofs SlotMap ConfigSm SlotMapProofs ConfigSmProofs SlotSnapshot.
From stdpp Require Import strings.

#[local] Open Scope N_scope.

Definition node_a : NodeEntry := mkNode "a" "h1" 7001.
Definition node_b : NodeEntry := mkNode "b" "h2" 7002.
Definition node_c : NodeEntry := mkNode "c" "h3" 7003.

Definition register_cmd (n : NodeEntry) : ConfigCmd := AddNode (n_id n) (n_host n) (n_port n).
Definition log_of (cmds : list ConfigCmd) : list LogEntry := (λ c, mkEntry 1 1 (Config c)) <$> cmds.

(** ** A failover *)

Definition failover_log : list LogEntry :=
  log_of [register_cmd node_a; register_cmd node_b; AssignSlots "a" [5; 6];
          AssignReplica "b" [5]; PromoteReplica [5] "b"].

Ltac log_cmds :=
  repeat (cbv beta; match goal with
  | |- _ ∧ _ => split
  | |- True => exact I
  | |- is_Some _ => vm_compute; eexists; reflexivity
  | |- Forall _ _ => constructor
  | |- _ < _ => vm_compute; reflexivity
  | |- _ ≠ _ => discriminate
  end).

Lemma failover_ok n : n = node_a ∨ n = node_b → log_ok n failover_log conf_new.
Proof. intros [-> | ->]; cbn [log_ok failover_log log_of fmap list_fmap e_payload cmd_ok register_cmd]; log_cmds. Qed.

Lemma failover_honest n : n = node_a ∨ n = node_b → Forall (cmd_honest n) failover_log.
Proof. intros [-> | ->]; repeat constructor; by intros. Qed.


Lemma slot_ownership_exclusive_witness :
  ∃ sa sb, config_run failover_log (boot node_a) = Some sa ∧
    config_run failover_log (boot node_b) = Some sb ∧ cm_epoch sa = cm_epoch sb ∧
    ∀ slot, slot < CLUSTER_SLOTS →
      owner_id slot (cm_map sa) = owner_id slot (cm_map sb) ∧
      ¬ (owns slot (cm_map sa) = Some true ∧ owns slot (cm_map sb) = Some true).
Proof.
  apply (slot_ownership_exclusive node_a node_b failover_log); try discriminate.
  - apply failover_ok. by left.
  - apply failover_ok. by right.
  - apply failover_honest. by left.
  - apply failover_honest. by right.
Defined.

(** ** Outside the conditions *)

(** A well-formed map of the node [self] with the table [nodes]. *)
Definition map_of (self : NodeEntry) (nodes : list NodeEntry) (m : SlotMap) : Prop :=
  map_wf m ∧ me m = Some self ∧ c_nodes m = nodes.

Lemma config_run_cons cmd cmds m e m' : e < U64_MAX →
  apply_cmd cmd (set_committed_epoch (e + 1) m) = Some (tt, m') →
  config_run (log_of (cmd :: cmds)) (mkConfigSm m e) =
  config_run (log_of cmds) (mkConfigSm m' (e + 1)).
Proof.
  intros He E. unfold log_of. cbn [fmap list_fmap config_run]. unfold config_apply.
  cbn [e_payload cm_epoch cm_map]. rewrite add64_small by lia. cbn [mbind option_bind]. by rewrite E.
Qed.

Lemma map_of_epoch self nodes m e : map_of self nodes m → map_of self nodes (set_committed_epoch e m).
Proof. intros (H & ? & ?). split_and!; [|done..]. by destruct H. Qed.

(** Giving a slot to a known node; the node itself then owns it. *)
Lemma assign_known self nodes m slot id : map_of self nodes m → slot < CLUSTER_SLOTS →
  id ∈ n_id <$> nodes →
  ∃ m', apply_cmd (SetSlotOwner slot id) m = Some (tt, m') ∧ map_of self nodes m' ∧
        (id = n_id self → owns slot m' = Some true).
Proof.
  intros (H & Hme & Hn) Hs%in_range_iff Hid. subst nodes.
  destruct (node_position id (c_nodes m)) as [i|] eqn:E; [|by apply node_position_None in E].
  pose proof (set_slot_node_eq slot id m H Hs) as Eq. rewrite E in Eq.
  eexists. split; [by eapply ignore_eq|]. split.
  { split_and!; [|done..]. eauto with slotmap. }
  intros ->. unfold owns. cbn [mig_slot own_slot set_mine c_mine set_migration_peer set_migration_state].
  rewrite list_lookup_insert_eq by (rewrite wf_mine_len by done; exact Hs). f_equal.
  rewrite (mine_of_position m _ i H E). unfold me in Hme.
  rewrite (node_position_lookup _ _ _ (wf_ids _ H) Hme) in E. injection E as <-.
  unfold is_self_idx. by rewrite bool_decide_true.
Qed.

Lemma assign_unknown self nodes m slot id : map_of self nodes m → slot < CLUSTER_SLOTS →
  id ∉ n_id <$> nodes → apply_cmd (SetSlotOwner slot id) m = Some (tt, m).
Proof.
  intros (H & _ & Hn) Hs%in_range_iff Hid. subst nodes. apply node_position_None in Hid.
  pose proof (set_slot_node_eq slot id m H Hs) as Eq. rewrite Hid in Eq. by eapply ignore_eq.
Qed.

Lemma boot_map_of self : map_of self [self] (cm_map (boot self)).
Proof. destruct self. split_and!; [apply empty_self_wf|done..]. Qed.

Lemma meet_self self m : map_of self [self] m →
  map_of self [self] (SlotMap.meet (mkNode (n_id self) (n_host self) (n_port self)) m).
Proof.
  intros Hm. pose proof Hm as (H & Hme & Hn). unfold SlotMap.meet. cbn [n_id].
  rewrite decide_True; [done|]. rewrite Hn. intros E. apply node_position_None in E.
  apply E. by apply list_elem_of_singleton.
Qed.

Lemma meet_other self n m : map_of self [self] m → n_id n ≠ n_id self →
  map_of self [self; n] (SlotMap.meet n m).
Proof.
  intros (H & Hme & Hn) Hne. split; [apply meet_wf; [done|by rewrite Hn]|].
  unfold SlotMap.meet. rewrite decide_False.
  - unfold me in *. cbn [set_config_epochs set_nodes c_nodes c_self_idx]. rewrite Hn in *.
    split; [|done]. by apply lookup_app_l_Some.
  - rewrite Hn. intros Hk. apply Hk, node_position_None. cbn.
    by intros ?%list_elem_of_singleton.
Qed.

(** The log gives [slot] to [a], then to [b], and registers only [a]. *)
Definition unregistered_log (a b : NodeEntry) (slot : N) : list LogEntry :=
  log_of [register_cmd a; SetSlotOwner slot (n_id a); SetSlotOwner slot (n_id b)].

(** The registration condition is needed.  SETSLOT NODE is proposed for any
    id, and a node knows its own id before any AddNode; so when a slot of [a] is
    given to a node [b] that the log never registered, [b] takes the slot, [a]
    drops the command as naming an unknown node and keeps it, and both own the
    slot at the same epoch. *)
Theorem unregistered_owner_splits_slot (a b : NodeEntry) (slot : N)
    (Hid : n_id a ≠ n_id b) (Hs : slot < CLUSTER_SLOTS) :
  ∃ sa sb, config_run (unregistered_log a b slot) (boot a) = Some sa ∧
    config_run (unregistered_log a b slot) (boot b) = Some sb ∧
    cm_epoch sa = cm_epoch sb ∧
    owns slot (cm_map sa) = Some true ∧ owns slot (cm_map sb) = Some true.
Proof.
  unfold unregistered_log.
  (* [a] keeps the slot *)
  pose proof (meet_self a _ (map_of_epoch _ _ _ 1 (boot_map_of a))) as A1.
  destruct (assign_known a [a] _ slot (n_id a) (map_of_epoch _ _ _ 2 A1) Hs) as (ma & Ea & A2 & Oa);
    [by apply list_elem_of_singleton|].
  pose proof (assign_unknown a [a] _ slot (n_id b) (map_of_epoch _ _ _ 3 A2) Hs) as Ua.
  (* [b] takes it *)
  pose proof (meet_other b a _ (map_of_epoch _ _ _ 1 (boot_map_of b)) Hid) as B1.
  destruct (assign_known b [b; a] _ slot (n_id a) (map_of_epoch _ _ _ 2 B1) Hs) as (mb & Eb & B2 & _);
    [right; by apply list_elem_of_singleton|].
  destruct (assign_known b [b; a] _ slot (n_id b) (map_of_epoch _ _ _ 3 B2) Hs) as (mb' & Eb' & _ & Ob);
    [left|].
  destruct a as [ia ha pa]. eexists _, _. split_and!.
  - etrans; [by apply (config_run_cons _ _ _ 0)|]. etrans; [by apply (config_run_cons _ _ _ 1), Ea|].
    etrans; [apply (config_run_cons _ _ _ 2); [done|apply Ua]|done].
    by intros ?%list_elem_of_singleton.
  - etrans; [by apply (config_run_cons _ _ _ 0)|]. etrans; [by apply (config_run_cons _ _ _ 1), Eb|].
    etrans; [by apply (config_run_cons _ _ _ 2), Eb'|done].
  - done.
  - by apply Oa.
  - by apply Ob.
Qed.

Lemma unregistered_owner_splits_slot_witness :
  ∃ sa sb, config_run (unregistered_log node_a node_b 5) (boot node_a) = Some sa ∧
    config_run (unregistered_log node_a node_b 5) (boot node_b) = Some sb ∧
    cm_epoch sa = cm_epoch sb ∧
    owns 5 (cm_map sa) = Some true ∧ owns 5 (cm_map sb) = Some true.
Proof. apply (unregistered_owner_splits_slot node_a node_b 5); [discriminate|reflexivity]. Defined.

(** ** A migration *)

(** The slot of [a] is being moved to [b]; [c] is a bystander. *)
Definition migration_log : list LogEntry :=
  log_of [register_cmd node_a; register_cmd node_b; register_cmd node_c;
          AssignSlots "a" [5]; SetSlotMigrating 5 "b"].

Definition migration_of (sm : ConfigSm) : option MigrationState := migration_state 5 (cm_map sm).

Definition migrated (self : NodeEntry) : option ConfigSm := config_run migration_log (boot self).
Definition restored_c : option ConfigSm :=
  sm ← migrated node_a; config_restore (config_snapshot sm) (boot node_c).

(** A snapshot taken during a migration is not node-independent: it carries
    the sender's MIGRATING tag, so a bystander restored from the owner's snapshot
    shows a slot it does not own as MIGRATING, which a replay of the same log
    does not; and two nodes at the same prefix emit different bytes. *)
Theorem snapshot_carries_migration_tag :
  restored_c ≫= migration_of = Some Migrating ∧
  (restored_c ≫= λ sm, owns 5 (cm_map sm)) = Some false ∧
  migrated node_c ≫= migration_of = Some MigNone ∧
  config_snapshot <$> migrated node_a ≠ config_snapshot <$> migrated node_c.
Proof. split_and!; [vm_compute; reflexivity..|]. vm_compute. discriminate. Qed.

(** SETSLOT IMPORTING run on a node other than the owner names the wrong
    destination: only the owner records the migration, so on the bystander [c]
    the committed handshake toward [b] gives a command for [c] itself, which
    tags [c] and leaves [b] untagged. *)
Theorem importing_tags_bystander :
  (sm ← config_run migration_log (boot node_c); importing_cmd 5 "a" (cm_map sm)) =
    Some (SetSlotImporting 5 "a" "c") ∧
  config_run (migration_log ++ log_of [SetSlotImporting 5 "a" "c"]) (boot node_c) ≫= migration_of =
    Some Importing ∧
  config_run (migration_log ++ log_of [SetSlotImporting 5 "a" "c"]) (boot node_b) ≫= migration_of =
    Some MigNone.
Proof. split_and!; vm_compute; reflexivity. Qed.

(** ** Witnesses *)

Definition failover_a : ConfigSm := default (boot node_a) (config_run failover_log (boot node_a)).

Lemma failover_a_agrees : agrees node_a (cm_map failover_a) (foldl conf_step conf_new failover_log).
Proof.
  destruct (config_run_agrees node_a failover_log (boot node_a) conf_new) as (sm & E & Ha & _);
    [apply boot_agrees|apply failover_ok; by left|by vm_compute|].
  unfold failover_a. by rewrite E.
Qed.

Lemma failover_a_wire : wire_ok (cm_map failover_a).
Proof.
  split_and!; [by vm_compute| |].
  - replace (c_nodes (cm_map failover_a)) with [node_a; node_b] by by vm_compute.
    repeat constructor; by vm_compute.
  - replace (c_migration_state (cm_map failover_a)) with (slot_array MIG_NONE)
      by (vm_compute; reflexivity).
    by apply Forall_replicate.
Qed.

Lemma config_snapshot_transfer_witness :
  ∃ sc, config_restore (config_snapshot failover_a) (boot node_c) = Some sc ∧
        agrees node_c (cm_map sc) (foldl conf_step conf_new failover_log) ∧
        cm_epoch sc = cm_epoch failover_a.
Proof.
  apply (config_snapshot_transfer node_a node_c failover_a (boot node_c)).
  - apply failover_a_agrees.
  - vm_compute. reflexivity.
  - apply failover_a_wire.
  - vm_compute. discriminate.
  - vm_compute. reflexivity.
  - apply empty_self_wf.
  - reflexivity.
Defined.

Definition fresh_a : SlotMap := empty_self (n_id node_a) (n_host node_a) (n_port node_a).
Definition owning_a : SlotMap := default fresh_a (snd <$> run_op (OpAddSlots [5; 6]) fresh_a).

Lemma slot_map_total_witness :
  ∃ m', run_op (OpAddSlots [5; 6]) fresh_a = Some (tt, m') ∧ map_reach node_a m' ∧ map_wf m'.
Proof.
  apply (slot_map_total node_a fresh_a (OpAddSlots [5; 6])); [apply reach_new|repeat constructor].
Defined.

Lemma owns_iff_redirect_self_witness :
  ∃ e b, me owning_a = Some e ∧ owns 5 owning_a = Some b ∧
    (b = true ↔ moved_target 5 owning_a = Some (n_host e, n_port e)).
Proof.
  apply (owns_iff_redirect_self node_a owning_a 5); [|reflexivity].
  apply (reach_op node_a (OpAddSlots [5; 6]) fresh_a); [apply reach_new|repeat constructor|].
  vm_compute. reflexivity.
Defined.
