(* ===== verification/Glob.v ===== *)
(** * The glob matcher of KEYS and SCAN MATCH (crates/ironcache-server/src/glob.rs)

    The two-pointer matcher with its backtrack to the last star, and the language
    of a pattern: a list of tokens, each a star or a one-byte element. *)

From Stdlib Require Import Lia ZArith NArith.
From S2P Require Import Prelude.

#[local] Open Scope nat_scope.

Definition b_star : byte := "*"%byte.
Definition b_any : byte := "?"%byte.
Definition b_open : byte := "["%byte.
Definition b_close : byte := "]"%byte.
Definition b_caret : byte := "^"%byte.
Definition b_dash : byte := "-"%byte.
Definition b_escape : byte := "\"%byte.

Definition byte_le (a b : byte) : bool := (Byte.to_N a <=? Byte.to_N b)%N.

(** A member of a class: [lo..=hi] once the endpoints are in order. *)
Definition in_range_of (a b sb : byte) : bool :=
  if byte_le a b then byte_le a sb && byte_le sb b else byte_le b sb && byte_le sb a.

Definition byte_at (p : list byte) (i : nat) (c : byte) : bool := bool_decide (p !! i = Some c).

(** The loop over the members of a class, from [idx]; each round moves on. *)
Fixpoint class_loop (fuel : nat) (p : list byte) (sb : byte) (idx : nat) (matched : bool)
    : bool * nat :=
  match fuel, p !! idx with
  | S fuel, Some c =>
      if decide (c = b_close) then (matched, idx) else
      if decide (c = b_escape ∧ idx + 1 < length p) then
        class_loop fuel p sb (idx + 2) (matched || byte_at p (idx + 1) sb)
      else if decide (idx + 2 < length p ∧ p !! (idx + 1) = Some b_dash) then
        class_loop fuel p sb (idx + 3)
          (matched || match p !! (idx + 2) with Some c' => in_range_of c c' sb | None => false end)
      else class_loop fuel p sb (idx + 1) (matched || bool_decide (c = sb))
  | _, _ => (matched, idx)
  end.

Definition match_one (p : list byte) (sb : byte) : bool * nat :=
  match p with
  | [] => (false, 0)
  | c :: _ =>
      if decide (c = b_any) then (true, 1) else
      if decide (c = b_open) then
        let negate := byte_at p 1 b_caret in
        let '(matched, idx) := class_loop (length p) p sb (if negate then 2 else 1) false in
        (xorb negate matched, if decide (idx < length p) then idx + 1 else idx)
      else if decide (c = b_escape ∧ 2 ≤ length p) then (byte_at p 1 sb, 2)
      else (bool_decide (sb = c), 1)
  end.

(** The matcher's variables. *)
Record Cursor := mkCursor { p_idx : nat; s_idx : nat; star_p : option nat; star_s : nat }.

(** One round of the main loop: the next state, or the failure. *)
Definition glob_round (p s : list byte) (sb : byte) (c : Cursor) : option Cursor :=
  let backtrack :=
    match star_p c with
    | Some sp => Some (mkCursor (sp + 1) (star_s c + 1) (Some sp) (star_s c + 1))
    | None => None
    end in
  if byte_at p (p_idx c) b_star then
    Some (mkCursor (p_idx c + 1) (s_idx c) (Some (p_idx c)) (s_idx c))
  else if decide (p_idx c < length p) then
    let '(matched, consumed) := match_one (drop (p_idx c) p) sb in
    if matched : bool
    then Some (mkCursor (p_idx c + consumed) (s_idx c + 1) (star_p c) (star_s c))
    else backtrack
  else backtrack.

(** The trailing loop: only stars may be left. *)
Fixpoint skip_stars (p : list byte) : list byte :=
  match p with
  | c :: p' => if decide (c = b_star) then skip_stars p' else p
  | [] => []
  end.

(** The main loop; out of fuel is [None]. *)
Fixpoint glob_loop (fuel : nat) (p s : list byte) (c : Cursor) : option bool :=
  match s !! s_idx c with
  | None => Some (bool_decide (skip_stars (drop (p_idx c) p) = []))
  | Some sb =>
      match fuel with
      | O => None
      | S fuel =>
          match glob_round p s sb c with
          | Some c' => glob_loop fuel p s c'
          | None => Some false
          end
      end
  end.

Definition glob_match (pattern string : list byte) : option bool :=
  glob_loop ((length string + 1) * (length pattern + 1)) pattern string (mkCursor 0 0 None 0).

(** ** The language of a pattern *)

Inductive element :=
  | AnyByte
  | Literal (c : byte)
  | Class (negate : bool) (members : list (byte * byte)).

Inductive token := Star | One (e : element).

(** The members of a class up to its closing bracket or the end, and what follows. *)
Fixpoint class_members (l : list byte) : list (byte * byte) * list byte :=
  match l with
  | [] => ([], [])
  | c :: r =>
      let cons m x := (m :: x.1, x.2) in
      if decide (c = b_close) then ([], r) else
      match r with
      | [] => ([(c, c)], [])
      | d :: r1 =>
          if decide (c = b_escape) then cons (d, d) (class_members r1) else
          match r1 with
          | e :: r2 => if decide (d = b_dash) then cons (c, e) (class_members r2)
                       else cons (c, c) (class_members r)
          | [] => cons (c, c) (class_members r)
          end
      end
  end.

(** The element at the head of a pattern that does not start with a star. *)
Definition first_element (c : byte) (r : list byte) : element * list byte :=
  if decide (c = b_any) then (AnyByte, r) else
  if decide (c = b_open) then
    let negate := byte_at r 0 b_caret in
    let x := class_members (if negate then drop 1 r else r) in (Class negate x.1, x.2)
  else match r with
       | e :: r' => if decide (c = b_escape) then (Literal e, r') else (Literal c, r)
       | [] => (Literal c, [])
       end.

Definition element_matches (e : element) (sb : byte) : bool :=
  match e with
  | AnyByte => true
  | Literal c => bool_decide (sb = c)
  | Class negate ms => xorb negate (existsb (λ m, in_range_of m.1 m.2 sb) ms)
  end.

Fixpoint tokens_fuel (fuel : nat) (p : list byte) : list token :=
  match fuel, p with
  | S fuel, c :: r =>
      if decide (c = b_star) then Star :: tokens_fuel fuel r
      else One (first_element c r).1 :: tokens_fuel fuel (first_element c r).2
  | _, _ => []
  end.

Definition tokens (p : list byte) : list token := tokens_fuel (length p) p.

Fixpoint denotes (ts : list token) (s : list byte) : Prop :=
  match ts with
  | [] => s = []
  | One e :: ts => ∃ b s', s = b :: s' ∧ element_matches e b = true ∧ denotes ts s'
  | Star :: ts => ∃ s1 s2, s = s1 ++ s2 ∧ denotes ts s2
  end.
