(* ===== verification/GlobProofs.v ===== *)
(** * The glob matcher decides the language of its pattern

    The loop ends within a number of rounds bounded by the product of the two
    lengths, and answers whether the string is in the language. *)

From Stdlib Require Import Lia ZArith NArith.
From S2P Require Import Prelude Glob.

#[local] Open Scope nat_scope.

(** ** One element *)

Definition cons_member (m : byte * byte) (x : list (byte * byte) * list byte) := (m :: x.1, x.2).

(** Which member a class starts with, and where the next one is. *)
Lemma class_members_cons c r : c ≠ b_close →
  class_members (c :: r) =
  match r with
  | d :: r1 =>
      if decide (c = b_escape) then cons_member (d, d) (class_members r1)
      else match r1 with
           | e :: r2 => if decide (d = b_dash) then cons_member (c, e) (class_members r2)
                        else cons_member (c, c) (class_members r)
           | [] => cons_member (c, c) (class_members r)
           end
  | [] => cons_member (c, c) (class_members [])
  end.
Proof. intros Hc. destruct r as [|d [|e r2]]; simpl; by rewrite decide_False. Qed.

Lemma class_members_close r : class_members (b_close :: r) = ([], r).
Proof. done. Qed.

Lemma class_members_rest l : length (class_members l).2 ≤ length l - 1.
Proof.
  remember (length l) as n eqn:Hn. revert l Hn.
  induction n as [n IH] using lt_wf_ind; intros [|c r] ->; [done|].
  assert (∀ l, length l < S (length r) → length (class_members l).2 ≤ length l - 1) as H
    by (intros l Hl; by apply (IH (length l) Hl)). clear IH.
  destruct (decide (c = b_close)) as [->|Hc]; [simpl; lia|]. rewrite class_members_cons by done.
  pose proof (H r ltac:(lia)) as Hr. destruct r as [|d r1]; [done|].
  pose proof (H r1 ltac:(simpl; lia)) as Hr1.
  case_decide; cbn [cons_member snd length] in *; [lia|].
  destruct r1 as [|e r2]; cbn [cons_member snd length] in *; [lia|].
  pose proof (H r2 ltac:(lia)). case_decide; cbn [cons_member snd] in *; lia.
Qed.

Lemma in_range_of_refl c sb : in_range_of c c sb = bool_decide (c = sb).
Proof.
  unfold in_range_of, byte_le. rewrite N.leb_refl. apply eq_true_iff_eq.
  rewrite andb_true_iff, !N.leb_le, bool_decide_eq_true. split; [|intros ->; lia].
  intros [H1 H2]. rewrite <-(byte_of_to_N c), <-(byte_of_to_N sb). f_equal. lia.
Qed.

Definition any_member (sb : byte) (ms : list (byte * byte)) : bool :=
  existsb (λ m, in_range_of m.1 m.2 sb) ms.

(** The index loop reads the members of the suffix it stands at. *)
Lemma class_loop_spec fuel p sb idx matched : length p < fuel + idx →
  ∃ i, class_loop fuel p sb idx matched = (matched || any_member sb (class_members (drop idx p)).1, i) ∧
       drop (if decide (i < length p) then i + 1 else i) p = (class_members (drop idx p)).2 ∧
       idx ≤ i.
Proof.
  revert idx matched. induction fuel as [|fuel IH]; intros idx matched Hf.
  { rewrite (drop_ge p idx) by lia. exists idx. simpl. rewrite orb_false_r. split; [done|].
    rewrite decide_False by lia. split; [apply drop_ge; lia|done]. }
  simpl. destruct (p !! idx) as [c|] eqn:Hc.
  2:{ apply lookup_ge_None in Hc. rewrite (drop_ge p idx) by lia. exists idx. simpl.
      rewrite orb_false_r, decide_False by lia. split_and!; [done|by apply drop_ge|done]. }
  pose proof (lookup_lt_Some _ _ _ Hc) as Hlt. pose proof (drop_S _ _ _ Hc) as Hd.
  destruct (decide (c = b_close)) as [->|Hnc].
  { rewrite Hd, class_members_close. exists idx. simpl. rewrite orb_false_r, decide_True by done.
    by rewrite Nat.add_1_r. }
  rewrite Hd, class_members_cons by done.
  (* one member [m], then the rest from [idx + k] *)
  assert (∀ m k hit, 0 < k → hit = in_range_of m.1 m.2 sb →
    ∃ i, class_loop fuel p sb (idx + k) (matched || hit) =
           (matched || any_member sb (cons_member m (class_members (drop (idx + k) p))).1, i) ∧
         drop (if decide (i < length p) then i + 1 else i) p =
           (cons_member m (class_members (drop (idx + k) p))).2 ∧ idx ≤ i) as Hnext.
  { intros m k hit Hk ->. destruct (IH (idx + k) (matched || in_range_of m.1 m.2 sb)) as (i & E & Hi & Hle);
      [lia|]. exists i. rewrite E. split_and!; [|done|lia]. cbn [cons_member fst any_member existsb].
    by rewrite orb_assoc. }
  assert (∀ k, drop (idx + S k) p = drop k (drop (S idx) p)) as Hk
    by (intros k; rewrite drop_drop; f_equal; lia).
  assert (∀ k, p !! (idx + S k) = drop (S idx) p !! k) as Hl
    by (intros k; rewrite lookup_drop; f_equal; lia).
  assert (length p = S idx + length (drop (S idx) p)) as Hlen by (rewrite length_drop; lia).
  unfold byte_at. rewrite !(Hl 0), !(Hl 1).
  pose proof (λ m hit, Hnext m 1 hit ltac:(lia)) as N1. pose proof (λ m hit, Hnext m 2 hit ltac:(lia)) as N2.
  pose proof (λ m hit, Hnext m 3 hit ltac:(lia)) as N3. rewrite !Hk in N1, N2, N3.
  clear IH Hnext Hl Hk. destruct (drop (S idx) p) as [|d r1]; cbn [length drop lookup list_lookup] in *.
  { rewrite !decide_False by naive_solver lia. apply N1. by rewrite in_range_of_refl. }
  destruct (decide (c = b_escape)) as [->|Hne].
  { rewrite decide_True by (split; [done|lia]). apply N2. rewrite in_range_of_refl.
    apply bool_decide_ext. naive_solver. }
  rewrite (decide_False (P := c = b_escape ∧ _)) by naive_solver.
  destruct r1 as [|e r2]; cbn [length] in *.
  { rewrite decide_False by naive_solver lia. apply N1. by rewrite in_range_of_refl. }
  destruct (decide (d = b_dash)) as [->|Hnd].
  - rewrite decide_True by (split; [lia|done]). by apply N3.
  - rewrite decide_False by naive_solver. apply N1. by rewrite in_range_of_refl.
Qed.

(** [match_one] decides the first element and consumes exactly it. *)
Lemma match_one_spec c r sb : c ≠ b_star →
  (match_one (c :: r) sb).1 = element_matches (first_element c r).1 sb ∧
  drop (match_one (c :: r) sb).2 (c :: r) = (first_element c r).2 ∧
  0 < (match_one (c :: r) sb).2.
Proof.
  intros Hc. unfold match_one, first_element. case_decide.
  { cbn [fst snd]. split_and!; [done|done|lia]. }
  case_decide.
  - change (byte_at (c :: r) 1 b_caret) with (byte_at r 0 b_caret).
    set (neg := byte_at r 0 b_caret).
    destruct (class_loop_spec (length (c :: r)) (c :: r) sb (if neg then 2 else 1) false)
      as (i & E & Hi & Hle); [simpl; destruct neg; lia|].
    assert (drop (if neg then 2 else 1) (c :: r) = if neg then drop 1 r else r) as Hd
      by by destruct neg. rewrite Hd in *.
    rewrite E. cbn [fst snd]. split_and!; [done|done|]. destruct neg; case_decide; lia.
  - destruct r as [|e r']; [rewrite decide_False by (simpl; lia); cbn [fst snd]; split_and!; [done|done|lia]|].
    destruct (decide (c = b_escape)) as [->|].
    + rewrite decide_True by (split; [done|simpl; lia]). cbn [fst snd]. split_and!; [|done|lia].
      apply bool_decide_ext. cbn. naive_solver.
    + rewrite decide_False by naive_solver. cbn [fst snd]. split_and!; [done|done|lia].
Qed.

Lemma first_element_rest c r : length (first_element c r).2 ≤ length r.
Proof.
  unfold first_element. case_decide; [done|]. case_decide.
  - cbn [snd]. etrans; [apply class_members_rest|].
    destruct (byte_at r 0 b_caret); [rewrite length_drop|]; lia.
  - destruct r; [done|]. case_decide; simpl; lia.
Qed.

(** ** Tokens *)

Lemma tokens_fuel_irrel f1 f2 p : length p ≤ f1 → length p ≤ f2 →
  tokens_fuel f1 p = tokens_fuel f2 p.
Proof.
  revert f2 p. induction f1 as [|f1 IH]; intros [|f2] [|c r] H1 H2; try done; [simpl in *; lia..|].
  simpl in H1, H2. cbn [tokens_fuel]. pose proof (first_element_rest c r).
  case_decide; f_equal; apply IH; lia.
Qed.

Lemma tokens_nil : tokens [] = [].
Proof. done. Qed.

Lemma tokens_star r : tokens (b_star :: r) = Star :: tokens r.
Proof. done. Qed.

Lemma tokens_one c r : c ≠ b_star →
  tokens (c :: r) = One (first_element c r).1 :: tokens (first_element c r).2.
Proof.
  intros Hc. unfold tokens. cbn [tokens_fuel length]. rewrite decide_False by done. f_equal.
  apply tokens_fuel_irrel; [apply first_element_rest|done].
Qed.

(** A run of one-byte elements takes exactly its length. *)
Lemma denotes_ones es ts s : denotes (map One es ++ ts) s →
  length es ≤ length s ∧ denotes ts (drop (length es) s).
Proof.
  revert s. induction es as [|e es IH]; intros s; simpl; [by rewrite drop_0; split; [lia|]|].
  intros (b & s' & -> & _ & H). apply IH in H as [Hl Hd]. split; [simpl; lia|done].
Qed.

Lemma denotes_star ts s : denotes (Star :: ts) s ↔ ∃ k, k ≤ length s ∧ denotes ts (drop k s).
Proof.
  simpl. split.
  - intros (s1 & s2 & -> & H). exists (length s1). rewrite drop_app_length, length_app. split; [lia|done].
  - intros (k & _ & H). exists (take k s), (drop k s). by rewrite take_drop.
Qed.

(** A match of the empty string is a pattern of stars. *)
Lemma denotes_empty p : denotes (tokens p) [] ↔ skip_stars p = [].
Proof.
  induction p as [|c r IH]; [done|]. simpl. case_decide as Hc.
  - subst. rewrite tokens_star, <-IH, denotes_star. split.
    + intros (k & _ & H). by rewrite drop_nil in H.
    + intros H. exists 0. by split.
  - rewrite tokens_one by done. simpl. split; [by intros (? & ? & ? & _)|done].
Qed.

(** ** The loop *)

Section loop.
Context (p s : list byte).

(** What the star may still do: match from a later byte. *)
Definition later (c : Cursor) : Prop :=
  match star_p c with
  | Some sp => ∃ k, star_s c < k ≤ length s ∧ denotes (tokens (drop (sp + 1) p)) (drop k s)
  | None => False
  end.

(** The loop invariant: the answer is the current attempt's or a later one's, and
    between the star and here there are only one-byte elements. *)
Record cursor_ok (c : Cursor) : Prop := {
  ok_range : star_s c ≤ s_idx c ≤ length s;
  ok_answer : denotes (tokens p) s ↔
    denotes (tokens (drop (p_idx c) p)) (drop (s_idx c) s) ∨ later c;
  ok_segment : ∀ sp, star_p c = Some sp → ∃ es, length es = s_idx c - star_s c ∧
    tokens (drop (sp + 1) p) = map One es ++ tokens (drop (p_idx c) p)
}.

Definition rounds_left (c : Cursor) : nat :=
  (length s - star_s c) * (length p + 1) + (length p - p_idx c).

(** Attempts from a later byte cannot reach further left than the current one. *)
Lemma later_beyond c k sp : cursor_ok c → star_p c = Some sp → star_s c < k ≤ length s →
  denotes (tokens (drop (sp + 1) p)) (drop k s) →
  ∃ j, s_idx c < j ≤ length s ∧ denotes (tokens (drop (p_idx c) p)) (drop j s).
Proof.
  intros H Hsp Hk Hd. destruct (ok_segment _ H sp Hsp) as (es & Hes & E). rewrite E in Hd.
  apply denotes_ones in Hd as [Hl Hd]. rewrite length_drop in Hl. rewrite drop_drop in Hd.
  exists (k + length es). pose proof (ok_range _ H). split; [lia|done].
Qed.

Lemma star_round c : cursor_ok c → byte_at p (p_idx c) b_star = true →
  cursor_ok (mkCursor (p_idx c + 1) (s_idx c) (Some (p_idx c)) (s_idx c)).
Proof.
  intros H Hst. unfold byte_at in Hst. apply bool_decide_eq_true in Hst.
  pose proof (drop_S _ _ _ Hst) as Hd. pose proof (ok_range _ H).
  split; simpl; [lia| |].
  - rewrite (ok_answer _ H), Hd, tokens_star, denotes_star, Nat.add_1_r. split.
    + intros [(k & Hk & Hm)|Hl].
      * rewrite drop_drop in Hm. rewrite length_drop in Hk. destruct (decide (k = 0)) as [->|].
        { left. by rewrite Nat.add_0_r in Hm. }
        right. exists (s_idx c + k). rewrite Nat.add_1_r. simpl. split; [lia|done].
      * unfold later in Hl. destruct (star_p c) as [sp|] eqn:Hsp; [|done].
        destruct Hl as (k & Hk & Hm).
        destruct (later_beyond c k sp H Hsp Hk Hm) as (j & Hj & Hm').
        rewrite Hd, tokens_star, denotes_star in Hm'. destruct Hm' as (i & Hi & Hm').
        rewrite drop_drop in Hm'. rewrite length_drop in Hi.
        right. exists (j + i). rewrite Nat.add_1_r. simpl. split; [lia|done].
    + intros [Hm|(k & Hk & Hm)]; left; simpl in *.
      * exists 0. rewrite drop_0. split; [lia|done].
      * exists (k - s_idx c). rewrite drop_drop, length_drop. rewrite Nat.add_1_r in Hm.
        replace (s_idx c + (k - s_idx c)) with k by lia. split; [lia|done].
  - intros sp [= <-]. exists []. rewrite Nat.sub_diag. done.
Qed.

Lemma match_round c ch r sb : cursor_ok c → drop (p_idx c) p = ch :: r → ch ≠ b_star →
  s !! s_idx c = Some sb → (match_one (ch :: r) sb).1 = true →
  cursor_ok (mkCursor (p_idx c + (match_one (ch :: r) sb).2) (s_idx c + 1) (star_p c) (star_s c)).
Proof.
  intros H Hp Hns Hs Hm. destruct (match_one_spec ch r sb Hns) as (E & Hrest & _).
  pose proof (lookup_lt_Some _ _ _ Hs). pose proof (ok_range _ H).
  assert (drop (p_idx c + (match_one (ch :: r) sb).2) p = (first_element ch r).2) as Hd
    by by rewrite <-drop_drop, Hp.
  split; cbn [p_idx s_idx star_p star_s]; [lia| |].
  - rewrite (ok_answer _ H), Hp, tokens_one, Hd, (drop_S _ _ _ Hs), Nat.add_1_r by done.
    apply or_iff_compat_r. cbn [denotes]. split.
    + intros (b & s' & [= <- <-] & _ & Hden). done.
    + intros Hden. exists sb, (drop (S (s_idx c)) s). split_and!; [done|congruence|done].
  - intros sp Hsp. destruct (ok_segment _ H sp Hsp) as (es & Hes & Et).
    exists (es ++ [(first_element ch r).1]). rewrite length_app, Hd, Et, Hp, tokens_one by done.
    rewrite map_app, <-app_assoc. cbn [length app map]. split; [lia|done].
Qed.

(** No attempt from here: only the star's later ones are left. *)
Lemma backtrack_round c sp : cursor_ok c → star_p c = Some sp → s_idx c < length s →
  ¬ denotes (tokens (drop (p_idx c) p)) (drop (s_idx c) s) →
  cursor_ok (mkCursor (sp + 1) (star_s c + 1) (Some sp) (star_s c + 1)).
Proof.
  intros H Hsp Hlt Hno. pose proof (ok_range _ H). split; simpl; [lia| |].
  - rewrite (ok_answer _ H). unfold later. rewrite Hsp. simpl. split.
    + intros [?|(k & Hk & Hm)]; [done|]. destruct (decide (k = star_s c + 1)) as [->|]; [by left|].
      right. exists k. split; [lia|done].
    + intros [Hm|(k & Hk & Hm)]; right; [exists (star_s c + 1)|exists k]; split; (lia || done).
  - intros sp' [= <-]. exists []. by rewrite Nat.sub_diag.
Qed.

(** The round that the loop takes keeps the invariant and comes closer to the end;
    no round means no match. *)
Lemma glob_round_spec c sb : cursor_ok c → s !! s_idx c = Some sb →
  match glob_round p s sb c with
  | Some c' => cursor_ok c' ∧ rounds_left c' < rounds_left c
  | None => ¬ denotes (tokens p) s
  end.
Proof.
  intros H Hs. pose proof (lookup_lt_Some _ _ _ Hs) as Hlt. pose proof (ok_range _ H) as Hr.
  assert (¬ denotes (tokens (drop (p_idx c) p)) (drop (s_idx c) s) →
    match (match star_p c with
           | Some sp => Some (mkCursor (sp + 1) (star_s c + 1) (Some sp) (star_s c + 1))
           | None => None end) with
    | Some c' => cursor_ok c' ∧ rounds_left c' < rounds_left c
    | None => ¬ denotes (tokens p) s
    end) as Hback.
  { intros Hno. destruct (star_p c) as [sp|] eqn:Hsp.
    - split; [by apply (backtrack_round c)|]. unfold rounds_left. cbn [star_s p_idx].
      replace (length s - star_s c) with (S (length s - (star_s c + 1))) by lia. simpl. lia.
    - rewrite (ok_answer _ H). unfold later. rewrite Hsp. tauto. }
  unfold glob_round. destruct (byte_at p (p_idx c) b_star) eqn:Hst.
  { split; [by apply star_round|]. unfold byte_at in Hst. apply bool_decide_eq_true in Hst.
    apply lookup_lt_Some in Hst. unfold rounds_left. cbn [star_s p_idx].
    pose proof (Nat.mul_le_mono_r (length s - s_idx c) (length s - star_s c) (length p + 1) ltac:(lia)). lia. }
  case_decide as Hp.
  2:{ apply Hback. rewrite (drop_ge p), tokens_nil, (drop_S _ _ _ Hs) by lia. done. }
  destruct (lookup_lt_is_Some_2 p (p_idx c) Hp) as [ch Hch]. pose proof (drop_S _ _ _ Hch) as Hd.
  assert (ch ≠ b_star) as Hns.
  { intros ->. unfold byte_at in Hst. by rewrite bool_decide_true in Hst. }
  rewrite Hd. destruct (match_one_spec ch (drop (S (p_idx c)) p) sb Hns) as (E & _ & Hpos).
  pose proof (match_round c ch _ sb H Hd Hns Hs) as Hmatch.
  destruct (match_one _ sb) as [[] consumed] eqn:Em; cbn [fst snd] in *.
  - split; [by apply Hmatch|]. unfold rounds_left. cbn [star_s p_idx]. lia.
  - apply Hback. rewrite Hd, tokens_one, (drop_S _ _ _ Hs) by done. cbn [denotes].
    intros (b & s' & [= <- <-] & Hb & _). congruence.
Qed.

(** At the end of the string only the current attempt is left. *)
Lemma glob_end c : cursor_ok c → s !! s_idx c = None →
  skip_stars (drop (p_idx c) p) = [] ↔ denotes (tokens p) s.
Proof.
  intros H Hs%lookup_ge_None. pose proof (ok_range _ H).
  rewrite (ok_answer _ H), (drop_ge s), <-denotes_empty by lia. split; [by left|].
  intros [?|Hl]; [done|]. unfold later in Hl. destruct (star_p c) as [sp|] eqn:Hsp; [|done].
  destruct Hl as (k & Hk & Hm). destruct (later_beyond c k sp H Hsp Hk Hm) as (j & Hj & _). lia.
Qed.

Lemma glob_loop_spec fuel c : cursor_ok c → rounds_left c ≤ fuel →
  ∃ b, glob_loop fuel p s c = Some b ∧ (b = true ↔ denotes (tokens p) s).
Proof.
  revert c. induction fuel as [|fuel IH]; intros c H Hf; cbn [glob_loop];
    (destruct (s !! s_idx c) as [sb|] eqn:Hs;
     [|eexists; split; [done|]; rewrite bool_decide_eq_true; by apply glob_end]).
  - pose proof (glob_round_spec c sb H Hs) as Hround. pose proof (lookup_lt_Some _ _ _ Hs).
    pose proof (ok_range _ H). unfold rounds_left in Hf.
    destruct (length s - star_s c) eqn:?; simpl in Hf; lia.
  - pose proof (glob_round_spec c sb H Hs) as Hround.
    destruct (glob_round p s sb c) as [c'|]; [apply IH; [tauto|lia]|].
    exists false. split; [done|]. split; [done|tauto].
Qed.
End loop.

(** (C32) The glob matcher ends within (|string| + 1) * (|pattern| + 1) rounds, with
    no recursion, and answers yes exactly for the strings in the language of the
    pattern: its tokens in order, a star standing for any bytes and an element
    for one byte it matches. *)
Theorem glob_match_correct (pattern string : list byte) :
  ∃ b, glob_match pattern string = Some b ∧ (b = true ↔ denotes (tokens pattern) string).
Proof.
  apply glob_loop_spec.
  - split; simpl; [lia| |done]. rewrite !drop_0. unfold later. simpl. tauto.
  - unfold rounds_left. cbn [star_s p_idx]. lia.
Qed.
