(* ===== verification/Dash.v ===== *)
(** * The dash index (crates/ironcache-dashtable/src/index.rs)

    Extendible hashing over records that carry their own key: a directory of
    [2^global_depth] entries names segments by the top bits of a hash, a segment
    holds 64 records behind one-byte fingerprints, and a full one splits.

    The record slots past [len] are uninitialised memory, so a segment's items
    are the initialised prefix and an access outside it is undefined behaviour:
    [None], like a panic. *)

From Stdlib Require Import Lia ZArith NArith.
From S2P Require Import Prelude.

#[local] Open Scope N_scope.

Definition SEGMENT_CAP : nat := 64.
Definition MAX_SPLITS : nat := 64.
Definition MAX_GLOBAL_DEPTH : N := 20.

Definition fingerprint (h : N) : N := N.land h 255.
Definition bit_from_top (h n : N) : bool := N.land (N.shiftr h (64 - n)) 1 =? 1.

(** [u64::trailing_zeros] of a value that is not zero. *)
Fixpoint ctz (p : positive) : nat :=
  match p with xO p => S (ctz p) | _ => O end.
Definition trailing_zeros (n : N) : nat := match n with N0 => 64%nat | Npos p => ctz p end.

Inductive Loc := Inline (i : nat) | Overflow (i : nat).

Section dash.
Context {T : Type}.

Record Segment := mkSegment {
  g_fps : list N;
  g_local_depth : N;
  g_items : list T;
  g_overflow : option (list (N * T))
}.

Definition segment_new (local_depth : N) : Segment :=
  mkSegment (replicate SEGMENT_CAP 0) local_depth [] None.

Definition g_len (g : Segment) : nat := length (g_items g).
Definition spill (g : Segment) : list (N * T) := default [] (g_overflow g).
Definition count (g : Segment) : nat := (g_len g + length (spill g))%nat.

(** One match bit per slot of the whole array, trimmed to the initialised prefix. *)
Fixpoint mask_bits (fps : list N) (fp : N) (i : nat) (mask : N) : N :=
  match fps with
  | [] => mask
  | f :: fps =>
      mask_bits fps fp (S i) (N.lor mask (N.shiftl (if f =? fp then 1 else 0) (N.of_nat i)))
  end.

Definition match_mask (g : Segment) (fp : N) : N :=
  let mask := mask_bits (g_fps g) fp 0 0 in
  if decide (g_len g < SEGMENT_CAP)%nat
  then N.land mask (N.shiftl 1 (N.of_nat (g_len g)) - 1) else mask.

(** [while mask != 0]: the lowest bit names the slot to compare, then is cleared. *)
Fixpoint probe_inline (fuel : nat) (items : list T) (eq : T → bool) (mask : N) : option (option nat) :=
  if decide (mask = 0) then Some None else
  match fuel with
  | O => None
  | S fuel =>
      let i := trailing_zeros mask in
      item ← items !! i;
      if (eq item : bool) then Some (Some i)
      else probe_inline fuel items eq (N.land mask (mask - 1))
  end.

Fixpoint probe_spill (l : list (N * T)) (fp : N) (eq : T → bool) (i : nat) : option nat :=
  match l with
  | [] => None
  | (f, item) :: l => if (f =? fp) && eq item then Some i else probe_spill l fp eq (S i)
  end.

Definition locate (g : Segment) (fp : N) (eq : T → bool) : option (option Loc) :=
  hit ← probe_inline SEGMENT_CAP (g_items g) eq (match_mask g fp);
  match hit with
  | Some i => Some (Some (Inline i))
  | None => Some (Overflow <$> probe_spill (spill g) fp eq 0)
  end.

Definition get (g : Segment) (loc : Loc) : option T :=
  match loc with
  | Inline i => g_items g !! i
  | Overflow i => snd <$> spill g !! i
  end.

(** [*get_mut(loc) = item]. *)
Definition put_at (g : Segment) (loc : Loc) (item : T) : option Segment :=
  match loc with
  | Inline i =>
      _ ← g_items g !! i;
      Some (mkSegment (g_fps g) (g_local_depth g) (<[i := item]> (g_items g)) (g_overflow g))
  | Overflow i =>
      '(f, _) ← spill g !! i;
      Some (mkSegment (g_fps g) (g_local_depth g) (g_items g) (Some (<[i := (f, item)]> (spill g))))
  end.

Definition push (g : Segment) (fp : N) (item : T) : Loc * Segment :=
  let len := g_len g in
  if decide (len < SEGMENT_CAP)%nat then
    (Inline len,
     mkSegment (<[len := fp]> (g_fps g)) (g_local_depth g) (g_items g ++ [item]) (g_overflow g))
  else
    (Overflow (length (spill g)),
     mkSegment (g_fps g) (g_local_depth g) (g_items g) (Some (spill g ++ [(fp, item)]))).

(** [Vec::swap_remove] and the back-swap of the inline block. *)
Definition swap_remove {A} (i : nat) (l : list A) : option (A * list A) :=
  x ← l !! i; y ← last l;
  Some (x, take (length l - 1) (<[i := y]> l)).

Definition remove_at (g : Segment) (loc : Loc) : option (T * Segment) :=
  match loc with
  | Inline i =>
      '(item, items) ← swap_remove i (g_items g);
      fps ← (if decide (i = g_len g - 1)%nat then Some (g_fps g)
             else f ← g_fps g !! (g_len g - 1)%nat; Some (<[i := f]> (g_fps g)));
      Some (item, mkSegment fps (g_local_depth g) items (g_overflow g))
  | Overflow i =>
      '(fi, ov) ← swap_remove i (spill g);
      Some (fi.2, mkSegment (g_fps g) (g_local_depth g) (g_items g)
                    (if decide (ov = []) then None else Some ov))
  end.

(** Every record with its fingerprint, inline then spilled; the segment is left empty. *)
Definition drain_all (g : Segment) : list (N * T) * Segment :=
  (zip (g_fps g) (g_items g) ++ spill g,
   mkSegment (g_fps g) (g_local_depth g) [] None).

Definition seg_iter (g : Segment) : list T := g_items g ++ map snd (spill g).

Definition all_fps_equal (g : Segment) (fp : N) : bool :=
  forallb (N.eqb fp) (take (g_len g) (g_fps g)) && forallb (λ fi, fi.1 =? fp) (spill g).

(** ** The index *)

Record DashIndex := mkDash {
  global_depth : N;
  directory : list N;
  segments : list Segment;
  d_len : N
}.

Definition dash_new : DashIndex := mkDash 0 [] [] 0.

Definition dir_index (d : DashIndex) (h : N) : nat :=
  if decide (global_depth d = 0) then 0%nat else N.to_nat (N.shiftr h (64 - global_depth d)).

(** [self.directory[self.dir_index(h)] as usize]. *)
Definition routed (d : DashIndex) (h : N) : option nat := N.to_nat <$> directory d !! dir_index d h.

Definition ensure_init (d : DashIndex) : DashIndex :=
  if decide (directory d = []) then mkDash (global_depth d) [0] (segments d ++ [segment_new 0]) (d_len d)
  else d.

Definition set_segment (i : nat) (g : Segment) (d : DashIndex) : DashIndex :=
  mkDash (global_depth d) (directory d) (<[i := g]> (segments d)) (d_len d).

Definition set_len (len : N) (d : DashIndex) : DashIndex :=
  mkDash (global_depth d) (directory d) (segments d) len.

Definition find (hash : N) (eq : T → bool) (d : DashIndex) : option (option T) :=
  if decide (directory d = []) then Some None else
  si ← routed d hash; g ← segments d !! si;
  loc ← locate g (fingerprint hash) eq;
  match loc with
  | Some loc => item ← get g loc; Some (Some item)
  | None => Some None
  end.

Definition double_directory (d : DashIndex) : option DashIndex :=
  next ← mapM (λ i, directory d !! N.to_nat (N.shiftr (N.of_nat i) 1))
           (seq 0 (length (directory d) * 2));
  Some (mkDash (global_depth d + 1) next (segments d) (d_len d)).

(** Re-place the drained records, each by its next hash bit. *)
Fixpoint repartition (hasher : T → N) (new_local : N) (recs : list (N * T)) (seg_idx buddy_idx : nat)
    (d : DashIndex) : option DashIndex :=
  match recs with
  | [] => Some d
  | (fp, item) :: recs =>
      let target := if bit_from_top (hasher item) new_local then buddy_idx else seg_idx in
      g ← segments d !! target;
      len ← add64 (d_len d) 1;
      repartition hasher new_local recs seg_idx buddy_idx
        (set_len len (set_segment target (push g fp item).2 d))
  end.

Definition repoint (shift : N) (seg buddy : N) (dir : list N) : list N :=
  imap (λ i e, if decide (e = seg ∧ N.land (N.shiftr (N.of_nat i) shift) 1 = 1) then buddy else e) dir.

Definition split (dir_idx : nat) (hasher : T → N) (d : DashIndex) : option DashIndex :=
  s ← directory d !! dir_idx;
  let seg_idx := N.to_nat s in
  g ← segments d !! seg_idx;
  let local := g_local_depth g in
  d ← (if decide (local = global_depth d) then double_directory d else Some d);
  let new_local := local + 1 in
  let buddy_idx := length (segments d) in
  let '(drained, g') := drain_all g in
  let g' := mkSegment (g_fps g') new_local (g_items g') (g_overflow g') in
  let segs := <[seg_idx := g']> (segments d ++ [segment_new new_local]) in
  len ← sub64 (d_len d) (N.of_nat (length drained));
  d ← repartition hasher new_local drained seg_idx buddy_idx
        (mkDash (global_depth d) (directory d) segs len);
  shift ← sub64 (global_depth d) new_local;
  Some (mkDash (global_depth d) (repoint shift s (N.of_nat buddy_idx mod 2 ^ 32) (directory d))
          (segments d) (d_len d)).

(** [entry]'s loop that makes room in the routed segment. *)
Fixpoint make_room (fuel : nat) (hash : N) (hasher : T → N) (d : DashIndex) : option DashIndex :=
  si ← routed d hash; g ← segments d !! si;
  match fuel with
  | O => Some d
  | S fuel =>
      if decide (count g < SEGMENT_CAP)%nat then Some d else
      if all_fps_equal g (fingerprint hash) && forallb (λ it, hasher it =? hash) (seg_iter g) then Some d else
      if decide (g_local_depth g = global_depth d ∧ MAX_GLOBAL_DEPTH ≤ global_depth d) then Some d else
      d ← split (dir_index d hash) hasher d;
      make_room fuel hash hasher d
  end.

Inductive Entry := Occupied (seg : nat) (loc : Loc) | Vacant (seg : nat) (fp : N).

Definition entry (hash : N) (eq : T → bool) (hasher : T → N) (d : DashIndex) : option (Entry * DashIndex) :=
  let d := ensure_init d in
  si ← routed d hash; g ← segments d !! si;
  loc ← locate g (fingerprint hash) eq;
  match loc with
  | Some loc => Some (Occupied si loc, d)
  | None =>
      d ← make_room MAX_SPLITS hash hasher d;
      si ← routed d hash;
      Some (Vacant si (fingerprint hash), d)
  end.

Definition find_entry (hash : N) (eq : T → bool) (d : DashIndex) : option (option (nat * Loc)) :=
  if decide (directory d = []) then Some None else
  si ← routed d hash; g ← segments d !! si;
  loc ← locate g (fingerprint hash) eq;
  Some (match loc with Some loc => Some (si, loc) | None => None end).

Definition vacant_insert (seg : nat) (fp : N) (value : T) (d : DashIndex) : option DashIndex :=
  g ← segments d !! seg;
  len ← add64 (d_len d) 1;
  Some (set_len len (set_segment seg (push g fp value).2 d)).

Definition occupied_set (seg : nat) (loc : Loc) (value : T) (d : DashIndex) : option DashIndex :=
  g ← segments d !! seg; g ← put_at g loc value; Some (set_segment seg g d).

Definition occupied_remove (seg : nat) (loc : Loc) (d : DashIndex) : option (T * DashIndex) :=
  g ← segments d !! seg;
  '(item, g) ← remove_at g loc;
  len ← sub64 (d_len d) 1;
  Some (item, set_len len (set_segment seg g d)).

Fixpoint double_times (n : nat) (d : DashIndex) : option DashIndex :=
  match n with O => Some d | S n => d ← double_directory d; double_times n d end.

Definition reserve (additional : N) (d : DashIndex) : option DashIndex :=
  needed ← add64 (d_len d) additional;
  if decide (needed = 0) then Some d else
  let segs := (needed + (N.of_nat SEGMENT_CAP * 7 / 8 - 1)) / (N.of_nat SEGMENT_CAP * 7 / 8) in
  let target_depth := N.min (N.log2_up segs) MAX_GLOBAL_DEPTH in
  if decide (directory d = []) then
    let n := N.to_nat (2 ^ target_depth) in
    Some (mkDash target_depth (map N.of_nat (seq 0 n)) (replicate n (segment_new target_depth)) (d_len d))
  else double_times (N.to_nat (target_depth - global_depth d)) d.

Definition iter (d : DashIndex) : list T := flat_map seg_iter (segments d).

End dash.

Arguments Segment : clear implicits.
Arguments DashIndex : clear implicits.
