(* ===== verification/DashSegment.v ===== *)
(** * Segments of the dash index: the fingerprint probe and the slot operations

    The two-phase probe of [Segment::locate] (a bit mask of the fingerprints,
    then the comparison on its set bits) finds what an in-order scan finds and
    reads initialised slots only. [push], [remove_at] and the in-place update
    are stated on the records a segment holds. *)

From Stdlib Require Import Lia ZArith NArith.
From S2P Require Import Prelude Dash.

#[local] Open Scope N_scope.

(** ** The lowest set bit *)

Lemma trailing_zeros_bit m : m ≠ 0 → N.testbit m (N.of_nat (trailing_zeros m)) = true.
Proof.
  destruct m as [|p]; [done|]. intros _. cbn [trailing_zeros].
  induction p as [p IH|p IH|]; [done| |done].
  cbn [ctz]. rewrite Nat2N.inj_succ. change (N.pos p~0) with (2 * N.pos p).
  by rewrite N.testbit_even_succ by lia.
Qed.

Lemma trailing_zeros_below m n : m ≠ 0 → n < N.of_nat (trailing_zeros m) → N.testbit m n = false.
Proof.
  destruct m as [|p]; [done|]. intros _. cbn [trailing_zeros]. revert n.
  induction p as [p IH|p IH|]; cbn [ctz]; intros n Hn; [lia| |lia].
  change (N.pos p~0) with (2 * N.pos p).
  destruct (N.zero_or_succ n) as [->|[k ->]]; [apply N.testbit_even_0|].
  rewrite N.testbit_even_succ by lia. apply IH. lia.
Qed.

Lemma clear_lowest m n : m ≠ 0 →
  N.testbit (N.land m (m - 1)) n = N.testbit m n && negb (n =? N.of_nat (trailing_zeros m)).
Proof.
  destruct m as [|p]; [done|]. intros _. cbn [trailing_zeros]. revert n.
  induction p as [p IH|p IH|]; intros n; cbn [ctz].
  - replace (N.pos p~1 - 1) with (2 * N.pos p) by lia.
    change (N.pos p~1) with (2 * N.pos p + 1). rewrite N.land_spec.
    destruct (N.zero_or_succ n) as [->|[k ->]].
    + by rewrite N.testbit_even_0, andb_false_r, andb_false_r.
    + rewrite N.testbit_odd_succ, N.testbit_even_succ by lia.
      rewrite (proj2 (N.eqb_neq _ _)) by lia. by rewrite andb_diag, andb_true_r.
  - replace (N.pos p~0 - 1) with (2 * (N.pos p - 1) + 1) by lia.
    change (N.pos p~0) with (2 * N.pos p). rewrite N.land_spec.
    destruct (N.zero_or_succ n) as [->|[k ->]].
    + by rewrite N.testbit_even_0.
    + rewrite N.testbit_odd_succ, N.testbit_even_succ by lia.
      rewrite <- N.land_spec, IH. f_equal. f_equal.
      destruct (N.eqb_spec k (N.of_nat (ctz p))); symmetry; [apply N.eqb_eq|apply N.eqb_neq]; lia.
  - cbn. rewrite N.bits_0. destruct (N.zero_or_succ n) as [->|[k ->]]; [done|].
    destruct k; done.
Qed.

Section segment.
Context {T : Type}.
Implicit Types (g : Segment T) (eq : T → bool).

(** ** The probe *)

Lemma mask_bits_spec fps fp i mask n :
  N.testbit (mask_bits fps fp i mask) (N.of_nat n) =
  N.testbit mask (N.of_nat n) || bool_decide (i ≤ n ∧ fps !! (n - i) = Some fp)%nat.
Proof.
  revert i mask. induction fps as [|f fps IH]; intros i mask; cbn [mask_bits].
  - rewrite bool_decide_eq_false_2; [by rewrite orb_false_r|]. intros [_ ?]. set_solver.
  - rewrite IH, N.lor_spec, <- orb_assoc. f_equal.
    destruct (decide (n = i)) as [->|Hne].
    + rewrite Nat.sub_diag, (bool_decide_eq_false_2 (S i ≤ i ∧ _)%nat) by lia.
      rewrite orb_false_r, N.shiftl_spec_high' by lia. rewrite N.sub_diag. cbn [lookup list_lookup].
      destruct (N.eqb_spec f fp) as [->|Hf]; symmetry.
      * apply bool_decide_eq_true_2. done.
      * apply bool_decide_eq_false_2. naive_solver.
    + assert (N.testbit (N.shiftl (if f =? fp then 1 else 0) (N.of_nat i)) (N.of_nat n) = false) as ->.
      { destruct (decide (n < i)%nat); [apply N.shiftl_spec_low; lia|].
        rewrite N.shiftl_spec_high' by lia.
        destruct (f =? fp); [|apply N.bits_0].
        replace (N.of_nat n - N.of_nat i) with (N.succ (N.of_nat (n - i - 1))) by lia.
        apply N.bits_above_log2. cbn. lia. }
      cbn [orb]. apply bool_decide_ext. split; intros [Hle Hl]; (split; [lia|]).
      * replace (n - i)%nat with (S (n - S i)) by lia. done.
      * replace (n - i)%nat with (S (n - S i)) in Hl by lia. done.
Qed.

(** The mask has the bit of a slot exactly when the slot is initialised and its
    fingerprint matches. *)
Lemma match_mask_spec g fp n : length (g_fps g) = SEGMENT_CAP → (g_len g ≤ SEGMENT_CAP)%nat →
  N.testbit (match_mask g fp) (N.of_nat n) = bool_decide (n < g_len g ∧ g_fps g !! n = Some fp)%nat.
Proof.
  intros Hf Hl. unfold match_mask.
  assert (N.testbit (mask_bits (g_fps g) fp 0 0) (N.of_nat n) = bool_decide (g_fps g !! n = Some fp)) as Hm.
  { rewrite mask_bits_spec, N.bits_0, Nat.sub_0_r. cbn [orb]. apply bool_decide_ext. naive_solver lia. }
  destruct (decide (g_len g < SEGMENT_CAP)%nat) as [Hc|Hc].
  - rewrite N.land_spec, Hm. rewrite N.shiftl_1_l, <- N.pred_sub, <- N.ones_equiv.
    destruct (decide (n < g_len g)%nat).
    + rewrite N.ones_spec_low by lia. rewrite andb_true_r. apply bool_decide_ext. naive_solver.
    + rewrite N.ones_spec_high by lia. rewrite andb_false_r. symmetry.
      apply bool_decide_eq_false_2. naive_solver.
  - rewrite Hm. apply bool_decide_ext. split; [|naive_solver]. intros Hn. split; [|done].
    apply lookup_lt_Some in Hn. lia.
Qed.

(** With every bit of the mask inside the initialised prefix and fuel for the
    bits left, the loop ends without reading past it. *)
Lemma probe_inline_spec fuel (items : list T) eq mask low :
  (∀ n, N.testbit mask (N.of_nat n) = true → low ≤ n < length items)%nat →
  (length items ≤ low + fuel)%nat →
  ∃ r, probe_inline fuel items eq mask = Some r ∧
    match r with
    | Some i => N.testbit mask (N.of_nat i) = true ∧ (∃ it, items !! i = Some it ∧ eq it = true) ∧
        ∀ j it, (j < i)%nat → N.testbit mask (N.of_nat j) = true → items !! j = Some it → eq it = false
    | None => ∀ j it, N.testbit mask (N.of_nat j) = true → items !! j = Some it → eq it = false
    end.
Proof.
  revert mask low. induction fuel as [|fuel IH]; intros mask low Hb Hf; cbn [probe_inline];
    case_decide as H0.
  - exists None. split; [done|]. intros j it. subst. by rewrite N.bits_0.
  - pose proof (Hb _ (trailing_zeros_bit _ H0)). lia.
  - exists None. split; [done|]. intros j it. subst. by rewrite N.bits_0.
  - pose proof (trailing_zeros_bit _ H0) as Htz. pose proof (Hb _ Htz) as Hr.
    set (i := trailing_zeros mask) in *.
    destruct (lookup_lt_is_Some_2 items i) as [it Hit]; [lia|].
    rewrite Hit. cbn [mbind option_bind].
    assert (∀ j, (j < i)%nat → N.testbit mask (N.of_nat j) = false) as Hlow.
    { intros j Hj. apply trailing_zeros_below; [done|]. fold i. lia. }
    destruct (eq it) eqn:He.
    + exists (Some i). split; [done|]. split; [done|]. split; [eauto|].
      intros j it' Hj Ht. rewrite Hlow in Ht by done. done.
    + destruct (IH (N.land mask (mask - 1)) (S i)) as (r & Hp & Hres).
      { intros n. rewrite clear_lowest by done. intros [Hn Hne]%andb_true_iff. fold i in Hne.
        destruct (decide (n < i)%nat); [rewrite Hlow in Hn by done; done|].
        apply negb_true_iff, N.eqb_neq in Hne. pose proof (Hb _ Hn). lia. }
      { lia. }
      exists r. split; [done|].
      assert (∀ j it', N.testbit mask (N.of_nat j) = true → items !! j = Some it' →
        j = i ∧ eq it' = false ∨ N.testbit (N.land mask (mask - 1)) (N.of_nat j) = true) as Hcase.
      { intros j it' Hj Hj'. destruct (decide (j = i)) as [->|Hne]; [left; naive_solver|right].
        rewrite clear_lowest, Hj by done. fold i. apply negb_true_iff, N.eqb_neq. lia. }
      destruct r as [k|].
      * destruct Hres as (Hk & Hex & Hall). rewrite clear_lowest in Hk by done.
        apply andb_true_iff in Hk as [Hk _]. split; [done|]. split; [done|].
        intros j it' Hj Ht Hl. destruct (Hcase _ _ Ht Hl) as [[_ ?]|?]; eauto.
      * intros j it' Ht Hl. destruct (Hcase _ _ Ht Hl) as [[_ ?]|?]; eauto.
Qed.

(** What the probe is to find: the first matching slot in order, then the first
    matching spilled record. *)
Definition scan (fp : N) eq (l : list (N * T)) : option nat :=
  fst <$> list_find (λ fi, fi.1 = fp ∧ eq fi.2 = true) l.

Definition locate_scan g fp eq : option Loc :=
  match scan fp eq (zip (g_fps g) (g_items g)) with
  | Some i => Some (Inline i)
  | None => Overflow <$> scan fp eq (spill g)
  end.

Lemma probe_spill_scan l fp eq i : probe_spill l fp eq i = Nat.add i <$> scan fp eq l.
Proof.
  unfold scan. revert i. induction l as [|[f it] l IH]; intros i; [done|].
  cbn [probe_spill list_find fst snd]. rewrite IH.
  destruct (decide (f = fp ∧ eq it = true)) as [[-> ->]|Hn].
  - rewrite N.eqb_refl. cbn. f_equal. lia.
  - replace ((f =? fp) && eq it) with false; [|destruct (N.eqb_spec f fp), (eq it); naive_solver].
    destruct (list_find _ l) as [[k x]|]; cbn; [f_equal; lia|done].
Qed.

Definition seg_shape g : Prop := length (g_fps g) = SEGMENT_CAP ∧ (g_len g ≤ SEGMENT_CAP)%nat.

Lemma zip_lookup g n f it : zip (g_fps g) (g_items g) !! n = Some (f, it) ↔
  g_fps g !! n = Some f ∧ g_items g !! n = Some it.
Proof. rewrite lookup_zip_with_Some. naive_solver. Qed.

Lemma probe_inline_scan g fp eq : seg_shape g →
  probe_inline SEGMENT_CAP (g_items g) eq (match_mask g fp) =
  Some (scan fp eq (zip (g_fps g) (g_items g))).
Proof.
  intros [Hf Hl].
  assert (∀ n, N.testbit (match_mask g fp) (N.of_nat n) = true ↔
    (n < g_len g)%nat ∧ g_fps g !! n = Some fp) as Hm.
  { intros n. rewrite match_mask_spec by done. apply bool_decide_eq_true. }
  destruct (probe_inline_spec SEGMENT_CAP (g_items g) eq (match_mask g fp) 0) as (r & -> & Hr).
  { intros n Hn. apply Hm in Hn. unfold g_len in Hn. lia. }
  { done. }
  f_equal. symmetry. unfold scan. destruct r as [i|].
  - destruct Hr as ([_ Hi]%Hm & (it & Hit & He) & Hall).
    assert (list_find (λ fi, fi.1 = fp ∧ eq fi.2 = true) (zip (g_fps g) (g_items g)) = Some (i, (fp, it)))
      as ->; [|done].
    apply list_find_Some. split; [by apply zip_lookup|]. split; [done|].
    intros j [f it'] [Hj Hj']%zip_lookup Hlt [Hfp He']. cbn in Hfp, He'. subst f.
    rewrite (Hall j it') in He'; [done..| |done]. apply Hm.
    apply lookup_lt_Some in Hj'. done.
  - assert (list_find (λ fi, fi.1 = fp ∧ eq fi.2 = true) (zip (g_fps g) (g_items g)) = None) as ->; [|done].
    apply list_find_None, Forall_lookup_2. intros j [f it] [Hj Hj']%zip_lookup [Hfp He]. cbn in Hfp, He. subst f.
    rewrite (Hr j it) in He; [done| |done]. apply Hm. apply lookup_lt_Some in Hj'. done.
Qed.

(** The two-phase probe is the in-order scan: on a segment of the right
    shape, whatever bytes its stale slots hold, [locate] finishes without reading
    an uninitialised slot and returns the first record whose fingerprint and
    comparison match. *)
Lemma locate_is_scan g fp eq : seg_shape g → locate g fp eq = Some (locate_scan g fp eq).
Proof.
  intros Hg. unfold locate, locate_scan. rewrite probe_inline_scan by done. cbn [mbind option_bind].
  destruct (scan fp eq (zip _ _)) as [i|]; [done|].
  rewrite probe_spill_scan. by destruct (scan fp eq (spill g)).
Qed.

(** ** The records of a segment *)

(** Every record with its fingerprint, as [drain_all] hands them out. *)
Definition recs g : list (N * T) := (drain_all g).1.

Lemma recs_iter g : seg_shape g → map snd (recs g) = seg_iter g.
Proof.
  intros [Hf Hl]. unfold recs, drain_all, seg_iter. cbn [fst]. rewrite map_app. f_equal.
  change (map snd) with (fmap (M:=list) (@snd N T)). apply snd_zip. unfold g_len in Hl. lia.
Qed.

Lemma recs_count g : seg_shape g → length (recs g) = count g.
Proof.
  intros Hg. rewrite <- (length_map snd), recs_iter by done.
  unfold seg_iter, count, g_len. by rewrite length_app, length_map.
Qed.

Lemma get_scan_spill fp eq l i : scan fp eq l = Some i →
  ∃ it, l !! i = Some (fp, it) ∧ eq it = true.
Proof.
  unfold scan. intros ([k [f it]] & (Hl & [Hf He] & _)%list_find_Some & ->)%fmap_Some_1.
  cbn in *. subst. eauto.
Qed.

Lemma scan_None fp eq l : scan fp eq l = None → Forall (λ fi, fi.1 = fp → eq fi.2 = false) l.
Proof.
  unfold scan. intros H%fmap_None%list_find_None. eapply Forall_impl; [done|].
  intros [f it] Hn <-. destruct (eq it) eqn:He; [|done]. destruct Hn. done.
Qed.

(** The record [locate] names is one the segment holds. *)
Lemma locate_hit g fp eq loc : seg_shape g → locate_scan g fp eq = Some loc →
  ∃ it, get g loc = Some it ∧ eq it = true ∧ (fp, it) ∈ recs g.
Proof.
  intros Hg. unfold locate_scan. destruct (scan fp eq (zip _ _)) as [i|] eqn:Hs.
  - intros [= <-]. apply get_scan_spill in Hs as (it & Hi & He). exists it.
    pose proof Hi as [_ Hit]%zip_lookup. cbn [get]. split; [done|]. split; [done|].
    unfold recs. cbn. apply elem_of_app. left. by eapply list_elem_of_lookup_2.
  - intros (i & Hi & ->)%fmap_Some_1. apply get_scan_spill in Hi as (it & Hi & He). exists it.
    cbn [get]. rewrite Hi. split; [done|]. split; [done|].
    unfold recs. cbn. apply elem_of_app. right. by eapply list_elem_of_lookup_2.
Qed.

Lemma locate_miss g fp eq : seg_shape g → locate_scan g fp eq = None →
  Forall (λ fi, fi.1 = fp → eq fi.2 = false) (recs g).
Proof.
  intros Hg. unfold locate_scan. destruct (scan fp eq (zip _ _)) as [i|] eqn:Hs; [done|].
  intros Hn%fmap_None. unfold recs. cbn. apply Forall_app. split; by apply scan_None.
Qed.

Lemma zip_snoc_insert (l : list N) (k : list T) (f : N) x : (length k < length l)%nat →
  zip (<[length k := f]> l) (k ++ [x]) = zip l k ++ [(f, x)].
Proof.
  revert l. induction k as [|y k IH]; intros [|z l] Hl; cbn in *; try lia; [by destruct l|].
  change (zip_with pair (<[length k:=f]> l) (k ++ [x])) with (zip (<[length k:=f]> l) (k ++ [x])).
  by rewrite IH by lia.
Qed.

Lemma push_recs g fp it : seg_shape g →
  seg_shape (push g fp it).2 ∧ recs (push g fp it).2 ≡ₚ (fp, it) :: recs g ∧
  g_local_depth (push g fp it).2 = g_local_depth g.
Proof.
  intros [Hf Hl]. unfold push. case_decide as Hc; unfold seg_shape, g_len, recs in *; cbn in *.
  - rewrite length_insert, length_app, zip_snoc_insert by lia. cbn. split; [lia|]. split; [|done].
    rewrite <- app_assoc. symmetry. apply Permutation_middle.
  - split; [lia|]. split; [|done]. rewrite app_assoc. symmetry. apply Permutation_cons_append.
Qed.

Lemma insert_perm {A} (l : list A) i x y : l !! i = Some x →
  ∃ rest, l ≡ₚ x :: rest ∧ <[i := y]> l ≡ₚ y :: rest.
Proof.
  intros Hi. exists (take i l ++ drop (S i) l). split.
  - rewrite <- (take_drop_middle l i x Hi) at 1. symmetry. apply Permutation_middle.
  - rewrite insert_take_drop by (by eapply lookup_lt_Some). symmetry. apply Permutation_middle.
Qed.

Lemma swap_remove_spec {A} (l : list A) i x : l !! i = Some x →
  ∃ y, last l = Some y ∧ swap_remove i l = Some (x, take (length l - 1) (<[i := y]> l)) ∧
    l ≡ₚ x :: take (length l - 1) (<[i := y]> l).
Proof.
  intros Hi. destruct (last l) as [y|] eqn:Hl.
  2:{ apply last_None in Hl. by subst. }
  exists y. split; [done|]. unfold swap_remove. rewrite Hi, Hl. split; [done|].
  apply last_Some in Hl as [l' ->]. rewrite length_app. cbn [length].
  replace (length l' + 1 - 1)%nat with (length l') by lia.
  destruct (decide (i < length l')%nat) as [Hlt|Hge].
  - rewrite insert_app_l, take_app_length' by (rewrite ?length_insert; lia).
    rewrite lookup_app_l in Hi by done. destruct (insert_perm l' i x y Hi) as (rest & H1 & H2).
    rewrite H2, H1. cbn. constructor. symmetry. apply Permutation_cons_append.
  - assert (i = length l') as ->.
    { apply lookup_lt_Some in Hi. rewrite length_app in Hi. cbn in Hi. lia. }
    rewrite list_lookup_middle in Hi by done. injection Hi as ->.
    rewrite insert_app_r_alt, take_app_length' by lia. symmetry. apply Permutation_cons_append.
Qed.

Lemma zip_take_r {A B} n (l : list A) (k : list B) : zip l (take n k) = take n (zip l k).
Proof. revert l k. induction n; intros [|x l] [|y k]; cbn; try done. f_equal. apply IHn. Qed.

(** Removing an inline record moves the last one and its fingerprint into the hole. *)
Lemma remove_inline g i it : seg_shape g → g_items g !! i = Some it →
  ∃ f g', remove_at g (Inline i) = Some (it, g') ∧ seg_shape g' ∧ recs g ≡ₚ (f, it) :: recs g' ∧
    g_local_depth g' = g_local_depth g.
Proof.
  intros [Hf Hl] Hi. unfold g_len in Hl. pose proof (lookup_lt_Some _ _ _ Hi) as Hlt.
  destruct (lookup_lt_is_Some_2 (g_fps g) i) as [f Hfi]; [lia|].
  destruct (lookup_lt_is_Some_2 (g_fps g) (length (g_items g) - 1)) as [fl Hfl]; [lia|].
  assert (zip (g_fps g) (g_items g) !! i = Some (f, it)) as Hz by by apply zip_lookup.
  destruct (swap_remove_spec _ _ _ Hi) as (y & Hy & Hsw & _).
  destruct (swap_remove_spec _ _ _ Hz) as (z & Hz1 & _ & Hp).
  assert (length (zip (g_fps g) (g_items g)) = length (g_items g)) as Hlz by (rewrite length_zip_with; lia).
  assert (z = (fl, y)) as ->.
  { rewrite last_lookup in Hz1. rewrite last_lookup in Hy. rewrite Hlz in Hz1.
    replace (Nat.pred (length (g_items g))) with (length (g_items g) - 1)%nat in * by lia.
    destruct z. apply zip_lookup in Hz1. naive_solver. }
  exists f, (mkSegment (<[i := fl]> (g_fps g)) (g_local_depth g)
    (take (length (g_items g) - 1) (<[i := y]> (g_items g))) (g_overflow g)).
  split; [|split; [|split; [|done]]].
  - cbn [remove_at]. rewrite Hsw. cbn [mbind option_bind]. unfold g_len. rewrite Hfl.
    case_decide as Hd; [|done]. cbn [mbind option_bind]. by rewrite (list_insert_id (g_fps g)) by congruence.
  - unfold seg_shape, g_len. cbn. rewrite length_take, !length_insert. lia.
  - unfold recs. cbn. rewrite zip_take_r.
    change (zip (<[i:=fl]> (g_fps g)) (<[i:=y]> (g_items g))) with
      (zip_with pair (<[i:=fl]> (g_fps g)) (<[i:=y]> (g_items g))).
    rewrite <- insert_zip_with, <- Hlz. by rewrite Hp at 1.
Qed.

Lemma remove_spilled g i f it : seg_shape g → spill g !! i = Some (f, it) →
  ∃ g', remove_at g (Overflow i) = Some (it, g') ∧ seg_shape g' ∧ recs g ≡ₚ (f, it) :: recs g' ∧
    g_local_depth g' = g_local_depth g.
Proof.
  intros Hg Hi. destruct (swap_remove_spec _ _ _ Hi) as (y & _ & Hsw & Hp).
  cbn [remove_at]. rewrite Hsw. cbn [mbind option_bind fst snd].
  eexists. split; [reflexivity|]. split; [done|]. split; [|done].
  unfold recs. cbn. rewrite Hp at 1. rewrite <- Permutation_middle. constructor. f_equiv.
  unfold spill. cbn. by case_decide as Hn; cbn; rewrite ?Hn.
Qed.

Lemma get_recs g loc it : get g loc = Some it → seg_shape g →
  ∃ f g', remove_at g loc = Some (it, g') ∧ seg_shape g' ∧ recs g ≡ₚ (f, it) :: recs g' ∧
    g_local_depth g' = g_local_depth g.
Proof.
  destruct loc as [i|i]; cbn [get]; intros Hi Hg; [by apply remove_inline|].
  apply fmap_Some_1 in Hi as ([f it'] & Hi & ->). exists f. by apply remove_spilled.
Qed.

(** Writing through a located record keeps the fingerprint and every other record. *)
Lemma put_at_recs g loc old it : seg_shape g → get g loc = Some old →
  ∃ f rest g', put_at g loc it = Some g' ∧ seg_shape g' ∧ recs g ≡ₚ (f, old) :: rest ∧
    recs g' ≡ₚ (f, it) :: rest ∧ g_local_depth g' = g_local_depth g.
Proof.
  intros [Hf Hl]. unfold g_len in Hl. destruct loc as [i|i]; cbn [get put_at].
  - intros Hi. destruct (lookup_lt_is_Some_2 (g_fps g) i) as [f Hfi]; [apply lookup_lt_Some in Hi; lia|].
    assert (zip (g_fps g) (g_items g) !! i = Some (f, old)) as Hz by by apply zip_lookup.
    destruct (insert_perm _ i _ (f, it) Hz) as (rest & H1 & H2).
    exists f, (rest ++ spill g). rewrite Hi. cbn [mbind option_bind]. eexists. split; [reflexivity|].
    unfold seg_shape, g_len, recs. cbn. rewrite length_insert. split; [done|].
    rewrite H1. split; [done|]. split; [|done].
    rewrite <- (list_insert_id _ _ _ Hfi) at 1.
    change (zip (<[i:=f]> (g_fps g)) (<[i:=it]> (g_items g))) with
      (zip_with pair (<[i:=f]> (g_fps g)) (<[i:=it]> (g_items g))).
    rewrite <- insert_zip_with. by rewrite H2.
  - intros ([f it'] & Hi & ->)%fmap_Some_1. destruct (insert_perm _ i _ (f, it) Hi) as (rest & H1 & H2).
    exists f, (zip (g_fps g) (g_items g) ++ rest). rewrite Hi. cbn [mbind option_bind].
    eexists. split; [reflexivity|]. split; [done|]. unfold recs, spill in *. cbn in *.
    split; [rewrite H1|split; [rewrite H2|done]]; symmetry; apply Permutation_middle.
Qed.

End segment.

(** The two-phase probe is the in-order scan. On a segment of the right
    shape, whatever its stale fingerprint bytes are, the bit-mask probe ends
    without touching an uninitialised slot and returns the first inline record,
    else the first spilled one, whose fingerprint and comparison match. *)
Theorem locate_correct {T} (g : Segment T) fp eq : seg_shape g → locate g fp eq = Some (locate_scan g fp eq).
Proof. apply locate_is_scan. Qed.

(** Three records, the first fingerprint repeated past the initialised prefix. *)
Definition demo_segment : Segment N :=
  mkSegment (9 :: 4 :: 9 :: replicate 61 9) 0 [10; 20; 30] (Some [(9, 40)]).

Lemma locate_correct_witness :
  seg_shape demo_segment ∧ locate demo_segment 9 (N.eqb 30) = Some (locate_scan demo_segment 9 (N.eqb 30)) ∧
  locate demo_segment 9 (N.eqb 40) = Some (Some (Overflow 0)).
Proof.
  split; [split; vm_compute; lia|].
  split; [apply (locate_correct demo_segment); split; vm_compute; lia|vm_compute; reflexivity].
Defined.
