(* ===== verification/DashDirectory.v ===== *)
(** * The directory of the dash index

    The extendible-hashing invariant: the directory has [2^global_depth]
    entries, the entries that name a segment are exactly those that share its
    [local_depth] top bits, and every segment is named. Doubling the directory
    and re-pointing the entries of a split segment preserve it. *)

From Stdlib Require Import Lia ZArith NArith.
From S2P Require Import Prelude Dash DashSegment.

#[local] Open Scope N_scope.

(** ** Bits *)

Lemma land_shiftr_1 a k : N.land (N.shiftr a k) 1 = N.b2n (N.testbit a k).
Proof.
  change 1 with (N.ones 1) at 1. rewrite N.land_ones, N.testbit_spec', N.shiftr_div_pow2. done.
Qed.

Lemma land_shiftr_1_iff a k : N.land (N.shiftr a k) 1 = 1 ↔ N.testbit a k = true.
Proof. rewrite land_shiftr_1. by destruct (N.testbit a k). Qed.

Lemma bit_from_top_testbit h n : bit_from_top h n = N.testbit h (64 - n).
Proof. unfold bit_from_top. rewrite land_shiftr_1. by destruct (N.testbit h (64 - n)). Qed.

(** Two prefixes agree when they agree but for the last bit, and in it. *)
Lemma shiftr_step a b k :
  N.shiftr a k = N.shiftr b k ↔
  N.shiftr a (k + 1) = N.shiftr b (k + 1) ∧ N.testbit a k = N.testbit b k.
Proof.
  split.
  - intros H. rewrite <- !N.shiftr_shiftr, H. split; [done|].
    by rewrite <- (N.add_0_l k), <- !N.shiftr_spec', H.
  - intros [H Hb]. apply N.bits_inj. intros n. rewrite !N.shiftr_spec'.
    destruct (N.zero_or_succ n) as [->|[m ->]]; [by rewrite N.add_0_l|].
    replace (N.succ m + k) with (m + (k + 1)) by lia. by rewrite <- !N.shiftr_spec', H.
Qed.

Section directory.
Context {T : Type}.
Implicit Types (d : DashIndex T) (g : Segment T).

Record dir_ok d : Prop := {
  do_len : N.of_nat (length (directory d)) = 2 ^ global_depth d;
  do_depth : global_depth d ≤ MAX_GLOBAL_DEPTH;
  do_entry : ∀ i s, directory d !! i = Some s → ∃ g, segments d !! N.to_nat s = Some g ∧
    g_local_depth g ≤ global_depth d ∧
    ∀ j, (j < length (directory d))%nat →
      directory d !! j = Some s ↔
      N.shiftr (N.of_nat j) (global_depth d - g_local_depth g) =
      N.shiftr (N.of_nat i) (global_depth d - g_local_depth g);
  do_named : ∀ si, (si < length (segments d))%nat → ∃ i, directory d !! i = Some (N.of_nat si)
}.

Lemma dir_index_shiftr d h : h < 2 ^ 64 → dir_index d h = N.to_nat (N.shiftr h (64 - global_depth d)).
Proof.
  intros Hh. unfold dir_index. case_decide as H0; [|done]. rewrite H0, N.shiftr_div_pow2, N.div_small; done.
Qed.

Lemma dir_index_lt d h : dir_ok d → h < 2 ^ 64 → (dir_index d h < length (directory d))%nat.
Proof.
  intros [Hl Hd _ _] Hh. rewrite dir_index_shiftr by done. unfold MAX_GLOBAL_DEPTH in Hd.
  enough (N.shiftr h (64 - global_depth d) < 2 ^ global_depth d) by lia.
  rewrite N.shiftr_div_pow2. apply N.Div0.div_lt_upper_bound. rewrite <- N.pow_add_r.
  by replace (64 - global_depth d + global_depth d) with 64 by lia.
Qed.

(** Every hash routes to a segment. *)
Lemma routed_total d h : dir_ok d → h < 2 ^ 64 →
  ∃ s g, directory d !! dir_index d h = Some s ∧ routed d h = Some (N.to_nat s) ∧
    segments d !! N.to_nat s = Some g.
Proof.
  intros Hok Hh. destruct (lookup_lt_is_Some_2 _ _ (dir_index_lt d h Hok Hh)) as [s Hs].
  destruct (do_entry _ Hok _ _ Hs) as (g & Hg & _). exists s, g. unfold routed. by rewrite Hs.
Qed.

(** Every segment is named by some entry, so there are no more of them than entries. *)
Lemma segments_le_directory d : dir_ok d → (length (segments d) ≤ length (directory d))%nat.
Proof.
  intros Hok.
  assert (length (N.of_nat <$> seq 0 (length (segments d))) = length (segments d)) as <-
    by by rewrite length_fmap, length_seq.
  apply submseteq_length, NoDup_submseteq.
  - apply NoDup_fmap_2; [intros ???; lia|apply NoDup_seq].
  - intros s (si & -> & Hsi)%list_elem_of_fmap. apply elem_of_seq in Hsi.
    destruct (do_named _ Hok si) as [i Hi]; [lia|]. by eapply list_elem_of_lookup_2.
Qed.

Lemma directory_bound d : dir_ok d → N.of_nat (length (directory d)) ≤ 2 ^ MAX_GLOBAL_DEPTH.
Proof. intros [-> Hd _ _]. by apply N.pow_le_mono_r. Qed.

(** ** Doubling *)

Lemma shiftr_1_nat i : N.to_nat (N.shiftr (N.of_nat i) 1) = (i / 2)%nat.
Proof.
  rewrite N.shiftr_div_pow2. change (2 ^ 1) with (N.of_nat 2). rewrite <- Nat2N.inj_div. lia.
Qed.

Lemma double_directory_spec d :
  ∃ next, double_directory d = Some (mkDash (global_depth d + 1) next (segments d) (d_len d)) ∧
    length next = (length (directory d) * 2)%nat ∧
    ∀ j, (j < length (directory d) * 2)%nat → next !! j = directory d !! (j / 2)%nat.
Proof.
  unfold double_directory. set (f := λ i, directory d !! N.to_nat (N.shiftr (N.of_nat i) 1)).
  destruct (mapM_is_Some_2 f (seq 0 (length (directory d) * 2))) as [next Hn].
  { apply Forall_seq. intros j Hj. unfold f, compose. rewrite shiftr_1_nat. apply lookup_lt_is_Some_2.
    apply Nat.Div0.div_lt_upper_bound. lia. }
  exists next. rewrite Hn. split; [done|]. apply mapM_Some_1 in Hn.
  split; [apply Forall2_length in Hn; rewrite length_seq in Hn; lia|].
  intros j Hj. destruct (Forall2_lookup_l _ _ _ j j Hn) as (s & -> & Hs).
  { apply lookup_seq. lia. }
  unfold f in Hs. by rewrite shiftr_1_nat in Hs.
Qed.

Lemma shiftr_half j k : N.shiftr (N.of_nat (j / 2)) k = N.shiftr (N.of_nat j) (1 + k).
Proof. rewrite <- N.shiftr_shiftr. f_equal. rewrite <- shiftr_1_nat. lia. Qed.

(** Doubling keeps the invariant and where every hash routes. *)
Lemma double_directory_ok d : dir_ok d → global_depth d < MAX_GLOBAL_DEPTH →
  ∃ d', double_directory d = Some d' ∧ dir_ok d' ∧ global_depth d' = global_depth d + 1 ∧
    segments d' = segments d ∧ d_len d' = d_len d ∧
    ∀ h, h < 2 ^ 64 → routed d' h = routed d h.
Proof.
  intros Hok Hlt. pose proof Hok as [Hl Hd He Hn].
  destruct (double_directory_spec d) as (next & -> & Hlen & Hnext). eexists. split; [done|]. cbn.
  split; [|do 3 (split; [done|])].
  - split; cbn.
    + rewrite Hlen, N.add_1_r, N.pow_succ_r'. lia.
    + lia.
    + intros i s Hi. pose proof (lookup_lt_Some _ _ _ Hi) as Hil. rewrite Hlen in Hil.
      rewrite Hnext in Hi by done. destruct (He _ _ Hi) as (g & Hg & Hld & Hall).
      exists g. split; [done|]. split; [lia|]. intros j Hj. rewrite Hlen in Hj.
      rewrite Hnext by done. rewrite Hall by (apply Nat.Div0.div_lt_upper_bound; lia).
      rewrite !shiftr_half.
      by replace (1 + (global_depth d - g_local_depth g)) with (global_depth d + 1 - g_local_depth g) by lia.
    + intros si Hsi. destruct (Hn si Hsi) as [i Hi]. exists (2 * i)%nat.
      pose proof (lookup_lt_Some _ _ _ Hi). rewrite Hnext by lia.
      by rewrite Nat.mul_comm, Nat.div_mul by lia.
  - intros h Hh. unfold routed. cbn. f_equal.
    pose proof (dir_index_lt d h Hok Hh) as Hdi. rewrite dir_index_shiftr in Hdi by done.
    rewrite !dir_index_shiftr by done. cbn. unfold MAX_GLOBAL_DEPTH in Hlt.
    assert (N.shiftr h (64 - global_depth d) = N.shiftr (N.shiftr h (64 - (global_depth d + 1))) 1) as Heq.
    { rewrite N.shiftr_shiftr. f_equal. lia. }
    rewrite Heq in *. rewrite <- (N2Nat.id (N.shiftr h (64 - (global_depth d + 1)))), shiftr_1_nat in *.
    rewrite Nat2N.id in *. apply Hnext.
    pose proof (Nat.div_mod_eq (N.to_nat (N.shiftr h (64 - (global_depth d + 1)))) 2).
    pose proof (Nat.mod_upper_bound (N.to_nat (N.shiftr h (64 - (global_depth d + 1)))) 2). lia.
Qed.

(** ** Re-pointing *)

Lemma repoint_lookup shift s b dir j :
  repoint shift s b dir !! j =
  (λ e, if decide (e = s ∧ N.testbit (N.of_nat j) shift = true) then b else e) <$> dir !! j.
Proof.
  unfold repoint. rewrite list_lookup_imap. destruct (dir !! j) as [e|]; [|done]. cbn. f_equal.
  apply decide_ext. by rewrite land_shiftr_1_iff.
Qed.

(** An index with one bit of its prefix set as wanted. *)
Lemma with_bit i G k (v : bool) : N.of_nat i < 2 ^ G → k < G →
  ∃ j, N.of_nat j < 2 ^ G ∧ N.shiftr (N.of_nat j) (k + 1) = N.shiftr (N.of_nat i) (k + 1) ∧
    N.testbit (N.of_nat j) k = v.
Proof.
  intros Hi Hk.
  set (x := if v then N.setbit (N.of_nat i) k else N.clearbit (N.of_nat i) k).
  assert (∀ n, N.testbit x n = if n =? k then v else N.testbit (N.of_nat i) n) as Hx.
  { intros n. unfold x. destruct v.
    - rewrite N.setbit_eqb, (N.eqb_sym k n). by destruct (n =? k).
    - rewrite N.clearbit_eqb, (N.eqb_sym k n). destruct (n =? k), (N.testbit (N.of_nat i) n); done. }
  exists (N.to_nat x). rewrite N2Nat.id. split; [|split].
  - destruct (decide (x < 2 ^ G)) as [|Hge]; [done|exfalso].
    assert (x ≠ 0) as H0. { intros H0. apply Hge. rewrite H0. lia. }
    pose proof (N.bit_log2 x H0) as Hb. rewrite Hx in Hb.
    assert (G ≤ N.log2 x) by (apply N.log2_le_pow2; lia).
    rewrite (proj2 (N.eqb_neq _ _)) in Hb by lia.
    rewrite N.testbit_eqb, N.div_small in Hb; [done|].
    eapply N.lt_le_trans; [done|]. by apply N.pow_le_mono_r.
  - apply N.bits_inj. intros n. rewrite !N.shiftr_spec', Hx. rewrite (proj2 (N.eqb_neq _ _)) by lia. done.
  - by rewrite Hx, N.eqb_refl.
Qed.

Section repoint.
Context (d : DashIndex T) (i0 : nat) (s : N) (g : Segment T) (segs : list (Segment T)).
Context (Hok : dir_ok d) (Hi0 : directory d !! i0 = Some s).
Context (Hg : segments d !! N.to_nat s = Some g) (Hroom : g_local_depth g < global_depth d).
(** The segments after the records moved: the split one and its buddy one bit
    deeper, the others as they were. *)
Context (Hlen : length segs = S (length (segments d))).
Context (Hdeep : ∀ si g', segs !! si = Some g' → si = N.to_nat s ∨ si = length (segments d) →
  g_local_depth g' = g_local_depth g + 1).
Context (Hrest : ∀ si, si ≠ N.to_nat s → (si < length (segments d))%nat → segs !! si = segments d !! si).

Let k := global_depth d - (g_local_depth g + 1).
Let b := N.of_nat (length (segments d)).
Let dir' := repoint k s b (directory d).

Lemma old_in_range j e : directory d !! j = Some e → (N.to_nat e < length (segments d))%nat.
Proof. intros Hj. destruct (do_entry _ Hok _ _ Hj) as (g' & Hg' & _). by eapply lookup_lt_Some. Qed.

Lemma same_segment i j : directory d !! i = Some s → (j < length (directory d))%nat →
  directory d !! j = Some s ↔ N.shiftr (N.of_nat j) (k + 1) = N.shiftr (N.of_nat i) (k + 1).
Proof.
  intros Hi Hj. destruct (do_entry _ Hok _ _ Hi) as (g' & Hg' & _ & Hall).
  rewrite Hg in Hg'. injection Hg' as <-. rewrite Hall by done.
  unfold k. by replace (global_depth d - (g_local_depth g + 1) + 1) with (global_depth d - g_local_depth g) by lia.
Qed.

(** The entries of the two halves are those of the old segment, by the new bit. *)
Lemma repoint_half j (v : bool) :
  dir' !! j = Some (if v then b else s) ↔ directory d !! j = Some s ∧ N.testbit (N.of_nat j) k = v.
Proof.
  unfold dir'. rewrite repoint_lookup. pose proof (old_in_range _ _ Hi0) as Hs.
  destruct (directory d !! j) as [e|] eqn:He; [|naive_solver]. apply old_in_range in He. cbn.
  unfold b in *. case_decide as Hc; destruct v, (N.testbit (N.of_nat j) k); naive_solver lia.
Qed.

Lemma repoint_other j e : e ≠ s → e ≠ b → dir' !! j = Some e ↔ directory d !! j = Some e.
Proof.
  intros H1 H2. unfold dir'. rewrite repoint_lookup.
  destruct (directory d !! j) as [e'|]; [|done]. cbn. case_decide; naive_solver.
Qed.

Lemma repoint_half_ok i (v : bool) : directory d !! i = Some s → N.testbit (N.of_nat i) k = v →
  ∃ g', segs !! N.to_nat (if v then b else s) = Some g' ∧ g_local_depth g' ≤ global_depth d ∧
    ∀ j, (j < length (directory d))%nat → dir' !! j = Some (if v then b else s) ↔
      N.shiftr (N.of_nat j) (global_depth d - g_local_depth g') =
      N.shiftr (N.of_nat i) (global_depth d - g_local_depth g').
Proof.
  intros Hi Hv. pose proof (old_in_range _ _ Hi) as Hs.
  destruct (lookup_lt_is_Some_2 segs (N.to_nat (if v then b else s))) as [g' Hg'].
  { rewrite Hlen. unfold b. destruct v; lia. }
  exists g'. split; [done|]. rewrite (Hdeep _ _ Hg').
  2:{ unfold b. destruct v; [right|left]; lia. }
  split; [lia|]. intros j Hj. fold k. rewrite repoint_half, (same_segment i) by done.
  by rewrite (shiftr_step _ _ k), Hv.
Qed.

Lemma repoint_ok : dir_ok (mkDash (global_depth d) dir' segs (d_len d)).
Proof.
  assert (length dir' = length (directory d)) as Hl by apply length_imap.
  pose proof (old_in_range _ _ Hi0) as Hs.
  assert (N.of_nat i0 < 2 ^ global_depth d) as Hlt.
  { rewrite <- (do_len _ Hok). apply lookup_lt_Some in Hi0. lia. }
  split; cbn; rewrite ?Hl; [apply Hok|apply Hok| |].
  - intros i e Hi. pose proof Hi as Hi'. unfold dir' in Hi. rewrite repoint_lookup in Hi.
    destruct (directory d !! i) as [e'|] eqn:He; [|done]. injection Hi as Hi.
    destruct (decide (e' = s)) as [->|Hne].
    + destruct (repoint_half_ok i _ He eq_refl) as (g' & H1 & H2 & H3).
      assert (e = if N.testbit (N.of_nat i) k then b else s) as ->; [|by exists g'].
      case_decide; destruct (N.testbit (N.of_nat i) k); naive_solver.
    + rewrite decide_False in Hi by naive_solver. subst e'. pose proof (old_in_range _ _ He).
      destruct (do_entry _ Hok _ _ He) as (g' & Hg' & Hd & Hall). exists g'.
      rewrite Hrest by lia. split; [done|]. split; [done|]. intros j Hj.
      rewrite repoint_other by (unfold b; lia || done). by apply Hall.
  - intros si Hsi. rewrite Hlen in Hsi.
    assert (∀ v, ∃ i, dir' !! i = Some (if v : bool then b else s)) as Hhalf.
    { intros v. destruct (with_bit i0 (global_depth d) k v Hlt) as (j & Hj & Hsh & Hb); [unfold k; lia|].
      exists j. apply repoint_half. split; [|done]. apply (same_segment i0); [done| |done].
      rewrite <- (do_len _ Hok) in Hj. lia. }
    destruct (decide (si = length (segments d))) as [->|]; [apply (Hhalf true)|].
    destruct (decide (si = N.to_nat s)) as [->|]; [rewrite N2Nat.id; apply (Hhalf false)|].
    destruct (do_named _ Hok si) as [i Hi]; [lia|]. exists i. apply repoint_other; [lia|unfold b; lia|done].
Qed.

(** Where a hash routes after the split: by its next bit if it routed to the split
    segment, as before otherwise. *)
Lemma repoint_routed h len : h < 2 ^ 64 →
  routed (mkDash (global_depth d) dir' segs len) h =
  if decide (routed d h = Some (N.to_nat s))
  then Some (if bit_from_top h (g_local_depth g + 1) then length (segments d) else N.to_nat s)
  else routed d h.
Proof.
  intros Hh. unfold routed. cbn. change (dir_index (mkDash _ _ _ _) h) with (dir_index d h).
  unfold dir'. rewrite repoint_lookup.
  destruct (lookup_lt_is_Some_2 _ _ (dir_index_lt d h Hok Hh)) as [e He]. rewrite He. cbn.
  assert (N.testbit (N.of_nat (dir_index d h)) k = bit_from_top h (g_local_depth g + 1)) as ->.
  { rewrite bit_from_top_testbit, dir_index_shiftr, N2Nat.id, N.shiftr_spec' by done.
    f_equal. unfold k. pose proof (do_depth _ Hok). unfold MAX_GLOBAL_DEPTH in *. lia. }
  unfold b. case_decide as H1; case_decide as H2; destruct (bit_from_top _ _);
    first [f_equal; lia | naive_solver lia].
Qed.

End repoint.
End directory.
