(* ===== verification/DashProofs.v ===== *)
(** * The dash index is a finite map

    Splitting moves no record out of the index and keeps every record where its
    hash routes; so lookup, upsert, removal and pre-sizing implement the
    operations of a finite map from keys to records, and never panic. *)

From Stdlib Require Import Lia ZArith NArith.
From S2P Require Import Prelude Dash DashSegment DashDirectory.

#[local] Open Scope N_scope.

Section index.
Context {T : Type} (hasher : T → N).
Context (hasher_u64 : ∀ it, hasher it < 2 ^ 64).
Implicit Types (d : DashIndex T) (g : Segment T).

Definition all_recs d : list (N * T) := flat_map recs (segments d).

(** A record sits under its fingerprint in the segment its hash routes to. *)
Definition homed d (si : nat) (fi : N * T) : Prop :=
  fi.1 = fingerprint (hasher fi.2) ∧ routed d (hasher fi.2) = Some si.

Record dash_ok d : Prop := {
  ok_dir : dir_ok d;
  ok_shape : ∀ si g, segments d !! si = Some g → seg_shape g;
  ok_home : ∀ si g fi, segments d !! si = Some g → fi ∈ recs g → homed d si fi;
  ok_len : d_len d = N.of_nat (length (all_recs d));
  ok_u64 : d_len d ≤ U64_MAX
}.

(** The empty table allocates nothing: no directory and no segment. *)
Definition dash_inv d : Prop := d = dash_new ∨ dash_ok d.

Lemma all_recs_iter d : (∀ si g, segments d !! si = Some g → seg_shape g) → map snd (all_recs d) = iter d.
Proof.
  unfold all_recs, iter. generalize (segments d). intros l. induction l as [|g l IH]; intros Hs; [done|].
  cbn [flat_map]. rewrite map_app, recs_iter by apply (Hs 0%nat _ eq_refl).
  rewrite IH; [done|]. intros si g' H. by apply (Hs (S si)).
Qed.

(** Replacing a segment exchanges its records. *)
Lemma recs_replace (l : list (Segment T)) i g g' : l !! i = Some g →
  recs g ++ flat_map recs (<[i := g']> l) ≡ₚ recs g' ++ flat_map recs l.
Proof.
  revert i. induction l as [|x l IH]; intros [|i] Hi; cbn in Hi; try done.
  - injection Hi as ->. apply Permutation_app_swap_app.
  - cbn. rewrite (Permutation_app_swap_app (recs g)), (Permutation_app_swap_app (recs g')).
    apply Permutation_app_head. by apply IH.
Qed.

Lemma recs_push (l : list (Segment T)) i g fp it : l !! i = Some g → seg_shape g →
  flat_map recs (<[i := (push g fp it).2]> l) ≡ₚ (fp, it) :: flat_map recs l.
Proof.
  intros Hi Hg. apply (Permutation_app_inv_l (recs g)). rewrite (recs_replace l i g) by done.
  destruct (push_recs g fp it Hg) as (_ & -> & _). cbn. by rewrite <- Permutation_middle.
Qed.

(** ** Splitting *)

(** The two halves of a split by the bit that selects them: what re-placing the
    records [l] does to them. *)
Record replaced (n : N) (l : list (N * T)) (half : bool → nat) (gs : bool → Segment T) d d' : Prop := {
  rp_depth : global_depth d' = global_depth d;
  rp_dir : directory d' = directory d;
  rp_len : d_len d' = d_len d + N.of_nat (length l);
  rp_segs : length (segments d') = length (segments d);
  rp_rest : ∀ j, (∀ v, j ≠ half v) → segments d' !! j = segments d !! j;
  rp_half : ∀ v, ∃ g, segments d' !! half v = Some g ∧ seg_shape g ∧
    g_local_depth g = g_local_depth (gs v) ∧
    ∀ fi, fi ∈ recs g → fi ∈ recs (gs v) ∨ fi ∈ l ∧ bit_from_top (hasher fi.2) n = v;
  rp_all : all_recs d' ≡ₚ l ++ all_recs d
}.

Lemma repartition_spec n l (half : bool → nat) d (gs : bool → Segment T) :
  half false ≠ half true → (∀ v, segments d !! half v = Some (gs v)) → (∀ v, seg_shape (gs v)) →
  d_len d + N.of_nat (length l) ≤ U64_MAX →
  ∃ d', repartition hasher n l (half false) (half true) d = Some d' ∧ replaced n l half gs d d'.
Proof.
  intros Hne. revert d gs. induction l as [|[fp it] l IH]; intros d gs Hs Hsh Hlen.
  - exists d. split; [done|]. split; try done; [cbn; lia|]. eauto 10.
  - cbn [repartition length] in *. rewrite Nat2N.inj_succ in *.
    set (w := bit_from_top (hasher it) n).
    replace (if w then half true else half false) with (half w) by by destruct w.
    rewrite Hs. cbn [mbind option_bind]. rewrite add64_small by lia. cbn [mbind option_bind].
    destruct (push_recs (gs w) fp it (Hsh w)) as (Hsh' & Hp & Hld).
    pose proof (lookup_lt_Some _ _ _ (Hs w)) as Hwl.
    set (gs1 := λ v, if decide (v = w) then (push (gs w) fp it).2 else gs v).
    destruct (IH (set_len (d_len d + 1) (set_segment (half w) (push (gs w) fp it).2 d)) gs1)
      as (d' & -> & [E1 E2 E3 E4 E5 E6 E7]);
      cbn [segments set_len set_segment d_len directory global_depth] in *.
    { intros v. unfold gs1. case_decide as Hv; [subst v; by apply list_lookup_insert_eq|].
      rewrite list_lookup_insert_ne; [apply Hs|]. destruct v, w; congruence. }
    { intros v. unfold gs1. by case_decide. }
    { lia. }
    exists d'. split; [done|]. rewrite length_insert in E4. split; try done; [cbn; lia| | |].
    + intros j Hj. rewrite E5 by done. by apply list_lookup_insert_ne.
    + intros v. destruct (E6 v) as (g & Hg & Hgs & Hgl & Hin). exists g. do 2 (split; [done|]).
      unfold gs1 in Hgl, Hin. case_decide as Hv; [subst v|]; (split; [congruence|]); intros fi Hfi;
        destruct (Hin fi Hfi) as [Hr|[??]]; try (by right; split; [apply elem_of_cons; right|]); [|by left].
      rewrite Hp in Hr. apply elem_of_cons in Hr as [->|?]; [right; split; [left|done]|by left].
    + rewrite E7. unfold all_recs at 1. cbn [segments set_len set_segment]. rewrite recs_push by done. symmetry. apply Permutation_middle.
Qed.

Lemma recs_nil_app (l : list (Segment T)) n : flat_map recs (l ++ [segment_new n]) = flat_map recs l.
Proof. rewrite flat_map_app. cbn. by rewrite app_nil_r. Qed.

Lemma recs_emptied (g : Segment T) n : recs (T:=T) (mkSegment (g_fps g) n [] None) = [].
Proof. unfold recs. cbn. by destruct (g_fps g). Qed.

Lemma recs_le_all d i g : segments d !! i = Some g → (length (recs g) ≤ length (all_recs d))%nat.
Proof.
  intros Hi. pose proof (recs_replace _ _ _ (mkSegment (g_fps g) 0 [] None) Hi) as Hp.
  apply Permutation_length in Hp. rewrite recs_emptied, !length_app in Hp. cbn [length] in Hp.
  unfold all_recs. lia.
Qed.

Section split.
Context (d : DashIndex T) (i : nat) (s : N) (g : Segment T).
Context (Hok : dash_ok d) (Hi : directory d !! i = Some s) (Hg : segments d !! N.to_nat s = Some g).
Context (Hroom : g_local_depth g < global_depth d).

Let n := g_local_depth g + 1.
Let half (v : bool) : nat := if v then length (segments d) else N.to_nat s.
Let halves (v : bool) : Segment T := if v then segment_new n else mkSegment (g_fps g) n [] None.
Let segs0 := <[N.to_nat s := halves false]> (segments d ++ [segment_new n]).
Let d0 := mkDash (global_depth d) (directory d) segs0 (d_len d - N.of_nat (length (recs g))).

Lemma seg_lt : (N.to_nat s < length (segments d))%nat.
Proof. by eapply lookup_lt_Some. Qed.

Lemma halves_empty v : recs (halves v) = [] ∧ seg_shape (halves v) ∧ g_local_depth (halves v) = n.
Proof.
  destruct (ok_shape _ Hok _ _ Hg) as [Hf Hl].
  unfold halves, seg_shape, g_len, SEGMENT_CAP in *. destruct v.
  - split; [done|]. cbn. split; [lia|done].
  - split; [apply recs_emptied|]. cbn. split; [lia|done].
Qed.

Lemma segs0_half v : segs0 !! half v = Some (halves v).
Proof.
  pose proof seg_lt. unfold segs0, half. destruct v.
  - rewrite list_lookup_insert_ne by lia. by apply list_lookup_middle.
  - apply list_lookup_insert_eq. rewrite length_app. cbn. lia.
Qed.

Lemma segs0_rest j : (∀ v, j ≠ half v) → segs0 !! j = segments d !! j.
Proof.
  intros Hj. pose proof (Hj true) as H1. pose proof (Hj false) as H2. cbn in H1, H2. unfold segs0.
  rewrite list_lookup_insert_ne by done. destruct (decide (j < length (segments d))%nat).
  - by apply lookup_app_l.
  - rewrite !lookup_ge_None_2; [done|lia|]. rewrite length_app. cbn. lia.
Qed.

Lemma d0_all : recs g ++ all_recs d0 ≡ₚ all_recs d.
Proof.
  unfold all_recs, d0, segs0. cbn [segments]. pose proof seg_lt.
  rewrite (recs_replace _ _ g); [|by rewrite lookup_app_l].
  destruct (halves_empty false) as [-> _]. by rewrite recs_nil_app.
Qed.

Lemma split_runs : ∃ d1, replaced n (recs g) half halves d0 d1 ∧
  split i hasher d = Some (mkDash (global_depth d)
    (repoint (global_depth d - n) s (N.of_nat (length (segments d))) (directory d))
    (segments d1) (d_len d1)).
Proof.
  pose proof (recs_le_all _ _ _ Hg) as Hle. pose proof (ok_len _ Hok) as Hlen.
  pose proof (ok_u64 _ Hok) as Hu. pose proof seg_lt.
  destruct (repartition_spec n (recs g) half d0 halves) as (d1 & Hrun & Hrep).
  { unfold half. lia. }
  { apply segs0_half. }
  { intros v. apply halves_empty. }
  { cbn [d_len d0]. lia. }
  exists d1. split; [done|]. unfold split. rewrite Hi. cbn [mbind option_bind]. rewrite Hg.
  cbn [mbind option_bind]. rewrite decide_False by lia. cbn [mbind option_bind drain_all].
  change (zip (g_fps g) (g_items g) ++ spill g) with (recs g).
  rewrite sub64_small by lia. cbn [mbind option_bind].
  match goal with |- context [repartition ?h ?a ?b ?c ?e ?f] =>
    change (repartition h a b c e f) with (repartition hasher n (recs g) (half false) (half true) d0) end.
  rewrite Hrun. cbn [mbind option_bind].
  destruct Hrep as [E1 E2 _ _ _ _ _]. rewrite E1, E2. cbn [d0 global_depth directory].
  rewrite sub64_small by lia. cbn [mbind option_bind]. do 3 f_equal.
  apply N.mod_small. pose proof (segments_le_directory _ (ok_dir _ Hok)).
  pose proof (directory_bound _ (ok_dir _ Hok)) as Hb.
  change (2 ^ MAX_GLOBAL_DEPTH) with 1048576 in Hb. change (2 ^ 32) with 4294967296. lia.
Qed.

(** A split below the depth of the directory keeps the invariant and every record. *)
Lemma split_below : ∃ d', split i hasher d = Some d' ∧ dash_ok d' ∧ all_recs d' ≡ₚ all_recs d ∧
  global_depth d' = global_depth d.
Proof.
  destruct split_runs as (d1 & [E1 E2 E3 E4 E5 E6 E7] & ->). pose proof seg_lt as Hs.
  eexists. split; [reflexivity|].
  assert (all_recs d1 ≡ₚ all_recs d) as Hall by by rewrite E7, d0_all.
  pose proof (recs_le_all _ _ _ Hg) as Hle. pose proof (ok_len _ Hok) as Hlen.
  assert (d_len d1 = d_len d) as Hl by (rewrite E3; cbn [d0 d_len]; lia).
  assert (length (segments d1) = S (length (segments d))) as Hsl.
  { rewrite E4. cbn [d0 segments]. unfold segs0. rewrite length_insert, length_app. cbn. lia. }
  assert (∀ si, (∃ v, si = half v) ∨ segments d1 !! si = segments d !! si ∧ si ≠ N.to_nat s) as Hcase.
  { intros si. destruct (decide (si = half true)) as [->|]; [by left; exists true|].
    destruct (decide (si = half false)) as [->|]; [by left; exists false|]. right.
    split; [|done]. rewrite E5; [apply segs0_rest|]; by intros []. }
  pose proof (repoint_routed d s g (segments d1) (ok_dir _ Hok) Hroom Hsl) as Hrt.
  split; [|done]. split; cbn [segments d_len].
  - rewrite Hl. apply (repoint_ok d i s g); try done; [apply Hok| |].
    + intros si g' Hg' Hsi.
      assert (∃ v, si = half v) as [v ->] by (destruct Hsi; [by exists false|by exists true]).
      destruct (E6 v) as (g2 & Hg2 & _ & Hd & _). rewrite Hg' in Hg2. injection Hg2 as <-.
      rewrite Hd. apply halves_empty.
    + intros si Hne Hlt. destruct (Hcase si) as [[[] ->]|[]]; cbn in *; [lia|done|done].
  - intros si g' Hg'. destruct (Hcase si) as [[v ->]|[Heq _]].
    + destruct (E6 v) as (g2 & Hg2 & Hsh & _). by simplify_eq.
    + rewrite Heq in Hg'. by eapply ok_shape.
  - intros si g' fi Hg' Hfi. unfold homed. rewrite Hrt by apply hasher_u64.
    destruct (Hcase si) as [[v ->]|[Heq Hne]].
    + destruct (E6 v) as (g2 & Hg2 & _ & _ & Hin). rewrite Hg' in Hg2. injection Hg2 as <-.
      destruct (Hin fi Hfi) as [Hr|[Hr Hb]].
      { rewrite (proj1 (halves_empty v)) in Hr. by apply elem_of_nil in Hr. }
      destruct (ok_home _ Hok _ _ _ Hg Hr) as [Hf Hrd]. split; [done|].
      rewrite decide_True by done. unfold n in Hb. by rewrite Hb.
    + rewrite Heq in Hg'. destruct (ok_home _ Hok _ _ _ Hg' Hfi) as [Hf Hrd]. split; [done|].
      rewrite decide_False; [done|]. rewrite Hrd. congruence.
  - rewrite Hl, Hlen. f_equal. symmetry. by apply Permutation_length.
  - rewrite Hl. apply Hok.
Qed.

End split.

Lemma double_ok d : dash_ok d → global_depth d < MAX_GLOBAL_DEPTH →
  ∃ d', double_directory d = Some d' ∧ dash_ok d' ∧ segments d' = segments d ∧
    global_depth d' = global_depth d + 1.
Proof.
  intros [Hdir Hshape Hhome Hlen Hu] Hlt.
  destruct (double_directory_ok d Hdir Hlt) as (d' & -> & Hdir' & Hgd & Hsegs & Hl & Hrt).
  exists d'. split; [done|]. split; [|done]. unfold all_recs in Hlen.
  split; unfold all_recs; rewrite ?Hsegs, ?Hl; try done.
  intros si g fi Hg Hfi. destruct (Hhome _ _ _ Hg Hfi) as [Hf Hr]. split; [done|].
  by rewrite Hrt by apply hasher_u64.
Qed.

(** Splitting a segment the depth cap allows to split. *)
Lemma split_ok d i s g : dash_ok d → directory d !! i = Some s → segments d !! N.to_nat s = Some g →
  ¬ (g_local_depth g = global_depth d ∧ MAX_GLOBAL_DEPTH ≤ global_depth d) →
  ∃ d', split i hasher d = Some d' ∧ dash_ok d' ∧ all_recs d' ≡ₚ all_recs d.
Proof.
  intros Hok Hi Hg Hcap. destruct (do_entry _ (ok_dir _ Hok) _ _ Hi) as (g' & Hg' & Hle & _).
  rewrite Hg in Hg'. injection Hg' as <-.
  destruct (decide (g_local_depth g = global_depth d)) as [Heq|Hne].
  - destruct (double_ok d Hok) as (d' & Hd & Hok' & Hsegs & Hgd); [lia|].
    destruct (do_named _ (ok_dir _ Hok') (N.to_nat s)) as [i' Hi'].
    { rewrite Hsegs. by eapply lookup_lt_Some. }
    rewrite N2Nat.id in Hi'.
    destruct (split_below d' i' s g) as (d2 & Hs & Hok2 & Hp & _); [done|done|by rewrite Hsegs|lia|].
    exists d2. split; [|split; [done|by rewrite Hp; unfold all_recs; rewrite Hsegs]].
    rewrite <- Hs. unfold split. rewrite Hi, Hi'. cbn [mbind option_bind].
    rewrite Hsegs, Hg. cbn [mbind option_bind]. rewrite (decide_True (P := _ = global_depth d)) by done.
    rewrite Hd. rewrite decide_False by lia. done.
  - destruct (split_below d i s g) as (d2 & Hs & Hok2 & Hp & _); [done..|lia|]. eauto.
Qed.

(** Making room ends with every record still in place, whichever guard stops it. *)
Lemma make_room_ok fuel hash d : dash_ok d → hash < 2 ^ 64 →
  ∃ d', make_room fuel hash hasher d = Some d' ∧ dash_ok d' ∧ all_recs d' ≡ₚ all_recs d.
Proof.
  intros Hok Hh. revert d Hok. induction fuel as [|fuel IH]; intros d Hok; cbn [make_room];
    destruct (routed_total d hash (ok_dir _ Hok) Hh) as (s & g & Hs & -> & Hg); cbn [mbind option_bind];
    rewrite Hg; cbn [mbind option_bind]; [by exists d|].
  case_decide; [by exists d|]. destruct (all_fps_equal _ _ && _); [by exists d|].
  case_decide as Hcap; [by exists d|].
  destruct (split_ok d (dir_index d hash) s g Hok Hs Hg Hcap) as (d1 & -> & Hok1 & Hp1). cbn [mbind option_bind].
  destruct (IH d1 Hok1) as (d2 & -> & Hok2 & Hp2). exists d2. by rewrite Hp2.
Qed.

(** ** Changing one segment *)

(** Replacing a segment by one of the right shape whose records are homed there. *)
Lemma replace_ok d si g g' len : dash_ok d → segments d !! si = Some g → seg_shape g' →
  g_local_depth g' = g_local_depth g → (∀ fi, fi ∈ recs g' → homed d si fi) →
  len = N.of_nat (length (all_recs (set_segment si g' d))) → len ≤ U64_MAX →
  dash_ok (set_len len (set_segment si g' d)).
Proof.
  intros [Hdir Hshape Hhome Hlen Hu] Hg Hsh Hld Hin Hlen' Hu'.
  pose proof (lookup_lt_Some _ _ _ Hg) as Hlt.
  assert (∀ sj gj, segments (set_segment si g' d) !! sj = Some gj →
    sj = si ∧ gj = g' ∨ sj ≠ si ∧ segments d !! sj = Some gj) as Hcase.
  { intros sj gj. cbn. destruct (decide (sj = si)) as [->|].
    - rewrite list_lookup_insert_eq by done. naive_solver.
    - rewrite list_lookup_insert_ne by done. naive_solver. }
  split; [|..]; try done.
  - destruct Hdir as [H1 H2 H3 H4]. split; cbn [directory global_depth segments set_len set_segment]; try done.
    + intros i s Hi. destruct (H3 i s Hi) as (gs & Hgs & Hl & Hall).
      destruct (decide (N.to_nat s = si)) as [<-|].
      * exists g'. rewrite list_lookup_insert_eq by done. rewrite Hg in Hgs. injection Hgs as ->.
        by rewrite Hld.
      * exists gs. by rewrite list_lookup_insert_ne.
    + rewrite length_insert. done.
  - intros sj gj [[-> ->]|[_ Hgj]]%Hcase; [done|by eapply Hshape].
  - intros sj gj fi [[-> ->]|[_ Hgj]]%Hcase Hfi; [by apply Hin|by eapply Hhome].
Qed.

End index.
