(* ===== verification/DashMap.v ===== *)
(** * The dash index as the store uses it

    The store's put and remove funnels reach its records through [entry] and
    [find_entry] (crates/ironcache-store/src/lib.rs, [put_object] and
    [remove_object]). Seen through them the index is a finite map from keys to
    records, whatever the hash function: collisions, splits, the depth cap and
    the overflow spill never lose, duplicate or misplace a record. *)

From Stdlib Require Import Lia ZArith NArith.
From S2P Require Import Prelude Dash DashSegment DashDirectory DashProofs.

#[local] Open Scope N_scope.

Section map.
Context {K : Type} `{Countable K} {T : Type}.
(** A record carries its key; the table hash is any 64-bit function of the key. *)
Context (key : T → K) (hash_one : K → N).
(** What an overwrite keeps of the old record (the eviction frequency). *)
Context (carry : T → T → T).

Definition key_eq (k : K) (it : T) : bool := bool_decide (key it = k).
Definition rehash (it : T) : N := hash_one (key it).

Definition table_get (k : K) (d : DashIndex T) : option (option T) := find (hash_one k) (key_eq k) d.

(** The table part of [put_object]; the old record, if the key was there. *)
Definition table_put (obj : T) (d : DashIndex T) : option (option T * DashIndex T) :=
  '(e, d) ← entry (hash_one (key obj)) (key_eq (key obj)) rehash d;
  match e with
  | Occupied seg loc =>
      g ← segments d !! seg; old ← get g loc;
      d ← occupied_set seg loc (carry old obj) d;
      Some (Some old, d)
  | Vacant seg fp => d ← vacant_insert seg fp obj d; Some (None, d)
  end.

(** The table part of [remove_object]. *)
Definition table_remove (k : K) (d : DashIndex T) : option (option T * DashIndex T) :=
  r ← find_entry (hash_one k) (key_eq k) d;
  match r with
  | Some (seg, loc) => '(obj, d) ← occupied_remove seg loc d; Some (Some obj, d)
  | None => Some (None, d)
  end.

Inductive table_op := Get (k : K) | Put (obj : T) | Remove (k : K) | Reserve (additional : N).

Definition run_op (op : table_op) (d : DashIndex T) : option (option T * DashIndex T) :=
  match op with
  | Get k => r ← table_get k d; Some (r, d)
  | Put obj => table_put obj d
  | Remove k => table_remove k d
  | Reserve n => d ← reserve n d; Some (None, d)
  end.

Fixpoint run_ops (ops : list table_op) (d : DashIndex T) : option (list (option T) * DashIndex T) :=
  match ops with
  | [] => Some ([], d)
  | op :: ops =>
      '(r, d) ← run_op op d; '(rs, d) ← run_ops ops d; Some (r :: rs, d)
  end.

(** The finite map an index stands for. *)
Definition represents (d : DashIndex T) (m : gmap K T) : Prop :=
  dash_inv rehash d ∧ (λ it, (key it, it)) <$> iter d ≡ₚ map_to_list m.

(** What a put stores under the key. *)
Definition stored (obj : T) (m : gmap K T) : T :=
  match m !! key obj with Some old => carry old obj | None => obj end.

(** What the operations do to the map, and when its size stays within [usize]. *)
Definition spec_op (op : table_op) (m : gmap K T) : option T * gmap K T :=
  match op with
  | Get k => (m !! k, m)
  | Put obj => (m !! key obj, <[key obj := stored obj m]> m)
  | Remove k => (m !! k, delete k m)
  | Reserve _ => (None, m)
  end.

Definition op_fits (op : table_op) (m : gmap K T) : bool :=
  match op with
  | Put _ => N.of_nat (size m) <? U64_MAX
  | Reserve n => N.of_nat (size m) + n <=? U64_MAX
  | _ => true
  end.

Fixpoint spec_ops (ops : list table_op) (m : gmap K T) : list (option T) * gmap K T :=
  match ops with
  | [] => ([], m)
  | op :: ops => let '(r, m) := spec_op op m in let '(rs, m) := spec_ops ops m in (r :: rs, m)
  end.

Fixpoint ops_fit (ops : list table_op) (m : gmap K T) : bool :=
  match ops with
  | [] => true
  | op :: ops => op_fits op m && ops_fit ops (spec_op op m).2
  end.

Context (hash_u64 : ∀ k, hash_one k < 2 ^ 64).
Context (carry_key : ∀ old obj, key (carry old obj) = key obj).
Implicit Types (d : DashIndex T) (g : Segment T) (m : gmap K T).

Lemma rehash_u64 it : rehash it < 2 ^ 64.
Proof. apply hash_u64. Qed.

Lemma represents_lookup d m k it : represents d m → m !! k = Some it ↔ it ∈ iter d ∧ key it = k.
Proof.
  intros [_ Hp]. rewrite <- elem_of_map_to_list, <- Hp, list_elem_of_fmap. naive_solver.
Qed.

Lemma represents_none d m k : represents d m → (∀ it, it ∈ iter d → key it ≠ k) → m !! k = None.
Proof.
  intros Hr Hk. apply eq_None_not_Some. intros [it Hit].
  apply (represents_lookup _ _ _ _ Hr) in Hit as [Hin Heq]. by apply (Hk it).
Qed.

Lemma iter_recs d it : dash_ok rehash d →
  it ∈ iter d ↔ ∃ si g f, segments d !! si = Some g ∧ (f, it) ∈ recs g.
Proof.
  intros Hok. rewrite <- all_recs_iter by apply (ok_shape _ _ Hok). unfold all_recs.
  change (map snd) with (fmap (M:=list) (@snd N T)). rewrite list_elem_of_fmap. split.
  - intros ([f it'] & -> & Hin). rewrite list_elem_of_In, in_flat_map in Hin.
    destruct Hin as (g & Hg & Hr). apply list_elem_of_In in Hg, Hr.
    apply list_elem_of_lookup_1 in Hg as [si Hsi]. eauto.
  - intros (si & g & f & Hg & Hr). exists (f, it). split; [done|].
    rewrite list_elem_of_In, in_flat_map. exists g. rewrite <- !list_elem_of_In. split; [|done].
    by eapply list_elem_of_lookup_2.
Qed.

(** The probe of the routed segment decides membership in the whole index. *)
Lemma search d k : dash_ok rehash d →
  ∃ s g r, routed d (hash_one k) = Some s ∧ segments d !! s = Some g ∧ seg_shape g ∧
    locate g (fingerprint (hash_one k)) (key_eq k) = Some r ∧
    match r with
    | Some loc => ∃ it, get g loc = Some it ∧ it ∈ iter d ∧ key it = k
    | None => ∀ it, it ∈ iter d → key it ≠ k
    end.
Proof.
  intros Hok. destruct (routed_total d (hash_one k) (ok_dir _ _ Hok) (hash_u64 k)) as (s & g & _ & Hr & Hg).
  pose proof (ok_shape _ _ Hok _ _ Hg) as Hsh.
  exists (N.to_nat s), g, (locate_scan g (fingerprint (hash_one k)) (key_eq k)).
  split; [done|]. split; [done|]. split; [done|]. split; [by apply locate_is_scan|].
  destruct (locate_scan _ _ _) as [loc|] eqn:Hl.
  - destruct (locate_hit _ _ _ _ Hsh Hl) as (it & Hget & Heq & Hin). exists it. split; [done|].
    split; [apply iter_recs; eauto|]. by apply bool_decide_eq_true in Heq.
  - intros it (si & g' & f & Hg' & Hin)%iter_recs <-; [|done].
    destruct (ok_home _ _ Hok _ _ _ Hg' Hin) as [Hf Hrt]. cbn in Hf, Hrt. unfold rehash in Hf, Hrt.
    rewrite Hr in Hrt. injection Hrt as <-. rewrite Hg in Hg'. injection Hg' as <-.
    pose proof (locate_miss _ _ _ Hsh Hl) as Hall. rewrite Forall_forall in Hall.
    specialize (Hall _ Hin Hf). cbn in Hall. unfold key_eq in Hall.
    by apply bool_decide_eq_false in Hall.
Qed.

(** ** Tables without records *)

Lemma fresh_ok depth : depth ≤ MAX_GLOBAL_DEPTH →
  dash_ok rehash (mkDash depth (map N.of_nat (seq 0 (N.to_nat (2 ^ depth))))
    (replicate (N.to_nat (2 ^ depth)) (segment_new depth)) 0).
Proof.
  intros Hd. set (n := N.to_nat (2 ^ depth)).
  assert (∀ i s, (N.of_nat <$> seq 0 n) !! i = Some s ↔ s = N.of_nat i ∧ (i < n)%nat) as Hdir.
  { intros i s. rewrite list_lookup_fmap, fmap_Some. setoid_rewrite lookup_seq. naive_solver. }
  assert (∀ i g, replicate n (segment_new depth) !! i = Some g → g = segment_new depth) as Hseg.
  { intros i g Hg. by apply lookup_replicate_1 in Hg as [-> _]. }
  split; unfold all_recs; cbn [segments directory d_len global_depth]; try done.
  - split; cbn [segments directory global_depth]; change (map N.of_nat) with (fmap (M:=list) N.of_nat).
    + rewrite length_fmap, length_seq. unfold n. lia.
    + done.
    + intros i s [-> Hi]%Hdir. exists (segment_new depth).
      rewrite Nat2N.id, lookup_replicate_2 by done. split; [done|]. cbn. split; [done|].
      intros j Hj. rewrite length_fmap, length_seq in Hj. rewrite Hdir, N.sub_diag, !N.shiftr_0_r. lia.
    + intros si. rewrite length_replicate. intros Hsi. exists si. by apply Hdir.
  - intros si g ->%Hseg. by split; cbn; unfold SEGMENT_CAP; lia.
  - intros si g fi ->%Hseg Hfi. by apply elem_of_nil in Hfi.
  - generalize n. intros k. induction k; [done|]. done.
Qed.

Lemma iter_replicate n depth : flat_map seg_iter (replicate n (@segment_new T depth)) = [].
Proof. by induction n. Qed.

Lemma ok_nonempty d : dash_ok rehash d → directory d ≠ [].
Proof.
  intros Hok Hn. pose proof (do_len _ (ok_dir _ _ Hok)) as Hl. rewrite Hn in Hl. cbn in Hl.
  pose proof (N.pow_nonzero 2 (global_depth d)). lia.
Qed.

Lemma ensure_init_ok d : dash_inv rehash d → dash_ok rehash (ensure_init d) ∧ iter (ensure_init d) = iter d.
Proof.
  unfold ensure_init. intros [->|Hok].
  - split; [|done]. apply (fresh_ok 0). done.
  - by rewrite decide_False by by apply ok_nonempty.
Qed.

(** ** Entries *)

Definition keyed (fi : N * T) : K * T := (key fi.2, fi.2).

Lemma keyed_iter d : dash_ok rehash d → (λ it, (key it, it)) <$> iter d = keyed <$> all_recs d.
Proof.
  intros Hok. rewrite <- all_recs_iter by apply (ok_shape _ _ Hok).
  change (map snd) with (fmap (M:=list) (@snd N T)). by rewrite <- list_fmap_compose.
Qed.

(** A changed segment, from the records it lost and gained. *)
Lemma replace_entries d s g g' len (old new : list (N * T)) rest :
  dash_ok rehash d → segments d !! s = Some g → seg_shape g' → g_local_depth g' = g_local_depth g →
  recs g ≡ₚ old ++ rest → recs g' ≡ₚ new ++ rest → Forall (homed rehash d s) new →
  len + N.of_nat (length old) = d_len d + N.of_nat (length new) → len ≤ U64_MAX →
  let d' := set_len len (set_segment s g' d) in
  dash_ok rehash d' ∧
  (keyed <$> old) ++ ((λ it, (key it, it)) <$> iter d') ≡ₚ
  (keyed <$> new) ++ ((λ it, (key it, it)) <$> iter d).
Proof.
  intros Hok Hg Hsh Hld Ho Hn Hhome Hlen Hu d'.
  assert (old ++ all_recs d' ≡ₚ new ++ all_recs d) as Hp.
  { pose proof (recs_replace (segments d) s g g' Hg) as Hp. rewrite Ho, Hn, <- !app_assoc in Hp.
    rewrite !(Permutation_app_swap_app _ rest) in Hp. by apply Permutation_app_inv_l in Hp. }
  assert (dash_ok rehash d') as Hok'.
  { apply (replace_ok rehash d s g g' len); try done.
    - intros fi Hfi. rewrite Hn in Hfi. apply elem_of_app in Hfi as [Hfi|Hfi].
      + rewrite Forall_forall in Hhome. by apply Hhome.
      + eapply (ok_home _ _ Hok); [done|]. rewrite Ho. apply elem_of_app. by right.
    - apply Permutation_length in Hp. rewrite !length_app in Hp. pose proof (ok_len _ _ Hok).
      change (all_recs (set_segment s g' d)) with (all_recs d'). lia. }
  split; [done|]. rewrite !keyed_iter, <- !fmap_app by done. by rewrite Hp.
Qed.

Lemma homed_same d s f it it' : homed rehash d s (f, it) → key it' = key it → homed rehash d s (f, it').
Proof. unfold homed, rehash. cbn. by intros ? ->. Qed.

Lemma represents_len d m : represents d m → d_len d = N.of_nat (size m).
Proof.
  intros [[->|Hok] Hp].
  - cbn in Hp. apply Permutation_nil_l in Hp. symmetry in Hp. by apply map_to_list_empty_iff in Hp as ->.
  - apply Permutation_length in Hp. rewrite length_fmap in Hp. rewrite (ok_len _ _ Hok).
    rewrite length_map_to_list in Hp. rewrite <- Hp, <- all_recs_iter by apply (ok_shape _ _ Hok).
    by rewrite length_map.
Qed.

(** ** The operations *)

Lemma table_get_ok d m k : represents d m → table_get k d = Some (m !! k).
Proof.
  intros Hr. unfold table_get, find. pose proof Hr as [[->|Hok] Hp].
  - cbn in Hp. apply Permutation_nil_l in Hp. symmetry in Hp. apply map_to_list_empty_iff in Hp as ->.
    rewrite decide_True by done. by rewrite lookup_empty.
  - rewrite decide_False by by apply ok_nonempty.
    destruct (search d k Hok) as (s & g & r & -> & Hg & _ & Hloc & Hres). rewrite obind_Some.
    rewrite Hg. rewrite obind_Some, Hloc. rewrite obind_Some.
    destruct r as [loc|].
    + destruct Hres as (it & -> & Hit). rewrite obind_Some. f_equal. symmetry.
      exact (proj2 (represents_lookup d m k it Hr) Hit).
    + by rewrite (represents_none d m k Hr Hres).
Qed.

Lemma table_put_overwrite d m obj s g loc old : dash_ok rehash d → represents d m →
  routed d (hash_one (key obj)) = Some s → segments d !! s = Some g → seg_shape g →
  get g loc = Some old → m !! key obj = Some old →
  ∃ d', occupied_set s loc (carry old obj) d = Some d' ∧ represents d' (<[key obj := carry old obj]> m).
Proof.
  intros Hok Hrd Hr Hg Hsh Hget Hm. pose proof (proj2 Hrd) as Hrep. unfold occupied_set. rewrite Hg. rewrite obind_Some.
  destruct (put_at_recs g loc old (carry old obj) Hsh Hget) as (f & rest & g' & -> & Hsh' & Ho & Hn & Hld).
  rewrite obind_Some. eexists. split; [reflexivity|].
  pose proof (proj2 (proj1 (represents_lookup d m _ _ Hrd) Hm)) as Hk.
  assert (homed rehash d s (f, carry old obj)) as Hhome.
  { eapply (homed_same _ _ _ old); [|by rewrite carry_key]. eapply (ok_home _ _ Hok); [done|]. rewrite Ho. left. }
  destruct (replace_entries d s g g' (d_len d) [(f, old)] [(f, carry old obj)] rest) as [Hok' Hp];
    try done; [by constructor|apply (ok_u64 _ _ Hok)|].
  change (set_segment s g' d) with (set_len (d_len d) (set_segment s g' d)).
  split; [by right|]. apply (Permutation_cons_inv (a := (key obj, old))).
  cbn [keyed fmap list_fmap fst snd app] in Hp. unfold keyed in Hp. cbn in Hp. rewrite Hk, carry_key in Hp.
  rewrite Hp, Hrep. rewrite <- insert_delete_eq, map_to_list_insert by apply lookup_delete_eq.
  rewrite <- (map_to_list_delete m (key obj) old) by done. apply perm_swap.
Qed.

Lemma table_put_fresh d m obj : dash_ok rehash d → represents d m → d_len d < U64_MAX →
  m !! key obj = None →
  ∃ d1 s d', make_room MAX_SPLITS (hash_one (key obj)) rehash d = Some d1 ∧
    routed d1 (hash_one (key obj)) = Some s ∧
    vacant_insert s (fingerprint (hash_one (key obj))) obj d1 = Some d' ∧
    represents d' (<[key obj := obj]> m).
Proof.
  intros Hok [_ Hrep] Hlt Hm.
  destruct (make_room_ok rehash rehash_u64 MAX_SPLITS _ d Hok (hash_u64 (key obj))) as (d1 & Hroom & Hok1 & Hp1).
  destruct (routed_total d1 (hash_one (key obj)) (ok_dir _ _ Hok1) (hash_u64 _)) as (s & g & _ & Hr & Hg).
  assert (d_len d1 = d_len d) as Hl.
  { rewrite (ok_len _ _ Hok), (ok_len _ _ Hok1). f_equal. by apply Permutation_length. }
  pose proof (ok_shape _ _ Hok1 _ _ Hg) as Hsh.
  set (fp := fingerprint (hash_one (key obj))). destruct (push_recs g fp obj Hsh) as (Hsh' & Hpush & Hld).
  exists d1, (N.to_nat s), (set_len (d_len d1 + 1) (set_segment (N.to_nat s) (push g fp obj).2 d1)).
  do 2 (split; [done|]).
  split; [unfold vacant_insert; rewrite Hg; rewrite obind_Some; by rewrite add64_small by lia|].
  destruct (replace_entries d1 (N.to_nat s) g (push g fp obj).2 (d_len d1 + 1) [] [(fp, obj)] (recs g))
    as [Hok' Hp]; try done; [by constructor|cbn; lia|lia|].
  split; [by right|]. cbn [fmap list_fmap app] in Hp. unfold keyed in Hp. cbn [fst snd] in Hp.
  rewrite Hp, map_to_list_insert by done. constructor. rewrite <- Hrep, !keyed_iter by done. by rewrite Hp1.
Qed.

Lemma table_put_ok d m obj : represents d m → d_len d < U64_MAX →
  ∃ d', table_put obj d = Some (m !! key obj, d') ∧ represents d' (<[key obj := stored obj m]> m).
Proof.
  intros Hr Hlt. destruct (ensure_init_ok d (proj1 Hr)) as [Hok Hit].
  assert (represents (ensure_init d) m) as Hr' by (split; [by right|rewrite Hit; apply Hr]).
  assert (d_len (ensure_init d) < U64_MAX) as Hlt' by by rewrite (represents_len _ _ Hr'), <- (represents_len _ _ Hr).
  unfold table_put, entry, stored. clear Hlt Hr Hit. revert Hok Hr' Hlt'. generalize (ensure_init d).
  clear d. intros d Hok Hr Hlt.
  destruct (search d (key obj) Hok) as (s & g & r & Hrt & Hg & Hsh & Hloc & Hres).
  rewrite Hrt. rewrite obind_Some, Hg. rewrite obind_Some, Hloc. rewrite obind_Some.
  destruct r as [loc|].
  - destruct Hres as (old & Hget & Hin). rewrite obind_Some, Hg. rewrite obind_Some.
    rewrite Hget. rewrite obind_Some.
    pose proof (proj2 (represents_lookup d m _ old Hr) Hin) as Hm.
    destruct (table_put_overwrite d m obj s g loc old) as (d' & -> & Hrep'); [done..|].
    rewrite Hm. by exists d'.
  - assert (m !! key obj = None) as Hm.
    { exact (represents_none d m _ Hr Hres). }
    destruct (table_put_fresh d m obj) as (d1 & s1 & d' & -> & Hrt1 & Hins & Hrep'); [done..|].
    rewrite obind_Some, Hrt1. rewrite obind_Some, obind_Some, Hins. rewrite obind_Some.
    rewrite Hm. by exists d'.
Qed.

Lemma table_remove_ok d m k : represents d m →
  ∃ d', table_remove k d = Some (m !! k, d') ∧ represents d' (delete k m).
Proof.
  intros Hr. pose proof Hr as [[->|Hok] Hrep]; unfold table_remove, find_entry.
  - cbn in Hrep. apply Permutation_nil_l in Hrep. symmetry in Hrep. apply map_to_list_empty_iff in Hrep as ->.
    exists dash_new. rewrite decide_True by done. rewrite obind_Some, lookup_empty, delete_empty.
    split; [done|]. split; [by left|done].
  - rewrite decide_False by by apply ok_nonempty.
    destruct (search d k Hok) as (s & g & r & -> & Hg & Hsh & Hloc & Hres). rewrite obind_Some.
    rewrite Hg. rewrite obind_Some, Hloc. rewrite obind_Some. destruct r as [loc|].
    + destruct Hres as (it & Hget & Hin). rewrite obind_Some.
      pose proof (proj2 (represents_lookup d m k it Hr) Hin) as Hm.
      destruct (get_recs g loc it Hget Hsh) as (f & g' & Hrm & Hsh' & Hp & Hld).
      assert (1 ≤ d_len d) as Hpos.
      { rewrite (represents_len d m) by done. pose proof (map_size_ne_0_lookup_2 m k (mk_is_Some _ _ Hm)). lia. }
      unfold occupied_remove. rewrite Hg. rewrite obind_Some, Hrm. rewrite obind_Some.
      rewrite sub64_small by done. rewrite obind_Some. eexists. rewrite Hm. split; [reflexivity|].
      destruct (replace_entries d s g g' (d_len d - 1) [(f, it)] [] (recs g')) as [Hok' Hp'];
        try done; [cbn; lia|pose proof (ok_u64 _ _ Hok); lia|].
      split; [by right|]. apply (Permutation_cons_inv (a := (k, it))).
      cbn [fmap list_fmap app] in Hp'. unfold keyed in Hp'. cbn [fst snd] in Hp'. rewrite (proj2 Hin) in Hp'.
      rewrite Hp', Hrep. symmetry. by apply map_to_list_delete.
    + assert (m !! k = None) as Hm.
      { exact (represents_none d m _ Hr Hres). }
      exists d. rewrite Hm. split; [done|]. by rewrite delete_id.
Qed.

Lemma double_times_ok n d : dash_ok rehash d → global_depth d + N.of_nat n ≤ MAX_GLOBAL_DEPTH →
  ∃ d', double_times n d = Some d' ∧ dash_ok rehash d' ∧ iter d' = iter d.
Proof.
  revert d. induction n as [|n IH]; intros d Hok Hle; cbn [double_times]; [by exists d|].
  destruct (double_ok rehash rehash_u64 d Hok) as (d1 & -> & Hok1 & Hs & Hgd); [lia|]. rewrite obind_Some.
  destruct (IH d1 Hok1) as (d2 & -> & Hok2 & Hi); [lia|]. exists d2. split; [done|]. split; [done|].
  rewrite Hi. unfold iter. by rewrite Hs.
Qed.

Lemma reserve_ok d m n : represents d m → d_len d + n ≤ U64_MAX →
  ∃ d', reserve n d = Some d' ∧ represents d' m.
Proof.
  intros [Hinv Hrep] Hle. unfold reserve. rewrite add64_small by done. rewrite obind_Some.
  case_decide; [by exists d|]. set (depth := N.min _ MAX_GLOBAL_DEPTH).
  assert (depth ≤ MAX_GLOBAL_DEPTH) by apply N.le_min_r. destruct Hinv as [->|Hok].
  - eexists. split; [reflexivity|]. split; [right; by apply fresh_ok|].
    unfold iter. cbn [segments]. by rewrite iter_replicate.
  - rewrite decide_False by by apply ok_nonempty.
    pose proof (do_depth _ (ok_dir _ _ Hok)).
    destruct (double_times_ok (N.to_nat (depth - global_depth d)) d Hok) as (d' & -> & Hok' & Hi); [lia|].
    exists d'. split; [done|]. split; [by right|]. by rewrite Hi.
Qed.

Lemma run_op_ok op d m : represents d m → op_fits op m = true →
  ∃ d', run_op op d = Some ((spec_op op m).1, d') ∧ represents d' (spec_op op m).2.
Proof.
  intros Hr Hf. pose proof (represents_len d m Hr) as Hl. destruct op as [k|obj|k|n]; cbn [run_op spec_op fst snd].
  - exists d. by rewrite (table_get_ok d m k Hr), obind_Some.
  - apply N.ltb_lt in Hf. apply table_put_ok; [done|lia].
  - by apply table_remove_ok.
  - apply N.leb_le in Hf. destruct (reserve_ok d m n Hr) as (d' & -> & Hr'); [lia|].
    exists d'. by rewrite obind_Some.
Qed.

Lemma run_ops_ok ops d m : represents d m → ops_fit ops m = true →
  ∃ d', run_ops ops d = Some ((spec_ops ops m).1, d') ∧ represents d' (spec_ops ops m).2.
Proof.
  revert d m. induction ops as [|op ops IH]; intros d m Hr Hf; cbn [run_ops spec_ops]; [by exists d|].
  cbn [ops_fit] in Hf. apply andb_true_iff in Hf as [Hf Hfs].
  destruct (run_op_ok op d m Hr Hf) as (d1 & -> & Hr1). rewrite obind_Some.
  destruct (spec_op op m) as [r m1]. cbn [fst snd] in *.
  destruct (IH d1 m1 Hr1 Hfs) as (d2 & -> & Hr2). rewrite obind_Some.
  destruct (spec_ops ops m1) as [rs m2]. by exists d2.
Qed.

Lemma represents_new : represents dash_new ∅.
Proof. split; [by left|]. by rewrite map_to_list_empty. Qed.

(** (C9) The dash index is a finite map. Started from the empty table, any
    sequence of lookups, puts, removals and reservations whose record count fits
    [usize] runs without a panic and without reading an uninitialised slot; every
    call returns what the finite map returns, and in the end the index holds
    exactly the map's records, each once. The hash function is arbitrary. *)
Theorem dash_refines_map ops : ops_fit ops ∅ = true →
  ∃ d, run_ops ops dash_new = Some ((spec_ops ops ∅).1, d) ∧
    (λ it, (key it, it)) <$> iter d ≡ₚ map_to_list (spec_ops ops ∅).2 ∧
    d_len d = N.of_nat (size (spec_ops ops ∅).2).
Proof.
  intros Hf. destruct (run_ops_ok ops dash_new ∅ represents_new Hf) as (d & Hd & Hr).
  exists d. split; [done|]. split; [apply Hr|by apply represents_len].
Qed.

(** The directory is bounded. Whatever the hashes (every key may hash
    alike), the operations leave a directory of [2^global_depth] entries with a
    depth of at most 20, no more segments than entries, and every entry naming a
    segment that exists; so the [u32] entries never truncate. *)
Theorem dash_directory_bounded ops rs d : ops_fit ops ∅ = true →
  run_ops ops dash_new = Some (rs, d) →
  global_depth d ≤ MAX_GLOBAL_DEPTH ∧
  (directory d = [] ∨ N.of_nat (length (directory d)) = 2 ^ global_depth d) ∧
  (length (segments d) ≤ length (directory d))%nat ∧
  Forall (λ s, N.to_nat s < length (segments d))%nat (directory d).
Proof.
  intros Hf Hrun. destruct (run_ops_ok ops dash_new ∅ represents_new Hf) as (d' & Hd & [Hinv _]).
  rewrite Hd in Hrun. injection Hrun as _ ->.
  destruct Hinv as [->|Hok]; [cbn; by repeat split; try left|].
  pose proof (ok_dir _ _ Hok) as Hdir. split; [apply Hdir|]. split; [right; apply Hdir|].
  split; [by apply segments_le_directory|]. apply Forall_lookup_2. intros i s Hs.
  destruct (do_entry _ Hdir _ _ Hs) as (g & Hg & _). by eapply lookup_lt_Some.
Qed.

End map.

(** ** A run that splits

    Seventy keys whose hashes differ in their top bits only and share one
    fingerprint: the table splits, a key is overwritten and one removed. *)

Definition demo_hash (k : N) : N := N.land (k * 2 ^ 57) (2 ^ 64 - 1).
Definition demo_ops : list (table_op (K := N) (T := N * N)) :=
  map (λ i, Put (N.of_nat i, 7)) (seq 0 70) ++ [Put (3, 8); Remove 5; Get 3; Get 5; Reserve 4000; Get 69].

Lemma demo_hash_u64 k : demo_hash k < 2 ^ 64.
Proof.
  unfold demo_hash. change (2 ^ 64 - 1) with (N.ones 64). rewrite N.land_ones. by apply N.mod_lt.
Qed.

Lemma dash_refines_map_witness :
  ops_fit fst (λ _ o, o) demo_ops ∅ = true ∧
  ∃ d, run_ops fst demo_hash (λ _ o, o) demo_ops dash_new = Some ((spec_ops fst (λ _ o, o) demo_ops ∅).1, d) ∧
    (λ it, (it.1, it)) <$> iter d ≡ₚ map_to_list (spec_ops fst (λ _ o, o) demo_ops ∅).2 ∧
    d_len d = N.of_nat (size (spec_ops fst (λ _ o, o) demo_ops ∅).2).
Proof.
  split; [vm_compute; reflexivity|].
  apply (dash_refines_map fst demo_hash (λ _ o, o) demo_hash_u64 (λ _ _, eq_refl)).
  vm_compute. reflexivity.
Defined.

Definition demo_run : option (list (option (N * N)) * DashIndex (N * N)) :=
  run_ops fst demo_hash (λ _ o, o) demo_ops dash_new.

Lemma dash_directory_bounded_witness :
  ∃ rs d, demo_run = Some (rs, d) ∧ global_depth d = 7 ∧ length (segments d) = 2%nat ∧
    global_depth d ≤ MAX_GLOBAL_DEPTH ∧
    (directory d = [] ∨ N.of_nat (length (directory d)) = 2 ^ global_depth d) ∧
    (length (segments d) ≤ length (directory d))%nat ∧
    Forall (λ s, N.to_nat s < length (segments d))%nat (directory d).
Proof.
  destruct demo_run as [[rs d]|] eqn:Hrun; [|vm_compute in Hrun; discriminate].
  exists rs, d. split; [reflexivity|].
  split; [vm_compute in Hrun; injection Hrun as _ <-; reflexivity|].
  split; [vm_compute in Hrun; injection Hrun as _ <-; reflexivity|].
  refine (dash_directory_bounded fst demo_hash (λ _ o, o) demo_hash_u64 (λ _ _, eq_refl) demo_ops rs d _ Hrun).
  vm_compute. reflexivity.
Defined.
