(* ===== verification/ReplFrames.v ===== *)
(** * Replication frames on the wire

    crates/ironcache-repl/src/cursor.rs ([ReplId]) and frames.rs: the frames, a
    RESP array of bulk strings each, and the parser of the receiving side. A
    position in the receive buffer is the suffix of the buffer from it on. *)

From Stdlib Require Import Lia ZArith NArith.
From S2P Require Import Prelude Resp RespDecode RespReply.
From stdpp Require Import strings.

#[local] Open Scope N_scope.

(** ** Replication ids *)

(** The 20 bytes of an id. *)
Definition ReplId : Type := list byte.
Definition REPLID_LEN : nat := 20.
Definition HEX_LEN : nat := 40.

Definition hex_digit (nibble : N) : byte :=
  if decide (nibble ≤ 9) then byte_of_N (48 + nibble) else byte_of_N (97 + (nibble - 10)).

Definition hex_val (c : byte) : option N :=
  let n := Byte.to_N c in
  if (48 <=? n) && (n <=? 57) then Some (n - 48)
  else if (97 <=? n) && (n <=? 102) then Some (n - 97 + 10)
  else if (65 <=? n) && (n <=? 70) then Some (n - 65 + 10)
  else None.

Definition as_hex (id : ReplId) : list byte :=
  concat (map (λ b, [hex_digit (N.shiftr (Byte.to_N b) 4); hex_digit (N.land (Byte.to_N b) 15)]) id).

Fixpoint hex_pairs (hex : list byte) : option ReplId :=
  match hex with
  | h :: l :: hex =>
      hi ← hex_val h; lo ← hex_val l; rest ← hex_pairs hex;
      Some (byte_of_N (N.lor (N.shiftl hi 4) lo) :: rest)
  | _ => Some []
  end.

Definition from_hex (hex : list byte) : option ReplId :=
  if decide (length hex = HEX_LEN) then hex_pairs hex else None.

(** ** Frames *)

Inductive Frame :=
  | ReplConf (node ack : N) (resume_token : option ReplId)
  | ReplPing (replid : ReplId) (offset : N)
  | FullSync (replid : ReplId) (end_offset : N)
  | SyncKv (db : N) (key kvobj_bytes : list byte)
  | SyncEnd (end_offset : N)
  | StreamPut (offset db : N) (key kvobj_bytes : list byte)
  | StreamDel (offset db : N) (key : list byte)
  | ImportReq (slot : N).

Definition REPLCONF := str "REPLCONF".
Definition REPLPING := str "REPLPING".
Definition FULLSYNC := str "FULLSYNC".
Definition SYNCKV := str "SYNCKV".
Definition SYNCEND := str "SYNCEND".
Definition STREAMPUT := str "STREAMPUT".
Definition STREAMDEL := str "STREAMDEL".
Definition IMPORTREQ := str "IMPORTREQ".

(** [to_string] of an unsigned integer. *)
Definition display_u64 (n : N) : list byte :=
  if decide (n = 0) then ["0"%byte] else itoa_loop 20 n [].

Definition frame_args (f : Frame) : list (list byte) :=
  match f with
  | ReplConf node ack (Some token) => [REPLCONF; display_u64 node; display_u64 ack; as_hex token]
  | ReplConf node ack None => [REPLCONF; display_u64 node; display_u64 ack]
  | ReplPing replid offset => [REPLPING; as_hex replid; display_u64 offset]
  | FullSync replid end_offset => [FULLSYNC; as_hex replid; display_u64 end_offset]
  | SyncKv db key kvobj_bytes => [SYNCKV; display_u64 db; key; kvobj_bytes]
  | SyncEnd end_offset => [SYNCEND; display_u64 end_offset]
  | StreamPut offset db key kvobj_bytes => [STREAMPUT; display_u64 offset; display_u64 db; key; kvobj_bytes]
  | StreamDel offset db key => [STREAMDEL; display_u64 offset; display_u64 db; key]
  | ImportReq slot => [IMPORTREQ; display_u64 slot]
  end.

Definition frame_encode (f : Frame) : list byte := encode_command (frame_args f).

(** ** Parsing *)

(** [Ok(None)], [Err(FrameError)], or a value and the rest of the buffer. *)
Inductive Step (A : Type) := Need | Bad | Got (x : A) (rest : list byte).
Arguments Need {A}.
Arguments Bad {A}.
Arguments Got {A}.

(** [windows(2).position(|w| w == b"\r\n")]: the line and what follows its end. *)
Fixpoint split_crlf (l : list byte) : option (list byte * list byte) :=
  match l with
  | a :: ((b :: r) as l') =>
      if decide (a = CR ∧ b = LF) then Some ([], r)
      else '(line, rest) ← split_crlf l'; Some (a :: line, rest)
  | _ => None
  end.

(** The integer line after its prefix character. A line that is not UTF-8 has a
    byte that is no digit, so it fails to parse either way. *)
Definition read_int_line (buf : list byte) : Step Z :=
  match split_crlf buf with
  | None => Need
  | Some (line, rest) =>
      match str_parse I64_MIN I64_MAX line with Some n => Got n rest | None => Bad end
  end.

Definition MAX_CLUSTER_FRAME_LEN : Z := 536870912.

(** One [$len\r\n<bytes>\r\n]. *)
Definition parse_arg (buf : list byte) : Step (list byte) :=
  match buf with
  | [] => Need
  | c :: buf =>
      if decide (c ≠ "$"%byte) then Bad else
      match read_int_line buf with
      | Need => Need
      | Bad => Bad
      | Got len body =>
          if decide (len < 0)%Z then Bad else
          if decide (MAX_CLUSTER_FRAME_LEN < len)%Z then Bad else
          let n := Z.to_nat len in
          if decide (length body < n + 2)%nat then Need else
          if decide (take 2 (drop n body) ≠ CRLF) then Bad else
          Got (take n body) (drop (n + 2) body)
      end
  end.

(** [for _ in 0..count]; an argument takes at least one byte of the buffer. *)
Fixpoint parse_args (fuel : nat) (count : Z) (buf : list byte) (args : list (list byte))
    : Step (list (list byte)) :=
  if decide (count = 0)%Z then Got args buf else
  match fuel with
  | O => Need
  | S fuel =>
      match parse_arg buf with
      | Need => Need
      | Bad => Bad
      | Got a rest => parse_args fuel (count - 1) rest (args ++ [a])
      end
  end.

Definition parse_command_array (buf : list byte) : Step (list (list byte)) :=
  match buf with
  | [] => Need
  | c :: rest =>
      if decide (c ≠ "*"%byte) then Bad else
      match read_int_line rest with
      | Need => Need
      | Bad => Bad
      | Got count rest =>
          if decide (count < 0)%Z then Bad else parse_args (S (length buf)) count rest []
      end
  end.

(** ** Frames from arguments *)

Definition to_ascii_lowercase (b : byte) : byte :=
  let n := Byte.to_N b in if (65 <=? n) && (n <=? 90) then byte_of_N (n + 32) else b.

Definition eq_ignore_ascii_case (a b : list byte) : bool :=
  bool_decide (map to_ascii_lowercase a = map to_ascii_lowercase b).

(** [str::parse::<u64>]: a plus sign is accepted, a minus sign is not. *)
Definition parse_u64 (arg : list byte) : option N :=
  match arg with
  | c :: _ => if decide (c = "-"%byte) then None else Z.to_N <$> str_parse 0 (Z.of_N U64_MAX) arg
  | [] => None
  end.

(** [u32::try_from] and [u16::try_from]. *)
Definition try_narrow (bits : N) (n : N) : option N := if decide (n < 2 ^ bits) then Some n else None.

Definition decode_args (args : list (list byte)) : option Frame :=
  match args with
  | [] => None
  | verb :: rest =>
      if eq_ignore_ascii_case verb REPLCONF then
        match rest with
        | [a; b] => node ← parse_u64 a; ack ← parse_u64 b; Some (ReplConf node ack None)
        | [a; b; c] =>
            node ← parse_u64 a; ack ← parse_u64 b; token ← from_hex c; Some (ReplConf node ack (Some token))
        | _ => None
        end
      else if eq_ignore_ascii_case verb REPLPING then
        match rest with
        | [a; b] => replid ← from_hex a; offset ← parse_u64 b; Some (ReplPing replid offset)
        | _ => None
        end
      else if eq_ignore_ascii_case verb FULLSYNC then
        match rest with
        | [a; b] => replid ← from_hex a; end_offset ← parse_u64 b; Some (FullSync replid end_offset)
        | _ => None
        end
      else if eq_ignore_ascii_case verb SYNCKV then
        match rest with
        | [a; key; kvobj_bytes] => n ← parse_u64 a; db ← try_narrow 32 n; Some (SyncKv db key kvobj_bytes)
        | _ => None
        end
      else if eq_ignore_ascii_case verb SYNCEND then
        match rest with
        | [a] => end_offset ← parse_u64 a; Some (SyncEnd end_offset)
        | _ => None
        end
      else if eq_ignore_ascii_case verb STREAMPUT then
        match rest with
        | [a; b; key; kvobj_bytes] =>
            offset ← parse_u64 a; n ← parse_u64 b; db ← try_narrow 32 n;
            Some (StreamPut offset db key kvobj_bytes)
        | _ => None
        end
      else if eq_ignore_ascii_case verb STREAMDEL then
        match rest with
        | [a; b; key] =>
            offset ← parse_u64 a; n ← parse_u64 b; db ← try_narrow 32 n; Some (StreamDel offset db key)
        | _ => None
        end
      else if eq_ignore_ascii_case verb IMPORTREQ then
        match rest with
        | [a] => n ← parse_u64 a; slot ← try_narrow 16 n; Some (ImportReq slot)
        | _ => None
        end
      else None
  end.

Definition frame_decode (buf : list byte) : Step Frame :=
  match parse_command_array buf with
  | Need => Need
  | Bad => Bad
  | Got args rest => match decode_args args with Some f => Got f rest | None => Bad end
  end.
