(* ===== verification/ReplFramesProofs.v ===== *)
(** * Replication frames survive the wire

    A frame is read back exactly, with the bytes after it untouched; a buffer
    that holds only part of a frame asks for more and is never taken for garbage;
    an argument over the length cap is refused. *)

From Stdlib Require Import Lia ZArith NArith.
From S2P Require Import Prelude Resp RespDecode RespReply RespReplyProofs ReplFrames.
From stdpp Require Import strings.

#[local] Open Scope nat_scope.

(** ** Numbers *)

Lemma display_u64_text n : (n ≤ U64_MAX)%N →
  display_u64 n ≠ [] ∧ Forall (λ b, is_digit b = true) (display_u64 n) ∧
  digits_value 0 (display_u64 n) = Some (Z.of_N n).
Proof.
  intros Hn. unfold display_u64. destruct (decide (n = 0)%N) as [->|Hne].
  { split; [done|]. split; [by repeat constructor|done]. }
  split; [by apply itoa_nonempty|]. split; [apply itoa_digits|]. apply itoa_value.
  change (10 ^ N.of_nat 20)%N with 100000000000000000000%N. unfold U64_MAX in Hn. lia.
Qed.

Lemma parse_u64_display n : (n ≤ U64_MAX)%N → parse_u64 (display_u64 n) = Some n.
Proof.
  intros Hn. destruct (display_u64_text n Hn) as (Hne & Hd & Hv). unfold parse_u64, str_parse.
  destruct (display_u64 n) as [|d ds]; [done|]. inversion Hd; subst.
  rewrite !decide_False by (by apply digit_not). rewrite Hv. cbn [mbind option_bind].
  rewrite decide_True by (unfold U64_MAX in *; lia). cbn. f_equal. lia.
Qed.

Lemma try_narrow_small bits n : (n < 2 ^ bits)%N → try_narrow bits n = Some n.
Proof. intros. unfold try_narrow. by rewrite decide_True. Qed.

(** ** Replication ids *)

Lemma hex_val_digit n : (n < 16)%N → hex_val (hex_digit n) = Some n.
Proof.
  intros Hn.
  assert (forallb (λ n, bool_decide (hex_val (hex_digit n) = Some n)) (map N.of_nat (seq 0 16)) = true) as Hall
    by (vm_compute; reflexivity).
  rewrite forallb_forall in Hall. eapply bool_decide_eq_true_1, Hall, in_map_iff.
  exists (N.to_nat n). rewrite in_seq. lia.
Qed.

Lemma byte_nibbles b :
  byte_of_N (N.lor (N.shiftl (N.shiftr (Byte.to_N b) 4) 4) (N.land (Byte.to_N b) 15)) = b.
Proof. by destruct b. Qed.

Lemma hex_pairs_as_hex id : hex_pairs (as_hex id) = Some id.
Proof.
  induction id as [|b id IH]; [done|]. change (as_hex (b :: id)) with
    (hex_digit (N.shiftr (Byte.to_N b) 4) :: hex_digit (N.land (Byte.to_N b) 15) :: as_hex id).
  cbn [hex_pairs]. rewrite !hex_val_digit.
  - cbn [mbind option_bind]. rewrite IH. cbn [mbind option_bind]. by rewrite byte_nibbles.
  - rewrite N.shiftr_div_pow2. apply N.Div0.div_lt_upper_bound. pose proof (byte_to_N_bound b). lia.
  - change 15%N with (N.ones 4). rewrite N.land_ones. by apply N.mod_lt.
Qed.

Lemma from_hex_as_hex id : length id = REPLID_LEN → from_hex (as_hex id) = Some id.
Proof.
  intros Hl. unfold from_hex. rewrite decide_True; [apply hex_pairs_as_hex|].
  assert (∀ l : ReplId, length (as_hex l) = 2 * length l) as Hlen.
  { intros l. induction l as [|b l IH]; [done|]. change (as_hex (b :: l)) with
      (hex_digit (N.shiftr (Byte.to_N b) 4) :: hex_digit (N.land (Byte.to_N b) 15) :: as_hex l). cbn. lia. }
  rewrite Hlen, Hl. done.
Qed.

(** ** Lines and arguments *)

(** A parser on an encoding: read with anything after it, and any part of it
    asks for more. *)
Definition streams {A} (p : list byte → Step A) (e : list byte) (x : A) : Prop :=
  (∀ rest, p (e ++ rest) = Got x rest) ∧ ∀ q, q `prefix_of` e → q ≠ e → p q = Need.

Lemma prefix_app_cases (q a b : list byte) : q `prefix_of` a ++ b →
  (q `prefix_of` a ∧ q ≠ a) ∨ ∃ q', q = a ++ q' ∧ q' `prefix_of` b.
Proof.
  intros [k Hk]. destruct (decide (length q < length a)) as [Hlt|Hge].
  - left. split; [|intros ->; lia]. exists (take (length a - length q) k).
    assert (take (length a) (a ++ b) = take (length a) (q ++ k)) as Ht by by rewrite Hk.
    rewrite take_app_length, take_app, (take_ge q) in Ht by lia. done.
  - right. exists (drop (length a) q).
    assert (take (length a) (a ++ b) = take (length a) (q ++ k)) as Ht by by rewrite Hk.
    assert (drop (length a) (a ++ b) = drop (length a) (q ++ k)) as Hd by by rewrite Hk.
    rewrite take_app_length, take_app_le in Ht by lia. rewrite drop_app_length, drop_app_le in Hd by lia.
    split; [|by exists k]. rewrite Ht at 1. symmetry. apply take_drop.
Qed.

Lemma split_crlf_line l rest : CR ∉ l → split_crlf (l ++ CRLF ++ rest) = Some (l, rest).
Proof.
  induction l as [|a l IH]; intros Hn; [done|]. apply not_elem_of_cons in Hn as [Ha Hn].
  assert (∃ b r, l ++ CRLF ++ rest = b :: r) as (b & r & Hbr) by (destruct l; eexists _, _; reflexivity).
  specialize (IH Hn). cbn [app]. rewrite Hbr in *. cbn [split_crlf].
  rewrite decide_False by naive_solver. cbn [split_crlf] in IH. by rewrite IH.
Qed.

Lemma split_crlf_none l : CR ∉ l → split_crlf l = None ∧ split_crlf (l ++ [CR]) = None.
Proof.
  induction l as [|a l IH]; intros Hn; [done|]. apply not_elem_of_cons in Hn as [Ha Hn].
  destruct (IH Hn) as [H1 H2]. cbn [app]. destruct l as [|b l].
  - split; [done|]. cbn. rewrite decide_False; [done|]. intros [? _]. done.
  - cbn [app] in *. cbn [split_crlf] in *. rewrite !decide_False by naive_solver.
    rewrite H1, H2. done.
Qed.

Lemma streams_int_line n l : CR ∉ l → str_parse I64_MIN I64_MAX l = Some n →
  streams read_int_line (l ++ CRLF) n.
Proof.
  intros Hcr Hp. split.
  - intros rest. unfold read_int_line. rewrite <- app_assoc, split_crlf_line by done. by rewrite Hp.
  - intros q Hq Hne. unfold read_int_line. destruct (split_crlf_none l Hcr) as [H1 H2].
    assert (split_crlf q = None) as ->; [|done].
    destruct (prefix_app_cases q l CRLF Hq) as [[[k ->] Hnq]|(q' & -> & [k Hk])].
    + apply split_crlf_none. set_solver.
    + destruct q' as [|c [|c' q']]; [by rewrite app_nil_r|injection Hk as <- _; done|].
      injection Hk as <- <- Hk. apply (f_equal length) in Hk. cbn in Hk. rewrite length_app in Hk.
      destruct q'; [|cbn in Hk; lia]. done.
Qed.

Lemma streams_display n : (Z.of_nat n ≤ I64_MAX)%Z → streams read_int_line (display_usize n ++ CRLF) (Z.of_nat n).
Proof.
  intros Hn. apply streams_int_line; [by apply display_no_CR|]. rewrite display_usize_i64.
  apply str_parse_i64_to_str. unfold I64_MIN. lia.
Qed.

Definition arg_fits (a : list byte) : Prop := (Z.of_nat (length a) ≤ MAX_CLUSTER_FRAME_LEN)%Z.

Lemma streams_arg a : arg_fits a → streams parse_arg (encode_bulk_arg a) a.
Proof.
  intros Ha. unfold arg_fits, MAX_CLUSTER_FRAME_LEN in Ha.
  destruct (streams_display (length a)) as [Hgot Hneed]; [unfold I64_MAX; lia|].
  unfold encode_bulk_arg. split.
  - intros rest. cbn [app parse_arg]. rewrite decide_False by tauto.
    rewrite <- !app_assoc, (app_assoc (display_usize _)), Hgot.
    rewrite !decide_False by (unfold MAX_CLUSTER_FRAME_LEN; lia). rewrite Nat2Z.id.
    rewrite decide_False by (rewrite !length_app; cbn; lia).
    rewrite drop_app_length, decide_False by tauto.
    rewrite take_app_length, <- drop_drop, drop_app_length. done.
  - intros [|c q] Hq Hne; [done|]. apply prefix_cons_inv_1 in Hq as Hc. subst c.
    apply prefix_cons_inv_2 in Hq. cbn [parse_arg]. rewrite decide_False by tauto.
    rewrite app_assoc in Hq, Hne. destruct (prefix_app_cases _ _ _ Hq) as [[Hp Hnp]|(q' & -> & Hq')].
    + by rewrite Hneed.
    + rewrite Hgot, !decide_False by (unfold MAX_CLUSTER_FRAME_LEN; lia). rewrite Nat2Z.id.
      rewrite decide_True; [done|]. pose proof (prefix_length _ _ Hq') as Hl. rewrite length_app in Hl. cbn in Hl.
      destruct (decide (length q' = length a + 2)) as [Heq|]; [|lia]. destruct Hq' as [k Hk].
      apply (f_equal length) in Hk as Hk'. rewrite !length_app in Hk'. cbn in Hk'.
      assert (k = []) as -> by (apply length_zero_iff_nil; lia). rewrite app_nil_r in Hk. by subst q'.
Qed.

(** Arguments one after the other. *)
Lemma parse_args_got args fuel acc rest : Forall arg_fits args → length args ≤ fuel →
  parse_args fuel (Z.of_nat (length args)) (concat (map encode_bulk_arg args) ++ rest) acc = Got (acc ++ args) rest.
Proof.
  intros Hf. revert fuel acc. induction Hf as [|a args Ha _ IH]; intros fuel acc Hl.
  - rewrite app_nil_r. by destruct fuel.
  - destruct fuel as [|fuel]; cbn in Hl; [lia|]. cbn [parse_args length map concat].
    rewrite decide_False by lia. rewrite <- app_assoc. rewrite (proj1 (streams_arg a Ha)).
    replace (Z.of_nat (S (length args)) - 1)%Z with (Z.of_nat (length args)) by lia.
    rewrite IH by lia. by rewrite <- app_assoc.
Qed.

Lemma parse_args_need args fuel acc q : Forall arg_fits args →
  q `prefix_of` concat (map encode_bulk_arg args) → q ≠ concat (map encode_bulk_arg args) →
  parse_args fuel (Z.of_nat (length args)) q acc = Need.
Proof.
  intros Hf. revert fuel acc q. induction Hf as [|a args Ha _ IH]; intros fuel acc q Hq Hne.
  - apply prefix_nil_inv in Hq. by subst.
  - cbn [length map concat] in *. destruct fuel as [|fuel]; cbn [parse_args]; rewrite decide_False by lia; [done|].
    destruct (streams_arg a Ha) as [Hgot Hneed].
    destruct (prefix_app_cases _ _ _ Hq) as [[Hp Hnp]|(q' & -> & Hq')]; [by rewrite Hneed|].
    rewrite Hgot. replace (Z.of_nat (S (length args)) - 1)%Z with (Z.of_nat (length args)) by lia.
    apply IH; [done|]. intros ->. done.
Qed.

Lemma encode_args_length args : length args ≤ length (concat (map encode_bulk_arg args)).
Proof. induction args as [|a args IH]; cbn [map concat length]; [lia|]. rewrite length_app. unfold encode_bulk_arg at 1. cbn [length]. lia. Qed.

Lemma streams_command args : Forall arg_fits args → (Z.of_nat (length args) ≤ I64_MAX)%Z →
  streams parse_command_array (encode_command args) args.
Proof.
  intros Hf Hl. destruct (streams_display (length args) Hl) as [Hgot Hneed]. unfold encode_command. split.
  - intros rest. cbn [app parse_command_array]. rewrite decide_False by tauto.
    rewrite <- !app_assoc, (app_assoc (display_usize _)), Hgot. rewrite decide_False by lia.
    apply (parse_args_got args); [done|]. pose proof (encode_args_length args).
    cbn [length]. rewrite !length_app. lia.
  - intros [|c q] Hq Hne; [done|]. apply prefix_cons_inv_1 in Hq as Hc. subst c.
    apply prefix_cons_inv_2 in Hq. cbn [parse_command_array]. rewrite decide_False by tauto.
    rewrite app_assoc in Hq, Hne.
    destruct (prefix_app_cases _ _ _ Hq) as [[Hp Hnp]|(q' & -> & Hq')]; [by rewrite Hneed|].
    rewrite Hgot, decide_False by lia. apply parse_args_need; [done|done|]. intros ->. done.
Qed.

(** ** Frames *)

(** The values of a frame fit their Rust types. *)
Definition frame_wf (f : Frame) : Prop :=
  match f with
  | ReplConf node ack token => (node ≤ U64_MAX)%N ∧ (ack ≤ U64_MAX)%N ∧
      match token with Some id => length id = REPLID_LEN | None => True end
  | ReplPing id o | FullSync id o => length id = REPLID_LEN ∧ (o ≤ U64_MAX)%N
  | SyncKv db _ _ => (db < 2 ^ 32)%N
  | SyncEnd o => (o ≤ U64_MAX)%N
  | StreamPut o db _ _ | StreamDel o db _ => (o ≤ U64_MAX)%N ∧ (db < 2 ^ 32)%N
  | ImportReq slot => (slot < 2 ^ 16)%N
  end.

Lemma db_u64 db : (db < 2 ^ 32)%N → (db ≤ U64_MAX)%N.
Proof. unfold U64_MAX. lia. Qed.

Lemma slot_u64 slot : (slot < 2 ^ 16)%N → (slot ≤ U64_MAX)%N.
Proof. unfold U64_MAX. lia. Qed.

Lemma decode_frame_args f : frame_wf f → decode_args (frame_args f) = Some f.
Proof.
  destruct f as [node ack [token|]|id o|id o|db key v|o|o db key v|o db key|slot];
    cbn [frame_wf frame_args]; intros Hwf; unfold decode_args;
    repeat match goal with |- context [eq_ignore_ascii_case ?a ?b] =>
      let v := eval vm_compute in (eq_ignore_ascii_case a b) in change (eq_ignore_ascii_case a b) with v end;
    cbn iota; rewrite ?parse_u64_display by (destruct_and?; auto using db_u64, slot_u64);
    rewrite ?obind_Some; rewrite ?from_hex_as_hex by tauto; rewrite ?obind_Some;
    rewrite ?try_narrow_small by tauto; done.
Qed.

(** A replication frame survives the wire and its chunking. A frame whose
    arguments fit the length cap is decoded exactly, leaving the bytes after it; and
    any part of it that has arrived so far asks for more bytes, so a slow link is
    never mistaken for a corrupt one. *)
Theorem repl_frame_roundtrip f : frame_wf f → Forall arg_fits (frame_args f) →
  (∀ rest, frame_decode (frame_encode f ++ rest) = Got f rest) ∧
  ∀ q, q `prefix_of` frame_encode f → q ≠ frame_encode f → frame_decode q = Need.
Proof.
  intros Hwf Hfit. destruct (streams_command (frame_args f) Hfit) as [Hgot Hneed].
  { destruct f as [? ? []| | | | | | |]; cbn; unfold I64_MAX; lia. }
  unfold frame_decode, frame_encode. split.
  - intros rest. by rewrite Hgot, decode_frame_args.
  - intros q Hq Hne. by rewrite Hneed.
Qed.

(** ** Oversized arguments *)

Lemma parse_arg_oversized a rest : ¬ arg_fits a → (Z.of_nat (length a) ≤ I64_MAX)%Z →
  parse_arg (encode_bulk_arg a ++ rest) = Bad.
Proof.
  intros Ha Hl. unfold arg_fits in Ha. destruct (streams_display (length a) Hl) as [Hgot _].
  unfold encode_bulk_arg. cbn [app parse_arg]. rewrite decide_False by tauto.
  rewrite <- !app_assoc, (app_assoc (display_usize _)), Hgot.
  rewrite decide_False by lia. by rewrite decide_True by lia.
Qed.

Lemma parse_args_oversized args fuel acc rest : Forall (λ a, Z.of_nat (length a) ≤ I64_MAX)%Z args →
  ¬ Forall arg_fits args → length args ≤ fuel →
  parse_args fuel (Z.of_nat (length args)) (concat (map encode_bulk_arg args) ++ rest) acc = Bad.
Proof.
  intros Hl. revert fuel acc. induction Hl as [|a args Ha _ IH]; intros fuel acc Hn Hf; [by destruct Hn|].
  destruct fuel as [|fuel]; cbn in Hf; [lia|]. cbn [parse_args length map concat].
  rewrite decide_False by lia. rewrite <- app_assoc. destruct (decide (Z.of_nat (length a) ≤ MAX_CLUSTER_FRAME_LEN)%Z).
  - rewrite (proj1 (streams_arg a ltac:(done))).
    replace (Z.of_nat (S (length args)) - 1)%Z with (Z.of_nat (length args)) by lia.
    apply IH; [|lia]. intros Hall. apply Hn. by constructor.
  - by rewrite parse_arg_oversized.
Qed.

(** A frame with an argument over 512 MiB cannot be sent: the encoder emits it
    and the decoder refuses it, so the two do not round-trip. A value the client
    protocol accepts (up to 512 MiB) crosses the cap once its key and header are
    added to it. *)
Theorem oversized_frame_refused f rest : Forall (λ a, Z.of_nat (length a) ≤ I64_MAX)%Z (frame_args f) →
  ¬ Forall arg_fits (frame_args f) → frame_decode (frame_encode f ++ rest) = Bad.
Proof.
  intros Hl Hn. assert (length (frame_args f) ≤ 5) as Hlen by (destruct f as [? ? []| | | | | | |]; cbn; lia).
  destruct (streams_display (length (frame_args f))) as [Hgot _]; [unfold I64_MAX; lia|].
  unfold frame_decode, frame_encode, encode_command. cbn [app parse_command_array]. rewrite decide_False by tauto.
  rewrite <- !app_assoc, (app_assoc (display_usize _)), Hgot, decide_False by lia.
  rewrite (parse_args_oversized (frame_args f)); [done..|].
  pose proof (encode_args_length (frame_args f)). cbn [length]. rewrite !length_app. lia.
Qed.

(** ** Runs *)

Definition demo_id : ReplId := replicate 20 xab.
Definition demo_frame : Frame := StreamPut 18446744073709551615 7 (str "k") (CRLF ++ str "$-1").

Lemma repl_frame_roundtrip_witness :
  (∀ rest, frame_decode (frame_encode demo_frame ++ rest) = Got demo_frame rest) ∧
  (∀ q, q `prefix_of` frame_encode demo_frame → q ≠ frame_encode demo_frame → frame_decode q = Need) ∧
  frame_decode (frame_encode (FullSync demo_id 3)) = Got (FullSync demo_id 3) [].
Proof.
  assert (frame_wf demo_frame ∧ Forall arg_fits (frame_args demo_frame)) as [H1 H2].
  { split; [split; vm_compute; first [reflexivity|discriminate]|].
    repeat constructor; vm_compute; discriminate. }
  destruct (repl_frame_roundtrip demo_frame H1 H2) as [H3 H4].
  split; [exact H3|]. split; [exact H4|]. vm_compute. reflexivity.
Defined.

(** A value of 512 MiB and one byte. *)
Definition demo_huge : list byte := replicate (Z.to_nat 536870913) x00.

Lemma oversized_frame_refused_witness :
  frame_decode (frame_encode (StreamPut 1 0 (str "k") demo_huge) ++ []) = Bad.
Proof.
  assert (Z.of_nat (length demo_huge) = 536870913)%Z as Hh
    by (unfold demo_huge; rewrite length_replicate; apply Z2Nat.id; lia).
  apply (oversized_frame_refused (StreamPut 1 0 (str "k") demo_huge) []).
  - cbn [frame_args]. repeat (apply Forall_cons; split; [first [rewrite Hh; unfold I64_MAX; lia|vm_compute; discriminate]|]).
    apply Forall_nil_2.
  - cbn [frame_args]. intros Hf. do 4 apply Forall_inv_tail in Hf. apply Forall_inv in Hf.
    unfold arg_fits, MAX_CLUSTER_FRAME_LEN in Hf. lia.
Defined.
