(* ===== verification/ReplDisk.v ===== *)
(** * The replication tail and its disk-backed backlog

    crates/ironcache-repl/src/cursor.rs (offsets), observer.rs ([StreamOp]) and
    disk_backlog.rs: the segment files that hold the operations evicted from the
    in-memory window.

    A segment file is named by its sequence number, so the backlog directory is
    a finite map from sequence numbers to contents. Whether a write of a file
    succeeds is an argument. Offsets are u64; the ceiling at which [next]
    saturates is assumed not to be reached by the theorems. *)

From Stdlib Require Import Lia ZArith NArith.
From S2P Require Import Prelude RaftCodec FileStorage.

#[local] Open Scope N_scope.

(** ** Offsets and operations *)

Definition next (o : N) : N := sat_add64 o 1.
Definition max_with (a b : N) : N := N.max a b.

Inductive StreamOp :=
  | Put (offset db : N) (key kvobj_bytes : list byte)
  | Del (offset db : N) (key : list byte).

#[export] Instance StreamOp_eq_dec : EqDecision StreamOp.
Proof. solve_decision. Defined.

Definition offset (op : StreamOp) : N := match op with Put o _ _ _ | Del o _ _ => o end.

(** ** CRC-32 by table *)

Definition crc_table_bit (crc : N) : N :=
  if N.land crc 1 =? 1 then N.lxor (N.shiftr crc 1) CRC32_POLY else N.shiftr crc 1.

Definition crc_table_entry (i : N) : N := Nat.iter 8 crc_table_bit i.

Definition build_crc_table : list N := map (λ i, crc_table_entry (N.of_nat i)) (seq 0 256).

Definition crc_table_step (table : list N) (crc : N) (b : byte) : N :=
  let idx := N.land (N.lxor crc (Byte.to_N b)) 255 in
  N.lxor (N.shiftr crc 8) (default 0 (table !! N.to_nat idx)).

Definition table_crc32 (data : list byte) : N :=
  N.lxor (foldl (crc_table_step build_crc_table) CRC32_ONES data) CRC32_ONES.

(** ** Segment files *)

Definition MAGIC : list byte := map byte_of_N [73; 67; 82; 66].
Definition FORMAT_VERSION : N := 1.
Definition HEADER_LEN : nat := 32.
Definition TAG_PUT : N := 0.
Definition TAG_DEL : N := 1.

Definition put_u32 (v : N) : list byte := to_le_bytes 4 v.
Definition cur_u32 : reader N := cur_le 4.

(** [len() as u32] and the bytes. *)
Definition put_bytes32 (bs : list byte) : list byte :=
  put_u32 (N.of_nat (length bs) mod 2 ^ 32) ++ bs.
Definition cur_bytes32 : reader (list byte) := len ← cur_u32; cur_take len.

Definition put_op_record (op : StreamOp) : list byte :=
  match op with
  | Put o db key kvobj_bytes =>
      put_u8 TAG_PUT ++ put_u64 o ++ put_u32 db ++ put_bytes32 key ++ put_bytes32 kvobj_bytes
  | Del o db key => put_u8 TAG_DEL ++ put_u64 o ++ put_u32 db ++ put_bytes32 key
  end.

Definition encode_segment (first last : N) (ops : list StreamOp) : list byte :=
  let body := concat (map put_op_record ops) in
  MAGIC ++ put_u32 FORMAT_VERSION ++ put_u64 first ++ put_u64 last ++
  put_u64 (N.of_nat (length ops)) ++ body ++ put_u32 (table_crc32 body).

(** One record; [prev] is the offset of the record before it. *)
Definition get_op_record (prev : option N) : reader StreamOp :=
  tag ← cur_u8; o ← cur_u64; db ← cur_u32; key ← cur_bytes32;
  if (match prev with Some p => negb (o =? p + 1) | None => false end) then reject else
  if tag =? TAG_PUT then (kvobj_bytes ← cur_bytes32; mret (Put o db key kvobj_bytes))
  else if tag =? TAG_DEL then mret (Del o db key) else reject.

(** [for _ in 0..count]; a record takes at least one byte. *)
Fixpoint get_op_records (fuel : nat) (count : N) (prev : option N) (out : list StreamOp)
    : reader (list StreamOp) :=
  if decide (count = 0) then mret out else
  match fuel with
  | O => reject
  | S fuel => op ← get_op_record prev; get_op_records fuel (count - 1) (Some (offset op)) (out ++ [op])
  end.

Definition decode_op_records (body : list byte) (count : N) : option (list StreamOp) :=
  whole (get_op_records (S (length body)) count None []) body.

Definition slice (bs : list byte) (i j : nat) : list byte := take (j - i) (drop i bs).

Definition read_segment (file : option (list byte)) (expect_first expect_last : N)
    : option (list StreamOp) :=
  bytes ← file;
  let n := length bytes in
  if decide (n < HEADER_LEN + 4)%nat then None else
  if decide (slice bytes 0 4 ≠ MAGIC) then None else
  if decide (from_le_bytes (slice bytes 4 8) ≠ FORMAT_VERSION) then None else
  let first := from_le_bytes (slice bytes 8 16) in
  let last_ := from_le_bytes (slice bytes 16 24) in
  let count := from_le_bytes (slice bytes 24 32) in
  if decide (first ≠ expect_first ∨ last_ ≠ expect_last) then None else
  let body := slice bytes HEADER_LEN (n - 4) in
  let stored_crc := from_le_bytes (drop (n - 4) bytes) in
  if decide (table_crc32 body ≠ stored_crc) then None else
  ops ← decode_op_records body count;
  if decide (offset <$> head ops ≠ Some first ∨ offset <$> last ops ≠ Some last_) then None
  else Some ops.

(** ** The backlog *)

Record SegmentMeta := mkMeta { sm_first : N; sm_last : N; sm_file : N; sm_bytes : N }.

Record DiskBacklog := mkBacklog {
  max_bytes : N;
  segs : list SegmentMeta;
  next_seq : N;
  total_bytes : N;
  files : gmap N (list byte)
}.

(** [open]: disabled at size zero; a fresh backlog otherwise, the old segments
    purged. *)
Definition backlog_open (max_bytes : N) : option DiskBacklog :=
  if decide (max_bytes = 0) then None else Some (mkBacklog max_bytes [] 0 0 ∅).

Definition oldest_offset (d : DiskBacklog) : option N := sm_first <$> head (segs d).
Definition newest_offset (d : DiskBacklog) : option N := sm_last <$> last (segs d).

Definition drop_oldest (d : DiskBacklog) : DiskBacklog :=
  match segs d with
  | [] => d
  | seg :: rest =>
      mkBacklog (max_bytes d) rest (next_seq d) (total_bytes d - sm_bytes seg)
        (delete (sm_file seg) (files d))
  end.

(** [while total_bytes > max_bytes && segments.len() > 1]. *)
Fixpoint evict_loop (n : nat) (d : DiskBacklog) : DiskBacklog :=
  match n with
  | O => d
  | S n =>
      if decide (max_bytes d < total_bytes d ∧ (1 < length (segs d))%nat)
      then evict_loop n (drop_oldest d) else d
  end.
Definition evict_to_bound (d : DiskBacklog) : DiskBacklog := evict_loop (length (segs d)) d.

(** [while segments.front().last <= cut]. *)
Fixpoint prune_loop (n : nat) (cut : N) (d : DiskBacklog) : DiskBacklog :=
  match n with
  | O => d
  | S n =>
      match segs d with
      | seg :: _ => if decide (sm_last seg ≤ cut) then prune_loop n cut (drop_oldest d) else d
      | [] => d
      end
  end.
Definition prune_through (cut : N) (d : DiskBacklog) : DiskBacklog := prune_loop (length (segs d)) cut d.

(** Each offset is one past the one before it ([ops.windows(2)]). *)
Fixpoint contiguous (ops : list StreamOp) : bool :=
  match ops with
  | a :: ((b :: _) as ops) => (offset b =? offset a + 1) && contiguous ops
  | _ => true
  end.

Inductive SpillError := Discontiguous | Io.

Definition spill (io : bool) (ops : list StreamOp) (d : DiskBacklog) : option SpillError * DiskBacklog :=
  match ops with
  | [] => (Some Discontiguous, d)
  | op :: _ =>
      let first := offset op in
      if (match newest_offset d with Some newest => negb (first =? newest + 1) | None => false end)
      then (Some Discontiguous, d) else
      if negb (contiguous ops) then (Some Discontiguous, d) else
      let last_ := default first (offset <$> last ops) in
      let bytes := encode_segment first last_ ops in
      if negb io then (Some Io, d) else
      let len := N.of_nat (length bytes) in
      (None, evict_to_bound
        (mkBacklog (max_bytes d) (segs d ++ [mkMeta first last_ (next_seq d) len]) (next_seq d + 1)
           (total_bytes d + len) (<[next_seq d := bytes]> (files d))))
  end.

(** The inner loop of [ops_after]: [inl] when it returns at a hole, [inr] when
    it goes on to the next segment. *)
Fixpoint scan_ops (ops : list StreamOp) (cursor : N) (max : nat) (expected : option N) (out : list StreamOp)
    : list StreamOp + option N * list StreamOp :=
  match ops with
  | [] => inr (expected, out)
  | op :: ops =>
      if decide (max ≤ length out)%nat then inr (expected, out) else
      let off := offset op in
      if decide (off ≤ cursor) then scan_ops ops cursor max expected out else
      if (match expected with Some exp => negb (off =? exp) | None => false end) then inl out
      else scan_ops ops cursor max (Some (off + 1)) (out ++ [op])
  end.

Fixpoint scan_segs (ss : list SegmentMeta) (fs : gmap N (list byte)) (cursor : N) (max : nat)
    (expected : option N) (out : list StreamOp) : list StreamOp :=
  match ss with
  | [] => out
  | seg :: ss =>
      if decide (max ≤ length out)%nat then out else
      if decide (sm_last seg ≤ cursor) then scan_segs ss fs cursor max expected out else
      match read_segment (fs !! sm_file seg) (sm_first seg) (sm_last seg) with
      | None => out
      | Some ops =>
          match scan_ops ops cursor max expected out with
          | inl out => out
          | inr (expected, out) => scan_segs ss fs cursor max expected out
          end
      end
  end.

Definition disk_ops_after (cursor : N) (max : nat) (d : DiskBacklog) : list StreamOp :=
  if decide (max = 0%nat) then [] else scan_segs (segs d) (files d) cursor max None [].
