(* ===== verification/ReplTail.v ===== *)
(** * What the backlog and the ring hold of the log of writes

    [log] is every operation the primary has produced since [start], in order.
    The disk segments hold a run of it, the in-memory window its end; a read
    forward of a cursor returns the operations right after the cursor. *)

From Stdlib Require Import Lia ZArith NArith.
From S2P Require Import Prelude RaftCodec RaftCodecProofs FileStorage ReplDisk ReplDiskProofs.

#[local] Open Scope N_scope.

Section log.
Context (start : N) (log : list StreamOp).
#[local] Notation "'log_head'" := (start + N.of_nat (length log)).

#[local] Notation "'past' c l" := (filter (λ op, (c < offset op)%N) l) (at level 10, c, l at level 9).

(** The operations with offsets in (a, b]. *)
Definition span (a b : N) : list StreamOp :=
  take (N.to_nat (b - a)) (drop (N.to_nat (a - start)) log).

Lemma span_nil a : span a a = [].
Proof. unfold span. by rewrite N.sub_diag. Qed.

Lemma span_length a b : start ≤ a → a ≤ b → b ≤ log_head → length (span a b) = N.to_nat (b - a).
Proof. intros. unfold span. rewrite length_take, length_drop. lia. Qed.

Lemma span_app a b c : start ≤ a → a ≤ b → b ≤ c → span a b ++ span b c = span a c.
Proof.
  intros. unfold span.
  replace (N.to_nat (b - start)) with (N.to_nat (a - start) + N.to_nat (b - a))%nat by lia.
  rewrite <- drop_drop. set (l := drop (N.to_nat (a - start)) log).
  replace (N.to_nat (c - a)) with (N.to_nat (b - a) + N.to_nat (c - b))%nat by lia.
  apply take_take_drop.
Qed.

Lemma span_take n a b : take n (span a b) = span a (N.min b (a + N.of_nat n)).
Proof. unfold span. rewrite take_take. f_equal. lia. Qed.

Lemma span_all : span start log_head = log.
Proof. unfold span. rewrite N.sub_diag. change (N.to_nat 0) with 0%nat. by rewrite drop_0, take_ge by lia. Qed.

Context (Hlog : numbered start log).

Lemma span_numbered a b : start ≤ a → a ≤ log_head → numbered a (span a b).
Proof.
  intros Ha Hh. unfold span. set (k := N.to_nat (a - start)).
  rewrite <- (take_drop k log) in Hlog. apply numbered_app in Hlog as [_ Hd].
  rewrite length_take_le in Hd by lia. replace (start + N.of_nat k) with a in Hd by lia.
  rewrite <- (take_drop (N.to_nat (b - a)) (drop k log)) in Hd. by apply numbered_app in Hd as [? _].
Qed.

Lemma filter_all_above c l a : numbered a l → c ≤ a → past c l = l.
Proof.
  revert a. induction l as [|op l IH]; intros a; [done|]. intros [Ho Hl] Hc.
  rewrite filter_cons_True by lia. f_equal. apply (IH (a + 1)); [done|lia].
Qed.

Lemma filter_none_below c l a : numbered a l → a + N.of_nat (length l) ≤ c →
  past c l = [].
Proof.
  revert a. induction l as [|op l IH]; intros a; [done|]. cbn [length]. intros [Ho Hl] Hc.
  rewrite filter_cons_False by lia. apply (IH (a + 1)); [done|lia].
Qed.

(** What is past a cursor within the run. *)
Lemma span_filter a b c : start ≤ a → a ≤ c → c ≤ b → b ≤ log_head →
  past c (span a b) = span c b.
Proof.
  intros. rewrite <- (span_app a c b) by lia. rewrite filter_app.
  rewrite (filter_none_below c (span a c) a), (filter_all_above c (span c b) c); [done|..].
  - apply span_numbered; lia.
  - lia.
  - apply span_numbered; lia.
  - rewrite span_length by lia. lia.
Qed.

(** Operations of the log that follow one another are a run of it. *)
Lemma in_span op : op ∈ log → start < offset op ∧ offset op ≤ log_head ∧ span (offset op - 1) (offset op) = [op].
Proof.
  intros [i Hi]%list_elem_of_lookup_1. pose proof (numbered_lookup _ _ _ _ Hlog Hi) as Ho.
  pose proof (lookup_lt_Some _ _ _ Hi). split; [lia|]. split; [lia|].
  unfold span. replace (N.to_nat (offset op - 1 - start)) with i by lia.
  replace (N.to_nat (offset op - (offset op - 1))) with 1%nat by lia.
  by rewrite (drop_S _ _ _ Hi).
Qed.

Lemma contiguous_span a l : Forall (λ op, op ∈ log) l → numbered a l → start ≤ a →
  l = span a (a + N.of_nat (length l)).
Proof.
  revert a. induction l as [|op l IH]; intros a Hin Hn Ha; [by rewrite N.add_0_r, span_nil|].
  apply Forall_cons in Hin as [Hop Hin]. destruct Hn as [Ho Hn]. cbn [length].
  destruct (in_span op Hop) as (_ & _ & Hs). rewrite Ho in Hs. replace (a + 1 - 1) with a in Hs by lia.
  rewrite <- (span_app a (a + 1)) by lia. rewrite Hs. cbn. f_equal.
  rewrite (IH (a + 1) Hin Hn) at 1 by lia. f_equal. lia.
Qed.

(** ** The segments *)

(** A segment covers a run of the log, and its file reads as that run or is
    rejected. *)
Definition seg_ok (fs : gmap N (list byte)) (sg : SegmentMeta) : Prop :=
  start < sm_first sg ∧ sm_first sg ≤ sm_last sg ∧ sm_last sg ≤ log_head ∧
  (read_segment (fs !! sm_file sg) (sm_first sg) (sm_last sg) = None ∨
   read_segment (fs !! sm_file sg) (sm_first sg) (sm_last sg) = Some (span (sm_first sg - 1) (sm_last sg))).

(** Each segment begins one past the one before it. *)
Fixpoint chain (ss : list SegmentMeta) : Prop :=
  match ss with
  | a :: ((b :: _) as ss) => sm_first b = sm_last a + 1 ∧ chain ss
  | _ => True
  end.

Record backlog_ok (d : DiskBacklog) : Prop := {
  bo_segs : Forall (seg_ok (files d)) (segs d);
  bo_chain : chain (segs d);
  bo_fresh : Forall (λ sg, sm_file sg < next_seq d) (segs d);
  bo_nodup : NoDup (sm_file <$> segs d)
}.

(** What the read loop takes from the segments, before the cursor and the limit. *)
Fixpoint readable (cursor : N) (ss : list SegmentMeta) (fs : gmap N (list byte)) : list StreamOp :=
  match ss with
  | [] => []
  | sg :: ss =>
      if decide (sm_last sg ≤ cursor) then readable cursor ss fs else
      match read_segment (fs !! sm_file sg) (sm_first sg) (sm_last sg) with
      | None => []
      | Some ops => ops ++ readable cursor ss fs
      end
  end.

Definition follows (exp : option N) (b : N) : Prop := match exp with Some e => e = b + 1 | None => True end.

Lemma scan_ops_spec ops cursor max exp out b :
  numbered b (past cursor ops) → follows exp b → (length out ≤ max)%nat →
  ∃ exp', scan_ops ops cursor max exp out =
    inr (exp', take max (out ++ past cursor ops)) ∧
    ((length out + length (past cursor ops) < max)%nat →
      follows exp' (b + N.of_nat (length (past cursor ops)))).
Proof.
  revert exp out b. induction ops as [|op ops IH]; intros exp out b Hn He Hl; cbn [scan_ops].
  - exists exp. rewrite app_nil_r, take_ge by done. split; [done|]. intros _. cbn. by rewrite N.add_0_r.
  - case_decide as Hmax.
    { exists exp. rewrite take_app_le, take_ge by lia. split; [done|]. lia. }
    case_decide as Hc.
    { rewrite filter_cons_False in * by lia. by apply IH. }
    rewrite filter_cons_True in * by lia. destruct Hn as [Ho Hn].
    assert ((match exp with Some e => negb (offset op =? e) | None => false end) = false) as ->.
    { destruct exp; [|done]. cbn in He. subst. by rewrite Ho, N.eqb_refl. }
    destruct (IH (Some (offset op + 1)) (out ++ [op]) (b + 1)) as (exp' & -> & Hf); [done|cbn; lia| |].
    { rewrite length_app. cbn. lia. }
    exists exp'. rewrite <- app_assoc. split; [done|]. intros Hlt. rewrite length_app in Hf. cbn [length] in *.
    replace (b + N.of_nat (S (length (past cursor ops)))) with
      (b + 1 + N.of_nat (length (past cursor ops))) by lia. apply Hf. lia.
Qed.

Lemma scan_segs_spec ss fs cursor max exp out b :
  numbered b (past cursor (readable cursor ss fs)) → follows exp b →
  (length out ≤ max)%nat →
  scan_segs ss fs cursor max exp out =
  take max (out ++ past cursor (readable cursor ss fs)).
Proof.
  revert exp out b. induction ss as [|sg ss IH]; intros exp out b Hn He Hl; cbn [scan_segs readable] in *.
  - by rewrite app_nil_r, take_ge.
  - destruct (decide (max ≤ length out)%nat) as [Hmax|Hmax]; [by rewrite take_app_le, take_ge by lia|].
    destruct (decide (sm_last sg ≤ cursor)) as [Hc|Hc]; [by apply (IH _ _ b)|].
    destruct (read_segment _ _ _) as [ops|]; [|by rewrite app_nil_r, take_ge].
    rewrite filter_app in *. apply numbered_app in Hn as [Hn1 Hn2].
    destruct (scan_ops_spec ops cursor max exp out b Hn1 He Hl) as (exp' & -> & Hf).
    set (f := past cursor ops) in *. rewrite app_assoc.
    destruct (decide (length out + length f < max)%nat) as [Hlt|Hge].
    + rewrite (take_ge (out ++ f)) by (rewrite length_app; lia).
      apply (IH _ _ (b + N.of_nat (length f))); [done|by apply Hf|rewrite length_app; lia].
    + assert (length (out ++ f) = length out + length f)%nat as Hlf by apply length_app.
      rewrite (take_app_le (out ++ f)) by lia. destruct ss as [|s2 ss]; [done|]. cbn [scan_segs].
      rewrite decide_True; [done|]. rewrite length_take. lia.
Qed.

(** Past the cursor, the readable segments are a run of the log. *)
Lemma readable_span ss fs cursor b : Forall (seg_ok fs) ss → chain ss → start ≤ cursor → cursor ≤ b → b ≤ log_head →
  match ss with [] => True | sg :: _ => sm_first sg ≤ b + 1 ∧ (cursor < b → sm_first sg = b + 1) end →
  ∃ q, b ≤ q ∧ q ≤ log_head ∧ past cursor (readable cursor ss fs) = span b q.
Proof.
  revert b. induction ss as [|sg ss IH]; intros b Hok Hch Hs Hcb Hb Hfirst; cbn [readable].
  { exists b. rewrite span_nil. split; [lia|done]. }
  apply Forall_cons in Hok as [(H1 & H2 & H3 & H4) Hok].
  assert (chain ss) as Hch' by (destruct ss; naive_solver).
  assert (match ss with [] => True | s2 :: _ => sm_first s2 = sm_last sg + 1 end) as Hnext
    by (destruct ss; naive_solver).
  destruct Hfirst as [Hf1 Hf2]. case_decide as Hc.
  - assert (b = cursor) as -> by (destruct (decide (cursor < b)); [lia|lia]).
    apply IH; [done..|]. destruct ss; [done|]. split; lia.
  - destruct H4 as [->| ->].
    { exists b. rewrite span_nil. split; [lia|done]. }
    rewrite filter_app. destruct (IH (sm_last sg)) as (q & Hq1 & Hq2 & ->); try done; [lia| |].
    { destruct ss; [done|]. split; lia. }
    exists q. split; [lia|]. split; [done|]. rewrite <- (span_app b (sm_last sg) q) by lia. f_equal.
    destruct (decide (cursor < b)).
    + replace (sm_first sg - 1) with b by lia. apply (filter_all_above cursor _ b); [|lia].
      apply span_numbered; lia.
    + assert (b = cursor) as -> by lia. apply span_filter; lia.
Qed.

(** Reading the backlog forward of a cursor at or above its floor yields the
    operations right after the cursor, in order. *)
Lemma disk_ops_after_span d cursor max : backlog_ok d → start ≤ cursor → cursor ≤ log_head →
  match oldest_offset d with Some o => o ≤ cursor + 1 | None => True end →
  ∃ q, cursor ≤ q ∧ q ≤ log_head ∧ disk_ops_after cursor max d = span cursor q ∧
    (length (disk_ops_after cursor max d) ≤ max)%nat.
Proof.
  intros [Hok Hch _ _] Hs Hc Ho. unfold disk_ops_after. case_decide as Hm.
  { exists cursor. rewrite span_nil. cbn. split; [lia|]. split; [lia|]. split; [done|lia]. }
  destruct (readable_span (segs d) (files d) cursor cursor) as (q & Hq1 & Hq2 & Hq); try done.
  { unfold oldest_offset in Ho. destruct (segs d); [done|]. cbn in Ho. split; lia. }
  rewrite (scan_segs_spec _ _ _ _ _ _ cursor); [|rewrite Hq; by apply span_numbered|done|cbn; lia].
  cbn [app]. rewrite Hq, span_take. exists (N.min q (cursor + N.of_nat max)).
  split; [lia|]. split; [lia|]. split; [done|]. rewrite span_length by lia. lia.
Qed.

(** ** The backlog's operations keep the invariant *)

Lemma seg_ok_delete fs sg f : sm_file sg ≠ f → seg_ok fs sg → seg_ok (delete f fs) sg.
Proof. unfold seg_ok. intros Hf. by rewrite lookup_delete_ne. Qed.

Lemma drop_oldest_ok d : backlog_ok d → backlog_ok (drop_oldest d).
Proof.
  intros [H1 H2 H3 H4]. unfold drop_oldest. destruct (segs d) as [|sg ss] eqn:Hs.
  { split; by rewrite ?Hs. }
  apply Forall_cons in H1 as [_ H1]. apply Forall_cons in H3 as [_ H3]. cbn in H4.
  apply NoDup_cons in H4 as [Hnin H4]. split; cbn; [|by destruct ss; naive_solver|done|done].
  rewrite Forall_forall in H1 |- *. intros x Hx. apply seg_ok_delete; [|by apply H1].
  intros Heq. apply Hnin. rewrite <- Heq. by apply list_elem_of_fmap_2.
Qed.

Lemma evict_loop_ok n d : backlog_ok d → backlog_ok (evict_loop n d).
Proof.
  revert d. induction n as [|n IH]; intros d Hd; cbn [evict_loop]; [done|].
  case_decide; [|done]. by apply IH, drop_oldest_ok.
Qed.

Lemma prune_loop_ok n cut d : backlog_ok d → backlog_ok (prune_loop n cut d).
Proof.
  revert d. induction n as [|n IH]; intros d Hd; cbn [prune_loop]; [done|].
  destruct (segs d); [done|]. case_decide; [|done]. by apply IH, drop_oldest_ok.
Qed.

Lemma chain_snoc ss sg : chain ss → match last ss with Some l => sm_first sg = sm_last l + 1 | None => True end →
  chain (ss ++ [sg]).
Proof.
  induction ss as [|a [|b ss] IH]; intros Hc Hl; [done|done|].
  destruct Hc as [Hab Hc]. split; [done|]. by apply IH.
Qed.

Lemma spill_ok io ops d : backlog_ok d → Forall (λ op, op ∈ log) ops → Forall op_wf ops →
  backlog_ok (spill io ops d).2.
Proof.
  intros Hd Hin Hwf. unfold spill. destruct ops as [|op ops]; [done|].
  destruct (match newest_offset d with Some _ => _ | None => _ end) eqn:Hnew; [done|].
  destruct (contiguous (op :: ops)) eqn:Hcont; [|done]. cbn [negb]. destruct io; [|done]. cbn [negb snd].
  apply evict_loop_ok. pose proof (Forall_inv Hin) as Hop. destruct (in_span op Hop) as (Ho & _ & _).
  pose proof (contiguous_numbered op ops Hcont ltac:(lia)) as Hn. set (l := op :: ops) in *.
  set (a := offset op - 1) in *. pose proof (contiguous_span a l Hin Hn ltac:(lia)) as Hspan.
  destruct (last l) as [x|] eqn:Hlast; [|by apply last_None in Hlast].
  pose proof (numbered_last _ _ _ Hn Hlast) as Hx. cbn [default fmap option_fmap option_map].
  assert (x ∈ log) as Hxl.
  { rewrite Forall_forall in Hin. apply Hin. apply last_Some in Hlast as [l' ->]. set_solver. }
  assert (vec l) as Hv.
  { apply last_Some in Hlast as [l' Hl']. rewrite Hl' in Hwf. apply Forall_app in Hwf as [_ Hwf].
    apply Forall_singleton in Hwf as [Hu _]. rewrite Hx in Hu. unfold vec, u64 in *. lia. }
  destruct (in_span x Hxl) as (_ & Hxh & _). destruct Hd as [H1 H2 H3 H4].
  split; cbn [segs files next_seq].
  - apply Forall_app. split.
    + rewrite Forall_forall in H1, H3 |- *. intros s Hs. pose proof (H3 s Hs). specialize (H1 s Hs).
      unfold seg_ok in *. rewrite lookup_insert_ne by lia. done.
    + apply Forall_singleton. unfold seg_ok. cbn [sm_first sm_last sm_file]. rewrite lookup_insert_eq.
      cbn [default from_option id]. assert (0 < N.of_nat (length l)) by (cbn; lia).
      split; [lia|]. split; [lia|]. split; [lia|]. right.
      replace (offset op) with (a + 1) by lia. replace (offset x) with (a + N.of_nat (length l)) by lia.
      rewrite read_segment_encode by done. f_equal. by replace (a + 1 - 1) with a by lia.
  - apply chain_snoc; [done|]. unfold newest_offset in Hnew. destruct (last (segs d)); [|done].
    cbn in Hnew |- *. apply negb_false_iff, N.eqb_eq in Hnew. done.
  - apply Forall_app. split; [eapply Forall_impl; [done|]; cbn; lia|]. apply Forall_singleton. cbn. lia.
  - rewrite fmap_app. apply NoDup_app. split; [done|]. split; [|apply NoDup_singleton].
    intros f Hf1 Hf2. cbn in Hf2. apply list_elem_of_singleton in Hf2 as ->.
    apply list_elem_of_fmap in Hf1 as (s & Hs & Hin'). rewrite Forall_forall in H3. specialize (H3 s Hin'). lia.
Qed.

End log.
