(* ===== verification/ReplStream.v ===== *)
(** * The replication stream: ring, shipping, applying

    crates/ironcache-repl/src/observer.rs (the bounded ring), stream.rs
    ([drain_and_ship] and [ReplicaApplier]), and the part of
    crates/ironcache/src/replica_attach.rs that decides between a resume and a
    full sync and drives the passes of a connection ([serve_replica_conn]).

    Sends are modelled by how many of a batch go out before the link fails. The
    replica's store is a parameter: what a put and a delete do to it. *)

From Stdlib Require Import Lia ZArith NArith.
From S2P Require Import Prelude RaftCodec FileStorage ReplFrames ReplDisk.

#[local] Open Scope N_scope.

(** ** The ring *)

Record ReplRing := mkRing {
  r_ops : list StreamOp;
  r_cap : nat;
  r_head : N;
  r_acked : N;
  must_resync : bool;
  r_disk : option DiskBacklog;
  spill_stage : list StreamOp
}.

Definition with_disk (cap : nat) (start : N) (disk : option DiskBacklog) : ReplRing :=
  mkRing [] (Nat.max cap 1) start start false disk [].

Definition set_offset (o : N) (op : StreamOp) : StreamOp :=
  match op with Put _ db key v => Put o db key v | Del _ db key => Del o db key end.

Definition oldest_retained (r : ReplRing) : N := from_option offset (r_head r) (head (r_ops r)).

Definition oldest_recoverable (r : ReplRing) : N :=
  match r_disk r ≫= oldest_offset with
  | Some oldest => oldest
  | None => match head (spill_stage r) with Some staged => offset staged | None => oldest_retained r end
  end.

Definition can_serve_from (from : N) (r : ReplRing) : bool :=
  (r_head r <=? from) || (oldest_recoverable r <=? next from).

Definition push (op : StreamOp) (r : ReplRing) : ReplRing :=
  let assigned := next (r_head r) in
  let op := set_offset assigned op in
  if decide (r_cap r ≤ length (r_ops r))%nat then
    let evicted := head (r_ops r) in
    let ops := tail (r_ops r) ++ [op] in
    match r_disk r with
    | Some _ =>
        let stage := spill_stage r ++ option_list evicted in
        if decide (r_cap r < length stage)%nat
        then mkRing ops (r_cap r) assigned (r_acked r) true (r_disk r) (tail stage)
        else mkRing ops (r_cap r) assigned (r_acked r) (must_resync r) (r_disk r) stage
    | None => mkRing ops (r_cap r) assigned (r_acked r) true None (spill_stage r)
    end
  else mkRing (r_ops r ++ [op]) (r_cap r) assigned (r_acked r) (must_resync r) (r_disk r) (spill_stage r).

(** Up to [max] of the operations past [cursor]. *)
Definition ops_after (cursor : N) (max : nat) (r : ReplRing) : list StreamOp :=
  take max (filter (λ op, cursor < offset op) (r_ops r)).

Definition flush_spill (io : bool) (r : ReplRing) : ReplRing :=
  match spill_stage r with
  | [] => r
  | batch =>
      match r_disk r with
      | None => mkRing (r_ops r) (r_cap r) (r_head r) (r_acked r) true None []
      | Some disk =>
          let '(err, disk) := spill io batch disk in
          mkRing (r_ops r) (r_cap r) (r_head r) (r_acked r)
            (match err with Some _ => true | None => must_resync r end) (Some disk) []
      end
  end.

Definition recover_ops_after (cursor : N) (max : nat) (r : ReplRing) : list StreamOp :=
  if decide (max = 0%nat) then [] else
  match r_disk r with
  | None => ops_after cursor max r
  | Some disk =>
      let mem_oldest := oldest_retained r in
      if decide (mem_oldest ≤ next cursor) then ops_after cursor max r else
      let out := disk_ops_after cursor max disk in
      let reached_boundary :=
        match last out with Some op => offset op + 1 =? mem_oldest | None => false end in
      if reached_boundary && (length out <? max)%nat
      then out ++ ops_after (mem_oldest - 1) (max - length out) r else out
  end.

(** [while ops.front().offset() <= bound { pop_front }]. *)
Fixpoint drop_through (bound : N) (ops : list StreamOp) : list StreamOp :=
  match ops with
  | op :: rest => if decide (offset op ≤ bound) then drop_through bound rest else ops
  | [] => []
  end.

Definition ack (o : N) (r : ReplRing) : ReplRing :=
  let o := if decide (r_head r < o) then r_head r else o in
  let acked := max_with (r_acked r) o in
  mkRing (drop_through acked (r_ops r)) (r_cap r) (r_head r) acked (must_resync r)
    (prune_through acked <$> r_disk r) (spill_stage r).

Definition rebase (cut : N) (r : ReplRing) : ReplRing :=
  mkRing (drop_through cut (r_ops r)) (r_cap r) (r_head r) (max_with (r_acked r) cut) false
    (prune_through cut <$> r_disk r) (drop_through cut (spill_stage r)).

(** ** Shipping *)

Inductive ShipOutcome := Shipped (n : nat) | ResyncNeeded | LinkDown.

Definition op_to_frame (op : StreamOp) : Frame :=
  match op with
  | Put o db key kvobj_bytes => StreamPut o db key kvobj_bytes
  | Del o db key => StreamDel o db key
  end.

(** A pass: the ring and the cursor it leaves, the operations whose frames
    ([op_to_frame]) went out, and what it reports. *)
Record Pass := mkPass {
  p_ring : ReplRing;
  p_cursor : N;
  p_sent : list StreamOp;
  p_outcome : ShipOutcome
}.

(** One [drain_and_ship]: [io] is whether a segment write succeeds, [link] how
    many sends succeed before the link fails. *)
Definition drain_and_ship (io : bool) (link : nat) (cursor : N) (max : nat) (r : ReplRing) : Pass :=
  let r := match r_disk r with Some _ => flush_spill io r | None => r end in
  if must_resync r then mkPass r cursor [] ResyncNeeded else
  if negb (can_serve_from cursor r) then mkPass r cursor [] ResyncNeeded else
  let batch := recover_ops_after cursor max r in
  let cursor := match last batch with Some op => max_with cursor (offset op) | None => cursor end in
  mkPass r cursor (take link batch)
    (if decide (link < length batch)%nat then LinkDown else Shipped (length batch)).

(** ** Serving a connection *)

(** The resume decision of [serve_replica_conn] and the cut the connection
    starts from: the replica's ack, or the head a full sync is cut at. *)
Definition attach (io : bool) (plain token_matches : bool) (handshake_ack : N) (r : ReplRing)
    : bool * N * ReplRing :=
  if plain && token_matches then
    let r := match r_disk r with Some _ => flush_spill io r | None => r end in
    let can_resume :=
      (0 <? handshake_ack) && (handshake_ack <=? r_head r) && negb (must_resync r) &&
      can_serve_from handshake_ack r in
    (can_resume, if can_resume then handshake_ack else r_head r, r)
  else (false, r_head r, r).

(** What the primary's tasks do to the ring: a write observed by the store's
    funnel, a replica attaching, and a pass of one of the connections. *)
Inductive primary_event :=
  | Write (op : StreamOp)
  | Attach (io plain token_matches : bool) (handshake_ack : N)
  | ShipPass (io : bool) (link : nat) (cursor : N) (max : nat).

Definition primary_step (ev : primary_event) (r : ReplRing) : option ShipOutcome * ReplRing :=
  match ev with
  | Write op => (None, push op r)
  | Attach io plain tok a => (None, (attach io plain tok a r).2)
  | ShipPass io link cursor max =>
      let p := drain_and_ship io link cursor max r in (Some (p_outcome p), p_ring p)
  end.

Fixpoint primary_run (evs : list primary_event) (r : ReplRing) : list ShipOutcome * ReplRing :=
  match evs with
  | [] => ([], r)
  | ev :: evs =>
      let '(out, r) := primary_step ev r in
      let '(outs, r) := primary_run evs r in
      (option_list out ++ outs, r)
  end.

(** ** Applying *)

Inductive ApplyOutcome := Applied (o : N) | Duplicate | Gap.

Section apply.
Context {KvObj Store : Type}.
Context (decode_kvobj : list byte → option KvObj).
Context (insert_object : N → KvObj → Store → Store) (delete_key : N → list byte → Store → Store).

(** The new applied offset, the store and the outcome. *)
Definition apply (applied : N) (store : Store) (frame : Frame) : N * Store * ApplyOutcome :=
  let expected := next applied in
  let out_of_order o := if decide (o ≤ applied) then Duplicate else Gap in
  match frame with
  | StreamPut o db _ kvobj_bytes =>
      if decide (o = expected) then
        match decode_kvobj kvobj_bytes with
        | Some obj => (expected, insert_object db obj store, Applied expected)
        | None => (applied, store, Gap)
        end
      else (applied, store, out_of_order o)
  | StreamDel o db key =>
      if decide (o = expected) then (expected, delete_key db key store, Applied expected)
      else (applied, store, out_of_order o)
  | _ => (applied, store, Applied applied)
  end.

Fixpoint apply_all (applied : N) (store : Store) (frames : list Frame) : N * Store :=
  match frames with
  | [] => (applied, store)
  | f :: frames => let '(applied, store, _) := apply applied store f in apply_all applied store frames
  end.

(** What one operation means for the keyspace. *)
Definition effect (op : StreamOp) (store : Store) : Store :=
  match op with
  | Put _ db _ kvobj_bytes =>
      match decode_kvobj kvobj_bytes with Some obj => insert_object db obj store | None => store end
  | Del _ db key => delete_key db key store
  end.

End apply.
