(* ===== verification/ReplProofs.v ===== *)
(** * Replication delivers every write exactly once, in order

    The ring always holds the end of the log of writes. A pass ships the
    operations right after its connection's cursor, whatever was pruned, spilled
    or damaged meanwhile; the replica's keyspace is always the one the primary
    had at some offset, and the primary's own when the connection has caught up. *)

From Stdlib Require Import Lia ZArith NArith.
From S2P Require Import Prelude RaftCodec RaftCodecProofs FileStorage ReplDisk ReplDiskProofs ReplTail ReplStream.

#[local] Open Scope N_scope.

(** ** Extending the log *)

Lemma span_extend start log l a b : start ≤ a → b ≤ start + N.of_nat (length log) →
  span start (log ++ l) a b = span start log a b.
Proof.
  intros Ha Hb. unfold span. destruct (decide (b ≤ a)).
  { replace (b - a) with 0 by lia. done. }
  rewrite drop_app_le by lia. rewrite take_app_le; [done|]. rewrite length_drop. lia.
Qed.

Lemma backlog_extend start log l d : backlog_ok start log d → backlog_ok start (log ++ l) d.
Proof.
  intros [H1 H2 H3 H4]. split; [|done..]. eapply Forall_impl; [exact H1|].
  intros sg (? & ? & ? & ?). unfold seg_ok. rewrite length_app, span_extend by (done || lia).
  repeat split; try done; lia.
Qed.

(** ** The ring holds the end of the log *)

Record ring_ok (start : N) (log : list StreamOp) (r : ReplRing) : Prop := {
  ro_numbered : numbered start log;
  ro_wf : Forall op_wf log;
  ro_head : r_head r = start + N.of_nat (length log);
  ro_u64 : r_head r ≤ U64_MAX;
  ro_ops : ∃ lo, start ≤ lo ∧ lo ≤ r_head r ∧ r_ops r = span start log lo (r_head r);
  ro_disk : match r_disk r with Some d => backlog_ok start log d | None => True end;
  ro_stage : Forall (λ op, op ∈ log) (spill_stage r);
  ro_nostage : r_disk r = None → spill_stage r = []
}.

Lemma drop_through_span start log bound lo hi : numbered start log → start ≤ lo → lo ≤ hi →
  hi ≤ start + N.of_nat (length log) →
  ∃ lo', lo ≤ lo' ∧ lo' ≤ hi ∧ drop_through bound (span start log lo hi) = span start log lo' hi.
Proof.
  intros Hn. remember (N.to_nat (hi - lo)) as n eqn:Hlen. revert lo Hlen.
  induction n as [|n IH]; intros lo Hlen Hs Hlo Hhi.
  - exists lo. replace hi with lo by lia. rewrite span_nil. split; [lia|done].
  - rewrite <- (span_app start log lo (lo + 1)) by lia.
    pose proof (span_numbered start log Hn lo (lo + 1) Hs ltac:(lia)) as Hnum.
    pose proof (span_length start log lo (lo + 1) Hs ltac:(lia) ltac:(lia)) as Hl.
    destruct (span start log lo (lo + 1)) as [|op [|]] eqn:Hsp; cbn in Hl; [lia| |lia].
    cbn [app drop_through]. case_decide.
    + destruct (IH (lo + 1)) as (lo' & ? & ? & ->); [lia..|]. exists lo'. split; [lia|done].
    + exists lo. split; [lia|]. split; [lia|]. by rewrite <- (span_app start log lo (lo + 1) hi), Hsp by lia.
Qed.

Lemma drop_through_incl bound l : drop_through bound l ⊆ l.
Proof. induction l as [|op l IH]; cbn; [done|]. case_decide; set_solver. Qed.

Lemma tail_span start log lo hi : start ≤ lo → lo < hi → hi ≤ start + N.of_nat (length log) →
  tail (span start log lo hi) = span start log (lo + 1) hi.
Proof.
  intros. rewrite <- (span_app start log lo (lo + 1) hi) by lia.
  pose proof (span_length start log lo (lo + 1) ltac:(lia) ltac:(lia) ltac:(lia)) as Hl.
  destruct (span start log lo (lo + 1)) as [|op [|]]; cbn in Hl; [lia|done|lia].
Qed.

Lemma span_incl start log a b : span start log a b ⊆ log.
Proof.
  unfold span. intros op Hin. apply elem_of_take in Hin as (i & Hi & _). rewrite lookup_drop in Hi.
  by eapply list_elem_of_lookup_2.
Qed.

Lemma span_last start log a op : numbered start log → start ≤ a → a = start + N.of_nat (length log) →
  span start (log ++ [op]) a (a + 1) = [op].
Proof.
  intros. unfold span. replace (N.to_nat (a - start)) with (length log) by lia.
  rewrite drop_app_length. replace (N.to_nat (a + 1 - a)) with 1%nat by lia. done.
Qed.

Lemma offset_set o op : offset (set_offset o op) = o.
Proof. by destruct op. Qed.

(** A write extends the log by the operation, numbered one past the head. *)
Lemma push_ok start log r op : ring_ok start log r → r_head r < U64_MAX →
  op_wf (set_offset (r_head r + 1) op) →
  ring_ok start (log ++ [set_offset (r_head r + 1) op]) (push op r).
Proof.
  intros [Hn Hwf Hh Hu (lo & Hlo1 & Hlo2 & Hops) Hd Hst Hns] Hlt Hop.
  assert (next (r_head r) = r_head r + 1) as Hnext by (unfold next, sat_add64; lia).
  set (op' := set_offset (r_head r + 1) op) in *. set (log' := log ++ [op']).
  assert (numbered start log') as Hn'.
  { apply numbered_app. split; [done|]. cbn. unfold op'. rewrite offset_set. lia. }
  assert (Forall op_wf log') as Hwf' by by apply Forall_app; split; [|apply Forall_singleton].
  assert (r_head r + 1 = start + N.of_nat (length log')) as Hh'
    by (unfold log'; rewrite length_app; cbn; lia).
  assert (∀ lo', start ≤ lo' → lo' ≤ r_head r →
    span start log lo' (r_head r) ++ [op'] = span start log' lo' (r_head r + 1)) as Hext.
  { intros lo' ? ?. rewrite <- (span_app start log' lo' (r_head r)) by lia.
    unfold log'. rewrite span_extend by lia. rewrite span_last by (done || lia). done. }
  assert (Forall (λ x, x ∈ log') (spill_stage r)) as Hst'.
  { eapply Forall_impl; [exact Hst|]. unfold log'. set_solver. }
  assert (match r_disk r with Some d => backlog_ok start log' d | None => True end) as Hd'.
  { destruct (r_disk r); [by apply backlog_extend|done]. }
  unfold push. rewrite Hnext. fold op'. case_decide as Hfull.
  2:{ split; cbn; try done; [lia|]. exists lo. split; [done|]. split; [lia|]. rewrite Hops. by apply Hext. }
  assert (∃ lo', start ≤ lo' ∧ lo' ≤ r_head r + 1 ∧
    tail (r_ops r) ++ [op'] = span start log' lo' (r_head r + 1)) as Hops'.
  { rewrite Hops. destruct (decide (lo = r_head r)) as [->|].
    - rewrite span_nil. exists (r_head r). split; [lia|]. split; [lia|]. rewrite <- Hext by lia. by rewrite span_nil.
    - exists (lo + 1). split; [lia|]. split; [lia|]. rewrite tail_span by lia. apply Hext; lia. }
  assert (Forall (λ x, x ∈ log') (spill_stage r ++ option_list (head (r_ops r)))) as Hst2.
  { apply Forall_app. split; [done|]. apply Forall_forall. intros x Hx. unfold log'. apply elem_of_app. left.
    apply (span_incl start log lo (r_head r)). rewrite <- Hops. destruct (r_ops r); cbn in Hx; set_solver. }
  destruct (r_disk r) as [d|] eqn:Hdd; [|split; cbn; try done; lia].
  case_decide; split; cbn; try done; try lia.
  by destruct (spill_stage r ++ _); [|apply Forall_cons in Hst2 as [_ ?]].
Qed.

Lemma flush_spill_ok start log io r : ring_ok start log r → ring_ok start log (flush_spill io r).
Proof.
  intros Hok. pose proof Hok as [Hn Hwf Hh Hu Hops Hd Hst Hns]. unfold flush_spill.
  destruct (spill_stage r) as [|op l] eqn:Hstage; [done|]. rewrite <- Hstage in *.
  destruct (r_disk r) as [d|] eqn:Hdd; [|split; cbn; try done; by rewrite ?Hdd].
  pose proof (spill_ok start log Hn io (spill_stage r) d Hd Hst) as Hsp.
  destruct (spill io (spill_stage r) d) as [err d'] eqn:Hs. split; cbn; try done.
  apply Hsp. rewrite Forall_forall in Hst, Hwf |- *. auto.
Qed.

Lemma ack_ok start log o r : ring_ok start log r → ring_ok start log (ack o r).
Proof.
  intros [Hn Hwf Hh Hu (lo & Hlo1 & Hlo2 & Hops) Hd Hst Hns]. split; cbn; try done.
  - rewrite Hops. destruct (drop_through_span start log (max_with (r_acked r)
      (if decide (r_head r < o) then r_head r else o)) lo (r_head r)) as (lo' & ? & ? & ->); [done|lia..|].
    exists lo'. split; [lia|done].
  - destruct (r_disk r); [|done]. cbn. by apply prune_loop_ok.
  - intros ?%fmap_None. auto.
Qed.

Lemma rebase_ok start log cut r : ring_ok start log r → ring_ok start log (rebase cut r).
Proof.
  intros [Hn Hwf Hh Hu (lo & Hlo1 & Hlo2 & Hops) Hd Hst Hns]. split; cbn; try done.
  - rewrite Hops. destruct (drop_through_span start log cut lo (r_head r)) as (lo' & ? & ? & ->); [done|lia..|].
    exists lo'. split; [lia|done].
  - destruct (r_disk r); [|done]. cbn. by apply prune_loop_ok.
  - rewrite Forall_forall in Hst |- *. intros x Hx. apply Hst. by apply (drop_through_incl cut).
  - intros ?%fmap_None. by rewrite Hns.
Qed.

(** ** A pass *)

Lemma ops_after_span start log r cursor max lo : ring_ok start log r →
  start ≤ lo → lo ≤ r_head r → r_ops r = span start log lo (r_head r) →
  lo ≤ cursor → cursor ≤ r_head r →
  ops_after cursor max r = span start log cursor (N.min (r_head r) (cursor + N.of_nat max)).
Proof.
  intros [Hn _ Hh _ _ _ _ _] Hlo Hle Hops Hc Hch. unfold ops_after.
  rewrite Hops, span_filter by (done || lia). apply span_take.
Qed.

(** The floor of the in-memory window: one past [lo], or the head when empty. *)
Lemma oldest_retained_span start log r lo : ring_ok start log r →
  start ≤ lo → lo ≤ r_head r → r_ops r = span start log lo (r_head r) →
  oldest_retained r = if decide (lo = r_head r) then r_head r else lo + 1.
Proof.
  intros [Hn _ Hh _ _ _ _ _] Hlo Hle Hops. unfold oldest_retained. rewrite Hops. case_decide as Heq.
  - subst lo. by rewrite span_nil.
  - pose proof (span_length start log lo (r_head r) Hlo ltac:(lia) ltac:(lia)) as Hl.
    pose proof (span_numbered start log Hn lo (r_head r) Hlo ltac:(lia)) as Hnum.
    destruct (span start log lo (r_head r)); cbn in Hl; [lia|]. apply Hnum.
Qed.

(** Within the window, or past an empty one, the memory read follows the cursor. *)
Lemma window_span start log r c max : ring_ok start log r → start ≤ c → c ≤ r_head r →
  oldest_retained r ≤ next c →
  ∃ q, c ≤ q ∧ q ≤ r_head r ∧ ops_after c max r = span start log c q.
Proof.
  intros Hok Hs Hc Hle. destruct (ro_ops _ _ _ Hok) as (lo & Hlo1 & Hlo2 & Hops).
  rewrite (oldest_retained_span start log r lo Hok Hlo1 Hlo2 Hops) in Hle.
  destruct (decide (lo ≤ c)).
  - exists (N.min (r_head r) (c + N.of_nat max)). split; [lia|]. split; [lia|].
    by apply (ops_after_span start log r c max lo).
  - unfold next, sat_add64 in Hle. case_decide as Hlr; [|lia]. exists c.
    rewrite span_nil. split; [lia|]. split; [done|]. unfold ops_after. rewrite Hops, Hlr, span_nil. by destruct max.
Qed.

(** What a recovery read returns follows the cursor without a gap. *)
Lemma recover_span start log r cursor max : ring_ok start log r → spill_stage r = [] →
  start ≤ cursor → cursor ≤ r_head r → can_serve_from cursor r = true →
  ∃ q, cursor ≤ q ∧ q ≤ r_head r ∧ recover_ops_after cursor max r = span start log cursor q.
Proof.
  intros Hok Hst Hs Hc Hcan. pose proof (ro_u64 _ _ _ Hok) as Hu. pose proof (ro_numbered _ _ _ Hok) as Hn.
  pose proof (ro_head _ _ _ Hok) as Hh. pose proof (ro_disk _ _ _ Hok) as Hd.
  assert (oldest_retained r ≤ r_head r) as Hold.
  { destruct (ro_ops _ _ _ Hok) as (lo & Hlo1 & Hlo2 & Hops).
    rewrite (oldest_retained_span start log r lo) by done. case_decide; lia. }
  unfold can_serve_from, oldest_recoverable in Hcan. rewrite Hst in Hcan. cbn [head] in Hcan.
  apply orb_true_iff in Hcan. rewrite !N.leb_le in Hcan.
  unfold recover_ops_after. case_decide; [by exists cursor; rewrite span_nil|].
  destruct (r_disk r) as [d|] eqn:Hdd; cbn [mbind option_bind] in Hcan.
  2:{ apply (window_span start log); try done. unfold next, sat_add64 in *. lia. }
  case_decide as Hwin; [by apply (window_span start log)|].
  assert (cursor < r_head r ∧ next cursor = cursor + 1) as [Hlt Hnx] by (unfold next, sat_add64 in *; lia).
  rewrite Hnx in *.
  destruct (disk_ops_after_span start log Hn d cursor max Hd Hs ltac:(lia)) as (q & Hq1 & Hq2 & Hq & _).
  { destruct (oldest_offset d); lia. }
  destruct (match last _ with Some _ => _ | None => _ end && _) eqn:Hb; [|exists q; split; [done|]; split; [lia|done]].
  apply andb_true_iff in Hb as [Hb _]. rewrite Hq in *.
  destruct (last (span start log cursor q)) as [op|] eqn:Hlast; [|done]. apply N.eqb_eq in Hb.
  pose proof (span_numbered start log Hn cursor q Hs ltac:(lia)) as Hnum.
  rewrite (numbered_last _ _ _ Hnum Hlast), span_length in Hb by lia.
  replace (oldest_retained r - 1) with q by lia.
  destruct (window_span start log r q (max - length (span start log cursor q)) Hok) as (q' & Hq3 & Hq4 & ->);
    [lia|lia|unfold next, sat_add64; lia|].
  exists q'. split; [lia|]. split; [done|]. by apply span_app.
Qed.

Lemma flush_stage io r : r_disk r ≠ None → spill_stage (flush_spill io r) = [].
Proof.
  intros Hd. unfold flush_spill. destruct (spill_stage r) eqn:Hst; [done|].
  destruct (r_disk r); [|done]. by destruct (spill _ _ _).
Qed.

Lemma flush_head io r : r_head (flush_spill io r) = r_head r.
Proof.
  unfold flush_spill. destruct (spill_stage r); [done|]. destruct (r_disk r); [|done]. by destruct (spill _ _ _).
Qed.

(** The ring as a pass finds it, after the flush. *)
Definition flushed (io : bool) (r : ReplRing) : ReplRing :=
  match r_disk r with Some _ => flush_spill io r | None => r end.

Lemma flushed_ok start log io r : ring_ok start log r →
  ring_ok start log (flushed io r) ∧ spill_stage (flushed io r) = [] ∧ r_head (flushed io r) = r_head r.
Proof.
  intros Hok. unfold flushed. destruct (r_disk r) eqn:Hd.
  - split; [by apply flush_spill_ok|]. split; [by apply flush_stage; rewrite Hd|apply flush_head].
  - split; [done|]. split; [by apply (ro_nostage _ _ _ Hok)|done].
Qed.

(** One pass: the ring stays good, the cursor never goes back nor past the head,
    and what is sent is the log right after the cursor. *)
Lemma pass_ok start log io link cursor max r : ring_ok start log r → start ≤ cursor → cursor ≤ r_head r →
  let p := drain_and_ship io link cursor max r in
  ring_ok start log (p_ring p) ∧ r_head (p_ring p) = r_head r ∧
  cursor ≤ p_cursor p ∧ p_cursor p ≤ r_head r ∧
  (∃ q, cursor ≤ q ∧ q ≤ p_cursor p ∧ p_sent p = span start log cursor q) ∧
  (∀ n, p_outcome p = Shipped n → p_sent p = span start log cursor (p_cursor p)).
Proof.
  intros Hok Hs Hc. destruct (flushed_ok start log io r Hok) as (Hok' & Hst & Hhd).
  unfold drain_and_ship. fold (flushed io r). set (r' := flushed io r) in *. rewrite <- Hhd in Hc |- *.
  assert (∀ o, o = ResyncNeeded → let p := mkPass r' cursor [] o in ring_ok start log (p_ring p) ∧
    r_head (p_ring p) = r_head r' ∧ cursor ≤ p_cursor p ∧ p_cursor p ≤ r_head r' ∧
    (∃ q, cursor ≤ q ∧ q ≤ p_cursor p ∧ p_sent p = span start log cursor q) ∧
    (∀ n, p_outcome p = Shipped n → p_sent p = span start log cursor (p_cursor p))) as Hresync.
  { intros o ->. cbn. split; [done|]. split; [done|]. split; [lia|]. split; [done|]. split; [|done].
    exists cursor. rewrite span_nil. split; [lia|]. split; [lia|done]. }
  destruct (must_resync r'); [by apply Hresync|].
  destruct (can_serve_from cursor r') eqn:Hcan; [|by apply Hresync]. cbn [negb].
  destruct (recover_span start log r' cursor max Hok' Hst Hs Hc Hcan) as (q & Hq1 & Hq2 & Hq).
  pose proof (ro_head _ _ _ Hok') as Hh.
  pose proof (span_numbered start log (ro_numbered _ _ _ Hok') cursor q Hs ltac:(lia)) as Hnum.
  pose proof (span_length start log cursor q Hs Hq1 ltac:(lia)) as Hl.
  rewrite Hq. cbn [p_ring p_cursor p_sent p_outcome].
  assert ((match last (span start log cursor q) with Some op => max_with cursor (offset op) | None => cursor end) = q) as ->.
  { destruct (last _) as [op|] eqn:Hlast.
    - rewrite (numbered_last _ _ _ Hnum Hlast), Hl. unfold max_with. lia.
    - apply last_None in Hlast. rewrite Hlast in Hl. cbn in Hl. lia. }
  split; [done|]. split; [done|]. split; [done|]. split; [done|]. split.
  - exists (N.min q (cursor + N.of_nat link)). rewrite span_take. split; [lia|]. split; [lia|done].
  - intros n. case_decide as Hlink; [done|]. intros _. by rewrite take_ge by lia.
Qed.
