(* ===== verification/ReplConverge.v ===== *)
(** * Convergence of a replica, and where the tail stops

    A connection's life as a step relation: writes, attaches, passes, acks and
    rebases by other consumers, failing and damaged segment files. The frames a
    connection has sent are the log right after its cut, so a replica that
    applies them has the primary's keyspace. The last part shows the states in
    which the stream stops without a resync, or resyncs for ever. *)

From Stdlib Require Import Lia ZArith NArith.
From S2P Require Import Prelude RaftCodec RaftCodecProofs FileStorage ReplFrames ReplDisk ReplDiskProofs ReplTail ReplStream ReplProofs.

#[local] Open Scope N_scope.

(** ** A connection *)

Record Session := mkSession {
  s_ring : ReplRing;
  s_log : list StreamOp;
  s_cut : N;
  s_cursor : N;
  s_sent : list StreamOp;
  s_live : bool
}.

Definition set_ring (r : ReplRing) (s : Session) : Session :=
  mkSession r (s_log s) (s_cut s) (s_cursor s) (s_sent s) (s_live s).

Definition set_file (f : N) (content : option (list byte)) (d : DiskBacklog) : DiskBacklog :=
  mkBacklog (max_bytes d) (segs d) (next_seq d) (total_bytes d) (partial_alter (λ _, content) f (files d)).

Definition with_backlog (d : DiskBacklog) (r : ReplRing) : ReplRing :=
  mkRing (r_ops r) (r_cap r) (r_head r) (r_acked r) (must_resync r) (Some d) (spill_stage r).

Definition fresh_session (cap : nat) (backlog_bytes : N) : Session :=
  mkSession (with_disk cap 0 (backlog_open backlog_bytes)) [] 0 0 [] false.

Inductive session_step : Session → Session → Prop :=
  (** the store's funnel observes a write *)
  | step_write op s : r_head (s_ring s) + 1 < U64_MAX → op_wf (set_offset (r_head (s_ring s) + 1) op) →
      session_step s (mkSession (push op (s_ring s)) (s_log s ++ [set_offset (r_head (s_ring s) + 1) op])
        (s_cut s) (s_cursor s) (s_sent s) (s_live s))
  (** the replica attaches (again): a resume from its ack or a full sync at the head *)
  | step_attach io plain tok a s :
      session_step s (mkSession (attach io plain tok a (s_ring s)).2 (s_log s)
        (attach io plain tok a (s_ring s)).1.2 (attach io plain tok a (s_ring s)).1.2 [] true)
  (** a pass of this connection; the connection ends unless it shipped *)
  | step_pass io link max s : s_live s = true →
      session_step s
        (let p := drain_and_ship io link (s_cursor s) max (s_ring s) in
         mkSession (p_ring p) (s_log s) (s_cut s) (p_cursor p) (s_sent s ++ p_sent p)
           (match p_outcome p with Shipped _ => true | _ => false end))
  (** a pass of another connection *)
  | step_other io link c max s : session_step s (set_ring (p_ring (drain_and_ship io link c max (s_ring s))) s)
  | step_ack o s : session_step s (set_ring (ack o (s_ring s)) s)
  | step_rebase cut s : session_step s (set_ring (rebase cut (s_ring s)) s)
  (** a segment file is lost, cut short or overwritten, so that reading it fails *)
  | step_damage d f content s : r_disk (s_ring s) = Some d →
      (∀ sg, sg ∈ segs d → sm_file sg = f → read_segment content (sm_first sg) (sm_last sg) = None) →
      session_step s (set_ring (with_backlog (set_file f content d) (s_ring s)) s).

Record session_ok (s : Session) : Prop := {
  so_ring : ring_ok 0 (s_log s) (s_ring s);
  so_small : r_head (s_ring s) < U64_MAX;
  so_cut : s_cut s ≤ s_cursor s;
  so_cursor : s_cursor s ≤ r_head (s_ring s);
  so_sent : ∃ q, s_cut s ≤ q ∧ q ≤ s_cursor s ∧ s_sent s = span 0 (s_log s) (s_cut s) q;
  so_live : s_live s = true → s_sent s = span 0 (s_log s) (s_cut s) (s_cursor s)
}.

Lemma fresh_session_ok cap bytes : session_ok (fresh_session cap bytes).
Proof.
  split; cbn; try done; [|exists 0; done].
  split; cbn; try done; [exists 0; done|]. unfold backlog_open. case_decide; [done|].
  split; cbn; try done. apply NoDup_nil_2.
Qed.

(** Changing only the ring, for the same log. *)
Lemma set_ring_ok s r : session_ok s → ring_ok 0 (s_log s) r → session_ok (set_ring r s).
Proof.
  intros [H1 H2 H3 H4 H5 H6] Hr.
  assert (r_head r = r_head (s_ring s)) as Heq by by rewrite (ro_head _ _ _ H1), (ro_head _ _ _ Hr).
  split; cbn; rewrite ?Heq; done.
Qed.

Lemma attach_ok log io plain tok a r : ring_ok 0 log r →
  ring_ok 0 log (attach io plain tok a r).2 ∧ (attach io plain tok a r).1.2 ≤ r_head (attach io plain tok a r).2.
Proof.
  intros Hok. unfold attach. destruct (plain && tok); cbn [fst snd]; [|done].
  fold (flushed io r). destruct (flushed_ok 0 log io r Hok) as (Hok' & _ & Hh). split; [done|].
  destruct (_ && can_serve_from _ _) eqn:Hb; [|done].
  rewrite !andb_true_iff, N.leb_le in Hb. tauto.
Qed.

Lemma damage_ok log d f content : backlog_ok 0 log d →
  (∀ sg, sg ∈ segs d → sm_file sg = f → read_segment content (sm_first sg) (sm_last sg) = None) →
  backlog_ok 0 log (set_file f content d).
Proof.
  intros [H1 H2 H3 H4] Hf. split; [|done..]. cbn. rewrite Forall_forall in H1 |- *. intros sg Hsg.
  destruct (H1 sg Hsg) as (? & ? & ? & Hr). repeat split; try done.
  destruct (decide (sm_file sg = f)) as [Heq|Hne].
  - left. rewrite Heq, lookup_partial_alter_eq. by apply Hf.
  - by rewrite lookup_partial_alter_ne by done.
Qed.

Lemma pass_any_ring log io link c max r : ring_ok 0 log r →
  ring_ok 0 log (p_ring (drain_and_ship io link c max r)).
Proof.
  intros Hok. unfold drain_and_ship. fold (flushed io r). destruct (flushed_ok 0 log io r Hok) as (Hok' & _).
  destruct (must_resync _); [done|]. by destruct (can_serve_from _ _).
Qed.

Lemma session_step_ok s s' : session_ok s → session_step s s' → session_ok s'.
Proof.
  intros Hs Hstep. pose proof Hs as [H1 H2 H3 H4 (q & Hq1 & Hq2 & Hq) H6].
  pose proof (ro_head _ _ _ H1) as Hh. destruct Hstep.
  - pose proof (push_ok 0 _ _ op H1 ltac:(lia) ltac:(done)) as Hp.
    assert (r_head (push op (s_ring s)) = r_head (s_ring s) + 1) as Hh'.
    { rewrite (ro_head _ _ _ Hp), length_app. cbn. lia. }
    split; cbn; rewrite ?Hh'; try done; try lia.
    + exists q. rewrite span_extend by lia. done.
    + rewrite span_extend by lia. done.
  - destruct (attach_ok _ io plain tok a _ H1) as [Hr Hc].
    split; cbn; try done.
    + rewrite (ro_head _ _ _ Hr). lia.
    + eexists. split; [|split]; [reflexivity|reflexivity|]. by rewrite span_nil.
    + by rewrite span_nil.
  - destruct (pass_ok 0 _ io link (s_cursor s) max _ H1 ltac:(lia) H4) as (P1 & P2 & P3 & P4 & (q' & Q1 & Q2 & Q3) & P6).
    specialize (H6 ltac:(done)).
    split; cbn; rewrite ?P2; try done; try lia.
    + exists q'. rewrite H6, Q3, span_app by lia. split; [lia|done].
    + destruct (p_outcome _) eqn:Ho; try done. intros _. rewrite H6, (P6 _ eq_refl). apply span_app; lia.
  - apply set_ring_ok; [done|]. by apply pass_any_ring.
  - apply set_ring_ok; [done|]. by apply ack_ok.
  - apply set_ring_ok; [done|]. by apply rebase_ok.
  - apply set_ring_ok; [done|]. destruct H1 as [R1 R2 R3 R4 R5 R6 R7 R8]. split; cbn; try done.
    rewrite H in R6. by apply damage_ok.
Qed.

Lemma session_reachable cap bytes s : rtc session_step (fresh_session cap bytes) s → session_ok s.
Proof.
  intros Hr. cut (session_ok (fresh_session cap bytes)); [|apply fresh_session_ok].
  induction Hr as [|x y z Hxy _ IH]; [done|]. intros Hx. apply IH. by eapply session_step_ok.
Qed.

(** ** The replica *)

Section replica.
Context {KvObj Store : Type}.
Context (decode_kvobj : list byte → option KvObj).
Context (insert_object : N → KvObj → Store → Store) (delete_key : N → list byte → Store → Store).

#[local] Notation "'eff'" := (effect decode_kvobj insert_object delete_key).
#[local] Notation "'applies'" := (apply_all decode_kvobj insert_object delete_key).

(** The keyspace after the writes up to an offset. *)
Definition keyspace (store0 : Store) (log : list StreamOp) (o : N) : Store :=
  foldl (λ s op, eff op s) store0 (span 0 log 0 o).

(** A put carries a value the replica can decode. *)
Definition decodable (op : StreamOp) : Prop :=
  match op with Put _ _ _ v => is_Some (decode_kvobj v) | Del _ _ _ => True end.

Lemma keyspace_next store0 log op : numbered 0 log → op ∈ log →
  keyspace store0 log (offset op) = eff op (keyspace store0 log (offset op - 1)).
Proof.
  intros Hn Hin. destruct (in_span 0 log Hn op Hin) as (H1 & H2 & H3). unfold keyspace.
  rewrite <- (span_app 0 log 0 (offset op - 1) (offset op)) by lia. by rewrite H3, foldl_app.
Qed.

(** A frame of the stream carries an operation of the log. *)
Definition of_log (log : list StreamOp) (f : Frame) : Prop :=
  match f with
  | StreamPut o db key v => Put o db key v ∈ log
  | StreamDel o db key => Del o db key ∈ log
  | _ => True
  end.

(** One frame, in or out of order, leaves the keyspace of some offset. *)
Lemma apply_keyspace store0 log a f : numbered 0 log → N.of_nat (length log) < U64_MAX →
  a ≤ N.of_nat (length log) → of_log log f →
  ∃ b out, a ≤ b ∧ b ≤ N.of_nat (length log) ∧
    apply decode_kvobj insert_object delete_key a (keyspace store0 log a) f = (b, keyspace store0 log b, out).
Proof.
  intros Hn Hlt Ha Hf. assert (next a = a + 1) as Hnx by (unfold next, sat_add64; lia).
  assert (∀ op, op ∈ log → offset op = a + 1 → a + 1 ≤ N.of_nat (length log) ∧
    keyspace store0 log (a + 1) = eff op (keyspace store0 log a)) as Hnext.
  { intros op Hin Ho. destruct (in_span 0 log Hn op Hin) as (_ & Hle & _).
    pose proof (keyspace_next store0 log op Hn Hin) as Hk. rewrite Ho in Hk, Hle.
    replace (a + 1 - 1) with a in Hk by lia. split; [lia|done]. }
  destruct f as [| | | | |o db key v|o db key|]; cbn [apply of_log] in *; rewrite ?Hnx; try by eexists a, _.
  - case_decide as Ho; [|by eexists a, _]. destruct (Hnext _ Hf Ho) as [Hle Hk]. cbn [effect] in Hk.
    destruct (decode_kvobj v); [|by eexists a, _].
    exists (a + 1), (Applied (a + 1)). rewrite Hk. split; [lia|done].
  - case_decide as Ho; [|by eexists a, _]. destruct (Hnext _ Hf Ho) as [Hle Hk]. cbn [effect] in Hk.
    exists (a + 1), (Applied (a + 1)). rewrite Hk. split; [lia|done].
Qed.

Lemma apply_all_keyspace store0 log a frames : numbered 0 log → N.of_nat (length log) < U64_MAX →
  a ≤ N.of_nat (length log) → Forall (of_log log) frames →
  ∃ b, a ≤ b ∧ b ≤ N.of_nat (length log) ∧
    applies a (keyspace store0 log a) frames = (b, keyspace store0 log b).
Proof.
  intros Hn Hlt Ha Hf. revert a Ha. induction Hf as [|f frames Hf _ IH]; intros a Ha; cbn [apply_all].
  - by exists a.
  - destruct (apply_keyspace store0 log a f Hn Hlt Ha Hf) as (b & out & H1 & H2 & ->).
    destruct (IH b H2) as (c & H3 & H4 & ->). exists c. split; [lia|done].
Qed.

(** In order and without loss, every operation is applied. *)
Lemma apply_all_span store0 log a b : numbered 0 log → N.of_nat (length log) < U64_MAX →
  Forall decodable log → a ≤ b → b ≤ N.of_nat (length log) →
  applies a (keyspace store0 log a) (map op_to_frame (span 0 log a b)) = (b, keyspace store0 log b).
Proof.
  intros Hn Hlt Hdec. remember (N.to_nat (b - a)) as n eqn:Hlen. revert a Hlen.
  induction n as [|n IH]; intros a Hlen Hab Hb.
  - replace b with a by lia. by rewrite span_nil.
  - rewrite <- (span_app 0 log a (a + 1) b) by lia.
    pose proof (span_length 0 log a (a + 1) ltac:(lia) ltac:(lia) ltac:(lia)) as Hl.
    pose proof (span_numbered 0 log Hn a (a + 1) ltac:(lia) ltac:(lia)) as Hnum.
    destruct (span 0 log a (a + 1)) as [|op [|]] eqn:Hsp; cbn in Hl; [lia| |lia]. destruct Hnum as [Ho _].
    assert (op ∈ log) as Hin by (apply (span_incl 0 log a (a + 1)); rewrite Hsp; set_solver).
    pose proof (keyspace_next store0 log op Hn Hin) as Hk. rewrite Ho in Hk.
    replace (a + 1 - 1) with a in Hk by lia. rewrite Forall_forall in Hdec. specialize (Hdec op Hin).
    rewrite <- (IH (a + 1)) by lia. rewrite Hk. cbn [app map apply_all].
    assert (next a = a + 1) as Hnx by (unfold next, sat_add64; lia).
    destruct op as [o db key v|o db key]; cbn [effect op_to_frame apply offset] in *; rewrite Hnx, decide_True by done;
      [|done]. destruct Hdec as [obj ->]. done.
Qed.

(** (C28) A replica is never ahead of, behind or beside the primary's history.
    From the keyspace of some offset, whatever stream frames of the primary's log
    arrive, lost, repeated or reordered in any way, with other frames between
    them, the replica's keyspace is the one the primary had at the replica's
    applied offset, which never goes back. *)
Theorem replica_always_at_an_offset store0 log a frames :
  numbered 0 log → N.of_nat (length log) < U64_MAX → a ≤ N.of_nat (length log) →
  Forall (of_log log) frames →
  ∃ b, a ≤ b ∧ b ≤ N.of_nat (length log) ∧
    applies a (keyspace store0 log a) frames = (b, keyspace store0 log b).
Proof. apply apply_all_keyspace. Qed.

(** (C6) Replication delivers every write exactly once, in order. In every state
    a primary can reach by writes, attaches, passes, acks, rebases, failed and
    damaged segment files, a connection that is up has sent exactly the writes
    between its cut and its cursor; so a replica that has the snapshot of the cut
    and applies the frames holds the primary's keyspace at the cursor, and the
    primary's own keyspace once the cursor is at the head. *)
Theorem replication_converges cap bytes s store0 :
  rtc session_step (fresh_session cap bytes) s → s_live s = true → Forall decodable (s_log s) →
  s_sent s = span 0 (s_log s) (s_cut s) (s_cursor s) ∧
  applies (s_cut s) (keyspace store0 (s_log s) (s_cut s)) (map op_to_frame (s_sent s)) =
    (s_cursor s, keyspace store0 (s_log s) (s_cursor s)) ∧
  (s_cursor s = r_head (s_ring s) →
   keyspace store0 (s_log s) (s_cursor s) = foldl (λ st op, eff op st) store0 (s_log s)).
Proof.
  intros Hr Hlive Hdec. destruct (session_reachable cap bytes s Hr) as [H1 H2 H3 H4 _ H6].
  pose proof (ro_head _ _ _ H1) as Hh. rewrite (H6 Hlive). split; [done|]. split.
  - apply apply_all_span; [apply H1|lia|done|done|lia].
  - intros ->. unfold keyspace. rewrite Hh. by rewrite span_all.
Qed.

End replica.

(** ** Progress *)

(** A pass of an in-memory ring catches up. If the ring is not latched and
    holds what the connection needs next, a pass over a working link ships the
    next [max] operations, or all that are left, and moves the cursor past them. *)
Theorem pass_catches_up start log io cursor max r : ring_ok start log r → r_disk r = None →
  must_resync r = false → start ≤ cursor → cursor ≤ r_head r → oldest_retained r ≤ cursor + 1 → r_ops r ≠ [] →
  drain_and_ship io max cursor max r =
    mkPass r (N.min (r_head r) (cursor + N.of_nat max))
      (span start log cursor (N.min (r_head r) (cursor + N.of_nat max)))
      (Shipped (N.to_nat (N.min (r_head r - cursor) (N.of_nat max)))).
Proof.
  intros Hok Hd Hm Hs Hc Hold Hne. pose proof (ro_head _ _ _ Hok) as Hh. pose proof (ro_u64 _ _ _ Hok) as Hu.
  destruct (ro_ops _ _ _ Hok) as (lo & Hlo1 & Hlo2 & Hops).
  rewrite (oldest_retained_span start log r lo) in Hold by done.
  assert (lo ≤ cursor) as Hlo. { case_decide; [|lia]. subst lo. by rewrite Hops, span_nil in Hne. }
  assert (can_serve_from cursor r = true) as Hcan.
  { unfold can_serve_from, oldest_recoverable. rewrite Hd, (ro_nostage _ _ _ Hok Hd). cbn [mbind option_bind head].
    rewrite (oldest_retained_span start log r lo) by done. apply orb_true_iff. rewrite !N.leb_le.
    unfold next, sat_add64. case_decide; lia. }
  set (q := N.min (r_head r) (cursor + N.of_nat max)).
  assert (recover_ops_after cursor max r = span start log cursor q) as Hrec.
  { unfold recover_ops_after. rewrite Hd. destruct (decide (max = 0%nat)) as [H0|H0].
    - unfold q. rewrite H0. replace (N.min _ _) with cursor by lia. by rewrite span_nil.
    - by apply (ops_after_span start log r cursor max lo). }
  pose proof (span_length start log cursor q Hs ltac:(lia) ltac:(lia)) as Hl.
  unfold drain_and_ship. rewrite Hd, Hm, Hcan, Hrec. cbn [negb].
  rewrite decide_False, take_ge by lia. f_equal.
  - destruct (last _) as [op|] eqn:Hlast.
    + pose proof (span_numbered start log (ro_numbered _ _ _ Hok) cursor q Hs ltac:(lia)) as Hnum.
      rewrite (numbered_last _ _ _ Hnum Hlast), Hl. unfold max_with. lia.
    + apply last_None in Hlast. rewrite Hlast in Hl. cbn in Hl. lia.
  - f_equal. lia.
Qed.

(** ** Where the stream stops *)

Definition latched (r : ReplRing) : Prop := r_disk r = None ∧ must_resync r = true.

Lemma push_latched op r : latched r → latched (push op r).
Proof. intros [Hd Hm]. unfold push. case_decide; rewrite ?Hd; by split. Qed.

Lemma primary_step_latched ev r : latched r →
  latched (primary_step ev r).2 ∧ ∀ o, (primary_step ev r).1 = Some o → o = ResyncNeeded.
Proof.
  intros Hl. pose proof Hl as [Hd Hm]. destruct ev as [op|io plain tok a|io link c max]; cbn [primary_step fst snd].
  - split; [by apply push_latched|done].
  - split; [|done]. unfold attach. rewrite Hd. by destruct (plain && tok).
  - unfold drain_and_ship. rewrite Hd, Hm. cbn. split; [done|congruence].
Qed.

Lemma primary_run_latched evs r : latched r → Forall (λ o, o = ResyncNeeded) (primary_run evs r).1.
Proof.
  revert r. induction evs as [|ev evs IH]; intros r Hl; cbn [primary_run]; [by constructor|].
  destruct (primary_step_latched ev r Hl) as [Hl' Ho].
  destruct (primary_step ev r) as [out r']. cbn [fst snd] in *. specialize (IH r' Hl').
  destruct (primary_run evs r') as [outs r2]. cbn [fst] in *. destruct out; cbn; [|done].
  constructor; [by apply Ho|done].
Qed.

Lemma pushes_latched ops r : latched r → latched (foldl (λ r op, push op r) r ops).
Proof. revert r. induction ops as [|op ops IH]; intros r Hr; [done|]. cbn [foldl]. by apply IH, push_latched. Qed.

(** The window of a ring without a backlog: full, the next write latches it. *)
Lemma writes_latch ops r : r_disk r = None → (r_cap r < length (r_ops r) + length ops)%nat →
  (length (r_ops r) ≤ r_cap r)%nat → latched (foldl (λ r op, push op r) r ops).
Proof.
  revert r. induction ops as [|op ops IH]; intros r Hd Hlen Hle; cbn [foldl length] in *; [lia|].
  unfold push at 2. rewrite Hd. case_decide as Hfull; [by apply pushes_latched|].
  apply IH; cbn [r_disk r_cap r_ops]; [done|rewrite length_app; cbn; lia..].
Qed.

(** Without a disk backlog the tail is lost for good after [cap] writes. The
    serving task neither acks nor rebases the ring, so once more writes than the
    window holds have been observed since the primary started, the resync latch
    stays set: whatever writes, attaches and passes follow, every pass of every
    connection ends in [ResyncNeeded] and no operation is shipped again. *)
Theorem tail_latched_for_ever cap start writes evs : (Nat.max cap 1 < length writes)%nat →
  Forall (λ o, o = ResyncNeeded)
    (primary_run evs (foldl (λ r op, push op r) (with_disk cap start None) writes)).1.
Proof.
  intros Hlen. apply primary_run_latched, writes_latch; cbn; [done|lia|lia].
Qed.

(** An unreadable segment stalls the stream instead of resyncing it. When the
    segment a connection needs next cannot be read, a pass reports [Shipped 0] and
    changes neither cursor nor ring, so every later pass does the same: the
    replica gets no frame it could take for a gap. *)
Theorem damaged_segment_stalls io link cursor max r d sg ss :
  r_disk r = Some d → segs d = sg :: ss → spill_stage r = [] → must_resync r = false →
  sm_first sg ≤ cursor + 1 → cursor < sm_last sg → cursor + 1 < oldest_retained r → cursor < U64_MAX →
  read_segment (files d !! sm_file sg) (sm_first sg) (sm_last sg) = None →
  drain_and_ship io link cursor max r = mkPass r cursor [] (Shipped 0).
Proof.
  intros Hd Hss Hst Hm Hf Hl Hold Hu Hbad.
  assert (next cursor = cursor + 1) as Hnx by (unfold next, sat_add64; lia).
  assert (flush_spill io r = r) as Hfl by by unfold flush_spill; rewrite Hst.
  assert (can_serve_from cursor r = true) as Hcan.
  { unfold can_serve_from, oldest_recoverable. rewrite Hd. cbn [mbind option_bind]. unfold oldest_offset.
    rewrite Hss, Hnx. cbn. apply orb_true_iff. right. by apply N.leb_le. }
  assert (disk_ops_after cursor max d = []) as Hdisk.
  { unfold disk_ops_after. case_decide; [done|]. rewrite Hss. cbn [scan_segs].
    case_decide; [done|]. rewrite decide_False by lia. by rewrite Hbad. }
  assert (recover_ops_after cursor max r = []) as Hrec.
  { unfold recover_ops_after. case_decide; [done|]. rewrite Hd, Hnx, decide_False by lia. by rewrite Hdisk. }
  unfold drain_and_ship. rewrite Hd, Hfl, Hm, Hcan, Hrec. cbn. by rewrite take_nil.
Qed.

(** The floor of an emptied window is one too low. After a consumer's ack has
    pruned the only write, a connection still at the offset before it is told that
    it can be served, and its pass reports [Shipped 0] instead of a resync although
    the write is gone. *)
Theorem pruned_write_not_resynced cap op io link max :
  can_serve_from 0 (ack 1 (push op (with_disk cap 0 None))) = true ∧
  r_head (ack 1 (push op (with_disk cap 0 None))) = 1 ∧
  drain_and_ship io link 0 max (ack 1 (push op (with_disk cap 0 None))) =
    mkPass (ack 1 (push op (with_disk cap 0 None))) 0 [] (Shipped 0).
Proof.
  assert (ack 1 (push op (with_disk cap 0 None)) = mkRing [] (Nat.max cap 1) 1 1 false None []) as ->.
  { unfold push. cbn [r_cap r_ops with_disk]. rewrite decide_False by (cbn; lia). by destruct op. }
  split; [done|]. split; [done|]. unfold drain_and_ship. cbn.
  unfold recover_ops_after. case_decide; cbn; [by destruct link|]. destruct max; [done|]. by destruct link.
Qed.

(** ** Runs *)

Definition demo_key : list byte := map byte_of_N [107].
Definition demo_put (v : N) : StreamOp := Put 0 0 demo_key [byte_of_N v].

(** A store that is a map from keys to values; every payload decodes. *)
Definition demo_insert (db : N) (obj : list byte) (st : list (list byte)) : list (list byte) := obj :: st.
Definition demo_delete (db : N) (key : list byte) (st : list (list byte)) : list (list byte) := [].

Definition demo_log : list StreamOp := [Put 1 0 demo_key [byte_of_N 7]; Del 2 0 demo_key; Put 3 0 demo_key []].

Lemma replica_always_at_an_offset_witness :
  ∃ b, 1 ≤ b ∧ b ≤ 3 ∧
    apply_all Some demo_insert demo_delete 1 (keyspace Some demo_insert demo_delete [] demo_log 1)
      (map op_to_frame [Put 3 0 demo_key []; Put 1 0 demo_key [byte_of_N 7]; Del 2 0 demo_key] ++ [SyncEnd 0]) =
    (b, keyspace Some demo_insert demo_delete [] demo_log b).
Proof.
  apply (replica_always_at_an_offset Some demo_insert demo_delete [] demo_log 1).
  - cbn. lia.
  - vm_compute. reflexivity.
  - vm_compute. discriminate.
  - repeat constructor; set_solver.
Defined.

Definition demo_backlog : option DiskBacklog := backlog_open 1000.
(** A window of two operations, so that two of four writes are spilled. *)
Definition demo_ring : ReplRing :=
  flush_spill true
    (foldl (λ r op, push op r) (with_disk 2 0 demo_backlog) [demo_put 1; demo_put 2; demo_put 3; demo_put 4]).

Definition demo_session : Session :=
  let s1 := (attach true true true 0 (with_disk 1 0 demo_backlog)) in
  let w r := push (demo_put 5) r in
  let r3 := w (w s1.2) in
  let p := drain_and_ship true 9 s1.1.2 9 r3 in
  mkSession (p_ring p) [Put 1 0 demo_key [byte_of_N 5]; Put 2 0 demo_key [byte_of_N 5]] s1.1.2 (p_cursor p) (p_sent p) true.

(** Attached at the start, two writes (one spilled to disk), and a pass. *)
Lemma demo_session_reachable : rtc session_step (fresh_session 1 1000) demo_session.
Proof.
  eapply rtc_l; [apply (step_attach true true true 0)|].
  eapply rtc_l; [apply (step_write (demo_put 5)); [vm_compute; reflexivity|]|].
  { split; [vm_compute; discriminate|vm_compute; tauto]. }
  eapply rtc_l; [apply (step_write (demo_put 5)); [vm_compute; reflexivity|]|].
  { split; [vm_compute; discriminate|vm_compute; tauto]. }
  eapply rtc_l; [apply (step_pass true 9 9); reflexivity|].
  match goal with |- rtc _ ?x _ => replace x with demo_session by (vm_compute; reflexivity) end.
  apply rtc_refl.
Qed.

Lemma replication_converges_witness :
  s_live demo_session = true ∧ length (s_sent demo_session) = 2%nat ∧
  s_sent demo_session = span 0 (s_log demo_session) (s_cut demo_session) (s_cursor demo_session) ∧
  apply_all Some demo_insert demo_delete (s_cut demo_session)
    (keyspace Some demo_insert demo_delete [] (s_log demo_session) (s_cut demo_session))
    (map op_to_frame (s_sent demo_session)) =
    (s_cursor demo_session, keyspace Some demo_insert demo_delete [] (s_log demo_session) (s_cursor demo_session)) ∧
  (s_cursor demo_session = r_head (s_ring demo_session) →
   keyspace Some demo_insert demo_delete [] (s_log demo_session) (s_cursor demo_session) =
   foldl (λ st op, effect Some demo_insert demo_delete op st) [] (s_log demo_session)).
Proof.
  split; [reflexivity|]. split; [vm_compute; reflexivity|].
  apply (replication_converges Some demo_insert demo_delete 1 1000 demo_session []).
  - exact demo_session_reachable.
  - reflexivity.
  - repeat constructor; eexists; reflexivity.
Defined.

Definition demo_memory_ring : ReplRing := push (demo_put 2) (push (demo_put 1) (with_disk 8 0 None)).

Lemma pass_catches_up_witness :
  drain_and_ship true 1 0 1 demo_memory_ring =
  mkPass demo_memory_ring 1 (span 0 [Put 1 0 demo_key [byte_of_N 1]; Put 2 0 demo_key [byte_of_N 2]] 0 1) (Shipped 1).
Proof.
  apply (pass_catches_up 0 [Put 1 0 demo_key [byte_of_N 1]; Put 2 0 demo_key [byte_of_N 2]]);
    [|reflexivity|reflexivity|lia|vm_compute; discriminate|vm_compute; discriminate|discriminate].
  refine (push_ok 0 [Put 1 0 demo_key [byte_of_N 1]] (push (demo_put 1) (with_disk 8 0 None)) (demo_put 2) _ _ _).
  - refine (push_ok 0 [] (with_disk 8 0 None) (demo_put 1) _ _ _).
    + destruct (fresh_session_ok 8 0) as [H _ _ _ _ _]. exact H.
    + vm_compute. reflexivity.
    + split; [vm_compute; discriminate|vm_compute; tauto].
  - vm_compute. reflexivity.
  - split; [vm_compute; discriminate|vm_compute; tauto].
Defined.

Lemma tail_latched_for_ever_witness :
  Forall (λ o, o = ResyncNeeded)
    (primary_run [Attach true true true 0; ShipPass true 9 2 9; Write (demo_put 3); ShipPass true 9 2 9]
      (foldl (λ r op, push op r) (with_disk 1 0 None) [demo_put 1; demo_put 2])).1.
Proof. apply (tail_latched_for_ever 1 0 [demo_put 1; demo_put 2]). vm_compute. lia. Defined.

(** The first segment file of [demo_ring] is gone. *)
Definition demo_damaged : ReplRing :=
  match r_disk demo_ring with Some d => with_backlog (set_file 0 None d) demo_ring | None => demo_ring end.

Lemma damaged_segment_stalls_witness :
  drain_and_ship true 9 0 9 demo_damaged = mkPass demo_damaged 0 [] (Shipped 0) ∧ r_head demo_damaged = 4.
Proof.
  split; [|vm_compute; reflexivity].
  eapply damaged_segment_stalls; [vm_compute; reflexivity|vm_compute; reflexivity|..]; vm_compute;
    first [reflexivity|discriminate].
Defined.
