(* ===== verification/Keyspace.v ===== *)
(** * The keyspace of a shard

    The store's partitioned tables (crates/ironcache-store/src/lib.rs): each
    logical database is a vector of slot tables, filled on the database's first
    write, and a key lives in the table its fixed-seed [scan_hash] selects. A slot
    table is the finite map the index refines ([DashMap]).

    The write funnels [put_object] and [remove_object] report every write: to the
    memory accounting, to the eviction policy, to the watch versions of optimistic
    transactions, to the replication observer and to the dirty set an incremental
    snapshot drains. What they report to is the [Ledger]. On them are built the
    store primitives, lazy and active expiry, the keyspace commands, the watches
    and the freeze a save starts from. [None] is a panic.

    A value is opaque but for its length and for being an empty collection. The
    two frequency bits of an entry, which only a victim selection reads, the
    keyspace notifications and the fence of the unused zero-copy path are left
    out; the version clock does not wrap. *)

From Stdlib Require Import Lia ZArith NArith.
From S2P Require Import Prelude.
From stdpp Require Import strings.

#[local] Open Scope N_scope.

(** ** The fixed-seed hash *)

Definition wrapping_mul (a b : N) : N := wrap64 (a * b).
Definition wrapping_add (a b : N) : N := wrap64 (a + b).

Definition scan_fold (h : N) (b : byte) : N :=
  let h := N.lxor h (Byte.to_N b) in
  let h := wrapping_mul h 1099511628211 in
  N.lxor h (N.shiftr h 33).

Definition scan_hash (key : list byte) : N :=
  let h := foldl scan_fold (N.lxor 11400714819323198485 11562461410679940143) key in
  let h := wrapping_add h 11400714819323198485 in
  let h := wrapping_mul (N.lxor h (N.shiftr h 30)) 13787848793156543929 in
  let h := wrapping_mul (N.lxor h (N.shiftr h 27)) 10723151780598845931 in
  N.lxor h (N.shiftr h 31).

Definition slot_index (key : list byte) (slots : N) : nat :=
  N.to_nat (N.land (scan_hash key) (slots - 1)).

(** ** Entries *)

(** The transfer form of an entry: its key, its deadline, its value. *)
Record KvObj (V : Type) := mkObj { ko_key : list byte; ko_expire : option N; ko_value : V }.
Arguments mkObj {V} _ _ _.
Arguments ko_key {V} _.
Arguments ko_expire {V} _.
Arguments ko_value {V} _.

(** Alive at its deadline, dead strictly past it. *)
Definition is_expired {V} (now : N) (o : KvObj V) : bool :=
  match ko_expire o with Some deadline => deadline <? now | None => false end.

Definition rekey {V} (dst : list byte) (o : KvObj V) : KvObj V := mkObj dst (ko_expire o) (ko_value o).

Definition with_expire {V} (deadline : option N) (o : KvObj V) : KvObj V := mkObj (ko_key o) deadline (ko_value o).
Definition with_value {V} (v : V) (o : KvObj V) : KvObj V := mkObj (ko_key o) (ko_expire o) v.

(** What the store asks of a value. *)
Class StoredValue (V : Type) := { logical_len : V → N; is_empty_collection : V → bool }.

Definition accounted_bytes `{StoredValue V} (o : KvObj V) : N := N.of_nat (length (ko_key o)) + logical_len (ko_value o).

(** ** What the funnels report to *)

Record WatchSlot := mkWatchSlot { ws_version : N; ws_watchers : N }.

(** The calls of [WriteObserver], with the committed entry of a write. *)
Inductive Observed (V : Type) :=
  | OnPut (db : N) (key : list byte) (new : KvObj V)
  | OnRemove (db : N) (key : list byte).
Arguments OnPut {V} _ _ _.
Arguments OnRemove {V} _ _.

(** The calls of [EvictionHook]. *)
Inductive HookCall :=
  | HookInsert (db : N) (key : list byte) (bytes : N)
  | HookRemove (db : N) (key : list byte) (bytes : N).

(** [observer] is [Some] while one is installed, with the calls it got;
    [hook_calls] are the calls the eviction policy got. *)
Record Ledger (V : Type) := mkLedger {
  used : N;
  lazy_expired : N;
  watch_versions : gmap (N * list byte) WatchSlot;
  watched_count : N;
  version_clock : N;
  observer : option (list (Observed V));
  hook_calls : list HookCall
}.
Arguments mkLedger {V} _ _ _ _ _ _ _.
Arguments used {V} _.
Arguments lazy_expired {V} _.
Arguments watch_versions {V} _.
Arguments watched_count {V} _.
Arguments version_clock {V} _.
Arguments observer {V} _.
Arguments hook_calls {V} _.

Section ledger.
Context {V : Type}.
Implicit Types l : Ledger V.

Definition account_add (bytes : N) l : Ledger V :=
  mkLedger (sat_add64 (used l) bytes) (lazy_expired l) (watch_versions l) (watched_count l) (version_clock l) (observer l) (hook_calls l).

Definition account_sub (bytes : N) l : Ledger V :=
  mkLedger (used l - bytes) (lazy_expired l) (watch_versions l) (watched_count l) (version_clock l) (observer l) (hook_calls l).

Definition count_lazy l : Ledger V :=
  mkLedger (used l) (sat_add64 (lazy_expired l) 1) (watch_versions l) (watched_count l) (version_clock l) (observer l) (hook_calls l).

Definition call_hook (c : HookCall) l : Ledger V :=
  mkLedger (used l) (lazy_expired l) (watch_versions l) (watched_count l) (version_clock l) (observer l) (hook_calls l ++ [c]).

Definition set_watches (w : gmap (N * list byte) WatchSlot) (count clock : N) l : Ledger V :=
  mkLedger (used l) (lazy_expired l) w count clock (observer l) (hook_calls l).

Definition set_observer (o : option (list (Observed V))) l : Ledger V :=
  mkLedger (used l) (lazy_expired l) (watch_versions l) (watched_count l) (version_clock l) o (hook_calls l).

(** A call of the observer, if one is installed. *)
Definition notify (c : Observed V) l : Ledger V := set_observer ((λ calls, calls ++ [c]) <$> observer l) l.

(** A slot takes the next tick of the clock. *)
Definition bump_slot (k : N * list byte) l : Ledger V :=
  match watch_versions l !! k with
  | Some slot =>
      set_watches (<[k := mkWatchSlot (version_clock l + 1) (ws_watchers slot)]> (watch_versions l))
        (watched_count l) (version_clock l + 1) l
  | None => l
  end.

Definition touch_watch (db : N) (key : list byte) l : Ledger V :=
  if decide (watched_count l = 0) then l else bump_slot (db, key) l.

Definition touch_all_watches_in_db (db : N) l : Ledger V :=
  if decide (watched_count l = 0) then l else
  foldl (λ l k, bump_slot k l) l (base.filter (λ k : N * list byte, k.1 = db) (map_to_list (watch_versions l)).*1).

End ledger.

Definition ledger_new {V} : Ledger V := mkLedger 0 0 ∅ 0 0 None [].

(** ** The store *)

Record ShardStore (V : Type) := mkStore {
  dbs : list (list (gmap (list byte) (KvObj V)));
  slots : N;
  dirty_keys : option (gset (N * list byte));
  passive : bool;
  saving : bool;
  ledger : Ledger V
}.
Arguments mkStore {V} _ _ _ _ _ _.
Arguments ledger {V} _.
Arguments dbs {V} _.
Arguments slots {V} _.
Arguments dirty_keys {V} _.
Arguments passive {V} _.
Arguments saving {V} _.

Section store.
Context {V : Type} {Hval : StoredValue V}.

Definition set_dbs (d : list (list (gmap (list byte) (KvObj V)))) (s : ShardStore V) : ShardStore V :=
  mkStore d (slots s) (dirty_keys s) (passive s) (saving s) (ledger s).
Definition set_dirty (d : option (gset (N * list byte))) (s : ShardStore V) : ShardStore V :=
  mkStore (dbs s) (slots s) d (passive s) (saving s) (ledger s).
Definition set_saving (b : bool) (s : ShardStore V) : ShardStore V :=
  mkStore (dbs s) (slots s) (dirty_keys s) (passive s) b (ledger s).
Definition set_passive (b : bool) (s : ShardStore V) : ShardStore V :=
  mkStore (dbs s) (slots s) (dirty_keys s) b (saving s) (ledger s).
Definition set_ledger (l : Ledger V) (s : ShardStore V) : ShardStore V :=
  mkStore (dbs s) (slots s) (dirty_keys s) (passive s) (saving s) l.

Definition report (f : Ledger V → Ledger V) : step (ShardStore V) unit := modify (λ s, set_ledger (f (ledger s)) s).

(** [with_hooks] and [with_slots_per_db]. *)
Definition store_new (databases : N) (slots_per_db : N) : ShardStore V :=
  mkStore (replicate (N.to_nat (N.max databases 1)) []) (2 ^ N.log2_up (N.max slots_per_db 1)) None false false
    ledger_new.

Definition databases (s : ShardStore V) : N := N.of_nat (length (dbs s)).

Definition db_index (db : N) (s : ShardStore V) : nat := Nat.min (N.to_nat db) (length (dbs s) - 1).

Definition slot_table (db_idx : nat) (key : list byte) (s : ShardStore V) : option (gmap (list byte) (KvObj V)) :=
  dbv ← dbs s !! db_idx; dbv !! slot_index key (slots s).

(** The entry of a key, if its table holds one. *)
Definition find_obj (db_idx : nat) (key : list byte) (s : ShardStore V) : option (KvObj V) :=
  t ← slot_table db_idx key s; t !! key.

(** Write through [slot_table_mut], which fills the database's tables first. *)
Definition slot_table_mut (db_idx : nat) (key : list byte)
    (f : gmap (list byte) (KvObj V) → gmap (list byte) (KvObj V)) : step (ShardStore V) unit := λ s,
  dbv ← dbs s !! db_idx;
  let dbv := if decide (length dbv = 0%nat) then replicate (N.to_nat (slots s)) ∅ else dbv in
  let slot := slot_index key (slots s) in
  t ← dbv !! slot;
  Some (tt, set_dbs (<[db_idx := <[slot := f t]> dbv]> (dbs s)) s).

Definition touch_dirty (db : N) (key : list byte) : step (ShardStore V) unit :=
  modify (λ s, set_dirty ((λ set, {[ (db, key) ]} ∪ set) <$> dirty_keys s) s).

Definition enable_dirty_tracking : step (ShardStore V) unit :=
  modify (λ s, set_dirty (Some (default ∅ (dirty_keys s))) s).

Definition take_dirty_keys : step (ShardStore V) (option (gset (N * list byte))) := λ s,
  Some (dirty_keys s, set_dirty ((λ _, ∅) <$> dirty_keys s) s).

(** The entry as it now sits in the table goes to the observer. *)
Definition observe_put (db : N) (db_idx : nat) (key : list byte) : step (ShardStore V) unit :=
  touch_dirty db key;;
  o ← gets (find_obj db_idx key);
  match o with Some obj => report (notify (OnPut db key obj)) | None => mret tt end.

Definition observe_remove (db : N) (key : list byte) : step (ShardStore V) unit :=
  touch_dirty db key;;
  report (notify (OnRemove db key)).

Definition put_object (db : N) (db_idx : nat) (key : list byte) (obj : KvObj V) : step (ShardStore V) bool :=
  report (touch_watch db key);;
  old ← gets (find_obj db_idx key);
  slot_table_mut db_idx key <[key := obj]>;;
  match old with
  | Some o => report (λ l, account_add (accounted_bytes obj) (account_sub (accounted_bytes o) l))
  | None => report (λ l, call_hook (HookInsert db key (accounted_bytes obj)) (account_add (accounted_bytes obj) l))
  end;;
  observe_put db db_idx key;;
  mret (bool_decide (is_Some old)).

(** [remove_object_crediting]: the weight to credit is the caller's. *)
Definition remove_object_crediting (db : N) (db_idx : nat) (key : list byte) (bytes : N) : step (ShardStore V) bool :=
  report (touch_watch db key);;
  old ← gets (find_obj db_idx key);
  slot_table_mut db_idx key (delete key);;
  if bool_decide (is_Some old) then
    report (λ l, call_hook (HookRemove db key bytes) (account_sub bytes l));;
    observe_remove db key;;
    mret true
  else mret false.

(** [remove_object]: the weight to credit is the entry's. *)
Definition remove_object (db : N) (db_idx : nat) (key : list byte) : step (ShardStore V) bool :=
  report (touch_watch db key);;
  old ← gets (find_obj db_idx key);
  slot_table_mut db_idx key (delete key);;
  match old with
  | Some o =>
      report (λ l, call_hook (HookRemove db key (accounted_bytes o)) (account_sub (accounted_bytes o) l));;
      observe_remove db key;;
      mret true
  | None => mret false
  end.

Definition set_entry_expire (db_idx : nat) (key : list byte) (deadline : option N) : step (ShardStore V) unit :=
  o ← gets (find_obj db_idx key);
  match o with
  | Some obj => slot_table_mut db_idx key <[key := with_expire deadline obj]>
  | None => mret tt
  end.

(** Whether a live entry is left; a passive replica hides a due key without removing it. *)
Definition expire_if_due (db : N) (db_idx : nat) (key : list byte) (now : N) : step (ShardStore V) bool :=
  o ← gets (find_obj db_idx key);
  match o with
  | Some o =>
      if is_expired now o then
        p ← gets passive;
        if (p : bool) then mret false else
        removed ← remove_object db db_idx key;
        when removed (report count_lazy);;
        mret false
      else mret true
  | None => mret false
  end.

(** ** The store primitives *)

(** [read], without the frequency bump. *)
Definition store_read (db : N) (key : list byte) (now : N) : step (ShardStore V) (option (KvObj V)) :=
  db_idx ← gets (db_index db);
  live ← expire_if_due db db_idx key now;
  if (live : bool) then gets (find_obj db_idx key) else mret None.

Definition contains (db : N) (key : list byte) (now : N) : step (ShardStore V) bool :=
  db_idx ← gets (db_index db);
  expire_if_due db db_idx key now.

Inductive ExpireWrite := Unchanged | KeepTtl | SetAt (at_ : N) | Clear.

Definition resolve_expire (expire : ExpireWrite) (old : option N) : option N :=
  match expire with
  | Unchanged | KeepTtl => old
  | SetAt at_ => Some at_
  | Clear => None
  end.

(** The deadline of the entry, [None] without one. *)
Definition deadline_of (db_idx : nat) (key : list byte) (s : ShardStore V) : option N :=
  o ← find_obj db_idx key s; ko_expire o.

Definition upsert (db : N) (key : list byte) (value : V) (expire : ExpireWrite) (now : N) : step (ShardStore V) bool :=
  db_idx ← gets (db_index db);
  existed ← expire_if_due db db_idx key now;
  old_deadline ← (if (existed : bool) then gets (deadline_of db_idx key) else mret None);
  put_object db db_idx key (mkObj key (resolve_expire expire old_deadline) value);;
  mret existed.

Definition store_delete (db : N) (key : list byte) (now : N) : step (ShardStore V) bool :=
  db_idx ← gets (db_index db);
  live ← expire_if_due db db_idx key now;
  if (live : bool) then remove_object db db_idx key else mret false.

Inductive RmwAction := AKeep | AInsert (v : V) | AReplace (v : V) | ADelete | AMutated.

Record RmwStep (R : Type) := mkStep { action : RmwAction; expire : ExpireWrite; reply : R }.
Arguments mkStep {R} _ _ _.
Arguments action {R} _.
Arguments expire {R} _.
Arguments reply {R} _.

(** The [Keep] arm: only the deadline may change, and only a change is a write. *)
Definition keep_value (db : N) (db_idx : nat) (key : list byte) (new_deadline old_deadline : option N) :
    step (ShardStore V) unit :=
  if decide (new_deadline = old_deadline) then mret tt else
  report (touch_watch db key);;
  set_entry_expire db_idx key new_deadline;;
  observe_put db db_idx key.

(** The closure sees the live entry, or none. *)
Definition rmw {R} (db : N) (key : list byte) (now : N) (f : option (KvObj V) → RmwStep R) : step (ShardStore V) R :=
  db_idx ← gets (db_index db);
  live ← expire_if_due db db_idx key now;
  step ← (if (live : bool) then o ← gets (find_obj db_idx key); o ← lift o; mret (f (Some o)) else mret (f None));
  old_deadline ← (if (live : bool) then gets (deadline_of db_idx key) else mret None);
  let new_deadline := resolve_expire (expire step) old_deadline in
  match action step with
  | AKeep => when live (keep_value db db_idx key new_deadline old_deadline)
  | AInsert v | AReplace v => put_object db db_idx key (mkObj key new_deadline v);; mret tt
  | ADelete => when live (remove_object db db_idx key;; mret tt)
  | AMutated => when live (if decide (new_deadline = old_deadline) then mret tt else set_entry_expire db_idx key new_deadline)
  end;;
  mret (reply step).

(** The in-place edit of the closure: the value it leaves in the table. *)
Definition edit_value (db_idx : nat) (key : list byte) (v : V) (o : KvObj V) : step (ShardStore V) unit :=
  slot_table_mut db_idx key <[key := with_value v o]>.

(** The [Mutated] arm of [rmw_mut]: an emptied collection goes; otherwise the new
    weight is charged and the deadline applied. *)
Definition finish_edit (db : N) (db_idx : nat) (key : list byte) (old_bytes : N) (new_deadline old_deadline : option N) :
    step (ShardStore V) unit :=
  o ← gets (find_obj db_idx key);
  if (match o with Some o => is_empty_collection (ko_value o) | None => false end : bool) then
    remove_object_crediting db db_idx key old_bytes;; mret tt
  else
  report (touch_watch db key);;
  let new_bytes := match o with Some o => accounted_bytes o | None => 0 end in
  when (negb (new_bytes =? old_bytes)) (report (λ l,
    call_hook (HookInsert db key new_bytes)
      (account_add new_bytes (account_sub old_bytes (call_hook (HookRemove db key old_bytes) l)))));;
  when (bool_decide (new_deadline ≠ old_deadline)) (set_entry_expire db_idx key new_deadline);;
  observe_put db db_idx key.

(** The closure sees the live entry and may leave another value in it. *)
Definition rmw_mut {R} (db : N) (key : list byte) (now : N) (f : option (KvObj V) → option V * RmwStep R) :
    step (ShardStore V) R :=
  db_idx ← gets (db_index db);
  live ← expire_if_due db db_idx key now;
  old ← (if (live : bool) then gets (find_obj db_idx key) else mret None);
  let old_bytes := match old with Some o => accounted_bytes o | None => 0 end in
  step ← (if (live : bool) then
            o ← lift old;
            let '(edit, step) := f (Some o) in
            match edit with Some v => edit_value db_idx key v o | None => mret tt end;;
            mret step
          else mret (f None).2);
  old_deadline ← (if (live : bool) then gets (deadline_of db_idx key) else mret None);
  let new_deadline := resolve_expire (expire step) old_deadline in
  match action step with
  | AKeep => when live (keep_value db db_idx key new_deadline old_deadline)
  | AInsert v | AReplace v => put_object db db_idx key (mkObj key new_deadline v);; mret tt
  | ADelete => when live (remove_object_crediting db db_idx key old_bytes;; mret tt)
  | AMutated => when live (finish_edit db db_idx key old_bytes new_deadline old_deadline)
  end;;
  mret (reply step).

(** The active drain's re-check; a live key is left alone. *)
Definition reap_if_expired (db : N) (key : list byte) (now : N) : step (ShardStore V) bool :=
  db_idx ← gets (db_index db);
  o ← gets (find_obj db_idx key);
  if (match o with Some o => is_expired now o | None => false end : bool) then remove_object db db_idx key else mret false.

(** ** The keyspace operations *)

Definition insert_object (db : N) (obj : KvObj V) : step (ShardStore V) unit :=
  db_idx ← gets (db_index db);
  put_object db db_idx (ko_key obj) obj;;
  mret tt.

Definition contains_live (db : N) (key : list byte) (now : N) (s : ShardStore V) : bool :=
  match find_obj (db_index db s) key s with Some o => negb (is_expired now o) | None => false end.

(** Every key of a database, over its slot tables. *)
Definition db_keys (db_idx : nat) (s : ShardStore V) : list (list byte) :=
  concat (map (λ t : gmap (list byte) (KvObj V), (map_to_list t).*1) (default [] (dbs s !! db_idx))).

(** Run an operation per element and count those that answer true. *)
Fixpoint count_each {A} (l : list A) (f : A → step (ShardStore V) bool) : step (ShardStore V) N :=
  match l with
  | [] => mret 0
  | x :: l => b ← f x; n ← count_each l f; mret ((if (b : bool) then 1 else 0) + n)
  end.

Definition flush_db (db : N) : step (ShardStore V) N :=
  db_idx ← gets (db_index db);
  keys ← gets (db_keys db_idx);
  removed ← count_each keys (remove_object db db_idx);
  report (touch_all_watches_in_db db);;
  mret removed.

(** [for db in 0..self.dbs.len()], adding up the counts. *)
Fixpoint each_db (n : nat) (f : nat → step (ShardStore V) N) : step (ShardStore V) N :=
  match n with
  | O => mret 0
  | S n => x ← each_db n f; y ← f n; mret (x + y)
  end.

Definition flush_all : step (ShardStore V) N :=
  n ← gets (λ s, length (dbs s));
  each_db n (λ db, flush_db (N.of_nat db)).

(** One victim of the purge: the observer is not told, the dirty set is. *)
Definition purge_key (db_idx : nat) (key : list byte) : step (ShardStore V) bool :=
  let db := N.of_nat db_idx in
  report (touch_watch db key);;
  old ← gets (find_obj db_idx key);
  slot_table_mut db_idx key (delete key);;
  match old with
  | Some o =>
      report (λ l, call_hook (HookRemove db key (accounted_bytes o)) (account_sub (accounted_bytes o) l));;
      touch_dirty db key;;
      mret true
  | None => mret false
  end.

(** The purge of an abandoned slot import. *)
Definition remove_keys_where (pred : list byte → bool) : step (ShardStore V) N :=
  n ← gets (λ s, length (dbs s));
  each_db n (λ db_idx,
    keys ← gets (db_keys db_idx);
    count_each (base.filter (λ key, pred key = true) keys) (purge_key db_idx)).

Inductive MoveMode := Rename | Copy.
Inductive MoveOutcome := Moved | Copied | NoSource | DestExists.

Definition move_object (src_db : N) (src : list byte) (dst_db : N) (dst : list byte) (mode : MoveMode)
    (replace : bool) (now : N) : step (ShardStore V) MoveOutcome :=
  src_idx ← gets (db_index src_db);
  dst_idx ← gets (db_index dst_db);
  live ← expire_if_due src_db src_idx src now;
  if negb live then mret NoSource else
  if decide (src_idx = dst_idx ∧ src = dst) then
    mret (match mode with Rename => Moved | Copy => Copied end)
  else
  dst_live ← expire_if_due dst_db dst_idx dst now;
  if (dst_live && negb replace)%bool then mret DestExists else
  o ← gets (find_obj src_idx src);
  match o with
  | None => mret NoSource
  | Some obj =>
      put_object dst_db dst_idx dst (rekey dst obj);;
      match mode with
      | Rename => remove_object src_db src_idx src;; mret Moved
      | Copy => mret Copied
      end
  end.

(** The two databases trade their slot vectors; every key of either is dirtied in both. *)
Definition swap_db (a b : N) : step (ShardStore V) unit :=
  ai ← gets (db_index a);
  bi ← gets (db_index b);
  if decide (ai = bi) then mret tt else
  d ← gets dbs;
  da ← lift (d !! ai);
  db ← lift (d !! bi);
  modify (λ s, set_dbs (<[bi := da]> (<[ai := db]> (dbs s))) s);;
  report (touch_all_watches_in_db a);;
  report (touch_all_watches_in_db b);;
  tracking ← gets (λ s, bool_decide (is_Some (dirty_keys s)));
  if (tracking : bool) then
    keys ← gets (λ s, db_keys ai s ++ db_keys bi s);
    for_each keys (λ k, touch_dirty a k;; touch_dirty b k)
  else mret tt.

(** ** Watches *)

Record WatchEntry := mkWatch { we_db : N; we_key : list byte; we_version : N; we_present : bool }.

Definition watch_snapshot (db : N) (key : list byte) (now : N) : step (ShardStore V) WatchEntry :=
  db_idx ← gets (db_index db);
  present ← expire_if_due db db_idx key now;
  l ← gets ledger;
  let slot := default (mkWatchSlot (version_clock l) 0) (watch_versions l !! (db, key)) in
  report (set_watches (<[(db, key) := mkWatchSlot (ws_version slot) (ws_watchers slot + 1)]> (watch_versions l))
    (watched_count l + 1) (version_clock l));;
  mret (mkWatch db key (ws_version slot) present).

Definition watch_is_dirty (e : WatchEntry) (now : N) : step (ShardStore V) bool :=
  db_idx ← gets (db_index (we_db e));
  present_now ← expire_if_due (we_db e) db_idx (we_key e) now;
  if negb (Bool.eqb present_now (we_present e)) then mret true else
  l ← gets ledger;
  mret (match watch_versions l !! (we_db e, we_key e) with
        | Some slot => negb (ws_version slot =? we_version e)
        | None => false
        end).

Definition unwatch_one (e : WatchEntry) (l : Ledger V) : Ledger V :=
  match watch_versions l !! (we_db e, we_key e) with
  | Some slot =>
      let watchers := ws_watchers slot - 1 in
      set_watches
        (if decide (watchers = 0) then delete (we_db e, we_key e) (watch_versions l)
         else <[(we_db e, we_key e) := mkWatchSlot (ws_version slot) watchers]> (watch_versions l))
        (watched_count l - 1) (version_clock l) l
  | None => l
  end.

Definition unwatch (es : list WatchEntry) : step (ShardStore V) unit := for_each es (λ e, report (unwatch_one e)).

(** ** The freeze *)

Record FrozenSlot := mkFrozen { f_db : N; f_table : gmap (list byte) (KvObj V) }.

Definition entries (f : FrozenSlot) : list (KvObj V) := (map_to_list (f_table f)).*2.

Definition frozen_find (key : list byte) (f : FrozenSlot) : option (KvObj V) := f_table f !! key.

(** The non-empty slot tables of every database, in order. *)
Definition freeze_db (db : nat) (dbv : list (gmap (list byte) (KvObj V))) : list FrozenSlot :=
  map (mkFrozen (N.of_nat db)) (base.filter (λ t : gmap (list byte) (KvObj V), size t ≠ 0%nat) dbv).

Definition begin_save : step (ShardStore V) (list FrozenSlot) :=
  modify (set_saving true);;
  gets (λ s, concat (imap freeze_db (dbs s))).

Definition end_save : step (ShardStore V) unit := modify (set_saving false).

End store.

Arguments RmwAction : clear implicits.
Arguments RmwStep : clear implicits.
Arguments AKeep {V}.
Arguments AInsert {V} _.
Arguments AReplace {V} _.
Arguments ADelete {V}.
Arguments AMutated {V}.
Arguments mkStep {V R} _ _ _.
Arguments action {V R} _.
Arguments expire {V R} _.
Arguments reply {V R} _.
