(* ===== verification/KeyspaceProofs.v ===== *)
(** * The keyspace operations

    The placement invariant of the slot tables, what each funnel does to the
    binding of every key and to the ledger, and every operation as a sequence of
    such writes. *)

From Stdlib Require Import Lia ZArith NArith.
From S2P Require Import Prelude Keyspace.
From stdpp Require Import strings.

#[local] Open Scope N_scope.

Section proofs.
Context {V : Type} {Hval : StoredValue V}.
Implicit Types (s : ShardStore V) (o : KvObj V).

(** Tables are filled all at once, and a key is only in the table it hashes to. *)
Record store_ok s : Prop := {
  so_dbs : (0 < length (dbs s))%nat;
  so_slots : ∃ k, slots s = 2 ^ k;
  so_len i dbv : dbs s !! i = Some dbv → length dbv = 0%nat ∨ length dbv = N.to_nat (slots s);
  so_place i dbv j t k o : dbs s !! i = Some dbv → dbv !! j = Some t → t !! k = Some o →
    ko_key o = k ∧ j = slot_index k (slots s)
}.

Definition same_config s s' : Prop :=
  length (dbs s') = length (dbs s) ∧ slots s' = slots s ∧ passive s' = passive s.

Lemma slot_index_lt k key : (slot_index key (2 ^ k) < N.to_nat (2 ^ k))%nat.
Proof.
  unfold slot_index. replace (2 ^ k - 1) with (N.ones k) by (rewrite N.ones_equiv; lia).
  rewrite N.land_ones. pose proof (N.mod_upper_bound (scan_hash key) (2 ^ k) ltac:(apply N.pow_nonzero; lia)). lia.
Qed.

Lemma store_new_ok d n : store_ok (store_new d n : ShardStore V).
Proof.
  constructor; unfold store_new; cbn [dbs slots].
  - rewrite length_replicate. lia.
  - by eexists.
  - intros i dbv [-> _]%lookup_replicate. by left.
  - intros i dbv j t k o [-> _]%lookup_replicate. by rewrite lookup_nil.
Qed.

Lemma store_new_empty d n i k : find_obj i k (store_new d n : ShardStore V) = None.
Proof.
  unfold find_obj, slot_table, store_new. cbn [dbs slots].
  destruct (replicate _ _ !! i) as [dbv|] eqn:E; [|done]. apply lookup_replicate in E as [-> _]. done.
Qed.

Lemma db_index_small db s : db < databases s → db_index db s = N.to_nat db.
Proof. unfold databases, db_index. lia. Qed.

Lemma find_obj_key s i key o : store_ok s → find_obj i key s = Some o → ko_key o = key.
Proof.
  intros Hok. unfold find_obj, slot_table. destruct (dbs s !! i) as [dbv|] eqn:E1; [|done]. cbn.
  destruct (dbv !! _) as [t|] eqn:E2; [|done]. cbn. intros H. by destruct (so_place s Hok _ _ _ _ _ _ E1 E2 H).
Qed.

Lemma find_obj_lt s i key o : find_obj i key s = Some o → (i < length (dbs s))%nat.
Proof. unfold find_obj, slot_table. destruct (dbs s !! i) eqn:E; [|done]. intros _. by eapply lookup_lt_Some. Qed.

Lemma set_dirty_ok s d : store_ok s → store_ok (set_dirty d s).
Proof. intros []. by constructor. Qed.

Lemma set_ledger_ok s l : store_ok s → store_ok (set_ledger l s).
Proof. intros []. by constructor. Qed.

(** ** The funnels *)

(** One binding set to [v], and nothing else. *)
Definition raw (i : nat) (key : list byte) (v : option (KvObj V)) s s' : Prop :=
  store_ok s' ∧ same_config s s' ∧ dirty_keys s' = dirty_keys s ∧ ledger s' = ledger s ∧
  ∀ j k, find_obj j k s' = if decide (j = i ∧ k = key) then v else find_obj j k s.

(** One binding set or removed in its slot table. *)
Lemma slot_table_mut_set s i key (v : option (KvObj V)) :
  store_ok s → (i < length (dbs s))%nat → (∀ o, v = Some o → ko_key o = key) →
  wp False (slot_table_mut i key (partial_alter (λ _, v) key)) (λ _ s', raw i key v s s') s.
Proof.
  intros Hok Hi Hv. destruct (lookup_lt_is_Some_2 _ _ Hi) as [dbv Hdbv].
  destruct (so_slots s Hok) as [n Hn]. pose proof (slot_index_lt n key) as Hlt. rewrite <- Hn in Hlt.
  set (dbv' := if decide (length dbv = 0%nat) then replicate (N.to_nat (slots s)) ∅ else dbv).
  assert (length dbv' = N.to_nat (slots s)) as Hlen.
  { subst dbv'. case_decide; [by rewrite length_replicate|]. by destruct (so_len s Hok _ _ Hdbv). }
  assert (∀ j t, dbv' !! j = Some t → dbv !! j = Some t ∨ t = ∅ ∧ dbv !! j = None) as Hfill.
  { subst dbv'. intros j t. case_decide as Hz; [|by left]. apply nil_length_inv in Hz as ->.
    intros [-> _]%lookup_replicate. by right. }
  destruct (lookup_lt_is_Some_2 dbv' (slot_index key (slots s)) ltac:(lia)) as [t Ht].
  unfold wp, slot_table_mut. rewrite Hdbv. cbn [mbind option_bind]. fold dbv'. rewrite Ht. cbn [mbind option_bind].
  clearbody dbv'.
  assert (∀ j k, find_obj j k s = (if decide (j = i) then dbv' !! slot_index k (slots s) else slot_table j k s)
    ≫= (λ t, t !! k)) as Hfind.
  { intros j k. unfold find_obj, slot_table. case_decide; [subst j|done]. rewrite Hdbv. cbn [mbind option_bind].
    destruct (dbv' !! slot_index k (slots s)) as [u|] eqn:Eu.
    - destruct (Hfill _ _ Eu) as [->|[-> ->]]; done.
    - destruct (dbv !! slot_index k (slots s)) as [u|] eqn:Eu'; [|done]. apply lookup_ge_None in Eu. apply lookup_lt_Some in Eu'.
      destruct (so_len s Hok _ _ Hdbv); lia. }
  split; [constructor; cbn [dbs slots set_dbs]|].
  - rewrite length_insert. by apply so_dbs.
  - by apply so_slots.
  - intros j d. destruct (decide (j = i)) as [->|]; [|rewrite list_lookup_insert_ne by done; by apply so_len].
    rewrite list_lookup_insert_eq by done. intros [= <-]. rewrite length_insert. by right.
  - intros j d l u k o. destruct (decide (j = i)) as [->|]; [|rewrite list_lookup_insert_ne by done; by apply so_place].
    rewrite list_lookup_insert_eq by done. intros [= <-].
    assert (∀ u, dbv' !! l = Some u → u !! k = Some o → ko_key o = k ∧ l = slot_index k (slots s)) as Hold.
    { intros w Hw Hk. destruct (Hfill _ _ Hw) as [H|[-> _]]; [|by destruct (lookup_empty_Some (M := gmap (list byte)) k o Hk)].
      by eapply so_place. }
    destruct (decide (l = slot_index key (slots s))) as [->|]; [|rewrite list_lookup_insert_ne by done; apply Hold].
    rewrite list_lookup_insert_eq by lia. intros [= <-].
    destruct (decide (k = key)) as [->|]; [|rewrite lookup_partial_alter_ne by done; by apply Hold].
    rewrite lookup_partial_alter_eq. intros ->. split; [by apply Hv|done].
  - split; [|split; [done|split; [done|]]].
    { split; [apply length_insert|done]. }
    intros j k. rewrite (Hfind j k). unfold find_obj, slot_table. cbn [dbs slots set_dbs].
    destruct (decide (j = i)) as [->|]; [|rewrite list_lookup_insert_ne by done; by rewrite decide_False by naive_solver].
    rewrite list_lookup_insert_eq by done. cbn [mbind option_bind].
    destruct (decide (slot_index k (slots s) = slot_index key (slots s))) as [Hs|Hs].
    + rewrite Hs, Ht, list_lookup_insert_eq by lia. cbn [mbind option_bind].
      destruct (decide (k = key)) as [->|]; [by rewrite lookup_partial_alter_eq, decide_True|].
      rewrite lookup_partial_alter_ne by done. by rewrite decide_False by naive_solver.
    + rewrite list_lookup_insert_ne by done. rewrite decide_False by naive_solver. done.
Qed.

Definition marked (d : option (gset (N * list byte))) (db : N) (key : list byte) : option (gset (N * list byte)) :=
  (λ set, {[ (db, key) ]} ∪ set) <$> d.

(** One binding set to [v], marked dirty, and the ledger changed by [f]. *)
Record write (db : N) (key : list byte) (v : option (KvObj V)) (f : Ledger V → Ledger V) s s' : Prop := {
  wr_ok : store_ok s';
  wr_config : same_config s s';
  wr_dirty : dirty_keys s' = marked (dirty_keys s) db key;
  wr_ledger : ledger s' = f (ledger s);
  wr_find j k : find_obj j k s' = if decide (j = N.to_nat db ∧ k = key) then v else find_obj j k s
}.

(** Nothing but the ledger changed, by [f]. *)
Record quiet (f : Ledger V → Ledger V) s s' : Prop := {
  qu_ok : store_ok s';
  qu_config : same_config s s';
  qu_dirty : dirty_keys s' = dirty_keys s;
  qu_ledger : ledger s' = f (ledger s);
  qu_find j k : find_obj j k s' = find_obj j k s
}.

Definition put_ledger (db : N) (key : list byte) (old : option (KvObj V)) o (l : Ledger V) : Ledger V :=
  notify (OnPut db key o)
    (match old with
     | Some o' => account_add (accounted_bytes o) (account_sub (accounted_bytes o') (touch_watch db key l))
     | None => call_hook (HookInsert db key (accounted_bytes o)) (account_add (accounted_bytes o) (touch_watch db key l))
     end).

Definition drop_ledger (db : N) (key : list byte) (bytes : N) (l : Ledger V) : Ledger V :=
  call_hook (HookRemove db key bytes) (account_sub bytes (touch_watch db key l)).

Definition remove_ledger (db : N) (key : list byte) (bytes : N) (l : Ledger V) : Ledger V :=
  notify (OnRemove db key) (drop_ledger db key bytes l).

Definition expire_ledger (db : N) (key : list byte) o (l : Ledger V) : Ledger V :=
  notify (OnPut db key o) (touch_watch db key l).

Definition edit_ledger (db : N) (key : list byte) (old_bytes new_bytes : N) o (l : Ledger V) : Ledger V :=
  notify (OnPut db key o)
    (if negb (new_bytes =? old_bytes) then
       call_hook (HookInsert db key new_bytes)
         (account_add new_bytes (account_sub old_bytes (call_hook (HookRemove db key old_bytes) (touch_watch db key l))))
     else touch_watch db key l).

Lemma put_object_ok s db key o : store_ok s → db < databases s → ko_key o = key →
  wp False (put_object db (N.to_nat db) key o) (λ b s',
    write db key (Some o) (put_ledger db key (find_obj (N.to_nat db) key s) o) s s' ∧
    b = bool_decide (is_Some (find_obj (N.to_nat db) key s))) s.
Proof.
  intros Hok Hdb Hk. unfold put_object. apply wp_bind, wp_modify, wp_bind, wp_gets, wp_bind.
  change (find_obj (N.to_nat db) key (set_ledger (touch_watch db key (ledger s)) s)) with (find_obj (N.to_nat db) key s).
  eapply wp_mono; [apply (slot_table_mut_set _ (N.to_nat db) key (Some o)); [by apply set_ledger_ok|cbn; unfold databases in Hdb; lia|by intros ? [= <-]]|].
  intros _ s1 (Hok1 & Hc & Hd & Hl & Hf).
  assert (find_obj (N.to_nat db) key s1 = Some o) as Ho by (rewrite Hf; by rewrite decide_True).
  destruct (find_obj (N.to_nat db) key s) as [o'|]; apply wp_bind, wp_modify, wp_bind; unfold observe_put;
    apply wp_bind, wp_modify, wp_bind, wp_gets;
    match goal with |- wp _ (match find_obj ?i ?k ?s with _ => _ end) _ _ => change (find_obj i k s) with (find_obj i k s1) end;
    rewrite Ho; apply wp_modify, wp_ret; (split; [|done]);
    (constructor; [by apply set_ledger_ok, set_dirty_ok, set_ledger_ok|exact Hc|cbn; by rewrite Hd|cbn; by rewrite Hl|exact Hf]).
Qed.

(** The part the removals share: the binding taken out, with what comes after it. *)
Lemma take_entry_ok {A} s db key f (k : option (KvObj V) → step (ShardStore V) A) Q : store_ok s → db < databases s →
  (∀ s', store_ok s' → same_config s s' → dirty_keys s' = dirty_keys s → ledger s' = f (ledger s) →
    (∀ j k, find_obj j k s' = if decide (j = N.to_nat db ∧ k = key) then None else find_obj j k s) →
    wp False (k (find_obj (N.to_nat db) key s)) Q s') →
  wp False (report f;; old ← gets (find_obj (N.to_nat db) key); slot_table_mut (N.to_nat db) key (delete key);; k old) Q s.
Proof.
  intros Hok Hdb Hk. apply wp_bind, wp_modify, wp_bind, wp_gets, wp_bind.
  change (find_obj (N.to_nat db) key (set_ledger (f (ledger s)) s)) with (find_obj (N.to_nat db) key s).
  eapply wp_mono; [apply (slot_table_mut_set _ (N.to_nat db) key None); [by apply set_ledger_ok|cbn; unfold databases in Hdb; lia|done]|].
  intros _ s1 (Hok1 & Hc & Hd & Hl & Hf). by apply Hk.
Qed.

Lemma remove_object_ok s db key : store_ok s → db < databases s →
  wp False (remove_object db (N.to_nat db) key) (λ b s',
    match find_obj (N.to_nat db) key s with
    | Some o => b = true ∧ write db key None (remove_ledger db key (accounted_bytes o)) s s'
    | None => b = false ∧ quiet (touch_watch db key) s s'
    end) s.
Proof.
  intros Hok Hdb. apply take_entry_ok; [done..|]. intros s1 Hok1 Hc Hd Hl Hf.
  destruct (find_obj (N.to_nat db) key s) as [o|] eqn:E.
  - apply wp_bind, wp_modify, wp_bind, wp_bind, wp_modify, wp_modify, wp_ret. split; [done|].
    constructor; [by apply set_ledger_ok, set_dirty_ok, set_ledger_ok|exact Hc|cbn; by rewrite Hd|cbn; by rewrite Hl|exact Hf].
  - apply wp_ret. split; [done|]. constructor; [done..|]. intros j k. rewrite Hf. case_decide as Hjk; [|done]. by destruct Hjk as [-> ->].
Qed.

Lemma purge_key_ok s db key : store_ok s → db < databases s →
  wp False (purge_key (N.to_nat db) key) (λ b s',
    match find_obj (N.to_nat db) key s with
    | Some o => b = true ∧ write db key None (drop_ledger db key (accounted_bytes o)) s s'
    | None => b = false ∧ quiet (touch_watch db key) s s'
    end) s.
Proof.
  intros Hok Hdb. unfold purge_key. rewrite N2Nat.id. apply take_entry_ok; [done..|]. intros s1 Hok1 Hc Hd Hl Hf.
  destruct (find_obj (N.to_nat db) key s) as [o|] eqn:E.
  - apply wp_bind, wp_modify, wp_bind, wp_modify, wp_ret. split; [done|].
    constructor; [by apply set_dirty_ok, set_ledger_ok|exact Hc|cbn; by rewrite Hd|cbn; by rewrite Hl|exact Hf].
  - apply wp_ret. split; [done|]. constructor; [done..|]. intros j k. rewrite Hf. case_decide as Hjk; [|done]. by destruct Hjk as [-> ->].
Qed.

(** [set_entry_expire] on an entry that is there. *)
Lemma set_entry_expire_ok s i key d o : store_ok s → find_obj i key s = Some o →
  wp False (set_entry_expire i key d) (λ _ s', raw i key (Some (with_expire d o)) s s') s.
Proof.
  intros Hok Ho. apply wp_bind, wp_gets. rewrite Ho. apply (slot_table_mut_set s i key (Some (with_expire d o))); [done| |].
  - by eapply find_obj_lt.
  - intros ? [= <-]. cbn. by eapply find_obj_key.
Qed.

(** [observe_put] on an entry that is there. *)
Lemma observe_put_ok s db i key o (Q : unit → ShardStore V → Prop) : find_obj i key s = Some o →
  Q tt (set_ledger (notify (OnPut db key o) (ledger s)) (set_dirty (marked (dirty_keys s) db key) s)) →
  wp False (observe_put db i key) Q s.
Proof.
  intros Ho HQ. apply wp_bind, wp_modify, wp_bind, wp_gets.
  match goal with |- wp _ (match find_obj ?i ?k ?s' with _ => _ end) _ _ => change (find_obj i k s') with (find_obj i k s) end.
  rewrite Ho. by apply wp_modify.
Qed.

Lemma keep_value_ok s db key o new_d : store_ok s → find_obj (N.to_nat db) key s = Some o →
  wp False (keep_value db (N.to_nat db) key new_d (ko_expire o)) (λ _ s',
    s' = s ∨ write db key (Some (with_expire new_d o)) (expire_ledger db key (with_expire new_d o)) s s') s.
Proof.
  intros Hok Ho. unfold keep_value. case_decide; [apply wp_ret; by left|]. apply wp_bind, wp_modify, wp_bind.
  eapply wp_mono; [apply (set_entry_expire_ok _ _ _ _ o); [by apply set_ledger_ok|exact Ho]|].
  intros _ s1 (Hok1 & Hc & Hd & Hl & Hf). eapply observe_put_ok; [rewrite Hf; by rewrite decide_True|]. right.
  constructor; [by apply set_ledger_ok, set_dirty_ok|exact Hc|cbn; by rewrite Hd|cbn; by rewrite Hl|exact Hf].
Qed.

(** ** In-place edits *)

Lemma raw_refl s i key o : store_ok s → find_obj i key s = Some o → raw i key (Some o) s s.
Proof. intros Hok Ho. repeat (split; [done|]). intros j k. case_decide as E; [|done]. by destruct E as [-> ->]. Qed.

Lemma edit_value_ok s i key v o : store_ok s → find_obj i key s = Some o →
  wp False (edit_value i key v o) (λ _ s', raw i key (Some (with_value v o)) s s') s.
Proof.
  intros Hok Ho. apply (slot_table_mut_set s i key (Some (with_value v o))); [done|by eapply find_obj_lt|].
  intros ? [= <-]. cbn. by eapply find_obj_key.
Qed.

(** From the state before the edit to the state after the arm that reports it. *)
Lemma crediting_ok s s1 db key o1 bytes : raw (N.to_nat db) key (Some o1) s s1 → db < databases s →
  wp False (remove_object_crediting db (N.to_nat db) key bytes) (λ b s',
    b = true ∧ write db key None (remove_ledger db key bytes) s s') s1.
Proof.
  intros (Hok & Hc & Hd & Hl & Hf) Hdb. pose proof Hc as [Hlen _]. apply take_entry_ok; [done|unfold databases in *; lia|].
  intros s2 Hok2 Hc2 Hd2 Hl2 Hf2. rewrite Hf, decide_True by done. rewrite bool_decide_eq_true_2 by eauto.
  apply wp_bind, wp_modify, wp_bind, wp_bind, wp_modify, wp_modify, wp_ret. split; [done|].
  constructor; cbn; [by apply set_ledger_ok, set_dirty_ok, set_ledger_ok| |by rewrite Hd2, Hd|by rewrite Hl2, Hl|].
  - destruct Hc as (? & ? & ?), Hc2 as (? & ? & ?). unfold same_config. cbn. repeat split; congruence.
  - intros j k. change (find_obj j k s2 = (if decide (j = N.to_nat db ∧ k = key) then None else find_obj j k s)).
    rewrite Hf2, Hf. by case_decide.
Qed.

Lemma finish_edit_ok s s1 db key o1 bytes new_d : raw (N.to_nat db) key (Some o1) s s1 → db < databases s →
  wp False (finish_edit db (N.to_nat db) key bytes new_d (ko_expire o1)) (λ _ s',
    if is_empty_collection (ko_value o1) then write db key None (remove_ledger db key bytes) s s'
    else write db key (Some (with_expire new_d o1)) (edit_ledger db key bytes (accounted_bytes o1) (with_expire new_d o1)) s s') s1.
Proof.
  intros Hraw Hdb. pose proof Hraw as (Hok & Hc & Hd & Hl & Hf).
  assert (find_obj (N.to_nat db) key s1 = Some o1) as Ho by (by rewrite Hf, decide_True).
  apply wp_bind, wp_gets. rewrite Ho. destruct (is_empty_collection (ko_value o1)).
  { apply wp_bind. eapply wp_mono; [by apply (crediting_ok s s1 db key o1)|]. intros b s' [_ Hw]. by apply wp_ret. }
  apply wp_bind, wp_modify, wp_bind.
  set (f := λ l : Ledger V, if negb (accounted_bytes o1 =? bytes) then
       call_hook (HookInsert db key (accounted_bytes o1))
         (account_add (accounted_bytes o1) (account_sub bytes (call_hook (HookRemove db key bytes) (touch_watch db key l))))
     else touch_watch db key l).
  assert (∀ Q : unit → ShardStore V → Prop, Q tt (set_ledger (f (ledger s1)) s1) →
    wp False (when (negb (accounted_bytes o1 =? bytes)) (report (λ l,
      call_hook (HookInsert db key (accounted_bytes o1))
        (account_add (accounted_bytes o1) (account_sub bytes (call_hook (HookRemove db key bytes) l)))))) Q
      (set_ledger (touch_watch db key (ledger s1)) s1)) as Hw.
  { intros Q HQ. unfold f in HQ. destruct (negb _); [by apply wp_modify|by apply wp_ret]. }
  apply Hw. apply wp_bind. clear Hw.
  assert (wp False (when (bool_decide (new_d ≠ ko_expire o1)) (set_entry_expire (N.to_nat db) key new_d))
    (λ _ s2, raw (N.to_nat db) key (Some (with_expire new_d o1)) (set_ledger (f (ledger s1)) s1) s2) (set_ledger (f (ledger s1)) s1)) as Hset.
  { case_bool_decide as Hne; cbn [when].
    - apply set_entry_expire_ok; [by apply set_ledger_ok|exact Ho].
    - apply wp_ret. subst new_d. apply raw_refl; [by apply set_ledger_ok|]. by destruct o1. }
  eapply wp_mono; [exact Hset|]. intros _ s2 (Hok2 & Hc2 & Hd2 & Hl2 & Hf2).
  eapply observe_put_ok; [by rewrite Hf2, decide_True|].
  constructor; cbn; [by apply set_ledger_ok, set_dirty_ok| |by rewrite Hd2; cbn; rewrite Hd|by rewrite Hl2; cbn; rewrite Hl|].
  - destruct Hc as (? & ? & ?), Hc2 as (? & ? & ?). unfold same_config in *. cbn in *. repeat split; congruence.
  - intros j k. change (find_obj j k s2 = (if decide (j = N.to_nat db ∧ k = key) then Some (with_expire new_d o1) else find_obj j k s)).
    rewrite Hf2. destruct (decide (j = N.to_nat db ∧ k = key)) as [|Hne]; [done|]. change (find_obj j k s1 = find_obj j k s). by rewrite Hf, decide_False by exact Hne.
Qed.

(** ** The writes operations are made of *)

(** What a write is about. *)
Inductive label :=
  | LPut (db : N) (key : list byte)
  | LKey (db : N) (key : list byte)
  | LPurge (db : N) (key : list byte)
  | LDb (db : N)
  | LSwap (a b : N)
  | LLazy.

(** The dirty set after a swap: it has both sides of every key of either database. *)
Definition swap_dirty (a b : N) s s' : Prop :=
  match dirty_keys s with
  | None => dirty_keys s' = None
  | Some d => ∃ d', dirty_keys s' = Some d' ∧ d ⊆ d' ∧
      (∀ k o, find_obj (N.to_nat a) k s' = Some o ∨ find_obj (N.to_nat b) k s' = Some o → (a, k) ∈ d' ∧ (b, k) ∈ d') ∧
      ∀ db k, (db, k) ∈ d' → (db, k) ∈ d ∨ (db = a ∨ db = b) ∧
        ∃ o, find_obj (N.to_nat a) k s' = Some o ∨ find_obj (N.to_nat b) k s' = Some o
  end.

Inductive prim : label → ShardStore V → ShardStore V → Prop :=
  | pr_put db key o s s' : db < databases s → ko_key o = key →
      write db key (Some o) (put_ledger db key (find_obj (N.to_nat db) key s) o) s s' → prim (LPut db key) s s'
  | pr_expire db key o d s s' : find_obj (N.to_nat db) key s = Some o →
      write db key (Some (with_expire d o)) (expire_ledger db key (with_expire d o)) s s' → prim (LKey db key) s s'
  | pr_edit db key o o' s s' : find_obj (N.to_nat db) key s = Some o →
      write db key (Some o') (edit_ledger db key (accounted_bytes o) (accounted_bytes o') o') s s' → prim (LKey db key) s s'
  | pr_remove db key o s s' : find_obj (N.to_nat db) key s = Some o →
      write db key None (remove_ledger db key (accounted_bytes o)) s s' → prim (LKey db key) s s'
  | pr_purge db key o s s' : find_obj (N.to_nat db) key s = Some o →
      write db key None (drop_ledger db key (accounted_bytes o)) s s' → prim (LPurge db key) s s'
  | pr_touch db key s s' : quiet (touch_watch db key) s s' → prim (LKey db key) s s'
  | pr_lazy s s' : quiet count_lazy s s' → prim LLazy s s'
  | pr_db db s s' : quiet (touch_all_watches_in_db db) s s' → prim (LDb db) s s'
  | pr_swap a b s s' : a < databases s → b < databases s → store_ok s' → same_config s s' →
      ledger s' = touch_all_watches_in_db b (touch_all_watches_in_db a (ledger s)) →
      (∀ i k, find_obj i k s' = find_obj (if decide (i = N.to_nat a) then N.to_nat b else
        if decide (i = N.to_nat b) then N.to_nat a else i) k s) →
      swap_dirty a b s s' → prim (LSwap a b) s s'.

(** A sequence of writes within [P]. *)
Definition prims (P : label → Prop) : relation (ShardStore V) := rtc (λ s s', ∃ lab, P lab ∧ prim lab s s').

#[global] Instance prims_preorder P : PreOrder (prims P).
Proof. unfold prims. apply _. Qed.

Lemma prim_ok lab s s' : prim lab s s' → store_ok s' ∧ same_config s s'.
Proof.
  intros Hp. destruct Hp; repeat match goal with H : write _ _ _ _ _ _ |- _ => destruct H | H : quiet _ _ _ |- _ => destruct H end; done.
Qed.

Lemma prims_ok P s s' : store_ok s → prims P s s' → store_ok s' ∧ same_config s s'.
Proof.
  intros Hok. induction 1 as [s|s1 s2 s3 (lab & _ & Hp) _ IH]; [done|]. destruct (prim_ok _ _ _ Hp) as [Hok2 (? & ? & ?)].
  destruct (IH Hok2) as [? (? & ? & ?)]. split; [done|]. unfold same_config. repeat split; congruence.
Qed.

Lemma prims_db P s s' db : store_ok s → prims P s s' → db < databases s → db < databases s'.
Proof. intros Hok Hp. destruct (prims_ok P s s' Hok Hp) as [_ (Hl & _)]. unfold databases. by rewrite Hl. Qed.

Lemma find_obj_db s db key o : find_obj (N.to_nat db) key s = Some o → db < databases s.
Proof. intros Ho. apply find_obj_lt in Ho. unfold databases. lia. Qed.

Lemma find_obj_db_keys s i k o : find_obj i k s = Some o → k ∈ db_keys i s.
Proof.
  unfold find_obj, slot_table, db_keys. destruct (dbs s !! i) as [dbv|]; [|done]. cbn [mbind option_bind default].
  destruct (dbv !! _) as [t|] eqn:Ht; [|done]. cbn [mbind option_bind]. intros Hk.
  apply list_elem_of_In, in_concat. eexists. split.
  - apply in_map, list_elem_of_In, list_elem_of_lookup. by eexists.
  - apply list_elem_of_In, list_elem_of_fmap. exists (k, o). split; [done|]. by apply elem_of_map_to_list.
Qed.

Lemma db_keys_find_obj s i k : store_ok s → k ∈ db_keys i s → ∃ o, find_obj i k s = Some o.
Proof.
  intros Hok. unfold db_keys. destruct (dbs s !! i) as [dbv|] eqn:Hdbv; cbn [default from_option id]; [|by intros ?%elem_of_nil].
  intros Hin. apply list_elem_of_In, in_concat in Hin as (ks & Hks & Hk).
  apply list_elem_of_In, list_elem_of_fmap in Hks as (t & -> & Ht). apply list_elem_of_lookup in Ht as [j Ht].
  apply list_elem_of_In, list_elem_of_fmap in Hk as ([k' o] & -> & Hko). apply elem_of_map_to_list in Hko. exists o.
  destruct (so_place s Hok _ _ _ _ _ _ Hdbv Ht Hko) as [_ ->]. unfold find_obj, slot_table. rewrite Hdbv.
  cbn [mbind option_bind fst]. by rewrite Ht.
Qed.

Lemma mark_both a b keys s d : dirty_keys s = Some d →
  ∃ d', for_each keys (λ k, touch_dirty a k;; touch_dirty b k) s = Some (tt, set_dirty (Some d') s) ∧ d ⊆ d' ∧
    (∀ k, k ∈ keys → (a, k) ∈ d' ∧ (b, k) ∈ d') ∧
    ∀ db k, (db, k) ∈ d' → (db, k) ∈ d ∨ (db = a ∨ db = b) ∧ k ∈ keys.
Proof.
  revert s d. induction keys as [|k keys IH]; intros s d Hd.
  - exists d. destruct s. cbn in *. subst. split; [done|]. split; [done|]. split; [by intros k ?%elem_of_nil|by left].
  - destruct (IH (set_dirty (Some ({[(b, k)]} ∪ ({[(a, k)]} ∪ d))) s) _ eq_refl) as (d' & Hr & Hs & Hk & Hu).
    exists d'. split; [|split; [|split]].
    + etransitivity; [|exact Hr]. cbn [for_each]. unfold mbind, step_bind, touch_dirty, modify, set_dirty.
      cbn [dirty_keys dbs slots passive saving ledger]. by rewrite Hd.
    + set_solver.
    + intros k' [->|Hin]%elem_of_cons; [set_solver|by apply Hk].
    + intros db k' Hin. destruct (Hu db k' Hin) as [H|H]; set_solver.
Qed.

Lemma swap_find s i ai bi k da db : (ai < length (dbs s))%nat → (bi < length (dbs s))%nat → ai ≠ bi →
  dbs s !! ai = Some da → dbs s !! bi = Some db →
  find_obj i k (set_dbs (<[bi := da]> (<[ai := db]> (dbs s))) s) =
    find_obj (if decide (i = ai) then bi else if decide (i = bi) then ai else i) k s.
Proof.
  intros Ha Hb Hne Eda Edb. unfold find_obj, slot_table. cbn [dbs slots set_dbs].
  destruct (decide (i = bi)) as [->|].
  - rewrite list_lookup_insert_eq by (by rewrite length_insert). by rewrite decide_False, Eda by done.
  - rewrite list_lookup_insert_ne by done. destruct (decide (i = ai)) as [->|].
    + by rewrite list_lookup_insert_eq, Edb by done.
    + by rewrite list_lookup_insert_ne by done.
Qed.

Lemma swap_ok s ai bi da db : store_ok s → ai ≠ bi → dbs s !! ai = Some da → dbs s !! bi = Some db →
  store_ok (set_dbs (<[bi := da]> (<[ai := db]> (dbs s))) s).
Proof.
  intros [H1 H2 H3 H4] Hne Eda Edb.
  pose proof (lookup_lt_Some _ _ _ Eda). pose proof (lookup_lt_Some _ _ _ Edb).
  assert (∀ i dbv, <[bi := da]> (<[ai := db]> (dbs s)) !! i = Some dbv → ∃ j, dbs s !! j = Some dbv) as Hold.
  { intros i dbv. destruct (decide (i = bi)) as [->|].
    - rewrite list_lookup_insert_eq by (by rewrite length_insert). intros [= <-]. by exists ai.
    - rewrite list_lookup_insert_ne by done. destruct (decide (i = ai)) as [->|].
      + rewrite list_lookup_insert_eq by done. intros [= <-]. by exists bi.
      + rewrite list_lookup_insert_ne by done. by exists i. }
  constructor; cbn [dbs slots set_dbs].
  - by rewrite !length_insert.
  - done.
  - intros i dbv (j & Hj)%Hold. by eapply H3.
  - intros i dbv j t k o (l & Hl)%Hold. by eapply H4.
Qed.

(** A swap of two databases is one such write. *)
Lemma swap_db_ok s a b : store_ok s → a < databases s → b < databases s → a ≠ b →
  wp False (swap_db a b) (λ _ s', prim (LSwap a b) s s') s.
Proof.
  intros Hok Ha Hb Hab. unfold databases in *. apply wp_bind, wp_gets, wp_bind, wp_gets. rewrite !db_index_small by done.
  rewrite decide_False by lia. assert (N.to_nat a ≠ N.to_nat b) as Hne by lia. apply wp_bind, wp_gets.
  destruct (lookup_lt_is_Some_2 (dbs s) (N.to_nat a) ltac:(lia)) as [da Eda].
  destruct (lookup_lt_is_Some_2 (dbs s) (N.to_nat b) ltac:(lia)) as [db Edb]. rewrite Eda, Edb.
  apply wp_bind, wp_lift; [|done]. intros _ [= <-]. apply wp_bind, wp_lift; [|done]. intros _ [= <-].
  apply wp_bind, wp_modify, wp_bind, wp_modify, wp_bind, wp_modify, wp_bind, wp_gets.
  pose proof (swap_ok s _ _ _ _ Hok Hne Eda Edb) as Hok'.
  pose proof (λ i k, swap_find s i _ _ k _ _ (lookup_lt_Some _ _ _ Eda) (lookup_lt_Some _ _ _ Edb) Hne Eda Edb) as Hf.
  set (s0 := set_dbs _ s) in *.
  set (s1 := set_ledger _ (set_ledger _ s0)).
  assert (same_config s s1) as Hc by (split; [by cbn; rewrite !length_insert|done]).
  assert (store_ok s1) as Hok1 by (by do 2 apply set_ledger_ok).
  assert (∀ i k, find_obj i k s1 = find_obj i k s0) as Hsame by done. setoid_rewrite <- Hsame in Hf.
  assert (ledger s1 = touch_all_watches_in_db b (touch_all_watches_in_db a (ledger s))) as Hl by done.
  assert (dirty_keys s1 = dirty_keys s) as Hd1 by done. clearbody s1. clear Hsame Hok' s0.
  assert (∀ s2, (s2 = s1 ∨ ∃ d', s2 = set_dirty (Some d') s1) → swap_dirty a b s s2 → prim (LSwap a b) s s2) as Hdone.
  { intros s2 Hs2 Hsd. destruct Hs2 as [->|[d' ->]]; (apply pr_swap; [unfold databases; lia..| | | | |]); try done. by apply set_dirty_ok. }
  destruct (dirty_keys s) as [d|] eqn:Hd; rewrite Hd1.
  - rewrite bool_decide_eq_true_2 by eauto. apply wp_bind, wp_gets.
    destruct (mark_both a b (db_keys (N.to_nat a) s1 ++ db_keys (N.to_nat b) s1) s1 d Hd1) as (d' & Hr & Hs & Hk & Hu).
    unfold wp. rewrite Hr. apply Hdone; [by right; exists d'|]. unfold swap_dirty. rewrite Hd. exists d'. split; [done|].
    split; [done|]. split.
    + intros k o Ho. apply Hk, elem_of_app. destruct Ho as [Ho|Ho]; [left|right]; by apply find_obj_db_keys in Ho.
    + intros db' k Hin. destruct (Hu db' k Hin) as [|[Hdb Hks]]; [by left|right]. split; [done|].
      apply elem_of_app in Hks as [Hx|Hx]; apply db_keys_find_obj in Hx as [o Ho]; [|done| |done]; exists o; [by left|by right].
  - rewrite bool_decide_eq_false_2 by (by intros [? ?]). apply wp_ret, Hdone; [by left|]. unfold swap_dirty. by rewrite Hd.
Qed.

Section runs.
Context (P : label → Prop).

(** A step that runs to the end and makes writes of [P] only. *)
Definition runs {A} (m : step (ShardStore V) A) s : Prop := wp False m (λ _ s', prims P s s') s.

Lemma prims_one lab s s' : P lab → prim lab s s' → prims P s s'.
Proof. intros. apply rtc_once. by exists lab. Qed.

Lemma runs_bind {A B} (m : step (ShardStore V) A) (k : A → step (ShardStore V) B) s :
  runs m s → (∀ a s', prims P s s' → runs (k a) s') → runs (m ≫= k) s.
Proof.
  intros Hm Hk. apply wp_bind. eapply wp_mono; [apply Hm|]. intros a s' Ht.
  eapply wp_mono; [exact (Hk a s' Ht)|]. intros b s'' Ht'. exact (transitivity Ht Ht').
Qed.

Lemma runs_ret {A} (x : A) s : runs (mret x) s.
Proof. by apply wp_ret, rtc_refl. Qed.

Lemma runs_unit {A} (m : step (ShardStore V) A) s : runs m s → runs (m;; mret tt) s.
Proof. intros Hm. apply runs_bind; [done|]. intros a s' _. apply runs_ret. Qed.

Lemma runs_when (b : bool) (m : step (ShardStore V) unit) s : (b = true → runs m s) → runs (when b m) s.
Proof. destruct b; [auto|]. intros _. apply runs_ret. Qed.

Lemma put_object_runs s db key o : store_ok s → db < databases s → ko_key o = key → P (LPut db key) →
  runs (put_object db (N.to_nat db) key o) s.
Proof.
  intros Hok Hdb Hk HP. eapply wp_mono; [by apply put_object_ok|]. intros b s' [Hw _].
  apply (prims_one (LPut db key)); [done|]. by eapply pr_put.
Qed.

Lemma remove_object_runs s db key : store_ok s → db < databases s → P (LKey db key) →
  runs (remove_object db (N.to_nat db) key) s.
Proof.
  intros Hok Hdb HP. eapply wp_mono; [by apply remove_object_ok|]. intros b s' Hs. apply (prims_one (LKey db key)); [done|].
  destruct (find_obj (N.to_nat db) key s) as [o|] eqn:E; destruct Hs as [_ Hs]; [by eapply pr_remove|by eapply pr_touch].
Qed.

Lemma purge_key_runs s db key : store_ok s → db < databases s → P (LKey db key) → P (LPurge db key) →
  runs (purge_key (N.to_nat db) key) s.
Proof.
  intros Hok Hdb HP HP'. eapply wp_mono; [by apply purge_key_ok|]. intros b s' Hs.
  destruct (find_obj (N.to_nat db) key s) as [o|] eqn:E; destruct Hs as [_ Hs].
  - apply (prims_one (LPurge db key)); [done|]. by eapply pr_purge.
  - apply (prims_one (LKey db key)); [done|]. by eapply pr_touch.
Qed.

Lemma report_runs lab f s : store_ok s → P lab → (∀ s', quiet f s s' → prim lab s s') → runs (report f) s.
Proof.
  intros Hok HP Hq. apply wp_modify, (prims_one lab); [done|]. apply Hq. constructor; [by apply set_ledger_ok|done..].
Qed.

(** A live answer means that nothing happened and the entry is there; with lazy
    removal on, a negative one means that it is not. *)
Lemma expire_if_due_ok s db key now : store_ok s → db < databases s → P (LKey db key) → P LLazy →
  wp False (expire_if_due db (N.to_nat db) key now) (λ live s', prims P s s' ∧
    if live then s' = s ∧ ∃ o, find_obj (N.to_nat db) key s = Some o ∧ is_expired now o = false
    else passive s = false → find_obj (N.to_nat db) key s' = None) s.
Proof.
  intros Hok Hdb HP HL. unfold expire_if_due. apply wp_bind, wp_gets.
  destruct (find_obj (N.to_nat db) key s) as [o|] eqn:E; [|apply wp_ret; by split; [apply rtc_refl|]].
  destruct (is_expired now o) eqn:Hx; [|apply wp_ret; split; [apply rtc_refl|]; eauto].
  apply wp_bind, wp_gets. destruct (passive s) eqn:Hp; [apply wp_ret; by split; [apply rtc_refl|]|]. apply wp_bind.
  eapply wp_mono; [by apply remove_object_ok|]. intros b s1. rewrite E. intros [-> Hw]. apply wp_bind, wp_modify, wp_ret.
  assert (find_obj (N.to_nat db) key s1 = None) as Hnone by (rewrite (wr_find _ _ _ _ _ _ Hw); by rewrite decide_True).
  split; [|done]. eapply rtc_l; [exists (LKey db key); split; [done|]; by eapply pr_remove|].
  apply (prims_one LLazy); [done|]. apply pr_lazy. constructor; [by apply set_ledger_ok, Hw|done..].
Qed.

Lemma expire_if_due_runs s db key now : store_ok s → db < databases s → P (LKey db key) → P LLazy →
  runs (expire_if_due db (N.to_nat db) key now) s.
Proof. intros. eapply wp_mono; [by apply expire_if_due_ok|]. by intros b s' []. Qed.

Lemma runs_after {A} (m : step (ShardStore V) A) s s1 : prims P s s1 → runs m s1 → wp False m (λ _ s', prims P s s') s1.
Proof. intros Hp Hm. eapply wp_mono; [exact Hm|]. intros a s' Hs. exact (transitivity Hp Hs). Qed.

Lemma count_each_runs {A} (l : list A) (f : A → step (ShardStore V) bool) s :
  (∀ x s', x ∈ l → prims P s s' → runs (f x) s') → runs (count_each l f) s.
Proof.
  revert s. induction l as [|x l IH]; intros s Hf; cbn [count_each]; [apply runs_ret|].
  apply runs_bind; [apply Hf; [by left|apply rtc_refl]|]. intros b s' Ht. apply runs_bind; [apply IH|intros; apply runs_ret].
  intros y s'' Hy Ht'. apply Hf; [by right|]. exact (transitivity Ht Ht').
Qed.

Lemma each_db_runs n (f : nat → step (ShardStore V) N) s :
  (∀ db s', (db < n)%nat → prims P s s' → runs (f db) s') → runs (each_db n f) s.
Proof.
  induction n as [|n IH]; intros Hf; cbn [each_db]; [apply runs_ret|].
  apply runs_bind; [apply IH; intros; apply Hf; [lia|done]|]. intros x s' Ht.
  apply runs_bind; [apply Hf; [lia|done]|]. intros; apply runs_ret.
Qed.

(** ** The primitives *)

Lemma insert_object_runs s db o : store_ok s → db < databases s → P (LPut db (ko_key o)) → runs (insert_object db o) s.
Proof. intros Hok Hdb HP. apply wp_bind, wp_gets. rewrite db_index_small by done. by apply runs_unit, put_object_runs. Qed.

Lemma store_delete_runs s db key now : store_ok s → db < databases s → P (LKey db key) → P LLazy → runs (store_delete db key now) s.
Proof.
  intros Hok Hdb HP HL. apply wp_bind, wp_gets. rewrite db_index_small by done.
  apply runs_bind; [by apply expire_if_due_runs|]. intros [] s' Ht; [|apply runs_ret].
  apply remove_object_runs; [by eapply prims_ok|by eapply prims_db|done].
Qed.

Lemma store_read_runs s db key now : store_ok s → db < databases s → P (LKey db key) → P LLazy → runs (store_read db key now) s.
Proof.
  intros Hok Hdb HP HL. apply wp_bind, wp_gets. rewrite db_index_small by done.
  apply runs_bind; [by apply expire_if_due_runs|]. intros [] s' Ht; [by apply wp_gets, rtc_refl|apply runs_ret].
Qed.

Lemma reap_runs s db key now : store_ok s → db < databases s → P (LKey db key) → runs (reap_if_expired db key now) s.
Proof.
  intros Hok Hdb HP. apply wp_bind, wp_gets, wp_bind, wp_gets. rewrite db_index_small by done.
  destruct (match find_obj _ _ s with Some o => is_expired now o | None => false end); [by apply remove_object_runs|apply runs_ret].
Qed.

Lemma upsert_runs s db key v ex now : store_ok s → db < databases s → P (LPut db key) → P (LKey db key) → P LLazy →
  runs (upsert db key v ex now) s.
Proof.
  intros Hok Hdb HP HK HL. apply wp_bind, wp_gets. rewrite db_index_small by done.
  apply runs_bind; [by apply expire_if_due_runs|]. intros live s1 H1.
  apply runs_bind; [destruct live; [apply wp_gets, rtc_refl|apply runs_ret]|]. intros d s2 H2.
  pose proof (transitivity H1 H2) as H12. apply runs_bind; [|intros; apply runs_ret].
  apply put_object_runs; [by eapply prims_ok|by eapply prims_db|done|done].
Qed.

Lemma keep_value_runs s db key o new_d : store_ok s → find_obj (N.to_nat db) key s = Some o → P (LKey db key) →
  runs (keep_value db (N.to_nat db) key new_d (ko_expire o)) s.
Proof.
  intros Hok Ho HP. eapply wp_mono; [by apply keep_value_ok|]. intros _ s' [->|Hw]; [apply rtc_refl|].
  apply (prims_one (LKey db key)); [done|]. by eapply pr_expire.
Qed.

Lemma deadline_of_found i key s o : find_obj i key s = Some o → deadline_of i key s = ko_expire o.
Proof. intros Ho. unfold deadline_of. by rewrite Ho. Qed.

Lemma rmw_runs {R} s db key now (f : option (KvObj V) → RmwStep V R) : store_ok s → db < databases s →
  P (LPut db key) → P (LKey db key) → P LLazy → (∀ e, action (f e) ≠ AMutated) → runs (rmw db key now f) s.
Proof.
  intros Hok Hdb HP HK HL Hf. apply wp_bind, wp_gets. rewrite db_index_small by done. apply wp_bind.
  eapply wp_mono; [by apply expire_if_due_ok|]. intros [] s1 [H1 H2].
  - destruct H2 as [-> (o & Ho & _)]. apply wp_bind, wp_bind, wp_gets. rewrite Ho. apply wp_bind, wp_ret, wp_ret.
    apply wp_bind, wp_gets. rewrite (deadline_of_found _ _ _ _ Ho). apply runs_bind; [|intros; apply runs_ret].
    destruct (action (f (Some o))) as [|v|v| |] eqn:Ha; cbn [when].
    + by apply keep_value_runs.
    + by apply runs_unit, put_object_runs.
    + by apply runs_unit, put_object_runs.
    + by apply runs_unit, remove_object_runs.
    + by destruct (Hf (Some o)).
  - apply wp_bind, wp_ret, wp_bind, wp_ret. apply (runs_after _ s); [done|].
    pose proof (prims_ok _ _ _ Hok H1) as [Hok1 _]. pose proof (prims_db _ _ _ _ Hok H1 Hdb) as Hdb1.
    apply runs_bind; [|intros; apply runs_ret].
    destruct (action (f None)); cbn [when]; try apply runs_ret; by apply runs_unit, put_object_runs.
Qed.

(** An in-place edit is reported by the action that comes with it. *)
Definition edits_reported {R} (f : option (KvObj V) → option V * RmwStep V R) : Prop :=
  ∀ o v st, f (Some o) = (Some v, st) → action st = AMutated ∨ action st = ADelete.

Lemma reported_runs s s1 db key o o1 new_d a : raw (N.to_nat db) key (Some o1) s s1 → find_obj (N.to_nat db) key s = Some o →
  P (LKey db key) → a = AMutated ∨ a = ADelete → 
  wp False (match a with
    | AKeep => when true (keep_value db (N.to_nat db) key new_d (ko_expire o1))
    | AInsert v | AReplace v => put_object db (N.to_nat db) key (mkObj key new_d v);; mret tt
    | ADelete => when true (remove_object_crediting db (N.to_nat db) key (accounted_bytes o);; mret tt)
    | AMutated => when true (finish_edit db (N.to_nat db) key (accounted_bytes o) new_d (ko_expire o1))
    end) (λ _ s', prims P s s') s1.
Proof.
  intros Hraw Ho HP Ha. pose proof (find_obj_db _ _ _ _ Ho) as Hdb. destruct Ha as [->| ->]; cbn [when].
  - eapply wp_mono; [by apply (finish_edit_ok s s1)|]. intros [] s' Hs. cbv beta in Hs. apply (prims_one (LKey db key)); [done|].
    destruct (is_empty_collection (ko_value o1)); [by eapply pr_remove|]. eapply pr_edit; [done|]. exact Hs.
  - apply wp_bind. eapply wp_mono; [by apply (crediting_ok s s1 db key o1)|]. intros b s' [_ Hw]. apply wp_ret.
    apply (prims_one (LKey db key)); [done|]. by eapply pr_remove.
Qed.

Lemma rmw_mut_runs {R} s db key now (f : option (KvObj V) → option V * RmwStep V R) : store_ok s → db < databases s →
  P (LPut db key) → P (LKey db key) → P LLazy → edits_reported f → runs (rmw_mut db key now f) s.
Proof.
  intros Hok Hdb HP HK HL Hf. apply wp_bind, wp_gets. rewrite db_index_small by done. apply wp_bind.
  eapply wp_mono; [by apply expire_if_due_ok|]. intros [] s1 [H1 H2].
  - destruct H2 as [-> (o & Ho & _)]. apply wp_bind, wp_gets. rewrite Ho. apply wp_bind, wp_bind, wp_ret.
    destruct (f (Some o)) as [[v|] st] eqn:E.
    + apply wp_bind. eapply wp_mono; [by apply edit_value_ok|]. intros [] s2 Hraw. cbv beta in Hraw. apply wp_ret, wp_bind, wp_gets.
      assert (find_obj (N.to_nat db) key s2 = Some (with_value v o)) as Ho2.
      { destruct Hraw as (_ & _ & _ & _ & Hr). by rewrite Hr, decide_True. }
      rewrite (deadline_of_found _ _ _ _ Ho2). apply wp_bind.
      eapply wp_mono; [exact (reported_runs s s2 db key o _ _ _ Hraw Ho HK (Hf o v st E))|]. intros [] s3 H3. by apply wp_ret.
    + apply wp_bind, wp_ret, wp_ret, wp_bind, wp_gets. rewrite (deadline_of_found _ _ _ _ Ho).
      apply runs_bind; [|intros; apply runs_ret].
      assert (raw (N.to_nat db) key (Some o) s s) as Hraw by (by apply raw_refl).
      destruct (action st) as [|v|v| |]; cbn [when].
      * by apply keep_value_runs.
      * by apply runs_unit, put_object_runs.
      * by apply runs_unit, put_object_runs.
      * exact (reported_runs s s db key o _ (resolve_expire (expire st) (ko_expire o)) ADelete Hraw Ho HK (or_intror eq_refl)).
      * exact (reported_runs s s db key o _ (resolve_expire (expire st) (ko_expire o)) AMutated Hraw Ho HK (or_introl eq_refl)).
  - apply wp_bind, wp_ret, wp_bind, wp_ret, wp_bind, wp_ret. apply (runs_after _ s); [done|].
    pose proof (prims_ok _ _ _ Hok H1) as [Hok1 _]. pose proof (prims_db _ _ _ _ Hok H1 Hdb) as Hdb1.
    apply runs_bind; [|intros; apply runs_ret].
    destruct (action (f None).2); cbn [when]; try apply runs_ret; by apply runs_unit, put_object_runs.
Qed.

(** ** The keyspace operations *)

Lemma flush_db_runs s db : store_ok s → db < databases s → (∀ key, P (LKey db key)) → P (LDb db) → runs (flush_db db) s.
Proof.
  intros Hok Hdb HP HD. apply wp_bind, wp_gets, wp_bind, wp_gets. rewrite db_index_small by done.
  apply runs_bind; [apply count_each_runs|].
  - intros x s' _ Ht. apply remove_object_runs; [by eapply prims_ok|by eapply prims_db|done].
  - intros n s' Ht. apply runs_bind; [|intros; apply runs_ret].
    apply (report_runs (LDb db)); [by eapply prims_ok|done|]. intros s''. apply pr_db.
Qed.

Lemma move_object_runs s a src b dst mode replace now : store_ok s → a < databases s → b < databases s →
  P (LKey a src) → P (LKey b dst) → P (LPut b dst) → P LLazy → runs (move_object a src b dst mode replace now) s.
Proof.
  intros Hok Ha Hb H1 H2 H3 HL. apply wp_bind, wp_gets, wp_bind, wp_gets. rewrite !db_index_small by done.
  apply runs_bind; [by apply expire_if_due_runs|]. intros [] s1 Hs1; cbn [negb]; [|apply runs_ret].
  case_decide; [apply runs_ret|].
  apply runs_bind; [apply expire_if_due_runs; [by eapply prims_ok|by eapply prims_db|done..]|]. intros live s2 Hs2.
  pose proof (transitivity Hs1 Hs2) as H12. destruct (live && negb replace)%bool; [apply runs_ret|]. apply wp_bind, wp_gets.
  destruct (find_obj (N.to_nat a) src s2) as [o|]; [|apply runs_ret].
  apply runs_bind; [apply put_object_runs; [by eapply prims_ok|by eapply prims_db|done..]|]. intros _ s3 Hs3.
  pose proof (transitivity H12 Hs3) as H13. destruct mode; [|apply runs_ret].
  apply runs_bind; [apply remove_object_runs; [by eapply prims_ok|by eapply prims_db|done]|]. intros. apply runs_ret.
Qed.

Lemma purge_runs s pred : store_ok s → (∀ db key, pred key = true → P (LKey db key) ∧ P (LPurge db key)) →
  runs (remove_keys_where pred) s.
Proof.
  intros Hok HP. apply wp_bind, wp_gets, each_db_runs. intros db s' Hdb Ht. apply wp_bind, wp_gets, count_each_runs.
  intros x s'' [Hx _]%list_elem_of_filter Ht'. pose proof (transitivity Ht Ht') as Ht2. destruct (HP (N.of_nat db) x Hx) as [H1 H2].
  rewrite <- (Nat2N.id db). apply purge_key_runs; [by eapply prims_ok|eapply prims_db; [done..|]; unfold databases; lia|done|done].
Qed.

Lemma swap_db_runs s a b : store_ok s → a < databases s → b < databases s → P (LSwap a b) → runs (swap_db a b) s.
Proof.
  intros Hok Ha Hb HP. destruct (decide (a = b)) as [->|].
  - apply wp_bind, wp_gets, wp_bind, wp_gets. rewrite decide_True by done. apply runs_ret.
  - eapply wp_mono; [by apply swap_db_ok|]. intros [] s'. by apply prims_one.
Qed.

End runs.

End proofs.
