(* ===== verification/KeyspaceOps.v ===== *)
(** * Sequences of keyspace operations

    Every operation of the store as one value, the writes it may make, and the
    contract of the dirty set: whatever sequence of operations ran since the set
    was drained, every key whose binding changed is in it. *)

From Stdlib Require Import Lia ZArith NArith.
From S2P Require Import Prelude Keyspace KeyspaceProofs.
From stdpp Require Import strings.

#[local] Open Scope N_scope.

Section ops.
Context {V : Type} {Hval : StoredValue V}.
Implicit Types (s : ShardStore V) (o : KvObj V).

(** What is left of a binding at a time. *)
Definition alive_at (now : N) (v : option (KvObj V)) : option (KvObj V) :=
  o ← v; if is_expired now o then None else Some o.

(** A client or maintenance operation on the keyspace. *)
Inductive store_op :=
  | OpInsert (db : N) (o : KvObj V)
  | OpRead (db : N) (key : list byte) (now : N)
  | OpUpsert (db : N) (key : list byte) (v : V) (ex : ExpireWrite) (now : N)
  | OpDelete (db : N) (key : list byte) (now : N)
  | OpRmw (db : N) (key : list byte) (now : N) (f : option (KvObj V) → RmwStep V unit)
  | OpRmwMut (db : N) (key : list byte) (now : N) (f : option (KvObj V) → option V * RmwStep V unit)
  | OpReap (db : N) (key : list byte) (now : N)
  | OpMove (src_db : N) (src : list byte) (dst_db : N) (dst : list byte) (mode : MoveMode) (replace : bool) (now : N)
  | OpFlushDb (db : N)
  | OpFlushAll
  | OpSwapDb (a b : N)
  | OpPurge (pred : list byte → bool).

Definition run_store_op (op : store_op) : step (ShardStore V) unit :=
  match op with
  | OpInsert db o => insert_object db o
  | OpRead db key now => store_read db key now;; mret tt
  | OpUpsert db key v ex now => upsert db key v ex now;; mret tt
  | OpDelete db key now => store_delete db key now;; mret tt
  | OpRmw db key now f => rmw db key now f
  | OpRmwMut db key now f => rmw_mut db key now f
  | OpReap db key now => reap_if_expired db key now;; mret tt
  | OpMove src_db src dst_db dst mode replace now => move_object src_db src dst_db dst mode replace now;; mret tt
  | OpFlushDb db => flush_db db;; mret tt
  | OpFlushAll => flush_all;; mret tt
  | OpSwapDb a b => swap_db a b
  | OpPurge pred => remove_keys_where pred;; mret tt
  end.

(** The command layer has checked the database numbers. *)
Definition op_in_range (databases : N) (op : store_op) : bool :=
  match op with
  | OpInsert db _ | OpRead db _ _ | OpUpsert db _ _ _ _ | OpDelete db _ _ | OpRmw db _ _ _ | OpRmwMut db _ _ _
  | OpReap db _ _ | OpFlushDb db => db <? databases
  | OpMove a _ b _ _ _ _ | OpSwapDb a b => (a <? databases) && (b <? databases)
  | OpFlushAll | OpPurge _ => true
  end.

(** [rmw] gets no [Mutated] from its closures, and an edit in place comes with
    [Mutated] or [Delete]. *)
Definition op_wf (op : store_op) : Prop :=
  match op with
  | OpRmw _ _ _ f => ∀ e, action (f e) ≠ AMutated
  | OpRmwMut _ _ _ f => edits_reported f
  | _ => True
  end.

(** The writes an operation may make. *)
Definition op_writes (op : store_op) (lab : label) : Prop :=
  match op with
  | OpInsert db o => lab = LPut db (ko_key o)
  | OpRead db key _ | OpDelete db key _ => lab = LKey db key ∨ lab = LLazy
  | OpUpsert db key _ _ _ | OpRmw db key _ _ | OpRmwMut db key _ _ =>
      lab = LPut db key ∨ lab = LKey db key ∨ lab = LLazy
  | OpReap db key _ => lab = LKey db key
  | OpMove a src b dst _ _ _ => lab = LKey a src ∨ lab = LKey b dst ∨ lab = LPut b dst ∨ lab = LLazy
  | OpFlushDb db => (∃ key, lab = LKey db key) ∨ lab = LDb db
  | OpFlushAll => (∃ db key, lab = LKey db key) ∨ ∃ db, lab = LDb db
  | OpSwapDb a b => lab = LSwap a b
  | OpPurge pred => ∃ db key, pred key = true ∧ (lab = LKey db key ∨ lab = LPurge db key)
  end.

Lemma run_store_op_runs s op : store_ok s → op_in_range (databases s) op = true → op_wf op →
  runs (op_writes op) (run_store_op op) s.
Proof.
  intros Hok Hr Hwf. destruct op; cbn [run_store_op op_in_range op_wf] in *; rewrite ?andb_true_iff, ?N.ltb_lt in Hr.
  - by apply insert_object_runs.
  - apply runs_unit, store_read_runs; cbn; eauto.
  - apply runs_unit, upsert_runs; cbn; eauto.
  - apply runs_unit, store_delete_runs; cbn; eauto.
  - apply rmw_runs; cbn; eauto.
  - apply rmw_mut_runs; cbn; eauto.
  - by apply runs_unit, reap_runs.
  - destruct Hr. apply runs_unit, move_object_runs; cbn; eauto.
  - apply runs_unit, flush_db_runs; cbn; eauto.
  - apply runs_unit, wp_bind, wp_gets, each_db_runs. intros db s' Hdb Ht.
    apply flush_db_runs; [by eapply prims_ok|eapply prims_db; [done..|]; unfold databases; lia|cbn; eauto..].
  - destruct Hr. by apply swap_db_runs.
  - apply runs_unit, purge_runs; [done|]. intros db key Hk. cbn. eauto 10.
Qed.

Lemma prims_mono (P Q : label → Prop) s s' : (∀ lab, P lab → Q lab) → prims P s s' → prims Q s s'.
Proof. intros HPQ. apply rtc_subrel. intros x y (lab & HP & Hp). exists lab. auto. Qed.

(** A sequence of operations is a sequence of the writes they may make. *)
Lemma run_store_ops_runs s ops (P : label → Prop) : store_ok s →
  Forall (λ op, op_in_range (databases s) op = true ∧ op_wf op ∧ ∀ lab, op_writes op lab → P lab) ops →
  runs P (for_each ops run_store_op) s.
Proof.
  revert s. induction ops as [|op ops IH]; intros s Hok Hops; cbn [for_each]; [apply runs_ret|].
  inversion Hops as [|? ? (Hr & Hwf & HP) Hrest]; subst. apply runs_bind.
  - eapply wp_mono; [by apply run_store_op_runs|]. intros [] s' Hs. by eapply prims_mono.
  - intros [] s' Ht. destruct (prims_ok _ _ _ Hok Ht) as [Hok' (Hl & _)]. apply IH; [done|]. unfold databases in *. by rewrite Hl.
Qed.

(** ** What a sequence of writes may change

    [tracked s s']: the store is still well formed; a dirty set that was armed
    has grown by at least every key whose binding changed; and if only keys of
    [K] were bound or dirty, this is still so. *)

Section track.
Context (K : list byte → Prop).

Definition keys_in s : Prop :=
  (∀ i k o, find_obj i k s = Some o → K k) ∧
  ∀ d db k, dirty_keys s = Some d → (db, k) ∈ d → db < databases s ∧ K k.

Definition tracked s s' : Prop :=
  store_ok s' ∧ same_config s s' ∧
  match dirty_keys s with
  | None => dirty_keys s' = None
  | Some d => ∃ d', dirty_keys s' = Some d' ∧ d ⊆ d' ∧
      ∀ db k, db < databases s → (db, k) ∉ d' → find_obj (N.to_nat db) k s' = find_obj (N.to_nat db) k s
  end ∧
  (keys_in s → keys_in s').

Lemma tracked_refl s : store_ok s → tracked s s.
Proof.
  intros Hok. split; [done|]. split; [done|]. split; [|done]. destruct (dirty_keys s) as [d|]; [|done]. by exists d.
Qed.

Lemma tracked_trans s1 s2 s3 : tracked s1 s2 → tracked s2 s3 → tracked s1 s3.
Proof.
  intros (_ & (L1 & S1 & P1) & T1 & K1) (H3 & (L2 & S2 & P2) & T2 & K2). split; [done|].
  split; [by unfold same_config; rewrite L2, S2, P2|]. split; [|by auto].
  destruct (dirty_keys s1) as [d1|]; [|by rewrite T1 in T2]. destruct T1 as (d2 & E2 & Hs1 & Hc1).
  rewrite E2 in T2. destruct T2 as (d3 & E3 & Hs2 & Hc2). exists d3. split; [done|]. split; [by transitivity d2|].
  intros db k Hdb Hn. unfold databases in *. rewrite Hc2 by (lia || done). apply Hc1; [done|]. intros Hin. by apply Hn, Hs2.
Qed.

(** Only one binding changed, and it was marked. *)
Lemma tracked_write s s' db key v f : write db key v f s s' → db < databases s → (keys_in s → K key) → tracked s s'.
Proof.
  intros [Hok Hc Hd _ Hf] Hdb HK. assert (databases s' = databases s) as Hdbs by (unfold databases; by destruct Hc as [-> _]).
  split; [done|]. split; [done|]. split.
  - destruct (dirty_keys s) as [d|]; [|by rewrite Hd].
    exists ({[(db, key)]} ∪ d). split; [by rewrite Hd|]. split; [by apply union_subseteq_r|].
    intros db' k _ Hn. rewrite Hf. case_decide as E; [|done]. destruct E as [E ->].
    apply N2Nat.inj in E as ->. exfalso. by apply Hn, elem_of_union_l, elem_of_singleton.
  - intros Hin. split.
    + intros i k o. rewrite Hf. case_decide as E; [destruct E as [_ ->]; auto|apply Hin].
    + intros d db' k Hd' Hk. rewrite Hd in Hd'. rewrite Hdbs. destruct (dirty_keys s) as [d0|] eqn:E0; [|done].
      injection Hd' as <-. apply elem_of_union in Hk as [[= -> ->]%elem_of_singleton|Hk]; [auto|]. by eapply Hin.
Qed.

Lemma tracked_quiet s s' f : quiet f s s' → tracked s s'.
Proof.
  intros [Hok Hc Hd _ Hf]. split; [done|]. split; [done|]. rewrite Hd. split.
  - destruct (dirty_keys s) as [d|]; [|done]. exists d. split; [done|]. split; [done|]. by intros db' k _ _.
  - intros [H1 H2]. split.
    + intros i k o. rewrite Hf. apply H1.
    + intros d db' k. rewrite Hd. unfold databases. destruct Hc as [-> _]. apply H2.
Qed.

Lemma tracked_swap a b s s' : a < databases s → b < databases s → store_ok s' → same_config s s' →
  (∀ i k, find_obj i k s' = find_obj (if decide (i = N.to_nat a) then N.to_nat b else
    if decide (i = N.to_nat b) then N.to_nat a else i) k s) →
  swap_dirty a b s s' → tracked s s'.
Proof.
  intros Ha Hb Hok Hc Hf Hd. unfold swap_dirty in Hd. split; [done|]. split; [done|].
  assert (keys_in s → ∀ i k o, find_obj i k s' = Some o → K k) as Hin by (intros [H _] i k o; rewrite Hf; apply H).
  destruct (dirty_keys s) as [d|] eqn:Ed; [|split; [done|]; intros HK; split; [by apply Hin|by rewrite Hd]].
  destruct Hd as (d' & Hd' & Hs & Hk & Hu). split.
  - exists d'. split; [done|]. split; [done|]. intros db k _ Hn.
    destruct (decide (db = a ∨ db = b)) as [Hab|]; [|by rewrite Hf, !decide_False by lia].
    assert (∀ i o, i = N.to_nat a ∨ i = N.to_nat b → find_obj i k s' ≠ Some o) as Hnone.
    { intros i o Hi Ho. destruct (Hk k o) as [H1 H2]; [destruct Hi as [->| ->]; auto|]. destruct Hab as [->| ->]; done. }
    assert (find_obj (N.to_nat a) k s' = None ∧ find_obj (N.to_nat b) k s' = None) as [Na Nb]
      by (split; apply eq_None_not_Some; intros [o Ho]; [exact (Hnone _ o (or_introl eq_refl) Ho)|exact (Hnone _ o (or_intror eq_refl) Ho)]).
    pose proof (Hf (N.to_nat a) k) as Fa. pose proof (Hf (N.to_nat b) k) as Fb. rewrite decide_True in Fa by done.
    destruct Hab as [->| ->]; destruct (decide (N.to_nat b = N.to_nat a)) as [E|E]; rewrite ?decide_True in Fb by done; congruence.
  - intros HK. split; [by apply Hin|]. intros d'' db k. rewrite Hd'. intros [= <-] Hx.
    unfold databases in *. destruct Hc as [-> _]. destruct (Hu db k Hx) as [Hold|[Hdb (o & Ho)]].
    + by apply (proj2 HK d).
    + split; [destruct Hdb as [->| ->]; done|]. destruct Ho as [Ho|Ho]; by eapply Hin.
Qed.

(** Only a put can bring in a key. *)
Definition puts_in (lab : label) : Prop := match lab with LPut _ k => K k | _ => True end.

Lemma prim_tracked lab s s' : puts_in lab → prim lab s s' → tracked s s'.
Proof.
  intros HP Hp. destruct Hp.
  - eapply tracked_write; [done..|]. by intros _.
  - eapply tracked_write; [done|by eapply find_obj_db|]. intros [H1 _]. by eapply H1.
  - eapply tracked_write; [done|by eapply find_obj_db|]. intros [H1 _]. by eapply H1.
  - eapply tracked_write; [done|by eapply find_obj_db|]. intros [H1 _]. by eapply H1.
  - eapply tracked_write; [done|by eapply find_obj_db|]. intros [H1 _]. by eapply H1.
  - by eapply tracked_quiet.
  - by eapply tracked_quiet.
  - by eapply tracked_quiet.
  - by apply (tracked_swap a b).
Qed.

Lemma prims_tracked s s' : store_ok s → prims puts_in s s' → tracked s s'.
Proof.
  intros Hok. induction 1 as [s|s1 s2 s3 (lab & HP & Hp) _ IH]; [by apply tracked_refl|].
  eapply tracked_trans; [by eapply prim_tracked|]. apply IH. by eapply prim_ok.
Qed.

(** A step that runs to the end and only makes tracked changes. *)
Definition tracks {A} (m : step (ShardStore V) A) s : Prop := wp False m (λ _ s', tracked s s') s.

(** The keys an operation may add. *)
Definition op_keys (op : store_op) : Prop := op_wf op ∧
  match op with
  | OpInsert _ o => K (ko_key o)
  | OpUpsert _ key _ _ _ | OpRmw _ key _ _ | OpRmwMut _ key _ _ | OpMove _ _ _ key _ _ _ => K key
  | _ => True
  end.

Lemma op_keys_writes op lab : op_keys op → op_writes op lab → puts_in lab.
Proof. intros [_ HK]. destruct op; cbn in *; naive_solver. Qed.

Lemma run_store_ops_tracks s ops : store_ok s → Forall (λ op, op_in_range (databases s) op = true ∧ op_keys op) ops →
  tracks (for_each ops run_store_op) s.
Proof.
  intros Hok Hr. eapply wp_mono; [apply (run_store_ops_runs s ops puts_in Hok)|].
  - eapply Forall_impl; [done|]. intros op [H1 H2]. split; [done|]. split; [apply H2|]. intros lab. by apply op_keys_writes.
  - intros [] s' Hs. by apply prims_tracked.
Qed.

End track.


End ops.

Arguments store_op : clear implicits.

(** ** An example: counters, of which zero is the empty one *)

#[global] Instance counter_value : StoredValue N := {| logical_len := λ _, 8; is_empty_collection := λ v, v =? 0 |}.

Definition example_key (n : string) : list byte := String.list_byte_of_string n.

(** Decrement in place; the store drops a counter that reaches zero. *)
Definition decrement (e : option (KvObj N)) : option N * RmwStep N unit :=
  match e with
  | Some o => (Some (ko_value o - 1), mkStep AMutated Unchanged tt)
  | None => (None, mkStep AKeep Unchanged tt)
  end.

Definition example_ops : list (store_op N) :=
  [OpInsert 0 (mkObj (example_key "a") None 2); OpUpsert 1 (example_key "b") 2 (SetAt 5) 1;
   OpMove 0 (example_key "a") 1 (example_key "c") Rename true 3; OpDelete 1 (example_key "b") 9;
   OpRmwMut 1 (example_key "c") 9 decrement; OpSwapDb 0 1; OpRmwMut 0 (example_key "c") 9 decrement].

Lemma example_ops_ok : Forall (λ op, op_in_range 2 op = true ∧ op_wf op) example_ops.
Proof.
  assert (edits_reported decrement) by (intros o v st [= <- <-]; by left).
  unfold example_ops. repeat (apply Forall_cons; split; [by split|]). by apply Forall_nil.
Qed.

