(* ===== verification/KeyspaceWatch.v ===== *)
(** * Watches

    The optimistic check of a transaction: clients take watches, run operations,
    check and drop their watches in any order on one shard. A check that says
    clean means that the key still has the entry it had when it was watched, and
    a key nobody wrote is clean. *)

From Stdlib Require Import Lia ZArith NArith.
From S2P Require Import Prelude Keyspace KeyspaceProofs KeyspaceOps.
From stdpp Require Import strings.

#[local] Open Scope N_scope.

Section watch.
Context {V : Type} {Hval : StoredValue V}.
Implicit Types (s : ShardStore V) (l : Ledger V).

(** ** What the writes do to the versions *)

(** The slots of [T] take a version past the clock, if anything is watched; the
    others keep theirs. *)
Record bumps (T : N * list byte → Prop) l l' : Prop := {
  bu_count : watched_count l' = watched_count l;
  bu_clock : version_clock l ≤ version_clock l';
  bu_none k : watch_versions l !! k = None → watch_versions l' !! k = None;
  bu_slot k w : watch_versions l !! k = Some w → ∃ v, watch_versions l' !! k = Some (mkWatchSlot v (ws_watchers w)) ∧
    (v = ws_version w ∧ (T k → watched_count l = 0) ∨ T k ∧ version_clock l < v ≤ version_clock l')
}.

Definition watches l : gmap (N * list byte) WatchSlot * N * N := (watch_versions l, watched_count l, version_clock l).

Lemma bumps_same (T : N * list byte → Prop) l l' : watches l' = watches l → (∀ k, T k → watched_count l = 0) → bumps T l l'.
Proof.
  intros [= E1 E2 E3] HT. constructor; rewrite ?E1, ?E3; [done|lia|done|]. intros k w Hw. exists (ws_version w).
  rewrite Hw. split; [by destruct w|]. left. eauto.
Qed.

Lemma bumps_trans (T1 T2 T : N * list byte → Prop) l1 l2 l3 : bumps T1 l1 l2 → bumps T2 l2 l3 →
  (∀ k, T k ↔ T1 k ∨ T2 k) → bumps T l1 l3.
Proof.
  intros [C1 K1 N1 S1] [C2 K2 N2 S2] HT. constructor; [congruence|lia|by auto|]. intros k w Hw.
  destruct (S1 k w Hw) as (v1 & Hv1 & D1). destruct (S2 k _ Hv1) as (v2 & Hv2 & D2). cbn in *. exists v2. split; [done|].
  rewrite HT. rewrite C1 in D2. destruct D1 as [[-> H1]|[H1 ?]], D2 as [[-> H2]|[H2 ?]]; [left|right..]; try (split; [tauto|lia]).
  split; [done|]. tauto.
Qed.

Lemma bumps_slot k l : bumps (λ k', k' = k) l (bump_slot k l).
Proof.
  unfold bump_slot. destruct (watch_versions l !! k) as [w|] eqn:E.
  - constructor; cbn; [done|lia| |].
    + intros k' Hk'. by rewrite lookup_insert_ne by congruence.
    + intros k' w' Hw'. destruct (decide (k' = k)) as [->|Hne].
      * exists (version_clock l + 1). rewrite lookup_insert_eq. rewrite E in Hw'. injection Hw' as <-. split; [done|]. right. split; [done|lia].
      * exists (ws_version w'). rewrite lookup_insert_ne by done. split; [by destruct w'|]. by left.
  - constructor; [done|lia|done|]. intros k' w' Hw'. exists (ws_version w'). split; [by destruct w'|]. left. split; [done|]. congruence.
Qed.

Lemma bumps_fold ks l : bumps (λ k, k ∈ ks) l (foldl (λ l k, bump_slot k l) l ks).
Proof.
  revert l. induction ks as [|k ks IH]; intros l; cbn [foldl].
  - apply bumps_same; [done|]. by intros k ?%elem_of_nil.
  - eapply bumps_trans; [apply bumps_slot|apply IH|]. intros k'. by rewrite elem_of_cons.
Qed.

Lemma bumps_touch db key l : bumps (λ k, k = (db, key)) l (touch_watch db key l).
Proof. unfold touch_watch. case_decide; [by apply bumps_same|apply bumps_slot]. Qed.

(** A slot that is not there is in no danger. *)
Lemma bumps_weaken (T T' : N * list byte → Prop) l l' : bumps T l l' → (∀ k w, watch_versions l !! k = Some w → T k ↔ T' k) → bumps T' l l'.
Proof.
  intros [C K N0 S] HT. constructor; [done..|]. intros k w Hw. destruct (S k w Hw) as (v & Hv & D). exists v.
  rewrite <- (HT k w Hw). done.
Qed.

Lemma bumps_all db l : bumps (λ k, k.1 = db) l (touch_all_watches_in_db db l).
Proof.
  unfold touch_all_watches_in_db. case_decide as E; [by apply bumps_same|]. eapply bumps_weaken; [apply bumps_fold|].
  intros k w Hw. rewrite list_elem_of_filter, list_elem_of_fmap. split; [by intros [? _]|]. intros Hk. split; [done|].
  exists (k, w). split; [done|]. by apply elem_of_map_to_list.
Qed.

Definition touches (lab : label) (k : N * list byte) : Prop :=
  match lab with
  | LPut db key | LKey db key | LPurge db key => k = (db, key)
  | LDb db => k.1 = db
  | LSwap a b => k.1 = a ∨ k.1 = b
  | LLazy => False
  end.

Lemma bumps_then (T : N * list byte → Prop) l l1 l2 : bumps T l l1 → watches l2 = watches l1 → bumps T l l2.
Proof. intros [C K N0 S] [= E1 E2 E3]. constructor; rewrite ?E1, ?E2, ?E3; done. Qed.

Lemma put_watches db key old o l : watches (put_ledger db key old o l) = watches (touch_watch db key l).
Proof. by destruct old. Qed.

Lemma edit_watches db key a b o l : watches (edit_ledger db key a b o l) = watches (touch_watch db key l).
Proof. unfold edit_ledger. by destruct (negb _). Qed.

(** A write bumps what it touches, and changes no binding it does not touch. *)
Lemma prim_bumps lab s s' : prim lab s s' → bumps (touches lab) (ledger s) (ledger s') ∧
  ∀ db k, ¬ touches lab (db, k) → find_obj (N.to_nat db) k s' = find_obj (N.to_nat db) k s.
Proof.
  assert (∀ db key v f s s' l2, write db key v f s s' → watches (f (ledger s)) = watches (touch_watch db key (ledger s)) →
    l2 = ledger s' → bumps (λ k, k = (db, key)) (ledger s) l2 ∧
    ∀ db' k, (db', k) ≠ (db, key) → find_obj (N.to_nat db') k s' = find_obj (N.to_nat db') k s) as Hw.
  { intros db key v f t t' l2 [_ _ _ Hl Hf] E ->. split; [rewrite Hl; eapply bumps_then; [apply bumps_touch|done]|].
    intros db' k Hne. rewrite Hf, decide_False; [done|]. intros [Hd ->]. apply Hne. by apply N2Nat.inj in Hd as ->. }
  intros Hp. destruct Hp; cbn [touches].
  - eapply Hw; [done|apply put_watches|done].
  - by eapply Hw.
  - eapply Hw; [done|apply edit_watches|done].
  - by eapply Hw.
  - by eapply Hw.
  - match goal with H : quiet _ _ _ |- _ => destruct H as [_ _ _ -> Hf] end. split; [apply bumps_touch|]. intros; apply Hf.
  - match goal with H : quiet _ _ _ |- _ => destruct H as [_ _ _ -> Hf] end. split; [by apply bumps_same|]. intros; apply Hf.
  - match goal with H : quiet _ _ _ |- _ => destruct H as [_ _ _ -> Hf] end. split; [apply bumps_all|]. intros; apply Hf.
  - match goal with H : ledger s' = _ |- _ => rewrite H end. split; [by eapply bumps_trans; [apply bumps_all..|]|].
    intros db k Hn. match goal with H : ∀ i k, find_obj i k s' = _ |- _ => rewrite H end. cbn in Hn.
    by rewrite !decide_False by (intros E%N2Nat.inj; tauto).
Qed.

(** ** The slots count the watches that are held *)

Definition watch_key (e : WatchEntry) : N * list byte := (we_db e, we_key e).

Definition held (k : N * list byte) (es : list WatchEntry) : nat := length (base.filter (λ e, watch_key e = k) es).

Record watch_ok l (es : list WatchEntry) : Prop := {
  wo_count : watched_count l = N.of_nat (length es);
  wo_slot k : match watch_versions l !! k with
    | Some w => ws_watchers w = N.of_nat (held k es) ∧ (0 < held k es)%nat ∧ ws_version w ≤ version_clock l
    | None => held k es = 0%nat
    end
}.

Lemma watch_ok_perm l es es' : es ≡ₚ es' → watch_ok l es → watch_ok l es'.
Proof.
  intros Hp [H1 H2]. constructor; [by rewrite <- Hp|]. intros k.
  assert (held k es' = held k es) as -> by (unfold held; by rewrite Hp). apply H2.
Qed.

Lemma bumps_watch_ok (T : N * list byte → Prop) l l' es : bumps T l l' → watch_ok l es → watch_ok l' es.
Proof.
  intros [C K N0 S] [H1 H2]. constructor; [congruence|]. intros k. specialize (H2 k).
  destruct (watch_versions l !! k) as [w|] eqn:E; [|by rewrite N0].
  destruct (S k w E) as (v & -> & D). cbn. destruct H2 as (? & ? & ?). repeat split; [done..|]. destruct D as [[-> _]|[_ ?]]; lia.
Qed.

Lemma held_cons k e es : held k (e :: es) = ((if decide (watch_key e = k) then 1 else 0) + held k es)%nat.
Proof. unfold held. rewrite filter_cons. by case_decide. Qed.

Lemma held_pos e es : e ∈ es → (0 < held (watch_key e) es)%nat.
Proof.
  intros Hin. unfold held. destruct (base.filter _ es) as [|x xs] eqn:E; [|cbn; lia].
  assert (e ∈ base.filter (λ e', watch_key e' = watch_key e) es) as H by (by apply list_elem_of_filter).
  rewrite E in H. by apply elem_of_nil in H.
Qed.

(** The entry of a watch that is held: its slot is there, never behind, and while
    the version is the entry's the key is bound as it was, to [b]. *)
Definition seen (e : WatchEntry) (b : option (KvObj V)) s : Prop :=
  ∃ w, watch_versions (ledger s) !! watch_key e = Some w ∧ we_version e ≤ ws_version w ∧
    (ws_version w = we_version e → find_obj (N.to_nat (we_db e)) (we_key e) s = b).

(** The same, with the version still the entry's. *)
Definition fresh_watch (e : WatchEntry) (b : option (KvObj V)) s : Prop :=
  ∃ w, watch_versions (ledger s) !! watch_key e = Some w ∧ ws_version w = we_version e ∧
    find_obj (N.to_nat (we_db e)) (we_key e) s = b.

Lemma prim_seen lab s s' es e b : prim lab s s' → watch_ok (ledger s) es → e ∈ es → seen e b s → seen e b s'.
Proof.
  intros Hp Hok Hin (w & Hw & Hle & Hb). destruct (prim_bumps _ _ _ Hp) as [[C K N0 S] Hf].
  destruct (S _ _ Hw) as (v & Hv & D). exists (mkWatchSlot v (ws_watchers w)). cbn. split; [done|].
  pose proof (wo_slot _ _ Hok (watch_key e)) as Hs. rewrite Hw in Hs. destruct Hs as (_ & _ & Hclk).
  destruct D as [[-> HT]|[_ ?]]; [|split; lia]. split; [done|]. intros Hv'. rewrite Hf; [by apply Hb|].
  intros HT'. apply HT in HT'. rewrite (wo_count _ _ Hok) in HT'. destruct es; [by apply elem_of_nil in Hin|cbn in HT'; lia].
Qed.

Lemma prim_fresh lab s s' e b : prim lab s s' → ¬ touches lab (watch_key e) → fresh_watch e b s → fresh_watch e b s'.
Proof.
  intros Hp Hn (w & Hw & Hv & Hb). destruct (prim_bumps _ _ _ Hp) as [[C K N0 S] Hf].
  destruct (S _ _ Hw) as (v & Hv' & D). exists (mkWatchSlot v (ws_watchers w)). cbn. split; [done|].
  destruct D as [[-> _]|[? _]]; [|done]. split; [done|]. by rewrite Hf.
Qed.

Lemma prims_watch P s s' es : prims P s s' → watch_ok (ledger s) es → watch_ok (ledger s') es ∧
  (∀ e b, e ∈ es → seen e b s → seen e b s') ∧
  ∀ e b, (∀ lab, P lab → ¬ touches lab (watch_key e)) → fresh_watch e b s → fresh_watch e b s'.
Proof.
  induction 1 as [s|s1 s2 s3 (lab & HP & Hp) _ IH]; intros Hok; [done|].
  destruct (prim_bumps _ _ _ Hp) as [Hb _]. destruct (IH (bumps_watch_ok _ _ _ _ Hb Hok)) as (Hok' & Hs & Hf).
  split; [done|]. split.
  - intros e b Hin H. apply Hs; [done|]. by eapply prim_seen.
  - intros e b Hn H. apply Hf; [done|]. eapply prim_fresh; [done|by apply Hn|done].
Qed.

(** ** Taking and dropping a watch *)

Lemma watch_ok_take l es e w : watch_ok l es →
  w = default (mkWatchSlot (version_clock l) 0) (watch_versions l !! watch_key e) →
  watch_ok (set_watches (<[watch_key e := mkWatchSlot (ws_version w) (ws_watchers w + 1)]> (watch_versions l))
    (watched_count l + 1) (version_clock l) l) (e :: es).
Proof.
  intros [H1 H2] ->. constructor; cbn [watched_count watch_versions version_clock set_watches length]; [lia|]. intros k. specialize (H2 k). rewrite held_cons.
  destruct (decide (k = watch_key e)) as [->|Hne].
  - rewrite lookup_insert_eq, decide_True by done. destruct (watch_versions l !! watch_key e) as [w|]; cbn; lia.
  - rewrite lookup_insert_ne, decide_False by done. exact H2.
Qed.

Lemma watch_ok_drop l es e : watch_ok l (e :: es) → watch_ok (unwatch_one e l) es ∧
  ∀ k, (0 < held k es)%nat → ∃ w w', watch_versions l !! k = Some w ∧ watch_versions (unwatch_one e l) !! k = Some w' ∧
    ws_version w' = ws_version w.
Proof.
  intros [H1 H2]. unfold unwatch_one. fold (watch_key e). pose proof (H2 (watch_key e)) as He. rewrite held_cons, decide_True in He by done.
  destruct (watch_versions l !! watch_key e) as [w|] eqn:E; [|lia]. destruct He as (Hw & _ & Hclk).
  set (m := if decide _ then _ else _).
  assert (∀ k, k ≠ watch_key e → m !! k = watch_versions l !! k) as Hne.
  { intros k Hk. unfold m. case_decide; [by rewrite lookup_delete_ne by done|by rewrite lookup_insert_ne by done]. }
  assert (m !! watch_key e = if decide (held (watch_key e) es = 0%nat) then None
    else Some (mkWatchSlot (ws_version w) (N.of_nat (held (watch_key e) es)))) as He.
  { unfold m. case_decide; [rewrite lookup_delete_eq, decide_True by lia; done|].
    rewrite lookup_insert_eq, decide_False by lia. do 2 f_equal. lia. }
  clearbody m. cbn [length] in H1.
  split; [constructor; cbn [watched_count watch_versions version_clock set_watches]; [lia|]|]; intros k.
  - specialize (H2 k). rewrite held_cons in H2. destruct (decide (k = watch_key e)) as [->|Hk].
    + rewrite He. case_decide; [done|]. cbn. lia.
    + rewrite Hne by done. by rewrite decide_False in H2 by done.
  - intros Hpos. destruct (decide (k = watch_key e)) as [->|Hk].
    + exists w. eexists. cbn [watch_versions set_watches]. rewrite He, decide_False by lia. done.
    + specialize (H2 k). rewrite held_cons, decide_False in H2 by done. cbn [watch_versions set_watches]. rewrite Hne by done.
      destruct (watch_versions l !! k) as [w'|]; [by exists w', w'|lia].
Qed.

Definition keeps s s' : Prop := store_ok s' ∧ same_config s s' ∧ ∀ i k, find_obj i k s' = find_obj i k s.

(** Dropping the watches [es] of others leaves every watch of [rest] as it was. *)
Lemma unwatch_ok es rest s : store_ok s → watch_ok (ledger s) (es ++ rest) →
  ∃ s', unwatch es s = Some (tt, s') ∧ keeps s s' ∧ watch_ok (ledger s') rest ∧
    ∀ e b, e ∈ rest → (seen e b s → seen e b s') ∧ (fresh_watch e b s → fresh_watch e b s').
Proof.
  revert s. induction es as [|x es IH]; intros s Hok Hw; [by exists s|].
  destruct (watch_ok_drop _ _ _ Hw) as [Hw1 Hslots].
  destruct (IH (set_ledger (unwatch_one x (ledger s)) s) (set_ledger_ok _ _ Hok) Hw1) as (s' & Hr & Hk & Hw' & Hs).
  exists s'. split; [exact Hr|]. split; [exact Hk|]. split; [done|]. intros e b Hin. destruct (Hs e b Hin) as [Hs1 Hs2].
  destruct (Hslots (watch_key e)) as (w & w' & E & E' & Ev); [apply held_pos, elem_of_app; by right|].
  split.
  - intros (w0 & H0 & Hle & Hb). rewrite E in H0. injection H0 as <-. apply Hs1. exists w'. rewrite Ev. done.
  - intros (w0 & H0 & Hv & Hb). rewrite E in H0. injection H0 as <-. apply Hs2. exists w'. rewrite Ev. done.
Qed.

(** ** The clients of a shard *)

(** Operations, watches taken, checks and watches dropped, with the watches held;
    [P] bounds the writes. *)
Inductive watch_step (P : label → Prop) : ShardStore V * list WatchEntry → ShardStore V * list WatchEntry → Prop :=
  | st_op s s' es op : op_in_range (databases s) op = true → op_wf op → (∀ lab, op_writes op lab → P lab) →
      run_store_op op s = Some (tt, s') → watch_step P (s, es) (s', es)
  | st_watch s s' es db key now e : db < databases s → P (LKey db key) → P LLazy →
      watch_snapshot db key now s = Some (e, s') → watch_step P (s, es) (s', e :: es)
  | st_check s s' es e now b : we_db e < databases s → P (LKey (we_db e) (we_key e)) → P LLazy →
      watch_is_dirty e now s = Some (b, s') → watch_step P (s, es) (s', es)
  | st_unwatch s s' es es' rest : es ≡ₚ es' ++ rest → unwatch es' s = Some (tt, s') → watch_step P (s, es) (s', rest).

(** The state between two steps, with the watches [mine] that no step drops. *)
Definition client_ok (mine : list WatchEntry) (st : ShardStore V * list WatchEntry) : Prop :=
  store_ok st.1 ∧ watch_ok (ledger st.1) (mine ++ st.2).

(** The slot of a watch that is taken, and the ledger with it. *)
Definition take_watch (k : N * list byte) l : Ledger V :=
  set_watches (<[k := (λ w, mkWatchSlot (ws_version w) (ws_watchers w + 1))
      (default (mkWatchSlot (version_clock l) 0) (watch_versions l !! k))]> (watch_versions l))
    (watched_count l + 1) (version_clock l) l.

Lemma take_watch_ok e es s : watch_ok (ledger s) es →
  watch_ok (take_watch (watch_key e) (ledger s)) (e :: es) ∧
  (we_version e = ws_version (default (mkWatchSlot (version_clock (ledger s)) 0) (watch_versions (ledger s) !! watch_key e)) →
    fresh_watch e (find_obj (N.to_nat (we_db e)) (we_key e) s) (set_ledger (take_watch (watch_key e) (ledger s)) s)) ∧
  ∀ e' b, (seen e' b s → seen e' b (set_ledger (take_watch (watch_key e) (ledger s)) s)) ∧
    (fresh_watch e' b s → fresh_watch e' b (set_ledger (take_watch (watch_key e) (ledger s)) s)).
Proof.
  intros Hw. split; [by apply watch_ok_take|].
  assert (∀ k w, watch_versions (ledger s) !! k = Some w →
    ∃ w', watch_versions (take_watch (watch_key e) (ledger s)) !! k = Some w' ∧ ws_version w' = ws_version w) as Hsame.
  { intros k w Hk. unfold take_watch. cbn [watch_versions set_watches]. destruct (decide (k = watch_key e)) as [->|].
    - rewrite lookup_insert_eq, Hk. by eexists.
    - rewrite lookup_insert_ne by done. by exists w. }
  split.
  - intros Hv. eexists. cbn [ledger set_ledger take_watch watch_versions set_watches].
    rewrite lookup_insert_eq. split; [done|]. by split.
  - intros e' b. split; intros (w & Hk & Hrest); destruct (Hsame _ _ Hk) as (w' & Hk' & Hv); exists w'; rewrite Hv; done.
Qed.

(** The check of liveness that starts a watch and a check. *)
Lemma present_ok P s db key now : store_ok s → db < databases s → P (LKey db key) → P LLazy →
  wp False (expire_if_due db (N.to_nat db) key now) (λ live s', prims P s s' ∧ live = contains_live db key now s' ∧
    (contains_live db key now s = live) ∧
    (s' = s ∨ passive s = false ∧ live = false ∧ is_Some (find_obj (N.to_nat db) key s)) ∧
    (live = false → passive s = false → find_obj (N.to_nat db) key s' = None)) s.
Proof.
  intros Hok Hdb HP HL.
  assert (∀ t, same_config s t → contains_live db key now t =
    match find_obj (N.to_nat db) key t with Some o => negb (is_expired now o) | None => false end) as Hc.
  { intros t (Ht & _). unfold contains_live. by rewrite db_index_small by (unfold databases in *; by rewrite Ht). }
  unfold expire_if_due. apply wp_bind, wp_gets.
  destruct (find_obj (N.to_nat db) key s) as [o|] eqn:E.
  2:{ apply wp_ret. split; [apply rtc_refl|]. rewrite Hc, E by done. repeat split; auto; congruence. }
  destruct (is_expired now o) eqn:Hx; [|apply wp_ret; split; [apply rtc_refl|]; rewrite Hc, E, Hx by done; repeat split; auto; congruence].
  apply wp_bind, wp_gets. destruct (passive s) eqn:Hp.
  { apply wp_ret. split; [apply rtc_refl|]. rewrite Hc, E, Hx by done. repeat split; auto; congruence. }
  apply wp_bind. eapply wp_mono; [by apply remove_object_ok|]. intros b s1. rewrite E. intros [-> Hw].
  apply wp_bind, wp_modify, wp_ret.
  assert (find_obj (N.to_nat db) key s1 = None) as Hnone by (rewrite (wr_find _ _ _ _ _ _ Hw); by rewrite decide_True).
  split; [|split; [|split; [|split]]]; [|rewrite Hc; [|apply Hw]|rewrite Hc, E, Hx by done; done|right; by eauto|done].
  - eapply rtc_l; [exists (LKey db key); split; [done|]; by eapply pr_remove|].
    apply (prims_one _ LLazy); [done|]. apply pr_lazy. constructor; [by apply set_ledger_ok, Hw|done..].
  - change (false = match find_obj (N.to_nat db) key s1 with Some o => negb (is_expired now o) | None => false end). by rewrite Hnone.
Qed.

(** A watch sees the entry of its key, after the expiry it triggers. *)
Lemma watch_snapshot_ok P s es db key now : store_ok s → watch_ok (ledger s) es → db < databases s → P (LKey db key) → P LLazy →
  wp False (watch_snapshot db key now) (λ e s', ∃ s1, prims P s s1 ∧ watch_key e = (db, key) ∧
    s' = set_ledger (take_watch (db, key) (ledger s1)) s1 ∧
    fresh_watch e (find_obj (N.to_nat db) key s') s' ∧ we_present e = contains_live db key now s' ∧
    (we_present e = false → passive s = false → find_obj (N.to_nat db) key s' = None)) s.
Proof.
  intros Hok Hw Hdb HP HL. apply wp_bind, wp_gets. rewrite db_index_small by done. apply wp_bind.
  eapply wp_mono; [by apply (present_ok P)|]. intros live s1 (Hp & -> & _ & _ & Hnone).
  apply wp_bind, wp_gets. cbv zeta. apply wp_bind, wp_modify, wp_ret.
  pose proof (proj1 (prims_watch _ _ _ _ Hp Hw)) as Hw1.
  set (e := mkWatch _ _ _ _). exists s1. split; [done|]. split; [done|]. split; [done|].
  destruct (take_watch_ok e es s1 Hw1) as (_ & Hf & _). split; [by apply Hf|]. by split.
Qed.

(** One step keeps the counts and what every watch of [mine] sees. *)
Lemma watch_step_ok P mine st st' : watch_step P st st' → client_ok mine st →
  client_ok mine st' ∧ same_config st.1 st'.1 ∧
  (∀ e b, e ∈ mine → seen e b st.1 → seen e b st'.1) ∧
  ∀ e b, e ∈ mine → (∀ lab, P lab → ¬ touches lab (watch_key e)) → fresh_watch e b st.1 → fresh_watch e b st'.1.
Proof.
  assert (∀ s s' es, prims P s s' → client_ok mine (s, es) → client_ok mine (s', es) ∧ same_config s s' ∧
    (∀ e b, e ∈ mine → seen e b s → seen e b s') ∧
    ∀ e b, e ∈ mine → (∀ lab, P lab → ¬ touches lab (watch_key e)) → fresh_watch e b s → fresh_watch e b s') as Hprims.
  { intros s s' es Hp [Hok Hw]. destruct (prims_ok _ _ _ Hok Hp). destruct (prims_watch _ _ _ _ Hp Hw) as (H1 & H2 & H3).
    split; [done|]. split; [done|]. split; [|by eauto]. intros e b He. apply H2, elem_of_app. by left. }
  intros Hstep Hcl. pose proof Hcl as [Hok Hw]. destruct Hstep as [s s' es op Hr Hwf HP Hrun|s s' es db key now x Hdb HK HL Hrun|s s' es x now b0 Hdb HK HL Hrun|s s' es es' rest Hes Hrun]; cbn [fst snd] in *.
  - apply Hprims; [|done]. pose proof (run_store_op_runs s op Hok Hr Hwf) as Ht. unfold runs, wp in Ht. rewrite Hrun in Ht.
    by eapply prims_mono.
  - pose proof (watch_snapshot_ok P s _ db key now Hok Hw Hdb HK HL) as Ht. unfold wp in Ht. rewrite Hrun in Ht.
    destruct Ht as (s1 & Hp & Hk & -> & _). destruct (Hprims s s1 es Hp Hcl) as ([Hok1 Hw1] & Hc & Hs & Hf). rewrite <- Hk.
    destruct (take_watch_ok x (mine ++ es) s1 Hw1) as (Hw2 & _ & Ht). split; [split; [by apply set_ledger_ok|]|].
    + eapply watch_ok_perm; [|exact Hw2]. by apply Permutation_middle.
    + split; [done|]. split; [intros e b He H; apply Ht; eauto|]. intros e b He Hn H. apply Ht. eauto.
  - apply Hprims; [|done]. unfold watch_is_dirty in Hrun.
    assert (wp False (watch_is_dirty x now) (λ _ s', prims P s s') s) as Ht.
    { apply wp_bind, wp_gets. rewrite db_index_small by done. apply wp_bind. eapply wp_mono; [by apply expire_if_due_runs|].
      intros p s1 H1. destruct (negb _); [by apply wp_ret|]. by apply wp_bind, wp_gets, wp_ret. }
    unfold wp, watch_is_dirty in Ht. by rewrite Hrun in Ht.
  - destruct (unwatch_ok es' (mine ++ rest) s Hok) as (s2 & Hr & (Hok2 & Hc & _) & Hw2 & Hs).
    { eapply watch_ok_perm; [|exact Hw]. rewrite Hes. by rewrite !app_assoc, (Permutation_app_comm mine es'). }
    rewrite Hrun in Hr. injection Hr as <-. split; [done|]. split; [done|].
    split; [intros e b He; apply Hs, elem_of_app; by left|]. intros e b He _. apply Hs, elem_of_app. by left.
Qed.

Lemma watch_steps_ok P mine st st' : rtc (watch_step P) st st' → client_ok mine st →
  client_ok mine st' ∧ same_config st.1 st'.1 ∧
  (∀ e b, e ∈ mine → seen e b st.1 → seen e b st'.1) ∧
  ∀ e b, e ∈ mine → (∀ lab, P lab → ¬ touches lab (watch_key e)) → fresh_watch e b st.1 → fresh_watch e b st'.1.
Proof.
  induction 1 as [st|st1 st2 st3 H _ IH]; intros Hcl; [done|].
  destruct (watch_step_ok _ _ _ _ H Hcl) as (Hcl2 & (L1 & S1 & P1) & Hs & Hf). destruct (IH Hcl2) as (Hcl3 & (L2 & S2 & P2) & Hs' & Hf').
  split; [done|]. split; [unfold same_config; repeat split; congruence|]. split; [by eauto|]. intros e b He Hn H0. eauto.
Qed.

Lemma client_new D n : client_ok [] (store_new D n : ShardStore V, []).
Proof. split; [apply store_new_ok|]. constructor; [done|]. intros k. cbn. by rewrite lookup_empty. Qed.

(** What a check answers on a watch that is held. *)
Lemma watch_is_dirty_ok s es e b now : store_ok s → watch_ok (ledger s) es → e ∈ es → we_db e < databases s → seen e b s →
  wp False (watch_is_dirty e now) (λ dirty s',
    (dirty = false → find_obj (N.to_nat (we_db e)) (we_key e) s' = b ∧ contains_live (we_db e) (we_key e) now s' = we_present e) ∧
    (fresh_watch e b s → contains_live (we_db e) (we_key e) now s = we_present e →
      (we_present e = false → b = None ∨ passive s = true) → dirty = false)) s.
Proof.
  intros Hok Hw Hin Hdb Hseen. apply wp_bind, wp_gets. rewrite db_index_small by done. apply wp_bind.
  eapply wp_mono; [by apply (present_ok (λ _, True))|]. intros live s1 (Hp & Hl & Hl0 & Hsame & Hnone).
  destruct (prims_watch _ _ _ _ Hp Hw) as (Hw1 & Hs1 & _). destruct (Hs1 e b Hin Hseen) as (w & E & Hle & Hb).
  destruct (Bool.eqb live (we_present e)) eqn:Eq; cbn [negb].
  - apply eqb_prop in Eq. apply wp_bind, wp_gets, wp_ret. unfold watch_key in E. rewrite E. split.
    + intros Hv. apply negb_false_iff, N.eqb_eq in Hv. split; [by apply Hb|]. congruence.
    + intros (w0 & E0 & Hv0 & Hb0) Hc Hpas. apply negb_false_iff, N.eqb_eq.
      assert (s1 = s) as ->; [|unfold watch_key in E0; congruence].
      destruct Hsame as [|(Hp0 & Hl1 & [o Ho])]; [done|]. destruct (Hpas ltac:(congruence)); congruence.
  - apply wp_ret. split; [done|]. intros _ Hc. rewrite <- Hl0, Hc, eqb_reflx in Eq. done.
Qed.

(** From a new shard to a watch, and through the steps of others after it. *)
Lemma watch_then (Q : label → Prop) D n P s es db key now s2 es2 :
  rtc (watch_step P) (store_new D n : ShardStore V, []) (s, es) → db < databases s →
  ∃ e s1, watch_snapshot db key now s = Some (e, s1) ∧ watch_key e = (db, key) ∧ we_present e = contains_live db key now s1 ∧
    (we_present e = false → passive s1 = false → find_obj (N.to_nat db) key s1 = None) ∧
    (rtc (watch_step Q) (s1, es) (s2, es2) →
     store_ok s2 ∧ watch_ok (ledger s2) (e :: es2) ∧ we_db e < databases s2 ∧ passive s2 = passive s1 ∧
     seen e (find_obj (N.to_nat db) key s1) s2 ∧
     ((∀ lab, Q lab → ¬ touches lab (db, key)) → fresh_watch e (find_obj (N.to_nat db) key s1) s2)).
Proof.
  intros Hreach Hdb. destruct (watch_steps_ok _ [] _ _ Hreach (client_new D n)) as ([Hok Hw] & _). cbn [fst snd] in *.
  destruct (wp_total _ _ _ (watch_snapshot_ok (λ _, True) s es db key now Hok Hw Hdb I I))
    as (e & s1 & Hrun & t & Hp & [= <- <-] & Hs1 & Hfresh & Hpres & Hnone).
  destruct (watch_step_ok (λ _, True) [] (s, es) (s1, e :: es)) as (Hcl & (Hlen & _ & Hpas) & _);
    [by apply (st_watch _ s s1 es (we_db e) (we_key e) now)|done|]. cbn [fst snd] in *.
  exists e, s1. rewrite Hpas. do 4 (split; [done|]). intros Hsteps.
  destruct (watch_steps_ok _ [e] (s1, es) _ Hsteps Hcl) as ([Hok2 Hw2] & (Hlen2 & _ & Hpas2) & Hseen & Hf). cbn [fst snd] in *.
  split; [done|]. split; [done|]. split; [unfold databases in *; by rewrite Hlen2, Hlen|]. split; [congruence|]. split.
  - apply Hseen; [by left|]. destruct Hfresh as (w & ? & Hv & ?). exists w. split; [done|]. split; [lia|done].
  - intros HQ. by apply Hf; [left| |].
Qed.


(** No spurious abort. If no write touched the watched key since, and it is
    as present as it was, the check says clean. *)
Theorem untouched_watch_clean D n P s es db key now s2 es2 now' :
  rtc (watch_step P) (store_new D n : ShardStore V, []) (s, es) → db < databases s →
  ∃ e s1, watch_snapshot db key now s = Some (e, s1) ∧
    (rtc (watch_step (λ lab, ¬ touches lab (db, key))) (s1, es) (s2, es2) →
     contains_live db key now' s2 = contains_live db key now s1 →
     ∃ s3, watch_is_dirty e now' s2 = Some (false, s3)).
Proof.
  intros Hreach Hdb. destruct (watch_then (λ lab, ¬ touches lab (db, key)) D n P s es db key now s2 es2 Hreach Hdb)
    as (e & s1 & Hrun & Hk & Hpres & Hnone & Hthen).
  exists e, s1. split; [done|]. intros Hsteps Hlive. destruct (Hthen Hsteps) as (Hok & Hw & Hdb2 & Hpas & Hseen & Hf). injection Hk as <- <-.
  destruct (wp_total _ _ _ (watch_is_dirty_ok s2 _ e _ now' Hok Hw ltac:(by left) Hdb2 Hseen)) as (dirty & s3 & Hr & _ & Hclean).
  exists s3. rewrite Hr, Hclean; [done|by apply Hf|congruence|].
  intros Hp0. rewrite Hpas. destruct (passive s1); [by right|]. left. by apply Hnone.
Qed.

End watch.

(** ** An example: a watch on a key, and a write of another client to another key *)

Definition watched_store : ShardStore N :=
  match watch_snapshot 0 (example_key "a") 5 (store_new 2 4) with Some (_, s) => s | None => store_new 2 4 end.

Definition written_store : ShardStore N :=
  match run_store_op (OpUpsert 0 (example_key "b") 7 Clear 6) watched_store with Some (_, s) => s | None => watched_store end.

Lemma write_other_key (P : label → Prop) : (∀ lab, op_writes (OpUpsert 0 (example_key "b") 7 Clear 6) lab → P lab) →
  rtc (watch_step P) (watched_store, []) (written_store, []).
Proof.
  intros HP. apply rtc_once. apply (st_op _ _ _ _ (OpUpsert 0 (example_key "b") 7 Clear 6)); [done..|vm_compute; reflexivity].
Qed.


Lemma untouched_watch_clean_witness :
  ∃ e s1 s3, watch_snapshot 0 (example_key "a") 5 (store_new 2 4 : ShardStore N) = Some (e, s1) ∧
    watch_is_dirty e 9 written_store = Some (false, s3).
Proof.
  destruct (untouched_watch_clean 2 4 (λ _, True) (store_new 2 4 : ShardStore N) [] 0 (example_key "a") 5 written_store [] 9)
    as (e & s1 & H1 & H2); [apply rtc_refl|vm_compute; reflexivity|].
  assert (s1 = watched_store) as E by (unfold watched_store; rewrite H1; reflexivity).
  destruct H2 as [s3 H3].
  - rewrite E. apply write_other_key. intros lab Hl Hn. destruct Hl as [->|[->| ->]]; cbn in Hn; congruence.
  - rewrite E. vm_compute. reflexivity.
  - exists e, s1, s3. split; [exact H1|exact H3].
Defined.
