(* ===== verification/KeyspaceObserve.v ===== *)
(** * The observer of the writes, and a replica that replays it

    Replaying the calls the replication observer got, on the entries a store had
    before, gives the entries it has now, for every operation but the two that do
    not call it: the purge of an abandoned import, which is meant not to, and
    SWAPDB. A replica that applies the calls with its own store operations, at its
    own clock, shows the live keyspace of its primary. *)

From Stdlib Require Import Lia ZArith NArith.
From S2P Require Import Prelude Keyspace KeyspaceProofs KeyspaceOps.
From stdpp Require Import strings.

#[local] Open Scope N_scope.

Section observe.
Context {V : Type} {Hval : StoredValue V}.
Implicit Types (s r : ShardStore V) (c : Observed V) (b : N → list byte → option (KvObj V)).

Definition bound s : N → list byte → option (KvObj V) := λ db key, find_obj (N.to_nat db) key s.

(** One binding set. *)
Definition bind_key (db : N) (key : list byte) (v : option (KvObj V)) b : N → list byte → option (KvObj V) :=
  λ db' k, if decide (db' = db ∧ k = key) then v else b db' k.

Definition replay_one b c : N → list byte → option (KvObj V) :=
  match c with
  | OnPut db key o => bind_key db key (Some o) b
  | OnRemove db key => bind_key db key None b
  end.

Definition replay (cs : list (Observed V)) b : N → list byte → option (KvObj V) := foldl replay_one b cs.

(** A call is about a database that exists, and carries the entry under its key. *)
Definition call_ok (D : N) c : Prop :=
  match c with OnPut db key o => db < D ∧ ko_key o = key | OnRemove db _ => db < D end.

Lemma replay_ext cs b b' : (∀ db k, b db k = b' db k) → ∀ db k, replay cs b db k = replay cs b' db k.
Proof.
  revert b b'. induction cs as [|c cs IH]; intros b b' H; cbn [replay foldl]; [done|]. apply IH. intros db k.
  destruct c; unfold replay_one, bind_key; by rewrite H.
Qed.

(** ** The calls of a write *)

(** The writes that are not meant for, or do not reach, the observer. *)
Definition reaches_observer (lab : label) : Prop := match lab with LPurge _ _ | LSwap _ _ => False | _ => True end.

(** [s'] has the calls of [s] and some more, and their replay gives its entries. *)
Definition observed s s' : Prop := ∀ cs, observer (ledger s) = Some cs →
  ∃ new, observer (ledger s') = Some (cs ++ new) ∧ Forall (call_ok (databases s)) new ∧
    ∀ db k, bound s' db k = replay new (bound s) db k.

Lemma touch_watch_observer db key (l : Ledger V) : observer (touch_watch db key l) = observer l.
Proof. unfold touch_watch, bump_slot. case_decide; [done|]. by destruct (watch_versions l !! _). Qed.

Lemma bump_all_observer ks (l : Ledger V) : observer (foldl (λ l k, bump_slot k l) l ks) = observer l.
Proof.
  revert l. induction ks as [|k ks IH]; intros l; cbn [foldl]; [done|]. rewrite IH. unfold bump_slot. by destruct (watch_versions l !! k).
Qed.

Lemma touch_all_observer db (l : Ledger V) : observer (touch_all_watches_in_db db l) = observer l.
Proof. unfold touch_all_watches_in_db. case_decide; [done|apply bump_all_observer]. Qed.

Lemma observed_quiet f s s' : quiet f s s' → observer (f (ledger s)) = observer (ledger s) → observed s s'.
Proof.
  intros [_ _ _ Hl Hf] Ho cs Hcs. exists []. rewrite app_nil_r, Hl, Ho. split; [done|]. split; [by constructor|].
  intros db k. apply Hf.
Qed.

Lemma observed_write db key v f c s s' : write db key v f s s' → db < databases s →
  observer (f (ledger s)) = (λ cs, cs ++ [c]) <$> observer (ledger s) → call_ok (databases s) c →
  (∀ b, replay_one b c = bind_key db key v b) → observed s s'.
Proof.
  intros [_ _ _ Hl Hf] Hdb Ho Hc Hr cs Hcs. exists [c]. rewrite Hl, Ho, Hcs. split; [done|]. split; [by constructor|].
  intros db' k. cbn [replay foldl]. rewrite Hr. unfold bind_key, bound. rewrite Hf.
  destruct (decide (db' = db ∧ k = key)) as [[-> ->]|Hne]; [by rewrite decide_True|].
  rewrite decide_False; [done|]. intros [E ->]. apply Hne. split; [lia|done].
Qed.

Lemma put_observer db key old o (l : Ledger V) : observer (put_ledger db key old o l) = (λ cs, cs ++ [OnPut db key o]) <$> observer l.
Proof. rewrite <- (touch_watch_observer db key l). by destruct old. Qed.

Lemma edit_observer db key x y o (l : Ledger V) : observer (edit_ledger db key x y o l) = (λ cs, cs ++ [OnPut db key o]) <$> observer l.
Proof. rewrite <- (touch_watch_observer db key l). unfold edit_ledger. by destruct (negb _). Qed.

Lemma prim_observed lab s s' : reaches_observer lab → prim lab s s' → observed s s'.
Proof.
  intros HP Hp. destruct Hp; cbn in HP; try done.
  - by eapply observed_write; [done|done|apply put_observer| |].
  - eapply observed_write; [done|by eapply find_obj_db|cbn; by rewrite touch_watch_observer| |done].
    split; [by eapply find_obj_db|]. eapply find_obj_key; [eapply wr_ok; done|]. erewrite wr_find by done. by rewrite decide_True.
  - eapply observed_write; [done|by eapply find_obj_db|apply edit_observer| |done].
    split; [by eapply find_obj_db|]. eapply find_obj_key; [eapply wr_ok; done|]. erewrite wr_find by done. by rewrite decide_True.
  - eapply observed_write; [done|by eapply find_obj_db|cbn; by rewrite touch_watch_observer|by eapply find_obj_db|done].
  - eapply observed_quiet; [done|]. apply touch_watch_observer.
  - by eapply observed_quiet.
  - eapply observed_quiet; [done|]. apply touch_all_observer.
Qed.

Lemma prims_observed s s' : store_ok s → prims reaches_observer s s' → observed s s'.
Proof.
  intros Hok. induction 1 as [s|s1 s2 s3 (lab & HP & Hp) _ IH]; intros cs Hcs.
  - exists []. rewrite app_nil_r. split; [done|]. by split; [constructor|].
  - destruct (prim_ok _ _ _ Hp) as [Hok2 (Hlen & _)]. destruct (prim_observed _ _ _ HP Hp cs Hcs) as (n1 & H1 & F1 & R1).
    destruct (IH Hok2 _ H1) as (n2 & H2 & F2 & R2). exists (n1 ++ n2). rewrite app_assoc. split; [done|].
    unfold databases in F2. rewrite Hlen in F2. split; [by apply Forall_app|]. intros db k. rewrite R2. unfold replay.
    rewrite foldl_app. by apply replay_ext.
Qed.

(** ** The replica *)

(** What the replica's applier does with a call it gets, at its clock. *)
Definition apply_call (now : N) c : step (ShardStore V) unit :=
  match c with
  | OnPut db _ o => insert_object db o
  | OnRemove db key => store_delete db key now;; mret tt
  end.

(** From the time [T] on, the store shows what is alive of [b]. *)
Definition shows (D T : N) b r : Prop := store_ok r ∧ databases r = D ∧
  ∀ now db k, T ≤ now → db < D → alive_at now (bound r db k) = alive_at now (b db k).

Lemma is_expired_later now now' (o : KvObj V) : is_expired now o = true → now ≤ now' → is_expired now' o = true.
Proof. unfold is_expired. destruct (ko_expire o) as [d|]; [|done]. rewrite !N.ltb_lt. lia. Qed.

Lemma shows_set D T b r r' db key v : shows D T b r → store_ok r' → same_config r r' →
  (∀ j k, find_obj j k r' = if decide (j = N.to_nat db ∧ k = key) then v else find_obj j k r) →
  shows D T (bind_key db key v b) r'.
Proof.
  intros (_ & Hd & Hs) Hok (Hlen & _) Hf. split; [done|]. split; [unfold databases in *; by rewrite Hlen|].
  intros now db' k HT Hdb. unfold bound, bind_key. rewrite Hf.
  destruct (decide (db' = db ∧ k = key)) as [[-> ->]|Hne]; [by rewrite decide_True|].
  rewrite decide_False; [by apply Hs|]. intros [E ->]. apply Hne. split; [lia|done].
Qed.

(** A key the replica has not, or only dead, is as good as removed. *)
Lemma shows_dead D T b r db key : shows D T b r →
  (∀ o, find_obj (N.to_nat db) key r = Some o → is_expired T o = true) → shows D T (bind_key db key None b) r.
Proof.
  intros (Hok & Hd & Hs) Hdead. split; [done|]. split; [done|]. intros now db' k HT Hdb. unfold bind_key. case_decide as E; [|by apply Hs].
  destruct E as [-> ->]. unfold bound. destruct (find_obj (N.to_nat db) key r) as [o|] eqn:E; [|done]. cbn.
  by rewrite (is_expired_later T now) by auto.
Qed.

Lemma apply_call_shows D T now c b r : now ≤ T → call_ok D c → shows D T b r →
  wp False (apply_call now c) (λ _ r', shows D T (replay_one b c) r') r.
Proof.
  intros HT Hc Hsh. pose proof Hsh as (Hok & Hd & _). destruct c as [db key o|db key]; cbn [apply_call replay_one call_ok] in *.
  - destruct Hc as [Hdb Hk]. apply wp_bind, wp_gets. rewrite db_index_small by lia. apply wp_bind.
    eapply wp_mono; [apply put_object_ok; [done|lia|done]|]. intros x r' [[H1 H2 _ _ H3] _]. apply wp_ret. rewrite Hk in H3. by eapply shows_set.
  - apply wp_bind. apply wp_bind, wp_gets. rewrite db_index_small by lia. apply wp_bind.
    assert (∀ r0, store_ok r0 → databases r0 = D → shows D T b r0 → wp False (remove_object db (N.to_nat db) key)
      (λ _ r', shows D T (bind_key db key None b) r') r0) as Hrm.
    { intros r0 Hok0 Hd0 Hsh0. eapply wp_mono; [apply remove_object_ok; [done|lia]|]. intros x r' Hx.
      destruct (find_obj (N.to_nat db) key r0) as [o|] eqn:E; destruct Hx as [_ Hx].
      - destruct Hx as [H1 H2 _ _ H3]. by eapply shows_set.
      - destruct Hx as [H1 H2 _ _ H3]. eapply shows_set; [done..|]. intros j k. rewrite H3. case_decide as Ej; [|done]. by destruct Ej as [-> ->]. }
    unfold expire_if_due. apply wp_bind, wp_gets. destruct (find_obj (N.to_nat db) key r) as [o|] eqn:E.
    2:{ apply wp_ret, wp_ret, wp_ret. apply shows_dead; [done|]. by rewrite E. }
    destruct (is_expired now o) eqn:Hx.
    2:{ apply wp_ret. eapply wp_mono; [by apply Hrm|]. intros [] r' Hr; by apply wp_ret. }
    apply wp_bind, wp_gets. destruct (passive r).
    { apply wp_ret, wp_ret, wp_ret. apply shows_dead; [done|]. rewrite E. intros ? [= <-]. by eapply is_expired_later. }
    apply wp_bind. eapply wp_mono; [by apply Hrm|]. intros x r' Hr. cbv beta in Hr. apply wp_bind.
    destruct x; cbn [when]; [apply wp_modify|apply wp_ret]; apply wp_ret, wp_ret, wp_ret; [|done].
    destruct Hr as (H1 & H2 & H3). split; [by apply set_ledger_ok|]. by split.
Qed.

Lemma apply_calls_show D T cs nows b r : length nows = length cs → Forall (λ now, now ≤ T) nows → Forall (call_ok D) cs →
  shows D T b r → wp False (for_each (zip nows cs) (λ x, apply_call x.1 x.2)) (λ _ r', shows D T (replay cs b) r') r.
Proof.
  revert nows b r. induction cs as [|c cs IH]; intros [|now nows] b r Hl Hn Hc Hsh; cbn [length] in Hl; try lia; cbn [zip zip_with for_each].
  { by apply wp_ret. }
  inversion Hn; inversion Hc; subst. apply wp_bind. eapply wp_mono; [by apply (apply_call_shows D T)|].
  intros [] r' Hr. cbn [replay foldl]. apply IH; [lia|done..].
Qed.

Definition op_observed (op : store_op V) : bool := match op with OpSwapDb _ _ | OpPurge _ => false | _ => true end.

Lemma op_observed_writes op lab : op_observed op = true → op_writes op lab → reaches_observer lab.
Proof. destruct op; cbn; try done; naive_solver. Qed.


(** ** What does not reach a replica *)

(** SWAPDB is not replicated. Swapping two databases of a primary moves every
    key of the one to the other, and the observer gets no call: a replica that
    applied all calls so far keeps the key where it was. *)
Theorem swapdb_not_observed s (a b : N) key o cs : store_ok s → a < databases s → b < databases s → a ≠ b →
  find_obj (N.to_nat a) key s = Some o → find_obj (N.to_nat b) key s = None → observer (ledger s) = Some cs →
  ∃ s', swap_db a b s = Some (tt, s') ∧ find_obj (N.to_nat a) key s' = None ∧ find_obj (N.to_nat b) key s' = Some o ∧
    observer (ledger s') = Some cs.
Proof.
  intros Hok Ha Hb Hab Ho Hn Hcs. destruct (wp_total _ _ _ (swap_db_ok s a b Hok Ha Hb Hab)) as ([] & s' & Hrun & Hp).
  inversion Hp as [| | | | | | | |? ? ? ? _ _ _ _ Hl Hf _]; subst. exists s'. split; [done|].
  rewrite !Hf, decide_True, decide_False, decide_True by lia. rewrite Hl, !touch_all_observer. done.
Qed.

(** A replica does not remove an expired key when its primary does. On a
    passive replica the delete that the primary's removal sends finds the key due,
    and so removes nothing: the entry stays, and with it its weight in the memory
    accounting. *)
Theorem passive_delete_keeps_expired s db key now o : passive s = true → db < databases s →
  find_obj (N.to_nat db) key s = Some o → is_expired now o = true →
  apply_call now (OnRemove db key) s = Some (tt, s) ∧ store_delete db key now s = Some (false, s).
Proof.
  intros Hp Hdb Ho Hx.
  assert (store_delete db key now s = Some (false, s)) as Hd.
  { unfold store_delete, expire_if_due, mbind, step_bind, gets. rewrite db_index_small by done. rewrite Ho, Hx, Hp. done. }
  split; [|done]. cbn [apply_call]. unfold mbind, step_bind. by rewrite Hd.
Qed.

End observe.

(** ** Examples *)

Definition observed_store : ShardStore N := set_ledger (set_observer (Some []) ledger_new) (store_new 2 4).

Definition observed_ops : list (store_op N) :=
  [OpInsert 0 (mkObj (example_key "a") None 2); OpUpsert 1 (example_key "b") 2 (SetAt 5) 1;
   OpMove 0 (example_key "a") 1 (example_key "c") Rename true 3; OpDelete 1 (example_key "b") 9;
   OpRmwMut 1 (example_key "c") 9 decrement].

Lemma observed_ops_ok : Forall (λ op, op_in_range 2 op = true ∧ op_wf op ∧ op_observed op = true) observed_ops.
Proof.
  assert (edits_reported decrement) by (intros o v st [= <- <-]; by left).
  unfold observed_ops. repeat (apply Forall_cons; split; [by split|]). by apply Forall_nil.
Qed.


Definition one_key_store : ShardStore N :=
  match insert_object 0 (mkObj (example_key "a") (Some 5) 2) observed_store with Some (_, s) => s | None => observed_store end.

Lemma one_key_store_ok : store_ok one_key_store.
Proof.
  destruct (wp_total _ _ _ (insert_object_runs (λ _, True) observed_store 0 (mkObj (example_key "a") (Some 5) 2)
    (set_ledger_ok _ _ (store_new_ok 2 4)) eq_refl I)) as ([] & s & H & Hp).
  unfold one_key_store. rewrite H. eapply prims_ok; [|exact Hp]. apply set_ledger_ok, store_new_ok.
Qed.

Lemma swapdb_not_observed_witness :
  ∃ s', swap_db 0 1 one_key_store = Some (tt, s') ∧ find_obj 0 (example_key "a") s' = None ∧
    find_obj 1 (example_key "a") s' = Some (mkObj (example_key "a") (Some 5) 2) ∧
    observer (ledger s') = Some [OnPut 0 (example_key "a") (mkObj (example_key "a") (Some 5) 2)].
Proof.
  apply (swapdb_not_observed one_key_store 0 1 (example_key "a") (mkObj (example_key "a") (Some 5) 2)
    [OnPut 0 (example_key "a") (mkObj (example_key "a") (Some 5) 2)]).
  - exact one_key_store_ok.
  - vm_compute. reflexivity.
  - vm_compute. reflexivity.
  - discriminate.
  - vm_compute. reflexivity.
  - vm_compute. reflexivity.
  - vm_compute. reflexivity.
Defined.

Lemma passive_delete_keeps_expired_witness :
  apply_call 9 (OnRemove 0 (example_key "a")) (set_passive true one_key_store) = Some (tt, set_passive true one_key_store) ∧
  store_delete 0 (example_key "a") 9 (set_passive true one_key_store) = Some (false, set_passive true one_key_store).
Proof.
  apply (passive_delete_keeps_expired (set_passive true one_key_store) 0 (example_key "a") 9 (mkObj (example_key "a") (Some 5) 2)).
  - reflexivity.
  - vm_compute. reflexivity.
  - vm_compute. reflexivity.
  - vm_compute. reflexivity.
Defined.
