(* ===== verification/Values.v ===== *)
(** * Stored values

    The value types of crates/ironcache-store/src/kvobj.rs with the classification
    of strings (encoding.rs) and the encoding thresholds of
    crates/ironcache-storage/src/lib.rs: lists, hashes with per-field deadlines,
    sets and sorted sets, each with its small and large representations and the
    one-way conversions between them.

    A [Vec] and a [VecDeque] are lists, a [HashMap] and a [HashSet] finite maps and
    sets, a [BTreeSet] a finite set read in its order. A score is the bit pattern of
    a 64-bit float, added by the floating-point semantics of the standard library.
    The running byte count of a list is a natural number: it counts bytes that are in
    memory. *)

From Stdlib Require Import Lia ZArith NArith SpecFloat.
From S2P Require Import Prelude Resp Keyspace.
From stdpp Require Import strings sorting.

#[local] Open Scope N_scope.

(** ** Types and thresholds *)

Inductive DataType := TString | TList | TSet | THash | TZSet | TStream.

Inductive Encoding :=
  | EInt | EEmbStr | ERaw | EListPack | EQuickList | EListPackEx | EIntSet | EHashTable | ESkipList.

#[global] Instance Encoding_eq_dec : EqDecision Encoding.
Proof. solve_decision. Defined.

Record EncodingThresholds := mkThresholds {
  hash_max_listpack_entries : N;
  hash_max_listpack_value : N;
  list_max_listpack_size : Z;
  set_max_intset_entries : N;
  set_max_listpack_entries : N;
  set_max_listpack_value : N;
  zset_max_listpack_entries : N;
  zset_max_listpack_value : N
}.

Definition defaults : EncodingThresholds := mkThresholds 512 64 (-2) 512 128 64 128 64.

Definition unlimited : EncodingThresholds :=
  mkThresholds U64_MAX U64_MAX (-5) U64_MAX U64_MAX U64_MAX U64_MAX U64_MAX.

(** The byte budget and the entry cap of a list. *)
Definition list_budget (t : EncodingThresholds) : N * N :=
  match list_max_listpack_size t with
  | (-1)%Z => (4 * 1024, U64_MAX)
  | (-2)%Z => (8 * 1024, U64_MAX)
  | (-3)%Z => (16 * 1024, U64_MAX)
  | (-4)%Z => (32 * 1024, U64_MAX)
  | (-5)%Z => (64 * 1024, U64_MAX)
  | Zpos n => (8 * 1024, Npos n)
  | _ => (8 * 1024, U64_MAX)
  end.

Definition len {A} (l : list A) : N := N.of_nat (length l).

(** ** Strings *)

Definition EMBSTR_THRESHOLD : N := 44.

Inductive Classified := CInt (n : Z) | CEmbStr | CRaw.

(** The magnitude, in a u64. *)
Fixpoint magnitude (acc : N) (ds : list byte) : option N :=
  match ds with
  | [] => Some acc
  | b :: ds =>
      if is_digit b then
        m ← (if decide (acc * 10 ≤ U64_MAX) then Some (acc * 10) else None);
        a ← add64 m (Byte.to_N b - 48);
        magnitude a ds
      else None
  end.

(** The i64 with a sign and a magnitude. *)
Definition signed (neg : bool) (acc : N) : option Z :=
  if neg then if decide (2 ^ 63 < acc) then None else Some (- Z.of_N acc)%Z
  else if decide (2 ^ 63 ≤ acc) then None else Some (Z.of_N acc).

Definition split_sign (bytes : list byte) : bool * list byte :=
  match bytes with
  | c :: rest => if decide (c = "-"%byte) then (true, rest) else (false, bytes)
  | [] => (false, [])
  end.

Definition parse_canonical_i64 (bytes : list byte) : option Z :=
  let '(neg, digits) := split_sign bytes in
  match digits with
  | [] => None
  | d :: rest =>
      if decide (d = "0"%byte) then
        if decide (rest = []) then if (neg : bool) then None else Some 0%Z else None
      else acc ← magnitude 0 digits; signed neg acc
  end.

Definition classify (bytes : list byte) : Classified :=
  match parse_canonical_i64 bytes with
  | Some n => CInt n
  | None => if decide (len bytes ≤ EMBSTR_THRESHOLD) then CEmbStr else CRaw
  end.

Definition classified_encoding (c : Classified) : Encoding :=
  match c with CInt _ => EInt | CEmbStr => EEmbStr | CRaw => ERaw end.

(** [string2ll] of the store, without the rule on leading zeros. *)
Definition parse_set_i64 (arg : list byte) : option Z :=
  let '(neg, digits) := split_sign arg in
  match digits with
  | [] => None
  | _ => acc ← magnitude 0 digits; signed neg acc
  end.

(** ** Byte order *)

Definition bytes_le (a b : list byte) : Prop := bytes_leb a b = true.
#[global] Instance bytes_le_dec : RelDecision bytes_le := λ a b, decide (bytes_leb a b = true).

(** Pairs by their keys. *)
Definition by_key {A B} (R : relation A) (x y : A * B) : Prop := R x.1 y.1.
#[global] Instance by_key_dec {A B} (R : relation A) `{!RelDecision R} : RelDecision (by_key (B := B) R) :=
  λ x y, decide (R x.1 y.1).

(** ** Lists *)

Record ListVal := mkList { l_elems : list (list byte); l_total : N; l_quick : bool }.

Definition list_new : ListVal := mkList [] 0 false.

Definition list_encoding (l : ListVal) : Encoding := if l_quick l then EQuickList else EListPack.

Definition maybe_ratchet_quicklist (t : EncodingThresholds) (l : ListVal) : ListVal :=
  if l_quick l then l else
  let '(byte_budget, entry_cap) := list_budget t in
  if decide (byte_budget < l_total l ∨ entry_cap < len (l_elems l))
  then mkList (l_elems l) (l_total l) true else l.

Definition force_quicklist (l : ListVal) : ListVal := mkList (l_elems l) (l_total l) true.

Definition resolve_index (index : Z) (l : ListVal) : option nat :=
  let n := Z.of_nat (length (l_elems l)) in
  let i := (if decide (index < 0) then index + n else index)%Z in
  if decide (i < 0 ∨ n ≤ i)%Z then None else Some (Z.to_nat i).

(** The half-open range, as its start and its length. *)
Definition resolve_range (n : nat) (start stop : Z) : nat * nat :=
  let n := Z.of_nat n in
  if decide (n = 0)%Z then (0, 0)%nat else
  let s := (if decide (start < 0) then start + n else start)%Z in
  let e := (if decide (stop < 0) then stop + n else stop)%Z in
  let s := if decide (s < 0)%Z then 0%Z else s in
  let e := (if decide (n ≤ e) then n - 1 else e)%Z in
  if decide (e < s ∨ n ≤ s)%Z then (0, 0)%nat
  else (Z.to_nat s, Z.to_nat (e + 1 - s)).

Definition push_front (elem : list byte) (t : EncodingThresholds) (l : ListVal) : ListVal :=
  maybe_ratchet_quicklist t (mkList (elem :: l_elems l) (l_total l + len elem) (l_quick l)).

Definition push_back (elem : list byte) (t : EncodingThresholds) (l : ListVal) : ListVal :=
  maybe_ratchet_quicklist t (mkList (l_elems l ++ [elem]) (l_total l + len elem) (l_quick l)).

Definition pop_front (l : ListVal) : option (list byte) * ListVal :=
  match l_elems l with
  | e :: es => (Some e, mkList es (l_total l - len e) (l_quick l))
  | [] => (None, l)
  end.

Definition pop_back (l : ListVal) : option (list byte) * ListVal :=
  match last (l_elems l) with
  | Some e => (Some e, mkList (removelast (l_elems l)) (l_total l - len e) (l_quick l))
  | None => (None, l)
  end.

Definition list_get (index : Z) (l : ListVal) : option (list byte) :=
  i ← resolve_index index l; l_elems l !! i.

Definition list_set (index : Z) (elem : list byte) (t : EncodingThresholds) (l : ListVal) : bool * ListVal :=
  match resolve_index index l with
  | None => (false, l)
  | Some i =>
      let old := default [] (l_elems l !! i) in
      (true, maybe_ratchet_quicklist t (mkList (<[i := elem]> (l_elems l)) (l_total l - len old + len elem) (l_quick l)))
  end.

(** [iter().position]. *)
Definition find_pos {A} (P : A → Prop) `{∀ x, Decision (P x)} (l : list A) : option nat := fst <$> list_find P l.

(** The number of leading elements with [P]. *)
Fixpoint leading {A} (P : A → Prop) `{∀ x, Decision (P x)} (l : list A) : nat :=
  match l with
  | [] => 0
  | x :: l => if decide (P x) then S (leading P l) else 0
  end.

Definition insert_at {A} (i : nat) (x : A) (l : list A) : list A := take i l ++ x :: drop i l.
Definition list_remove_at {A} (i : nat) (l : list A) : list A := take i l ++ drop (S i) l.

(** [insert_before] with offset 0, [insert_after] with offset 1. *)
Definition insert_by (offset : nat) (pivot elem : list byte) (t : EncodingThresholds) (l : ListVal) : option nat * ListVal :=
  match find_pos (λ e, e = pivot) (l_elems l) with
  | None => (None, l)
  | Some i =>
      let l := maybe_ratchet_quicklist t
                 (mkList (insert_at (i + offset) elem (l_elems l)) (l_total l + len elem) (l_quick l)) in
      (Some (length (l_elems l)), l)
  end.

Definition insert_before := insert_by 0.
Definition insert_after := insert_by 1.

(** Head to tail from [i], until [cap] are removed; the fuel is the elements ahead. *)
Fixpoint remove_forward (fuel : nat) (cap : option N) (elem : list byte) (i : nat) (removed : N) (l : ListVal) : N * ListVal :=
  match fuel with
  | O => (removed, l)
  | S fuel =>
      if decide (cap = Some removed) then (removed, l) else
      match l_elems l !! i with
      | None => (removed, l)
      | Some e =>
          if decide (e = elem)
          then remove_forward fuel cap elem i (removed + 1) (mkList (list_remove_at i (l_elems l)) (l_total l - len e) (l_quick l))
          else remove_forward fuel cap elem (S i) removed l
      end
  end.

(** Tail to head from just below [i]. *)
Fixpoint remove_backward (i : nat) (cap : N) (elem : list byte) (removed : N) (l : ListVal) : N * ListVal :=
  match i with
  | O => (removed, l)
  | S i =>
      if decide (removed = cap) then (removed, l) else
      match l_elems l !! i with
      | Some e =>
          if decide (e = elem)
          then remove_backward i cap elem (removed + 1) (mkList (list_remove_at i (l_elems l)) (l_total l - len e) (l_quick l))
          else remove_backward i cap elem removed l
      | None => remove_backward i cap elem removed l
      end
  end.

Definition remove_matching (count : Z) (elem : list byte) (l : ListVal) : N * ListVal :=
  if decide (0 ≤ count)%Z
  then remove_forward (length (l_elems l)) (if decide (count = 0)%Z then None else Some (Z.to_N count)) elem 0 0 l
  else remove_backward (length (l_elems l)) (Z.abs_N count) elem 0 l.

Definition trim (start stop : Z) (l : ListVal) : ListVal :=
  let '(s, n) := resolve_range (length (l_elems l)) start stop in
  if decide (n = 0)%nat then mkList [] 0 (l_quick l) else
  let l := Nat.iter (length (l_elems l) - (s + n)) (λ l, (pop_back l).2) l in
  Nat.iter s (λ l, (pop_front l).2) l.

Definition list_range (start stop : Z) (l : ListVal) : list (list byte) :=
  let '(s, n) := resolve_range (length (l_elems l)) start stop in
  take n (drop s (l_elems l)).

(** The scan of LPOS: matches to skip, matches wanted ([None] for all). *)
Fixpoint pos_scan (elem : list byte) (to_skip : N) (want : option N) (es : list (nat * list byte)) : list nat :=
  match es with
  | [] => []
  | (i, e) :: es =>
      if decide (e = elem) then
        if decide (0 < to_skip) then pos_scan elem (to_skip - 1) want es
        else match want with
             | Some n => i :: (if decide (n ≤ 1) then [] else pos_scan elem 0 (Some (n - 1)) es)
             | None => i :: pos_scan elem 0 None es
             end
      else pos_scan elem to_skip want es
  end.

Definition list_pos (elem : list byte) (rank : Z) (count : option N) (maxlen : nat) (l : ListVal) : list nat :=
  if decide (l_elems l = [] ∨ rank = 0%Z) then [] else
  let want := match count with None => Some 1 | Some 0 => None | Some n => Some n end in
  let es := imap pair (l_elems l) in
  let es := if decide (0 < rank)%Z then es else rev es in
  let es := if decide (maxlen = 0)%nat then es else take maxlen es in
  pos_scan elem (Z.abs_N rank - 1) want es.

(** ** Hashes *)

Inductive HashData :=
  | HListPack (v : list (list byte * list byte))
  | HTable (m : gmap (list byte) (list byte)).

Record HashVal := mkHash { h_data : HashData; h_ttls : option (gmap (list byte) N) }.

Definition hash_new : HashVal := mkHash (HListPack []) None.

Definition pair_bytes (x : list byte * list byte) : N := len x.1 + len x.2.

Definition sum_of {A} (f : A → N) (l : list A) : N := foldr (λ x, N.add (f x)) 0 l.

Definition hash_element_bytes (h : HashVal) : N :=
  match h_data h with
  | HListPack v => sum_of pair_bytes v
  | HTable m => sum_of pair_bytes (map_to_list m)
  end.

Definition hash_encoding (h : HashVal) : Encoding :=
  match h_data h with
  | HListPack _ => if decide (is_Some (h_ttls h)) then EListPackEx else EListPack
  | HTable _ => EHashTable
  end.

Definition clear_field_ttl (field : list byte) (h : HashVal) : bool * HashVal :=
  match h_ttls h with
  | None => (false, h)
  | Some ttls =>
      let left := delete field ttls in
      (bool_decide (is_Some (ttls !! field)), mkHash (h_data h) (if decide (left = ∅) then None else Some left))
  end.

Definition should_convert (entries : nat) (field value : list byte) (t : EncodingThresholds) : bool :=
  bool_decide (hash_max_listpack_entries t < N.of_nat entries ∨ hash_max_listpack_value t < len field ∨
    hash_max_listpack_value t < len value).

Definition convert_to_hashtable (d : HashData) : HashData :=
  match d with
  | HListPack v => HTable (foldl (λ m x, <[x.1 := x.2]> m) ∅ v)
  | HTable m => d
  end.

Definition hash_listpack_pos (field : list byte) (v : list (list byte * list byte)) : option nat :=
  find_pos (λ x, x.1 = field) v.

Definition hash_force_large (h : HashVal) : HashVal := mkHash (convert_to_hashtable (h_data h)) (h_ttls h).

Definition hash_set (field value : list byte) (t : EncodingThresholds) (h : HashVal) : bool * HashVal :=
  match h_data h with
  | HListPack v =>
      let '(new, v) := match hash_listpack_pos field v with
                       | Some i => (false, <[i := (field, value)]> v)
                       | None => (true, v ++ [(field, value)])
                       end in
      let d := HListPack v in
      (new, mkHash (if should_convert (length v) field value t then convert_to_hashtable d else d) (h_ttls h))
  | HTable m => (bool_decide (m !! field = None), mkHash (HTable (<[field := value]> m)) (h_ttls h))
  end.

Definition hash_get (field : list byte) (h : HashVal) : option (list byte) :=
  match h_data h with
  | HListPack v => i ← hash_listpack_pos field v; snd <$> v !! i
  | HTable m => m !! field
  end.

Definition hash_contains (field : list byte) (h : HashVal) : bool :=
  match h_data h with
  | HListPack v => bool_decide (is_Some (hash_listpack_pos field v))
  | HTable m => bool_decide (is_Some (m !! field))
  end.

Definition hash_set_nx (field value : list byte) (t : EncodingThresholds) (h : HashVal) : bool * HashVal :=
  if hash_contains field h then (false, h) else (true, (hash_set field value t h).2).

Definition hash_del (field : list byte) (h : HashVal) : bool * HashVal :=
  let '(removed, d) :=
    match h_data h with
    | HListPack v =>
        match hash_listpack_pos field v with
        | Some i => (true, HListPack (list_remove_at i v))
        | None => (false, HListPack v)
        end
    | HTable m => (bool_decide (is_Some (m !! field)), HTable (delete field m))
    end in
  let h := mkHash d (h_ttls h) in
  if (removed : bool) then (true, (clear_field_ttl field h).2) else (false, h).

Definition hash_len (h : HashVal) : nat :=
  match h_data h with HListPack v => length v | HTable m => size m end.

(** The order of the keyspace scan: by fixed-seed hash, then by bytes. *)
Definition scan_le (a b : list byte) : Prop :=
  scan_hash a < scan_hash b ∨ scan_hash a = scan_hash b ∧ bytes_le a b.
#[global] Instance scan_le_dec : RelDecision scan_le := λ a b, _ : Decision (_ ∨ _ ∧ _).

Definition hash_pairs (h : HashVal) : list (list byte * list byte) :=
  match h_data h with
  | HListPack v => v
  | HTable m => merge_sort (by_key scan_le) (map_to_list m)
  end.

Definition field_ttl (field : list byte) (h : HashVal) : option N := t ← h_ttls h; t !! field.

Definition set_field_ttl (field : list byte) (deadline : N) (h : HashVal) : HashVal :=
  mkHash (h_data h) (Some (<[field := deadline]> (default ∅ (h_ttls h)))).

Definition field_ttl_pairs (h : HashVal) : list (list byte * N) :=
  match h_ttls h with
  | None => []
  | Some t => merge_sort (by_key bytes_le) (map_to_list t)
  end.

(** The fields whose deadline has come; a hash map gives them in no fixed order. *)
Definition expired_fields (now : N) (h : HashVal) : gset (list byte) :=
  match h_ttls h with
  | None => ∅
  | Some t => dom (base.filter (λ x : list byte * N, x.2 ≤ now) t)
  end.

Definition reap_expired_fields (now : N) (h : HashVal) : gset (list byte) * HashVal :=
  (expired_fields now h, foldl (λ h f, (hash_del f h).2) h (elements (expired_fields now h))).

(** ** Sets *)

Inductive SetVal :=
  | SIntSet (v : list Z)
  | SListPack (v : list (list byte))
  | STable (m : gset (list byte)).

Definition set_new : SetVal := SIntSet [].

Definition set_element_bytes (s : SetVal) : N :=
  match s with
  | SIntSet v => sum_of (λ n, len (i64_to_str n)) v
  | SListPack v => sum_of len v
  | STable m => sum_of len (elements m)
  end.

Definition set_encoding (s : SetVal) : Encoding :=
  match s with SIntSet _ => EIntSet | SListPack _ => EListPack | STable _ => EHashTable end.

Definition parse_canonical_int (member : list byte) : option Z :=
  n ← parse_set_i64 member;
  if decide (i64_to_str n = member) then Some n else None.

Definition set_convert_to_hashtable (s : SetVal) : SetVal :=
  match s with
  | STable _ => s
  | SIntSet v => STable (list_to_set (map i64_to_str v))
  | SListPack v => STable (list_to_set v)
  end.

Definition convert_intset_to_listpack (s : SetVal) : SetVal :=
  match s with SIntSet v => SListPack (map i64_to_str v) | _ => s end.

Definition set_listpack_overflows (entries : nat) (member : list byte) (t : EncodingThresholds) : bool :=
  bool_decide (set_max_listpack_entries t < N.of_nat entries ∨ set_max_listpack_value t < len member).

(** [binary_search] in a sorted vector: where the element is, or where it would go. *)
Definition binary_search (n : Z) (v : list Z) : nat + nat :=
  let i := leading (λ x, x < n)%Z v in
  if decide (v !! i = Some n) then inl i else inr i.

Definition add_int (n : Z) (member : list byte) (t : EncodingThresholds) (v : list Z) : bool * SetVal :=
  match binary_search n v with
  | inl _ => (false, SIntSet v)
  | inr i =>
      let v := insert_at i n v in
      (true, if decide (set_max_intset_entries t < len v) then
               if set_listpack_overflows (length v) member t then set_convert_to_hashtable (SIntSet v)
               else convert_intset_to_listpack (SIntSet v)
             else SIntSet v)
  end.

Definition listpack_add (member : list byte) (t : EncodingThresholds) (v : list (list byte)) : bool * SetVal :=
  if decide (member ∈ v) then (false, SListPack v) else
  let v := v ++ [member] in
  (true, if set_listpack_overflows (length v) member t then set_convert_to_hashtable (SListPack v) else SListPack v).

Definition set_add (member : list byte) (t : EncodingThresholds) (s : SetVal) : bool * SetVal :=
  match s with
  | SIntSet v =>
      match parse_canonical_int member with
      | Some n => add_int n member t v
      | None => listpack_add member t (map i64_to_str v)
      end
  | SListPack v => listpack_add member t v
  | STable m => (bool_decide (member ∉ m), STable ({[ member ]} ∪ m))
  end.

Definition set_remove (member : list byte) (s : SetVal) : bool * SetVal :=
  match s with
  | SIntSet v =>
      match parse_canonical_int member with
      | None => (false, s)
      | Some n => match binary_search n v with
                  | inl i => (true, SIntSet (list_remove_at i v))
                  | inr _ => (false, s)
                  end
      end
  | SListPack v =>
      match find_pos (λ m, m = member) v with
      | Some i => (true, SListPack (list_remove_at i v))
      | None => (false, s)
      end
  | STable m => (bool_decide (member ∈ m), STable (m ∖ {[ member ]}))
  end.

Definition set_contains (member : list byte) (s : SetVal) : bool :=
  match s with
  | SIntSet v =>
      match parse_canonical_int member with
      | None => false
      | Some n => match binary_search n v with inl _ => true | inr _ => false end
      end
  | SListPack v => bool_decide (member ∈ v)
  | STable m => bool_decide (member ∈ m)
  end.

Definition set_card (s : SetVal) : nat :=
  match s with SIntSet v => length v | SListPack v => length v | STable m => size m end.

Definition members (s : SetVal) : list (list byte) :=
  match s with
  | SIntSet v => map i64_to_str v
  | SListPack v => v
  | STable m => merge_sort scan_le (elements m)
  end.

Definition from_members (ms : list (list byte)) (t : EncodingThresholds) : SetVal :=
  foldl (λ s m, (set_add m t s).2) set_new ms.

(** ** Scores *)

(** The key of [f64::total_cmp]: negative numbers in reverse, below the others. *)
Definition total_key (b : N) : Z := if decide (b < 2 ^ 63) then Z.of_N b else (2 ^ 63 - 1 - Z.of_N b)%Z.

Definition abs_bits (b : N) : N := N.land b (2 ^ 63 - 1).
Definition is_nan (b : N) : bool := 9218868437227405312 <? abs_bits b.
Definition is_zero (b : N) : bool := abs_bits b =? 0.

(** [<], [==] and [<=] of floats. *)
Definition f64_lt (a b : N) : bool :=
  negb (is_nan a) && negb (is_nan b) && negb (is_zero a && is_zero b) && bool_decide (total_key a < total_key b)%Z.
Definition f64_eq (a b : N) : bool := negb (is_nan a) && negb (is_nan b) && ((a =? b) || (is_zero a && is_zero b)).
Definition f64_le (a b : N) : bool := f64_lt a b || f64_eq a b.

(** [+] of floats, by the IEEE 754 semantics of the standard library: the bits as
    a sign, a mantissa and an exponent, and back. The bits of a NaN are never
    stored. *)
Definition f64_of_bits (b : N) : spec_float :=
  let sign := 2 ^ 63 <=? b in
  let exponent := (b / 2 ^ 52) mod 2048 in
  let fraction := b mod 2 ^ 52 in
  if exponent =? 2047 then if fraction =? 0 then S754_infinity sign else S754_nan
  else if exponent =? 0 then match fraction with 0 => S754_zero sign | Npos m => S754_finite sign m (-1074) end
  else match fraction + 2 ^ 52 with 0 => S754_zero sign | Npos m => S754_finite sign m (Z.of_N exponent - 1075) end.

Definition bits_of_f64 (x : spec_float) : N :=
  let sign_bit (s : bool) := if s then 2 ^ 63 else 0 in
  match x with
  | S754_zero s => sign_bit s
  | S754_infinity s => sign_bit s + 2047 * 2 ^ 52
  | S754_nan => 2047 * 2 ^ 52 + 2 ^ 51
  | S754_finite s m e =>
      sign_bit s + if N.pos m <? 2 ^ 52 then N.pos m else Z.to_N (e + 1075) * 2 ^ 52 + (N.pos m - 2 ^ 52)
  end.

Definition f64_add (a b : N) : N := bits_of_f64 (SFadd 53 1024 (f64_of_bits a) (f64_of_bits b)).

(** ** Sorted sets *)

(** By score, then by member. *)
Definition entry_le (x y : list byte * N) : Prop :=
  (total_key x.2 < total_key y.2)%Z ∨ total_key x.2 = total_key y.2 ∧ bytes_le x.1 y.1.
#[global] Instance entry_le_dec : RelDecision entry_le := λ a b, _ : Decision (_ ∨ _ ∧ _).

Definition entry_lt (x y : list byte * N) : Prop := ¬ entry_le y x.

Inductive ZSetVal :=
  | ZListPack (v : list (list byte * N))
  | ZSkipList (index : gset (list byte * N)) (scores : gmap (list byte) N).

Definition zset_new : ZSetVal := ZListPack [].

Definition zset_element_bytes (z : ZSetVal) : N :=
  match z with
  | ZListPack v => sum_of (λ x, len x.1 + 8) v
  | ZSkipList _ scores => sum_of (λ x, len x.1 + 8) (map_to_list scores)
  end.

Definition zset_encoding (z : ZSetVal) : Encoding := match z with ZListPack _ => EListPack | ZSkipList _ _ => ESkipList end.

Definition zset_listpack_overflows (entries : nat) (member : list byte) (t : EncodingThresholds) : bool :=
  bool_decide (zset_max_listpack_entries t < N.of_nat entries ∨ zset_max_listpack_value t < len member).

Definition convert_to_skiplist (z : ZSetVal) : ZSetVal :=
  match z with
  | ZListPack v => ZSkipList (list_to_set v) (foldl (λ m x, <[x.1 := x.2]> m) ∅ v)
  | ZSkipList _ _ => z
  end.

Definition zset_listpack_pos (member : list byte) (v : list (list byte * N)) : option nat := find_pos (λ x, x.1 = member) v.

Definition listpack_insert_sorted (member : list byte) (score : N) (v : list (list byte * N)) : list (list byte * N) :=
  insert_at (leading (λ x, entry_lt x (member, score)) v) (member, score) v.

Definition zset_put (member : list byte) (score : N) (t : EncodingThresholds) (z : ZSetVal) : bool * ZSetVal :=
  match z with
  | ZListPack v =>
      let '(new, v) := match zset_listpack_pos member v with
                       | Some i => (false, listpack_insert_sorted member score (list_remove_at i v))
                       | None => (true, listpack_insert_sorted member score v)
                       end in
      (new, if zset_listpack_overflows (length v) member t then convert_to_skiplist (ZListPack v) else ZListPack v)
  | ZSkipList index scores =>
      match scores !! member with
      | Some old => (false, ZSkipList ({[ (member, score) ]} ∪ index ∖ {[ (member, old) ]}) (<[member := score]> scores))
      | None => (true, ZSkipList ({[ (member, score) ]} ∪ index) (<[member := score]> scores))
      end
  end.

Definition ordered (z : ZSetVal) : list (list byte * N) :=
  match z with
  | ZListPack v => v
  | ZSkipList index _ => merge_sort entry_le (elements index)
  end.

Definition from_pairs (pairs : list (list byte * N)) (t : EncodingThresholds) : ZSetVal :=
  foldl (λ z x, (zset_put x.1 x.2 t z).2) zset_new pairs.

Definition zset_score (member : list byte) (z : ZSetVal) : option N :=
  match z with
  | ZListPack v => i ← zset_listpack_pos member v; snd <$> v !! i
  | ZSkipList _ scores => scores !! member
  end.

Definition zset_remove (member : list byte) (z : ZSetVal) : bool * ZSetVal :=
  match z with
  | ZListPack v =>
      match zset_listpack_pos member v with
      | Some i => (true, ZListPack (list_remove_at i v))
      | None => (false, z)
      end
  | ZSkipList index scores =>
      match scores !! member with
      | Some old => (true, ZSkipList (index ∖ {[ (member, old) ]}) (delete member scores))
      | None => (false, z)
      end
  end.

Definition zset_len (z : ZSetVal) : nat := match z with ZListPack v => length v | ZSkipList _ scores => size scores end.

Record ZAddFlags := mkFlags { nx : bool; xx : bool; gt : bool; lt : bool }.

Record ZAddOutcome := mkOutcome { added : bool; changed : bool; new_score : option N }.

Inductive IncrOutcome := Updated (score : N) | Suppressed | Nan.

Definition gate_passes (cur new : N) (f : ZAddFlags) : bool :=
  if gt f then f64_lt cur new else if lt f then f64_lt new cur else true.

Definition zset_add (member : list byte) (score : N) (f : ZAddFlags) (t : EncodingThresholds) (z : ZSetVal) :
    ZAddOutcome * ZSetVal :=
  match zset_score member z with
  | None =>
      if xx f then (mkOutcome false false None, z)
      else (mkOutcome true true (Some score), (zset_put member score t z).2)
  | Some cur =>
      if nx f || negb (gate_passes cur score f) then (mkOutcome false false (Some cur), z) else
      let changed := negb (f64_eq score cur) in
      (mkOutcome false changed (Some score), if changed then (zset_put member score t z).2 else z)
  end.

Definition zset_incr (member : list byte) (delta : N) (f : ZAddFlags) (t : EncodingThresholds) (z : ZSetVal) :
    IncrOutcome * ZSetVal :=
  match zset_score member z with
  | None =>
      if xx f then (Suppressed, z) else
      if is_nan delta then (Nan, z) else (Updated delta, (zset_put member delta t z).2)
  | Some cur =>
      if nx f then (Suppressed, z) else
      let new := f64_add cur delta in
      if is_nan new then (Nan, z) else
      if negb (gate_passes cur new f) then (Suppressed, z) else (Updated new, (zset_put member new t z).2)
  end.

Definition zset_rank (member : list byte) (rev : bool) (z : ZSetVal) : option nat :=
  let o := ordered z in
  i ← find_pos (λ x, x.1 = member) o;
  Some (if rev then length o - 1 - i else i)%nat.

Definition range_by_rank (start stop : Z) (rev : bool) (z : ZSetVal) : list (list byte * N) :=
  let o := if rev then List.rev (ordered z) else ordered z in
  let '(s, n) := resolve_range (length o) start stop in
  take n (drop s o).

Definition apply_limit {A} (items : list A) (limit : option (Z * Z)) : list A :=
  match limit with
  | None => items
  | Some (offset, count) =>
      if decide (offset < 0)%Z then [] else
      let items := drop (Z.to_nat offset) items in
      if decide (0 ≤ count)%Z then take (Z.to_nat count) items else items
  end.

Record ScoreBound := mkBound { b_score : N; b_inclusive : bool }.

Definition score_allows_min (b : ScoreBound) (s : N) : bool :=
  if b_inclusive b then f64_le (b_score b) s else f64_lt (b_score b) s.
Definition score_allows_max (b : ScoreBound) (s : N) : bool :=
  if b_inclusive b then f64_le s (b_score b) else f64_lt s (b_score b).

Inductive LexBound := NegInf | PosInf | Inclusive (b : list byte) | Exclusive (b : list byte).

Definition lex_allows_min (b : LexBound) (m : list byte) : bool :=
  match b with
  | NegInf => true
  | PosInf => false
  | Inclusive b => bytes_leb b m
  | Exclusive b => negb (bytes_leb m b)
  end.
Definition lex_allows_max (b : LexBound) (m : list byte) : bool :=
  match b with
  | NegInf => false
  | PosInf => true
  | Inclusive b => bytes_leb m b
  | Exclusive b => negb (bytes_leb b m)
  end.

(** The entries within bounds on the score, and on the member. *)
Definition by_score (min max : ScoreBound) (x : list byte * N) : bool := score_allows_min min x.2 && score_allows_max max x.2.
Definition by_lex (min max : LexBound) (x : list byte * N) : bool := lex_allows_min min x.1 && lex_allows_max max x.1.

Definition matching (p : list byte * N → bool) (z : ZSetVal) : list (list byte * N) := base.filter (λ x, p x = true) (ordered z).

Definition range_by (p : list byte * N → bool) (rev : bool) (limit : option (Z * Z)) (z : ZSetVal) : list (list byte * N) :=
  apply_limit (if rev then List.rev (matching p z) else matching p z) limit.

Definition range_by_score (min max : ScoreBound) (rev : bool) (limit : option (Z * Z)) (z : ZSetVal) : list (list byte * N) :=
  range_by (by_score min max) rev limit z.
Definition range_by_lex (min max : LexBound) (rev : bool) (limit : option (Z * Z)) (z : ZSetVal) : list (list byte) :=
  (range_by (by_lex min max) rev limit z).*1.
Definition count_by_score (min max : ScoreBound) (z : ZSetVal) : nat := length (matching (by_score min max) z).
Definition count_by_lex (min max : LexBound) (z : ZSetVal) : nat := length (matching (by_lex min max) z).

Definition remove_all (ms : list (list byte)) (z : ZSetVal) : ZSetVal := foldl (λ z m, (zset_remove m z).2) z ms.

Definition pop_min (count : nat) (z : ZSetVal) : list (list byte * N) * ZSetVal :=
  let popped := take count (ordered z) in (popped, remove_all popped.*1 z).
Definition pop_max (count : nat) (z : ZSetVal) : list (list byte * N) * ZSetVal :=
  let popped := take count (rev (ordered z)) in (popped, remove_all popped.*1 z).

Definition remove_range_by_rank (start stop : Z) (z : ZSetVal) : nat * ZSetVal :=
  let '(s, n) := resolve_range (length (ordered z)) start stop in
  let victims := (take n (drop s (ordered z))).*1 in (length victims, remove_all victims z).
Definition remove_range_by (p : list byte * N → bool) (z : ZSetVal) : nat * ZSetVal :=
  let victims := (matching p z).*1 in (length victims, remove_all victims z).
Definition remove_range_by_score (min max : ScoreBound) := remove_range_by (by_score min max).
Definition remove_range_by_lex (min max : LexBound) := remove_range_by (by_lex min max).

(** ** Values *)

(** A string keeps the encoding recorded in its header beside its bytes. *)
Inductive Val :=
  | VStr (e : Encoding) (bytes : list byte)
  | VList (l : ListVal)
  | VHash (h : HashVal)
  | VSet (s : SetVal)
  | VZSet (z : ZSetVal).

Definition val_encoding (v : Val) : Encoding :=
  match v with
  | VStr e _ => e
  | VList l => list_encoding l
  | VHash h => hash_encoding h
  | VSet s => set_encoding s
  | VZSet z => zset_encoding z
  end.

Definition val_type (v : Val) : DataType :=
  match v with VStr _ _ => TString | VList _ => TList | VHash _ => THash | VSet _ => TSet | VZSet _ => TZSet end.

Definition val_logical_len (v : Val) : N :=
  match v with
  | VStr _ b => len b
  | VList l => l_total l
  | VHash h => hash_element_bytes h
  | VSet s => set_element_bytes s
  | VZSet z => zset_element_bytes z
  end.

Definition collection_len (v : Val) : option nat :=
  match v with
  | VStr _ _ => None
  | VList l => Some (length (l_elems l))
  | VHash h => Some (hash_len h)
  | VSet s => Some (set_card s)
  | VZSet z => Some (zset_len z)
  end.

#[global] Instance val_stored : StoredValue Val :=
  {| logical_len := val_logical_len; is_empty_collection := λ v, bool_decide (collection_len v = Some 0%nat) |}.

(** [Entry::str_from_bytes] and [Entry::str_from_int]. *)
Definition str_from_bytes (bytes : list byte) : Val := VStr (classified_encoding (classify bytes)) bytes.
Definition str_from_int (n : Z) : Val := VStr EInt (i64_to_str n).

Inductive NewValueOwned :=
  | NInt (n : Z)
  | NBytes (b : list byte)
  | NList (elems : list (list byte))
  | NHash (pairs : list (list byte * list byte))
  | NHashEx (pairs : list (list byte * list byte)) (ttls : list (list byte * N))
  | NSet (ms : list (list byte))
  | NZSet (pairs : list (list byte * N)).

Definition list_from (elems : list (list byte)) (t : EncodingThresholds) : ListVal := foldl (λ l e, push_back e t l) list_new elems.
Definition hash_from (pairs : list (list byte * list byte)) (t : EncodingThresholds) : HashVal :=
  foldl (λ h x, (hash_set x.1 x.2 t h).2) hash_new pairs.

Definition from_new_owned (v : NewValueOwned) (t : EncodingThresholds) : Val :=
  match v with
  | NInt n => str_from_int n
  | NBytes b => str_from_bytes b
  | NList elems => VList (list_from elems t)
  | NHash pairs => VHash (hash_from pairs t)
  | NHashEx pairs ttls =>
      VHash (foldl (λ h x, if hash_contains x.1 h then set_field_ttl x.1 x.2 h else h) (hash_from pairs t) ttls)
  | NSet ms => VSet (from_members ms t)
  | NZSet pairs => VZSet (from_pairs pairs t)
  end.
