(* ===== verification/ValuesText.v ===== *)
(** * Integers among the strings

    The two parsers of the store, one that decides whether a string is held as an
    integer and one that decides whether a set member is, both recognise exactly
    the decimal texts the store itself prints. *)

From Stdlib Require Import Lia ZArith NArith.
From S2P Require Import Prelude Resp Keyspace Values.
From stdpp Require Import strings.

#[local] Open Scope N_scope.

Definition in_i64 (n : Z) : Prop := (I64_MIN ≤ n ≤ I64_MAX)%Z.

Lemma is_digit_bounds b : is_digit b = true → 48 ≤ Byte.to_N b ≤ 57.
Proof. unfold is_digit. intros [H1 H2]%andb_prop. apply N.leb_le in H1, H2. lia. Qed.

Lemma digit_of b : is_digit b = true → digit (Byte.to_N b - 48) = b.
Proof.
  intros Hb%is_digit_bounds. unfold digit. replace (48 + (Byte.to_N b - 48)) with (Byte.to_N b) by lia. apply byte_of_to_N.
Qed.

Lemma digits_value_ge acc ds v : (0 ≤ acc)%Z → digits_value acc ds = Some v → (acc ≤ v)%Z.
Proof.
  revert acc. induction ds as [|d ds IH]; intros acc Ha; cbn; [intros [= ->]; lia|].
  destruct (is_digit d) eqn:Hd; [|done]. apply is_digit_bounds in Hd. intros Hv%IH; lia.
Qed.

Lemma digits_value_all acc ds v : digits_value acc ds = Some v → Forall (λ b, is_digit b = true) ds.
Proof.
  revert acc. induction ds as [|d ds IH]; intros acc; cbn; [constructor|]. destruct (is_digit d) eqn:Hd; [|done]. constructor; [done|by eapply IH].
Qed.

(** The checked loop of both parsers: the value of the digits, if 64 bits hold it. *)
Lemma magnitude_value acc ds m : acc ≤ U64_MAX →
  magnitude acc ds = Some m ↔ digits_value (Z.of_N acc) ds = Some (Z.of_N m) ∧ m ≤ U64_MAX.
Proof.
  revert acc. induction ds as [|d ds IH]; intros acc Ha; cbn [magnitude digits_value].
  { split; [intros [= ->]; done|]. intros [[= H] _]. f_equal. lia. }
  destruct (is_digit d) eqn:Hd; [|split; [done|by intros [? _]]]. pose proof (is_digit_bounds d Hd) as Hb.
  assert (Z.of_N acc * 10 + (Z.of_N (Byte.to_N d) - 48) = Z.of_N (acc * 10 + (Byte.to_N d - 48)))%Z as -> by lia.
  destruct (decide (acc * 10 + (Byte.to_N d - 48) ≤ U64_MAX)) as [Hok|Hbig].
  - rewrite decide_True by lia. cbn. rewrite add64_small by done. cbn. by apply IH.
  - split.
    + case_decide; [|done]. cbn. unfold add64. by rewrite decide_False by done.
    + intros [Hv Hm]. apply digits_value_ge in Hv; lia.
Qed.

(** Decimal text without a leading zero is determined by its value. *)
Lemma itoa_canonical fuel ds v : Forall (λ b, is_digit b = true) ds → (∀ d, head ds = Some d → d ≠ "0"%byte) →
  digits_value 0 ds = Some (Z.of_N v) → v < 10 ^ N.of_nat fuel → itoa_loop fuel v [] = ds.
Proof.
  revert fuel v. induction ds as [|d ds IH] using rev_ind; intros fuel v Hd Hz Hv Hf.
  { cbn in Hv. injection Hv as Hv. replace v with 0 by lia. by destruct fuel. }
  apply Forall_app in Hd as [Hds [Hd _]%Forall_cons]. pose proof (is_digit_bounds d Hd) as Hb.
  rewrite digits_value_app in Hv. destruct (digits_value 0 ds) as [w|] eqn:Hw; [|done]. cbn in Hv. rewrite Hd in Hv. injection Hv as Hv.
  pose proof (digits_value_ge _ _ _ (Z.le_refl 0) Hw) as Hw0.
  assert (v = 10 * Z.to_N w + (Byte.to_N d - 48)) as -> by lia.
  assert (v_pos : 10 * Z.to_N w + (Byte.to_N d - 48) ≠ 0).
  { destruct ds as [|c ds].
    - intros E. apply (Hz d); [done|]. rewrite <- (digit_of d Hd). by replace (Byte.to_N d - 48) with 0 by lia.
    - apply Forall_cons in Hds as [Hc _]. specialize (Hz c eq_refl). cbn in Hw. rewrite Hc in Hw.
      apply digits_value_ge in Hw; [|pose proof (is_digit_bounds c Hc); lia]. intros E.
      apply Hz. rewrite <- (digit_of c Hc). pose proof (is_digit_bounds c Hc). by replace (Byte.to_N c - 48) with 0 by lia. }
  destruct fuel as [|fuel]; [change (10 ^ N.of_nat 0) with 1 in Hf; lia|]. rewrite itoa_loop_S by done.
  assert ((10 * Z.to_N w + (Byte.to_N d - 48)) / 10 = Z.to_N w) as ->.
  { symmetry. apply (N.div_unique _ _ _ (Byte.to_N d - 48)); lia. }
  assert ((10 * Z.to_N w + (Byte.to_N d - 48)) mod 10 = Byte.to_N d - 48) as ->.
  { symmetry. apply (N.mod_unique _ _ (Z.to_N w)); lia. }
  rewrite digit_of by done. f_equal. apply IH; [done| | |].
  - intros c Hc. destruct ds; [done|]. by apply Hz.
  - f_equal. lia.
  - rewrite Nat2N.inj_succ, N.pow_succ_r' in Hf. lia.
Qed.

Lemma itoa_head fuel v c : v < 10 ^ N.of_nat fuel → head (itoa_loop fuel v []) = Some c → c ≠ "0"%byte.
Proof.
  revert v c. induction fuel as [|fuel IH]; intros v c Hf; [done|]. destruct (decide (v = 0)) as [->|Hv0]; [done|].
  rewrite itoa_loop_S by done. rewrite Nat2N.inj_succ, N.pow_succ_r' in Hf. assert (v mod 10 < 10) as Hm by (apply N.mod_lt; lia).
  pose proof (N.div_mod v 10 ltac:(lia)) as Hdm. destruct (itoa_loop fuel (v / 10) []) as [|c' l] eqn:El; cbn.
  - intros [= <-] E0. apply (f_equal Byte.to_N) in E0. rewrite to_N_digit in E0 by done. change (Byte.to_N "0") with 48 in E0.
    assert (v / 10 ≠ 0) as Hq by lia. destruct fuel; [change (10 ^ N.of_nat 0) with 1 in Hf; lia|]. by apply (itoa_nonempty fuel (v / 10)).
  - intros [= <-]. apply (IH (v / 10)); [apply N.Div0.div_lt_upper_bound; lia|by rewrite El].
Qed.

Lemma signed_range neg m n : signed neg m = Some n → in_i64 n ∧ m = Z.abs_N n ∧ (neg = true → n ≤ 0)%Z ∧ (neg = false → 0 ≤ n)%Z.
Proof. unfold signed, in_i64, I64_MIN, I64_MAX. destruct neg; case_decide; intros [= <-]; split_and!; try done; lia. Qed.

Lemma signed_abs n : in_i64 n → signed (bool_decide (n < 0)%Z) (Z.abs_N n) = Some n.
Proof.
  unfold signed, in_i64, I64_MIN, I64_MAX. intros Hn. case_bool_decide; rewrite decide_False by lia; f_equal; lia.
Qed.

(** A printed integer, taken apart by the parsers. *)
Lemma split_sign_printed n : in_i64 n → ∃ ds, split_sign (i64_to_str n) = (bool_decide (n < 0)%Z, ds) ∧ ds ≠ [] ∧
  magnitude 0 ds = Some (Z.abs_N n) ∧ (head ds = Some "0"%byte → n = 0%Z).
Proof.
  intros Hn. destruct (i64_to_str_text n Hn) as (ds & Hs & Hne & Hd & Hv). exists ds.
  assert (split_sign (i64_to_str n) = (bool_decide (n < 0)%Z, ds)) as E.
  { rewrite Hs. case_decide as Hneg; unfold split_sign.
    - rewrite decide_True by done. by rewrite bool_decide_eq_true_2.
    - rewrite bool_decide_eq_false_2 by done. destruct ds as [|c ds]; [done|]. apply Forall_cons in Hd as [Hc _].
      by rewrite decide_False by (by apply digit_not). }
  split; [done|]. split; [done|]. split.
  - apply magnitude_value; [done|]. change (Z.of_N 0) with 0%Z. rewrite Hv. split; [f_equal; lia|]. unfold in_i64, I64_MIN, I64_MAX, U64_MAX in *. lia.
  - intros Hz. destruct (decide (n = 0)%Z) as [|Hn0]; [done|]. exfalso. unfold i64_to_str in Hs. rewrite decide_False in Hs by done.
    assert (itoa_loop 20 (Z.abs_N n) [] = ds) as Ei by (case_decide; congruence). subst ds.
    eapply (itoa_head 20 (Z.abs_N n)); [|done|done]. change (10 ^ N.of_nat 20) with 100000000000000000000.
    unfold in_i64, I64_MIN, I64_MAX in Hn. lia.
Qed.

Lemma parse_set_i64_printed n : in_i64 n → parse_set_i64 (i64_to_str n) = Some n.
Proof.
  intros Hn. destruct (split_sign_printed n Hn) as (ds & Hs & Hne & Hm & _). unfold parse_set_i64. rewrite Hs.
  destruct ds; [done|]. rewrite Hm. by apply signed_abs.
Qed.

Lemma parse_canonical_int_spec m n : parse_canonical_int m = Some n ↔ in_i64 n ∧ m = i64_to_str n.
Proof.
  unfold parse_canonical_int. split.
  - destruct (parse_set_i64 m) as [k|] eqn:E; [|done]. cbn. case_decide; [|done]. intros [= ->]. split; [|done].
    unfold parse_set_i64 in E. destruct (split_sign m) as [neg ds]. destruct ds; [done|].
    destruct (magnitude 0 _); [|done]. by eapply signed_range.
  - intros [Hn ->]. rewrite parse_set_i64_printed by done. cbn. by rewrite decide_True.
Qed.

Lemma parse_canonical_i64_spec m n : parse_canonical_i64 m = Some n ↔ in_i64 n ∧ m = i64_to_str n.
Proof.
  unfold parse_canonical_i64. split.
  - destruct (split_sign m) as [neg ds] eqn:Es. destruct ds as [|d ds]; [done|]. case_decide as Hz.
    + subst d. case_decide; [|done]. destruct neg; [done|]. intros [= <-]. subst ds. split; [done|].
      destruct m as [|c m]; [done|]. cbn in Es. case_decide; [done|]. by injection Es as -> ->.
    + destruct (magnitude 0 (d :: ds)) as [v|] eqn:Hv; [|done]. cbn [mbind option_bind]. intros Hn.
      pose proof (signed_range _ _ _ Hn) as (Hr & -> & Hn1 & Hn2). split; [done|]. apply magnitude_value in Hv as [Hv _]; [|done].
      assert (Forall (λ b, is_digit b = true) (d :: ds)) as Hd by (by eapply digits_value_all).
      assert (n ≠ 0)%Z as Hn0.
      { intros ->. cbn in Hv. apply Forall_cons in Hd as [Hd _]. rewrite Hd in Hv. pose proof (is_digit_bounds d Hd).
        apply digits_value_ge in Hv; [|lia]. apply Hz. rewrite <- (digit_of d Hd). by replace (Byte.to_N d - 48) with 0 by lia. }
      assert (itoa_loop 20 (Z.abs_N n) [] = d :: ds) as Hi.
      { apply itoa_canonical; [done|by intros c [= <-]|done|]. change (10 ^ N.of_nat 20) with 100000000000000000000.
        unfold in_i64, I64_MIN, I64_MAX in Hr. lia. }
      unfold i64_to_str. rewrite decide_False, Hi by done. destruct m as [|c m]; [done|]. cbn in Es. case_decide as Hc; simplify_eq.
      * specialize (Hn1 eq_refl). by rewrite decide_True by lia.
      * specialize (Hn2 eq_refl). by rewrite decide_False by lia.
  - intros [Hn ->]. destruct (split_sign_printed n Hn) as (ds & Hs & Hne & Hm & H0). rewrite Hs. destruct ds as [|d ds]; [done|].
    destruct (decide (d = "0"%byte)) as [Hz|Hz]; [|rewrite Hm; by apply signed_abs]. subst d. rewrite (H0 eq_refl) in *. vm_compute in Hs. by injection Hs as <-.
Qed.

Lemma i64_to_str_inj n m : in_i64 n → in_i64 m → i64_to_str n = i64_to_str m → n = m.
Proof. intros Hn Hm E. apply (f_equal parse_set_i64) in E. rewrite !parse_set_i64_printed in E by done. congruence. Qed.

(** (C37) A string is held as an integer exactly when it is the text the store prints
    for an [i64]; the parser for set members, written separately, accepts the same
    texts with the same values. Any other string is embedded up to 44 bytes. *)
Theorem classify_correct (bytes : list byte) :
  match classify bytes with
  | CInt n => in_i64 n ∧ bytes = i64_to_str n ∧ parse_canonical_int bytes = Some n
  | CEmbStr => parse_canonical_int bytes = None ∧ len bytes ≤ 44
  | CRaw => parse_canonical_int bytes = None ∧ 44 < len bytes
  end.
Proof.
  unfold classify. destruct (parse_canonical_i64 bytes) as [n|] eqn:E.
  - apply parse_canonical_i64_spec in E as [Hn Hb]. rewrite parse_canonical_int_spec. done.
  - assert (parse_canonical_int bytes = None) as Hi.
    { destruct (parse_canonical_int bytes) as [n|] eqn:E'; [|done]. apply parse_canonical_int_spec, parse_canonical_i64_spec in E'. congruence. }
    unfold EMBSTR_THRESHOLD. case_decide; split; [done|done|done|lia].
Qed.
