(* ===== verification/ValuesProofs.v ===== *)
(** * List values

    A list behaves as the sequence it stands for, whatever its encoding and
    whatever thresholds are in force at each step, and its encoding only ever
    grows. *)

From Stdlib Require Import Lia ZArith NArith.
From S2P Require Import Prelude Resp Keyspace Values.
From stdpp Require Import strings gmap sorting.

#[local] Open Scope N_scope.

(** ** Sums, positions, updates by index *)

Lemma sum_of_app {A} (f : A → N) l1 l2 : sum_of f (l1 ++ l2) = sum_of f l1 + sum_of f l2.
Proof. unfold sum_of. induction l1 as [|x l1 IH]; cbn; [lia|]. rewrite IH. lia. Qed.

Lemma sum_of_cons {A} (f : A → N) x l : sum_of f (x :: l) = f x + sum_of f l.
Proof. done. Qed.

Lemma sum_of_perm {A} (f : A → N) l1 l2 : l1 ≡ₚ l2 → sum_of f l1 = sum_of f l2.
Proof. induction 1; cbn; unfold sum_of in *; cbn in *; lia. Qed.

Lemma list_remove_at_middle {A} (l : list A) i x : l !! i = Some x → ∃ l1 l2, l = l1 ++ x :: l2 ∧ length l1 = i ∧ list_remove_at i l = l1 ++ l2.
Proof.
  intros H. exists (take i l), (drop (S i) l). pose proof (lookup_lt_Some _ _ _ H). split; [by rewrite take_drop_middle|].
  split; [rewrite length_take; lia|done].
Qed.

Lemma sum_of_remove_at {A} (f : A → N) l i x : l !! i = Some x → sum_of f (list_remove_at i l) = sum_of f l - f x.
Proof.
  intros (l1 & l2 & -> & _ & ->)%list_remove_at_middle. rewrite !sum_of_app, sum_of_cons. lia.
Qed.

Lemma sum_of_lookup {A} (f : A → N) l i x : l !! i = Some x → f x ≤ sum_of f l.
Proof. intros (l1 & l2 & -> & _ & _)%list_remove_at_middle. rewrite sum_of_app, sum_of_cons. lia. Qed.

Lemma sum_of_insert {A} (f : A → N) l i x y : l !! i = Some y → sum_of f (<[i := x]> l) = sum_of f l - f y + f x.
Proof.
  intros (l1 & l2 & -> & <- & _)%list_remove_at_middle.
  rewrite insert_app_r_alt by lia. rewrite Nat.sub_diag. cbn. rewrite !sum_of_app, !sum_of_cons. lia.
Qed.

Lemma sum_of_insert_at {A} (f : A → N) l i x : sum_of f (insert_at i x l) = sum_of f l + f x.
Proof. unfold insert_at. rewrite sum_of_app, sum_of_cons. rewrite <- (take_drop i l) at 3. rewrite sum_of_app. lia. Qed.

(** [find_pos] finds the first. *)
Lemma find_pos_Some {A} (P : A → Prop) `{∀ x, Decision (P x)} l i :
  find_pos P l = Some i ↔ ∃ x, l !! i = Some x ∧ P x ∧ ∀ j y, l !! j = Some y → (j < i)%nat → ¬ P y.
Proof.
  unfold find_pos. split.
  - intros ([j x] & Hf & ->)%fmap_Some. apply list_find_Some in Hf as (H1 & H2 & H3). exists x. auto.
  - intros (x & H1 & H2 & H3). apply fmap_Some. exists (i, x). split; [|done]. apply list_find_Some. auto.
Qed.

Lemma find_pos_None {A} (P : A → Prop) `{∀ x, Decision (P x)} l : find_pos P l = None ↔ Forall (λ x, ¬ P x) l.
Proof. unfold find_pos. rewrite fmap_None. apply list_find_None. Qed.

(** A map filled from a vector of distinct keys. *)
Lemma foldl_insert_spec {A} (v : list (list byte * A)) : NoDup v.*1 →
  foldl (λ m y, <[y.1 := y.2]> m) ∅ v = list_to_map (M := gmap (list byte) A) v.
Proof.
  intros Hnd. enough (∀ m : gmap (list byte) A, foldl (λ m (y : list byte * A), <[y.1 := y.2]> m) m v = list_to_map v ∪ m) as E
    by (by rewrite E, map_union_empty).
  revert Hnd. induction v as [|[f w] v IH]; cbn; intros Hnd m; [by rewrite map_empty_union|].
  apply NoDup_cons in Hnd as [Hf Hnd]. rewrite IH by done. rewrite <- insert_union_l, insert_union_r; [done|].
  by apply not_elem_of_list_to_map_1.
Qed.

(** ** Sequences of operations *)

Fixpoint run_all {O A S} (run : O → S → A * S) (ops : list O) (s : S) : list A * S :=
  match ops with
  | [] => ([], s)
  | op :: ops =>
      let '(a, s) := run op s in
      let '(answers, s) := run_all run ops s in (a :: answers, s)
  end.

Lemma run_all_refines {O O' A S T} (run : O → S → A * S) (spec : O' → T → A * T) (g : O → O') (abs : S → T) (ok : S → Prop) :
  (∀ o s, ok s → ok (run o s).2 ∧ ((run o s).1, abs (run o s).2) = spec (g o) (abs s)) →
  ∀ ops s, ok s → ok (run_all run ops s).2 ∧ ((run_all run ops s).1, abs (run_all run ops s).2) = run_all spec (g <$> ops) (abs s).
Proof.
  intros Hstep. induction ops as [|o ops IH]; intros s Hs; [done|]. cbn [run_all fmap list_fmap].
  destruct (Hstep o s Hs) as [H1 H2]. destruct (run o s) as [a s']. cbn [fst snd] in *. rewrite <- H2.
  destruct (IH s' H1) as [I1 I2]. destruct (run_all run ops s') as [bs s'']. cbn [fst snd] in *. by rewrite <- I2.
Qed.

Lemma run_all_keeps {O A S} (run : O → S → A * S) (P : S → Prop) ops s :
  (∀ o s, o ∈ ops → P s → P (run o s).2) → P s → P (run_all run ops s).2.
Proof.
  revert s. induction ops as [|o ops IH]; intros s Hk Hs; [done|]. cbn [run_all].
  pose proof (Hk o s ltac:(by left) Hs) as H1. destruct (run o s) as [a s'].
  pose proof (IH s' (λ o s Ho, Hk o s (list_elem_of_further _ _ _ Ho)) H1) as H2. by destruct (run_all run ops s').
Qed.

Lemma run_all_app {O A S} (run : O → S → A * S) ops1 ops2 s :
  run_all run (ops1 ++ ops2) s =
  ((run_all run ops1 s).1 ++ (run_all run ops2 (run_all run ops1 s).2).1, (run_all run ops2 (run_all run ops1 s).2).2).
Proof.
  revert s. induction ops1 as [|o ops IH]; intros s; cbn [app run_all fst snd]; [by destruct (run_all run ops2 s)|].
  destruct (run o s) as [a s']. rewrite IH. by destruct (run_all run ops s').
Qed.

(** ** Lists *)

(** The byte count is exact, and a list that is still a listpack is within the
    largest budget there is. *)
Definition list_ok (l : ListVal) : Prop :=
  l_total l = sum_of len (l_elems l) ∧ (l_quick l = false → l_total l ≤ 64 * 1024).

Lemma list_budget_max t : (list_budget t).1 ≤ 64 * 1024.
Proof. unfold list_budget. destruct (list_max_listpack_size t) as [|p|[[p|p|]|[p|p|]|]]; cbn; try lia; destruct p; cbn; lia. Qed.

Lemma ratchet_ok t l : l_total l = sum_of len (l_elems l) → list_ok (maybe_ratchet_quicklist t l).
Proof.
  intros Ht. unfold maybe_ratchet_quicklist. destruct (l_quick l) eqn:E; [split; [done|congruence]|].
  pose proof (list_budget_max t). destruct (list_budget t) as [bb ec]. case_decide; [split; [exact Ht|discriminate]|]. split; [done|]. intros _. cbn in *. lia.
Qed.

Lemma ratchet_elems t l : l_elems (maybe_ratchet_quicklist t l) = l_elems l.
Proof. unfold maybe_ratchet_quicklist. destruct (l_quick l); [done|]. destruct (list_budget t). by case_decide. Qed.

Lemma ratchet_quick t l : l_quick l = true → l_quick (maybe_ratchet_quicklist t l) = true.
Proof. unfold maybe_ratchet_quicklist. intros E. by rewrite E, E. Qed.

Inductive list_op :=
  | LPushFront (e : list byte)
  | LPushBack (e : list byte)
  | LPopFront
  | LPopBack
  | LSet (i : Z) (e : list byte)
  | LInsertBefore (pivot e : list byte)
  | LInsertAfter (pivot e : list byte)
  | LRemove (count : Z) (e : list byte)
  | LTrim (start stop : Z)
  | LGet (i : Z)
  | LRange (start stop : Z)
  | LPos (e : list byte) (rank : Z) (count : option N) (maxlen : nat).

Inductive answer := AUnit | AElem (e : option (list byte)) | ABool (b : bool) | ALen (n : option nat) | ACount (n : N)
  | AElems (es : list (list byte)) | AIndices (ps : list nat).

Definition run_list_op (t : EncodingThresholds) (op : list_op) (l : ListVal) : answer * ListVal :=
  match op with
  | LPushFront e => (AUnit, push_front e t l)
  | LPushBack e => (AUnit, push_back e t l)
  | LPopFront => let '(a, l) := pop_front l in (AElem a, l)
  | LPopBack => let '(a, l) := pop_back l in (AElem a, l)
  | LSet i e => let '(a, l) := list_set i e t l in (ABool a, l)
  | LInsertBefore p e => let '(a, l) := insert_before p e t l in (ALen a, l)
  | LInsertAfter p e => let '(a, l) := insert_after p e t l in (ALen a, l)
  | LRemove n e => let '(a, l) := remove_matching n e l in (ACount a, l)
  | LTrim a b => (AUnit, trim a b l)
  | LGet i => (AElem (list_get i l), l)
  | LRange a b => (AElems (list_range a b l), l)
  | LPos e rank count maxlen => (AIndices (list_pos e rank count maxlen l), l)
  end.

(** The sequence a list stands for. *)

(** Drop the first [n] elements equal to [e], all of them for [None]. *)
Fixpoint drop_first (n : option nat) (e : list byte) (l : list (list byte)) : list (list byte) :=
  match n, l with
  | Some O, _ => l
  | _, [] => []
  | _, x :: l' => if decide (x = e) then drop_first (pred <$> n) e l' else x :: drop_first n e l'
  end.

Definition spec_index (i : Z) (l : list (list byte)) : option nat :=
  let j := (if decide (i < 0) then i + Z.of_nat (length l) else i)%Z in
  if decide (0 ≤ j < Z.of_nat (length l))%Z then Some (Z.to_nat j) else None.

(** The elements from [start] to [stop], both counted from the end if negative. *)
Definition spec_slice {A} (start stop : Z) (l : list A) : list A :=
  let n := Z.of_nat (length l) in
  let s := Z.max 0 (if decide (start < 0) then start + n else start)%Z in
  let e := (if decide (stop < 0) then stop + n else stop)%Z in
  take (Z.to_nat (e + 1 - s)) (drop (Z.to_nat s) l).

Definition spec_insert (offset : nat) (pivot e : list byte) (l : list (list byte)) : option nat * list (list byte) :=
  match find_pos (λ x, x = pivot) l with
  | Some i => (Some (S (length l)), insert_at (i + offset) e l)
  | None => (None, l)
  end.

(** The positions of [e] in scan order, the first [|rank| - 1] left out, as many
    as asked for: one by default, all for zero. *)
Definition spec_pos (e : list byte) (rank : Z) (count : option N) (maxlen : nat) (l : list (list byte)) : list nat :=
  let order := if decide (0 < rank)%Z then seq 0 (length l) else rev (seq 0 (length l)) in
  let scanned := if decide (maxlen = 0)%nat then order else take maxlen order in
  let hits := filter (λ i, l !! i = Some e) scanned in
  if decide (rank = 0)%Z then [] else
  match count with
  | None => take 1 (drop (Z.abs_nat rank - 1) hits)
  | Some 0 => drop (Z.abs_nat rank - 1) hits
  | Some n => take (N.to_nat n) (drop (Z.abs_nat rank - 1) hits)
  end.

Definition spec_list_op (op : list_op) (l : list (list byte)) : answer * list (list byte) :=
  match op with
  | LPushFront e => (AUnit, e :: l)
  | LPushBack e => (AUnit, l ++ [e])
  | LPopFront => (AElem (head l), tail l)
  | LPopBack => (AElem (last l), rev (tail (rev l)))
  | LSet i e => match spec_index i l with Some j => (ABool true, <[j := e]> l) | None => (ABool false, l) end
  | LInsertBefore p e => let '(a, l) := spec_insert 0 p e l in (ALen a, l)
  | LInsertAfter p e => let '(a, l) := spec_insert 1 p e l in (ALen a, l)
  | LRemove n e =>
      let l' := if decide (0 ≤ n)%Z then drop_first (if decide (n = 0)%Z then None else Some (Z.to_nat n)) e l
                else rev (drop_first (Some (Z.to_nat (- n))) e (rev l)) in
      (ACount (len l - len l'), l')
  | LTrim a b => (AUnit, spec_slice a b l)
  | LGet i => (AElem (j ← spec_index i l; l !! j), l)
  | LRange a b => (AElems (spec_slice a b l), l)
  | LPos e rank count maxlen => (AIndices (spec_pos e rank count maxlen l), l)
  end.

Lemma last_snoc_inv {A} (l : list A) x : last l = Some x → l = removelast l ++ [x].
Proof. intros H. apply last_Some in H as [l' ->]. by rewrite removelast_last. Qed.

Lemma pop_front_ok l : list_ok l → list_ok (pop_front l).2 ∧ l_elems (pop_front l).2 = tail (l_elems l) ∧
  (pop_front l).1 = head (l_elems l) ∧ l_quick (pop_front l).2 = l_quick l.
Proof.
  intros [H1 H2]. unfold pop_front. destruct (l_elems l) as [|e es] eqn:E; cbn [fst snd head tail]; [rewrite E; by repeat split; rewrite ?E|].
  rewrite sum_of_cons in H1. split; [|done]. split; cbn [l_total l_elems l_quick]; [lia|]. intros Hq. specialize (H2 Hq). lia.
Qed.

Lemma pop_back_ok l : list_ok l → list_ok (pop_back l).2 ∧ l_elems (pop_back l).2 = rev (tail (rev (l_elems l))) ∧
  (pop_back l).1 = last (l_elems l) ∧ l_quick (pop_back l).2 = l_quick l.
Proof.
  intros [H1 H2]. unfold pop_back. destruct (last (l_elems l)) as [e|] eqn:E; cbn [fst snd].
  - apply last_snoc_inv in E. rewrite E, sum_of_app, sum_of_cons in H1.
    change (sum_of len (@nil (list byte))) with 0 in H1.
    assert (rev (tail (rev (l_elems l))) = removelast (l_elems l)) as ->.
    { rewrite E at 1. rewrite rev_app_distr. cbn. by rewrite rev_involutive. }
    split; [|done]. split; cbn [l_total l_elems l_quick]; [lia|]. intros Hq. specialize (H2 Hq). lia.
  - apply last_None in E. rewrite E. done.
Qed.

Lemma iter_pop_front_ok n l : list_ok l →
  list_ok (Nat.iter n (λ l, (pop_front l).2) l) ∧ l_elems (Nat.iter n (λ l, (pop_front l).2) l) = drop n (l_elems l) ∧
  l_quick (Nat.iter n (λ l, (pop_front l).2) l) = l_quick l.
Proof.
  intros Hl. induction n as [|n (H1 & H2 & H3)]; [done|]. rewrite Nat.iter_succ.
  destruct (pop_front_ok _ H1) as (P1 & P2 & _ & P4). split; [done|]. rewrite P2, P4, H2, H3. split; [|done].
  replace (S n) with (n + 1)%nat by lia. rewrite <- drop_drop. by destruct (drop n (l_elems l)).
Qed.

Lemma iter_pop_back_ok n l : list_ok l →
  list_ok (Nat.iter n (λ l, (pop_back l).2) l) ∧
  l_elems (Nat.iter n (λ l, (pop_back l).2) l) = take (length (l_elems l) - n) (l_elems l) ∧
  l_quick (Nat.iter n (λ l, (pop_back l).2) l) = l_quick l.
Proof.
  intros Hl. induction n as [|n (H1 & H2 & H3)]; [cbn; rewrite take_ge by lia; done|]. rewrite Nat.iter_succ.
  destruct (pop_back_ok _ H1) as (P1 & P2 & _ & P4). split; [done|]. rewrite P2, P4, H2, H3. split; [|done].
  assert (∀ k : nat, rev (tail (rev (take k (l_elems l)))) = take (min k (length (l_elems l)) - 1) (l_elems l)) as Hk.
  { intros k. destruct (decide (min k (length (l_elems l)) = 0)%nat) as [Hz|Hz].
    - replace (take k (l_elems l)) with (@nil (list byte)); [by rewrite Hz|]. destruct k; [done|]. destruct (l_elems l); [done|cbn in Hz; lia].
    - destruct (lookup_lt_is_Some_2 (l_elems l) (min k (length (l_elems l)) - 1) ltac:(lia)) as [x Hx].
      assert (take k (l_elems l) = take (min k (length (l_elems l)) - 1) (l_elems l) ++ [x]) as ->.
      { rewrite <- take_S_r by done. replace (S (min k (length (l_elems l)) - 1)) with (min k (length (l_elems l))) by lia.
        destruct (decide (k ≤ length (l_elems l))%nat); [by rewrite Nat.min_l|].
        rewrite Nat.min_r, !take_ge by lia. done. }
      rewrite rev_app_distr. cbn. by rewrite rev_involutive. }
  rewrite Hk. f_equal. lia.
Qed.

(** *** LREM *)

Lemma list_remove_at_take_drop {A} (l : list A) i x : l !! i = Some x →
  take i (list_remove_at i l) = take i l ∧ drop i (list_remove_at i l) = drop (S i) l ∧ S (length (list_remove_at i l)) = length l.
Proof.
  intros (l1 & l2 & -> & <- & ->)%list_remove_at_middle. rewrite !length_app. cbn [length].
  split; [by rewrite !take_app_length|]. split; [|lia]. rewrite drop_app_length, drop_app_ge by lia.
  by replace (S (length l1) - length l1)%nat with 1%nat by lia.
Qed.

Lemma removed_ok l i e : list_ok l → l_elems l !! i = Some e →
  list_ok (mkList (list_remove_at i (l_elems l)) (l_total l - len e) (l_quick l)).
Proof.
  intros [H1 H2] He. split; cbn [l_total l_elems l_quick].
  - rewrite (sum_of_remove_at len _ _ _ He). by rewrite H1.
  - intros Hq. specialize (H2 Hq). lia.
Qed.

Lemma drop_first_0 e l : drop_first (Some 0%nat) e l = l.
Proof. by destruct l. Qed.

(** What is left to remove of a cap. *)
Definition left_of (cap : option N) (removed : N) : option nat := (λ c, N.to_nat (c - removed)) <$> cap.

Lemma remove_forward_ok fuel cap elem i removed l : (length (l_elems l) ≤ i + fuel)%nat →
  (∀ c, cap = Some c → removed ≤ c) → list_ok l →
  list_ok (remove_forward fuel cap elem i removed l).2 ∧ l_quick (remove_forward fuel cap elem i removed l).2 = l_quick l ∧
  l_elems (remove_forward fuel cap elem i removed l).2 = take i (l_elems l) ++ drop_first (left_of cap removed) elem (drop i (l_elems l)) ∧
  (remove_forward fuel cap elem i removed l).1 + len (l_elems (remove_forward fuel cap elem i removed l).2) = removed + len (l_elems l).
Proof.
  revert i removed l. induction fuel as [|fuel IH]; intros i removed l Hf Hc Hl; cbn [remove_forward].
  { rewrite take_ge, drop_ge by lia. split; [done|]. split; [done|]. split; [|done].
    destruct (left_of cap removed) as [[]|]; by rewrite app_nil_r. }
  case_decide as Hcap.
  { subst cap. split; [done|]. split; [done|]. split; [|done]. unfold left_of. cbn. rewrite N.sub_diag. cbn.
    by rewrite drop_first_0, take_drop. }
  destruct (l_elems l !! i) as [e|] eqn:Hi.
  2:{ apply lookup_ge_None in Hi. rewrite take_ge, drop_ge by lia. split; [done|]. split; [done|]. split; [|done].
      destruct (left_of cap removed) as [[]|]; by rewrite app_nil_r. }
  assert (left_of cap removed ≠ Some 0%nat) as Hn.
  { unfold left_of. destruct cap as [c|]; [|done]. cbn. intros [= E]. specialize (Hc c eq_refl). apply Hcap. f_equal. lia. }
  assert (∀ l', drop_first (left_of cap removed) elem (e :: l') =
    if decide (e = elem) then drop_first (pred <$> left_of cap removed) elem l' else e :: drop_first (left_of cap removed) elem l') as Hdf.
  { intros l'. destruct (left_of cap removed) as [[|n]|]; done. }
  rewrite (drop_S _ _ _ Hi), Hdf. destruct (decide (e = elem)) as [He|He].
  - destruct (list_remove_at_take_drop _ _ _ Hi) as (T1 & T2 & T3).
    destruct (IH i (removed + 1) (mkList (list_remove_at i (l_elems l)) (l_total l - len e) (l_quick l))) as (H1 & H2 & H3 & H4).
    + cbn [l_elems]. lia.
    + intros c Ec. specialize (Hc c Ec). assert (removed ≠ c) by congruence. lia.
    + by apply removed_ok.
    + cbn [l_elems l_quick] in *. split; [done|]. split; [done|]. split; [|rewrite H4; unfold len; lia].
      rewrite H3, T1, T2. f_equal. f_equal. unfold left_of. destruct cap as [c|]; [|done]. cbn. f_equal. lia.
  - destruct (IH (S i) removed l ltac:(lia) Hc Hl) as (H1 & H2 & H3 & H4). split; [done|]. split; [done|]. split; [|done].
    rewrite H3, (take_S_r _ _ _ Hi). by rewrite <- app_assoc.
Qed.

Lemma remove_backward_ok i cap elem removed l : (i ≤ length (l_elems l))%nat → removed ≤ cap → list_ok l →
  list_ok (remove_backward i cap elem removed l).2 ∧ l_quick (remove_backward i cap elem removed l).2 = l_quick l ∧
  l_elems (remove_backward i cap elem removed l).2 =
    rev (drop_first (Some (N.to_nat (cap - removed))) elem (rev (take i (l_elems l)))) ++ drop i (l_elems l) ∧
  (remove_backward i cap elem removed l).1 + len (l_elems (remove_backward i cap elem removed l).2) = removed + len (l_elems l).
Proof.
  revert removed l. induction i as [|i IH]; intros removed l Hi Hc Hl; cbn [remove_backward].
  { split; [done|]. split; [done|]. split; [|done]. cbn. by destruct (N.to_nat (cap - removed)). }
  case_decide as Hcap.
  { subst cap. split; [done|]. split; [done|]. split; [|done]. rewrite N.sub_diag. cbn [N.to_nat].
    by rewrite drop_first_0, rev_involutive, take_drop. }
  destruct (lookup_lt_is_Some_2 (l_elems l) i ltac:(lia)) as [e He]. rewrite He.
  rewrite (take_S_r _ _ _ He), rev_app_distr. cbn [rev app].
  replace (N.to_nat (cap - removed)) with (S (N.to_nat (cap - (removed + 1)))) by lia. cbn [drop_first].
  destruct (decide (e = elem)) as [Heq|Hne].
  - destruct (list_remove_at_take_drop _ _ _ He) as (T1 & T2 & T3).
    destruct (IH (removed + 1) (mkList (list_remove_at i (l_elems l)) (l_total l - len e) (l_quick l))) as (H1 & H2 & H3 & H4).
    + cbn [l_elems]. lia.
    + lia.
    + by apply removed_ok.
    + cbn [l_elems l_quick] in *. split; [done|]. split; [done|]. split; [by rewrite H3, T1, T2|]. rewrite H4. unfold len. lia.
  - destruct (IH removed l ltac:(lia) Hc Hl) as (H1 & H2 & H3 & H4). split; [done|]. split; [done|]. split; [|done].
    rewrite H3. replace (N.to_nat (cap - removed)) with (S (N.to_nat (cap - (removed + 1)))) by lia. cbn [rev].
    rewrite <- app_assoc. f_equal. cbn. by rewrite (drop_S _ _ _ He).
Qed.

Lemma remove_matching_ok n e l : list_ok l →
  list_ok (remove_matching n e l).2 ∧ l_quick (remove_matching n e l).2 = l_quick l ∧
  (ACount (remove_matching n e l).1, l_elems (remove_matching n e l).2) = spec_list_op (LRemove n e) (l_elems l).
Proof.
  intros Hl. unfold remove_matching. cbn [spec_list_op]. case_decide as Hn.
  - destruct (remove_forward_ok (length (l_elems l)) (if decide (n = 0)%Z then None else Some (Z.to_N n)) e 0 0 l) as (H1 & H2 & H3 & H4);
      [lia|intros; lia|done|]. split; [done|]. split; [done|]. rewrite take_0, drop_0 in H3. cbn [app] in H3.
    assert (left_of (if decide (n = 0)%Z then None else Some (Z.to_N n)) 0 = if decide (n = 0)%Z then None else Some (Z.to_nat n)) as E.
    { case_decide; [done|]. unfold left_of. cbn. f_equal. lia. }
    rewrite E in H3. rewrite <- H3. f_equal. f_equal. lia.
  - destruct (remove_backward_ok (length (l_elems l)) (Z.abs_N n) e 0 l) as (H1 & H2 & H3 & H4); [lia|lia|done|].
    split; [done|]. split; [done|]. rewrite take_ge, drop_ge, app_nil_r in H3 by lia.
    replace (N.to_nat (Z.abs_N n - 0)) with (Z.to_nat (- n)) in H3 by lia. rewrite <- H3. f_equal. f_equal. lia.
Qed.

(** *** LINDEX, LRANGE, LTRIM, LSET, LINSERT, LPOS *)

Lemma resolve_index_spec i l : resolve_index i l = spec_index i (l_elems l).
Proof. unfold resolve_index, spec_index. repeat case_decide; try done; lia. Qed.

Lemma resolve_range_spec {A} a b (es : list A) :
  take (resolve_range (length es) a b).2 (drop (resolve_range (length es) a b).1 es) = spec_slice a b es ∧
  ((resolve_range (length es) a b).1 + (resolve_range (length es) a b).2 ≤ length es)%nat.
Proof.
  unfold resolve_range, spec_slice. set (s := (if decide (a < 0)%Z then _ else _)). set (e := (if decide (b < 0)%Z then _ else _)).
  case_decide as Hn; [destruct es; [split; [by rewrite !drop_nil, !take_nil|cbn; lia]|cbn in Hn; lia]|].
  set (s' := if decide (s < 0)%Z then 0%Z else s). assert (s' = Z.max 0 s) as Es by (unfold s'; case_decide; lia).
  rewrite <- Es. case_decide as Hr; cbn [fst snd].
  - split; [|lia]. symmetry. rewrite take_0. destruct (decide (Z.of_nat (length es) ≤ s')%Z).
    + rewrite drop_ge by lia. by rewrite take_nil.
    + assert (e < s')%Z by (destruct (decide (Z.of_nat (length es) ≤ e)%Z); lia). by replace (Z.to_nat (e + 1 - s')) with 0%nat by lia.
  - case_decide; split; [|lia| |lia]; [|done]. rewrite !take_ge by (rewrite length_drop; lia). done.
Qed.

Lemma trim_ok a b l : list_ok l →
  list_ok (trim a b l) ∧ l_quick (trim a b l) = l_quick l ∧ l_elems (trim a b l) = spec_slice a b (l_elems l).
Proof.
  intros Hl. destruct (resolve_range_spec a b (l_elems l)) as [Hr Hb]. unfold trim.
  destruct (resolve_range (length (l_elems l)) a b) as [s n]. cbn [fst snd] in *. rewrite <- Hr. case_decide as Hn.
  - subst n. by rewrite take_0.
  - destruct (iter_pop_back_ok (length (l_elems l) - (s + n)) l Hl) as (H1 & H2 & H3).
    destruct (iter_pop_front_ok s _ H1) as (H4 & H5 & H6). split; [done|]. split; [by rewrite H6|]. rewrite H5, H2.
    replace (length (l_elems l) - (length (l_elems l) - (s + n)))%nat with (s + n)%nat by lia.
    by rewrite skipn_firstn_comm, Nat.add_comm, Nat.add_sub.
Qed.

Lemma list_set_ok i e t l : list_ok l →
  list_ok (list_set i e t l).2 ∧ (l_quick l = true → l_quick (list_set i e t l).2 = true) ∧
  (ABool (list_set i e t l).1, l_elems (list_set i e t l).2) = spec_list_op (LSet i e) (l_elems l).
Proof.
  intros Hl. unfold list_set. rewrite resolve_index_spec. cbn [spec_list_op].
  destruct (spec_index i (l_elems l)) as [j|] eqn:E; [|done]. cbn [fst snd]. rewrite ratchet_elems.
  split; [|split; [intros Hq; by apply ratchet_quick|done]]. apply ratchet_ok. cbn [l_total l_elems].
  unfold spec_index in E. repeat case_decide; simplify_eq.
  all: match goal with |- context [<[?j := _]> _] => destruct (lookup_lt_is_Some_2 (l_elems l) j ltac:(lia)) as [x Hx] end.
  all: rewrite Hx; cbn [default]; rewrite (sum_of_insert len _ _ _ _ Hx); by rewrite (proj1 Hl).
Qed.

Lemma insert_by_ok o p e t l : list_ok l →
  list_ok (insert_by o p e t l).2 ∧ (l_quick l = true → l_quick (insert_by o p e t l).2 = true) ∧
  ((insert_by o p e t l).1, l_elems (insert_by o p e t l).2) = spec_insert o p e (l_elems l).
Proof.
  intros Hl. unfold insert_by, spec_insert. destruct (find_pos (λ x, x = p) (l_elems l)) as [i|] eqn:E; [|done]. cbn [fst snd].
  rewrite ratchet_elems. cbn [l_elems]. split; [|split; [intros Hq; by apply ratchet_quick|]].
  - apply ratchet_ok. cbn [l_total l_elems]. rewrite sum_of_insert_at. by rewrite (proj1 Hl).
  - f_equal. f_equal. unfold insert_at. rewrite length_app. cbn. rewrite length_take, length_drop.
    apply find_pos_Some in E as (x & Hx & _). apply lookup_lt_Some in Hx. lia.
Qed.

Lemma list_push_ok l elems e t : list_ok l → elems ≡ₚ e :: l_elems l →
  list_ok (maybe_ratchet_quicklist t (mkList elems (l_total l + len e) (l_quick l))).
Proof.
  intros Hl Hp. apply ratchet_ok. cbn [l_total l_elems]. rewrite (sum_of_perm _ _ _ Hp), sum_of_cons, (proj1 Hl). lia.
Qed.

Lemma pos_scan_spec e k want es : (∀ n, want = Some n → 0 < n) →
  pos_scan e k want es =
  let hits := drop (N.to_nat k) (filter (λ p : nat * list byte, p.2 = e) es).*1 in
  match want with Some n => take (N.to_nat n) hits | None => hits end.
Proof.
  revert k want. induction es as [|[i x] es IH]; intros k want Hw; cbn zeta.
  { rewrite filter_nil. cbn. rewrite drop_nil. destruct want; [by rewrite take_nil|done]. }
  cbn [pos_scan]. rewrite filter_cons. cbn [snd]. destruct (decide (x = e)) as [Hx|Hx]; [|by rewrite IH].
  cbn [fmap list_fmap fst]. case_decide as Hk.
  - rewrite IH by done. cbn zeta. replace (N.to_nat k) with (S (N.to_nat (k - 1))) by lia. done.
  - replace k with 0 by lia. change (N.to_nat 0) with 0%nat. rewrite drop_0. destruct want as [n|].
    + specialize (Hw n eq_refl). replace (N.to_nat n) with (S (N.to_nat (n - 1))) by lia. cbn. f_equal. case_decide as Hn.
      * by replace (N.to_nat (n - 1)) with 0%nat by lia.
      * rewrite IH by (intros m [= <-]; lia). cbn zeta. change (N.to_nat 0) with 0%nat. by rewrite drop_0.
    + f_equal. rewrite IH by done. cbn zeta. change (N.to_nat 0) with 0%nat. by rewrite drop_0.
Qed.

(** Pairs of a list's elements with their positions, in any order. *)
Lemma indexed_filter e (l : list (list byte)) ps : Forall (λ p : nat * list byte, l !! p.1 = Some p.2) ps →
  (filter (λ p : nat * list byte, p.2 = e) ps).*1 = filter (λ i, l !! i = Some e) ps.*1.
Proof.
  induction 1 as [|[i x] ps Hp _ IH]; [done|]. cbn [fst snd] in Hp. cbn [fmap list_fmap fst]. rewrite !filter_cons. cbn [snd].
  rewrite Hp. destruct (decide (x = e)) as [->|Hx].
  - rewrite decide_True by done. cbn. by rewrite IH.
  - rewrite decide_False by congruence. done.
Qed.

Lemma imap_pair_ok {A} (l : list A) :
  Forall (λ p : nat * A, l !! p.1 = Some p.2) (imap pair l) ∧ (imap pair l).*1 = seq 0 (length l).
Proof.
  split.
  - apply Forall_lookup. intros i [j x] Hi. rewrite list_lookup_imap in Hi. apply fmap_Some in Hi as (y & Hy & [= -> ->]). done.
  - apply list_eq. intros i. rewrite list_lookup_fmap, list_lookup_imap. destruct (l !! i) eqn:E; cbn.
    + apply lookup_lt_Some in E. symmetry. by apply lookup_seq_lt.
    + apply lookup_ge_None in E. symmetry. by apply lookup_seq_ge.
Qed.

Lemma fst_rev {A B} (l : list (A * B)) : (rev l).*1 = rev l.*1.
Proof. induction l as [|x l IH]; [done|]. cbn. by rewrite fmap_app, IH. Qed.

Lemma list_pos_spec e rank count maxlen l : list_pos e rank count maxlen l = spec_pos e rank count maxlen (l_elems l).
Proof.
  unfold list_pos, spec_pos. destruct (imap_pair_ok (l_elems l)) as [Hi Hs].
  set (es := if decide (maxlen = 0)%nat then _ else _ : list (nat * list byte)).
  set (ps := if decide (maxlen = 0)%nat then _ else _ : list nat).
  assert (es.*1 = ps ∧ Forall (λ p : nat * list byte, l_elems l !! p.1 = Some p.2) es) as [E1 E2].
  { unfold es, ps. rewrite <- Hs. split; repeat case_decide; rewrite ?fmap_take, ?fst_rev; try done.
    all: repeat apply Forall_take; try done; by apply Forall_rev. }
  destruct (decide (rank = 0)%Z) as [->|Hr]; [by rewrite decide_True by (by right)|].
  case_decide as He.
  { destruct He as [He|He]; [|done]. subst ps. rewrite He. cbn [length seq rev].
    assert (∀ k, (if decide (maxlen = 0)%nat then (if decide (0 < rank)%Z then [] else []) else take k (if decide (0 < rank)%Z then [] else [])) = @nil nat) as ->.
    { intros k. repeat case_decide; by rewrite ?take_nil. }
    rewrite filter_nil, drop_nil. destruct count as [[]|]; by rewrite ?take_nil. }
  rewrite pos_scan_spec by (intros n; destruct count as [[|p]|]; intros [= <-]; lia). cbn zeta.
  rewrite (indexed_filter _ (l_elems l)), E1 by done. replace (N.to_nat (Z.abs_N rank - 1)) with (Z.abs_nat rank - 1)%nat by lia.
  by destruct count as [[|p]|].
Qed.

Lemma run_list_op_ok t op l : list_ok l →
  list_ok (run_list_op t op l).2 ∧ (l_quick l = true → l_quick (run_list_op t op l).2 = true) ∧
  ((run_list_op t op l).1, l_elems (run_list_op t op l).2) = spec_list_op op (l_elems l).
Proof.
  intros Hl. destruct op; cbn [run_list_op].
  - split; [by apply list_push_ok|]. split; [intros Hq; by apply ratchet_quick|]. unfold push_front. cbn [fst snd]. by rewrite ratchet_elems.
  - split; [by apply list_push_ok; [|rewrite Permutation_app_comm]|]. split; [intros Hq; by apply ratchet_quick|].
    unfold push_back. cbn [fst snd]. by rewrite ratchet_elems.
  - destruct (pop_front_ok l Hl) as (H1 & H2 & H3 & H4). destruct (pop_front l). cbn [fst snd] in *. by rewrite H4, H3, H2.
  - destruct (pop_back_ok l Hl) as (H1 & H2 & H3 & H4). destruct (pop_back l). cbn [fst snd] in *. by rewrite H4, H3, H2.
  - pose proof (list_set_ok i e t l Hl). by destruct (list_set i e t l).
  - pose proof (insert_by_ok 0 pivot e t l Hl) as H. unfold insert_before. destruct (insert_by 0 pivot e t l). cbn [fst snd spec_list_op] in *.
    destruct H as (H1 & H2 & <-). done.
  - pose proof (insert_by_ok 1 pivot e t l Hl) as H. unfold insert_after. destruct (insert_by 1 pivot e t l). cbn [fst snd spec_list_op] in *.
    destruct H as (H1 & H2 & <-). done.
  - pose proof (remove_matching_ok count e l Hl) as (H1 & H2 & H3). destruct (remove_matching count e l). cbn [fst snd] in *. by rewrite H2.
  - destruct (trim_ok start stop l Hl) as (H1 & H2 & H3). cbn [fst snd]. by rewrite H2, H3.
  - unfold list_get. rewrite resolve_index_spec. done.
  - split; [done|]. split; [done|]. unfold list_range. destruct (resolve_range_spec start stop (l_elems l)) as [H _].
    destruct (resolve_range (length (l_elems l)) start stop). cbn [fst snd] in *. cbn [spec_list_op]. by rewrite H.
  - rewrite list_pos_spec. done.
Qed.

Lemma run_lists_ok (ops : list (EncodingThresholds * list_op)) l : list_ok l →
  let r := run_all (λ x, run_list_op x.1 x.2) ops l in
  list_ok r.2 ∧ (r.1, l_elems r.2) = run_all spec_list_op ops.*2 (l_elems l).
Proof.
  apply (run_all_refines _ spec_list_op snd l_elems list_ok). intros o s Hs. destruct (run_list_op_ok o.1 o.2 s Hs) as (H1 & _ & H3). done.
Qed.

