(* ===== verification/ValuesHash.v ===== *)
(** * Hash values

    The two resident forms of a hash, and the deadlines of its fields, against
    the map from fields to a value and an optional deadline. *)

From Stdlib Require Import NArith ZArith Lia List.
From S2P Require Import Prelude Resp Keyspace Values ValuesProofs.
From stdpp Require Import strings gmap sorting.
Import ListNotations.
#[local] Open Scope N_scope.

Implicit Types (h : HashVal) (f x w : list byte) (v : list (list byte * list byte)).

(** ** The two forms *)

Definition hmap (d : HashData) : gmap (list byte) (list byte) :=
  match d with HListPack v => list_to_map v | HTable m => m end.

Definition data_ok (d : HashData) : Prop :=
  match d with HListPack v => NoDup v.*1 | HTable _ => True end.

Lemma hash_pos_split f v : NoDup v.*1 →
  match hash_listpack_pos f v with
  | Some i => ∃ w l, v !! i = Some (f, w) ∧ v ≡ₚ (f, w) :: l ∧ list_remove_at i v ≡ₚ l ∧ ∀ x, <[i := (f, x)]> v ≡ₚ (f, x) :: l
  | None => f ∉ v.*1
  end.
Proof.
  intros Hnd. unfold hash_listpack_pos. destruct (find_pos (λ y, y.1 = f) v) as [i|] eqn:E.
  - apply find_pos_Some in E as ([g w] & Hi & Hg & _). cbn in Hg. subst g. exists w.
    destruct (list_remove_at_middle _ _ _ Hi) as (l1 & l2 & -> & <- & ->). exists (l1 ++ l2). split; [done|].
    split; [by rewrite Permutation_middle|]. split; [done|]. intros x.
    rewrite insert_app_r_alt by lia. rewrite Nat.sub_diag. cbn. by rewrite Permutation_middle.
  - apply find_pos_None in E. rewrite Forall_forall in E. intros ([g w] & -> & Hin)%list_elem_of_fmap. by apply (E (g, w)).
Qed.

Lemma hmap_convert d : data_ok d → hmap (convert_to_hashtable d) = hmap d ∧ data_ok (convert_to_hashtable d).
Proof.
  destruct d as [v|m]; [|done]. cbn. intros Hnd. by rewrite foldl_insert_spec.
Qed.

(** A form made of the pairs [l], with [f] bound to [x] on top. *)
Lemma listpack_put f x v l : NoDup (f :: l.*1) → v ≡ₚ (f, x) :: l → data_ok (HListPack v) ∧ hmap (HListPack v) = <[f := x]> (list_to_map l).
Proof.
  intros Hnd Hp. assert (NoDup v.*1) as Hv by (by rewrite Hp). split; [done|]. cbn.
  by rewrite (list_to_map_proper v _ Hv Hp).
Qed.

Lemma hash_get_spec f h : data_ok (h_data h) → hash_get f h = hmap (h_data h) !! f.
Proof.
  unfold hash_get. destruct (h_data h) as [v|m]; [|done]. cbn. intros Hnd. pose proof (hash_pos_split f v Hnd) as H.
  destruct (hash_listpack_pos f v) as [i|].
  - destruct H as (w & l & Hi & _). cbn. rewrite Hi. cbn. symmetry. apply elem_of_list_to_map_1; [done|]. by eapply list_elem_of_lookup_2.
  - cbn. symmetry. by apply not_elem_of_list_to_map_1.
Qed.

Lemma hash_contains_spec f h : data_ok (h_data h) → hash_contains f h = bool_decide (is_Some (hmap (h_data h) !! f)).
Proof.
  intros Hd. rewrite <- (hash_get_spec f h Hd). unfold hash_contains, hash_get. destruct (h_data h) as [v|m]; [|done].
  apply bool_decide_ext. cbn in Hd. pose proof (hash_pos_split f v Hd) as H. destruct (hash_listpack_pos f v) as [i|]; cbn.
  - destruct H as (w & l & -> & _). cbn. split; eauto.
  - split; intros [? [=]].
Qed.

Lemma hash_set_spec f x t h : data_ok (h_data h) →
  (hash_set f x t h).1 = bool_decide (hmap (h_data h) !! f = None) ∧ data_ok (h_data (hash_set f x t h).2) ∧
  hmap (h_data (hash_set f x t h).2) = <[f := x]> (hmap (h_data h)) ∧ h_ttls (hash_set f x t h).2 = h_ttls h.
Proof.
  unfold hash_set. destruct (h_data h) as [v|m]; [|done]. cbn [data_ok]. intros Hnd. pose proof (hash_pos_split f v Hnd) as H.
  set (p := match hash_listpack_pos f v with Some i => (false, <[i := (f, x)]> v) | None => (true, v ++ [(f, x)]) end).
  assert (p.1 = bool_decide (hmap (HListPack v) !! f = None) ∧ data_ok (HListPack p.2) ∧
          hmap (HListPack p.2) = <[f := x]> (hmap (HListPack v))) as (P1 & P2 & P3).
  { unfold p. destruct (hash_listpack_pos f v) as [i|].
    - destruct H as (w & l & _ & Hp & _ & Hx). cbn [fst snd]. assert (NoDup (f :: l.*1)) as Hl by (by rewrite Hp in Hnd).
      destruct (listpack_put f x _ l Hl (Hx x)) as [H1 H2]. cbn [hmap] in *.
      rewrite (list_to_map_proper v _ Hnd Hp). cbn [list_to_map foldr fst snd]. rewrite lookup_insert_eq, insert_insert_eq. done.
    - cbn [fst snd]. assert (NoDup (f :: v.*1)) as Hl by (by constructor).
      destruct (listpack_put f x (v ++ [(f, x)]) v Hl) as [H1 H2]; [by rewrite Permutation_app_comm|]. cbn [hmap] in *.
      rewrite (not_elem_of_list_to_map_1 v f H). done. }
  destruct p as [new v']. cbn [fst snd] in *. split; [done|]. destruct (hmap_convert (HListPack v') P2) as [C1 C2].
  destruct (should_convert (length v') f x t); cbn [h_data h_ttls]; [split; [done|]; by rewrite C1|done].
Qed.

(** ** Deadlines *)

(** No deadline without its field, and no empty side map. *)
Definition hash_ok (h : HashVal) : Prop :=
  data_ok (h_data h) ∧ h_ttls h ≠ Some ∅ ∧ ∀ f, is_Some (field_ttl f h) → is_Some (hmap (h_data h) !! f).

Lemma clear_field_ttl_spec f h : h_ttls h ≠ Some ∅ →
  (clear_field_ttl f h).1 = bool_decide (is_Some (field_ttl f h)) ∧ h_data (clear_field_ttl f h).2 = h_data h ∧
  h_ttls (clear_field_ttl f h).2 ≠ Some ∅ ∧
  ∀ g, field_ttl g (clear_field_ttl f h).2 = if decide (g = f) then None else field_ttl g h.
Proof.
  intros Hne. unfold clear_field_ttl, field_ttl. destruct (h_ttls h) as [ttls|] eqn:E; cbn [fst snd h_data h_ttls mbind option_bind].
  - split; [done|]. split; [done|]. split; [case_decide; congruence|]. intros g.
    assert (delete f ttls !! g = if decide (g = f) then None else ttls !! g) as <-.
    { case_decide; [subst; apply lookup_delete_eq|by rewrite lookup_delete_ne]. }
    case_decide as Hd; [|done]. by rewrite Hd, lookup_empty.
  - rewrite E. split; [done|]. split; [done|]. split; [done|]. intros g. by case_decide.
Qed.

Lemma hash_del_spec f h : hash_ok h →
  (hash_del f h).1 = bool_decide (is_Some (hmap (h_data h) !! f)) ∧ hash_ok (hash_del f h).2 ∧
  hmap (h_data (hash_del f h).2) = delete f (hmap (h_data h)) ∧
  ∀ g, field_ttl g (hash_del f h).2 = if decide (g = f) then None else field_ttl g h.
Proof.
  intros (Hd & Hne & Httl). unfold hash_del.
  set (p := match h_data h with HListPack v => _ | HTable m => _ end).
  assert (p.1 = bool_decide (is_Some (hmap (h_data h) !! f)) ∧ data_ok p.2 ∧ hmap p.2 = delete f (hmap (h_data h))) as (P1 & P2 & P3).
  { unfold p. destruct (h_data h) as [v|m]; [|done]. cbn in Hd. pose proof (hash_pos_split f v Hd) as H.
    destruct (hash_listpack_pos f v) as [i|]; cbn [fst snd hmap data_ok].
    - destruct H as (w & l & _ & Hp & Hr & _). assert (NoDup (f :: l.*1)) as Hl by (by rewrite Hp in Hd). apply NoDup_cons in Hl as [Hf Hl].
      assert (NoDup (list_remove_at i v).*1) as Hr' by (by rewrite Hr). rewrite (list_to_map_proper v _ Hd Hp), (list_to_map_proper _ _ Hr' Hr).
      cbn [list_to_map foldr fst snd]. rewrite lookup_insert_eq. split; [done|]. split; [done|].
      rewrite delete_insert_id; [done|]. by apply not_elem_of_list_to_map_1.
    - rewrite (not_elem_of_list_to_map_1 v f H). split; [done|]. split; [done|]. rewrite delete_id; [done|]. by apply not_elem_of_list_to_map_1. }
  destruct p as [removed d]. cbn [fst snd] in *. destruct (clear_field_ttl_spec f (mkHash d (h_ttls h)) Hne) as (_ & C2 & C3 & C4).
  unfold hash_ok. rewrite P1. case_bool_decide as Hf; cbn [fst snd h_data h_ttls] in *.
  - rewrite C2, P3. split; [done|]. split; [|done]. split; [done|]. split; [done|]. intros g. rewrite C4.
    case_decide; [by intros []|]. rewrite lookup_delete_ne by done. apply Httl.
  - assert (∀ g, field_ttl g (mkHash d (h_ttls h)) = if decide (g = f) then None else field_ttl g h) as Hg.
    { intros g. change (field_ttl g (mkHash d (h_ttls h))) with (field_ttl g h). case_decide; [|done]. subst g.
      destruct (field_ttl f h) eqn:E; [|done]. destruct Hf. apply Httl. by rewrite E. }
    split; [done|]. rewrite P3. split; [|done]. split; [done|]. split; [done|]. intros g. rewrite Hg. case_decide; [by intros []|].
    rewrite lookup_delete_ne by done. apply Httl.
Qed.

(** ** The map a hash stands for *)

Definition hash_abs (h : HashVal) : gmap (list byte) (list byte * option N) := map_imap (λ f x, Some (x, field_ttl f h)) (hmap (h_data h)).

Lemma hash_abs_lookup f h : hash_abs h !! f = (λ x, (x, field_ttl f h)) <$> hmap (h_data h) !! f.
Proof. unfold hash_abs. rewrite map_lookup_imap. by destruct (hmap (h_data h) !! f). Qed.

Lemma hash_abs_new f h : hash_ok h → hmap (h_data h) !! f = None → hash_abs h !! f = None ∧ field_ttl f h = None.
Proof.
  intros (_ & _ & H) Hf. rewrite hash_abs_lookup, Hf. split; [done|]. destruct (field_ttl f h) eqn:E; [|done].
  destruct (H f) as [x Hx]; [by rewrite E|]. congruence.
Qed.

Lemma hash_set_abs f x t h : hash_ok h →
  hash_ok (hash_set f x t h).2 ∧ (hash_set f x t h).1 = bool_decide (hash_abs h !! f = None) ∧
  hash_abs (hash_set f x t h).2 = <[f := (x, hash_abs h !! f ≫= snd)]> (hash_abs h).
Proof.
  intros Hh. pose proof Hh as (Hd & Hne & Httl). destruct (hash_set_spec f x t h Hd) as (H1 & H2 & H3 & H4).
  assert (∀ g, field_ttl g (hash_set f x t h).2 = field_ttl g h) as H5 by (intros g; unfold field_ttl; by rewrite H4).
  split; [|split].
  - split; [done|]. rewrite H4. split; [done|]. intros g. rewrite H3, H5. intros Hg. destruct (decide (f = g)) as [->|];
      [by rewrite lookup_insert_eq|]. rewrite lookup_insert_ne by done. by apply Httl.
  - rewrite H1. apply bool_decide_ext. rewrite hash_abs_lookup. by destruct (hmap (h_data h) !! f).
  - apply map_eq. intros g. rewrite hash_abs_lookup, H3, H5. destruct (decide (f = g)) as [<-|Hg].
    + rewrite !lookup_insert_eq. cbn. destruct (hmap (h_data h) !! f) eqn:E.
      * rewrite hash_abs_lookup, E. done.
      * destruct (hash_abs_new f h Hh E) as [-> ->]. done.
    + rewrite !lookup_insert_ne by done. by rewrite hash_abs_lookup.
Qed.

Lemma hash_del_abs f h : hash_ok h →
  hash_ok (hash_del f h).2 ∧ (hash_del f h).1 = bool_decide (is_Some (hash_abs h !! f)) ∧
  hash_abs (hash_del f h).2 = delete f (hash_abs h).
Proof.
  intros Hh. destruct (hash_del_spec f h Hh) as (H1 & H2 & H3 & H4). split; [done|]. split.
  - rewrite H1. apply bool_decide_ext. by rewrite hash_abs_lookup, fmap_is_Some.
  - apply map_eq. intros g. rewrite hash_abs_lookup, H3, H4. destruct (decide (f = g)) as [<-|Hg].
    + by rewrite !lookup_delete_eq.
    + rewrite !lookup_delete_ne, decide_False by done. by rewrite hash_abs_lookup.
Qed.

Lemma clear_field_ttl_abs f h : hash_ok h →
  hash_ok (clear_field_ttl f h).2 ∧ (clear_field_ttl f h).1 = bool_decide (is_Some (hash_abs h !! f ≫= snd)) ∧
  hash_abs (clear_field_ttl f h).2 = alter (λ y, (y.1, None)) f (hash_abs h).
Proof.
  intros Hh. pose proof Hh as (Hd & Hne & Httl). destruct (clear_field_ttl_spec f h Hne) as (H1 & H2 & H3 & H4).
  split; [|split].
  - split; [by rewrite H2|]. split; [done|]. intros g. rewrite H4, H2. case_decide; [by intros []|]. apply Httl.
  - rewrite H1. apply bool_decide_ext. rewrite hash_abs_lookup. destruct (hmap (h_data h) !! f) eqn:E; [done|].
    by rewrite (proj2 (hash_abs_new f h Hh E)).
  - apply map_eq. intros g. rewrite hash_abs_lookup, H2, H4. destruct (decide (f = g)) as [<-|Hg].
    + rewrite decide_True, lookup_alter_eq, hash_abs_lookup by done. by destruct (hmap (h_data h) !! f).
    + rewrite decide_False, lookup_alter_ne, hash_abs_lookup by done. done.
Qed.

Lemma set_field_ttl_abs f d h : hash_ok h → is_Some (hmap (h_data h) !! f) →
  hash_ok (set_field_ttl f d h) ∧ hash_abs (set_field_ttl f d h) = alter (λ y, (y.1, Some d)) f (hash_abs h).
Proof.
  intros (Hd & Hne & Httl) Hf.
  assert (∀ g, field_ttl g (set_field_ttl f d h) = if decide (g = f) then Some d else field_ttl g h) as H4.
  { intros g. unfold field_ttl, set_field_ttl. cbn [h_ttls mbind option_bind]. case_decide as E; [subst; apply lookup_insert_eq|].
    rewrite lookup_insert_ne by done. by destruct (h_ttls h). }
  split.
  - split; [done|]. split; [intros [= E]; by apply insert_non_empty in E|]. intros g. rewrite H4. case_decide; [by subst|]. apply Httl.
  - apply map_eq. intros g. rewrite hash_abs_lookup, H4. cbn [h_data set_field_ttl]. destruct (decide (f = g)) as [<-|Hg].
    + rewrite decide_True, lookup_alter_eq, hash_abs_lookup by done. by destruct (hmap (h_data h) !! f).
    + rewrite decide_False, lookup_alter_ne, hash_abs_lookup by done. done.
Qed.

(** The fields of a map past their deadline. *)
Definition due (now : N) (y : list byte * option N) : Prop := match y.2 with Some d => d ≤ now | None => False end.
#[global] Instance due_dec now y : Decision (due now y).
Proof. unfold due. destruct y.2; apply _. Defined.

Lemma expired_fields_abs now h f : hash_ok h → f ∈ expired_fields now h ↔ ∃ y, hash_abs h !! f = Some y ∧ due now y.
Proof.
  intros (Hd & Hne & Httl). assert (f ∈ expired_fields now h ↔ ∃ d, field_ttl f h = Some d ∧ d ≤ now) as ->.
  { unfold expired_fields, field_ttl. destruct (h_ttls h) as [ttls|]; [|set_solver]. cbn [mbind option_bind].
    rewrite elem_of_dom. unfold is_Some. setoid_rewrite map_lookup_filter_Some. done. }
  setoid_rewrite hash_abs_lookup. split.
  - intros (d & Hf & Hle). destruct (Httl f) as [x Hx]; [by rewrite Hf|]. exists (x, Some d). by rewrite Hx, Hf.
  - intros (y & (x & Hx & ->)%fmap_Some & Hdue). unfold due in Hdue. cbn in Hdue. destruct (field_ttl f h); [eauto|done].
Qed.

Lemma delete_all_abs fs h : hash_ok h → hash_ok (foldl (λ h f, (hash_del f h).2) h fs) ∧
  ∀ g, hash_abs (foldl (λ h f, (hash_del f h).2) h fs) !! g = if decide (g ∈ fs) then None else hash_abs h !! g.
Proof.
  revert h. induction fs as [|f fs IH]; intros h Hh; cbn [foldl].
  { split; [done|]. intros g. rewrite decide_False; [done|]. apply not_elem_of_nil. }
  destruct (hash_del_abs f h Hh) as (H1 & _ & H3). destruct (IH _ H1) as [I1 I2]. split; [done|]. intros g. rewrite I2, H3.
  destruct (decide (g = f)) as [->|Hg].
  - rewrite lookup_delete_eq, (decide_True (P := f ∈ f :: fs)) by (by left). by case_decide.
  - rewrite lookup_delete_ne by done. apply decide_ext. rewrite elem_of_cons. naive_solver.
Qed.

Lemma reap_expired_fields_abs now h : hash_ok h →
  hash_ok (reap_expired_fields now h).2 ∧
  (reap_expired_fields now h).1 = dom (filter (λ y : list byte * (list byte * option N), due now y.2) (hash_abs h)) ∧
  hash_abs (reap_expired_fields now h).2 = filter (λ y : list byte * (list byte * option N), ¬ due now y.2) (hash_abs h).
Proof.
  intros Hh. unfold reap_expired_fields. cbn [fst snd].
  destruct (delete_all_abs (elements (expired_fields now h)) h Hh) as [H1 H2]. split; [done|]. split.
  - apply set_eq. intros f. rewrite expired_fields_abs, elem_of_dom by done. unfold is_Some. by setoid_rewrite map_lookup_filter_Some.
  - apply map_eq. intros g. rewrite H2. symmetry. case_decide as Hg; rewrite elem_of_elements, expired_fields_abs in Hg by done.
    + apply map_lookup_filter_None_2. right. naive_solver.
    + destruct (hash_abs h !! g) as [y|] eqn:E; [apply map_lookup_filter_Some_2; naive_solver|].
      apply map_lookup_filter_None_2. by left.
Qed.

(** ** The encoding *)

Definition large (h : HashVal) : Prop := match h_data h with HTable _ => True | HListPack _ => False end.

(** A listpack of at most [E] pairs, no half longer than [W]. *)
Definition hash_within (E W : N) (h : HashVal) : Prop :=
  match h_data h with
  | HListPack v => len v ≤ E ∧ Forall (λ y, len y.1 ≤ W ∧ len y.2 ≤ W) v
  | HTable _ => True
  end.

Lemma large_set f x t h : large h → large (hash_set f x t h).2.
Proof. unfold large, hash_set. by destruct (h_data h). Qed.

Lemma clear_data f h : h_data (clear_field_ttl f h).2 = h_data h.
Proof. unfold clear_field_ttl. by destruct (h_ttls h). Qed.

Lemma hash_del_data f h : h_data (hash_del f h).2 =
  match h_data h with
  | HListPack v => match hash_listpack_pos f v with Some i => HListPack (list_remove_at i v) | None => HListPack v end
  | HTable m => HTable (delete f m)
  end.
Proof.
  unfold hash_del. destruct (h_data h) as [v|m]; [destruct (hash_listpack_pos f v)|].
  - apply (clear_data f (mkHash _ _)).
  - done.
  - case_bool_decide; [apply (clear_data f (mkHash _ _))|done].
Qed.

Lemma hash_within_set E W f x t h : hash_max_listpack_entries t ≤ E → hash_max_listpack_value t ≤ W →
  hash_within E W h → hash_within E W (hash_set f x t h).2.
Proof.
  intros HE HW Hw. unfold hash_set, hash_within in *. destruct (h_data h) as [v|m]; [|done]. destruct Hw as [_ Hw].
  set (p := match hash_listpack_pos f v with Some i => (false, <[i := (f, x)]> v) | None => (true, v ++ [(f, x)]) end).
  assert (should_convert (length p.2) f x t = false → len p.2 ≤ E ∧ Forall (λ y, len y.1 ≤ W ∧ len y.2 ≤ W) p.2) as Hp.
  { unfold should_convert. case_bool_decide as Hc; [done|]. intros _. unfold len in *. split; [lia|].
    unfold p. destruct (hash_listpack_pos f v); cbn [snd]; [apply Forall_insert; [done|]|apply Forall_app; split; [done|]; apply Forall_singleton].
    all: cbn; lia. }
  destruct p as [new v']. cbn [fst snd h_data] in *. destruct (should_convert (length v') f x t); [done|]. by apply Hp.
Qed.

Lemma hash_within_del E W f h : hash_within E W h → hash_within E W (hash_del f h).2.
Proof.
  unfold hash_within. rewrite hash_del_data. destruct (h_data h) as [v|m]; [|done]. destruct (hash_listpack_pos f v) as [i|]; [|done].
  unfold list_remove_at, len. intros [H1 H2]. rewrite length_app, length_take, length_drop. split; [lia|].
  apply Forall_app. split; [by apply Forall_take|by apply Forall_drop].
Qed.

Lemma kept_by_reap (P : HashVal → Prop) now h : (∀ f h, P h → P (hash_del f h).2) → P h → P (reap_expired_fields now h).2.
Proof.
  intros Hdel. unfold reap_expired_fields. cbn [snd]. generalize (elements (expired_fields now h)). intros fs. revert h.
  induction fs as [|f fs IH]; intros h Hh; [done|]. cbn. by apply IH, Hdel.
Qed.

(** ** Operations *)

Inductive hash_op :=
  | HSet (f x : list byte)
  | HSetNx (f x : list byte)
  | HDel (f : list byte)
  | HExpire (f : list byte) (deadline : N)
  | HPersist (f : list byte)
  | HReap (now : N)
  | HGet (f : list byte)
  | HTtl (f : list byte)
  | HLen.

Inductive hash_answer :=
  | HBool (b : bool)
  | HFields (fs : gset (list byte))
  | HValue (x : option (list byte))
  | HDeadline (d : option N)
  | HSize (n : nat).

(** The commands give a field a deadline only when the hash has the field. *)
Definition run_hash_op (t : EncodingThresholds) (op : hash_op) (h : HashVal) : hash_answer * HashVal :=
  match op with
  | HSet f x => let '(b, h) := hash_set f x t h in (HBool b, h)
  | HSetNx f x => let '(b, h) := hash_set_nx f x t h in (HBool b, h)
  | HDel f => let '(b, h) := hash_del f h in (HBool b, h)
  | HExpire f d => if hash_contains f h then (HBool true, set_field_ttl f d h) else (HBool false, h)
  | HPersist f => let '(b, h) := clear_field_ttl f h in (HBool b, h)
  | HReap now => let '(fs, h) := reap_expired_fields now h in (HFields fs, h)
  | HGet f => (HValue (hash_get f h), h)
  | HTtl f => (HDeadline (field_ttl f h), h)
  | HLen => (HSize (hash_len h), h)
  end.

Definition spec_hash_op (op : hash_op) (m : gmap (list byte) (list byte * option N)) :
    hash_answer * gmap (list byte) (list byte * option N) :=
  match op with
  | HSet f x => (HBool (bool_decide (m !! f = None)), <[f := (x, m !! f ≫= snd)]> m)
  | HSetNx f x => match m !! f with None => (HBool true, <[f := (x, None)]> m) | Some _ => (HBool false, m) end
  | HDel f => (HBool (bool_decide (is_Some (m !! f))), delete f m)
  | HExpire f d => (HBool (bool_decide (is_Some (m !! f))), alter (λ y, (y.1, Some d)) f m)
  | HPersist f => (HBool (bool_decide (is_Some (m !! f ≫= snd))), alter (λ y, (y.1, None)) f m)
  | HReap now =>
      (HFields (dom (filter (λ y : list byte * (list byte * option N), due now y.2) m)),
       filter (λ y : list byte * (list byte * option N), ¬ due now y.2) m)
  | HGet f => (HValue (fst <$> m !! f), m)
  | HTtl f => (HDeadline (m !! f ≫= snd), m)
  | HLen => (HSize (size m), m)
  end.

Lemma hash_len_spec h : data_ok (h_data h) → hash_len h = size (hmap (h_data h)).
Proof.
  unfold hash_len. destruct (h_data h) as [v|m]; [|done]. cbn. intros Hnd.
  rewrite map_size_list_to_map by done. done.
Qed.

Lemma size_abs h : size (hash_abs h) = size (hmap (h_data h)).
Proof.
  rewrite <- !size_dom. f_equal. apply set_eq. intros f. rewrite !elem_of_dom, hash_abs_lookup. apply fmap_is_Some.
Qed.

Lemma run_hash_op_ok t op h : hash_ok h →
  hash_ok (run_hash_op t op h).2 ∧ ((run_hash_op t op h).1, hash_abs (run_hash_op t op h).2) = spec_hash_op op (hash_abs h).
Proof.
  intros Hh. pose proof (proj1 Hh) as Hd. destruct op; cbn [run_hash_op spec_hash_op].
  - destruct (hash_set_abs f x t h Hh) as (H1 & H2 & H3). destruct (hash_set f x t h). cbn [fst snd] in *. by rewrite H2, H3.
  - unfold hash_set_nx. rewrite hash_contains_spec by done. destruct (hash_set_abs f x t h Hh) as (H1 & _ & H3).
    case_bool_decide as Hf; cbn [fst snd].
    + split; [done|]. destruct Hf as [y Hy]. by rewrite hash_abs_lookup, Hy.
    + apply eq_None_not_Some in Hf. destruct (hash_abs_new f h Hh Hf) as [Ha _]. rewrite H3, Ha. done.
  - destruct (hash_del_abs f h Hh) as (H1 & H2 & H3). destruct (hash_del f h). cbn [fst snd] in *. by rewrite H2, H3.
  - rewrite hash_contains_spec by done. rewrite (bool_decide_ext _ (is_Some (hash_abs h !! f))) by (by rewrite hash_abs_lookup, fmap_is_Some).
    case_bool_decide as Hf; cbn [fst snd].
    + rewrite hash_abs_lookup, fmap_is_Some in Hf. destruct (set_field_ttl_abs f deadline h Hh Hf) as [H1 ->]. done.
    + split; [done|]. f_equal. symmetry. apply map_eq. intros g. destruct (decide (f = g)) as [<-|Hg];
        [|by rewrite lookup_alter_ne]. rewrite lookup_alter_eq. apply eq_None_not_Some in Hf. by rewrite Hf.
  - destruct (clear_field_ttl_abs f h Hh) as (H1 & H2 & H3). destruct (clear_field_ttl f h). cbn [fst snd] in *. by rewrite H2, H3.
  - destruct (reap_expired_fields_abs now h Hh) as (H1 & H2 & H3). destruct (reap_expired_fields now h). cbn [fst snd] in *. by rewrite H2, H3.
  - split; [done|]. rewrite hash_get_spec, hash_abs_lookup by done. cbn. f_equal. f_equal. by destruct (hmap (h_data h) !! f).
  - split; [done|]. cbn. f_equal. f_equal. destruct (hmap (h_data h) !! f) eqn:E.
    + by rewrite hash_abs_lookup, E.
    + by destruct (hash_abs_new f h Hh E) as [-> ->].
  - split; [done|]. by rewrite hash_len_spec, size_abs.
Qed.

Lemma run_hash_op_kept t op h : (large h → large (run_hash_op t op h).2) ∧
  ∀ E W, hash_max_listpack_entries t ≤ E → hash_max_listpack_value t ≤ W → hash_within E W h → hash_within E W (run_hash_op t op h).2.
Proof.
  assert (∀ f h, large h → large (hash_del f h).2) as Hl by (intros f h'; unfold large; rewrite hash_del_data; by destruct (h_data h')).
  assert (∀ f h, h_data (clear_field_ttl f h).2 = h_data h) as Hc by (intros; apply clear_data).
  destruct op; cbn [run_hash_op]; try done.
  - pose proof (large_set f x t h). pose proof (λ E W, hash_within_set E W f x t h). destruct (hash_set f x t h). done.
  - unfold hash_set_nx. destruct (hash_contains f h); [done|]. cbn [snd]. split; [apply large_set|intros; by apply hash_within_set].
  - pose proof (Hl f h). pose proof (λ E W, hash_within_del E W f h). destruct (hash_del f h). split; [done|]. intros; by auto.
  - destruct (hash_contains f h); done.
  - unfold large, hash_within. pose proof (Hc f h) as E. destruct (clear_field_ttl f h). cbn [snd] in *. by rewrite E.
  - pose proof (kept_by_reap large now h Hl). pose proof (λ E W, kept_by_reap (hash_within E W) now h (λ f h, hash_within_del E W f h)).
    destruct (reap_expired_fields now h). split; [done|]. intros; by auto.
Qed.

Lemma hash_pairs_perm h : data_ok (h_data h) → hash_pairs h ≡ₚ map_to_list (hmap (h_data h)).
Proof.
  unfold hash_pairs. destruct (h_data h) as [v|m]; cbn; intros Hd.
  - symmetry. by apply map_to_list_to_map.
  - apply merge_sort_Permutation.
Qed.

(** (C12) A hash value is the map from its fields to their values and deadlines:
    whatever the operations and whatever thresholds are in force at each, the
    answers and the map are those of the plain map, a field keeps its deadline
    through an overwrite and loses it with the field, and reaping removes exactly
    the fields that are due; the pairs listed are those of the map; a listpack is
    within the largest thresholds that were in force, and once a hash table it
    stays one. *)
Theorem hash_refines (before after : list (EncodingThresholds * hash_op)) (E W : N) :
  Forall (λ o, hash_max_listpack_entries o.1 ≤ E ∧ hash_max_listpack_value o.1 ≤ W) (before ++ after) →
  let run := run_all (λ o, run_hash_op o.1 o.2) in
  let h := (run before hash_new).2 in
  let h' := (run (before ++ after) hash_new).2 in
  ((run (before ++ after) hash_new).1, hash_abs h') = run_all spec_hash_op (before ++ after).*2 ∅ ∧
  hash_pairs h' ≡ₚ map_to_list (fst <$> hash_abs h') ∧
  (hash_encoding h' ≠ EHashTable →
     N.of_nat (hash_len h') ≤ E ∧ Forall (λ y, len y.1 ≤ W ∧ len y.2 ≤ W) (hash_pairs h')) ∧
  (hash_encoding h = EHashTable → hash_encoding h' = EHashTable).
Proof.
  intros Ht run h h'. assert (hash_ok hash_new) as H0.
  { split; [constructor|]. split; [done|]. intros f [d [=]]. }
  destruct (run_all_refines (λ o, run_hash_op o.1 o.2) spec_hash_op snd hash_abs hash_ok (λ o s Hs, run_hash_op_ok o.1 o.2 s Hs)
    (before ++ after) hash_new H0) as [I1 I2]. fold run in I1, I2. fold h' in I1, I2.
  split; [by rewrite I2|]. split; [|split].
  - rewrite hash_pairs_perm by apply I1. apply reflexive_eq. f_equal. apply map_eq. intros f.
    rewrite lookup_fmap, hash_abs_lookup. by destruct (hmap (h_data h') !! f).
  - assert (hash_within E W h') as Hw.
    { apply (run_all_keeps _ (hash_within E W)); [|split; [apply N.le_0_l|by apply Forall_nil]]. intros o s Ho.
      rewrite Forall_forall in Ht. destruct (Ht o Ho). by apply run_hash_op_kept. }
    unfold hash_encoding, hash_within, hash_len, hash_pairs in *. by destruct (h_data h').
  - assert (∀ h, hash_encoding h = EHashTable ↔ large h) as Hl.
    { intros k. unfold hash_encoding, large. destruct (h_data k); [case_decide; split; done|done]. }
    rewrite !Hl. unfold h', h, run. rewrite run_all_app. cbn [snd]. apply run_all_keeps. intros o s _. apply run_hash_op_kept.
Qed.

Definition example_hash_ops : list (EncodingThresholds * hash_op) :=
  map (pair defaults) [HSet (str "a") (str "1"); HExpire (str "a") 10; HSet (str "b") (str "2"); HSet (str "a") (str "3"); HReap 10; HLen].

Lemma hash_refines_witness :
  (run_all (λ o, run_hash_op o.1 o.2) (example_hash_ops ++ []) hash_new).1 =
  [HBool true; HBool true; HBool true; HBool false; HFields {[str "a"]}; HSize 1].
Proof.
  transitivity (run_all spec_hash_op (example_hash_ops ++ []).*2 ∅).1; [|by vm_compute].
  apply (f_equal fst (proj1 (hash_refines example_hash_ops [] 512 64
    ltac:(repeat (apply Forall_cons; split; [by split|]); by apply Forall_nil)))).
Defined.
