(* ===== verification/ValuesSets.v ===== *)
(** * Set values

    The three resident forms of a set, the sorted integers among them, against
    the finite set of members. *)

From Stdlib Require Import Lia ZArith NArith.
From S2P Require Import Prelude Resp Keyspace Values ValuesText ValuesProofs.
From stdpp Require Import strings gmap sorting.

#[local] Open Scope N_scope.

(** ** Sorted integers *)

Section leading.
Context {A} (P : A → Prop) `{!∀ x, Decision (P x)}.

Lemma leading_spec l : Forall P (take (leading P l) l) ∧ ∀ x, l !! leading P l = Some x → ¬ P x.
Proof.
  induction l as [|x l [IH1 IH2]]; [done|]. cbn. case_decide; cbn; [split; [by constructor|done]|]. split; [done|]. by intros y [= <-].
Qed.

Lemma leading_le l : (leading P l ≤ length l)%nat.
Proof. induction l as [|x l IH]; [done|]. cbn. case_decide; lia. Qed.
End leading.

(** Where a sorted vector splits around [n]. *)
Lemma binary_search_split (n : Z) v : StronglySorted Z.lt v →
  match binary_search n v with
  | inl i => ∃ l1 l2, v = l1 ++ n :: l2 ∧ length l1 = i
  | inr i => ∃ l1 l2, v = l1 ++ l2 ∧ length l1 = i ∧ Forall (λ x, x < n)%Z l1 ∧ Forall (λ x, n < x)%Z l2
  end.
Proof.
  intros Hs. unfold binary_search. destruct (leading_spec (λ x, x < n)%Z v) as [H1 H2].
  pose proof (leading_le (λ x, x < n)%Z v) as H3. set (i := leading (λ x, x < n)%Z v) in *. case_decide as Hi.
  - exists (take i v), (drop (S i) v). rewrite length_take. split; [|lia]. symmetry. by apply take_drop_middle.
  - exists (take i v), (drop i v). rewrite take_drop, length_take. split; [done|]. split; [lia|]. split; [done|].
    destruct (drop i v) as [|x l] eqn:E; [constructor|]. assert (v !! i = Some x) as Hx.
    { rewrite <- (Nat.add_0_r i), <- lookup_drop, E. done. }
    specialize (H2 x Hx). assert (n < x)%Z by (destruct (decide (x = n)); [congruence|lia]).
    assert (StronglySorted Z.lt (x :: l)) as [_ Hl]%StronglySorted_inv by (rewrite <- E; rewrite <- (take_drop i v) in Hs; by eapply StronglySorted_app_1_r).
    constructor; [done|]. eapply Forall_impl; [done|]. cbn. intros; lia.
Qed.

Lemma StronglySorted_middle v1 v2 (n : Z) : StronglySorted Z.lt (v1 ++ v2) → Forall (λ x, x < n)%Z v1 → Forall (λ x, n < x)%Z v2 →
  StronglySorted Z.lt (v1 ++ n :: v2).
Proof.
  induction v1 as [|x v1 IH]; cbn; intros Hs H1 H2; [by constructor|]. apply StronglySorted_inv in Hs as [Hs Hx].
  apply Forall_cons in H1 as [Hn H1]. constructor; [by apply IH|]. apply Forall_app in Hx as [X1 X2]. apply Forall_app. split; [done|].
  constructor; done.
Qed.

Lemma StronglySorted_remove v1 v2 (n : Z) : StronglySorted Z.lt (v1 ++ n :: v2) → StronglySorted Z.lt (v1 ++ v2).
Proof.
  induction v1 as [|x v1 IH]; cbn; intros [Hs Hx]%StronglySorted_inv; [done|]. constructor; [by apply IH|].
  apply Forall_app in Hx as [X1 [_ X2]%Forall_cons]. by apply Forall_app.
Qed.

Lemma StronglySorted_NoDup (v : list Z) : StronglySorted Z.lt v → NoDup v.
Proof. induction 1 as [|x v _ IH Hx]; constructor; [|done]. intros Hin. rewrite Forall_forall in Hx. specialize (Hx x Hin). lia. Qed.

(** ** The set it stands for *)

Definition smap (s : SetVal) : gset (list byte) :=
  match s with
  | SIntSet v => list_to_set (map i64_to_str v)
  | SListPack v => list_to_set v
  | STable m => m
  end.

Definition set_ok (s : SetVal) : Prop :=
  match s with
  | SIntSet v => StronglySorted Z.lt v ∧ Forall in_i64 v
  | SListPack v => NoDup v
  | STable _ => True
  end.

Lemma printed_elem n v : in_i64 n → Forall in_i64 v → i64_to_str n ∈ map i64_to_str v ↔ n ∈ v.
Proof.
  intros Hn Hv. rewrite list_elem_of_fmap. split; [|by eauto]. intros (m & E & Hm). rewrite Forall_forall in Hv.
  by rewrite (i64_to_str_inj n m Hn (Hv m Hm) E).
Qed.

Lemma printed_NoDup v : Forall in_i64 v → NoDup v → NoDup (map i64_to_str v).
Proof.
  induction 1 as [|n v Hn Hv IH]; intros Hd; [constructor|]. apply NoDup_cons in Hd as [Hin Hd]. cbn. constructor; [|by apply IH].
  by rewrite printed_elem.
Qed.

Lemma not_printed m v : parse_canonical_int m = None → Forall in_i64 v → m ∉ map i64_to_str v.
Proof.
  intros Hp Hv (n & -> & Hn)%list_elem_of_fmap. rewrite Forall_forall in Hv.
  assert (parse_canonical_int (i64_to_str n) = Some n) as E by (apply parse_canonical_int_spec; auto). congruence.
Qed.

(** An integer form answers for the text of an integer by its value. *)
Lemma intset_find m n v : parse_canonical_int m = Some n → StronglySorted Z.lt v → Forall in_i64 v →
  match binary_search n v with inl _ => m ∈ smap (SIntSet v) | inr _ => m ∉ smap (SIntSet v) end.
Proof.
  intros [Hn ->]%parse_canonical_int_spec Hs Hv. pose proof (binary_search_split n v Hs) as H. cbn [smap].
  destruct (binary_search n v); rewrite elem_of_list_to_set, printed_elem by done.
  - destruct H as (l1 & l2 & -> & _). rewrite elem_of_app, elem_of_cons. tauto.
  - destruct H as (l1 & l2 & -> & _ & H1 & H2). rewrite elem_of_app. rewrite Forall_forall in H1, H2.
    intros [Hi|Hi]; [specialize (H1 n Hi)|specialize (H2 n Hi)]; lia.
Qed.

Lemma convert_spec s : set_ok s →
  set_ok (set_convert_to_hashtable s) ∧ smap (set_convert_to_hashtable s) = smap s ∧
  set_ok (convert_intset_to_listpack s) ∧ smap (convert_intset_to_listpack s) = smap s.
Proof. destruct s; try done. intros [Hs Hv]. split; [done|]. split; [done|]. split; [|done]. apply printed_NoDup; [done|]. by apply StronglySorted_NoDup. Qed.

Lemma listpack_add_spec m t v : NoDup v →
  (listpack_add m t v).1 = bool_decide (m ∉ smap (SListPack v)) ∧ set_ok (listpack_add m t v).2 ∧
  smap (listpack_add m t v).2 = {[ m ]} ∪ smap (SListPack v).
Proof.
  intros Hnd. unfold listpack_add. case_decide as Hm.
  - cbn. split; [rewrite bool_decide_eq_false_2; set_solver|]. split; [done|]. set_solver.
  - cbn [fst snd]. assert (set_ok (SListPack (v ++ [m]))) as Hok.
    { apply NoDup_app. split; [done|]. split; [set_solver|]. apply NoDup_singleton. }
    destruct (convert_spec _ Hok) as (C1 & C2 & _). split; [rewrite bool_decide_eq_true_2; [done|cbn; set_solver]|].
    destruct (set_listpack_overflows _ _ _); (split; [done|]); rewrite ?C2; cbn [smap]; set_solver.
Qed.

Lemma add_int_spec n m t v : parse_canonical_int m = Some n → StronglySorted Z.lt v → Forall in_i64 v →
  (add_int n m t v).1 = bool_decide (m ∉ smap (SIntSet v)) ∧ set_ok (add_int n m t v).2 ∧
  smap (add_int n m t v).2 = {[ m ]} ∪ smap (SIntSet v).
Proof.
  intros Hp Hs Hv. pose proof (intset_find m n v Hp Hs Hv) as Hf. pose proof (binary_search_split n v Hs) as Hb.
  apply parse_canonical_int_spec in Hp as [Hn ->]. unfold add_int. destruct (binary_search n v) as [i|i]; cbn [fst snd].
  - rewrite bool_decide_eq_false_2 by tauto. split; [done|]. split; [done|]. set_solver.
  - rewrite bool_decide_eq_true_2 by done. split; [done|]. destruct Hb as (l1 & l2 & -> & <- & H1 & H2).
    unfold insert_at. rewrite take_app_length, drop_app_length.
    assert (set_ok (SIntSet (l1 ++ n :: l2))) as Hok.
    { split; [by apply StronglySorted_middle|]. apply Forall_app in Hv as [V1 V2]. apply Forall_app. auto. }
    assert (smap (SIntSet (l1 ++ n :: l2)) = {[ i64_to_str n ]} ∪ smap (SIntSet (l1 ++ l2))) as Em.
    { cbn [smap]. rewrite !map_app. cbn [map]. set_solver. }
    destruct (convert_spec _ Hok) as (C1 & C2 & C3 & C4).
    repeat case_match; (split; [done|]); by rewrite ?C2, ?C4, ?Em.
Qed.

Lemma set_add_spec m t s : set_ok s →
  (set_add m t s).1 = bool_decide (m ∉ smap s) ∧ set_ok (set_add m t s).2 ∧ smap (set_add m t s).2 = {[ m ]} ∪ smap s.
Proof.
  destruct s as [v|v|x]; cbn [set_add]; intros Hok; [|by apply listpack_add_spec|done].
  destruct Hok as [Hs Hv]. destruct (parse_canonical_int m) as [n|] eqn:Hp; [by apply add_int_spec|].
  apply (listpack_add_spec m t (map i64_to_str v)). apply printed_NoDup; [done|]. by apply StronglySorted_NoDup.
Qed.

Lemma set_remove_spec m s : set_ok s →
  (set_remove m s).1 = bool_decide (m ∈ smap s) ∧ set_ok (set_remove m s).2 ∧ smap (set_remove m s).2 = smap s ∖ {[ m ]}.
Proof.
  destruct s as [v|v|x]; cbn [set_remove]; intros Hok; [| |done].
  - destruct Hok as [Hs Hv]. destruct (parse_canonical_int m) as [n|] eqn:Hp.
    + pose proof (intset_find m n v Hp Hs Hv) as Hf. pose proof (binary_search_split n v Hs) as Hb. pose proof (StronglySorted_NoDup v Hs) as Hd.
      apply parse_canonical_int_spec in Hp as [Hn ->]. destruct (binary_search n v) as [i|i]; cbn [fst snd].
      * rewrite bool_decide_eq_true_2 by done. split; [done|]. destruct Hb as (l1 & l2 & -> & <-).
        apply Forall_app in Hv as [V1 [_ V2]%Forall_cons].
        destruct (list_remove_at_middle (l1 ++ n :: l2) (length l1) n) as (k1 & k2 & Ek & El & ->); [by apply list_lookup_middle|].
        apply app_inj_1 in Ek as [-> Ek]; [|done]. injection Ek as ->. split; [split; [by eapply StronglySorted_remove|by apply Forall_app]|].
        cbn [smap]. rewrite !map_app. cbn [map]. rewrite NoDup_app, NoDup_cons in Hd. destruct Hd as (_ & Hd1 & Hd2 & _).
        assert (i64_to_str n ∉ map i64_to_str k1) by (rewrite printed_elem by done; set_solver).
        assert (i64_to_str n ∉ map i64_to_str k2) by (rewrite printed_elem by done; set_solver).
        rewrite !list_to_set_app_L, list_to_set_cons. set_solver.
      * rewrite bool_decide_eq_false_2 by done. split; [done|]. split; [done|]. set_solver.
    + assert (m ∉ smap (SIntSet v)) as Hm by (cbn [smap]; rewrite elem_of_list_to_set; by apply not_printed).
      cbn [fst snd]. rewrite bool_decide_eq_false_2 by done. split; [done|]. split; [done|]. set_solver.
  - cbn in Hok. destruct (find_pos (λ y, y = m) v) as [i|] eqn:E; cbn [fst snd].
    + apply find_pos_Some in E as (y & Hi & -> & _). destruct (list_remove_at_middle _ _ _ Hi) as (l1 & l2 & -> & _ & ->).
      apply NoDup_app in Hok as (N1 & N2 & [N3 N4]%NoDup_cons). cbn [smap set_ok].
      rewrite bool_decide_eq_true_2 by set_solver. split; [done|]. split; [apply NoDup_app; set_solver|]. set_solver.
    + apply find_pos_None in E. rewrite Forall_forall in E. assert (m ∉ v) by (intros Hm; by apply (E m)).
      cbn [smap]. rewrite bool_decide_eq_false_2 by set_solver. split; [done|]. split; [done|]. set_solver.
Qed.

Lemma set_contains_spec m s : set_ok s → set_contains m s = bool_decide (m ∈ smap s).
Proof.
  destruct s as [v|v|x]; cbn [set_contains]; intros Hok; [| |done].
  - destruct Hok as [Hs Hv]. destruct (parse_canonical_int m) as [n|] eqn:Hp.
    + pose proof (intset_find m n v Hp Hs Hv) as Hf. destruct (binary_search n v); symmetry;
        [by apply bool_decide_eq_true_2|by apply bool_decide_eq_false_2].
    + symmetry. apply bool_decide_eq_false_2. cbn [smap]. rewrite elem_of_list_to_set. by apply not_printed.
  - apply bool_decide_ext. cbn [smap]. by rewrite elem_of_list_to_set.
Qed.

Lemma members_spec s : set_ok s → members s ≡ₚ elements (smap s) ∧ set_card s = size (smap s).
Proof.
  destruct s as [v|v|x]; cbn [members set_card smap set_ok]; intros Hok.
  - destruct Hok as [Hs Hv]. assert (NoDup (map i64_to_str v)) as Hd by (apply printed_NoDup; [done|by apply StronglySorted_NoDup]).
    split; [by rewrite elements_list_to_set|]. rewrite size_list_to_set by done. symmetry. apply length_map.
  - split; [by rewrite elements_list_to_set|]. by rewrite size_list_to_set.
  - split; [|done]. apply merge_sort_Permutation.
Qed.

(** ** The ladder *)

Definition rung (s : SetVal) : nat := match s with SIntSet _ => 0 | SListPack _ => 1 | STable _ => 2 end.

(** Integers up to [I], a listpack up to [E] members. *)
Definition set_within (I E : N) (s : SetVal) : Prop :=
  match s with SIntSet v => len v ≤ I | SListPack v => len v ≤ E | STable _ => True end.

Lemma listpack_add_kept m t v E : set_max_listpack_entries t ≤ E → (m ∈ v → len v ≤ E) →
  (1 ≤ rung (listpack_add m t v).2)%nat ∧ ∀ I, set_within I E (listpack_add m t v).2.
Proof.
  intros HE Hv. unfold listpack_add. case_decide; [split; [done|]; intros I; by apply Hv|]. cbn [snd]. unfold set_listpack_overflows.
  case_bool_decide as Ho; [split; [cbn; lia|done]|]. split; [done|]. intros I. cbn. unfold len. lia.
Qed.

Lemma set_add_kept m t s : set_ok s → (rung s ≤ rung (set_add m t s).2)%nat ∧
  ∀ I E, set_max_intset_entries t ≤ I → set_max_listpack_entries t ≤ E → set_within I E s → set_within I E (set_add m t s).2.
Proof.
  destruct s as [v|v|x]; cbn [set_add rung]; intros Hok; [| |done].
  - destruct Hok as [Hs Hv]. split; [lia|]. intros I E HI HE Hw. destruct (parse_canonical_int m) as [n|] eqn:Hp.
    + unfold add_int. destruct (binary_search n v) as [i|i]; [done|]. cbn [snd]. case_decide; [|cbn; lia].
      unfold set_listpack_overflows. case_bool_decide; [done|]. cbn. unfold len. rewrite length_map. lia.
    + apply listpack_add_kept; [done|]. intros Hm. by destruct (not_printed m v).
  - split.
    + apply (listpack_add_kept m t v (N.max (set_max_listpack_entries t) (len v))); lia.
    + intros I E HI HE Hw. by apply listpack_add_kept.
Qed.

Lemma set_remove_kept m s : rung (set_remove m s).2 = rung s ∧ ∀ I E, set_within I E s → set_within I E (set_remove m s).2.
Proof.
  assert (∀ A (l : list A) i, len (list_remove_at i l) ≤ len l) as Hl.
  { intros A l i. unfold list_remove_at, len. rewrite length_app, length_take, length_drop. lia. }
  destruct s as [v|v|x]; cbn [set_remove]; [| |done].
  - destruct (parse_canonical_int m) as [n|]; [|done]. destruct (binary_search n v); [|done]. split; [done|]. cbn. intros I E Hw.
    etrans; [apply Hl|done].
  - destruct (find_pos _ v); [|done]. split; [done|]. cbn. intros I E Hw. etrans; [apply Hl|done].
Qed.

(** ** Operations *)

Inductive set_op := SAdd (m : list byte) | SRem (m : list byte) | SIsMember (m : list byte) | SCard.
Inductive set_answer := SBool (b : bool) | SSize (n : nat).

Definition run_set_op (t : EncodingThresholds) (op : set_op) (s : SetVal) : set_answer * SetVal :=
  match op with
  | SAdd m => let '(b, s) := set_add m t s in (SBool b, s)
  | SRem m => let '(b, s) := set_remove m s in (SBool b, s)
  | SIsMember m => (SBool (set_contains m s), s)
  | SCard => (SSize (set_card s), s)
  end.

Definition spec_set_op (op : set_op) (x : gset (list byte)) : set_answer * gset (list byte) :=
  match op with
  | SAdd m => (SBool (bool_decide (m ∉ x)), {[ m ]} ∪ x)
  | SRem m => (SBool (bool_decide (m ∈ x)), x ∖ {[ m ]})
  | SIsMember m => (SBool (bool_decide (m ∈ x)), x)
  | SCard => (SSize (size x), x)
  end.

Lemma run_set_op_ok t op s : set_ok s →
  set_ok (run_set_op t op s).2 ∧ ((run_set_op t op s).1, smap (run_set_op t op s).2) = spec_set_op op (smap s).
Proof.
  intros Hs. destruct op; cbn [run_set_op spec_set_op].
  - destruct (set_add_spec m t s Hs) as (H1 & H2 & H3). destruct (set_add m t s). cbn [fst snd] in *. by rewrite H1, H3.
  - destruct (set_remove_spec m s Hs) as (H1 & H2 & H3). destruct (set_remove m s). cbn [fst snd] in *. by rewrite H1, H3.
  - by rewrite set_contains_spec.
  - by rewrite (proj2 (members_spec s Hs)).
Qed.

Lemma run_set_op_kept t op s : set_ok s → (rung s ≤ rung (run_set_op t op s).2)%nat ∧
  ∀ I E, set_max_intset_entries t ≤ I → set_max_listpack_entries t ≤ E → set_within I E s → set_within I E (run_set_op t op s).2.
Proof.
  intros Hs. destruct op; cbn [run_set_op]; try done.
  - pose proof (set_add_kept m t s Hs) as H. by destruct (set_add m t s).
  - pose proof (set_remove_kept m s) as [H1 H2]. destruct (set_remove m s). cbn [snd] in *. split; [lia|auto].
Qed.

(** (C11) A set value is the set of its members: whatever the operations and whatever
    thresholds are in force at each, the answers, the members and their number are
    those of the plain set, integers held by value included; the integer form is
    sorted; each small form is within the largest threshold on its entries that
    was in force; and the form only moves up, from integers to a listpack to a
    hash table. *)
Theorem set_refines (before after : list (EncodingThresholds * set_op)) (I E : N) :
  Forall (λ o, set_max_intset_entries o.1 ≤ I ∧ set_max_listpack_entries o.1 ≤ E) (before ++ after) →
  let run := run_all (λ o, run_set_op o.1 o.2) in
  let s := (run before set_new).2 in
  let s' := (run (before ++ after) set_new).2 in
  ((run (before ++ after) set_new).1, smap s') = run_all spec_set_op (before ++ after).*2 ∅ ∧
  members s' ≡ₚ elements (smap s') ∧
  match s' with
  | SIntSet v => StronglySorted Z.lt v ∧ len v ≤ I
  | SListPack v => len v ≤ E
  | STable _ => True
  end ∧
  (rung s ≤ rung s')%nat.
Proof.
  intros Ht run s s'. assert (set_ok set_new) as H0 by (split; constructor).
  destruct (run_all_refines (λ o, run_set_op o.1 o.2) spec_set_op snd smap set_ok (λ o s Hs, run_set_op_ok o.1 o.2 s Hs)
    (before ++ after) set_new H0) as [I1 I2]. fold run in I1, I2. fold s' in I1, I2.
  destruct (run_all_refines (λ o, run_set_op o.1 o.2) spec_set_op snd smap set_ok (λ o s Hs, run_set_op_ok o.1 o.2 s Hs)
    before set_new H0) as [J1 _]. fold run in J1. fold s in J1.
  split; [by rewrite I2|]. split; [by apply members_spec|]. split.
  - assert (set_ok s' ∧ set_within I E s') as [K1 K2]; [|destruct s'; naive_solver].
    apply (run_all_keeps _ (λ s, set_ok s ∧ set_within I E s)); [|by split; [|apply N.le_0_l]]. intros o k Ho [Hk Hw].
    rewrite Forall_forall in Ht. destruct (Ht o Ho). split; [by apply run_set_op_ok|by apply run_set_op_kept].
  - enough (set_ok s' ∧ (rung s ≤ rung s')%nat) as [_ ?] by done. unfold s', run at 1 2. rewrite run_all_app. cbn [snd].
    apply (run_all_keeps _ (λ k, set_ok k ∧ (rung s ≤ rung k)%nat)); [|done]. intros o k _ [Hk Hr].
    split; [by apply run_set_op_ok|]. destruct (run_set_op_kept o.1 o.2 k Hk) as [? _]. lia.
Qed.

Definition example_set_ops : list (EncodingThresholds * set_op) :=
  map (pair defaults) [SAdd (str "10"); SAdd (str "9"); SAdd (str "010"); SRem (str "9"); SIsMember (str "10"); SCard].

Lemma set_refines_witness :
  (run_all (λ o, run_set_op o.1 o.2) (example_set_ops ++ []) set_new).1 =
  [SBool true; SBool true; SBool true; SBool true; SBool true; SSize 2].
Proof.
  transitivity (run_all spec_set_op (example_set_ops ++ []).*2 ∅).1; [|by vm_compute].
  apply (f_equal fst (proj1 (set_refines example_set_ops [] 512 128
    ltac:(repeat (apply Forall_cons; split; [by split|]); by apply Forall_nil)))).
Defined.

(** The threshold on member length looks at the member being added only: an
    intset that turns into a listpack keeps its integers there however long their
    texts are. *)
Example listpack_holds_long_integer :
  let t := mkThresholds 512 64 (-2) 512 128 4 128 64 in
  (run_all (λ o, run_set_op o.1 o.2) [(t, SAdd (str "1234567890")); (t, SAdd (str "x"))] set_new).2 =
  SListPack [str "1234567890"; str "x"].
Proof. by vm_compute. Qed.
