(* ===== verification/ValuesZset.v ===== *)
(** * Sorted set values

    The two resident forms of a sorted set against the finite map from members to
    scores, read in the order of score and member. *)

From Stdlib Require Import Lia ZArith NArith.
From S2P Require Import Prelude Resp Keyspace Values ValuesProofs ValuesHash ValuesSets.
From stdpp Require Import strings gmap sorting.

#[local] Open Scope N_scope.

(** ** The order of entries *)

Lemma total_key_inj a b : total_key a = total_key b → a = b.
Proof. unfold total_key. repeat case_decide; lia. Qed.

#[global] Instance zentry_le_total : Total entry_le.
Proof.
  intros [m a] [n b]. unfold entry_le, bytes_le. cbn. destruct (Z.lt_trichotomy (total_key a) (total_key b)) as [?|[E|?]]; [auto| |auto].
  rewrite E. destruct (bytes_leb_total m n); auto.
Qed.

#[global] Instance zentry_le_trans : Transitive entry_le.
Proof.
  intros [m a] [n b] [o c]. unfold entry_le, bytes_le. cbn. intros [?|[E1 ?]] [?|[E2 ?]]; try (left; lia).
  right. split; [congruence|]. by eapply bytes_leb_trans.
Qed.

#[global] Instance zentry_le_antisymm : AntiSymm (=) entry_le.
Proof.
  intros [m a] [n b]. unfold entry_le, bytes_le. cbn. intros [?|[E1 ?]] [?|[E2 ?]]; try lia.
  f_equal; [by apply bytes_leb_antisymm|by apply total_key_inj].
Qed.

Lemma entry_lt_le x y : entry_lt x y → entry_le x y.
Proof. unfold entry_lt. destruct (total entry_le x y); tauto. Qed.

(** The entries of a map in order, and the only list that is that. *)
Definition in_order (m : gmap (list byte) N) : list (list byte * N) := merge_sort entry_le (map_to_list m).

Lemma in_order_unique m l : StronglySorted entry_le l → l ≡ₚ map_to_list m → l = in_order m.
Proof.
  intros Hs Hp. apply (StronglySorted_unique entry_le); [done|apply (StronglySorted_merge_sort _)|]. unfold in_order.
  by rewrite merge_sort_Permutation.
Qed.

(** ** The map it stands for *)

Definition zmap (z : ZSetVal) : gmap (list byte) N :=
  match z with ZListPack v => list_to_map v | ZSkipList _ scores => scores end.

(** A listpack is sorted with one entry a member; the index of a skiplist holds
    exactly the pairs of the score table. *)
Definition zset_ok (z : ZSetVal) : Prop :=
  match z with
  | ZListPack v => NoDup v.*1 ∧ StronglySorted entry_le v
  | ZSkipList index scores => ∀ m s, (m, s) ∈ index ↔ scores !! m = Some s
  end.

Lemma ordered_spec z : zset_ok z → ordered z = in_order (zmap z).
Proof.
  destruct z as [v|index scores]; cbn; intros Hz.
  - apply in_order_unique; [apply Hz|]. symmetry. apply map_to_list_to_map, Hz.
  - apply in_order_unique; [apply (StronglySorted_merge_sort _)|]. rewrite merge_sort_Permutation.
    apply NoDup_Permutation; [apply NoDup_elements|apply NoDup_map_to_list|].
    intros [m s]. by rewrite elem_of_elements, elem_of_map_to_list.
Qed.

Lemma convert_to_skiplist_spec z : zset_ok z → zset_ok (convert_to_skiplist z) ∧ zmap (convert_to_skiplist z) = zmap z.
Proof.
  destruct z as [v|index scores]; [|done]. cbn. intros [Hnd Hs]. rewrite foldl_insert_spec by done. split; [|done].
  intros m s. rewrite elem_of_list_to_set. split; [by apply elem_of_list_to_map_1|by apply elem_of_list_to_map_2].
Qed.

Lemma insert_sorted_perm m s v : listpack_insert_sorted m s v ≡ₚ (m, s) :: v.
Proof. unfold listpack_insert_sorted, insert_at. rewrite <- Permutation_middle. by rewrite take_drop. Qed.

Lemma insert_sorted_spec m s v : StronglySorted entry_le v →
  StronglySorted entry_le (listpack_insert_sorted m s v) ∧ listpack_insert_sorted m s v ≡ₚ (m, s) :: v.
Proof.
  intros Hs. split; [|apply insert_sorted_perm]. unfold listpack_insert_sorted, insert_at. destruct (leading_spec (λ x, entry_lt x (m, s)) v) as [H1 H2].
  set (i := leading (λ x, entry_lt x (m, s)) v) in *.
  assert (Forall (λ x, entry_le x (m, s)) (take i v)) as H1' by (eapply Forall_impl; [done|]; intros x; apply entry_lt_le).
  assert (Forall (entry_le (m, s)) (drop i v)) as H2'.
  { destruct (drop i v) as [|x l] eqn:E; [constructor|]. assert (v !! i = Some x) as Hx.
    { rewrite <- (Nat.add_0_r i), <- lookup_drop, E. done. }
    assert (entry_le (m, s) x) as Hx' by (specialize (H2 x Hx); unfold entry_lt in H2; by apply dec_stable).
    rewrite <- (take_drop i v) in Hs. apply StronglySorted_app_1_r in Hs. rewrite E in Hs. apply StronglySorted_inv in Hs as [_ Hl].
    constructor; [done|]. eapply Forall_impl; [done|]. intros y Hy. by etrans. }
  rewrite <- (take_drop i v) in Hs. apply StronglySorted_app in Hs as (Hx & Hl & Hr). apply StronglySorted_app_2; [|done|by constructor].
  intros x y Hxin [->|Hy]%elem_of_cons; [|by apply Hx]. rewrite Forall_forall in H1'. by apply H1'.
Qed.

Lemma zset_pos_split m (v : list (list byte * N)) : NoDup v.*1 → StronglySorted entry_le v →
  match zset_listpack_pos m v with
  | Some i => ∃ s, v !! i = Some (m, s) ∧ v ≡ₚ (m, s) :: list_remove_at i v ∧ StronglySorted entry_le (list_remove_at i v)
  | None => m ∉ v.*1
  end.
Proof.
  intros Hnd Hs. unfold zset_listpack_pos. destruct (find_pos (λ y, y.1 = m) v) as [i|] eqn:E.
  - apply find_pos_Some in E as ([n s] & Hi & Hn & _). cbn in Hn. subst n. exists s. split; [done|].
    destruct (list_remove_at_middle _ _ _ Hi) as (l1 & l2 & -> & <- & ->). split; [by rewrite Permutation_middle|].
    apply StronglySorted_app in Hs as (Hx & Hl & [_ Hr]%StronglySorted_cons). apply StronglySorted_app_2; [|done|done].
    intros x y Hxin Hy. apply Hx; [done|]. by right.
  - apply find_pos_None in E. rewrite Forall_forall in E. intros ([n s] & -> & Hin)%list_elem_of_fmap. by apply (E (n, s)).
Qed.

Lemma listpack_map m s v l : NoDup v.*1 → v ≡ₚ (m, s) :: l → list_to_map v = <[m := s]> (list_to_map l : gmap (list byte) N) ∧
  (list_to_map l : gmap (list byte) N) !! m = None ∧ NoDup l.*1.
Proof.
  intros Hnd Hp. pose proof Hnd as Hl. rewrite Hp in Hl. apply NoDup_cons in Hl as [Hm Hl].
  split; [by rewrite (list_to_map_proper v _ Hnd Hp)|]. split; [|done]. by apply not_elem_of_list_to_map_1.
Qed.

Lemma zset_score_spec m z : zset_ok z → zset_score m z = zmap z !! m.
Proof.
  destruct z as [v|index scores]; [|done]. cbn. intros [Hnd Hs]. pose proof (zset_pos_split m v Hnd Hs) as H.
  destruct (zset_listpack_pos m v) as [i|]; cbn.
  - destruct H as (s & Hi & Hp & _). rewrite Hi. cbn. destruct (listpack_map m s v _ Hnd Hp) as [-> _]. by rewrite lookup_insert_eq.
  - symmetry. by apply not_elem_of_list_to_map_1.
Qed.

Lemma zset_put_spec m s t z : zset_ok z →
  (zset_put m s t z).1 = bool_decide (zmap z !! m = None) ∧ zset_ok (zset_put m s t z).2 ∧
  zmap (zset_put m s t z).2 = <[m := s]> (zmap z).
Proof.
  destruct z as [v|index scores]; cbn [zset_put]; intros Hz.
  - destruct Hz as [Hnd Hs]. pose proof (zset_pos_split m v Hnd Hs) as H.
    set (p := match zset_listpack_pos m v with Some i => _ | None => _ end : bool * list (list byte * N)).
    assert (∃ l, StronglySorted entry_le p.2 ∧ p.2 ≡ₚ (m, s) :: l ∧ NoDup (m :: l.*1) ∧
              p.1 = bool_decide (zmap (ZListPack v) !! m = None) ∧ <[m := s]> (list_to_map l) = <[m := s]> (zmap (ZListPack v)))
      as (l & P1 & P2 & P3 & P4 & P5).
    { unfold p. cbn [zmap]. destruct (zset_listpack_pos m v) as [i|]; cbn [fst snd].
      - destruct H as (old & _ & Hp & Hr). exists (list_remove_at i v). destruct (insert_sorted_spec m s _ Hr). split; [done|]. split; [done|].
        destruct (listpack_map m old v _ Hnd Hp) as (-> & Hm & Hl). rewrite lookup_insert_eq, insert_insert_eq.
        split; [|done]. constructor; [by apply not_elem_of_list_to_map_2|done].
      - exists v. destruct (insert_sorted_spec m s v Hs). split; [done|]. split; [done|]. split; [by constructor|].
        by rewrite (not_elem_of_list_to_map_1 v m H). }
    destruct p as [new v']. cbn [fst snd] in *. split; [done|].
    assert (zset_ok (ZListPack v')) as Hok by (split; [by rewrite P2|done]).
    assert (zmap (ZListPack v') = <[m := s]> (zmap (ZListPack v))) as Em.
    { rewrite <- P5. cbn [zmap]. apply (listpack_map m s v' l); [by rewrite P2|done]. }
    destruct (convert_to_skiplist_spec _ Hok) as [C1 C2].
    destruct (zset_listpack_overflows _ _ _); (split; [done|]); by rewrite ?C2.
  - cbn in Hz. destruct (scores !! m) as [old|] eqn:E; cbn [fst snd zmap zset_ok]; rewrite E.
    + split; [done|]. split; [|done]. intros n r. rewrite elem_of_union, elem_of_singleton, elem_of_difference, elem_of_singleton, Hz.
      destruct (decide (m = n)) as [<-|Hn]; [rewrite lookup_insert_eq|rewrite lookup_insert_ne by done]; naive_solver.
    + split; [done|]. split; [|done]. intros n r. rewrite elem_of_union, elem_of_singleton, Hz.
      destruct (decide (m = n)) as [<-|Hn]; [rewrite lookup_insert_eq|rewrite lookup_insert_ne by done]; naive_solver.
Qed.

Lemma zset_remove_spec m z : zset_ok z →
  (zset_remove m z).1 = bool_decide (is_Some (zmap z !! m)) ∧ zset_ok (zset_remove m z).2 ∧
  zmap (zset_remove m z).2 = delete m (zmap z).
Proof.
  destruct z as [v|index scores]; cbn [zset_remove]; intros Hz.
  - destruct Hz as [Hnd Hs]. pose proof (zset_pos_split m v Hnd Hs) as H. destruct (zset_listpack_pos m v) as [i|]; cbn [fst snd zmap].
    + destruct H as (s & _ & Hp & Hr). destruct (listpack_map m s v _ Hnd Hp) as (-> & Hm & Hl).
      rewrite lookup_insert_eq, delete_insert_id by done. done.
    + assert ((list_to_map v : gmap (list byte) N) !! m = None) as -> by (by apply not_elem_of_list_to_map_1).
      split; [done|]. split; [done|]. symmetry. apply delete_id. by apply not_elem_of_list_to_map_1.
  - cbn in Hz. destruct (scores !! m) as [old|] eqn:E; cbn [fst snd zmap zset_ok]; rewrite E.
    + split; [done|]. split; [|done]. intros n r. rewrite elem_of_difference, elem_of_singleton, Hz.
      destruct (decide (m = n)) as [<-|Hn]; [rewrite lookup_delete_eq|rewrite lookup_delete_ne by done]; naive_solver.
    + split; [done|]. split; [done|]. symmetry. by apply delete_id.
Qed.

(** ** Removals in bulk *)

(** The map without the members [ms]. *)
Definition without (ms : list (list byte)) (x : gmap (list byte) N) : gmap (list byte) N :=
  filter (λ y : list byte * N, y.1 ∉ ms) x.

Lemma remove_all_spec ms z : zset_ok z → zset_ok (remove_all ms z) ∧ zmap (remove_all ms z) = without ms (zmap z).
Proof.
  unfold remove_all. revert z. induction ms as [|m ms IH]; intros z Hz; cbn [foldl].
  { split; [done|]. unfold without. symmetry. apply map_filter_id. intros. apply not_elem_of_nil. }
  destruct (zset_remove_spec m z Hz) as (_ & H2 & H3). destruct (IH _ H2) as [I1 I2]. split; [done|]. rewrite I2, H3. unfold without.
  apply map_eq. intros n. apply option_eq. intros s. rewrite !map_lookup_filter_Some, lookup_delete_Some, not_elem_of_cons. cbn. naive_solver.
Qed.

(** ** Ranks *)

Lemma filter_every {A} (P : A → Prop) `{!∀ x, Decision (P x)} l : Forall P l → filter P l = l.
Proof. induction 1 as [|x l Hx _ IH]; [done|]. by rewrite filter_cons_True, IH. Qed.

Lemma filter_no_match {A} (P : A → Prop) `{!∀ x, Decision (P x)} l : Forall (λ x, ¬ P x) l → filter P l = [].
Proof. induction 1 as [|x l Hx _ IH]; [done|]. by rewrite filter_cons_False, IH. Qed.

Lemma in_order_spec x : StronglySorted entry_le (in_order x) ∧ in_order x ≡ₚ map_to_list x ∧ NoDup (in_order x).*1.
Proof.
  assert (in_order x ≡ₚ map_to_list x) as Hp by apply merge_sort_Permutation.
  split; [apply (StronglySorted_merge_sort _)|]. split; [done|]. rewrite Hp. apply NoDup_fst_map_to_list.
Qed.

(** The number of entries before, and after, one of a sorted list. *)
Lemma sorted_count (l1 l2 : list (list byte * N)) y : StronglySorted entry_le (l1 ++ y :: l2) → NoDup (l1 ++ y :: l2) →
  length (filter (λ u, entry_lt u y) (l1 ++ y :: l2)) = length l1 ∧ length (filter (λ u, entry_lt y u) (l1 ++ y :: l2)) = length l2.
Proof.
  intros (Hx & _ & [Hr _]%StronglySorted_cons)%StronglySorted_app (_ & Hn & [Hy _]%NoDup_cons)%NoDup_app.
  assert (Forall (λ u, entry_le u y ∧ u ≠ y) l1) as H1.
  { apply Forall_forall. intros u Hu. split; [apply Hx; [done|by left]|]. intros ->. by apply (Hn y Hu); left. }
  assert (Forall (λ u, entry_le y u ∧ u ≠ y) l2) as H2.
  { rewrite Forall_forall in *. intros u Hu. split; [by apply Hr|]. by intros ->. }
  assert (∀ u w, entry_le u w → u ≠ w → entry_lt u w) as Hlt by (intros u w Ha Hb Hc; by apply Hb, (anti_symm entry_le)).
  assert (∀ u w, entry_le u w → ¬ entry_lt w u) as Hnlt by (intros u w Ha Hb; by apply Hb).
  assert (entry_le y y) as Hyy by (destruct (total entry_le y y); done).
  rewrite !filter_app, !filter_cons, !length_app. rewrite !(decide_False (P := entry_lt y y)) by (by apply Hnlt).
  rewrite (filter_every (λ u, entry_lt u y) l1), (filter_no_match (λ u, entry_lt u y) l2),
    (filter_no_match (λ u, entry_lt y u) l1), (filter_every (λ u, entry_lt y u) l2); [cbn; lia|..].
  all: eapply Forall_impl; [done|]; naive_solver.
Qed.

(** The rank of a member is the number of entries below it, in reverse the number
    above it. *)
Definition spec_rank (m : list byte) (reversed : bool) (x : gmap (list byte) N) : option nat :=
  s ← x !! m;
  Some (if reversed then length (filter (λ y, entry_lt (m, s) y) (map_to_list x))
        else length (filter (λ y, entry_lt y (m, s)) (map_to_list x))).

Lemma zset_rank_spec m reversed z : zset_ok z → zset_rank m reversed z = spec_rank m reversed (zmap z).
Proof.
  intros Hz. unfold zset_rank, spec_rank. rewrite ordered_spec by done. destruct (in_order_spec (zmap z)) as (Hs & Hp & Hnd).
  set (o := in_order (zmap z)) in *. rewrite <- (list_to_map_to_list (zmap z)) at 1.
  rewrite <- (list_to_map_proper o _ Hnd Hp). destruct (find_pos (λ y, y.1 = m) o) as [i|] eqn:E; cbn [mbind option_bind].
  - apply find_pos_Some in E as ([n s] & Hi & Hn & _). cbn in Hn. subst n.
    rewrite (elem_of_list_to_map_1 o m s Hnd) by (by eapply list_elem_of_lookup_2). cbn [mbind option_bind]. f_equal.
    destruct (list_remove_at_middle _ _ _ Hi) as (l1 & l2 & Eo & <- & _). rewrite Eo in *.
    destruct (sorted_count l1 l2 (m, s) Hs (NoDup_fmap_1 _ _ Hnd)) as [C1 C2].
    destruct reversed; rewrite <- Hp; [rewrite C2|rewrite C1]; rewrite ?length_app; cbn; lia.
  - apply find_pos_None in E. rewrite Forall_forall in E. rewrite (not_elem_of_list_to_map_1 o m); [done|].
    intros ([n s] & -> & Hin)%list_elem_of_fmap. by apply (E (n, s)).
Qed.

(** ** Operations *)

Inductive zset_op :=
  | ZAdd (m : list byte) (score : N) (f : ZAddFlags)
  | ZIncr (m : list byte) (delta : N) (f : ZAddFlags)
  | ZRem (m : list byte)
  | ZPopMin (count : nat)
  | ZPopMax (count : nat)
  | ZRemByRank (start stop : Z)
  | ZRemByScore (lo hi : ScoreBound)
  | ZRemByLex (lo hi : LexBound)
  | ZScore (m : list byte)
  | ZCard
  | ZRank (m : list byte) (reversed : bool)
  | ZRangeByRank (start stop : Z) (reversed : bool)
  | ZRangeByScore (lo hi : ScoreBound) (reversed : bool) (limit : option (Z * Z))
  | ZRangeByLex (lo hi : LexBound) (reversed : bool) (limit : option (Z * Z))
  | ZCountByScore (lo hi : ScoreBound)
  | ZCountByLex (lo hi : LexBound).

Inductive zset_answer :=
  | ZAdded (o : ZAddOutcome)
  | ZIncred (o : IncrOutcome)
  | ZBool (b : bool)
  | ZEntries (es : list (list byte * N))
  | ZMembers (ms : list (list byte))
  | ZCount (n : nat)
  | ZScored (s : option N)
  | ZRanked (r : option nat).

Definition run_zset_op (t : EncodingThresholds) (op : zset_op) (z : ZSetVal) : zset_answer * ZSetVal :=
  match op with
  | ZAdd m s f => let '(o, z) := zset_add m s f t z in (ZAdded o, z)
  | ZIncr m d f => let '(o, z) := zset_incr m d f t z in (ZIncred o, z)
  | ZRem m => let '(b, z) := zset_remove m z in (ZBool b, z)
  | ZPopMin n => let '(es, z) := pop_min n z in (ZEntries es, z)
  | ZPopMax n => let '(es, z) := pop_max n z in (ZEntries es, z)
  | ZRemByRank a b => let '(n, z) := remove_range_by_rank a b z in (ZCount n, z)
  | ZRemByScore lo hi => let '(n, z) := remove_range_by_score lo hi z in (ZCount n, z)
  | ZRemByLex lo hi => let '(n, z) := remove_range_by_lex lo hi z in (ZCount n, z)
  | ZScore m => (ZScored (zset_score m z), z)
  | ZCard => (ZCount (zset_len z), z)
  | ZRank m r => (ZRanked (zset_rank m r z), z)
  | ZRangeByRank a b r => (ZEntries (range_by_rank a b r z), z)
  | ZRangeByScore lo hi r limit => (ZEntries (range_by_score lo hi r limit z), z)
  | ZRangeByLex lo hi r limit => (ZMembers (range_by_lex lo hi r limit z), z)
  | ZCountByScore lo hi => (ZCount (count_by_score lo hi z), z)
  | ZCountByLex lo hi => (ZCount (count_by_lex lo hi z), z)
  end.

(** The same on the map, read in order. *)

Definition spec_add (m : list byte) (s : N) (f : ZAddFlags) (x : gmap (list byte) N) : ZAddOutcome * gmap (list byte) N :=
  match x !! m with
  | None => if xx f then (mkOutcome false false None, x) else (mkOutcome true true (Some s), <[m := s]> x)
  | Some cur =>
      if nx f || negb (gate_passes cur s f) then (mkOutcome false false (Some cur), x)
      else (mkOutcome false (negb (f64_eq s cur)) (Some s), if f64_eq s cur then x else <[m := s]> x)
  end.

Definition spec_incr (m : list byte) (d : N) (f : ZAddFlags) (x : gmap (list byte) N) : IncrOutcome * gmap (list byte) N :=
  let new := from_option (λ cur, f64_add cur d) d (x !! m) in
  if (if x !! m is Some _ then nx f else xx f) then (Suppressed, x)
  else if is_nan new then (Nan, x)
  else if from_option (λ cur, gate_passes cur new f) true (x !! m) then (Updated new, <[m := new]> x)
  else (Suppressed, x).

(** The entries within bounds, in order. *)
Definition spec_matching (p : list byte * N → bool) (x : gmap (list byte) N) : list (list byte * N) :=
  filter (λ y, p y = true) (in_order x).

Definition flip_if {A} (reversed : bool) (l : list A) : list A := if reversed then rev l else l.

Definition spec_zset_op (op : zset_op) (x : gmap (list byte) N) : zset_answer * gmap (list byte) N :=
  match op with
  | ZAdd m s f => let '(o, x) := spec_add m s f x in (ZAdded o, x)
  | ZIncr m d f => let '(o, x) := spec_incr m d f x in (ZIncred o, x)
  | ZRem m => (ZBool (bool_decide (is_Some (x !! m))), delete m x)
  | ZPopMin n => (ZEntries (take n (in_order x)), without (take n (in_order x)).*1 x)
  | ZPopMax n => (ZEntries (take n (rev (in_order x))), without (take n (rev (in_order x))).*1 x)
  | ZRemByRank a b => (ZCount (length (spec_slice a b (in_order x))), without (spec_slice a b (in_order x)).*1 x)
  | ZRemByScore lo hi =>
      (ZCount (length (spec_matching (by_score lo hi) x)), filter (λ y : list byte * N, by_score lo hi y = false) x)
  | ZRemByLex lo hi => (ZCount (length (spec_matching (by_lex lo hi) x)), filter (λ y : list byte * N, by_lex lo hi y = false) x)
  | ZScore m => (ZScored (x !! m), x)
  | ZCard => (ZCount (size x), x)
  | ZRank m r => (ZRanked (spec_rank m r x), x)
  | ZRangeByRank a b r => (ZEntries (spec_slice a b (flip_if r (in_order x))), x)
  | ZRangeByScore lo hi r limit => (ZEntries (apply_limit (flip_if r (spec_matching (by_score lo hi) x)) limit), x)
  | ZRangeByLex lo hi r limit => (ZMembers (apply_limit (flip_if r (spec_matching (by_lex lo hi) x)).*1 limit), x)
  | ZCountByScore lo hi => (ZCount (length (spec_matching (by_score lo hi) x)), x)
  | ZCountByLex lo hi => (ZCount (length (spec_matching (by_lex lo hi) x)), x)
  end.

Lemma zset_add_spec m s f t z : zset_ok z →
  zset_ok (zset_add m s f t z).2 ∧ ((zset_add m s f t z).1, zmap (zset_add m s f t z).2) = spec_add m s f (zmap z).
Proof.
  intros Hz. destruct (zset_put_spec m s t z Hz) as (_ & P2 & P3). unfold zset_add, spec_add. rewrite zset_score_spec by done.
  destruct (zmap z !! m) as [cur|]; [destruct (nx f || negb (gate_passes cur s f)); [done|]|destruct (xx f); [done|]]; cbn [fst snd].
  - destruct (f64_eq s cur); cbn [negb]; [done|]. by rewrite P3.
  - by rewrite P3.
Qed.

Lemma zset_incr_spec m d f t z : zset_ok z →
  zset_ok (zset_incr m d f t z).2 ∧ ((zset_incr m d f t z).1, zmap (zset_incr m d f t z).2) = spec_incr m d f (zmap z).
Proof.
  intros Hz. assert (∀ s, zset_ok (zset_put m s t z).2 ∧ zmap (zset_put m s t z).2 = <[m := s]> (zmap z)) as P
    by (intros s; apply (zset_put_spec m s t z Hz)).
  unfold zset_incr, spec_incr. rewrite zset_score_spec by done. destruct (zmap z !! m) as [cur|]; cbn [from_option].
  - destruct (nx f); [done|]. destruct (is_nan (f64_add cur d)); [done|]. destruct (gate_passes cur (f64_add cur d) f); [|done].
    cbn [negb fst snd]. destruct (P (f64_add cur d)) as [? ->]. done.
  - destruct (xx f); [done|]. destruct (is_nan d); [done|]. cbn [fst snd]. destruct (P d) as [? ->]. done.
Qed.

Lemma matching_spec p z : zset_ok z → matching p z = spec_matching p (zmap z).
Proof. intros Hz. unfold matching, spec_matching. by rewrite ordered_spec. Qed.

(** Removing the members that match leaves the entries that do not. *)
Lemma without_matching p x : without (spec_matching p x).*1 x = filter (λ y : list byte * N, p y = false) x.
Proof.
  destruct (in_order_spec x) as (_ & Hp & _). unfold without. apply map_filter_ext. intros m s Hm. cbn.
  assert (m ∈ (spec_matching p x).*1 ↔ p (m, s) = true) as ->; [|by destruct (p (m, s))].
  rewrite list_elem_of_fmap. unfold spec_matching. setoid_rewrite list_elem_of_filter. setoid_rewrite Hp.
  split.
  - intros ([n r] & -> & Hy & Hin%elem_of_map_to_list). cbn in *. congruence.
  - intros Hy. exists (m, s). by rewrite elem_of_map_to_list.
Qed.

Lemma remove_range_by_spec p z : zset_ok z → zset_ok (remove_range_by p z).2 ∧
  (remove_range_by p z).1 = length (spec_matching p (zmap z)) ∧
  zmap (remove_range_by p z).2 = filter (λ y : list byte * N, p y = false) (zmap z).
Proof.
  intros Hz. unfold remove_range_by. cbn [fst snd]. destruct (remove_all_spec (matching p z).*1 z Hz) as [H1 H2].
  split; [done|]. rewrite H2, matching_spec, without_matching, length_fmap by done. done.
Qed.

Lemma range_by_rank_spec a b r z : zset_ok z → range_by_rank a b r z = spec_slice a b (flip_if r (in_order (zmap z))).
Proof.
  intros Hz. unfold range_by_rank. rewrite ordered_spec by done. fold (flip_if r (in_order (zmap z))).
  destruct (resolve_range_spec a b (flip_if r (in_order (zmap z)))) as [<- _]. by destruct (resolve_range _ a b).
Qed.

Lemma apply_limit_fst {A B} (l : list (A * B)) limit : (apply_limit l limit).*1 = apply_limit l.*1 limit.
Proof.
  destruct limit as [[o c]|]; [|done]. cbn. case_decide; [done|]. rewrite <- fmap_drop. case_decide; [|done]. by rewrite fmap_take.
Qed.

Lemma zset_len_spec z : zset_ok z → zset_len z = size (zmap z).
Proof. destruct z as [v|index scores]; [|done]. intros [Hnd _]. symmetry. by apply map_size_list_to_map. Qed.

Lemma run_zset_op_ok t op z : zset_ok z →
  zset_ok (run_zset_op t op z).2 ∧ ((run_zset_op t op z).1, zmap (run_zset_op t op z).2) = spec_zset_op op (zmap z).
Proof.
  intros Hz. destruct op; cbn [run_zset_op spec_zset_op].
  - destruct (zset_add_spec m score f t z Hz) as [H1 H2]. destruct (zset_add m score f t z). cbn [fst snd] in *. by rewrite <- H2.
  - destruct (zset_incr_spec m delta f t z Hz) as [H1 H2]. destruct (zset_incr m delta f t z). cbn [fst snd] in *. by rewrite <- H2.
  - destruct (zset_remove_spec m z Hz) as (H1 & H2 & H3). destruct (zset_remove m z). cbn [fst snd] in *. by rewrite H1, H3.
  - unfold pop_min. cbn [fst snd]. rewrite ordered_spec by done. destruct (remove_all_spec (take count (in_order (zmap z))).*1 z Hz) as [H1 H2].
    by rewrite H2.
  - unfold pop_max. cbn [fst snd]. rewrite ordered_spec by done.
    destruct (remove_all_spec (take count (rev (in_order (zmap z)))).*1 z Hz) as [H1 H2]. by rewrite H2.
  - unfold remove_range_by_rank. rewrite ordered_spec by done.
    destruct (resolve_range_spec start stop (in_order (zmap z))) as [Hr _]. destruct (resolve_range _ start stop) as [s n]. cbn [fst snd] in *.
    rewrite Hr. destruct (remove_all_spec (spec_slice start stop (in_order (zmap z))).*1 z Hz) as [H1 H2].
    by rewrite H2, length_fmap.
  - destruct (remove_range_by_spec (by_score lo hi) z Hz) as (H1 & H2 & H3). unfold remove_range_by_score.
    destruct (remove_range_by (by_score lo hi) z). cbn [fst snd] in *. by rewrite H2, H3.
  - destruct (remove_range_by_spec (by_lex lo hi) z Hz) as (H1 & H2 & H3). unfold remove_range_by_lex.
    destruct (remove_range_by (by_lex lo hi) z). cbn [fst snd] in *. by rewrite H2, H3.
  - by rewrite zset_score_spec.
  - by rewrite zset_len_spec.
  - by rewrite zset_rank_spec.
  - by rewrite range_by_rank_spec.
  - unfold range_by_score, range_by. by rewrite matching_spec.
  - unfold range_by_lex, range_by. rewrite matching_spec by done. fold (flip_if reversed (spec_matching (by_lex lo hi) (zmap z))).
    by rewrite apply_limit_fst.
  - unfold count_by_score. by rewrite matching_spec.
  - unfold count_by_lex. by rewrite matching_spec.
Qed.

(** ** The encoding *)

Definition skip (z : ZSetVal) : Prop := match z with ZSkipList _ _ => True | ZListPack _ => False end.

Definition zset_within (E W : N) (z : ZSetVal) : Prop :=
  match z with
  | ZListPack v => len v ≤ E ∧ Forall (λ y, len y.1 ≤ W) v
  | ZSkipList _ _ => True
  end.

(** What an operation that puts and removes keeps, if puts and removals keep it. *)
Lemma run_zset_op_keeps t op z (P : ZSetVal → Prop) : (∀ m s z, P z → P (zset_put m s t z).2) → (∀ m z, P z → P (zset_remove m z).2) →
  P z → P (run_zset_op t op z).2.
Proof.
  intros Hput Hrem Hz. assert (∀ ms z, P z → P (remove_all ms z)) as Hall.
  { intros ms. unfold remove_all. induction ms as [|m ms IH]; intros k Hk; [done|]. by apply IH, Hrem. }
  destruct op; cbn [run_zset_op]; try done.
  - unfold zset_add. repeat case_match; simplify_eq; cbn; auto.
  - unfold zset_incr. repeat case_match; simplify_eq; cbn; auto.
  - specialize (Hrem m z Hz). by destruct (zset_remove m z).
  - by apply Hall.
  - by apply Hall.
  - unfold remove_range_by_rank. destruct (resolve_range _ start stop). by apply Hall.
  - by apply Hall.
  - by apply Hall.
Qed.

Lemma skip_kept t op z : skip z → skip (run_zset_op t op z).2.
Proof.
  apply run_zset_op_keeps; intros; destruct z0 as [v|index scores]; try done; cbn; by destruct (scores !! m).
Qed.

Lemma zset_within_kept E W t op z : zset_max_listpack_entries t ≤ E → zset_max_listpack_value t ≤ W →
  zset_within E W z → zset_within E W (run_zset_op t op z).2.
Proof.
  intros HE HW. assert (∀ (v : list (list byte * N)) i, len v ≤ E ∧ Forall (λ y, len y.1 ≤ W) v →
    len (list_remove_at i v) ≤ E ∧ Forall (λ y, len y.1 ≤ W) (list_remove_at i v)) as Hrem.
  { intros v i [H1 H2]. unfold list_remove_at, len in *. rewrite length_app, length_take, length_drop. split; [lia|].
    apply Forall_app. split; [by apply Forall_take|by apply Forall_drop]. }
  apply run_zset_op_keeps.
  - intros m s [v|index scores]; cbn [zset_put]; [|by destruct (scores !! m)]. intros Hv.
    set (p := match zset_listpack_pos m v with Some i => _ | None => _ end : bool * list (list byte * N)).
    assert (∃ l, Forall (λ y, len y.1 ≤ W) l ∧ p.2 ≡ₚ (m, s) :: l) as (l & Hl & Hp).
    { unfold p. destruct (zset_listpack_pos m v) as [i|]; cbn [snd].
      - exists (list_remove_at i v). split; [by apply Hrem|apply insert_sorted_perm].
      - exists v. split; [apply Hv|apply insert_sorted_perm]. }
    destruct p as [new v']. cbn [snd] in *. unfold zset_listpack_overflows. case_bool_decide as Ho; [done|].
    cbn. unfold len in *. split; [lia|]. rewrite Hp. constructor; [cbn; lia|done].
  - intros m [v|index scores]; cbn [zset_remove]; [|by destruct (scores !! m)]. destruct (zset_listpack_pos m v); [|done]. by apply Hrem.
Qed.

(** Scores are numbers. *)
Definition numbers (x : gmap (list byte) N) : Prop := map_Forall (λ _ s, is_nan s = false) x.

Definition adds_number (op : zset_op) : Prop := match op with ZAdd _ s _ => is_nan s = false | _ => True end.

Lemma numbers_kept op x : adds_number op → numbers x → numbers (spec_zset_op op x).2.
Proof.
  unfold numbers. intros Ha Hx.
  assert (∀ m s, is_nan s = false → map_Forall (λ _ s, is_nan s = false) (<[m := s]> x)) as Hins by (intros; by apply map_Forall_insert_2).
  assert (∀ y, y ⊆ x → map_Forall (λ _ s, is_nan s = false) y) as Hsub by (intros y Hy m s Hm; apply (Hx m s); by eapply lookup_weaken).
  destruct op; cbn [spec_zset_op snd]; try done; try (apply Hsub; apply map_filter_subseteq).
  - unfold spec_add. cbn in Ha. repeat case_match; simplify_eq; cbn; auto.
  - unfold spec_incr. repeat case_match; simplify_eq; cbn; auto.
  - apply Hsub, delete_subseteq.
Qed.

(** (C10) A sorted set is the map from its members to their scores, read in the order of
    score and then member: whatever the operations and whatever thresholds are in
    force at each, the answers and the map are those of the plain map, so ranks,
    ranges, counts and pops do not depend on the form; no score is ever a NaN if
    none is added; a listpack is within the largest thresholds that were in force;
    and once a skiplist it stays one. *)
Theorem zset_refines (before after : list (EncodingThresholds * zset_op)) (E W : N) :
  Forall (λ o, adds_number o.2 ∧ zset_max_listpack_entries o.1 ≤ E ∧ zset_max_listpack_value o.1 ≤ W) (before ++ after) →
  let run := run_all (λ o, run_zset_op o.1 o.2) in
  let z := (run before zset_new).2 in
  let z' := (run (before ++ after) zset_new).2 in
  ((run (before ++ after) zset_new).1, zmap z') = run_all spec_zset_op (before ++ after).*2 ∅ ∧
  ordered z' = in_order (zmap z') ∧
  numbers (zmap z') ∧
  match z' with
  | ZListPack v => len v ≤ E ∧ Forall (λ y, len y.1 ≤ W) v
  | ZSkipList _ _ => True
  end ∧
  (zset_encoding z = ESkipList → zset_encoding z' = ESkipList).
Proof.
  intros Ht run z z'. assert (zset_ok zset_new) as H0 by (split; constructor). rewrite Forall_forall in Ht.
  destruct (run_all_refines (λ o, run_zset_op o.1 o.2) spec_zset_op snd zmap zset_ok (λ o s Hs, run_zset_op_ok o.1 o.2 s Hs)
    (before ++ after) zset_new H0) as [I1 I2]. fold run in I1, I2. fold z' in I1, I2.
  split; [by rewrite I2|]. split; [by apply ordered_spec|]. split; [|split].
  - change (zmap z') with ((run (before ++ after) zset_new).1, zmap z').2. rewrite I2. apply run_all_keeps; [|apply map_Forall_empty].
    intros op x Hop. apply numbers_kept. apply list_elem_of_fmap in Hop as (o & -> & Ho). by apply Ht.
  - apply (run_all_keeps _ (zset_within E W)); [|by split; [apply N.le_0_l|]]. intros o k Ho. destruct (Ht o Ho) as (_ & ? & ?).
    by apply zset_within_kept.
  - assert (∀ k, zset_encoding k = ESkipList ↔ skip k) as Hk by (intros [|]; done). rewrite !Hk.
    unfold z', z, run. rewrite run_all_app. cbn [snd]. apply run_all_keeps. intros o k _. apply skip_kept.
Qed.

Definition no_flags : ZAddFlags := mkFlags false false false false.

Definition example_zset_ops : list (EncodingThresholds * zset_op) :=
  map (pair defaults) [ZAdd (str "b") 4607182418800017408 no_flags; ZAdd (str "a") 4611686018427387904 no_flags;
    ZIncr (str "b") 4611686018427387904 no_flags; ZRank (str "b") false; ZRank (str "b") true; ZPopMin 1].

Lemma zset_refines_witness :
  (run_all (λ o, run_zset_op o.1 o.2) (example_zset_ops ++ []) zset_new).1 =
  [ZAdded (mkOutcome true true (Some 4607182418800017408)); ZAdded (mkOutcome true true (Some 4611686018427387904));
   ZIncred (Updated 4613937818241073152); ZRanked (Some 1%nat); ZRanked (Some 0%nat); ZEntries [(str "a", 4611686018427387904)]].
Proof.
  transitivity (run_all spec_zset_op (example_zset_ops ++ []).*2 ∅).1; [|by vm_compute].
  apply (f_equal fst (proj1 (zset_refines example_zset_ops [] 128 64
    ltac:(repeat (apply Forall_cons; split; [by split_and!|]); by apply Forall_nil)))).
Defined.

(** (C40) Two scores that compare equal do not order their members by name when one is
    the negative zero: whatever the members, and whatever the form, the one with
    the negative zero comes first. *)
Theorem negative_zero_out_of_order (a b : list byte) (t : EncodingThresholds) : a ≠ b →
  let z := (run_all (λ o, run_zset_op o.1 o.2) [(t, ZAdd a 0 no_flags); (t, ZAdd b (2 ^ 63) no_flags)] zset_new).2 in
  f64_eq (2 ^ 63) 0 = true ∧ zset_score a z = Some 0 ∧ zset_score b z = Some (2 ^ 63) ∧ ordered z = [(b, 2 ^ 63); (a, 0)].
Proof.
  intros Hab z. assert (zset_ok zset_new) as H0 by (split; constructor).
  destruct (run_all_refines (λ o, run_zset_op o.1 o.2) spec_zset_op snd zmap zset_ok (λ o s Hs, run_zset_op_ok o.1 o.2 s Hs)
    [(t, ZAdd a 0 no_flags); (t, ZAdd b (2 ^ 63) no_flags)] zset_new H0) as [I1 I2]. fold z in I1, I2.
  assert (zmap z = <[b := 2 ^ 63]> {[a := 0]}) as Ez.
  { apply (f_equal snd) in I2. cbn [snd] in I2. rewrite I2. cbn -[N.pow]. unfold spec_add. rewrite lookup_empty. cbn -[N.pow].
    rewrite insert_empty, lookup_singleton_ne by done. done. }
  rewrite !zset_score_spec, ordered_spec, Ez by done. split; [done|]. rewrite lookup_insert_ne, lookup_singleton_eq, lookup_insert_eq by done.
  split; [done|]. split; [done|]. symmetry. apply in_order_unique.
  - constructor; [constructor; [constructor|constructor]|]. constructor; [by left|constructor].
  - rewrite map_to_list_insert, map_to_list_singleton by (by apply lookup_singleton_ne). done.
Qed.

Lemma negative_zero_out_of_order_witness :
  ordered (run_all (λ o, run_zset_op o.1 o.2)
    [(defaults, ZAdd (str "a") 0 no_flags); (defaults, ZAdd (str "b") (2 ^ 63) no_flags)] zset_new).2 =
  [(str "b", 2 ^ 63); (str "a", 0)].
Proof. apply (negative_zero_out_of_order (str "a") (str "b") defaults). by vm_compute. Defined.
