(* ===== verification/Snapshot.v ===== *)
(** * The snapshot format

    crates/ironcache-persist: the per-shard base files and the manifest that
    commits them (format.rs), the incremental delta files (delta.rs), the
    builders that encode a frozen shard, and the boot-time load that replays
    files and deltas into the shards that own the keys now (lib.rs).

    The data directory is a finite map from file names to contents. The codec of
    one entry (crates/ironcache-repl/src/kvcodec.rs) is an argument here: the
    interface it has to meet is [EntryCodec] in SnapshotChain.v, and KvCodecProofs.v
    shows that it does. *)

From Stdlib Require Import Lia ZArith NArith.
From S2P Require Import Prelude RaftCodec Slot Resp ReplFrames ReplDisk Keyspace.
From stdpp Require Import strings sorting.

#[local] Open Scope N_scope.

(** ** Names and constants *)

Definition MAGIC : list byte := str "ICSS".
Definition FORMAT_VERSION : N := 1.
Definition MANIFEST_VERSION_BASE : N := 1.
Definition MANIFEST_VERSION_DELTA : N := 2.
Definition SHARD_HEADER_LEN : nat := 12.
Definition DELTA_MAGIC : list byte := str "ICSD".
Definition DELTA_FORMAT_VERSION : N := 1.
Definition DELTA_HEADER_LEN : nat := 28.
Definition TAG_PUT : N := 0.
Definition TAG_TOMBSTONE : N := 1.

Definition MANIFEST_NAME : list byte := str "dump.manifest".

Definition shard_file_name (shard : N) : list byte := str "dump-shard-" ++ display_u64 shard ++ str ".icss".

Definition delta_file_name (shard delta_epoch : N) : list byte :=
  str "dump-shard-" ++ display_u64 shard ++ str "-delta-" ++ display_u64 delta_epoch ++ str ".icsd".

Definition tmp_path (path : list byte) : list byte := path ++ str ".tmp".

(** [str::strip_prefix], [str::strip_suffix] and [str::split_once]. *)
Definition str_strip_prefix (p s : list byte) : option (list byte) :=
  if decide (take (length p) s = p) then Some (drop (length p) s) else None.

Definition str_strip_suffix (p s : list byte) : option (list byte) :=
  if decide (drop (length s - length p) s = p) then Some (take (length s - length p) s) else None.

Fixpoint str_split_once (p s : list byte) : option (list byte * list byte) :=
  match str_strip_prefix p s with
  | Some rest => Some ([], rest)
  | None =>
      match s with
      | [] => None
      | c :: s => '(a, b) ← str_split_once p s; Some (c :: a, b)
      end
  end.

Definition parse_delta_file_name (name : list byte) : option (N * N) :=
  rest ← str_strip_prefix (str "dump-shard-") name;
  '(shard, rest) ← str_split_once (str "-delta-") rest;
  epoch ← str_strip_suffix (str ".icsd") rest;
  shard ← parse_u64 shard ≫= try_narrow 32;
  epoch ← parse_u64 epoch;
  Some (shard, epoch).

(** ** The manifest *)

Record ShardManifestEntry := mkEntry { e_shard : N; e_file : list byte; e_keys : N; e_crc : N }.

Record DeltaManifestEntry := mkDelta {
  d_shard : N; d_file : list byte; d_puts : N; d_tombstones : N; d_crc : N; d_base_epoch : N; d_delta_epoch : N
}.

Record Manifest := mkManifest {
  m_version : N; m_shards : N; m_save_id : N; m_save_unix_secs : N;
  m_entries : list ShardManifestEntry; m_deltas : list DeltaManifestEntry
}.

Definition put_count {A} (l : list A) : list byte := put_u32 (N.of_nat (length l)).

Definition put_manifest_entry (e : ShardManifestEntry) : list byte :=
  put_u32 (e_shard e) ++ put_u64 (e_keys e) ++ put_u32 (e_crc e) ++ put_bytes32 (e_file e).

Definition put_delta_entry (d : DeltaManifestEntry) : list byte :=
  put_u32 (d_shard d) ++ put_u64 (d_puts d) ++ put_u64 (d_tombstones d) ++ put_u32 (d_crc d) ++
  put_u64 (d_base_epoch d) ++ put_u64 (d_delta_epoch d) ++ put_bytes32 (d_file d).

Definition manifest_body (m : Manifest) : list byte :=
  MAGIC ++ put_u32 (m_version m) ++ put_u32 (m_shards m) ++ put_u64 (m_save_id m) ++ put_u64 (m_save_unix_secs m) ++
  (put_count (m_entries m) ++ concat (map put_manifest_entry (m_entries m))) ++
  (if decide (m_version m = MANIFEST_VERSION_DELTA) then
     put_count (m_deltas m) ++ concat (map put_delta_entry (m_deltas m))
   else []).

Definition manifest_encode (m : Manifest) : list byte :=
  manifest_body m ++ put_u32 (table_crc32 (manifest_body m)).

(** [for _ in 0..count]; every entry takes bytes, so the bytes left bound the rounds. *)
Definition cur_list32 {A} (p : reader A) : reader (list A) :=
  count ← cur_u32;
  fuel ← gets length;
  cur_repeat p fuel count [].

(** [String::from_utf8(name_bytes.to_vec()).ok()?]. *)
Definition cur_name : reader (list byte) :=
  b ← cur_bytes32;
  if utf8_valid b then mret b else reject.

Definition get_manifest_entry : reader ShardManifestEntry :=
  shard ← cur_u32; keys ← cur_u64; crc ← cur_u32; file ← cur_name;
  mret (mkEntry shard file keys crc).

Definition get_delta_entry : reader DeltaManifestEntry :=
  shard ← cur_u32; puts ← cur_u64; tombstones ← cur_u64; crc ← cur_u32;
  base_epoch ← cur_u64; delta_epoch ← cur_u64; file ← cur_name;
  mret (mkDelta shard file puts tombstones crc base_epoch delta_epoch).

Definition get_manifest : reader Manifest :=
  magic ← cur_take 4;
  if decide (magic ≠ MAGIC) then reject else
  version ← cur_u32;
  if decide (version ≠ MANIFEST_VERSION_BASE ∧ version ≠ MANIFEST_VERSION_DELTA) then reject else
  shards ← cur_u32; save_id ← cur_u64; save_unix_secs ← cur_u64;
  entries ← cur_list32 get_manifest_entry;
  deltas ← (if decide (version = MANIFEST_VERSION_DELTA) then cur_list32 get_delta_entry else mret []);
  mret (mkManifest version shards save_id save_unix_secs entries deltas).

(** The body of a buffer whose trailing CRC matches it. *)
Definition crc_validated (buf : list byte) : option (list byte) :=
  if decide (length buf < 4)%nat then None else
  let body := take (length buf - 4) buf in
  if decide (table_crc32 body = from_le_bytes (drop (length buf - 4) buf)) then Some body else None.

Definition manifest_decode (buf : list byte) : option Manifest :=
  body ← crc_validated buf; whole get_manifest body.

Inductive SnapshotLoadError := UnknownVersion (found supported : N).

Definition classify_manifest_version (buf : list byte) : option SnapshotLoadError :=
  match crc_validated buf with
  | None => None
  | Some body =>
      if decide ((length body < 8)%nat ∨ take 4 body ≠ MAGIC) then None else
      let version := from_le_bytes (slice body 4 8) in
      if decide (version = MANIFEST_VERSION_BASE ∨ version = MANIFEST_VERSION_DELTA) then None
      else Some (UnknownVersion version MANIFEST_VERSION_DELTA)
  end.

(** ** Base files *)

Definition put_shard_header (shard : N) : list byte := MAGIC ++ put_u32 FORMAT_VERSION ++ put_u32 shard.

Definition split_shard_header (buf : list byte) (shard : N) : option (list byte) :=
  if decide (length buf < SHARD_HEADER_LEN)%nat then None else
  if decide (slice buf 0 4 ≠ MAGIC) then None else
  if decide (from_le_bytes (slice buf 4 8) ≠ FORMAT_VERSION) then None else
  if decide (from_le_bytes (slice buf 8 12) ≠ shard) then None else
  Some (drop SHARD_HEADER_LEN buf).

Definition put_record (r : N * list byte) : list byte := put_u32 r.1 ++ put_bytes32 r.2.

(** [RecordReader::next_record] on the bytes from its position on. *)
Definition next_record : reader (N * list byte) := db ← cur_u32; rec ← cur_bytes32; mret (db, rec).

(** [while let Some(x) = reader.next_record()]: each record takes a byte at least. *)
Fixpoint read_all {A} (next : reader A) (fuel : nat) (body : list byte) : list A :=
  match fuel, body with
  | S fuel, _ :: _ =>
      match next body with Some (r, rest) => r :: read_all next fuel rest | None => [] end
  | _, _ => []
  end.

Definition records (body : list byte) : list (N * list byte) := read_all next_record (length body) body.

(** ** Delta files *)

Definition put_delta_header (shard base_epoch delta_epoch : N) : list byte :=
  DELTA_MAGIC ++ put_u32 DELTA_FORMAT_VERSION ++ put_u32 shard ++ put_u64 base_epoch ++ put_u64 delta_epoch.

Definition split_delta_header (buf : list byte) (shard : N) : option (N * N * list byte) :=
  if decide (length buf < DELTA_HEADER_LEN)%nat then None else
  if decide (slice buf 0 4 ≠ DELTA_MAGIC) then None else
  if decide (from_le_bytes (slice buf 4 8) ≠ DELTA_FORMAT_VERSION) then None else
  if decide (from_le_bytes (slice buf 8 12) ≠ shard) then None else
  Some (from_le_bytes (slice buf 12 20), from_le_bytes (slice buf 20 28), drop DELTA_HEADER_LEN buf).

Inductive DeltaRecord :=
  | DPut (db : N) (key value : list byte)
  | DTombstone (db : N) (key : list byte).

Definition put_delta_record (r : DeltaRecord) : list byte :=
  match r with
  | DPut db key value => put_u8 TAG_PUT ++ put_u32 db ++ put_bytes32 key ++ put_bytes32 value
  | DTombstone db key => put_u8 TAG_TOMBSTONE ++ put_u32 db ++ put_bytes32 key
  end.

Definition next_delta_record : reader DeltaRecord :=
  tag ← cur_u8; db ← cur_u32; key ← cur_bytes32;
  if decide (tag = TAG_TOMBSTONE) then mret (DTombstone db key) else
  if decide (tag = TAG_PUT) then value ← cur_bytes32; mret (DPut db key value)
  else reject.

Definition delta_records (body : list byte) : list DeltaRecord := read_all next_delta_record (length body) body.

Inductive DeltaEffect := EPut (blob : list byte) | ETombstone.

Definition record_key (r : DeltaRecord) : N * list byte :=
  match r with DPut db key _ | DTombstone db key => (db, key) end.
Definition record_effect (r : DeltaRecord) : DeltaEffect :=
  match r with DPut _ _ value => EPut value | DTombstone _ _ => ETombstone end.

Definition fold_records (net : gmap (N * list byte) DeltaEffect) (rs : list DeltaRecord) :
    gmap (N * list byte) DeltaEffect :=
  foldl (λ net r, <[record_key r := record_effect r]> net) net rs.

Definition fold_deltas (delta_bodies : list (list byte)) : gmap (N * list byte) DeltaEffect :=
  foldl (λ net body, fold_records net (delta_records body)) ∅ delta_bodies.

(** The order of [(u32, Vec<u8>)]. *)
Definition key_le (a b : N * list byte) : Prop := a.1 < b.1 ∨ a.1 = b.1 ∧ bytes_leb a.2 b.2 = true.
#[global] Instance key_le_dec : RelDecision key_le := λ a b, _ : Decision (_ ∨ _ ∧ _).

(** The iteration order of the [BTreeMap]. *)
Definition effects (net : gmap (N * list byte) DeltaEffect) : list (N * list byte * DeltaEffect) :=
  merge_sort (λ x y, key_le x.1 y.1) (map_to_list net).

(** ** The directory *)

Notation "'Dir'" := (gmap (list byte) (list byte)) : type_scope.

(** A completed [write_file_atomic]: the staging file has been renamed. *)
Definition write_file_atomic (path bytes : list byte) (dir : Dir) : Dir := <[path := bytes]> (delete (tmp_path path) dir).

(** What a write can leave when the process stops or an I/O call fails. *)
Inductive atomic_write (path bytes : list byte) (dir : Dir) : Dir → Prop :=
  | aw_before : atomic_write path bytes dir dir
  | aw_staged junk : atomic_write path bytes dir (<[tmp_path path := junk]> dir)
  | aw_renamed : atomic_write path bytes dir (write_file_atomic path bytes dir).

(** ** Building *)

Section codec.
Context {V : Type} {Hval : StoredValue V}.
Context (encode_kvobj : KvObj V → list byte) (decode_kvobj : list byte → option (KvObj V)).

Record ShardDump := mkDump { sd_bytes : list byte; sd_keys : N; sd_crc : N }.

Definition dump_body (recs : list (N * KvObj V)) : list byte :=
  concat (map (λ r : N * KvObj V, put_record (r.1, encode_kvobj r.2)) recs).

(** [ShardDumpBuilder::finish] on the records pushed so far. *)
Definition dump_finish (recs : list (N * KvObj V)) (shard : N) : ShardDump :=
  mkDump (put_shard_header shard ++ dump_body recs) (N.of_nat (length recs)) (table_crc32 (dump_body recs)).

Definition frozen_records (frozen : list (FrozenSlot (V := V))) (now : N) : list (N * KvObj V) :=
  concat (map (λ f, map (λ o, (f_db f, o)) (base.filter (λ o, is_expired now o = false) (entries f))) frozen).

Definition dump_frozen_slots (frozen : list (FrozenSlot (V := V))) (shard now : N) : ShardDump :=
  dump_finish (frozen_records frozen now) shard.

Record DeltaDump := mkDeltaDump { dd_bytes : list byte; dd_puts : N; dd_tombstones : N; dd_crc : N }.

(** [frozen.iter().filter(|s| s.db() == *db).find_map(|s| s.find(key))]. *)
Definition frozen_get (frozen : list (FrozenSlot (V := V))) (db : N) (key : list byte) : option (KvObj V) :=
  head (omap (frozen_find key) (base.filter (λ f, f_db f = db) frozen)).

Definition delta_record (frozen : list (FrozenSlot (V := V))) (now : N) (k : N * list byte) : DeltaRecord :=
  match frozen_get frozen k.1 k.2 with
  | Some o => if is_expired now o then DTombstone k.1 k.2 else DPut k.1 (ko_key o) (encode_kvobj o)
  | None => DTombstone k.1 k.2
  end.

Definition is_put (r : DeltaRecord) : bool := match r with DPut _ _ _ => true | DTombstone _ _ => false end.

Definition build_delta_from_frozen (frozen : list (FrozenSlot (V := V))) (dirty : list (N * list byte))
    (shard base_epoch delta_epoch now : N) : DeltaDump :=
  let rs := map (delta_record frozen now) (merge_sort key_le dirty) in
  let body := concat (map put_delta_record rs) in
  mkDeltaDump (put_delta_header shard base_epoch delta_epoch ++ body)
    (N.of_nat (length (base.filter (λ r, is_put r = true) rs)))
    (N.of_nat (length (base.filter (λ r, is_put r = false) rs))) (table_crc32 body).

(** ** Loading *)

Definition read_validated_shard_file (dir : Dir) (e : ShardManifestEntry) : option (list byte) :=
  bytes ← dir !! e_file e;
  body ← split_shard_header bytes (e_shard e);
  if decide (table_crc32 body ≠ e_crc e) then None else Some (drop SHARD_HEADER_LEN bytes).

Definition read_validated_delta_file (dir : Dir) (d : DeltaManifestEntry) : option (list byte) :=
  bytes ← dir !! d_file d;
  '(_, body) ← split_delta_header bytes (d_shard d);
  if decide (table_crc32 body ≠ d_crc d) then None else Some (drop DELTA_HEADER_LEN bytes).

Definition read_manifest (dir : Dir) : option Manifest := dir !! MANIFEST_NAME ≫= manifest_decode.

Definition check_snapshot_loadable (dir : Dir) : option SnapshotLoadError :=
  match dir !! MANIFEST_NAME with Some bytes => classify_manifest_version bytes | None => None end.

Definition load_record (now : N) (keep : list byte → bool) (r : N * list byte) : step (ShardStore V) N :=
  n ← gets databases;
  if decide (n ≤ r.1) then mret 0 else
  match decode_kvobj r.2 with
  | None => mret 0
  | Some kv =>
      if negb (keep (ko_key kv)) then mret 0 else
      if is_expired now kv then mret 0 else
      insert_object r.1 kv;; mret 1
  end.

(** Add up what a step answers for every element. *)
Fixpoint total_each {A} (l : list A) (f : A → step (ShardStore V) N) : step (ShardStore V) N :=
  match l with
  | [] => mret 0
  | x :: l => a ← f x; b ← total_each l f; mret (a + b)
  end.

Definition load_records_into (body : list byte) (now : N) (keep : list byte → bool) : step (ShardStore V) N :=
  total_each (records body) (load_record now keep).

Definition apply_effect (now : N) (keep : list byte → bool) (x : N * list byte * DeltaEffect) : step (ShardStore V) Z :=
  let '((db, key), effect) := x in
  n ← gets databases;
  if decide (n ≤ db) then mret 0%Z else
  if negb (keep key) then mret 0%Z else
  match effect with
  | EPut blob =>
      match decode_kvobj blob with
      | None => mret 0%Z
      | Some kv =>
          if is_expired now kv then
            gone ← store_delete db key now; mret (if (gone : bool) then -1 else 0)%Z
          else
          existed ← gets (contains_live db key now);
          insert_object db kv;;
          mret (if (existed : bool) then 0 else 1)%Z
      end
  | ETombstone => gone ← store_delete db key now; mret (if (gone : bool) then -1 else 0)%Z
  end.

Fixpoint apply_effects (l : list (N * list byte * DeltaEffect)) (now : N) (keep : list byte → bool) :
    step (ShardStore V) Z :=
  match l with
  | [] => mret 0%Z
  | x :: l => a ← apply_effect now keep x; b ← apply_effects l now keep; mret (a + b)%Z
  end.

Definition apply_delta_chain (delta_bodies : list (list byte)) (now : N) (keep : list byte → bool) :
    step (ShardStore V) Z :=
  apply_effects (effects (fold_deltas delta_bodies)) now keep.

(** The bodies of the chain, each shard's cut off at its first bad link. *)
Fixpoint good_bodies (dir : Dir) (save_id : N) (truncated : gset N) (last_epoch : gmap N N)
    (ds : list DeltaManifestEntry) : list (list byte) :=
  match ds with
  | [] => []
  | d :: ds =>
      let cut := good_bodies dir save_id ({[ d_shard d ]} ∪ truncated) last_epoch ds in
      if decide (d_shard d ∈ truncated) then good_bodies dir save_id truncated last_epoch ds else
      if decide (d_base_epoch d ≠ save_id) then cut else
      if (match last_epoch !! d_shard d with Some prev => d_delta_epoch d <=? prev | None => false end) then cut else
      match read_validated_delta_file dir d with
      | Some body => body :: good_bodies dir save_id truncated (<[d_shard d := d_delta_epoch d]> last_epoch) ds
      | None => cut
      end
  end.

Definition saturating_add_signed (total : N) (net : Z) : N :=
  N.min (Z.to_N (Z.of_N total + net)) U64_MAX.

Definition load_shard_resharded (dir : Dir) (this_shard shard_count now : N) (route : list byte → N → N) :
    step (ShardStore V) N :=
  match read_manifest dir with
  | None => mret 0
  | Some m =>
      if decide (shard_count = 0) then mret 0 else
      let keep key := bool_decide (route key shard_count = this_shard) in
      total ← total_each (m_entries m) (λ e,
        match read_validated_shard_file dir e with
        | Some body => load_records_into body now keep
        | None => mret 0
        end);
      if decide (m_deltas m = []) then mret total else
      let bodies := good_bodies dir (m_save_id m) ∅ ∅ (m_deltas m) in
      if decide (bodies = []) then mret total else
      net ← apply_delta_chain bodies now keep;
      mret (saturating_add_signed total net)
  end.

End codec.

(** ** Routing (crates/ironcache-server/src/route.rs) *)

Definition slot_to_shard (slot n_shards : N) : N := slot * N.max n_shards 1 / CLUSTER_SLOTS.

Definition owner_shard (key : list byte) (n_shards : N) : N := slot_to_shard (key_slot key) n_shards.

Definition div_ceil (a b : N) : N := (a + b - 1) / b.

Definition shard_slot_range (shard n_shards : N) : N * N :=
  let n := N.max n_shards 1 in
  let start := div_ceil (shard * CLUSTER_SLOTS) n in
  let stop := div_ceil ((shard + 1) * CLUSTER_SLOTS) n in
  (if decide (start < 2 ^ 16) then start else 0,
   let stop := N.min stop CLUSTER_SLOTS in if decide (stop < 2 ^ 16) then stop else CLUSTER_SLOTS).
