(* ===== verification/SnapshotSave.v ===== *)
(** * Saving a snapshot

    The whole-node save (crates/ironcache/src/persist.rs and coordinator.rs over
    crates/ironcache-persist/src/lib.rs): every shard freezes its store, drains
    its dirty set and writes a base or a delta file; the manifest is written last
    and commits them; then the delta files it no longer names are removed.

    Which file operations succeed, and the clock each shard reads, are arguments. *)

From Stdlib Require Import Lia ZArith NArith.
From S2P Require Import Prelude RaftCodec Resp ReplFrames ReplDisk Keyspace Snapshot.
From stdpp Require Import strings sorting.

#[local] Open Scope N_scope.

(** ** The mode of a save *)

Definition MAX_DELTAS_PER_BASE : N := 8.

Inductive SaveMode := SBase | SDelta (base_epoch delta_epoch : N).

(** The highest chain position of a manifest, 0 for a base alone. *)
Definition chain_depth (m : Manifest) : N := foldr N.max 0 (d_delta_epoch <$> m_deltas m).

Definition decide_snapshot_mode (prior : option Manifest) (deltas_enabled : bool) (max_deltas : N) : SaveMode :=
  if negb deltas_enabled then SBase else
  match prior with
  | None => SBase
  | Some prior =>
      let depth := chain_depth prior in
      if decide (max_deltas ≤ depth) then SBase else SDelta (m_save_id prior) (depth + 1)
  end.

(** ** The replies of the shards *)

Inductive SaveReply := RBase (e : ShardManifestEntry) | RDelta (d : DeltaManifestEntry).

(** [x as i64] of an unsigned 64-bit integer, and the checked way back. *)
Definition as_i64 (n : N) : Z := if decide (n < 2 ^ 63) then Z.of_N n else (Z.of_N n - 2 ^ 64)%Z.
Definition try_unsigned (bits : N) (z : Z) : option N :=
  if decide (0 ≤ z)%Z then try_narrow bits (Z.to_N z) else None.

Definition encode_save_reply (r : SaveReply) : Value :=
  match r with
  | RBase e => Array (Some [Integer 0; Integer (Z.of_N (e_shard e)); Integer (as_i64 (e_keys e)); Integer (Z.of_N (e_crc e))])
  | RDelta d =>
      Array (Some [Integer 1; Integer (Z.of_N (d_shard d)); Integer (as_i64 (d_puts d)); Integer (as_i64 (d_tombstones d));
                   Integer (Z.of_N (d_crc d)); Integer (as_i64 (d_base_epoch d)); Integer (as_i64 (d_delta_epoch d))])
  end.

Definition decode_save_reply (v : Value) : option SaveReply :=
  match v with
  | Array (Some [Integer 0; Integer shard; Integer keys; Integer crc]) =>
      shard ← try_unsigned 32 shard;
      keys ← try_unsigned 64 keys;
      crc ← try_unsigned 32 crc;
      Some (RBase (mkEntry shard (shard_file_name shard) keys crc))
  | Array (Some [Integer 1; Integer shard; Integer puts; Integer tombstones; Integer crc; Integer base_epoch;
                 Integer delta_epoch]) =>
      shard ← try_unsigned 32 shard;
      delta_epoch ← try_unsigned 64 delta_epoch;
      puts ← try_unsigned 64 puts;
      tombstones ← try_unsigned 64 tombstones;
      crc ← try_unsigned 32 crc;
      base_epoch ← try_unsigned 64 base_epoch;
      Some (RDelta (mkDelta shard (delta_file_name shard delta_epoch) puts tombstones crc base_epoch delta_epoch))
  | _ => None
  end.

(** ** The commit *)

Definition bases (replies : list SaveReply) : list ShardManifestEntry :=
  omap (λ r, match r with RBase e => Some e | RDelta _ => None end) replies.
Definition deltas (replies : list SaveReply) : list DeltaManifestEntry :=
  omap (λ r, match r with RDelta d => Some d | RBase _ => None end) replies.

(** The save id, the base entries and the chain of the manifest to commit. *)
Definition assemble_commit (mode : SaveMode) (next_save_id : N) (prior : option Manifest)
    (base_entries : list ShardManifestEntry) (delta_entries : list DeltaManifestEntry) :
    option (N * list ShardManifestEntry * list DeltaManifestEntry) :=
  match mode with
  | SBase => if decide (delta_entries ≠ []) then None else Some (next_save_id, base_entries, [])
  | SDelta base_epoch _ =>
      if decide (base_entries ≠ []) then None else
      prior ← prior;
      let all_deltas := m_deltas prior ++ delta_entries in
      if decide (Exists (λ d, d_base_epoch d ≠ base_epoch) all_deltas) then None
      else Some (base_epoch, m_entries prior, all_deltas)
  end.

Definition entry_le (a b : ShardManifestEntry) : Prop := e_shard a ≤ e_shard b.
Definition delta_le (a b : DeltaManifestEntry) : Prop :=
  d_shard a < d_shard b ∨ d_shard a = d_shard b ∧ d_delta_epoch a ≤ d_delta_epoch b.
#[global] Instance entry_le_dec : RelDecision entry_le := λ a b, _ : Decision (_ ≤ _).
#[global] Instance delta_le_dec : RelDecision delta_le := λ a b, _ : Decision (_ ∨ _ ∧ _).

Definition manifest_v2 (save_id save_unix_secs : N) (base_entries : list ShardManifestEntry)
    (deltas : list DeltaManifestEntry) : Manifest :=
  let base_entries := merge_sort entry_le base_entries in
  let deltas := merge_sort delta_le deltas in
  mkManifest (if decide (deltas = []) then MANIFEST_VERSION_BASE else MANIFEST_VERSION_DELTA)
    (N.of_nat (length base_entries) mod 2 ^ 32) save_id save_unix_secs base_entries deltas.

(** Whether the sweep takes a file: a delta name the manifest does not list. *)
Definition gc_takes (m : Manifest) (name : list byte) : bool :=
  utf8_valid name && bool_decide (is_Some (parse_delta_file_name name)) && bool_decide (name ∉ (d_file <$> m_deltas m)).

Definition gc_orphan_deltas (m : Manifest) (removable : list byte → bool) (dir : Dir) : Dir :=
  base.filter (λ f : list byte * list byte, gc_takes m f.1 && removable f.1 = false) dir.

(** ** The save *)

Section save.
Context {V : Type} {Hval : StoredValue V}.
Context (encode_kvobj : KvObj V → list byte).

Record PersistState := mkPersist { ps_save_id : N; ps_needs_base : bool }.

Definition persist_new : PersistState := mkPersist 0 true.
Definition next_save_id (p : PersistState) : N := sat_add64 (ps_save_id p) 1.

(** The file a shard writes for a mode, and its entry. *)
Definition encode_shard_save (mode : SaveMode) (frozen : list (FrozenSlot (V := V))) (dirty : list (N * list byte))
    (shard now : N) : list byte * list byte * SaveReply :=
  match mode with
  | SBase =>
      let dump := dump_frozen_slots encode_kvobj frozen shard now in
      (shard_file_name shard, sd_bytes dump, RBase (mkEntry shard (shard_file_name shard) (sd_keys dump) (sd_crc dump)))
  | SDelta base_epoch delta_epoch =>
      let dump := build_delta_from_frozen encode_kvobj frozen dirty shard base_epoch delta_epoch now in
      let file := delta_file_name shard delta_epoch in
      (file, dd_bytes dump, RDelta (mkDelta shard file (dd_puts dump) (dd_tombstones dump) (dd_crc dump) base_epoch delta_epoch))
  end.

(** A shard's part of a save: the cut, and what it would write. *)
Definition save_shard_local (snapshot_deltas : bool) (mode : SaveMode) (shard now : N) :
    step (ShardStore V) (option (list byte * list byte * SaveReply)) :=
  frozen ← begin_save;
  dirty ← (if snapshot_deltas then enable_dirty_tracking;; take_dirty_keys else mret None);
  end_save;;
  match mode with
  | SBase => mret (Some (encode_shard_save mode frozen [] shard now))
  | SDelta _ _ => mret ((λ d, encode_shard_save mode frozen (elements d) shard now) <$> dirty)
  end.

(** Every shard takes part, whatever becomes of the others. *)
Fixpoint fan_out_save (snapshot_deltas : bool) (mode : SaveMode) (clock : N → N) (io : N → bool) (shard : N)
    (stores : list (ShardStore V)) (dir : Dir) : option (list (ShardStore V) * Dir * list (option SaveReply)) :=
  match stores with
  | [] => Some ([], dir, [])
  | s :: stores =>
      '(r, s) ← save_shard_local snapshot_deltas mode shard (clock shard) s;
      let '(dir, reply) :=
        match r with
        | Some (file, bytes, reply) =>
            if io shard then (write_file_atomic file bytes dir, decode_save_reply (encode_save_reply reply)) else (dir, None)
        | None => (dir, None)
        end in
      '(stores, dir, replies) ← fan_out_save snapshot_deltas mode clock io (shard + 1) stores dir;
      Some (s :: stores, dir, reply :: replies)
  end.

(** The save, whether it committed, and the state it leaves; [None] is a panic. *)
Definition save_all_to_dir (snapshot_deltas durable : bool) (clock : N → N) (io : N → bool) (io_manifest : bool)
    (removable : list byte → bool) (save_unix_secs : N) (p : PersistState) (stores : list (ShardStore V)) (dir : Dir) :
    option (bool * PersistState * list (ShardStore V) * Dir) :=
  let prior := if durable then read_manifest dir else None in
  let deltas_enabled := durable && snapshot_deltas && negb (ps_needs_base p) in
  let mode := decide_snapshot_mode prior deltas_enabled MAX_DELTAS_PER_BASE in
  '(stores, dir, replies) ← fan_out_save snapshot_deltas mode clock io 0 stores dir;
  let p := if snapshot_deltas then mkPersist (ps_save_id p) true else p in
  match mapM id replies with
  | None => Some (false, p, stores, dir)
  | Some replies =>
      match assemble_commit mode (next_save_id p) prior (bases replies) (deltas replies) with
      | None => Some (false, p, stores, dir)
      | Some (save_id, base_final, delta_final) =>
          if negb io_manifest then Some (false, p, stores, dir) else
          let m := manifest_v2 save_id save_unix_secs base_final delta_final in
          let dir := write_file_atomic MANIFEST_NAME (manifest_encode m) dir in
          let p :=
            if negb durable then mkPersist (wrap64 (ps_save_id p + 1)) (ps_needs_base p) else
            match mode with
            | SBase => mkPersist (wrap64 (ps_save_id p + 1)) false
            | SDelta _ _ => mkPersist (ps_save_id p) false
            end in
          Some (true, p, stores, gc_orphan_deltas m removable dir)
      end
  end.

End save.
