(* ===== verification/SnapshotProofs.v ===== *)
(** * Snapshot files read back

    Round trips of the manifest, the record streams and the headers; the file
    names of the format are distinct. *)

From Stdlib Require Import Lia ZArith NArith.
From S2P Require Import Prelude RaftCodec RaftCodecProofs FileStorageProofs Resp RespReplyProofs ReplFrames ReplFramesProofs ReplDisk ReplDiskProofs Keyspace Snapshot SnapshotSave.
From stdpp Require Import strings.

#[local] Open Scope N_scope.

(** ** Lists of records *)

Lemma reads_list32 {A} (p : reader A) (enc : A → list byte) l :
  N.of_nat (length l) < 2 ^ 32 → Forall (λ x, reads p (enc x) x) l → Forall (λ x, enc x ≠ []) l →
  reads (cur_list32 p) (put_count l ++ concat (map enc l)) l.
Proof.
  intros Hv Hl Hne. eapply reads_bind; [by apply reads_u32|]. intros rest.
  apply (reads_repeat p enc l []); [done|]. rewrite length_app.
  pose proof (length_concat_ge enc l Hne). lia.
Qed.

Lemma read_all_encode {A} (p : reader A) (enc : A → list byte) l fuel :
  Forall (λ x, reads p (enc x) x) l → Forall (λ x, enc x ≠ []) l → (length l ≤ fuel)%nat →
  read_all p fuel (concat (map enc l)) = l.
Proof.
  intros Hl Hne. revert fuel. induction l as [|x l IH]; intros fuel Hf; [by destruct fuel|].
  inversion Hl as [|? ? Hx Hl']; inversion Hne as [|? ? Hn Hne']; subst. cbn [length] in Hf.
  destruct fuel as [|fuel]; [lia|]. cbn [map concat read_all].
  destruct (enc x ++ concat (map enc l)) as [|b bs] eqn:E; [by apply app_eq_nil in E as [? _]|].
  rewrite <- E, Hx. f_equal. apply IH; [done..|lia].
Qed.

Lemma read_all_concat {A} (p : reader A) (enc : A → list byte) l :
  Forall (λ x, reads p (enc x) x) l → Forall (λ x, enc x ≠ []) l →
  read_all p (length (concat (map enc l))) (concat (map enc l)) = l.
Proof. intros Hl Hne. apply read_all_encode; [done..|]. by apply length_concat_ge. Qed.

(** ** The manifest *)

Lemma table_crc32_bound bs : table_crc32 bs < 2 ^ 32.
Proof. rewrite table_crc32_eq. apply crc32_bound. Qed.

Definition name_wf (f : list byte) : Prop := N.of_nat (length f) < 2 ^ 32 ∧ utf8_valid f = true.

Definition entry_wf (e : ShardManifestEntry) : Prop :=
  e_shard e < 2 ^ 32 ∧ u64 (e_keys e) ∧ e_crc e < 2 ^ 32 ∧ name_wf (e_file e).

Definition delta_wf (d : DeltaManifestEntry) : Prop :=
  d_shard d < 2 ^ 32 ∧ u64 (d_puts d) ∧ u64 (d_tombstones d) ∧ d_crc d < 2 ^ 32 ∧
  u64 (d_base_epoch d) ∧ u64 (d_delta_epoch d) ∧ name_wf (d_file d).

(** Every field fits its width, and there is a chain exactly at the delta version. *)
Definition manifest_wf (m : Manifest) : Prop :=
  m_version m = (if decide (m_deltas m = []) then MANIFEST_VERSION_BASE else MANIFEST_VERSION_DELTA) ∧
  m_shards m < 2 ^ 32 ∧ u64 (m_save_id m) ∧ u64 (m_save_unix_secs m) ∧
  N.of_nat (length (m_entries m)) < 2 ^ 32 ∧ Forall entry_wf (m_entries m) ∧
  N.of_nat (length (m_deltas m)) < 2 ^ 32 ∧ Forall delta_wf (m_deltas m).

Lemma reads_name f : name_wf f → reads cur_name (put_bytes32 f) f.
Proof.
  intros [Hl Hu]. rewrite <- (app_nil_r (put_bytes32 f)).
  eapply reads_bind; [by apply reads_bytes32|]. rewrite Hu. apply reads_ret.
Qed.
#[local] Hint Resolve reads_name : codec.

Lemma reads_manifest_entry e : entry_wf e → reads get_manifest_entry (put_manifest_entry e) e.
Proof.
  intros (H1 & H2 & H3 & H4). unfold get_manifest_entry, put_manifest_entry.
  do 3 (eapply reads_bind; [by auto with codec|]). eapply reads_last; [by auto with codec|by destruct e].
Qed.

Lemma reads_delta_entry d : delta_wf d → reads get_delta_entry (put_delta_entry d) d.
Proof.
  intros (H1 & H2 & H3 & H4 & H5 & H6 & H7). unfold get_delta_entry, put_delta_entry.
  do 6 (eapply reads_bind; [by auto with codec|]). eapply reads_last; [by auto with codec|by destruct d].
Qed.

Lemma reads_manifest m : manifest_wf m → reads get_manifest (manifest_body m) m.
Proof.
  intros (Hv & Hs & Hi & Ht & Hel & He & Hdl & Hd). unfold get_manifest, manifest_body.
  eapply reads_bind; [by apply reads_take|]. rewrite decide_False by tauto.
  eapply reads_bind; [apply reads_u32; rewrite Hv; by case_decide|].
  rewrite decide_False by (rewrite Hv; case_decide; tauto).
  do 3 (eapply reads_bind; [by auto with codec|]).
  eapply reads_bind; [apply (reads_list32 _ put_manifest_entry); [done|..]|].
  { eapply Forall_impl; [done|]. apply reads_manifest_entry. }
  { apply Forall_true. by intros []. }
  assert (reads (if decide (m_version m = MANIFEST_VERSION_DELTA) then cur_list32 get_delta_entry else mret [])
    (if decide (m_version m = MANIFEST_VERSION_DELTA) then put_count (m_deltas m) ++ concat (map put_delta_entry (m_deltas m))
     else []) (m_deltas m)) as Hdelta.
  { rewrite Hv. destruct (decide (m_deltas m = [])) as [->|]; [apply reads_ret|].
    rewrite !decide_True by done. apply (reads_list32 _ put_delta_entry); [done|..].
    { eapply Forall_impl; [done|]. apply reads_delta_entry. }
    apply Forall_true. by intros []. }
  eapply reads_last; [exact Hdelta|by destruct m].
Qed.

Lemma crc_validated_sealed body : crc_validated (body ++ put_u32 (table_crc32 body)) = Some body.
Proof.
  unfold crc_validated, put_u32. rewrite length_app, length_to_le_bytes.
  rewrite decide_False by lia. replace (length body + 4 - 4)%nat with (length body) by lia.
  rewrite take_app_length, drop_app_length, from_to_le_bytes by apply table_crc32_bound. by rewrite decide_True.
Qed.

Lemma manifest_decode_encode m : manifest_wf m → manifest_decode (manifest_encode m) = Some m.
Proof.
  intros Hm. unfold manifest_decode, manifest_encode. rewrite crc_validated_sealed, obind_Some.
  unfold whole. pose proof (reads_manifest m Hm []) as H. by rewrite app_nil_r in H; rewrite H.
Qed.

Definition with_version (v : N) (m : Manifest) : Manifest :=
  mkManifest v (m_shards m) (m_save_id m) (m_save_unix_secs m) (m_entries m) (m_deltas m).

Lemma classify_sealed m : m_version m < 2 ^ 32 → classify_manifest_version (manifest_encode m) =
  if decide (m_version m = MANIFEST_VERSION_BASE ∨ m_version m = MANIFEST_VERSION_DELTA) then None
  else Some (UnknownVersion (m_version m) MANIFEST_VERSION_DELTA).
Proof.
  intros Hv. unfold classify_manifest_version, manifest_encode. rewrite crc_validated_sealed.
  rewrite decide_False.
  - unfold manifest_body. erewrite (slice_of _ MAGIC (put_u32 (m_version m))); [|done..].
    unfold put_u32. by rewrite from_to_le_bytes.
  - unfold manifest_body, put_u32. intros [H|H]; [|done]. rewrite !length_app, length_to_le_bytes in H.
    change (length MAGIC) with 4%nat in H. lia.
Qed.


Definition example_manifest : Manifest :=
  mkManifest 2 1 7 1700000000 [mkEntry 0 (shard_file_name 0) 3 12345]
    [mkDelta 0 (delta_file_name 0 1) 1 0 99 7 1].

Lemma example_manifest_wf : manifest_wf example_manifest.
Proof.
  repeat (split || apply Forall_cons || apply Forall_nil || exact I); try reflexivity; try (vm_compute; congruence).
Qed.


(** ** Headers and record streams *)

Lemma split_shard_header_put shard body : shard < 2 ^ 32 →
  split_shard_header (put_shard_header shard ++ body) shard = Some body.
Proof.
  intros Hs. unfold split_shard_header, put_shard_header, put_u32.
  rewrite decide_False by (rewrite !length_app, !length_to_le_bytes; unfold SHARD_HEADER_LEN; cbn; lia).
  erewrite (slice_of _ [] MAGIC) by done. rewrite decide_False by tauto.
  erewrite (slice_of _ MAGIC (to_le_bytes 4 FORMAT_VERSION)) by done.
  rewrite from_to_le_bytes by done. rewrite decide_False by tauto.
  rewrite <- !app_assoc. erewrite (slice_of _ (MAGIC ++ to_le_bytes 4 FORMAT_VERSION) (to_le_bytes 4 shard));
    [|by rewrite <- app_assoc|done|apply length_to_le_bytes].
  rewrite from_to_le_bytes by done. rewrite decide_False by tauto. by rewrite !app_assoc, drop_app_length'.
Qed.

Lemma split_delta_header_put shard base epoch body : shard < 2 ^ 32 → u64 base → u64 epoch →
  split_delta_header (put_delta_header shard base epoch ++ body) shard = Some (base, epoch, body).
Proof.
  intros Hs Hb He. unfold split_delta_header, put_delta_header, put_u32, put_u64.
  rewrite decide_False by (rewrite !length_app, !length_to_le_bytes; unfold DELTA_HEADER_LEN; cbn; lia).
  erewrite (slice_of _ [] DELTA_MAGIC) by done. rewrite decide_False by tauto.
  erewrite (slice_of _ DELTA_MAGIC (to_le_bytes 4 DELTA_FORMAT_VERSION)) by done.
  rewrite from_to_le_bytes by done. rewrite decide_False by tauto. rewrite <- !app_assoc.
  set (h := DELTA_MAGIC ++ to_le_bytes 4 DELTA_FORMAT_VERSION).
  assert (length h = 8%nat) as Hh by done.
  erewrite (slice_of _ h (to_le_bytes 4 shard)); [|unfold h; by rewrite <- app_assoc|done|apply length_to_le_bytes].
  rewrite from_to_le_bytes by done. rewrite decide_False by tauto.
  erewrite (slice_of _ (h ++ to_le_bytes 4 shard) (to_le_bytes 8 base));
    [|unfold h; by rewrite <- !app_assoc|by rewrite length_app, length_to_le_bytes, Hh|apply length_to_le_bytes].
  erewrite (slice_of _ (h ++ to_le_bytes 4 shard ++ to_le_bytes 8 base) (to_le_bytes 8 epoch));
    [|unfold h; by rewrite <- !app_assoc|by rewrite !length_app, !length_to_le_bytes, Hh|apply length_to_le_bytes].
  unfold u64, U64_MAX in *. rewrite !from_to_le_bytes by (simpl; lia).
  done.
Qed.

Definition record_wf (r : N * list byte) : Prop := r.1 < 2 ^ 32 ∧ N.of_nat (length r.2) < 2 ^ 32.

Lemma records_encode rs : Forall record_wf rs → records (concat (map put_record rs)) = rs.
Proof.
  intros Hr. unfold records. apply (read_all_concat next_record put_record).
  - eapply Forall_impl; [done|]. intros [db rec] [H1 H2]. unfold next_record, put_record.
    eapply reads_bind; [by apply reads_u32|]. by eapply reads_last; [apply reads_bytes32|].
  - apply Forall_true. by intros [].
Qed.

Definition delta_record_wf (r : DeltaRecord) : Prop :=
  match r with
  | DPut db key value => db < 2 ^ 32 ∧ N.of_nat (length key) < 2 ^ 32 ∧ N.of_nat (length value) < 2 ^ 32
  | DTombstone db key => db < 2 ^ 32 ∧ N.of_nat (length key) < 2 ^ 32
  end.

Lemma delta_records_encode rs : Forall delta_record_wf rs → delta_records (concat (map put_delta_record rs)) = rs.
Proof.
  intros Hr. unfold delta_records. apply (read_all_concat next_delta_record put_delta_record).
  - eapply Forall_impl; [done|]. intros [db key value|db key] Hwf; cbn [delta_record_wf] in Hwf.
    + destruct Hwf as (H1 & H2 & H3). eapply reads_bind; [by apply reads_u8|]. do 2 (eapply reads_bind; [by auto with codec|]).
      rewrite decide_False, decide_True by done. by eapply reads_last; [apply reads_bytes32|].
    + destruct Hwf as [H1 H2]. rewrite <- (app_nil_r (put_delta_record _)). unfold put_delta_record.
      rewrite <- !app_assoc. eapply reads_bind; [by apply reads_u8|]. do 2 (eapply reads_bind; [by auto with codec|]).
      rewrite decide_True by done. apply reads_ret.
  - apply Forall_true. by intros [].
Qed.

(** ** File names *)

Lemma str_strip_prefix_app p s : str_strip_prefix p (p ++ s) = Some s.
Proof. unfold str_strip_prefix. by rewrite take_app_length, decide_True, drop_app_length. Qed.

Lemma str_strip_suffix_app p s : str_strip_suffix p (s ++ p) = Some s.
Proof.
  unfold str_strip_suffix. rewrite length_app. replace (length s + length p - length p)%nat with (length s) by lia.
  by rewrite drop_app_length, decide_True, take_app_length.
Qed.

Lemma str_split_once_skip a c p s : c ∉ a → str_split_once (c :: p) (a ++ (c :: p) ++ s) = Some (a, s).
Proof.
  induction a as [|x a IH]; intros Hc.
  - cbn [app str_split_once]. pose proof (str_strip_prefix_app (c :: p) s) as H. cbn [app] in H. by rewrite H.
  - cbn [app str_split_once]. unfold str_strip_prefix at 1. rewrite decide_False.
    + apply not_elem_of_cons in Hc as [_ Hc]. specialize (IH Hc). cbn [app] in IH. by rewrite IH.
    + cbn [length take]. intros [= -> _]. apply Hc. by left.
Qed.

Lemma display_no_dash n : n ≤ U64_MAX → "-"%byte ∉ display_u64 n.
Proof.
  intros Hn. destruct (display_u64_text n Hn) as (_ & Hd & _). intros Hin.
  rewrite Forall_forall in Hd. by specialize (Hd _ Hin).
Qed.

Lemma parse_delta_file_name_delta s e : s < 2 ^ 32 → e ≤ U64_MAX →
  parse_delta_file_name (delta_file_name s e) = Some (s, e).
Proof.
  intros Hs He. assert (s ≤ U64_MAX) as Hs' by (unfold U64_MAX; lia). unfold parse_delta_file_name, delta_file_name.
  rewrite str_strip_prefix_app, obind_Some. change (str "-delta-") with ("-"%byte :: str "delta-").
  rewrite str_split_once_skip by (by apply display_no_dash). rewrite obind_Some, str_strip_suffix_app, obind_Some.
  rewrite !parse_u64_display by done. cbn [mbind option_bind]. by rewrite try_narrow_small by done.
Qed.

Lemma delta_file_name_inj s e s' e' : s < 2 ^ 32 → e ≤ U64_MAX → s' < 2 ^ 32 → e' ≤ U64_MAX →
  delta_file_name s e = delta_file_name s' e' → s = s' ∧ e = e'.
Proof.
  intros Hs He Hs' He' H. pose proof (parse_delta_file_name_delta s e Hs He) as P.
  rewrite H, parse_delta_file_name_delta in P by done. by injection P as -> ->.
Qed.

Lemma shard_file_name_inj s s' : s < 2 ^ 32 → s' < 2 ^ 32 → shard_file_name s = shard_file_name s' → s = s'.
Proof.
  intros Hs Hs' H. unfold shard_file_name in H. apply app_inv_head, app_inv_tail in H.
  assert (parse_u64 (display_u64 s) = parse_u64 (display_u64 s')) as P by (by rewrite H).
  rewrite !parse_u64_display in P by (unfold U64_MAX; lia). by injection P.
Qed.

(** The last letter of a name tells what kind of file it is. *)
Lemma last_shard_file s : last (shard_file_name s) = Some "s"%byte.
Proof. unfold shard_file_name. change (str ".icss") with (str ".ics" ++ ["s"%byte]). by rewrite !app_assoc, last_snoc. Qed.

Lemma last_delta_file s e : last (delta_file_name s e) = Some "d"%byte.
Proof. unfold delta_file_name. change (str ".icsd") with (str ".ics" ++ ["d"%byte]). by rewrite !app_assoc, last_snoc. Qed.

Lemma last_tmp_file p : last (tmp_path p) = Some "p"%byte.
Proof. unfold tmp_path. change (str ".tmp") with (str ".tm" ++ ["p"%byte]). by rewrite !app_assoc, last_snoc. Qed.

Lemma display_length n : (length (display_u64 n) ≤ 20)%nat.
Proof.
  unfold display_u64. case_decide; [cbn; lia|].
  assert (∀ fuel v acc, length (itoa_loop fuel v acc) ≤ fuel + length acc)%nat as Hlen.
  { induction fuel as [|fuel IH]; intros v acc; cbn [itoa_loop]; [done|]. case_decide; [lia|].
    etransitivity; [apply IH|]. cbn. lia. }
  etransitivity; [apply Hlen|]. done.
Qed.

Lemma utf8_valid_ascii s : Forall (λ b, within b 0 127 = true) s → utf8_valid s = true.
Proof. induction 1 as [|b s Hb _ IH]; [done|]. cbn [utf8_valid]. by rewrite Hb. Qed.

Lemma display_ascii n : n ≤ U64_MAX → Forall (λ b, within b 0 127 = true) (display_u64 n).
Proof.
  intros Hn. destruct (display_u64_text n Hn) as (_ & Hd & _). eapply Forall_impl; [done|]. intros b.
  unfold is_digit, within. rewrite !andb_true_iff, !N.leb_le. lia.
Qed.

Lemma shard_file_name_wf s : s < 2 ^ 32 → name_wf (shard_file_name s).
Proof.
  intros Hs. split.
  - unfold shard_file_name. rewrite !length_app. pose proof (display_length s). cbn. lia.
  - apply utf8_valid_ascii. repeat (apply Forall_app; split); [by repeat constructor|apply display_ascii; unfold U64_MAX; lia|by repeat constructor].
Qed.

Lemma delta_file_name_wf s e : s < 2 ^ 32 → e ≤ U64_MAX → name_wf (delta_file_name s e).
Proof.
  intros Hs He. split.
  - unfold delta_file_name. rewrite !length_app. pose proof (display_length s). pose proof (display_length e). cbn. lia.
  - apply utf8_valid_ascii.
    repeat (apply Forall_app; split); try (by repeat constructor); apply display_ascii; [unfold U64_MAX; lia|done].
Qed.

(** A name the writer never produces is taken for a delta file, so the sweep after
    a save removes a foreign file whose name differs from a delta's by a sign or
    by leading zeros. *)
Theorem gc_takes_foreign_name :
  parse_delta_file_name (str "dump-shard-+1-delta-007.icsd") = Some (1, 7) ∧
  delta_file_name 1 7 ≠ str "dump-shard-+1-delta-007.icsd" ∧
  ∀ removable dir, removable (str "dump-shard-+1-delta-007.icsd") = true →
    gc_orphan_deltas example_manifest removable dir !! str "dump-shard-+1-delta-007.icsd" = None.
Proof.
  split; [by vm_compute|]. split; [by vm_compute|]. intros removable dir Hr. apply map_lookup_filter_None_2. right.
  intros bytes _. cbn [fst]. rewrite Hr, andb_true_r. by vm_compute.
Qed.
