(* ===== verification/SnapshotLoad.v ===== *)
(** * What a boot loads

    The load of crates/ironcache-persist/src/lib.rs seen through the bindings of
    the store: replaying base records and delta effects is a fold of updates, and
    a directory whose manifest names valid files loads as the base bindings
    overridden by the last effect of every key in the chain. *)

From Stdlib Require Import Lia ZArith NArith Permutation.
From S2P Require Import Prelude RaftCodec ReplDisk ReplDiskProofs Keyspace KeyspaceProofs KeyspaceOps Snapshot SnapshotSave SnapshotProofs.
From stdpp Require Import strings sorting.

#[local] Open Scope N_scope.

Section load.
Context {V : Type} {Hval : StoredValue V}.
Context (encode_kvobj : KvObj V → list byte) (decode_kvobj : list byte → option (KvObj V)).
(** The number of logical databases, the same at save and at load. *)
Context (D : N).

Implicit Types s : ShardStore V.

Definition bindings : Type := N → list byte → option (KvObj V).

Definition no_bindings : bindings := λ _ _, None.

Definition upd (db : N) (key : list byte) (v : option (KvObj V)) (b : bindings) : bindings := λ db' k,
  if decide (db' = db ∧ k = key) then v else b db' k.

Definition alive (now : N) (b : bindings) : Prop := ∀ db k o, b db k = Some o → is_expired now o = false.

(** A well-formed store, not tracking yet, that binds exactly as [b]. *)
Definition holds (s : ShardStore V) (b : bindings) : Prop :=
  (store_ok s ∧ dirty_keys s = None) ∧ databases s = D ∧ ∀ db k, db < D → find_obj (N.to_nat db) k s = b db k.

Lemma holds_config s s' : databases s = D → same_config s s' → databases s' = D.
Proof. unfold databases. intros <- (-> & _). done. Qed.

Lemma holds_set s s' b db key v : holds s b → store_ok s' → dirty_keys s' = None → same_config s s' →
  (∀ j k, find_obj j k s' = if decide (j = N.to_nat db ∧ k = key) then v else find_obj j k s) → holds s' (upd db key v b).
Proof.
  intros (Hok & Hd & Hf) Hok' Hn Hc Hs. split; [done|]. split; [by eapply holds_config|]. intros db' k Hlt.
  rewrite Hs. unfold upd. destruct (decide (db' = db ∧ k = key)) as [[-> ->]|Hne]; [by rewrite decide_True|].
  rewrite decide_False; [by apply Hf|]. intros [E ->]. apply Hne. split; [lia|done].
Qed.

(** ** The store operations of the load *)

Lemma insert_object_holds s b db o : holds s b → db < D →
  wp False (insert_object db o) (λ _ s', holds s' (upd db (ko_key o) (Some o) b)) s.
Proof.
  intros H Hdb. pose proof H as ([Hok Hn] & Hd & _). apply wp_bind, wp_gets. rewrite db_index_small by lia.
  apply wp_bind. eapply wp_mono; [by apply put_object_ok; [|lia|]|]. intros x s' [[Hok' Hc Hn' _ Hf] _].
  rewrite Hn in Hn'. apply wp_ret. by eapply holds_set.
Qed.

Lemma store_delete_holds s b db key now : holds s b → db < D → (∀ o, b db key = Some o → is_expired now o = false) →
  wp False (store_delete db key now) (λ _ s', holds s' (upd db key None b)) s.
Proof.
  intros H Hdb Hal. pose proof H as ([Hok Hn] & Hd & Hf). apply wp_bind, wp_gets. rewrite db_index_small by lia.
  apply wp_bind. unfold expire_if_due. apply wp_bind, wp_gets. rewrite Hf by done.
  destruct (b db key) as [o|] eqn:E.
  - rewrite (Hal o) by done. apply wp_ret. eapply wp_mono; [by apply remove_object_ok; [|lia]|].
    intros x s'. rewrite Hf, E by done. intros [_ [Hok' Hc Hn' _ Hf']]. rewrite Hn in Hn'. by eapply holds_set.
  - apply wp_ret, wp_ret. split; [done|]. split; [done|]. intros db' k Hlt. rewrite Hf by done. unfold upd.
    case_decide as Hk; [|done]. by destruct Hk as [-> ->].
Qed.

(** ** Base records *)

(** What one record binds, if anything. *)
Definition record_binding (now : N) (keep : list byte → bool) (r : N * list byte) : option (N * KvObj V) :=
  if decide (D ≤ r.1) then None else
  match decode_kvobj r.2 with
  | Some kv => if keep (ko_key kv) && negb (is_expired now kv) then Some (r.1, kv) else None
  | None => None
  end.

Definition bind_all (l : list (N * KvObj V)) (b : bindings) : bindings :=
  foldl (λ b r, upd r.1 (ko_key r.2) (Some r.2) b) b l.

Lemma load_record_holds s b now keep r : holds s b →
  wp False (load_record decode_kvobj now keep r)
    (λ _ s', holds s' (bind_all (option_list (record_binding now keep r)) b)) s.
Proof.
  intros H. pose proof H as (_ & Hd & _). unfold load_record, record_binding. apply wp_bind, wp_gets. rewrite Hd.
  case_decide; [by apply wp_ret|]. destruct (decode_kvobj r.2) as [kv|]; [|by apply wp_ret].
  destruct (keep (ko_key kv)); cbn [negb andb]; [|by apply wp_ret].
  destruct (is_expired now kv); cbn [negb]; [by apply wp_ret|].
  apply wp_bind. eapply wp_mono; [apply insert_object_holds; [done|lia]|]. intros [] s' H'. by apply wp_ret.
Qed.

Lemma total_each_holds {A} (l : list A) (f : A → step (ShardStore V) N) (g : A → bindings → bindings) s b : holds s b →
  (∀ x s b, x ∈ l → holds s b → wp False (f x) (λ _ s', holds s' (g x b)) s) →
  wp False (total_each l f) (λ _ s', holds s' (foldl (flip g) b l)) s.
Proof.
  revert s b. induction l as [|x l IH]; intros s b H Hf; cbn [total_each foldl]; [by apply wp_ret|].
  apply wp_bind. eapply wp_mono; [apply Hf; [by left|done]|]. intros n s' H'. apply wp_bind.
  eapply wp_mono; [apply (IH s' (g x b) H'); intros; apply Hf; [by right|done]|]. intros n' s'' H''. by apply wp_ret.
Qed.

Lemma bind_all_app l1 l2 b : bind_all (l1 ++ l2) b = bind_all l2 (bind_all l1 b).
Proof. apply foldl_app. Qed.

Lemma load_records_holds s b now keep body : holds s b →
  wp False (load_records_into decode_kvobj body now keep)
    (λ _ s', holds s' (bind_all (omap (record_binding now keep) (records body)) b)) s.
Proof.
  intros H. eapply wp_mono.
  - apply (total_each_holds (records body) _ (λ r, bind_all (option_list (record_binding now keep r))) s b H).
    intros r s' b' _. apply load_record_holds.
  - cbn beta. intros _ s' H'. replace (bind_all (omap _ (records body)) b) with
      (foldl (flip (λ r, bind_all (option_list (record_binding now keep r)))) b (records body)); [done|].
    clear. revert b. induction (records body) as [|r l IH]; intros b; [done|]. cbn [foldl]. rewrite IH. unfold flip.
    cbn [omap list_omap]. by destruct (record_binding now keep r).
Qed.

(** The key of a base record. *)
Definition rec_key (r : N * KvObj V) : N * list byte := (r.1, ko_key r.2).

Definition base_map (l : list (N * KvObj V)) : gmap (N * list byte) (KvObj V) :=
  list_to_map (map (λ r, (rec_key r, r.2)) l).

Lemma bind_all_notin l b db k : (db, k) ∉ map rec_key l → bind_all l b db k = b db k.
Proof.
  revert b. induction l as [|r l IH]; intros b Hn; [done|]. cbn [map] in Hn. apply not_elem_of_cons in Hn as [Hr Hn].
  unfold bind_all in *. cbn [foldl]. rewrite IH by done. unfold upd. rewrite decide_False; [done|].
  intros [-> ->]. by apply Hr.
Qed.

(** With distinct keys the order of the records does not matter. *)
Lemma bind_all_lookup l b db k : NoDup (map rec_key l) →
  bind_all l b db k = match base_map l !! (db, k) with Some o => Some o | None => b db k end.
Proof.
  revert b. induction l as [|r l IH]; intros b Hnd; [done|]. cbn [map] in Hnd. apply NoDup_cons in Hnd as [Hr Hnd].
  change (bind_all (r :: l) b) with (bind_all l (upd r.1 (ko_key r.2) (Some r.2) b)).
  change (base_map (r :: l)) with (<[rec_key r := r.2]> (base_map l)). rewrite (IH _ Hnd). destruct (decide (rec_key r = (db, k))) as [E|Hne].
  - rewrite <- E, lookup_insert_eq.
    assert (base_map l !! rec_key r = None) as ->.
    { apply not_elem_of_list_to_map_1. rewrite <- list_fmap_compose. exact Hr. }
    injection E as <- <-. unfold upd. by rewrite decide_True.
  - rewrite lookup_insert_ne by done. destruct (base_map l !! (db, k)); [done|]. unfold upd. rewrite decide_False; [done|].
    intros [-> ->]. by apply Hne.
Qed.

(** ** Delta effects *)

(** The binding an effect leaves at a time. *)
Definition eval_effect (now : N) (e : DeltaEffect) : option (KvObj V) :=
  match e with EPut blob => alive_at now (decode_kvobj blob) | ETombstone => None end.

Definition effect_upd (now : N) (keep : list byte → bool) (b : bindings) (x : N * list byte * DeltaEffect) : bindings :=
  let '((db, key), effect) := x in
  if decide (D ≤ db) then b else
  if negb (keep key) then b else
  match effect with
  | EPut blob =>
      match decode_kvobj blob with
      | None => b
      | Some kv => if is_expired now kv then upd db key None b else upd db (ko_key kv) (Some kv) b
      end
  | ETombstone => upd db key None b
  end.

Lemma alive_upd now b db k v : alive now b → (∀ o, v = Some o → is_expired now o = false) → alive now (upd db k v b).
Proof. intros Hb Hv db' k' o. unfold upd. case_decide; [apply Hv|apply Hb]. Qed.

Lemma apply_effect_holds s b now keep x : holds s b → alive now b →
  wp False (apply_effect decode_kvobj now keep x) (λ _ s', holds s' (effect_upd now keep b x)) s ∧
  alive now (effect_upd now keep b x).
Proof.
  intros H Hal. pose proof H as (_ & Hd & _). destruct x as [[db key] e]. unfold apply_effect, effect_upd.
  assert (db < D → wp False (gone ← store_delete db key now; mret (if (gone : bool) then -1 else 0)%Z)
    (λ _ s', holds s' (upd db key None b)) s) as Hdel.
  { intros Hlt. apply wp_bind. eapply wp_mono; [apply store_delete_holds; [done|done|apply Hal]|]. intros g s' H'. by apply wp_ret. }
  assert (alive now (upd db key None b)) as Hnone by (by apply alive_upd).
  rewrite <- Hd. case_decide; [split; [apply wp_bind, wp_gets; rewrite decide_True by done; by apply wp_ret|done]|].
  assert (db < D) as Hlt by lia.
  destruct (keep key) eqn:Hk; cbn [negb]; [|split; [apply wp_bind, wp_gets; rewrite decide_False by done; by apply wp_ret|done]].
  destruct e as [blob|]; [|split; [apply wp_bind, wp_gets; rewrite decide_False by done; auto|done]].
  destruct (decode_kvobj blob) as [kv|]; [|split; [apply wp_bind, wp_gets; rewrite decide_False by done; by apply wp_ret|done]].
  destruct (is_expired now kv) eqn:He; [split; [apply wp_bind, wp_gets; rewrite decide_False by done; auto|done]|].
  split; [|apply alive_upd; [done|by intros ? [= <-]]].
  apply wp_bind, wp_gets. rewrite decide_False by done. apply wp_bind, wp_gets, wp_bind.
  eapply wp_mono; [by apply insert_object_holds|]. intros [] s' H'. by apply wp_ret.
Qed.

Lemma apply_effects_holds l s b now keep : holds s b → alive now b →
  wp False (apply_effects decode_kvobj l now keep) (λ _ s', holds s' (foldl (effect_upd now keep) b l)) s.
Proof.
  revert s b. induction l as [|x l IH]; intros s b H Hal; cbn [apply_effects foldl]; [by apply wp_ret|].
  destruct (apply_effect_holds s b now keep x H Hal) as [Hw Hal']. apply wp_bind.
  eapply wp_mono; [apply Hw|]. intros a s' H'. apply wp_bind.
  eapply wp_mono; [apply (IH s' _ H' Hal')|]. intros a' s'' H''. by apply wp_ret.
Qed.

(** A put of the chain carries its own key. *)
Definition effect_ok (x : N * list byte * DeltaEffect) : Prop :=
  match x.2 with EPut blob => ∃ kv, decode_kvobj blob = Some kv ∧ ko_key kv = x.1.2 | ETombstone => True end.

Lemma effect_upd_ok now keep b db key e : effect_ok (db, key, e) →
  effect_upd now keep b (db, key, e) = if decide (D ≤ db) then b else if negb (keep key) then b else upd db key (eval_effect now e) b.
Proof.
  intros Hok. unfold effect_upd. case_decide; [done|]. destruct (keep key); cbn [negb]; [|done].
  destruct e as [blob|]; [|done]. destruct Hok as (kv & Hdec & Hk). cbn [snd fst] in *. unfold eval_effect, alive_at.
  rewrite Hdec. cbn [mbind option_bind]. rewrite Hk. by destruct (is_expired now kv).
Qed.

Lemma effects_lookup l now keep b db k : db < D → NoDup l.*1 → Forall effect_ok l →
  foldl (effect_upd now keep) b l db k =
    if keep k then
      match (list_to_map l : gmap (N * list byte) DeltaEffect) !! (db, k) with Some e => eval_effect now e | None => b db k end
    else b db k.
Proof.
  intros Hdb Hnd Hok. revert b. induction Hok as [|[[db' key] e] l Hx Hok IH]; intros b; cbn [foldl]; [by destruct (keep k)|].
  cbn [fmap list_fmap fst] in Hnd. apply NoDup_cons in Hnd as [Hn Hnd]. rewrite (IH Hnd), effect_upd_ok by done.
  change (list_to_map ((db', key, e) :: l)) with (<[(db', key) := e]> (list_to_map l : gmap (N * list byte) DeltaEffect)).
  destruct (decide ((db', key) = (db, k))) as [[= -> ->]|Hne].
  - rewrite lookup_insert_eq. rewrite (not_elem_of_list_to_map_1 l _ Hn). rewrite decide_False by lia.
    destruct (keep k); cbn [negb]; [|done]. unfold upd. by rewrite decide_True.
  - rewrite lookup_insert_ne by done. destruct (decide (D ≤ db')); [done|]. destruct (keep key) eqn:Hk; cbn [negb]; [|done].
    assert (upd db' key (eval_effect now e) b db k = b db k) as ->; [|done].
    unfold upd. rewrite decide_False; [done|]. intros [-> ->]. by apply Hne.
Qed.

(** Replaying the net effect of a chain. *)
Lemma apply_chain_holds bodies s b now keep : holds s b → alive now b →
  (∀ x, x ∈ map_to_list (fold_deltas bodies) → effect_ok x) →
  wp False (apply_delta_chain decode_kvobj bodies now keep) (λ _ s',
    holds s' (λ db k, if keep k then
      match fold_deltas bodies !! (db, k) with Some e => eval_effect now e | None => b db k end else b db k)) s.
Proof.
  intros H Hal Hok. eapply wp_mono; [by apply apply_effects_holds|]. cbn beta. intros _ s' (H1 & H2 & H3).
  split; [done|]. split; [done|]. intros db k Hdb. rewrite H3 by done.
  assert (effects (fold_deltas bodies) ≡ₚ map_to_list (fold_deltas bodies)) as Hp by apply merge_sort_Permutation.
  assert (NoDup (effects (fold_deltas bodies)).*1) as Hnd by (rewrite Hp; apply NoDup_fst_map_to_list).
  rewrite effects_lookup; [|done|done|].
  - by rewrite (list_to_map_proper _ _ Hnd Hp), list_to_map_to_list.
  - apply Forall_forall. intros x Hx. apply Hok. by rewrite <- Hp.
Qed.

(** The net effect of records on one key is that of the last record for it. *)
Lemma fold_records_lookup rs net key :
  fold_records net rs !! key =
    match last (base.filter (λ r, record_key r = key) rs) with
    | Some r => Some (record_effect r)
    | None => net !! key
    end.
Proof.
  induction rs as [|r rs IH] using rev_ind; [done|]. unfold fold_records in *. rewrite foldl_snoc, filter_app.
  destruct (decide (record_key r = key)) as [<-|Hne].
  - rewrite lookup_insert_eq, filter_cons_True by done. by rewrite filter_nil, last_snoc.
  - rewrite lookup_insert_ne, IH by done. rewrite filter_cons_False by done. by rewrite filter_nil, app_nil_r.
Qed.

Lemma fold_deltas_records bodies : fold_deltas bodies = fold_records ∅ (concat (map delta_records bodies)).
Proof.
  unfold fold_deltas. generalize (∅ : gmap (N * list byte) DeltaEffect). induction bodies as [|b bs IH]; intros net; [done|].
  cbn [foldl map concat]. rewrite IH. unfold fold_records. by rewrite foldl_app.
Qed.

End load.
