(* ===== verification/SnapshotChain.v ===== *)
(** * Committed snapshots

    What it means for a directory to hold a snapshot, as data: the manifest, the
    base records and the delta records of its files. A boot loads from it, into
    whichever number of shards there is now, exactly the bindings that data
    stands for. *)

From Stdlib Require Import Lia ZArith NArith Permutation.
From S2P Require Import Prelude RaftCodec RaftCodecProofs ReplDisk ReplDiskProofs Keyspace KeyspaceProofs KeyspaceOps Snapshot SnapshotSave SnapshotProofs SnapshotLoad.
From stdpp Require Import strings sorting.

#[local] Open Scope N_scope.

Definition delta_lt (a b : DeltaManifestEntry) : Prop :=
  d_shard a < d_shard b ∨ d_shard a = d_shard b ∧ d_delta_epoch a < d_delta_epoch b.

(** What a snapshot needs of the codec of entries: a good entry reads back as its
    canonical form, under its key and with its deadline, and its encoding fits a
    32-bit length field. *)
Class EntryCodec {V : Type} (encode_kvobj : KvObj V → list byte) (decode_kvobj : list byte → option (KvObj V))
    (canon : KvObj V → KvObj V) (good : KvObj V → Prop) : Prop := {
  codec_roundtrip o : good o → decode_kvobj (encode_kvobj o) = Some (canon o);
  canon_key o : ko_key (canon o) = ko_key o;
  canon_expire o : ko_expire (canon o) = ko_expire o;
  good_canon o : good o → good (canon o);
  good_fits o : good o → N.of_nat (length (encode_kvobj o)) < 2 ^ 32
}.

Section chain.
Context {V : Type} {Hval : StoredValue V}.
Context (encode_kvobj : KvObj V → list byte) (decode_kvobj : list byte → option (KvObj V)).
Context (canon : KvObj V → KvObj V) (good : KvObj V → Prop).
Context {Hcodec : EntryCodec encode_kvobj decode_kvobj canon good}.
Context (D : N).

Lemma canon_expired now o : is_expired now (canon o) = is_expired now o.
Proof. unfold is_expired. by rewrite canon_expire. Qed.

Lemma alive_at_canon now o : alive_at now (canon <$> o) = canon <$> alive_at now o.
Proof. unfold alive_at. destruct o as [o|]; [|done]. cbn. rewrite canon_expired. by destruct (is_expired now o). Qed.

(** An entry whose key fits its 32-bit length field, and that the codec carries. *)
Definition fits (o : KvObj V) : Prop := N.of_nat (length (ko_key o)) < 2 ^ 32 ∧ good o.

Definition base_file (dir : Dir) (b : ShardManifestEntry * list (N * KvObj V)) : Prop :=
  e_file b.1 = shard_file_name (e_shard b.1) ∧ e_shard b.1 < 2 ^ 32 ∧
  e_crc b.1 = table_crc32 (dump_body encode_kvobj b.2) ∧ Forall (λ r, r.1 < 2 ^ 32 ∧ fits r.2) b.2 ∧
  dir !! e_file b.1 = Some (put_shard_header (e_shard b.1) ++ dump_body encode_kvobj b.2).

(** A put carries an entry under its own key. *)
Definition put_ok (r : DeltaRecord) : Prop :=
  match r with DPut _ key value => ∃ kv, decode_kvobj value = Some kv ∧ ko_key kv = key | DTombstone _ _ => True end.

Definition delta_file (dir : Dir) (d : DeltaManifestEntry * list DeltaRecord) : Prop :=
  d_file d.1 = delta_file_name (d_shard d.1) (d_delta_epoch d.1) ∧ d_shard d.1 < 2 ^ 32 ∧
  u64 (d_base_epoch d.1) ∧ u64 (d_delta_epoch d.1) ∧
  d_crc d.1 = table_crc32 (concat (map put_delta_record d.2)) ∧ Forall (λ r, delta_record_wf r ∧ put_ok r) d.2 ∧
  dir !! d_file d.1 = Some (put_delta_header (d_shard d.1) (d_base_epoch d.1) (d_delta_epoch d.1) ++
    concat (map put_delta_record d.2)).

Record snapshot (dir : Dir) (m : Manifest) (bs : list (ShardManifestEntry * list (N * KvObj V)))
    (ds : list (DeltaManifestEntry * list DeltaRecord)) : Prop := {
  sn_manifest : dir !! MANIFEST_NAME = Some (manifest_encode m);
  sn_wf : manifest_wf m;
  sn_entries : m_entries m = bs.*1;
  sn_deltas : m_deltas m = ds.*1;
  sn_bases : Forall (base_file dir) bs;
  sn_chain : Forall (delta_file dir) ds;
  sn_epoch : Forall (λ d, d_base_epoch d = m_save_id m) ds.*1;
  sn_sorted : StronglySorted delta_lt ds.*1;
  sn_keys : NoDup (map rec_key (concat bs.*2))
}.

(** What a snapshot says of a key at a time. *)
Definition snap_lookup (bs : list (ShardManifestEntry * list (N * KvObj V)))
    (ds : list (DeltaManifestEntry * list DeltaRecord)) (now : N) : bindings (V := V) := λ db k,
  match fold_records ∅ (concat ds.*2) !! (db, k) with
  | Some e => eval_effect decode_kvobj now e
  | None => alive_at now (canon <$> base_map (concat bs.*2) !! (db, k))
  end.

(** ** Reading the files *)

Lemma read_base_file dir b : base_file dir b → read_validated_shard_file dir b.1 = Some (dump_body encode_kvobj b.2).
Proof.
  intros (_ & Hs & Hc & _ & Hf). unfold read_validated_shard_file. rewrite Hf, obind_Some.
  rewrite split_shard_header_put, obind_Some by done. rewrite decide_False by (rewrite Hc; tauto).
  by rewrite drop_app_length' by done.
Qed.

Lemma read_delta_file dir d : delta_file dir d →
  read_validated_delta_file dir d.1 = Some (concat (map put_delta_record d.2)).
Proof.
  intros (_ & Hs & Hb & He & Hc & _ & Hf). unfold read_validated_delta_file. rewrite Hf, obind_Some.
  rewrite split_delta_header_put, obind_Some by done. rewrite decide_False by (rewrite Hc; tauto).
  unfold put_delta_header. by rewrite drop_app_length' by (unfold put_u32, put_u64; rewrite !length_app, !length_to_le_bytes; done).
Qed.

Lemma base_records dir b : base_file dir b →
  records (dump_body encode_kvobj b.2) = map (λ r, (r.1, encode_kvobj r.2)) b.2.
Proof.
  intros (_ & _ & _ & Hr & _). unfold dump_body.
  rewrite <- (map_map (λ r : N * KvObj V, (r.1, encode_kvobj r.2)) put_record).
  apply records_encode, Forall_fmap. eapply Forall_impl; [done|]. intros r [H1 [H2 H3]]. split; [done|]. apply (good_fits (encode_kvobj := encode_kvobj) _ H3).
Qed.

Lemma chain_bodies dir ds : Forall (delta_file dir) ds →
  map delta_records (map (λ d, concat (map put_delta_record d.2)) ds) = ds.*2.
Proof.
  induction 1 as [|d ds Hd _ IH]; [done|]. cbn [map fmap list_fmap]. f_equal; [|done].
  destruct Hd as (_ & _ & _ & _ & _ & Hr & _). apply delta_records_encode. eapply Forall_impl; [done|]. by intros r [].
Qed.

(** No link of a sorted chain of valid files is cut. *)
Lemma good_bodies_all dir id ds last_epoch : Forall (delta_file dir) ds → Forall (λ d, d_base_epoch d = id) ds.*1 →
  StronglySorted delta_lt ds.*1 →
  (∀ d e, d ∈ ds.*1 → last_epoch !! d_shard d = Some e → e < d_delta_epoch d) →
  good_bodies dir id ∅ last_epoch ds.*1 = map (λ d, concat (map put_delta_record d.2)) ds.
Proof.
  intros Hf. revert last_epoch. induction Hf as [|d ds Hd Hf IH]; intros last_epoch Hid Hs Hlast; [done|].
  cbn [fmap list_fmap] in *. inversion Hid as [|? ? Hi Hid']; inversion Hs as [|? ? Hs' Hlt]; subst.
  cbn [good_bodies map]. rewrite decide_False by (apply not_elem_of_empty). rewrite decide_False by tauto.
  destruct (last_epoch !! d_shard d.1) as [prev|] eqn:Hp; [destruct (N.leb_spec (d_delta_epoch d.1) prev)|].
  1: { specialize (Hlast d.1 prev ltac:(by left) Hp). lia. }
  all: rewrite (read_delta_file dir d Hd); f_equal; apply IH; [done..|]; intros d' e Hin;
    (destruct (decide (d_shard d' = d_shard d.1)) as [E|Hne];
      [rewrite E, lookup_insert_eq; intros [= <-]; rewrite Forall_forall in Hlt; destruct (Hlt d' Hin) as [|[]]; lia|
       rewrite lookup_insert_ne by done; apply Hlast; by right]).
Qed.

(** ** Base bindings *)

Lemma base_map_Some l db k (o : KvObj V) : NoDup (map rec_key l) →
  base_map l !! (db, k) = Some o ↔ (db, o) ∈ l ∧ ko_key o = k.
Proof.
  intros Hnd. unfold base_map. rewrite <- elem_of_list_to_map by (rewrite <- list_fmap_compose; exact Hnd).
  rewrite list_elem_of_fmap. split.
  - intros ([db' o'] & [= -> -> ->] & Hin). done.
  - intros [Hin <-]. by exists (db, o).
Qed.

Definition kept (now : N) (keep : list byte → bool) (r : N * KvObj V) : bool :=
  (r.1 <? D) && keep (ko_key r.2) && negb (is_expired now r.2).

Definition canon_rec (r : N * KvObj V) : N * KvObj V := (r.1, canon r.2).

Lemma omap_record_binding now keep recs : Forall (λ r, good r.2) recs →
  omap (record_binding decode_kvobj D now keep) (map (λ r, (r.1, encode_kvobj r.2)) recs) =
    map canon_rec (base.filter (λ r, kept now keep r = true) recs).
Proof.
  induction 1 as [|[db o] recs Ho _ IH]; [done|]. cbn [map fst snd] in *.
  set (f := record_binding decode_kvobj D now keep) in *. set (l := map (λ r, (r.1, encode_kvobj r.2)) recs) in *.
  change (omap f ((db, encode_kvobj o) :: l)) with (match f (db, encode_kvobj o) with Some y => y :: omap f l | None => omap f l end).
  assert (f (db, encode_kvobj o) = if kept now keep (db, o) then Some (db, canon o) else None) as ->.
  { unfold f, record_binding, kept. cbn [fst snd]. rewrite codec_roundtrip, canon_key, canon_expired by done.
    destruct (N.ltb_spec db D); [rewrite decide_False by lia|rewrite decide_True by lia]; [|done]. cbn [andb].
    by destruct (keep (ko_key o) && negb (is_expired now o)). }
  rewrite filter_cons. destruct (kept now keep (db, o)); [rewrite decide_True by done|rewrite decide_False by done]; cbn [map]; by rewrite IH.
Qed.

Lemma rec_key_canon r : rec_key (canon_rec r) = rec_key r.
Proof. unfold rec_key, canon_rec. cbn. by rewrite canon_key. Qed.

Lemma rec_keys_canon l : map rec_key (map canon_rec l) = map rec_key l.
Proof. rewrite map_map. apply map_ext, rec_key_canon. Qed.

Lemma base_map_canon l : base_map (map canon_rec l) = canon <$> base_map l.
Proof.
  induction l as [|r l IH]; [done|]. change (base_map (r :: l)) with (<[rec_key r := r.2]> (base_map l)).
  change (base_map (map canon_rec (r :: l))) with (<[rec_key (canon_rec r) := canon r.2]> (base_map (map canon_rec l))).
  by rewrite fmap_insert, rec_key_canon, IH.
Qed.

Lemma NoDup_rec_key_filter P `{∀ x, Decision (P x)} (l : list (N * KvObj V)) :
  NoDup (map rec_key l) → NoDup (map rec_key (base.filter P l)).
Proof.
  induction l as [|x l IH]; [done|]. cbn [map]. intros [Hx Hl]%NoDup_cons. rewrite filter_cons. case_decide; [|by apply IH].
  cbn [map]. apply NoDup_cons. split; [|by apply IH]. intros Hin. apply Hx. apply list_elem_of_fmap in Hin as (y & E & Hy).
  rewrite E. apply list_elem_of_filter in Hy as [_ Hy]. by apply list_elem_of_fmap_2.
Qed.

Lemma base_map_kept now keep l db k : NoDup (map rec_key l) → db < D →
  base_map (base.filter (λ r, kept now keep r = true) l) !! (db, k) =
    if keep k then alive_at now (base_map l !! (db, k)) else None.
Proof.
  intros Hnd Hdb. apply option_eq. intros o. rewrite base_map_Some by (by apply NoDup_rec_key_filter).
  rewrite list_elem_of_filter. unfold kept. cbn [fst snd]. rewrite !andb_true_iff, N.ltb_lt, negb_true_iff.
  unfold alive_at. destruct (base_map l !! (db, k)) as [o'|] eqn:E.
  - apply base_map_Some in E as [Hin <-]; [|done]. cbn [mbind option_bind]. split.
    + intros ((([_ Hk] & He) & Hin') & Heq). assert (base_map l !! (db, ko_key o') = Some o) as E.
      { by apply base_map_Some. }
      assert (base_map l !! (db, ko_key o') = Some o') as E' by (by apply base_map_Some).
      rewrite E in E'. injection E' as ->. by rewrite Hk, He.
    + destruct (keep (ko_key o')) eqn:Hk; [|done]. destruct (is_expired now o') eqn:He; [done|]. by intros [= <-].
  - cbn. split; [|by destruct (keep k)]. intros ((_ & Hin) & Heq).
    assert (base_map l !! (db, k) = Some o) as E' by (by apply base_map_Some). by rewrite E in E'.
Qed.

(** ** The load *)

Lemma load_bases dir bs s b now keep : Forall (base_file dir) bs → holds D s b →
  wp False (total_each bs.*1 (λ e, match read_validated_shard_file dir e with
      | Some body => load_records_into decode_kvobj body now keep | None => mret 0 end))
    (λ _ s', holds D s' (bind_all (map canon_rec (base.filter (λ r, kept now keep r = true) (concat bs.*2))) b)) s.
Proof.
  intros Hb H. revert s b H. induction Hb as [|x bs Hx Hb IH]; intros s b H; cbn [fmap list_fmap total_each concat]; [by apply wp_ret|].
  rewrite (read_base_file dir x Hx). apply wp_bind. eapply wp_mono; [by apply load_records_holds|].
  assert (Forall (λ r, good r.2) x.2) as Hgood.
  { destruct Hx as (_ & _ & _ & Hr & _). eapply Forall_impl; [done|]. by intros r (_ & _ & ?). }
  rewrite (base_records dir x Hx), omap_record_binding by done. intros n s' H'. apply wp_bind.
  eapply wp_mono; [by apply IH|]. intros n' s'' H''. apply wp_ret. by rewrite filter_app, map_app, bind_all_app.
Qed.

Lemma snapshot_effects_ok dir ds x : Forall (delta_file dir) ds →
  x ∈ map_to_list (fold_records ∅ (concat ds.*2)) → effect_ok decode_kvobj x.
Proof.
  intros Hd Hin. destruct x as [key e]. apply elem_of_map_to_list in Hin. rewrite fold_records_lookup in Hin.
  destruct (last _) as [r|] eqn:El; [|by rewrite lookup_empty in Hin]. injection Hin as <-.
  apply last_Some_elem_of, list_elem_of_filter in El as [<- Hr].
  apply list_elem_of_In, in_concat in Hr as (rs & Hrs & Hr). apply list_elem_of_In, list_elem_of_fmap in Hrs as (d & -> & Hdin).
  rewrite Forall_forall in Hd. destruct (Hd d Hdin) as (_ & _ & _ & _ & _ & Hwf & _).
  rewrite Forall_forall in Hwf. apply list_elem_of_In in Hr. destruct (Hwf r Hr) as [_ Hput]. by destruct r.
Qed.

(** From any empty store, a boot keeps of the snapshot the keys routed to it. *)
Lemma load_snapshot dir m bs ds s i n now route : snapshot dir m bs ds → holds D s no_bindings → n ≠ 0 →
  wp False (load_shard_resharded decode_kvobj dir i n now route)
    (λ _ s', holds D s' (λ db k, if bool_decide (route k n = i) then snap_lookup bs ds now db k else None)) s.
Proof.
  intros [H1 H2 H3 H4 H5 H6 H7 H8 H9] H Hn. unfold load_shard_resharded, read_manifest.
  rewrite H1, obind_Some, manifest_decode_encode by done. rewrite decide_False by done.
  set (keep := λ key, bool_decide (route key n = i)). apply wp_bind. rewrite H3.
  eapply wp_mono; [by apply load_bases|]. cbn beta. intros total s' H'.
  set (b0 := bind_all _ no_bindings) in H'.
  assert (∀ db k, db < D → b0 db k = if keep k then alive_at now (canon <$> base_map (concat bs.*2) !! (db, k)) else None) as Hb0.
  { intros db k Hdb. unfold b0. rewrite bind_all_lookup by (rewrite rec_keys_canon; by apply NoDup_rec_key_filter).
    rewrite base_map_canon, lookup_fmap, base_map_kept, alive_at_canon by done.
    unfold no_bindings. by destruct (keep k), (alive_at now (base_map (concat bs.*2) !! (db, k))). }
  assert (alive now (λ db k, if decide (db < D) then b0 db k else None)) as Hal.
  { intros db k o. case_decide; [|done]. rewrite Hb0 by done. destruct (keep k); [|done]. unfold alive_at.
    destruct (base_map _ !! _) as [o'|]; [|done]. cbn. destruct (is_expired now (canon o')) eqn:E; [done|]. by intros [= <-]. }
  assert (holds D s' (λ db k, if decide (db < D) then b0 db k else None)) as H0.
  { destruct H' as (A & B & C). split; [done|]. split; [done|]. intros db k Hdb. rewrite C by done. by rewrite decide_True. }
  assert (∀ s1, holds D s1 (λ db k, if keep k then match fold_records ∅ (concat ds.*2) !! (db, k) with
      Some e => eval_effect decode_kvobj now e | None => if decide (db < D) then b0 db k else None end
      else if decide (db < D) then b0 db k else None) →
    holds D s1 (λ db k, if keep k then snap_lookup bs ds now db k else None)) as Hfin.
  { intros s1 (A & B & C). split; [done|]. split; [done|]. intros db k Hdb. rewrite C by done. unfold snap_lookup.
    rewrite !decide_True, Hb0 by done. destruct (keep k); [|done]. by destruct (fold_records _ _ !! _). }
  rewrite H4. destruct ds as [|d ds].
  - rewrite decide_True by done. apply wp_ret, Hfin. destruct H0 as (A & B & C). split; [done|]. split; [done|].
    intros db k Hdb. rewrite C by done. cbn [concat fmap list_fmap fold_records foldl]. rewrite lookup_empty. by destruct (keep k).
  - rewrite decide_False by done. rewrite (good_bodies_all dir (m_save_id m) (d :: ds)) by done.
    rewrite decide_False by done. apply wp_bind.
    assert (fold_deltas (map (λ d, concat (map put_delta_record d.2)) (d :: ds)) = fold_records ∅ (concat (d :: ds).*2)) as Hfold.
    { by rewrite fold_deltas_records, (chain_bodies dir). }
    eapply wp_mono; [apply apply_chain_holds; [done|done|]|].
    + intros x. rewrite Hfold. by apply (snapshot_effects_ok dir).
    + cbn beta. intros net s'' H''. rewrite Hfold in H''. apply wp_ret. by apply Hfin.
Qed.

End chain.
