(* ===== verification/KvCodec.v ===== *)
(** * The wire form of an entry

    crates/ironcache-repl/src/kvcodec.rs, the codec that carries one entry to a
    replica and to disk, with the transfer type [KvObj] of
    crates/ironcache-store/src/kvobj.rs it works on and its conversions from and to
    a stored entry. Every reading loop takes bytes for each element, so the bytes
    left bound its rounds. *)

From Stdlib Require Import Lia ZArith NArith.
From S2P Require Import Prelude RaftCodec Resp ReplDisk Keyspace Values Snapshot.
From stdpp Require Import strings sorting.

#[local] Open Scope N_scope.

(** ** The transfer type *)

Inductive ValueRepr :=
  | RInt (n : Z)
  | RInline (b : list byte)
  | RRaw (b : list byte)
  | RList (l : ListVal)
  | RHash (h : HashVal)
  | RSet (s : SetVal)
  | RZSet (z : ZSetVal).

Definition repr_encoding (v : ValueRepr) : Encoding :=
  match v with
  | RInt _ => EInt
  | RInline _ => EEmbStr
  | RRaw _ => ERaw
  | RList l => list_encoding l
  | RHash h => hash_encoding h
  | RSet s => set_encoding s
  | RZSet z => zset_encoding z
  end.

Record Transfer := mkTransfer {
  t_type : DataType; t_encoding : Encoding; t_key : list byte; t_value : ValueRepr; t_expire : option N
}.

(** [KvObj::from_bytes]: a string, classified. *)
Definition from_bytes (key bytes : list byte) (expire_at : option N) : Transfer :=
  let value := match classify bytes with CInt n => RInt n | CEmbStr => RInline bytes | CRaw => RRaw bytes end in
  mkTransfer TString (repr_encoding value) key value expire_at.

(** [KvObj::from_list] and its siblings, with [recompute_encoding]. *)
Definition from_coll (ty : DataType) (key : list byte) (v : ValueRepr) (expire_at : option N) : Transfer :=
  mkTransfer ty (repr_encoding v) key v expire_at.

(** [Entry::to_kvobj]. *)
Definition to_repr (v : Val) : ValueRepr :=
  match v with
  | VList l => RList l
  | VHash h => RHash h
  | VSet s => RSet s
  | VZSet z => RZSet z
  | VStr EInt b => match str_parse I64_MIN I64_MAX b with Some n => RInt n | None => RRaw b end
  | VStr ERaw b => RRaw b
  | VStr _ b => RInline b
  end.

Definition to_kvobj (o : KvObj Val) : Transfer :=
  mkTransfer (val_type (ko_value o)) (val_encoding (ko_value o)) (ko_key o) (to_repr (ko_value o)) (ko_expire o).

(** [Entry::from_kvobj]: a string keeps the encoding of the header. *)
Definition from_kvobj (t : Transfer) : KvObj Val :=
  mkObj (t_key t) (t_expire t)
    match t_value t with
    | RInt n => str_from_int n
    | RInline b | RRaw b => VStr (t_encoding t) b
    | RList l => VList l
    | RHash h => VHash h
    | RSet s => VSet s
    | RZSet z => VZSet z
    end.

(** ** Tags *)

Definition type_to_tag (t : DataType) : N :=
  match t with TString | TStream => 0 | TList => 1 | TSet => 2 | THash => 3 | TZSet => 4 end.

Definition LISTPACKEX : N := 8.
Definition HASHTABLEEX : N := 9.

Definition enc_to_tag (e : Encoding) : N :=
  match e with
  | EInt => 0 | EEmbStr => 1 | ERaw => 2 | EListPack => 3 | EQuickList => 4
  | EIntSet => 5 | EHashTable => 6 | ESkipList => 7 | EListPackEx => LISTPACKEX
  end.

Definition tag_to_enc (tag : N) : option Encoding :=
  match tag with
  | 0 => Some EInt
  | 1 => Some EEmbStr
  | 2 => Some ERaw
  | 3 => Some EListPack
  | 4 => Some EQuickList
  | 5 => Some EIntSet
  | 6 | 9 => Some EHashTable
  | 7 => Some ESkipList
  | 8 => Some EListPackEx
  | _ => None
  end.

(** ** Encoding *)

Definition put_expire (expire_at : option N) : list byte :=
  match expire_at with Some ms => put_u8 1 ++ put_u64 ms | None => put_u8 0 end.

Definition put_pair (x : list byte * list byte) : list byte := put_bytes32 x.1 ++ put_bytes32 x.2.

(** A member and its score, or a field and its deadline. *)
Definition put_scored (x : list byte * N) : list byte := put_bytes32 x.1 ++ put_u64 x.2.

Definition put_all {A} (p : A → list byte) (l : list A) : list byte := put_count l ++ concat (map p l).

Definition put_value (v : ValueRepr) : list byte :=
  match v with
  | RInt n => put_bytes32 (i64_to_str n)
  | RInline b | RRaw b => put_bytes32 b
  | RList l => put_all put_bytes32 (list_range 0 (-1) l)
  | RHash h =>
      put_all put_pair (hash_pairs h) ++
      (if decide (is_Some (h_ttls h)) then put_all put_scored (field_ttl_pairs h) else [])
  | RSet s => put_all put_bytes32 (members s)
  | RZSet z => put_all put_scored (ordered z)
  end.

Definition encode_kvobj (t : Transfer) : list byte :=
  let enc_byte := match t_value t with
                  | RHash h => match h_ttls h, h_data h with
                               | Some _, HTable _ => HASHTABLEEX
                               | _, _ => enc_to_tag (t_encoding t)
                               end
                  | _ => enc_to_tag (t_encoding t)
                  end in
  put_u8 (type_to_tag (t_type t)) ++ put_u8 enc_byte ++ put_expire (t_expire t) ++ put_bytes32 (t_key t) ++ put_value (t_value t).

(** The same for a stored entry, a string written without the transfer type. *)
Definition encode_entry (o : KvObj Val) : list byte :=
  match ko_value o with
  | VStr e b =>
      put_u8 (type_to_tag TString) ++ put_u8 (enc_to_tag e) ++ put_expire (ko_expire o) ++ put_bytes32 (ko_key o) ++ put_bytes32 b
  | _ => encode_kvobj (to_kvobj o)
  end.

(** ** Decoding *)

Definition get_expire : reader (option N) :=
  flag ← cur_u8;
  match flag with
  | 0 => mret None
  | 1 => ms ← cur_u64; mret (Some ms)
  | _ => reject
  end.

Definition get_pair : reader (list byte * list byte) := f ← cur_bytes32; v ← cur_bytes32; mret (f, v).
Definition get_scored : reader (list byte * N) := m ← cur_bytes32; s ← cur_u64; mret (m, s).

Definition build_list (encoding : Encoding) (elems : list (list byte)) : ListVal :=
  let l := list_from elems unlimited in
  if decide (encoding = EQuickList) then force_quicklist l else l.

Definition build_hash (encoding : Encoding) (pairs : list (list byte * list byte)) (ttls : list (list byte * N)) : HashVal :=
  let h := hash_from pairs unlimited in
  let h := if decide (encoding = EHashTable) then hash_force_large h else h in
  foldl (λ h x, set_field_ttl x.1 x.2 h) h ttls.

Definition build_set (encoding : Encoding) (ms : list (list byte)) : SetVal :=
  let s := from_members ms unlimited in
  match encoding with
  | EHashTable => set_convert_to_hashtable s
  | EListPack => convert_intset_to_listpack s
  | _ => s
  end.

Definition build_zset (encoding : Encoding) (pairs : list (list byte * N)) : ZSetVal :=
  let z := from_pairs pairs unlimited in
  if decide (encoding = ESkipList) then convert_to_skiplist z else z.

(** The arms of the decoder, by the type. *)
Definition get_value (type_tag enc_byte : N) (encoding : Encoding) (key : list byte) (expire_at : option N) : reader Transfer :=
  match type_tag with
  | 0 =>
      bytes ← cur_bytes32;
      mret (mkTransfer TString encoding key (t_value (from_bytes key bytes expire_at)) expire_at)
  | 1 => elems ← cur_list32 cur_bytes32; mret (from_coll TList key (RList (build_list encoding elems)) expire_at)
  | 2 => ms ← cur_list32 cur_bytes32; mret (from_coll TSet key (RSet (build_set encoding ms)) expire_at)
  | 3 =>
      pairs ← cur_list32 get_pair;
      ttls ← (if decide (enc_byte = LISTPACKEX ∨ enc_byte = HASHTABLEEX) then cur_list32 get_scored else mret []);
      mret (from_coll THash key (RHash (build_hash encoding pairs ttls)) expire_at)
  | 4 => pairs ← cur_list32 get_scored; mret (from_coll TZSet key (RZSet (build_zset encoding pairs)) expire_at)
  | _ => reject
  end.

Definition get_kvobj : reader Transfer :=
  type_tag ← cur_u8;
  enc_byte ← cur_u8;
  encoding ← lift (tag_to_enc enc_byte);
  expire_at ← get_expire;
  key ← cur_bytes32;
  get_value type_tag enc_byte encoding key expire_at.

(** Every arm wants the buffer consumed before it builds. *)
Definition decode_kvobj (buf : list byte) : option Transfer := whole get_kvobj buf.

(** Decoding into the store, as [insert_object] does. *)
Definition decode_entry (buf : list byte) : option (KvObj Val) := from_kvobj <$> decode_kvobj buf.
