(* ===== verification/KvCodecProofs.v ===== *)
(** * The wire form of an entry round-trips

    Whatever the type, the encoding, the deadline and the field deadlines of an
    entry, decoding its wire form gives the entry back, up to the order of the
    integers a listpack set starts with and the encoding of a string that is the
    text of an integer; and the fast path for strings writes the same bytes as the
    general one. *)

From Stdlib Require Import Lia ZArith NArith.
From S2P Require Import Prelude RaftCodec RaftCodecProofs Resp ReplDisk ReplDiskProofs Keyspace Values ValuesText ValuesProofs ValuesHash ValuesSets ValuesZset Snapshot SnapshotProofs SnapshotLoad SnapshotChain KvCodec.
From stdpp Require Import strings gmap sorting.

#[local] Open Scope N_scope.

Definition short (b : list byte) : Prop := len b < 2 ^ 32.

Lemma short_U64 b : short b → len b ≤ U64_MAX.
Proof. unfold short, U64_MAX. lia. Qed.

(** ** Rebuilding lists *)

Lemma list_from_unlimited es : len es < 2 ^ 32 →
  list_from es unlimited = mkList es (sum_of len es) (bool_decide (64 * 1024 < sum_of len es)).
Proof.
  unfold list_from. induction es as [|e es IH] using rev_ind; intros Hl; [done|].
  rewrite foldl_app. cbn [foldl]. rewrite IH by (unfold len in *; rewrite length_app in Hl; lia).
  unfold push_back. cbn [l_elems l_total l_quick]. assert (sum_of len (es ++ [e]) = sum_of len es + len e) as Es.
  { rewrite sum_of_app, sum_of_cons. change (sum_of len (@nil (list byte))) with 0. lia. }
  rewrite Es. unfold maybe_ratchet_quicklist. cbn [l_quick]. case_bool_decide as H1.
  - f_equal. symmetry. apply bool_decide_eq_true_2. lia.
  - cbn [list_budget unlimited list_max_listpack_size l_elems l_total]. case_decide as H2; f_equal; symmetry.
    + apply bool_decide_eq_true_2. destruct H2 as [H2|H2]; [exact H2|]. unfold U64_MAX in H2. lia.
    + apply bool_decide_eq_false_2. lia.
Qed.

Lemma list_range_all l : list_range 0 (-1) l = l_elems l.
Proof.
  unfold list_range. destruct (resolve_range_spec 0 (-1) (l_elems l)) as [H _]. destruct (resolve_range _ 0 (-1)). cbn [fst snd] in *.
  rewrite H. unfold spec_slice. repeat case_decide; try lia. change (Z.to_nat (Z.max 0 0)) with 0%nat. rewrite drop_0. apply take_ge. lia.
Qed.

Lemma build_list_ok l : list_ok l → len (l_elems l) < 2 ^ 32 → build_list (list_encoding l) (l_elems l) = l.
Proof.
  intros [H1 H2] Hl. unfold build_list, list_encoding. rewrite list_from_unlimited by done. rewrite <- H1.
  destruct l as [es total q]. cbn [l_elems l_total l_quick] in *. destruct q.
  - rewrite decide_True by done. done.
  - rewrite decide_False by done. f_equal. apply bool_decide_eq_false_2. specialize (H2 eq_refl). lia.
Qed.

(** ** Rebuilding hashes *)

Lemma hash_from_unlimited ps : NoDup ps.*1 → len ps < 2 ^ 32 → Forall (λ y, short y.1 ∧ short y.2) ps →
  hash_from ps unlimited = mkHash (HListPack ps) None.
Proof.
  unfold hash_from. induction ps as [|[f x] ps IH] using rev_ind; intros Hnd Hl Hs; [done|].
  rewrite foldl_app. cbn [foldl fst snd]. rewrite fmap_app, NoDup_app in Hnd. destruct Hnd as (Hnd & Hf & _).
  apply Forall_app in Hs as [Hs [[Hs1 Hs2] _]%Forall_cons]. unfold len in Hl. rewrite length_app in Hl. cbn [fst snd length] in *.
  rewrite IH by (done || (unfold len; lia)). unfold hash_set. cbn [h_data h_ttls]. pose proof (hash_pos_split f ps Hnd) as Hp.
  destruct (hash_listpack_pos f ps) as [i|].
  - destruct Hp as (w & _ & Hi & _). exfalso. apply (Hf f); [|by left]. apply list_elem_of_fmap. exists (f, w). split; [done|]. by eapply list_elem_of_lookup_2.
  - unfold should_convert. cbn [unlimited hash_max_listpack_entries hash_max_listpack_value]. rewrite bool_decide_eq_false_2; [done|].
    rewrite length_app. cbn [length]. apply short_U64 in Hs1, Hs2. unfold U64_MAX in *. lia.
Qed.

Lemma set_field_ttls_spec ts h : foldl (λ h x, set_field_ttl x.1 x.2 h) h ts =
  mkHash (h_data h) (if decide (ts = []) then h_ttls h else Some (foldl (λ m x, <[x.1 := x.2]> m) (default ∅ (h_ttls h)) ts)).
Proof.
  revert h. induction ts as [|t ts IH]; intros h; [by destruct h|]. cbn [foldl]. rewrite IH, (decide_False (P := t :: ts = [])) by done.
  unfold set_field_ttl. cbn [h_data h_ttls default]. f_equal. by case_decide; [subst|].
Qed.

Lemma field_ttl_pairs_perm ttls d : field_ttl_pairs (mkHash d (Some ttls)) ≡ₚ map_to_list ttls.
Proof. apply merge_sort_Permutation. Qed.

Lemma list_to_map_sorted {A} (l : list (list byte * A)) (m : gmap (list byte) A) : l ≡ₚ map_to_list m →
  NoDup l.*1 ∧ list_to_map l = m.
Proof.
  intros Hp. assert (NoDup l.*1) as Hnd by (rewrite Hp; apply NoDup_fst_map_to_list). split; [done|].
  rewrite (list_to_map_proper l _ Hnd Hp). apply list_to_map_to_list.
Qed.

Lemma build_hash_ok h : hash_ok h → N.of_nat (hash_len h) < 2 ^ 32 → (∀ f x, hmap (h_data h) !! f = Some x → short f ∧ short x) →
  build_hash (hash_encoding h) (hash_pairs h) (if decide (is_Some (h_ttls h)) then field_ttl_pairs h else []) = h.
Proof.
  intros (Hd & Hne & _) Hl Hs. pose proof (hash_pairs_perm h Hd) as Hp. destruct (list_to_map_sorted _ _ Hp) as [Hnd Hm].
  assert (hash_from (hash_pairs h) unlimited = mkHash (HListPack (hash_pairs h)) None) as Hf.
  { apply hash_from_unlimited; [done| |].
    - unfold len. rewrite Hp, length_map_to_list, <- hash_len_spec by done. done.
    - rewrite Hp. apply Forall_forall. intros [f x] Hin%elem_of_map_to_list. by apply Hs. }
  unfold build_hash. rewrite Hf, set_field_ttls_spec. destruct h as [d ttls]. cbn [h_data h_ttls] in *.
  set (h0 := if decide _ then _ else _ : HashVal). assert (h0 = mkHash d None) as ->.
  { unfold h0. destruct d as [v|m].
    - rewrite decide_False by (unfold hash_encoding; cbn; by case_decide). done.
    - rewrite decide_True by done. unfold hash_force_large. cbn [h_data h_ttls convert_to_hashtable]. rewrite foldl_insert_spec by done. by rewrite Hm. }
  f_equal. destruct ttls as [ttls|]; [|by rewrite (decide_False (P := is_Some None)) by (by intros [])].
  rewrite (decide_True (P := is_Some (Some ttls))) by done. pose proof (field_ttl_pairs_perm ttls d) as Hq. destruct (list_to_map_sorted _ _ Hq) as [Hqd Hqm].
  rewrite decide_False.
  - cbn [h_ttls default]. by rewrite foldl_insert_spec, Hqm.
  - intros E. rewrite E in Hq. symmetry in Hq. apply Permutation_nil_r, map_to_list_empty_iff in Hq. by subst.
Qed.

(** ** Rebuilding sets *)

Lemma from_members_spec ms : set_ok (from_members ms unlimited) ∧ smap (from_members ms unlimited) = list_to_set ms.
Proof.
  unfold from_members. induction ms as [|m ms [IH1 IH2]] using rev_ind; [by split; [split; constructor|]|].
  rewrite foldl_app. cbn [foldl]. destruct (set_add_spec m unlimited _ IH1) as (_ & H2 & H3). split; [done|].
  rewrite H3, IH2, list_to_set_app_L. cbn. set_solver.
Qed.

(** Texts of distinct integers rebuild an intset of them. *)
Lemma from_members_ints ns : NoDup ns → Forall in_i64 ns → len ns < 2 ^ 32 →
  ∃ v, from_members (map i64_to_str ns) unlimited = SIntSet v ∧ StronglySorted Z.lt v ∧ v ≡ₚ ns.
Proof.
  unfold from_members. induction ns as [|n ns IH] using rev_ind; intros Hnd Hr Hl; [exists []; by split_and!; [|constructor|]|].
  apply NoDup_app in Hnd as (Hnd & Hn & _). apply Forall_app in Hr as [Hr [Hrn _]%Forall_cons]. unfold len in Hl. rewrite length_app in Hl.
  destruct IH as (v & E & Hs & Hp); [done|done|unfold len; lia|]. rewrite map_app, foldl_app, E. cbn [map foldl set_add].
  assert (parse_canonical_int (i64_to_str n) = Some n) as Hc by (by apply parse_canonical_int_spec).
  assert (Forall in_i64 v) as Hv by (by rewrite Hp). destruct (add_int_spec n _ unlimited v Hc Hs Hv) as (_ & Hok & _).
  rewrite Hc. pose proof (binary_search_split n v Hs) as Hb. unfold add_int in *. destruct (binary_search n v) as [i|i].
  - destruct Hb as (l1 & l2 & Ev & _). exfalso. apply (Hn n); [|by left]. rewrite <- Hp, Ev. rewrite elem_of_app, elem_of_cons. auto.
  - cbn [snd] in *. assert (insert_at i n v ≡ₚ ns ++ [n]) as Hi.
    { unfold insert_at. rewrite <- Permutation_middle. rewrite take_drop, Hp. by rewrite Permutation_app_comm. }
    rewrite decide_False in Hok |- *
      by (cbn [unlimited set_max_intset_entries]; unfold len; rewrite Hi, length_app; unfold U64_MAX; cbn [length] in *; lia).
    exists (insert_at i n v). split; [done|]. split; [apply Hok|done].
Qed.

Lemma sorted_lt_unique (v w : list Z) : StronglySorted Z.lt v → StronglySorted Z.lt w → v ≡ₚ w → v = w.
Proof. intros Hv Hw. apply (StronglySorted_unique_strong Z.lt); [|done|done]. intros; lia. Qed.

(** Members that are new to a listpack are appended to it. *)
Lemma listpack_extend acc ms : NoDup (acc ++ ms) → len (acc ++ ms) < 2 ^ 32 → Forall short ms →
  foldl (λ s m, (set_add m unlimited s).2) (SListPack acc) ms = SListPack (acc ++ ms).
Proof.
  revert acc. induction ms as [|m ms IH]; intros acc Hnd Hl Hs; [by rewrite app_nil_r|]. apply Forall_cons in Hs as [Hm Hs].
  assert (m ∉ acc) as Hin. { apply NoDup_app in Hnd as (_ & Hn & _). intros Hin. apply (Hn m Hin). by left. }
  cbn [foldl set_add]. unfold listpack_add. rewrite decide_False by done. cbn [snd]. unfold set_listpack_overflows.
  rewrite bool_decide_eq_false_2.
  - replace (acc ++ m :: ms) with ((acc ++ [m]) ++ ms) in * by (by rewrite <- app_assoc). by apply IH.
  - cbn [unlimited set_max_listpack_entries set_max_listpack_value]. apply short_U64 in Hm. unfold len, U64_MAX in *.
    rewrite length_app in *. cbn [length] in *. lia.
Qed.

(** A listpack rebuilds with the integers it starts with in order. *)
Definition canon_listpack (v : list (list byte)) : list (list byte) :=
  let k := leading (λ m, is_Some (parse_canonical_int m)) v in
  map i64_to_str (merge_sort Z.le (omap parse_canonical_int (take k v))) ++ drop k v.

Lemma printed_parse ms : Forall (λ m, is_Some (parse_canonical_int m)) ms →
  map i64_to_str (omap parse_canonical_int ms) = ms ∧ Forall in_i64 (omap parse_canonical_int ms).
Proof.
  induction 1 as [|m ms [n Hn] _ [IH1 IH2]]; [done|]. cbn [omap list_omap]. rewrite Hn. apply parse_canonical_int_spec in Hn as [Hr ->].
  cbn [map]. by rewrite IH1; auto.
Qed.

Lemma sorted_lt_merge_sort v ns : StronglySorted Z.lt v → v ≡ₚ ns → v = merge_sort Z.le ns.
Proof.
  intros Hs Hp. apply (StronglySorted_unique Z.le); [|apply (StronglySorted_merge_sort _)|by rewrite merge_sort_Permutation].
  clear Hp. induction Hs as [|x v _ IH Hx]; constructor; [done|]. eapply Forall_impl; [done|]. cbn. intros; lia.
Qed.

Lemma build_listpack_set v : NoDup v → len v < 2 ^ 32 → Forall short v →
  build_set EListPack v = SListPack (canon_listpack v).
Proof.
  intros Hnd Hl Hs. unfold build_set, canon_listpack. destruct (leading_spec (λ m, is_Some (parse_canonical_int m)) v) as [H1 H2].
  set (k := leading (λ m, is_Some (parse_canonical_int m)) v) in *. destruct (printed_parse _ H1) as [E Hr].
  set (ns := omap parse_canonical_int (take k v)) in *.
  assert (NoDup (take k v ++ drop k v)) as Hnd' by (by rewrite take_drop). apply NoDup_app in Hnd' as (Hnt & Hx & Hndr).
  assert (NoDup ns) as Hnn by (rewrite <- E in Hnt; by eapply NoDup_fmap_1).
  assert (length ns = length (take k v)) as Hln by (rewrite <- E; by rewrite length_map).
  destruct (from_members_ints ns Hnn Hr) as (w & Ew & Hw & Hp); [unfold len in *; rewrite Hln, length_take; lia|].
  rewrite <- (sorted_lt_merge_sort w ns Hw Hp). rewrite <- (take_drop k v) at 1. unfold from_members in *. rewrite foldl_app, <- E, Ew.
  assert (map i64_to_str w ≡ₚ take k v) as Hpw by (rewrite <- E; by apply Permutation_map).
  destruct (drop k v) as [|m rest] eqn:Ed; [cbn; by rewrite app_nil_r|].
  assert (parse_canonical_int m = None) as Hm.
  { apply eq_None_not_Some, (H2 m). rewrite <- (Nat.add_0_r k), <- lookup_drop, Ed. done. }
  change (foldl (λ s m, (set_add m unlimited s).2) (SIntSet w) (m :: rest)) with
    (foldl (λ s m, (set_add m unlimited s).2) (set_add m unlimited (SIntSet w)).2 rest).
  assert ((set_add m unlimited (SIntSet w)).2 = (set_add m unlimited (SListPack (map i64_to_str w))).2) as -> by (cbn; by rewrite Hm).
  change (foldl (λ s m, (set_add m unlimited s).2) (set_add m unlimited (SListPack (map i64_to_str w))).2 rest) with
    (foldl (λ s m, (set_add m unlimited s).2) (SListPack (map i64_to_str w)) (m :: rest)).
  rewrite listpack_extend; [done|..].
  - rewrite Hpw, <- Ed, take_drop. done.
  - unfold len. rewrite Hpw, <- Ed, take_drop. done.
  - rewrite <- Ed. by apply Forall_drop.
Qed.

Definition canon_set (s : SetVal) : SetVal := match s with SListPack v => SListPack (canon_listpack v) | _ => s end.

Lemma canon_listpack_perm v : NoDup v → canon_listpack v ≡ₚ v.
Proof.
  intros Hnd. unfold canon_listpack. destruct (leading_spec (λ m, is_Some (parse_canonical_int m)) v) as [H1 _].
  set (k := leading (λ m, is_Some (parse_canonical_int m)) v) in *. destruct (printed_parse _ H1) as [E _].
  transitivity (take k v ++ drop k v); [|by rewrite take_drop]. apply Permutation_app; [|done].
  transitivity (map i64_to_str (omap parse_canonical_int (take k v))); [apply Permutation_map, merge_sort_Permutation|by rewrite E].
Qed.

Lemma build_set_ok s : set_ok s → N.of_nat (set_card s) < 2 ^ 32 → (∀ m, m ∈ smap s → short m) →
  build_set (set_encoding s) (members s) = canon_set s.
Proof.
  destruct s as [v|v|m]; cbn [set_encoding members canon_set set_card smap]; intros Hok Hl Hs.
  - destruct Hok as [Hv Hr]. destruct (from_members_ints v) as (w & E & Hw & Hp); [by apply StronglySorted_NoDup|done|done|].
    unfold build_set. rewrite E. by rewrite (sorted_lt_unique w v).
  - apply build_listpack_set; [done|done|]. apply Forall_forall. intros x Hx. apply Hs. by rewrite elem_of_list_to_set.
  - unfold build_set. destruct (from_members_spec (merge_sort scan_le (elements m))) as [_ H2].
    assert (∀ s, set_convert_to_hashtable s = STable (smap s)) as -> by (by intros []). rewrite H2. f_equal.
    apply set_eq. intros x. rewrite elem_of_list_to_set, (merge_sort_Permutation scan_le). by rewrite elem_of_elements.
Qed.

(** ** Rebuilding sorted sets *)

Lemma from_pairs_unlimited ps : NoDup ps.*1 → len ps < 2 ^ 32 → Forall (λ y, short y.1) ps →
  from_pairs ps unlimited = ZListPack (in_order (list_to_map ps)).
Proof.
  intros Hnd Hl Hs.
  enough (zset_ok (from_pairs ps unlimited) ∧ zmap (from_pairs ps unlimited) = list_to_map ps ∧ ∃ v, from_pairs ps unlimited = ZListPack v)
    as (Hok & Hm & v & E).
  { pose proof (ordered_spec _ Hok) as Ho. rewrite Hm, E in Ho. cbn in Ho. by rewrite E, Ho. }
  unfold from_pairs. induction ps as [|[m s] ps IH] using rev_ind; [split; [split; constructor|by eauto]|].
  rewrite fmap_app in Hnd. apply NoDup_app in Hnd as (Hnd & Hm & _). apply Forall_app in Hs as [Hs [Hms _]%Forall_cons].
  unfold len in Hl. rewrite length_app in Hl. cbn [fst length] in *. destruct IH as (Hok & Hz & v & E); [done|unfold len; lia|done|].
  rewrite foldl_app. cbn [foldl fst snd]. destruct (zset_put_spec m s unlimited _ Hok) as (_ & P2 & P3). split; [done|]. split.
  - rewrite P3, Hz. symmetry. rewrite (list_to_map_proper (ps ++ [(m, s)]) ((m, s) :: ps)); [done| |by rewrite Permutation_app_comm].
    rewrite fmap_app. apply NoDup_app. split; [done|]. split; [done|apply NoDup_singleton].
  - assert (length v = length ps) as Hv.
    { pose proof (zset_len_spec _ Hok) as Hlen. rewrite Hz, map_size_list_to_map in Hlen by done. by rewrite E in Hlen. }
    rewrite E. cbn [zset_put]. set (p := match zset_listpack_pos m v with Some i => _ | None => _ end : bool * list (list byte * N)).
    assert (length p.2 ≤ S (length v))%nat as Hp.
    { unfold p. destruct (zset_listpack_pos m v); cbn [snd]; rewrite insert_sorted_perm; cbn [length]; [|lia].
      unfold list_remove_at. rewrite length_app, length_take, length_drop. lia. }
    destruct p as [new v']. cbn [snd] in *. unfold zset_listpack_overflows. rewrite bool_decide_eq_false_2; [by eauto|].
    cbn [unlimited zset_max_listpack_entries zset_max_listpack_value]. apply short_U64 in Hms. unfold U64_MAX in *. lia.
Qed.

Lemma build_zset_ok z : zset_ok z → N.of_nat (zset_len z) < 2 ^ 32 → (∀ m s, zmap z !! m = Some s → short m) →
  build_zset (zset_encoding z) (ordered z) = z.
Proof.
  intros Hok Hl Hs. rewrite ordered_spec by done. destruct (in_order_spec (zmap z)) as (_ & Hp & Hnd).
  destruct (list_to_map_sorted _ _ Hp) as [_ Hm]. unfold build_zset. rewrite from_pairs_unlimited, Hm; [|done| |].
  - destruct z as [v|index scores]; cbn [zset_encoding].
    + rewrite decide_False by done. by rewrite <- ordered_spec.
    + rewrite decide_True by done. cbn [zmap convert_to_skiplist] in *. rewrite foldl_insert_spec, Hm by done. f_equal.
      apply set_eq. intros [m s]. rewrite elem_of_list_to_set, Hp, elem_of_map_to_list. symmetry. apply Hok.
  - unfold len. rewrite Hp, length_map_to_list, <- zset_len_spec by done. done.
  - rewrite Hp. apply Forall_forall. intros [m s] Hin%elem_of_map_to_list. by eapply Hs.
Qed.

(** ** Reading *)

Lemma put_bytes32_nonempty b : put_bytes32 b ≠ [].
Proof. done. Qed.

Lemma reads_byte_strings l : len l < 2 ^ 32 → Forall short l → reads (cur_list32 cur_bytes32) (put_all put_bytes32 l) l.
Proof.
  intros Hl Hs. apply reads_list32; [done| |].
  - eapply Forall_impl; [done|]. intros b Hb. by apply reads_bytes32.
  - by apply Forall_forall.
Qed.

Lemma reads_field_pairs l : len l < 2 ^ 32 → Forall (λ y, short y.1 ∧ short y.2) l → reads (cur_list32 get_pair) (put_all put_pair l) l.
Proof.
  intros Hl Hs. apply reads_list32; [done| |].
  - eapply Forall_impl; [done|]. intros [f x] [Hf Hx]. unfold put_pair, get_pair. eapply reads_bind; [by apply reads_bytes32|].
    apply (reads_map cur_bytes32 (λ v, (f, v))). by apply reads_bytes32.
  - by apply Forall_forall.
Qed.

Lemma reads_scored l : len l < 2 ^ 32 → Forall (λ y, short y.1 ∧ y.2 ≤ U64_MAX) l → reads (cur_list32 get_scored) (put_all put_scored l) l.
Proof.
  intros Hl Hs. apply reads_list32; [done| |].
  - eapply Forall_impl; [done|]. intros [m s] [Hm Hx]. unfold put_scored, get_scored. eapply reads_bind; [by apply reads_bytes32|].
    apply (reads_map cur_u64 (λ s, (m, s))). by apply reads_u64.
  - by apply Forall_forall.
Qed.

Lemma reads_expire e : (∀ d, e = Some d → d ≤ U64_MAX) → reads get_expire (put_expire e) e.
Proof.
  intros He. destruct e as [d|]; cbn [put_expire].
  - eapply reads_bind; [by apply reads_u8|]. apply (reads_map cur_u64 Some). apply reads_u64. by apply He.
  - rewrite <- (app_nil_r (put_u8 0)). eapply reads_bind; [by apply reads_u8|]. apply reads_ret.
Qed.

Lemma reads_lift {A B} (o : option A) (k : A → reader B) x e y : o = Some x → reads (k x) e y → reads (a ← lift o; k a) e y.
Proof. intros -> Hk. exact Hk. Qed.

(** ** Entries *)

(** What the store keeps of its values, and lengths and numbers that fit their
    fields on the wire. *)
Definition val_wf (v : Val) : Prop :=
  match v with
  | VStr e b => short b ∧ match e with EInt => ∃ n, in_i64 n ∧ b = i64_to_str n | EEmbStr | ERaw => True | _ => False end
  | VList l => list_ok l ∧ len (l_elems l) < 2 ^ 32 ∧ Forall short (l_elems l)
  | VHash h =>
      hash_ok h ∧ N.of_nat (hash_len h) < 2 ^ 32 ∧ (∀ f x, hmap (h_data h) !! f = Some x → short f ∧ short x) ∧
      ∀ f d, field_ttl f h = Some d → d ≤ U64_MAX
  | VSet s => set_ok s ∧ N.of_nat (set_card s) < 2 ^ 32 ∧ ∀ m, m ∈ smap s → short m
  | VZSet z => zset_ok z ∧ N.of_nat (zset_len z) < 2 ^ 32 ∧ ∀ m s, zmap z !! m = Some s → short m ∧ s ≤ U64_MAX
  end.

Definition obj_wf (o : KvObj Val) : Prop :=
  short (ko_key o) ∧ (∀ d, ko_expire o = Some d → d ≤ U64_MAX) ∧ val_wf (ko_value o).

(** A string of digits is an integer again, and a listpack set is in canonical
    order; nothing else changes. *)
Definition canon (v : Val) : Val :=
  match v with
  | VStr e b => match classify b with CInt _ => VStr EInt b | _ => VStr e b end
  | VSet s => VSet (canon_set s)
  | _ => v
  end.

Definition canon_obj (o : KvObj Val) : KvObj Val := mkObj (ko_key o) (ko_expire o) (canon (ko_value o)).

(** The header, then the payload by its tag. *)
Lemma reads_kvobj tag enc encoding key expire payload r : tag < 256 → enc < 256 → tag_to_enc enc = Some encoding → short key →
  (∀ d, expire = Some d → d ≤ U64_MAX) → reads (get_value tag enc encoding key expire) payload r →
  reads get_kvobj (put_u8 tag ++ put_u8 enc ++ put_expire expire ++ put_bytes32 key ++ payload) r.
Proof.
  intros Htag He Henc Hk Hx Hp. unfold get_kvobj. eapply reads_bind; [by apply reads_u8|].
  eapply reads_bind; [by apply reads_u8|]. eapply reads_lift; [done|]. eapply reads_bind; [by apply reads_expire|].
  eapply reads_bind; [by apply reads_bytes32|]. done.
Qed.

(** The tag of a collection gives its encoding back; that of a hash says whether
    deadlines follow. *)
Lemma enc_tag_ok e : e ≠ EListPackEx → tag_to_enc (enc_to_tag e) = Some e ∧ enc_to_tag e < 256.
Proof. by destruct e. Qed.

Lemma reads_hash h key expire : val_wf (VHash h) →
  let enc := match h_ttls h, h_data h with Some _, HTable _ => HASHTABLEEX | _, _ => enc_to_tag (hash_encoding h) end in
  tag_to_enc enc = Some (hash_encoding h) ∧ enc < 256 ∧
  reads (get_value 3 enc (hash_encoding h) key expire) (put_value (RHash h)) (from_coll THash key (RHash h) expire).
Proof.
  intros (Hok & Hl & Hs & Hd) enc. pose proof Hok as (Hdata & Hne & Httl).
  assert (tag_to_enc enc = Some (hash_encoding h) ∧ enc < 256 ∧ (enc = LISTPACKEX ∨ enc = HASHTABLEEX ↔ is_Some (h_ttls h))) as (E1 & E2 & E3).
  { unfold enc, hash_encoding. destruct (h_ttls h), (h_data h); cbn; split_and!; try done; split; try (intros [|]; done); try by intros [].
    all: intros _; auto. }
  split; [done|]. split; [done|]. cbn [get_value put_value]. pose proof (hash_pairs_perm h Hdata) as Hp.
  eapply reads_bind; [apply reads_field_pairs|].
  - unfold len. by rewrite Hp, length_map_to_list, <- hash_len_spec.
  - rewrite Hp. apply Forall_forall. intros [f x] Hin%elem_of_map_to_list. by apply Hs.
  - set (ttls := if decide (is_Some (h_ttls h)) then field_ttl_pairs h else []).
    apply (reads_last _ (λ ts, from_coll THash key (RHash (build_hash (hash_encoding h) (hash_pairs h) ts)) expire) _ ttls);
      [|unfold ttls; by rewrite build_hash_ok]. rewrite (decide_ext _ _ _ _ E3). unfold ttls. case_decide as Ht; [|apply reads_ret].
    destruct Ht as [t Ht]. destruct h as [d x]. cbn [h_ttls] in Ht. subst x. pose proof (field_ttl_pairs_perm t d) as Hq. apply reads_scored.
    + unfold len. rewrite Hq, length_map_to_list. rewrite hash_len_spec in Hl by done.
      enough (size (dom t) ≤ size (dom (hmap d)))%nat by (rewrite !size_dom in *; cbn [h_data] in Hl; lia).
      apply subseteq_size. intros f Hf. apply elem_of_dom, Httl. by apply elem_of_dom in Hf.
    + rewrite Hq. apply Forall_forall. intros [f dl] Hin%elem_of_map_to_list. cbn. split; [|by apply (Hd f)].
      destruct (Httl f) as [x Hx]; [cbn; by rewrite Hin|]. by apply (Hs f x).
Qed.

Lemma classify_int b n : classify b = CInt n → str_from_int n = VStr EInt b.
Proof.
  unfold classify. destruct (parse_canonical_i64 b) as [k|] eqn:E; [|by case_decide]. intros [= ->].
  apply parse_canonical_i64_spec in E as [_ ->]. done.
Qed.

Lemma put_string e b : val_wf (VStr e b) → put_value (to_repr (VStr e b)) = put_bytes32 b.
Proof. intros [_ He]. destruct e; try done. destruct He as (n & Hn & ->). cbn. by rewrite str_parse_i64_to_str. Qed.

Lemma reads_entry_kvobj o : obj_wf o →
  ∃ t, reads get_kvobj (encode_kvobj (to_kvobj o)) t ∧ from_kvobj t = canon_obj o.
Proof.
  intros (Hk & Hx & Hv). destruct o as [key expire v]. cbn [ko_key ko_expire ko_value] in *. unfold encode_kvobj, to_kvobj, canon_obj.
  cbn [t_type t_encoding t_key t_value t_expire ko_key ko_expire ko_value].
  destruct v as [e b|l|h|s|z]; cbn [val_type val_encoding type_to_tag canon].
  - destruct Hv as [Hb He]. exists (mkTransfer TString e key (t_value (from_bytes key b expire)) expire). split.
    + rewrite put_string by done. assert (e ≠ EListPackEx) as Hex by (by intros ->). destruct (enc_tag_ok e Hex) as [E1 E2].
      assert (match to_repr (VStr e b) with RHash h => match h_ttls h, h_data h with Some _, HTable _ => HASHTABLEEX | _, _ => enc_to_tag e end
              | _ => enc_to_tag e end = enc_to_tag e) as ->.
      { destruct e; try done. cbn. by destruct (str_parse _ _ b). }
      eapply reads_kvobj; [done|done|done|done|done|]. cbn [get_value].
      apply (reads_map cur_bytes32 (λ bs, mkTransfer TString e key (t_value (from_bytes key bs expire)) expire)). by apply reads_bytes32.
    + unfold from_kvobj, from_bytes. cbn [t_key t_expire t_value t_encoding]. f_equal.
      destruct (classify b) as [n| |] eqn:Ec; [|done|done]. by rewrite (classify_int b n Ec).
  - destruct Hv as (Hok & Hl & Hs). eexists. split.
    + eapply reads_kvobj; [done|by apply enc_tag_ok; unfold list_encoding; destruct (l_quick l)|
        apply enc_tag_ok; unfold list_encoding; by destruct (l_quick l)|done|done|].
      cbn [get_value put_value to_repr]. rewrite list_range_all.
      apply (reads_map _ (λ es, from_coll TList key (RList (build_list (list_encoding l) es)) expire)). by apply reads_byte_strings.
    + cbn. by rewrite build_list_ok.
  - destruct (reads_hash h key expire Hv) as (H1 & H2 & H3). eexists. split; [by eapply reads_kvobj|done].
  - destruct Hv as (Hok & Hl & Hs). eexists. split.
    + eapply reads_kvobj; [done|by apply enc_tag_ok; destruct s|by apply enc_tag_ok; destruct s|done|done|].
      cbn [get_value put_value to_repr]. apply (reads_map _ (λ ms, from_coll TSet key (RSet (build_set (set_encoding s) ms)) expire)).
      destruct (members_spec s Hok) as [Hp Hlen]. apply reads_byte_strings.
      * unfold len. rewrite Hp. by rewrite Hlen in Hl.
      * rewrite Hp. apply Forall_forall. intros m Hm. apply Hs. by apply elem_of_elements.
    + cbn. by rewrite build_set_ok.
  - destruct Hv as (Hok & Hl & Hs). eexists. split.
    + eapply reads_kvobj; [done|by apply enc_tag_ok; destruct z|by apply enc_tag_ok; destruct z|done|done|].
      cbn [get_value put_value to_repr]. apply (reads_map _ (λ ps, from_coll TZSet key (RZSet (build_zset (zset_encoding z) ps)) expire)).
      assert (ordered z ≡ₚ map_to_list (zmap z)) as Hp by (rewrite ordered_spec by done; apply in_order_spec). apply reads_scored.
      * unfold len. rewrite Hp, length_map_to_list, <- zset_len_spec by done. done.
      * rewrite Hp. apply Forall_forall. intros [m sc] Hin%elem_of_map_to_list. by apply Hs.
    + cbn. rewrite build_zset_ok; [done|done|done|]. intros m sc Hm. by apply (Hs m sc).
Qed.

Lemma decode_encode_kvobj o : obj_wf o → decode_entry (encode_kvobj (to_kvobj o)) = Some (canon_obj o).
Proof.
  intros Hwf. destruct (reads_entry_kvobj o Hwf) as (t & Hr & Ht). unfold decode_entry, decode_kvobj, whole.
  rewrite <- (app_nil_r (encode_kvobj (to_kvobj o))), Hr. cbn. by rewrite Ht.
Qed.

Lemma encode_entry_kvobj o : obj_wf o → encode_entry o = encode_kvobj (to_kvobj o).
Proof.
  intros (_ & _ & Hv). unfold encode_entry. destruct (ko_value o) as [e b| | | |] eqn:Ev; try done.
  unfold encode_kvobj, to_kvobj. rewrite Ev. cbn [t_type t_encoding t_key t_value t_expire val_type val_encoding]. rewrite put_string by done.
  destruct e; try done. destruct Hv as (_ & n & Hn & ->). cbn. by rewrite str_parse_i64_to_str.
Qed.

(** The same value: a set in any order, a string of digits under any encoding. *)
Definition same_value (v v' : Val) : Prop :=
  match v, v' with
  | VSet (SListPack a), VSet (SListPack b) => a ≡ₚ b
  | VStr e b, VStr e' b' => b' = b ∧ (parse_canonical_int b = None → e' = e)
  | _, _ => v' = v
  end.

Lemma canon_same v : val_wf v → same_value v (canon v).
Proof.
  destruct v as [e b| | |s|]; try done.
  - intros _. unfold canon, classify. destruct (parse_canonical_i64 b) as [n|] eqn:E; [|by case_decide]. cbn. split; [done|].
    apply parse_canonical_i64_spec, parse_canonical_int_spec in E. congruence.
  - intros (Hok & _). destruct s as [v|v|m]; [done| |done]. apply Permutation_sym. by apply canon_listpack_perm.
Qed.

(** ** Canonical entries are entries the codec carries *)

Lemma canon_wf v : val_wf v → val_wf (canon v).
Proof.
  destruct v as [e b| | |s|]; try done.
  - intros [Hb He]. unfold canon. destruct (classify b) as [n| |] eqn:E; [|done|done]. split; [done|].
    unfold classify in E. destruct (parse_canonical_i64 b) as [k|] eqn:Ek; [|by destruct (decide (len b ≤ EMBSTR_THRESHOLD))]. injection E as ->.
    apply parse_canonical_i64_spec in Ek. by exists n.
  - intros (Hok & Hl & Hs). destruct s as [v|v|m]; [done| |done]. pose proof (canon_listpack_perm v Hok) as Hp. cbn in *. split; [by rewrite Hp|].
    split; [by rewrite Hp|]. intros m Hm. apply Hs. rewrite elem_of_list_to_set in *. by rewrite <- Hp.
Qed.

Lemma length_concat_perm {A} (f : A → list byte) l l' : l ≡ₚ l' → length (concat (map f l)) = length (concat (map f l')).
Proof. induction 1; cbn; rewrite ?length_app in *; lia. Qed.

Lemma canon_length o : obj_wf o → length (encode_entry (canon_obj o)) = length (encode_entry o).
Proof.
  intros (_ & _ & Hv). unfold encode_entry, canon_obj. cbn [ko_value ko_key ko_expire]. destruct (ko_value o) as [e b| | |s|] eqn:Ev.
  - unfold canon. destruct (classify b); [|done|done]. by rewrite !length_app.
  - unfold encode_kvobj, to_kvobj. by rewrite Ev.
  - unfold encode_kvobj, to_kvobj. by rewrite Ev.
  - destruct s as [v|v|m]; unfold encode_kvobj, to_kvobj; rewrite Ev; cbn [canon canon_set]; [done| |done].
    destruct Hv as [Hok _]. pose proof (canon_listpack_perm v Hok) as Hp.
    cbn [t_type t_encoding t_key t_value t_expire val_type val_encoding to_repr put_value members ko_key ko_expire ko_value]. unfold put_all, put_count.
    rewrite !length_app. rewrite (length_concat_perm _ _ _ Hp). unfold put_u32. rewrite !length_to_le_bytes. done.
  - unfold encode_kvobj, to_kvobj. by rewrite Ev.
Qed.

(** What a snapshot or a replica can carry. *)
Definition good_obj (o : KvObj Val) : Prop := obj_wf o ∧ len (encode_entry o) < 2 ^ 32.

#[global] Instance val_codec : EntryCodec encode_entry decode_entry canon_obj good_obj.
Proof.
  constructor; [|done|done| |by intros o []].
  - intros o [Hwf _]. rewrite encode_entry_kvobj by done. by apply decode_encode_kvobj.
  - intros o [Hwf Hl]. unfold good_obj, len. rewrite canon_length by done. split; [|done]. destruct Hwf as (Hk & Hx & Hv).
    split; [done|]. split; [done|]. by apply canon_wf.
Qed.

(** (C14) Decoding the wire form of an entry gives the entry back, whatever its type,
    encoding and deadlines: a string, a list, a hash with its field deadlines, a set
    and a sorted set in the representation they had, except that a listpack set may
    come back with the integers it starts with in order, and that a string which is
    the text of an integer comes back as an integer if it was not held as one (the
    classifier of the store never leaves it so). The persistence path,
    which writes a string without copying it, produces the same bytes. *)
Theorem kvobj_roundtrip (o : KvObj Val) : obj_wf o →
  encode_entry o = encode_kvobj (to_kvobj o) ∧
  ∃ v, decode_entry (encode_entry o) = Some (mkObj (ko_key o) (ko_expire o) v) ∧ same_value (ko_value o) v.
Proof.
  intros Hwf. split; [by apply encode_entry_kvobj|]. exists (canon (ko_value o)). split; [|by apply canon_same, Hwf].
  rewrite encode_entry_kvobj by done. by apply decode_encode_kvobj.
Qed.

Definition example_hash : KvObj Val :=
  mkObj (str "h") (Some 99) (VHash (set_field_ttl (str "f") 7 (hash_from [(str "f", str "1"); (str "g", str "2")] defaults))).

Lemma kvobj_roundtrip_witness : ∃ v, decode_entry (encode_entry example_hash) = Some (mkObj (str "h") (Some 99) v) ∧ v = ko_value example_hash.
Proof.
  destruct (kvobj_roundtrip example_hash) as [_ (v & Hd & Hs)]; [|exists v; split; [exact Hd|exact Hs]].
  split; [done|]. split; [by intros d [= <-]|]. split_and!.
  - split; [|split; [done|]].
    + change (NoDup [str "f"; str "g"]). apply (bool_decide_unpack (NoDup [str "f"; str "g"])). by vm_compute.
    + intros f [d Hd]. cbn in Hd. apply lookup_insert_Some in Hd as [[<- _]|[_ Hd]]; [by eexists|done].
  - done.
  - intros f x Hf. apply (elem_of_list_to_map_2 [(str "f", str "1"); (str "g", str "2")]) in Hf.
    apply elem_of_cons in Hf as [[= -> ->]|[= -> ->]%list_elem_of_singleton]; split; vm_compute; reflexivity.
  - intros f d Hd. cbn in Hd. apply lookup_insert_Some in Hd as [[_ <-]|[_ Hd]]; [done|done].
Defined.

(** The order of a listpack set is not carried: after a member that is no integer
    came and went, the members are in the order they were added; the decoded set
    has them sorted, and its own encoding differs from the one it came from. *)
Example listpack_set_reordered :
  let s := (run_all (λ o, run_set_op o.1 o.2) (map (pair defaults) [SAdd (str "x"); SAdd (str "3"); SAdd (str "1"); SRem (str "x")]) set_new).2 in
  s = SListPack [str "3"; str "1"] ∧
  decode_entry (encode_entry (mkObj (str "k") None (VSet s))) = Some (mkObj (str "k") None (VSet (SListPack [str "1"; str "3"]))) ∧
  encode_entry (mkObj (str "k") None (VSet (SListPack [str "1"; str "3"]))) ≠ encode_entry (mkObj (str "k") None (VSet s)).
Proof. split; [by vm_compute|]. split; [by vm_compute|]. by vm_compute. Qed.
