(* ===== verification/SnapshotBuild.v ===== *)
(** * What a shard writes

    A frozen store dumps exactly its live entries, each once, and a delta holds
    one record per dirty key with the state of the key at the freeze. *)

From Stdlib Require Import Lia ZArith NArith Permutation.
From S2P Require Import Prelude RaftCodec RaftCodecProofs ReplDisk ReplDiskProofs Keyspace KeyspaceProofs KeyspaceOps Snapshot SnapshotSave SnapshotProofs SnapshotLoad SnapshotChain.
From stdpp Require Import strings sorting.

#[local] Open Scope N_scope.

(** Lists told apart by the position of their elements. *)
Lemma NoDup_concat_tagged {A B} (g : nat → A → list B) (tag : B → nat) (l : list A) :
  (∀ i x, l !! i = Some x → NoDup (g i x) ∧ ∀ y, y ∈ g i x → tag y = i) → NoDup (concat (imap g l)).
Proof.
  revert g tag. induction l as [|x l IH]; intros g tag Hg; [apply NoDup_nil_2|]. rewrite imap_cons. cbn [concat].
  destruct (Hg O x eq_refl) as [Hx Htag]. apply NoDup_app. split; [done|]. split.
  - intros y Hy Hin. specialize (Htag y Hy). apply list_elem_of_In, in_concat in Hin as (ys & Hys & Hin).
    apply list_elem_of_In, list_elem_of_lookup in Hys as [i Hi]. rewrite list_lookup_imap in Hi.
    destruct (l !! i) as [z|] eqn:Hz; [|done]. injection Hi as <-. apply list_elem_of_In in Hin.
    destruct (Hg (S i) z Hz) as [_ Ht]. specialize (Ht y Hin). lia.
  - apply (IH (g ∘ S) (pred ∘ tag)). intros i z Hz. destruct (Hg (S i) z Hz) as [H1 H2]. split; [done|].
    intros y Hy. cbn. rewrite (H2 y Hy). done.
Qed.

Lemma elem_of_concat_imap {A B} (g : nat → A → list B) (l : list A) y :
  y ∈ concat (imap g l) ↔ ∃ i x, l !! i = Some x ∧ y ∈ g i x.
Proof.
  rewrite list_elem_of_In, in_concat. split.
  - intros (ys & Hys & Hin). apply list_elem_of_In, list_elem_of_lookup in Hys as [i Hi]. rewrite list_lookup_imap in Hi.
    destruct (l !! i) as [x|] eqn:Hx; [|done]. injection Hi as <-. exists i, x. by rewrite list_elem_of_In.
  - intros (i & x & Hx & Hy). exists (g i x). split; [|by apply list_elem_of_In].
    apply list_elem_of_In, list_elem_of_lookup. exists i. by rewrite list_lookup_imap, Hx.
Qed.

Section build.
Context {V : Type} {Hval : StoredValue V}.
Context (encode_kvobj : KvObj V → list byte) (decode_kvobj : list byte → option (KvObj V)).
Context (canon : KvObj V → KvObj V) (good : KvObj V → Prop).
Context {Hcodec : EntryCodec encode_kvobj decode_kvobj canon good}.
Implicit Types s : ShardStore V.

(** What [begin_save] freezes. *)
Definition frozen_of s : list (FrozenSlot (V := V)) := concat (imap freeze_db (dbs s)).

Lemma elem_of_frozen s f : f ∈ frozen_of s ↔
  ∃ i dbv j t, dbs s !! i = Some dbv ∧ dbv !! j = Some t ∧ size t ≠ 0%nat ∧ f = mkFrozen (N.of_nat i) t.
Proof.
  unfold frozen_of. rewrite elem_of_concat_imap. split.
  - intros (i & dbv & Hi & Hf). apply list_elem_of_fmap in Hf as (t & -> & Ht).
    apply list_elem_of_filter in Ht as [Hs Ht]. apply list_elem_of_lookup in Ht as [j Hj]. by exists i, dbv, j, t.
  - intros (i & dbv & j & t & Hi & Hj & Hs & ->). exists i, dbv. split; [done|]. apply list_elem_of_fmap. exists t.
    split; [done|]. apply list_elem_of_filter. split; [done|]. apply list_elem_of_lookup. by exists j.
Qed.

(** A key is in one frozen table at most, with the binding the store has. *)
Lemma frozen_table_find s f k o : store_ok s → f ∈ frozen_of s → f_table f !! k = Some o →
  find_obj (N.to_nat (f_db f)) k s = Some o.
Proof.
  intros Hok (i & dbv & j & t & Hi & Hj & _ & ->)%elem_of_frozen Hk. cbn [f_table f_db] in *.
  destruct (so_place s Hok _ _ _ _ _ _ Hi Hj Hk) as [_ ->]. unfold find_obj, slot_table. rewrite Nat2N.id, Hi.
  cbn [mbind option_bind]. by rewrite Hj.
Qed.

Lemma frozen_table_exists s db k o : find_obj (N.to_nat db) k s = Some o →
  ∃ f, f ∈ frozen_of s ∧ f_db f = db ∧ f_table f !! k = Some o.
Proof.
  unfold find_obj, slot_table. destruct (dbs s !! N.to_nat db) as [dbv|] eqn:Hi; [|done]. cbn [mbind option_bind].
  destruct (dbv !! _) as [t|] eqn:Hj; [|done]. cbn [mbind option_bind]. intros Hk. exists (mkFrozen db t).
  split; [|done]. apply elem_of_frozen. eexists _, _, _, _. split; [done|]. split; [done|]. split; [|by rewrite N2Nat.id].
  intros Hs. apply map_size_empty_inv in Hs. subst t. by rewrite lookup_empty in Hk.
Qed.

Lemma frozen_get_find s db k : store_ok s → frozen_get (frozen_of s) db k = find_obj (N.to_nat db) k s.
Proof.
  intros Hok. unfold frozen_get. set (l := omap _ _).
  assert (∀ o, o ∈ l → find_obj (N.to_nat db) k s = Some o) as Hl.
  { intros o Ho. apply list_elem_of_omap in Ho as (f & Hf & Hk). apply list_elem_of_filter in Hf as [<- Hf].
    by apply frozen_table_find. }
  destruct l as [|o l'] eqn:El; cbn [head]; [|symmetry; apply Hl; by left].
  destruct (find_obj (N.to_nat db) k s) as [o|] eqn:E; [|done].
  destruct (frozen_table_exists s db k o E) as (f & Hf & Hdb & Hk).
  assert (o ∈ l) as Hin; [|rewrite El in Hin; by apply elem_of_nil in Hin].
  apply list_elem_of_omap. exists f. split; [|done]. by apply list_elem_of_filter.
Qed.

(** ** The base dump *)

Definition slot_records (now : N) (i : nat) (t : gmap (list byte) (KvObj V)) : list (N * KvObj V) :=
  map (λ o, (N.of_nat i, o)) (base.filter (λ o, is_expired now o = false) (map_to_list t).*2).

Lemma frozen_records_app f1 f2 now :
  frozen_records (V := V) (f1 ++ f2) now = frozen_records f1 now ++ frozen_records f2 now.
Proof. unfold frozen_records. by rewrite map_app, concat_app. Qed.

Lemma frozen_records_db now i dbv :
  frozen_records (freeze_db (V := V) i dbv) now = concat (imap (λ _, slot_records now i) dbv).
Proof.
  induction dbv as [|t dbv IH]; [done|]. rewrite imap_cons. cbn [concat]. unfold freeze_db in *. rewrite filter_cons.
  change (imap ((λ _ : nat, slot_records now i) ∘ S) dbv) with (imap (λ _ : nat, slot_records now i) dbv). rewrite <- IH.
  case_decide as Hs; [done|].
  assert (slot_records now i t = []) as ->; [|done].
  assert (t = ∅) as -> by (apply map_size_empty_inv; lia). unfold slot_records. by rewrite map_to_list_empty.
Qed.

Lemma frozen_records_split s now :
  frozen_records (frozen_of s) now = concat (imap (λ i dbv, concat (imap (λ _, slot_records now i) dbv)) (dbs s)).
Proof.
  unfold frozen_of. generalize (dbs s). intros l.
  assert (∀ g : nat → nat, frozen_records (concat (imap (λ i, freeze_db (g i)) l)) now =
    concat (imap (λ i dbv, concat (imap (λ _, slot_records now (g i)) dbv)) l)) as H; [|exact (H id)].
  induction l as [|dbv l IH]; intros g; [done|]. rewrite !imap_cons. cbn [concat]. rewrite frozen_records_app, frozen_records_db.
  f_equal. apply (IH (g ∘ S)).
Qed.

Lemma elem_of_slot_records now i t db o : (db, o) ∈ slot_records now i t ↔
  db = N.of_nat i ∧ is_expired now o = false ∧ ∃ k, t !! k = Some o.
Proof.
  unfold slot_records. rewrite list_elem_of_fmap. split.
  - intros (o' & [= -> ->] & Ho). apply list_elem_of_filter in Ho as [He Ho].
    apply list_elem_of_fmap in Ho as ([k o''] & -> & Hk). apply elem_of_map_to_list in Hk. by eauto.
  - intros (-> & He & k & Hk). exists o. split; [done|]. apply list_elem_of_filter. split; [done|].
    apply list_elem_of_fmap. exists (k, o). split; [done|]. by apply elem_of_map_to_list.
Qed.

(** The dump holds exactly the live entries. *)
Lemma elem_of_frozen_records s now db o : store_ok s → db < databases s →
  (db, o) ∈ frozen_records (frozen_of s) now ↔
    find_obj (N.to_nat db) (ko_key o) s = Some o ∧ is_expired now o = false.
Proof.
  intros Hok Hdb. rewrite frozen_records_split, elem_of_concat_imap. split.
  - intros (i & dbv & Hi & Hin). apply elem_of_concat_imap in Hin as (j & t & Hj & Hin).
    apply elem_of_slot_records in Hin as (-> & He & k & Hk). split; [|done].
    destruct (so_place s Hok _ _ _ _ _ _ Hi Hj Hk) as [-> ->]. unfold find_obj, slot_table.
    rewrite Nat2N.id, Hi. cbn [mbind option_bind]. by rewrite Hj.
  - intros [Hf He]. unfold find_obj, slot_table in Hf. destruct (dbs s !! N.to_nat db) as [dbv|] eqn:Hi; [|done].
    cbn [mbind option_bind] in Hf. destruct (dbv !! _) as [t|] eqn:Hj; [|done].
    exists (N.to_nat db), dbv. split; [done|]. apply elem_of_concat_imap. eexists _, t. split; [done|].
    apply elem_of_slot_records. rewrite N2Nat.id. split; [done|]. split; [done|]. by exists (ko_key o).
Qed.

Lemma frozen_records_db_bound s now db o : (db, o) ∈ frozen_records (frozen_of s) now → db < databases s.
Proof.
  rewrite frozen_records_split, elem_of_concat_imap. intros (i & dbv & Hi & Hin).
  apply elem_of_concat_imap in Hin as (j & t & _ & Hin). apply elem_of_slot_records in Hin as [-> _].
  apply lookup_lt_Some in Hi. unfold databases. lia.
Qed.

Lemma map_concat_imap {A B C} (f : B → C) (g : nat → A → list B) l :
  map f (concat (imap g l)) = concat (imap (λ i x, map f (g i x)) l).
Proof.
  revert g. induction l as [|x l IH]; intros g; [done|]. rewrite !imap_cons. cbn [concat]. rewrite map_app. f_equal.
  apply (IH (g ∘ S)).
Qed.

Lemma slot_records_NoDup now i t : (∀ k o, t !! k = Some o → ko_key o = k) →
  NoDup (map rec_key (slot_records now i t)).
Proof.
  intros Hk. unfold slot_records. rewrite map_map.
  assert (∀ l : list (list byte * KvObj V), NoDup l.*1 → (∀ k o, (k, o) ∈ l → ko_key o = k) →
    NoDup (map (λ o, rec_key (N.of_nat i, o)) (base.filter (λ o, is_expired now o = false) l.*2))) as H.
  { induction l as [|[k o] l IH]; intros Hnd Hl; [apply NoDup_nil_2|]. cbn [fmap list_fmap fst snd] in *.
    apply NoDup_cons in Hnd as [Hn Hnd]. rewrite filter_cons.
    assert (∀ k o, (k, o) ∈ l → ko_key o = k) as Hl' by (intros; apply Hl; by right).
    case_decide; [|by apply IH]. cbn [map]. apply NoDup_cons. split; [|by apply IH].
    intros Hin. apply list_elem_of_fmap in Hin as (o' & [= E] & Ho'). apply list_elem_of_filter in Ho' as [_ Ho'].
    apply list_elem_of_fmap in Ho' as ([k' o''] & -> & Hin). cbn [snd] in E.
    rewrite (Hl k o ltac:(by left)), (Hl' _ _ Hin) in E. subst k'. apply Hn. by apply (list_elem_of_fmap_2 fst) in Hin. }
  apply H; [apply NoDup_fst_map_to_list|]. intros k o Hin. by apply Hk, elem_of_map_to_list.
Qed.

Lemma frozen_records_NoDup s now : store_ok s → NoDup (map rec_key (frozen_records (frozen_of s) now)).
Proof.
  intros Hok. rewrite frozen_records_split, map_concat_imap.
  apply (NoDup_concat_tagged _ (λ p : N * list byte, N.to_nat p.1)). intros i dbv Hi. split.
  - rewrite map_concat_imap. apply (NoDup_concat_tagged _ (λ p : N * list byte, slot_index p.2 (slots s))).
    intros j t Hj. split.
    + apply slot_records_NoDup. intros k o Hk. by destruct (so_place s Hok _ _ _ _ _ _ Hi Hj Hk).
    + intros y Hy. apply list_elem_of_fmap in Hy as ([db o] & -> & Hin).
      apply elem_of_slot_records in Hin as (_ & _ & k & Hk). destruct (so_place s Hok _ _ _ _ _ _ Hi Hj Hk) as [Ek Ej]. cbn. by rewrite Ek, Ej.
  - intros y Hy. apply list_elem_of_fmap in Hy as ([db o] & -> & Hin). apply elem_of_concat_imap in Hin as (j & t & _ & Hin).
    apply elem_of_slot_records in Hin as [-> _]. cbn. lia.
Qed.

(** ** The delta *)

Definition delta_of s (dirty : gset (N * list byte)) (now : N) : list DeltaRecord :=
  map (delta_record encode_kvobj (frozen_of s) now) (merge_sort key_le (elements dirty)).

Lemma delta_record_key s now k : store_ok s → record_key (delta_record encode_kvobj (frozen_of s) now k) = k.
Proof.
  intros Hok. unfold delta_record. rewrite frozen_get_find by done. destruct k as [db k]. cbn [fst snd].
  destruct (find_obj (N.to_nat db) k s) as [o|] eqn:E; [|done]. destruct (is_expired now o); [done|].
  cbn. by rewrite (find_obj_key s _ _ _ Hok E).
Qed.

(** The record of a dirty key, and none for the others. *)
Lemma delta_of_filter s dirty now key : store_ok s →
  base.filter (λ r, record_key r = key) (delta_of s dirty now) =
    if decide (key ∈ dirty) then [delta_record encode_kvobj (frozen_of s) now key] else [].
Proof.
  intros Hok. unfold delta_of. assert (merge_sort key_le (elements dirty) ≡ₚ elements dirty) as Hp by apply merge_sort_Permutation.
  assert (NoDup (merge_sort key_le (elements dirty))) as Hnd by (rewrite Hp; apply NoDup_elements).
  assert (key ∈ dirty ↔ key ∈ merge_sort key_le (elements dirty)) as Hin by (rewrite Hp; by rewrite elem_of_elements).
  destruct (decide (key ∈ dirty)) as [Hd|Hd]; rewrite Hin in Hd; clear Hin Hp;
    induction (merge_sort key_le (elements dirty)) as [|x l IH].
  - by apply elem_of_nil in Hd.
  - apply NoDup_cons in Hnd as [Hx Hnd]. cbn [map]. rewrite filter_cons, delta_record_key by done.
    destruct (decide (x = key)) as [->|Hne].
    + f_equal. clear IH Hd. induction l as [|y l IHl]; [done|]. cbn [map]. rewrite filter_cons, delta_record_key by done.
      apply not_elem_of_cons in Hx as [Hy Hx]. apply NoDup_cons in Hnd as [_ Hnd]. rewrite decide_False by done. by apply IHl.
    + apply elem_of_cons in Hd as [->|Hd]; [done|]. by apply IH.
  - done.
  - cbn [map]. rewrite filter_cons, delta_record_key by done. apply not_elem_of_cons in Hd as [Hne Hd].
    apply NoDup_cons in Hnd as [_ Hnd]. rewrite decide_False by done. by apply IH.
Qed.

(** What the record of a key leaves when it is replayed later. *)
Lemma delta_record_eval s now t key : store_ok s → now ≤ t → (∀ o, find_obj (N.to_nat key.1) key.2 s = Some o → good o) →
  eval_effect decode_kvobj t (record_effect (delta_record encode_kvobj (frozen_of s) now key)) =
    alive_at t (canon <$> find_obj (N.to_nat key.1) key.2 s).
Proof.
  intros Hok Ht Hgood. rewrite (alive_at_canon encode_kvobj decode_kvobj canon good). unfold delta_record. rewrite frozen_get_find by done.
  destruct (find_obj (N.to_nat key.1) key.2 s) as [o|] eqn:E; [|done]. destruct (is_expired now o) eqn:He.
  - cbn. unfold is_expired in *. destruct (ko_expire o) as [dl|]; [|done]. apply N.ltb_lt in He.
    destruct (N.ltb_spec dl t); [done|lia].
  - cbn [record_effect eval_effect]. rewrite codec_roundtrip by auto. apply (alive_at_canon encode_kvobj decode_kvobj canon good t (Some o)).
Qed.

End build.
