(* ===== verification/SnapshotCommit.v ===== *)
(** * The steps of a save

    What the fan-out leaves in the directory and in the stores, the replies as
    they come back, and which files the commit and the sweep leave alone. *)

From Stdlib Require Import Lia ZArith NArith Permutation.
From S2P Require Import Prelude RaftCodec RaftCodecProofs Resp ReplFrames ReplFramesProofs ReplDisk ReplDiskProofs Keyspace KeyspaceProofs KeyspaceOps Snapshot SnapshotSave SnapshotProofs SnapshotLoad SnapshotChain SnapshotBuild.
From stdpp Require Import strings sorting.

#[local] Open Scope N_scope.

(** ** Files the commit and the sweep leave alone *)

Lemma str_split_once_None c p s : c ∉ s → str_split_once (c :: p) s = None.
Proof.
  induction s as [|x s IH]; intros Hc; [done|]. apply not_elem_of_cons in Hc as [Hne Hc]. cbn [str_split_once].
  unfold str_strip_prefix at 1. rewrite decide_False by (cbn [length take]; intros [= -> _]; done). by rewrite (IH Hc).
Qed.

Lemma gc_keeps_shard_file m s : s < 2 ^ 32 → gc_takes m (shard_file_name s) = false.
Proof.
  intros Hs. unfold gc_takes, parse_delta_file_name, shard_file_name. rewrite str_strip_prefix_app, obind_Some.
  change (str "-delta-") with ("-"%byte :: str "delta-"). rewrite str_split_once_None.
  - by rewrite andb_false_r.
  - intros Hin. apply elem_of_app in Hin as [Hin|Hin].
    + eapply display_no_dash; [|done]. unfold U64_MAX. lia.
    + revert Hin. unfold str. cbn. rewrite !elem_of_cons, elem_of_nil. naive_solver.
Qed.

Lemma gc_keeps_manifest m : gc_takes m MANIFEST_NAME = false.
Proof. unfold gc_takes. change (parse_delta_file_name MANIFEST_NAME) with (@None (N * N)). by rewrite andb_false_r. Qed.

Lemma gc_keeps_listed m f : f ∈ d_file <$> m_deltas m → gc_takes m f = false.
Proof. intros Hf. unfold gc_takes. rewrite (bool_decide_eq_false_2 (f ∉ _)) by tauto. by rewrite andb_false_r. Qed.

Lemma gc_lookup m removable dir f : gc_takes m f = false → gc_orphan_deltas m removable dir !! f = dir !! f.
Proof.
  intros Hf. unfold gc_orphan_deltas. destruct (dir !! f) as [b|] eqn:E.
  - apply map_lookup_filter_Some_2; [done|]. cbn. by rewrite Hf.
  - apply map_lookup_filter_None_2. by left.
Qed.

Lemma write_lookup path bytes dir f : f ≠ path → f ≠ tmp_path path → write_file_atomic path bytes dir !! f = dir !! f.
Proof. intros H1 H2. unfold write_file_atomic. rewrite lookup_insert_ne by done. by rewrite lookup_delete_ne. Qed.

(** A committed directory has every file the manifest names. *)
Lemma committed_lookup m removable dir f : f ≠ MANIFEST_NAME → f ≠ tmp_path MANIFEST_NAME → gc_takes m f = false →
  gc_orphan_deltas m removable (write_file_atomic MANIFEST_NAME (manifest_encode m) dir) !! f = dir !! f.
Proof. intros H1 H2 H3. rewrite gc_lookup by done. by apply write_lookup. Qed.

Lemma committed_manifest m removable dir :
  gc_orphan_deltas m removable (write_file_atomic MANIFEST_NAME (manifest_encode m) dir) !! MANIFEST_NAME = Some (manifest_encode m).
Proof. rewrite gc_lookup by apply gc_keeps_manifest. apply lookup_insert_eq. Qed.

(** The file a shard writes in a mode. *)
Definition mode_file (mode : SaveMode) (shard : N) : list byte :=
  match mode with SBase => shard_file_name shard | SDelta _ epoch => delta_file_name shard epoch end.

Lemma last_neq {A} (l l' : list A) x y : last l = Some x → last l' = Some y → x ≠ y → l ≠ l'.
Proof. intros H1 H2 Hne ->. congruence. Qed.

Ltac by_last_byte :=
  eapply last_neq; [apply last_shard_file || apply last_delta_file || apply last_tmp_file || reflexivity
                   |apply last_shard_file || apply last_delta_file || apply last_tmp_file || reflexivity|done].

Lemma mode_file_not_manifest mode s : mode_file mode s ≠ MANIFEST_NAME ∧ mode_file mode s ≠ tmp_path MANIFEST_NAME.
Proof. destruct mode; split; by_last_byte. Qed.

Lemma mode_file_not_tmp mode s p : mode_file mode s ≠ tmp_path p.
Proof. destruct mode; by_last_byte. Qed.

Lemma mode_file_inj mode s s' : (match mode with SDelta _ e => e ≤ U64_MAX | SBase => True end) →
  s < 2 ^ 32 → s' < 2 ^ 32 → mode_file mode s = mode_file mode s' → s = s'.
Proof.
  destruct mode as [|b e]; intros He Hs Hs' H; [by apply shard_file_name_inj|]. by apply delta_file_name_inj in H as [? _].
Qed.

(** ** The replies *)

Lemma try_unsigned_as_i64 n k : try_unsigned 64 (as_i64 n) = Some k → u64 k ∧ (u64 n → k = n).
Proof.
  unfold try_unsigned, try_narrow, as_i64, u64, U64_MAX. intros H. case_decide as H0; [|done].
  destruct (decide (Z.to_N _ < 2 ^ 64)) as [H1|]; [|done]. injection H as <-. split; [lia|]. intros Hn.
  destruct (decide (n < 2 ^ 63)); [lia|]. exfalso. lia.
Qed.

Lemma try_unsigned_32 n : n < 2 ^ 32 → try_unsigned 32 (Z.of_N n) = Some n.
Proof. intros Hn. unfold try_unsigned. rewrite decide_True by lia. rewrite N2Z.id. by apply try_narrow_small. Qed.

(** A base entry comes back as it went, but for the count if that has no room. *)
Lemma base_reply e r : e_shard e < 2 ^ 32 → e_crc e < 2 ^ 32 →
  decode_save_reply (encode_save_reply (RBase e)) = Some r →
  ∃ keys, u64 keys ∧ r = RBase (mkEntry (e_shard e) (shard_file_name (e_shard e)) keys (e_crc e)).
Proof.
  intros Hs Hc. unfold encode_save_reply, decode_save_reply. rewrite !try_unsigned_32 by done. rewrite obind_Some.
  destruct (try_unsigned 64 _) as [keys|] eqn:E; [|done]. rewrite !obind_Some.
  intros [= <-]. exists keys. split; [|done]. by apply try_unsigned_as_i64 in E as [? _].
Qed.

Lemma delta_reply d r : d_shard d < 2 ^ 32 → d_crc d < 2 ^ 32 → u64 (d_base_epoch d) → u64 (d_delta_epoch d) →
  decode_save_reply (encode_save_reply (RDelta d)) = Some r →
  ∃ puts tombstones, u64 puts ∧ u64 tombstones ∧
    r = RDelta (mkDelta (d_shard d) (delta_file_name (d_shard d) (d_delta_epoch d)) puts tombstones (d_crc d)
      (d_base_epoch d) (d_delta_epoch d)).
Proof.
  intros Hs Hc Hb He. unfold encode_save_reply, decode_save_reply. rewrite !try_unsigned_32 by done. rewrite obind_Some.
  destruct (try_unsigned 64 (as_i64 (d_delta_epoch d))) as [e|] eqn:Ee; [|done]. rewrite obind_Some.
  apply try_unsigned_as_i64 in Ee as [_ Ee]. rewrite (Ee He). clear e Ee.
  destruct (try_unsigned 64 (as_i64 (d_puts d))) as [p|] eqn:Ep; [|done]. rewrite obind_Some.
  destruct (try_unsigned 64 (as_i64 (d_tombstones d))) as [t|] eqn:Et; [|done]. rewrite !obind_Some.
  destruct (try_unsigned 64 (as_i64 (d_base_epoch d))) as [b|] eqn:Eb; [|done]. rewrite obind_Some.
  apply try_unsigned_as_i64 in Eb as [_ Eb]. rewrite (Eb Hb). intros [= <-].
  apply try_unsigned_as_i64 in Ep as [? _]. apply try_unsigned_as_i64 in Et as [? _]. by exists p, t.
Qed.

(** ** The fan-out *)

Section fan_out.
Context {V : Type} {Hval : StoredValue V}.
Context (encode_kvobj : KvObj V → list byte).
Context (sd : bool).
Implicit Types s : ShardStore V.

(** A shard after its cut. *)
Definition cut_store s : ShardStore V :=
  mkStore (dbs s) (slots s) (if sd then Some ∅ else dirty_keys s) (passive s) false (ledger s).

(** What a shard would write. *)
Definition shard_out (mode : SaveMode) (shard now : N) s : option (list byte * list byte * SaveReply) :=
  match mode with
  | SBase => Some (encode_shard_save encode_kvobj mode (frozen_of s) [] shard now)
  | SDelta _ _ =>
      if sd then Some (encode_shard_save encode_kvobj mode (frozen_of s) (elements (default ∅ (dirty_keys s))) shard now)
      else None
  end.

Lemma save_shard_local_eq mode shard now s :
  save_shard_local encode_kvobj sd mode shard now s = Some (shard_out mode shard now s, cut_store s).
Proof. unfold cut_store, shard_out. destruct sd, mode; reflexivity. Qed.

Lemma shard_out_file mode shard now s file bytes reply :
  shard_out mode shard now s = Some (file, bytes, reply) → file = mode_file mode shard.
Proof. unfold shard_out. destruct mode; [|destruct sd; [|done]]; intros [= <- _ _]; done. Qed.

(** The cut happens in every shard, and only the shards' own files change. *)
Lemma fan_out_frame mode clock io n0 stores dir :
  ∃ dir' replies, fan_out_save encode_kvobj sd mode clock io n0 stores dir = Some (map cut_store stores, dir', replies) ∧
    ∀ f, (∀ j, n0 ≤ j < n0 + N.of_nat (length stores) → f ≠ mode_file mode j ∧ f ≠ tmp_path (mode_file mode j)) →
      dir' !! f = dir !! f.
Proof.
  revert n0 dir. induction stores as [|s stores IH]; intros n0 dir; [by exists dir, []|]. cbn [fan_out_save map length].
  rewrite save_shard_local_eq, obind_Some.
  assert (∀ dir1 reply, (∀ f, f ≠ mode_file mode n0 → f ≠ tmp_path (mode_file mode n0) → dir1 !! f = dir !! f) →
    ∃ dir' replies, ('(stores, dir, replies) ← fan_out_save encode_kvobj sd mode clock io (n0 + 1) stores dir1;
        Some (cut_store s :: stores, dir, reply :: replies)) = Some (cut_store s :: map cut_store stores, dir', replies) ∧
      ∀ f, (∀ j, n0 ≤ j < n0 + N.of_nat (S (length stores)) → f ≠ mode_file mode j ∧ f ≠ tmp_path (mode_file mode j)) →
        dir' !! f = dir !! f) as Hrest.
  { intros dir1 reply H1. destruct (IH (n0 + 1) dir1) as (dir' & replies & -> & Hf). rewrite obind_Some.
    exists dir', (reply :: replies). split; [done|]. intros f Hne. rewrite Hf by (intros; apply Hne; lia).
    destruct (Hne n0 ltac:(lia)). by apply H1. }
  destruct (shard_out mode n0 (clock n0) s) as [[[file bytes] reply]|] eqn:Eo; [|by apply Hrest].
  apply shard_out_file in Eo as ->. destruct (io n0); [|by apply Hrest]. apply Hrest. intros f. apply write_lookup.
Qed.

(** When every reply decodes, every shard wrote its file. *)
Lemma fan_out_committed mode clock io n0 stores dir stores' dir' replies rs :
  (match mode with SDelta _ e => e ≤ U64_MAX | SBase => True end) → n0 + N.of_nat (length stores) ≤ 2 ^ 32 →
  fan_out_save encode_kvobj sd mode clock io n0 stores dir = Some (stores', dir', replies) → mapM id replies = Some rs →
  stores' = map cut_store stores ∧ length rs = length stores ∧
  ∀ i s, stores !! i = Some s → ∃ bytes reply r,
    shard_out mode (n0 + N.of_nat i) (clock (n0 + N.of_nat i)) s = Some (mode_file mode (n0 + N.of_nat i), bytes, reply) ∧
    rs !! i = Some r ∧ decode_save_reply (encode_save_reply reply) = Some r ∧
    dir' !! mode_file mode (n0 + N.of_nat i) = Some bytes.
Proof.
  intros He. revert n0 dir stores' dir' replies rs. induction stores as [|s stores IH]; intros n0 dir stores' dir' replies rs Hn.
  { intros [= <- <- <-] [= <-]. done. }
  cbn [fan_out_save map length] in *. rewrite save_shard_local_eq, obind_Some.
  destruct (match shard_out mode n0 (clock n0) s with Some _ => _ | None => _ end) as [dir1 reply] eqn:E1.
  destruct (fan_out_frame mode clock io (n0 + 1) stores dir1) as (dir2 & replies2 & Hfan & Hframe).
  rewrite Hfan, obind_Some. intros [= <- <- <-]. cbn [mapM id]. intros Hm. apply bind_Some in Hm as (r & Hr & Hm).
  apply bind_Some in Hm as (rs' & Hrs' & [= <-]). cbn in Hr. subst reply.
  destruct (IH (n0 + 1) dir1 _ _ _ rs' ltac:(lia) Hfan Hrs') as (_ & Hlen & Hi). split; [done|]. split; [by cbn; rewrite Hlen|].
  intros [|i] s' Hs'; cbn [lookup list_lookup] in Hs'.
  - injection Hs' as <-. rewrite N.add_0_r. destruct (shard_out mode n0 (clock n0) s) as [[[file bytes] reply]|] eqn:Eo; [|done].
    pose proof (shard_out_file _ _ _ _ _ _ _ Eo) as ->. destruct (io n0); [|done]. injection E1 as <- Hd.
    exists bytes, reply, r. split; [done|]. split; [done|]. split; [done|]. rewrite Hframe; [apply lookup_insert_eq|].
    intros j Hj. split; [|apply mode_file_not_tmp]. intros E. apply mode_file_inj in E; [lia|done|lia|lia].
  - destruct (Hi i s' Hs') as (bytes & reply & r' & H1 & H2 & H3 & H4).
    replace (n0 + N.of_nat (S i)) with (n0 + 1 + N.of_nat i) by lia. by exists bytes, reply, r'.
Qed.

End fan_out.
