(* ===== verification/SnapshotWorld.v ===== *)
(** * Warm start

    A node as a state machine: client operations on its shards, base and delta
    saves, delta saves that fail or stop half way, and restarts with any number of
    shards. Whatever happened, a boot restores the keyspace of the last committed
    save, less what has expired since. *)

From Stdlib Require Import Lia ZArith NArith Permutation.
From S2P Require Import Prelude RaftCodec RaftCodecProofs Slot ReplFrames ReplDisk ReplDiskProofs Keyspace KeyspaceProofs KeyspaceOps Snapshot SnapshotSave SnapshotProofs SnapshotLoad SnapshotChain SnapshotBuild SnapshotCommit.
From stdpp Require Import strings sorting.

#[local] Open Scope N_scope.

Lemma owner_shard_lt k n : n ≠ 0 → owner_shard k n < n.
Proof.
  intros Hn. unfold owner_shard, slot_to_shard. rewrite N.max_l by lia.
  assert (key_slot k < CLUSTER_SLOTS) as Hk by (unfold key_slot; apply N.mod_upper_bound; done).
  apply N.Div0.div_lt_upper_bound. apply N.mul_lt_mono_pos_r; [lia|done].
Qed.

Section world.
Context {V : Type} {Hval : StoredValue V}.
Context (encode_kvobj : KvObj V → list byte) (decode_kvobj : list byte → option (KvObj V)).
Context (canon : KvObj V → KvObj V) (good : KvObj V → Prop).
Context {Hcodec : EntryCodec encode_kvobj decode_kvobj canon good}.
(** The number of databases, and the [snapshot_deltas] setting. *)
Context (D : N) (sd : bool).

(** ** The node *)

(** With the bindings of the last commit and a bound on the clocks read so far. *)
Record World := mkWorld {
  w_stores : list (ShardStore V);
  w_persist : PersistState;
  w_dir : Dir;
  w_cut : bindings (V := V);
  w_time : N
}.

Definition shards (stores : list (ShardStore V)) : N := N.of_nat (length stores).

(** The keyspace of a node: a key is looked up in the shard that owns it. *)
Definition keyspace_of (stores : list (ShardStore V)) : bindings (V := V) := λ db k,
  s ← stores !! N.to_nat (owner_shard k (shards stores)); find_obj (N.to_nat db) k s.

(** The keys a shard is sent. *)
Definition shard_key (n j : N) (k : list byte) : Prop := owner_shard k n = j ∧ N.of_nat (length k) < 2 ^ 32.

(** The codec carries every entry. *)
Definition values_fit (s : ShardStore V) : Prop := ∀ i k o, find_obj i k s = Some o → good o.

(** The mode the next durable save would take. *)
Definition next_mode (w : World) : SaveMode :=
  decide_snapshot_mode (read_manifest (w_dir w)) (true && sd && negb (ps_needs_base (w_persist w))) MAX_DELTAS_PER_BASE.

(** What an unfinished delta round can leave: some of its files, whole or staged. *)
Inductive torn_delta (n epoch : N) : Dir → Dir → Prop :=
  | td_none dir : torn_delta n epoch dir dir
  | td_shard j bytes dir dir1 dir2 : j < n → atomic_write (delta_file_name j epoch) bytes dir dir1 →
      torn_delta n epoch dir1 dir2 → torn_delta n epoch dir dir2
  | td_manifest junk dir dir2 : torn_delta n epoch (<[tmp_path MANIFEST_NAME := junk]> dir) dir2 → torn_delta n epoch dir dir2.

Inductive world_step (w : World) : World → Prop :=
  (** a shard runs operations on its keys *)
  | ws_ops j s ops s' :
      w_stores w !! j = Some s →
      Forall (λ op, op_in_range D op = true ∧ op_keys (shard_key (shards (w_stores w)) (N.of_nat j)) op) ops →
      for_each ops run_store_op s = Some (tt, s') → values_fit s' →
      world_step w (mkWorld (<[j := s']> (w_stores w)) (w_persist w) (w_dir w) (w_cut w) (w_time w))
  (** a durable save commits *)
  | ws_save clock io removable secs p stores dir t :
      save_all_to_dir encode_kvobj sd true clock io true removable secs (w_persist w) (w_stores w) (w_dir w) =
        Some (true, p, stores, dir) →
      u64 secs → w_time w ≤ t → (∀ j, clock j ≤ t) →
      world_step w (mkWorld stores p dir (keyspace_of (w_stores w)) t)
  (** a delta save fails and the node goes on *)
  | ws_failed clock io io_manifest removable secs base epoch p stores dir :
      next_mode w = SDelta base epoch →
      save_all_to_dir encode_kvobj sd true clock io io_manifest removable secs (w_persist w) (w_stores w) (w_dir w) =
        Some (false, p, stores, dir) →
      world_step w (mkWorld stores p dir (w_cut w) (w_time w))
  (** the node stops in the middle of a delta save *)
  | ws_torn base epoch dir :
      next_mode w = SDelta base epoch → torn_delta (shards (w_stores w)) epoch (w_dir w) dir →
      world_step w (mkWorld (w_stores w) (w_persist w) dir (w_cut w) (w_time w))
  (** a restart, with any number of shards *)
  | ws_reboot n now slots_per_db stores :
      n ≠ 0 → n ≤ 2 ^ 28 → w_time w ≤ now → shards stores = n →
      (∀ j s, stores !! j = Some s → ∃ loaded, load_shard_resharded decode_kvobj (w_dir w) (N.of_nat j) n now owner_shard
        (store_new D slots_per_db) = Some (loaded, s)) →
      world_step w (mkWorld stores persist_new (w_dir w) (w_cut w) (w_time w)).

(** A first boot on an empty directory. *)
Definition world_new (n : nat) (slots_per_db : N) : World :=
  mkWorld (replicate n (store_new D slots_per_db)) persist_new ∅ no_bindings 0.

(** ** The invariant *)

Definition shard_ok (n : N) (j : nat) (s : ShardStore V) : Prop :=
  store_ok s ∧ databases s = D ∧ keys_in (shard_key n (N.of_nat j)) s ∧ values_fit s.

(** While deltas may follow: the chain has a file per shard and round, its records
    are of the shard's own keys, and what changed since the cut is dirty. *)
Record chain_ok (w : World) (m : Manifest) (ds : list (DeltaManifestEntry * list DeltaRecord)) : Prop := {
  ch_length : N.of_nat (length ds) = chain_depth m * shards (w_stores w);
  ch_owned d rs r : (d, rs) ∈ ds → r ∈ rs → owner_shard (record_key r).2 (shards (w_stores w)) = d_shard d;
  ch_dirty j s : w_stores w !! j = Some s → ∃ dirty, dirty_keys s = Some dirty ∧
    ∀ db k, db < D → owner_shard k (shards (w_stores w)) = N.of_nat j →
      (db, k) ∉ dirty → find_obj (N.to_nat db) k s = w_cut w db k
}.

Definition snap_ok (w : World) : Prop :=
  (w_dir w !! MANIFEST_NAME = None ∧ ∀ db k, w_cut w db k = None) ∨
  ∃ m bs ds, snapshot encode_kvobj decode_kvobj good (w_dir w) m bs ds ∧
    (∀ now db k, w_time w ≤ now → db < D → snap_lookup decode_kvobj canon bs ds now db k = alive_at now (canon <$> w_cut w db k)) ∧
    (N.of_nat (length bs) < 2 ^ 32) ∧
    (sd = true → ps_needs_base (w_persist w) = false → chain_ok w m ds).

Record world_ok (w : World) : Prop := {
  wo_shards : (0 < length (w_stores w))%nat ∧ shards (w_stores w) ≤ 2 ^ 28;
  wo_stores j s : w_stores w !! j = Some s → shard_ok (shards (w_stores w)) j s;
  wo_cut db k o : w_cut w db k = Some o → N.of_nat (length k) < 2 ^ 32 ∧ ko_key o = k ∧ good o;
  wo_snap : snap_ok w
}.

Lemma world_new_ok n slots_per_db : (0 < n)%nat → N.of_nat n ≤ 2 ^ 28 → 0 < D → world_ok (world_new n slots_per_db).
Proof.
  intros Hn Hle HD. constructor; cbn [w_stores w_cut world_new].
  - unfold shards. by rewrite length_replicate.
  - intros j s [-> _]%lookup_replicate. split; [apply store_new_ok|]. split; [|split].
    + unfold databases, store_new. cbn [dbs]. rewrite length_replicate. lia.
    + split; [|done]. intros i k o. by rewrite store_new_empty.
    + intros i k o. by rewrite store_new_empty.
  - done.
  - left. done.
Qed.

(** What a boot loads in a world. *)
Lemma world_load w n i now slots_per_db : world_ok w → 0 < D → n ≠ 0 → w_time w ≤ now →
  ∃ loaded s, load_shard_resharded decode_kvobj (w_dir w) i n now owner_shard (store_new D slots_per_db) = Some (loaded, s) ∧
    holds D s (λ db k, if bool_decide (owner_shard k n = i) then alive_at now (canon <$> w_cut w db k) else None).
Proof.
  intros Hw HD Hn Ht.
  assert (holds D (store_new D slots_per_db) (no_bindings (V := V))) as Hnew.
  { split; [split; [apply store_new_ok|done]|]. split; [|intros; apply store_new_empty].
    unfold databases, store_new. cbn [dbs]. rewrite length_replicate. lia. }
  destruct (wo_snap w Hw) as [[Hm Hc]|(m & bs & ds & Hs & Hl & _)].
  - exists 0, (store_new D slots_per_db). unfold load_shard_resharded, read_manifest. rewrite Hm. split; [done|].
    destruct Hnew as (H1 & H2 & H3). split; [done|]. split; [done|]. intros db k Hdb. rewrite H3, Hc by done. by case_bool_decide.
  - pose proof (load_snapshot encode_kvobj decode_kvobj canon good D _ _ _ _ _ i n now owner_shard Hs Hnew Hn) as Hload.
    apply wp_total in Hload as (loaded & s & Hrun & H1 & H2 & H3). exists loaded, s. split; [done|]. split; [done|]. split; [done|].
    intros db k Hdb. rewrite H3 by done. case_bool_decide; [|done]. by apply Hl.
Qed.

(** ** Operations and restarts *)

Lemma step_ops_ok w j s ops s' : world_ok w → w_stores w !! j = Some s →
  Forall (λ op, op_in_range D op = true ∧ op_keys (shard_key (shards (w_stores w)) (N.of_nat j)) op) ops →
  for_each ops run_store_op s = Some (tt, s') → values_fit s' →
  world_ok (mkWorld (<[j := s']> (w_stores w)) (w_persist w) (w_dir w) (w_cut w) (w_time w)).
Proof.
  intros Hw Hj Hops Hrun Hfit. destruct (wo_stores w Hw j s Hj) as (Hok & HD & Hin & _).
  pose proof (run_store_ops_tracks (shard_key (shards (w_stores w)) (N.of_nat j)) s ops Hok) as Ht.
  rewrite HD in Ht. specialize (Ht Hops). unfold tracks, wp in Ht. rewrite Hrun in Ht. destruct Ht as (Hok' & Hc & Hd & Hin').
  assert (shards (<[j := s']> (w_stores w)) = shards (w_stores w)) as Hsh by (unfold shards; by rewrite length_insert).
  pose proof (lookup_lt_Some _ _ _ Hj) as Hlt.
  constructor; cbn [w_stores w_cut w_persist w_dir w_time]; rewrite ?Hsh.
  - rewrite length_insert. apply (wo_shards w Hw).
  - intros i t Hi. destruct (decide (i = j)) as [->|Hne].
    + rewrite list_lookup_insert_eq in Hi by done. injection Hi as <-. split; [done|]. split; [|by auto].
      unfold databases in *. by destruct Hc as [-> _].
    + rewrite list_lookup_insert_ne in Hi by done. by apply (wo_stores w Hw).
  - apply (wo_cut w Hw).
  - destruct (wo_snap w Hw) as [Hs|(m & bs & ds & Hs & Hl & Hb & Hch)]; [by left|]. right. exists m, bs, ds.
    split; [done|]. split; [done|]. split; [done|]. intros Hsd Hnb. destruct (Hch Hsd Hnb) as [H1 H2 H3].
    constructor; cbn [w_stores w_cut]; rewrite ?Hsh; [done|done|]. intros i t Hi. destruct (decide (i = j)) as [->|Hne].
    + rewrite list_lookup_insert_eq in Hi by done. injection Hi as <-. destruct (H3 j s Hj) as (dirty & Ed & Hdirty).
      rewrite Ed in Hd. destruct Hd as (d' & Ed' & Hsub & Hch'). exists d'. split; [done|]. intros db k Hdb Ho Hn.
      rewrite Hch' by (by rewrite ?HD). apply Hdirty; [done..|]. intros Hold. by apply Hn, Hsub.
    + rewrite list_lookup_insert_ne in Hi by done. by apply H3.
Qed.

Lemma step_reboot_ok w n now slots_per_db stores : world_ok w → 0 < D → n ≠ 0 → n ≤ 2 ^ 28 → w_time w ≤ now →
  shards stores = n →
  (∀ j s, stores !! j = Some s → ∃ loaded, load_shard_resharded decode_kvobj (w_dir w) (N.of_nat j) n now owner_shard
    (store_new D slots_per_db) = Some (loaded, s)) →
  world_ok (mkWorld stores persist_new (w_dir w) (w_cut w) (w_time w)).
Proof.
  intros Hw HD Hn Hle Ht Hsh Hload. constructor; cbn [w_stores w_cut w_persist w_dir w_time].
  - rewrite Hsh. unfold shards in Hsh. split; [lia|done].
  - intros j s Hj. rewrite Hsh. destruct (Hload j s Hj) as [loaded Hrun].
    destruct (world_load w n (N.of_nat j) now slots_per_db Hw HD Hn Ht) as (loaded' & s' & Hrun' & [Hok Hnone] & Hdb & Hf).
    rewrite Hrun in Hrun'. injection Hrun' as -> ->. split; [done|]. split; [done|].
    assert (∀ i k o, find_obj i k s' = Some o → owner_shard k n = N.of_nat j ∧ ∃ db o', w_cut w db k = Some o' ∧ o = canon o') as Hb.
    { intros i k o Ho. assert (N.of_nat i < D) as Hi.
      { unfold find_obj, slot_table in Ho. destruct (dbs s' !! i) as [dbv|] eqn:E; [|done]. apply lookup_lt_Some in E.
        unfold databases in Hdb. lia. }
      rewrite <- (Nat2N.id i), Hf in Ho by done. case_bool_decide; [|done]. split; [done|]. exists (N.of_nat i).
      unfold alive_at in Ho. destruct (w_cut w (N.of_nat i) k) as [o'|]; [|done]. cbn in Ho.
      destruct (is_expired now (canon o')); [done|]. injection Ho as <-. by exists o'. }
    split; [split|].
    + intros i k o Ho. destruct (Hb i k o Ho) as (Hown & db & o' & Hcut & _). split; [done|]. by destruct (wo_cut w Hw db k o' Hcut).
    + intros d db k Hd. by rewrite Hnone in Hd.
    + intros i k o Ho. destruct (Hb i k o Ho) as (_ & db & o' & Hcut & ->). apply good_canon. by destruct (wo_cut w Hw db k o' Hcut) as (_ & _ & ?).
  - apply (wo_cut w Hw).
  - destruct (wo_snap w Hw) as [Hs|(m & bs & ds & Hs & Hl & Hb & _)]; [by left|]. right. by exists m, bs, ds.
Qed.

(** ** Unfinished delta saves *)

(** The files a snapshot names. *)
Definition named (bs : list (ShardManifestEntry * list (N * KvObj V))) (ds : list (DeltaManifestEntry * list DeltaRecord))
    (f : list byte) : Prop :=
  f = MANIFEST_NAME ∨ (∃ b, b ∈ bs ∧ f = e_file b.1) ∨ ∃ d, d ∈ ds ∧ f = d_file d.1.

Lemma snapshot_frame dir dir' m bs ds : snapshot encode_kvobj decode_kvobj good dir m bs ds →
  (∀ f, named bs ds f → dir' !! f = dir !! f) → snapshot encode_kvobj decode_kvobj good dir' m bs ds.
Proof.
  intros [H1 H2 H3 H4 H5 H6 H7 H8 H9] Hf. constructor; try done.
  - rewrite Hf; [done|by left].
  - rewrite Forall_forall in H5 |- *. intros b Hb. destruct (H5 b Hb) as (E & Hr1 & Hr2 & Hr3 & Hr4).
    repeat (split; [done|]). rewrite Hf; [done|]. right. left. by exists b.
  - rewrite Forall_forall in H6 |- *. intros d Hd. destruct (H6 d Hd) as (E & Hr1 & Hr2 & Hr3 & Hr4 & Hr5 & Hr6).
    repeat (split; [done|]). rewrite Hf; [done|]. right. right. by exists d.
Qed.

Lemma chain_depth_le m d : d ∈ m_deltas m → d_delta_epoch d ≤ chain_depth m.
Proof.
  unfold chain_depth. induction (m_deltas m) as [|x l IH]; [by intros ?%elem_of_nil|].
  intros [->|Hd]%elem_of_cons; cbn [fmap list_fmap foldr]; [lia|]. specialize (IH Hd). cbn in IH. lia.
Qed.

(** The names of the next round are new. *)
Lemma round_is_new dir m bs ds j epoch f : snapshot encode_kvobj decode_kvobj good dir m bs ds → epoch = chain_depth m + 1 →
  epoch ≤ U64_MAX → j < 2 ^ 32 → named bs ds f → f ≠ delta_file_name j epoch ∧ ∀ p, f ≠ tmp_path p.
Proof.
  intros [H1 H2 H3 H4 H5 H6 H7 H8 H9] He Hu Hj [->|[(b & Hb & ->)|(d & Hd & ->)]].
  - split; [by_last_byte|]. intros p. by_last_byte.
  - rewrite Forall_forall in H5. destruct (H5 b Hb) as (-> & _). split; [by_last_byte|]. intros p. by_last_byte.
  - rewrite Forall_forall in H6. destruct (H6 d Hd) as (-> & Hs & _ & Hep & _). split; [|intros p; by_last_byte].
    intros E. apply delta_file_name_inj in E as [_ E]; [|done|done|done|done].
    assert (d_delta_epoch d.1 ≤ chain_depth m); [|lia]. apply chain_depth_le. rewrite H4. by apply list_elem_of_fmap_2.
Qed.

(** A delta mode comes from a committed manifest and a clean dirty set. *)
Lemma next_mode_delta w base epoch : next_mode w = SDelta base epoch →
  sd = true ∧ ps_needs_base (w_persist w) = false ∧ ∃ m, read_manifest (w_dir w) = Some m ∧
    base = m_save_id m ∧ epoch = chain_depth m + 1 ∧ chain_depth m < MAX_DELTAS_PER_BASE.
Proof.
  unfold next_mode, decide_snapshot_mode. destruct sd; [|done]. destruct (ps_needs_base (w_persist w)); [done|]. cbn [andb negb].
  destruct (read_manifest (w_dir w)) as [m|]; [|done]. case_decide; [done|]. intros [= <- <-]. split; [done|]. split; [done|].
  exists m. split; [done|]. split; [done|]. split; [done|]. lia.
Qed.

Lemma read_manifest_snapshot dir m bs ds : snapshot encode_kvobj decode_kvobj good dir m bs ds → read_manifest dir = Some m.
Proof. intros Hs. unfold read_manifest. rewrite (sn_manifest _ _ _ _ _ _ _ Hs), obind_Some. by apply manifest_decode_encode, Hs. Qed.

(** Any change of the directory within the next delta round keeps the snapshot. *)
Lemma round_frame w base epoch dir' : world_ok w → next_mode w = SDelta base epoch →
  (∀ f, (∀ j, j < 2 ^ 32 → f ≠ delta_file_name j epoch) → (∀ p, f ≠ tmp_path p) → dir' !! f = w_dir w !! f) →
  ∃ m bs ds, snapshot encode_kvobj decode_kvobj good (w_dir w) m bs ds ∧ snapshot encode_kvobj decode_kvobj good dir' m bs ds ∧
    (∀ now db k, w_time w ≤ now → db < D → snap_lookup decode_kvobj canon bs ds now db k = alive_at now (canon <$> w_cut w db k)) ∧
    N.of_nat (length bs) < 2 ^ 32 ∧ chain_ok w m ds ∧ base = m_save_id m ∧ epoch = chain_depth m + 1 ∧
    chain_depth m < MAX_DELTAS_PER_BASE.
Proof.
  intros Hw Hmode Hf. destruct (next_mode_delta w base epoch Hmode) as (Hsd & Hnb & m & Hm & -> & -> & Hd).
  destruct (wo_snap w Hw) as [[Hn _]|(m' & bs & ds & Hs & Hl & Hb & Hch)].
  { unfold read_manifest in Hm. by rewrite Hn in Hm. }
  rewrite (read_manifest_snapshot _ _ _ _ Hs) in Hm. injection Hm as ->. exists m, bs, ds. split; [done|]. split; [|by auto 10].
  eapply snapshot_frame; [done|]. intros f Hnamed. apply Hf.
  - intros j Hj. eapply round_is_new; [done|done| |done|done]. unfold U64_MAX, MAX_DELTAS_PER_BASE in *. lia.
  - intros p. eapply (round_is_new _ _ _ _ 0); [done|done| |lia|done]. unfold U64_MAX, MAX_DELTAS_PER_BASE in *. lia.
Qed.

Lemma torn_delta_frame n epoch dir dir' f : n ≤ 2 ^ 32 → torn_delta n epoch dir dir' →
  (∀ j, j < 2 ^ 32 → f ≠ delta_file_name j epoch) → (∀ p, f ≠ tmp_path p) → dir' !! f = dir !! f.
Proof.
  intros Hn Ht H1 H2. induction Ht as [dir|j bytes dir dir1 dir2 Hj Ha _ IH|junk dir dir2 _ IH]; [done| |].
  - rewrite IH. specialize (H1 j ltac:(lia)). destruct Ha; [done|by rewrite lookup_insert_ne by (intros E; by eapply H2)|].
    apply write_lookup; [done|apply H2].
  - rewrite IH. rewrite lookup_insert_ne; [done|]. intros E. by eapply H2.
Qed.

Lemma step_torn_ok w base epoch dir : world_ok w → next_mode w = SDelta base epoch →
  torn_delta (shards (w_stores w)) epoch (w_dir w) dir →
  world_ok (mkWorld (w_stores w) (w_persist w) dir (w_cut w) (w_time w)).
Proof.
  intros Hw Hmode Ht. pose proof (wo_shards w Hw) as [Hn Hle].
  destruct (round_frame w base epoch dir Hw Hmode) as (m & bs & ds & _ & Hs & Hl & Hb & Hch & _).
  { intros f. eapply torn_delta_frame; [|done]. lia. }
  constructor; cbn [w_stores w_cut w_persist w_dir w_time]; [done|apply (wo_stores w Hw)|apply (wo_cut w Hw)|].
  right. exists m, bs, ds. split; [done|]. split; [done|]. split; [done|]. intros _ _. by destruct Hch as [? ? ?].
Qed.

(** ** The cut *)

Lemma cut_store_ok n j s : shard_ok n j s → shard_ok n j (cut_store sd s).
Proof.
  intros (Hok & HD & [H1 H2] & Hfit). unfold cut_store. split; [by destruct Hok; constructor|]. split; [done|]. split; [|done].
  split; [done|]. cbn [dirty_keys]. destruct sd; [|done]. intros d db k [= <-] Hin. by apply elem_of_empty in Hin.
Qed.

Lemma cut_stores_ok w j s : world_ok w → map (cut_store sd) (w_stores w) !! j = Some s →
  shard_ok (shards (w_stores w)) j s.
Proof.
  intros Hw Hj. rewrite list_lookup_fmap in Hj. destruct (w_stores w !! j) as [s0|] eqn:E; [|done]. injection Hj as <-.
  by apply cut_store_ok, (wo_stores w Hw).
Qed.

Lemma shards_cut stores : shards (map (cut_store sd) stores) = shards stores.
Proof. unfold shards. by rewrite length_map. Qed.

Lemma step_failed_ok w clock io io_manifest removable secs base epoch p stores dir : world_ok w →
  next_mode w = SDelta base epoch →
  save_all_to_dir encode_kvobj sd true clock io io_manifest removable secs (w_persist w) (w_stores w) (w_dir w) =
    Some (false, p, stores, dir) →
  world_ok (mkWorld stores p dir (w_cut w) (w_time w)).
Proof.
  intros Hw Hmode Hsave. pose proof (wo_shards w Hw) as [Hn Hle].
  destruct (next_mode_delta w base epoch Hmode) as (Hsd & _).
  unfold save_all_to_dir in Hsave. fold (next_mode w) in Hsave. rewrite Hmode in Hsave.
  destruct (fan_out_frame encode_kvobj sd (SDelta base epoch) clock io 0 (w_stores w) (w_dir w)) as (dir' & replies & Hfan & Hf).
  rewrite Hfan, obind_Some in Hsave.
  assert (p = mkPersist (ps_save_id (w_persist w)) true ∧ stores = map (cut_store sd) (w_stores w) ∧ dir = dir') as (-> & -> & ->).
  { rewrite Hsd in Hsave |- *. destruct (mapM id replies) as [rs|]; [|by injection Hsave as <- <- <-].
    destruct (assemble_commit _ _ _ _ _) as [[[? ?] ?]|]; [|by injection Hsave as <- <- <-].
    destruct io_manifest; cbn [negb] in Hsave; [done|by injection Hsave as <- <- <-]. }
  destruct (round_frame w base epoch dir' Hw Hmode) as (m & bs & ds & _ & Hs & Hl & Hb & _).
  { intros f H1 H2. apply Hf. intros j Hj. split; [|apply H2]. apply H1. unfold shards in Hle. lia. }
  constructor; cbn [w_stores w_cut w_persist w_dir w_time]; rewrite ?shards_cut.
  - by rewrite length_map.
  - intros j s Hj. by apply cut_stores_ok.
  - apply (wo_cut w Hw).
  - right. by exists m, bs, ds.
Qed.

End world.
