(* ===== verification/SnapshotRestore.v ===== *)
(** * Committed saves restore

    A committed base or delta save leaves a snapshot of the keyspace at the cut;
    with [SnapshotWorld] this gives the warm-start theorem. *)

From Stdlib Require Import Lia ZArith NArith Permutation.
From S2P Require Import Prelude RaftCodec RaftCodecProofs Slot ReplFrames ReplDisk ReplDiskProofs Keyspace KeyspaceProofs KeyspaceOps Snapshot SnapshotSave SnapshotProofs SnapshotLoad SnapshotChain SnapshotBuild SnapshotCommit SnapshotWorld.
From stdpp Require Import strings sorting.

#[local] Open Scope N_scope.

(** ** Sorting the chain *)

#[local] Instance entry_le_trans : Transitive entry_le.
Proof. unfold entry_le. intros a b c. lia. Qed.
#[local] Instance entry_le_total : Total entry_le.
Proof. unfold entry_le. intros a b. lia. Qed.
#[local] Instance delta_le_trans : Transitive delta_le.
Proof. unfold delta_le. intros a b c. lia. Qed.
#[local] Instance delta_le_total : Total delta_le.
Proof. unfold delta_le. intros a b. lia. Qed.

Definition chain_pos (d : DeltaManifestEntry) : N * N := (d_shard d, d_delta_epoch d).

Lemma sorted_strict l : StronglySorted delta_le l → NoDup (map chain_pos l) → StronglySorted delta_lt l.
Proof.
  induction 1 as [|a l Hs IH Ha]; [constructor|]. cbn [map]. intros [Hn Hnd]%NoDup_cons. constructor; [by apply IH|].
  rewrite Forall_forall in Ha |- *. intros b Hb. destruct (Ha b Hb) as [Hlt|[Heq Hle]]; [by left|right].
  split; [done|]. destruct (decide (d_delta_epoch a = d_delta_epoch b)) as [E|]; [|lia]. exfalso. apply Hn.
  replace (chain_pos a) with (chain_pos b) by (unfold chain_pos; congruence). by apply list_elem_of_fmap_2.
Qed.

Lemma strict_NoDup l : StronglySorted delta_lt l → NoDup (map chain_pos l).
Proof.
  induction 1 as [|a l Hs IH Ha]; [apply NoDup_nil_2|]. cbn [map]. apply NoDup_cons. split; [|done].
  intros (b & [= E1 E2] & Hb)%list_elem_of_fmap. rewrite Forall_forall in Ha. destruct (Ha b Hb) as [|[]]; lia.
Qed.

Lemma StronglySorted_filter {A} (R : A → A → Prop) (P : A → Prop) `{∀ x, Decision (P x)} l :
  StronglySorted R l → StronglySorted R (base.filter P l).
Proof.
  induction 1 as [|a l Hs IH Ha]; [constructor|]. rewrite filter_cons. case_decide; [|done]. constructor; [done|].
  rewrite Forall_forall in Ha |- *. intros b Hb. apply Ha. by apply list_elem_of_filter in Hb as [_ ?].
Qed.

Lemma StronglySorted_unfmap {A B} (f : A → B) (R : B → B → Prop) l :
  StronglySorted R (f <$> l) → StronglySorted (λ a b, R (f a) (f b)) l.
Proof.
  induction l as [|a l IH]; [constructor|]. cbn [fmap list_fmap]. intros [Ha Hl]%StronglySorted_cons.
  constructor; [by apply IH|]. by rewrite Forall_fmap in Ha.
Qed.

Definition of_shard {A} (j : N) (ds : list (DeltaManifestEntry * A)) : list (DeltaManifestEntry * A) :=
  base.filter (λ d, d_shard d.1 = j) ds.

#[local] Instance delta_lt_antisymm A : AntiSymm eq (λ a b : DeltaManifestEntry * A, delta_lt a.1 b.1).
Proof. intros a b [|[]] [|[]]; lia. Qed.

(** Appending a later link to a shard's part of the chain and sorting keeps the order. *)
Lemma sorted_chain_snoc {A} (ds ds0 news : list (DeltaManifestEntry * A)) j x :
  ds ≡ₚ ds0 ++ news → StronglySorted delta_lt ds.*1 → StronglySorted delta_lt ds0.*1 →
  of_shard j news = [x] → (∀ d, d ∈ ds0 → d_delta_epoch d.1 < d_delta_epoch x.1) →
  of_shard j ds = of_shard j ds0 ++ [x].
Proof.
  intros Hp Hs Hs0 Hn Hlt. unfold of_shard in *.
  apply (StronglySorted_unique (λ a b, delta_lt a.1 b.1)).
  - by apply StronglySorted_filter, StronglySorted_unfmap.
  - assert (x ∈ base.filter (λ d : DeltaManifestEntry * A, d_shard d.1 = j) news) as Hx by (rewrite Hn; by left).
    apply list_elem_of_filter in Hx as [Hj _].
    assert (StronglySorted (λ a b : DeltaManifestEntry * A, delta_lt a.1 b.1) (base.filter (λ d, d_shard d.1 = j) ds0)) as H0
      by (by apply StronglySorted_filter, StronglySorted_unfmap).
    assert (∀ d, d ∈ base.filter (λ d : DeltaManifestEntry * A, d_shard d.1 = j) ds0 → delta_lt d.1 x.1) as Hall.
    { intros d [Hd Hin]%list_elem_of_filter. right. split; [congruence|by apply Hlt]. }
    induction H0 as [|a l Hl IH Ha]; [repeat constructor|]. cbn [app]. constructor.
    + apply IH. intros d Hd. apply Hall. by right.
    + apply Forall_app. split; [done|]. constructor; [|constructor]. apply Hall. by left.
  - by rewrite Hp, filter_app, Hn.
Qed.

Lemma filter_none {A} (P : A → Prop) `{∀ x, Decision (P x)} l : (∀ x, x ∈ l → ¬ P x) → base.filter P l = [].
Proof.
  induction l as [|x l IH]; intros Hn; [done|]. rewrite filter_cons, decide_False by (apply Hn; by left).
  apply IH. intros y Hy. apply Hn. by right.
Qed.

Lemma records_of_owner (owner : list byte → N) (ds : list (DeltaManifestEntry * list DeltaRecord)) db k :
  (∀ d rs r, (d, rs) ∈ ds → r ∈ rs → owner (record_key r).2 = d_shard d) →
  base.filter (λ r, record_key r = (db, k)) (concat ds.*2) =
    base.filter (λ r, record_key r = (db, k)) (concat (of_shard (owner k) ds).*2).
Proof.
  induction ds as [|[d rs] ds IH]; intros Hown; [done|]. unfold of_shard in *. rewrite filter_cons. cbn [fmap list_fmap concat fst snd].
  assert (∀ d rs r, (d, rs) ∈ ds → r ∈ rs → owner (record_key r).2 = d_shard d) as Hown' by (intros; eapply Hown; [by right|done]).
  rewrite filter_app, (IH Hown'). case_decide as Hd; cbn [fmap list_fmap concat snd]; [by rewrite filter_app|].
  rewrite filter_none; [done|]. intros r Hr E. apply Hd. symmetry. rewrite <- (Hown d rs r ltac:(by left) Hr). by rewrite E.
Qed.

(** A list whose elements carry their positions. *)
Lemma filter_position {A} (f : A → N) (l : list A) n0 j x :
  (∀ i y, l !! i = Some y → f y = n0 + N.of_nat i) → l !! j = Some x →
  base.filter (λ y, f y = n0 + N.of_nat j) l = [x].
Proof.
  revert n0 j. induction l as [|y l IH]; intros n0 j Hf Hj; [done|]. rewrite filter_cons.
  assert (∀ i z, l !! i = Some z → f z = n0 + 1 + N.of_nat i) as Hf'.
  { intros i z Hz. rewrite (Hf (S i) z Hz). lia. }
  pose proof (Hf O y eq_refl) as Hy. destruct j as [|j].
  - injection Hj as ->. rewrite decide_True by (rewrite Hy; lia). f_equal. apply filter_none. intros z Hz.
    apply list_elem_of_lookup in Hz as [i Hi]. rewrite (Hf' i z Hi). lia.
  - rewrite decide_False by (rewrite Hy; lia). specialize (IH (n0 + 1) j Hf' Hj).
    replace (n0 + N.of_nat (S j)) with (n0 + 1 + N.of_nat j) by lia. done.
Qed.

Lemma chain_depth_eq m x : (∀ d, d ∈ m_deltas m → d_delta_epoch d ≤ x) → (∃ d, d ∈ m_deltas m ∧ d_delta_epoch d = x) →
  chain_depth m = x.
Proof.
  intros Hle (d & Hd & <-). apply N.le_antisymm; [|by apply chain_depth_le].
  unfold chain_depth. clear Hd. revert Hle. generalize (m_deltas m). induction l as [|y l IH]; intros Hle; cbn [fmap list_fmap foldr]; [lia|].
  apply N.max_lub; [apply Hle; by left|]. apply IH. intros z Hz. apply Hle. by right.
Qed.

(** ** Replies of one kind *)

Lemma all_bases rs : (∀ i r, rs !! i = Some r → ∃ e, r = RBase e) → rs = map RBase (bases rs) ∧ deltas rs = [].
Proof.
  induction rs as [|r rs IH]; intros Hr; [done|]. destruct (Hr O r eq_refl) as [e ->].
  destruct (IH (λ i, Hr (S i))) as [H1 H2]. split; [cbn; by f_equal|done].
Qed.

Lemma all_deltas rs : (∀ i r, rs !! i = Some r → ∃ d, r = RDelta d) → rs = map RDelta (deltas rs) ∧ bases rs = [].
Proof.
  induction rs as [|r rs IH]; intros Hr; [done|]. destruct (Hr O r eq_refl) as [e ->].
  destruct (IH (λ i, Hr (S i))) as [H1 H2]. split; [cbn; by f_equal|done].
Qed.

Section restore.
Context {V : Type} {Hval : StoredValue V}.
Context (encode_kvobj : KvObj V → list byte) (decode_kvobj : list byte → option (KvObj V)).
Context (canon : KvObj V → KvObj V) (good : KvObj V → Prop).
Context {Hcodec : EntryCodec encode_kvobj decode_kvobj canon good}.
Context (D : N) (sd : bool).
Context (D_pos : 0 < D) (D_u32 : D ≤ 2 ^ 32).

#[local] Notation "'World'" := (SnapshotWorld.World (V := V)).
#[local] Notation "'ok'" := (world_ok encode_kvobj decode_kvobj canon good D sd).

(** ** The commit of a manifest *)

Lemma base_map_perm (l l' : list (N * KvObj V)) : NoDup (map rec_key l) → l ≡ₚ l' → base_map l = base_map l'.
Proof.
  intros Hnd Hp. unfold base_map. apply list_to_map_proper; [by rewrite <- list_fmap_compose|]. by rewrite Hp.
Qed.

(** Sorted and sealed, valid files and entries make a snapshot. *)
Lemma commit_snapshot dir removable id secs bs0 ds0 :
  Forall (base_file encode_kvobj good dir) bs0 → Forall (delta_file decode_kvobj dir) ds0 →
  Forall entry_wf bs0.*1 → Forall delta_wf ds0.*1 → Forall (λ d, d_base_epoch d = id) ds0.*1 →
  NoDup (map chain_pos ds0.*1) → NoDup (map rec_key (concat bs0.*2)) →
  N.of_nat (length bs0) < 2 ^ 32 → N.of_nat (length ds0) < 2 ^ 32 → u64 id → u64 secs →
  ∃ bs ds, bs ≡ₚ bs0 ∧ ds ≡ₚ ds0 ∧
    snapshot encode_kvobj decode_kvobj good
      (gc_orphan_deltas (manifest_v2 id secs bs0.*1 ds0.*1) removable
        (write_file_atomic MANIFEST_NAME (manifest_encode (manifest_v2 id secs bs0.*1 ds0.*1)) dir))
      (manifest_v2 id secs bs0.*1 ds0.*1) bs ds.
Proof.
  intros Hb Hd Hew Hdw Hid Hpos Hkeys Hbl Hdl Hiu Hsu.
  destruct (Permutation_map_inv fst bs0 (merge_sort_Permutation entry_le bs0.*1)) as (bs & Ebs & Pbs).
  destruct (Permutation_map_inv fst ds0 (merge_sort_Permutation delta_le ds0.*1)) as (ds & Eds & Pds).
  exists bs, ds. split; [done|]. split; [done|]. set (m := manifest_v2 id secs bs0.*1 ds0.*1).
  assert (m_entries m = bs.*1) as Em by done. assert (m_deltas m = ds.*1) as Dm by done.
  constructor; [apply committed_manifest| |done|done| | | | |].
  - split; [done|]. split; [|split; [done|split; [done|]]].
    { cbn. apply N.mod_upper_bound. done. }
    rewrite Em, Dm, !length_fmap, <- Pbs, <- Pds. by rewrite Pbs, Pds in *.
  - rewrite Pbs in Hb. rewrite Forall_forall in Hb |- *. intros b Hin. destruct (Hb b Hin) as (E & H1 & H2 & H3 & H4).
    repeat (split; [done|]). rewrite committed_lookup; [done|..]; rewrite E; [by_last_byte|by_last_byte|by apply gc_keeps_shard_file].
  - rewrite Pds in Hd. rewrite Forall_forall in Hd |- *. intros d Hin. destruct (Hd d Hin) as (E & H1 & H2 & H3 & H4 & H5 & H6).
    repeat (split; [done|]). rewrite committed_lookup; [done|rewrite E; by_last_byte|rewrite E; by_last_byte|].
    apply gc_keeps_listed. rewrite Dm. by do 2 apply list_elem_of_fmap_2.
  - by rewrite Pds in Hid.
  - apply sorted_strict; [rewrite <- Dm; apply (StronglySorted_merge_sort delta_le)|]. by rewrite Pds in Hpos.
  - by rewrite Pbs in Hkeys.
Qed.

(** ** A committed save, taken apart *)

Lemma save_committed (w : World) clock io removable secs p stores dir :
  save_all_to_dir encode_kvobj sd true clock io true removable secs (w_persist w) (w_stores w) (w_dir w) =
    Some (true, p, stores, dir) →
  ∃ dir1 replies rs id bf df,
    fan_out_save encode_kvobj sd (next_mode sd w) clock io 0 (w_stores w) (w_dir w) = Some (stores, dir1, replies) ∧
    mapM (λ x, x) replies = Some rs ∧
    (∃ id0, u64 id0 ∧ assemble_commit (next_mode sd w) id0 (read_manifest (w_dir w)) (bases rs) (deltas rs) = Some (id, bf, df)) ∧
    dir = gc_orphan_deltas (manifest_v2 id secs bf df) removable
      (write_file_atomic MANIFEST_NAME (manifest_encode (manifest_v2 id secs bf df)) dir1) ∧
    ps_needs_base p = false.
Proof.
  unfold save_all_to_dir. fold (next_mode sd w). intros H. apply bind_Some in H as ([[stores1 dir1] replies] & Hfan & H).
  change (mapM id replies) with (mapM (λ x, x) replies) in H. destruct (mapM (λ x, x) replies) as [rs|] eqn:Hrs; [|done].
  destruct (assemble_commit _ _ _ _ _) as [[[id bf] df]|] eqn:Hc; [|done]. cbn [negb] in H. injection H as <- <- <-.
  exists dir1, replies, rs, id, bf, df. split; [done|]. split; [done|]. split.
  - eexists. split; [|done]. unfold next_save_id, sat_add64, u64. lia.
  - split; [done|]. by destruct (next_mode sd w).
Qed.

(** The keyspace at the cut is what the shards' stores hold, seen from any of them. *)
Lemma keyspace_of_shard (w : World) j s db k : ok w → w_stores w !! j = Some s →
  owner_shard k (shards (w_stores w)) = N.of_nat j → keyspace_of (w_stores w) db k = find_obj (N.to_nat db) k s.
Proof. intros Hw Hj Ho. unfold keyspace_of. by rewrite Ho, Nat2N.id, Hj. Qed.

Lemma keyspace_of_Some (w : World) db k o : ok w → keyspace_of (w_stores w) db k = Some o →
  ∃ j s, w_stores w !! j = Some s ∧ find_obj (N.to_nat db) k s = Some o ∧ owner_shard k (shards (w_stores w)) = N.of_nat j.
Proof.
  intros Hw. unfold keyspace_of. destruct (w_stores w !! _) as [s|] eqn:E; [|done]. cbn [mbind option_bind]. intros Ho.
  eexists _, s. split; [done|]. split; [done|]. by rewrite N2Nat.id.
Qed.

Lemma keyspace_of_wf (w : World) db k o : ok w → keyspace_of (w_stores w) db k = Some o →
  N.of_nat (length k) < 2 ^ 32 ∧ ko_key o = k ∧ good o.
Proof.
  intros Hw H. apply keyspace_of_Some in H as (j & s & Hj & Ho & _); [|done].
  destruct (wo_stores _ _ _ _ _ _ _ Hw j s Hj) as (Hok & _ & [Hk _] & Hfit).
  split; [by apply (Hk _ _ _ Ho)|]. split; [by eapply find_obj_key|by eapply Hfit].
Qed.

Lemma expired_later t now (o : KvObj V) : t ≤ now → is_expired now o = false → is_expired t o = false.
Proof. unfold is_expired. destruct (ko_expire o); [|done]. rewrite !N.ltb_ge. lia. Qed.

(** ** Base saves *)

Definition base_recs (stores : list (ShardStore V)) (clock : N → N) : list (list (N * KvObj V)) :=
  imap (λ j s, frozen_records (frozen_of s) (clock (N.of_nat j))) stores.

Lemma base_recs_elem (w : World) clock db o : ok w → (db, o) ∈ concat (base_recs (w_stores w) clock) →
  ∃ j s, w_stores w !! j = Some s ∧ db < D ∧ find_obj (N.to_nat db) (ko_key o) s = Some o ∧
    is_expired (clock (N.of_nat j)) o = false ∧ owner_shard (ko_key o) (shards (w_stores w)) = N.of_nat j ∧
    fits good o.
Proof.
  intros Hw (j & s & Hj & Hin)%elem_of_concat_imap. destruct (wo_stores _ _ _ _ _ _ _ Hw j s Hj) as (Hok & HD & [Hk _] & Hfit).
  pose proof (frozen_records_db_bound _ _ _ _ Hin) as Hdb. apply elem_of_frozen_records in Hin as [Hf He]; [|done|done].
  exists j, s. rewrite <- HD. repeat (split; [done|]). destruct (Hk _ _ _ Hf) as [H1 H2]. split; [done|].
  split; [done|]. by eapply Hfit.
Qed.

Lemma base_recs_NoDup (w : World) clock : ok w → NoDup (map rec_key (concat (base_recs (w_stores w) clock))).
Proof.
  intros Hw. unfold base_recs. rewrite map_concat_imap.
  apply (NoDup_concat_tagged _ (λ p, N.to_nat (owner_shard p.2 (shards (w_stores w))))). intros j s Hj.
  destruct (wo_stores _ _ _ _ _ _ _ Hw j s Hj) as (Hok & HD & [Hk _] & _). split; [by apply frozen_records_NoDup|].
  intros y ([db o] & -> & Hin)%list_elem_of_fmap. pose proof (frozen_records_db_bound _ _ _ _ Hin) as Hdb.
  apply elem_of_frozen_records in Hin as [Hf _]; [|done|done]. destruct (Hk _ _ _ Hf) as [H1 _]. cbn. rewrite H1. lia.
Qed.

(** The dumps bind exactly the live part of the keyspace. *)
Lemma base_recs_lookup (w : World) clock t now db k : ok w → (∀ j, clock j ≤ t) → t ≤ now → db < D →
  alive_at now (base_map (concat (base_recs (w_stores w) clock)) !! (db, k)) = alive_at now (keyspace_of (w_stores w) db k).
Proof.
  intros Hw Hclock Ht Hdb. pose proof (base_recs_NoDup w clock Hw) as Hnd. unfold alive_at.
  destruct (base_map _ !! (db, k)) as [o|] eqn:E; cbn [mbind option_bind].
  - apply base_map_Some in E as [Hin <-]; [|done]. apply base_recs_elem in Hin as (j & s & Hj & _ & Hf & _ & Ho & _); [|done].
    by rewrite (keyspace_of_shard w j s _ _ Hw Hj Ho), Hf.
  - destruct (keyspace_of (w_stores w) db k) as [o|] eqn:Ek; [|done]. cbn [mbind option_bind].
    destruct (is_expired now o) eqn:He; [done|]. exfalso. apply keyspace_of_Some in Ek as (j & s & Hj & Hf & Ho); [|done].
    destruct (wo_stores _ _ _ _ _ _ _ Hw j s Hj) as (Hok & HD & _). pose proof (find_obj_key _ _ _ _ Hok Hf) as Hk.
    assert (base_map (concat (base_recs (w_stores w) clock)) !! (db, k) = Some o) as E'; [|by rewrite E in E'].
    apply base_map_Some; [done|]. split; [|done]. apply elem_of_concat_imap. exists j, s. split; [done|].
    apply elem_of_frozen_records; [done|by rewrite HD|]. rewrite Hk. split; [done|].
    eapply expired_later; [|done]. etransitivity; [apply Hclock|done].
Qed.

(** The replies and files of a base round. *)
Lemma base_round (w : World) clock io stores dir1 replies rs : ok w →
  fan_out_save encode_kvobj sd SBase clock io 0 (w_stores w) (w_dir w) = Some (stores, dir1, replies) →
  mapM (λ x, x) replies = Some rs →
  stores = map (cut_store sd) (w_stores w) ∧ deltas rs = [] ∧
  ∃ bs0, bs0.*1 = bases rs ∧ bs0.*2 = base_recs (w_stores w) clock ∧ length bs0 = length (w_stores w) ∧
    Forall (base_file encode_kvobj good dir1) bs0 ∧ Forall entry_wf bs0.*1.
Proof.
  intros Hw Hfan Hrs. pose proof (wo_shards _ _ _ _ _ _ _ Hw) as [Hn Hle]. unfold shards in Hle.
  destruct (fan_out_committed encode_kvobj sd SBase clock io 0 (w_stores w) _ _ _ _ rs I ltac:(lia) Hfan Hrs) as (-> & Hlen & Hi).
  assert (∀ i s r, w_stores w !! i = Some s → rs !! i = Some r → ∃ keys, u64 keys ∧
    r = RBase (mkEntry (N.of_nat i) (shard_file_name (N.of_nat i)) keys
      (table_crc32 (dump_body encode_kvobj (frozen_records (frozen_of s) (clock (N.of_nat i)))))) ∧
    dir1 !! shard_file_name (N.of_nat i) = Some (put_shard_header (N.of_nat i) ++
      dump_body encode_kvobj (frozen_records (frozen_of s) (clock (N.of_nat i))))) as Hrep.
  { intros i s r Hs Hr. pose proof (lookup_lt_Some _ _ _ Hs) as Hlt.
    destruct (Hi i s Hs) as (bytes & reply & r' & Hout & Hr' & Hdec & Hfile). rewrite Hr in Hr'. injection Hr' as <-.
    rewrite N.add_0_l in *. injection Hout as <- <-. apply base_reply in Hdec as (keys & Hk & ->); cbn [e_shard e_crc];
      [|lia|apply table_crc32_bound]. by exists keys. }
  assert (∀ i r, rs !! i = Some r → ∃ s, w_stores w !! i = Some s) as Hex.
  { intros i r Hr. apply lookup_lt_Some in Hr. apply lookup_lt_is_Some_2. lia. }
  destruct (all_bases rs) as [Ers Hdel].
  { intros i r Hr. destruct (Hex i r Hr) as [s Hs]. destruct (Hrep i s r Hs Hr) as (keys & _ & -> & _). by eexists. }
  split; [done|]. split; [done|].
  assert (length (bases rs) = length (w_stores w)) as Hbl.
  { rewrite <- Hlen. rewrite Ers at 2. by rewrite length_map. }
  assert (length (base_recs (w_stores w) clock) = length (w_stores w)) as Hrl by apply length_imap.
  exists (zip (bases rs) (base_recs (w_stores w) clock)). rewrite fst_zip, snd_zip, length_zip by lia.
  split; [done|]. split; [done|]. split; [lia|].
  assert (∀ i e, bases rs !! i = Some e → rs !! i = Some (RBase e)) as Hbr.
  { intros i e He. rewrite Ers. by rewrite list_lookup_fmap, He. }
  split; apply Forall_lookup_2.
  - intros i [e recs] Hz. apply lookup_zip_Some in Hz as [He Hr]. unfold base_recs in Hr. rewrite list_lookup_imap in Hr.
    destruct (w_stores w !! i) as [s|] eqn:Hs; [|done]. injection Hr as <-.
    destruct (Hrep i s _ Hs (Hbr i e He)) as (keys & Hk & [= ->] & Hfile). pose proof (lookup_lt_Some _ _ _ Hs) as Hlt.
    split; [done|]. split; [cbn; lia|]. split; [done|]. split; [|done].
    apply Forall_forall. intros [db o] Hin. assert ((db, o) ∈ concat (base_recs (w_stores w) clock)) as Hin'.
    { apply elem_of_concat_imap. by exists i, s. }
    apply base_recs_elem in Hin' as (_ & _ & _ & Hdb & _ & _ & _ & Hfit); [|done]. split; [cbn; lia|done].
  - intros i e He. pose proof (Hbr i e He) as Hr. destruct (Hex i _ Hr) as [s Hs].
    destruct (Hrep i s _ Hs Hr) as (keys & Hk & [= ->] & _). pose proof (lookup_lt_Some _ _ _ Hs) as Hlt.
    split; [cbn; lia|]. split; [done|]. split; [apply table_crc32_bound|]. apply shard_file_name_wf. lia.
Qed.

Lemma step_save_base_ok (w : World) clock io removable secs p stores dir t : ok w → next_mode sd w = SBase →
  save_all_to_dir encode_kvobj sd true clock io true removable secs (w_persist w) (w_stores w) (w_dir w) =
    Some (true, p, stores, dir) →
  u64 secs → (∀ j, clock j ≤ t) → ok (mkWorld stores p dir (keyspace_of (w_stores w)) t).
Proof.
  intros Hw Hmode Hsave Hsecs Hclock. pose proof (wo_shards _ _ _ _ _ _ _ Hw) as [Hn Hle].
  destruct (save_committed w _ _ _ _ _ _ _ Hsave) as (dir1 & replies & rs & id & bf & df & Hfan & Hrs & (id0 & Hid & Hc) & -> & Hnb).
  rewrite Hmode in Hfan, Hc.
  destruct (base_round w _ _ _ _ _ _ Hw Hfan Hrs) as (-> & Hdel & bs0 & E1 & E2 & Hbl & Hfiles & Hwf).
  unfold assemble_commit in Hc. rewrite decide_False in Hc by (rewrite Hdel; tauto). injection Hc as <- <- <-. rewrite <- E1.
  change [] with (([] : list (DeltaManifestEntry * list DeltaRecord)).*1) in |- *.
  destruct (commit_snapshot dir1 removable id0 secs bs0 []) as (bs & ds & Pb & Pd & Hs);
    try done; try apply Forall_nil_2; try apply NoDup_nil_2.
  { rewrite E2. by apply base_recs_NoDup. } { unfold shards in Hle. lia. }
  apply Permutation_nil_r in Pd; subst ds.
  constructor; cbn [w_stores w_cut w_persist w_dir w_time]; rewrite ?shards_cut.
  - by rewrite length_map.
  - intros j s Hj. by eapply cut_stores_ok.
  - intros db k o. by apply keyspace_of_wf.
  - right. exists (manifest_v2 id0 secs bs0.*1 ([] : list (DeltaManifestEntry * list DeltaRecord)).*1), bs, [].
    split; [done|]. split; [|split].
    + intros now db k Ht Hdb. unfold snap_lookup. cbn [fmap list_fmap concat fold_records foldl]. rewrite lookup_empty.
      rewrite (base_map_perm (concat bs.*2) (concat (base_recs (w_stores w) clock))).
      * rewrite !(alive_at_canon encode_kvobj decode_kvobj canon good). f_equal. by eapply base_recs_lookup.
      * rewrite Pb, E2. by apply base_recs_NoDup.
      * by rewrite Pb, E2.
    + rewrite Pb. unfold shards in Hle. lia.
    + intros Hsd _. constructor; [done|by intros ? ? ? ?%elem_of_nil|]. cbn [w_stores w_cut]. intros j s Hj.
      rewrite list_lookup_fmap in Hj. destruct (w_stores w !! j) as [s0|] eqn:E; [|done]. injection Hj as <-. rewrite shards_cut.
      exists ∅. split; [cbn; by rewrite Hsd|]. intros db k Hdb Ho _.
      by rewrite (keyspace_of_shard w j s0 _ _ Hw E Ho).
Qed.

(** ** Delta saves *)

Definition dirty_of (s : ShardStore V) : gset (N * list byte) := default ∅ (dirty_keys s).

Definition delta_recs (stores : list (ShardStore V)) (clock : N → N) : list (list DeltaRecord) :=
  imap (λ j s, delta_of encode_kvobj s (dirty_of s) (clock (N.of_nat j))) stores.

Lemma dirty_of_keys (w : World) j s db k : ok w → w_stores w !! j = Some s → (db, k) ∈ dirty_of s →
  db < D ∧ shard_key (shards (w_stores w)) (N.of_nat j) k.
Proof.
  intros Hw Hj. destruct (wo_stores _ _ _ _ _ _ _ Hw j s Hj) as (_ & HD & [_ Hk] & _). unfold dirty_of.
  destruct (dirty_keys s) as [d|] eqn:E; cbn; [|by intros ?%elem_of_empty]. rewrite <- HD. by apply Hk.
Qed.

(** Every record of a delta is of the shard's own keys, and well formed. *)
Lemma delta_recs_wf (w : World) j s now r : ok w → w_stores w !! j = Some s →
  r ∈ delta_of encode_kvobj s (dirty_of s) now →
  delta_record_wf r ∧ put_ok decode_kvobj r ∧ owner_shard (record_key r).2 (shards (w_stores w)) = N.of_nat j.
Proof.
  intros Hw Hj Hr. destruct (wo_stores _ _ _ _ _ _ _ Hw j s Hj) as (Hok & HD & [Hk _] & Hfit).
  apply list_elem_of_fmap in Hr as ([db k] & -> & Hin). rewrite merge_sort_Permutation, elem_of_elements in Hin.
  destruct (dirty_of_keys w j s db k Hw Hj Hin) as [Hdb [Ho Hlen]]. rewrite delta_record_key by done. split; [|split; [|done]].
  - unfold delta_record. rewrite frozen_get_find by done. cbn [fst snd]. destruct (find_obj _ _ s) as [o|] eqn:E; [|split; [lia|done]].
    destruct (is_expired now o); [split; [lia|done]|]. rewrite (find_obj_key _ _ _ _ Hok E). split; [lia|]. split; [done|].
    apply (good_fits (encode_kvobj := encode_kvobj)). by eapply Hfit.
  - unfold delta_record. rewrite frozen_get_find by done. cbn [fst snd]. destruct (find_obj _ _ s) as [o|] eqn:E; [|done].
    destruct (is_expired now o); [done|]. exists (canon o). rewrite canon_key. split; [|done]. apply codec_roundtrip. by eapply Hfit.
Qed.

Lemma delta_round (w : World) base epoch clock io stores dir1 replies rs : ok w → sd = true → u64 base → u64 epoch →
  fan_out_save encode_kvobj sd (SDelta base epoch) clock io 0 (w_stores w) (w_dir w) = Some (stores, dir1, replies) →
  mapM (λ x, x) replies = Some rs →
  stores = map (cut_store sd) (w_stores w) ∧ bases rs = [] ∧
  ∃ news, news.*1 = deltas rs ∧ news.*2 = delta_recs (w_stores w) clock ∧ length news = length (w_stores w) ∧
    Forall (delta_file decode_kvobj dir1) news ∧ Forall delta_wf news.*1 ∧
    ∀ i d, news.*1 !! i = Some d → d_shard d = N.of_nat i ∧ d_base_epoch d = base ∧ d_delta_epoch d = epoch.
Proof.
  intros Hw Hsd Hb He Hfan Hrs. pose proof (wo_shards _ _ _ _ _ _ _ Hw) as [Hn Hle]. unfold shards in Hle.
  destruct (fan_out_committed encode_kvobj sd (SDelta base epoch) clock io 0 (w_stores w) _ _ _ _ rs He ltac:(lia) Hfan Hrs)
    as (-> & Hlen & Hi).
  set (body := λ i s, concat (map put_delta_record (delta_of encode_kvobj s (dirty_of s) (clock (N.of_nat i))))).
  assert (∀ i s r, w_stores w !! i = Some s → rs !! i = Some r → ∃ puts tombs, u64 puts ∧ u64 tombs ∧
    r = RDelta (mkDelta (N.of_nat i) (delta_file_name (N.of_nat i) epoch) puts tombs (table_crc32 (body i s)) base epoch) ∧
    dir1 !! delta_file_name (N.of_nat i) epoch = Some (put_delta_header (N.of_nat i) base epoch ++ body i s)) as Hrep.
  { intros i s r Hs Hr. pose proof (lookup_lt_Some _ _ _ Hs) as Hlt.
    destruct (Hi i s Hs) as (bytes & reply & r' & Hout & Hr' & Hdec & Hfile). rewrite Hr in Hr'. injection Hr' as <-.
    rewrite N.add_0_l in *. unfold shard_out in Hout. rewrite Hsd in Hout. injection Hout as <- <-.
    apply delta_reply in Hdec as (puts & tombs & Hp & Ht & ->); cbn [d_shard d_crc d_base_epoch d_delta_epoch];
      [|lia|apply table_crc32_bound|done|done]. by exists puts, tombs. }
  assert (∀ i r, rs !! i = Some r → ∃ s, w_stores w !! i = Some s) as Hex.
  { intros i r Hr. apply lookup_lt_Some in Hr. apply lookup_lt_is_Some_2. lia. }
  destruct (all_deltas rs) as [Ers Hbas].
  { intros i r Hr. destruct (Hex i r Hr) as [s Hs]. destruct (Hrep i s r Hs Hr) as (puts & tombs & _ & _ & -> & _). by eexists. }
  split; [done|]. split; [done|].
  assert (length (deltas rs) = length (w_stores w)) as Hdl.
  { rewrite <- Hlen. rewrite Ers at 2. by rewrite length_map. }
  assert (length (delta_recs (w_stores w) clock) = length (w_stores w)) as Hrl by apply length_imap.
  exists (zip (deltas rs) (delta_recs (w_stores w) clock)). rewrite fst_zip, snd_zip, length_zip by lia.
  assert (∀ i d, deltas rs !! i = Some d → rs !! i = Some (RDelta d)) as Hbr.
  { intros i d Hd. rewrite Ers. by rewrite list_lookup_fmap, Hd. }
  split; [done|]. split; [done|]. split; [lia|]. split; [|split]; [apply Forall_lookup_2..|].
  - intros i [d recs] Hz. apply lookup_zip_Some in Hz as [Hd Hr]. unfold delta_recs in Hr. rewrite list_lookup_imap in Hr.
    destruct (w_stores w !! i) as [s|] eqn:Hs; [|done]. injection Hr as <-. pose proof (lookup_lt_Some _ _ _ Hs) as Hlt.
    destruct (Hrep i s _ Hs (Hbr i d Hd)) as (puts & tombs & _ & _ & [= ->] & Hfile).
    split; [done|]. split; [cbn; lia|]. split; [done|]. split; [done|]. split; [done|]. split; [|done].
    apply Forall_forall. intros r Hr. destruct (delta_recs_wf w i s _ r Hw Hs Hr) as (H1 & H2 & _). done.
  - intros i d Hd. pose proof (Hbr i d Hd) as Hr. destruct (Hex i _ Hr) as [s Hs]. pose proof (lookup_lt_Some _ _ _ Hs) as Hlt.
    destruct (Hrep i s _ Hs Hr) as (puts & tombs & Hp & Ht & [= ->] & _).
    split; [cbn; lia|]. split; [done|]. split; [done|]. split; [apply table_crc32_bound|]. split; [done|]. split; [done|].
    apply delta_file_name_wf; [cbn; lia|done].
  - intros i d Hd. pose proof (Hbr i d Hd) as Hr. destruct (Hex i _ Hr) as [s Hs].
    destruct (Hrep i s _ Hs Hr) as (puts & tombs & _ & _ & [= ->] & _). done.
Qed.

(** After a delta round the chain says of every key what its store says. *)
Lemma delta_round_lookup (w : World) m bs bs0 ds ds0 news clock t epoch now db k : ok w →
  (∀ now db k, w_time w ≤ now → db < D → snap_lookup decode_kvobj canon bs0 ds0 now db k = alive_at now (canon <$> w_cut w db k)) →
  chain_ok D w m ds0 → StronglySorted delta_lt ds0.*1 → StronglySorted delta_lt ds.*1 →
  bs ≡ₚ bs0 → NoDup (map rec_key (concat bs0.*2)) → ds ≡ₚ ds0 ++ news →
  news.*2 = delta_recs (w_stores w) clock → length news = length (w_stores w) →
  (∀ i d, news.*1 !! i = Some d → d_shard d = N.of_nat i ∧ d_delta_epoch d = epoch) →
  (∀ d, d ∈ ds0 → d_delta_epoch d.1 < epoch) →
  (∀ d rs r, (d, rs) ∈ ds → r ∈ rs → owner_shard (record_key r).2 (shards (w_stores w)) = d_shard d) →
  w_time w ≤ t → (∀ j, clock j ≤ t) → t ≤ now → db < D →
  snap_lookup decode_kvobj canon bs ds now db k = alive_at now (canon <$> keyspace_of (w_stores w) db k).
Proof.
  intros Hw Hl [_ Hown0 Hdirty] Hs0 Hs Pb Hkeys Pd E2 Hlen Hnews Hlt Hown Ht Hclock Hnow Hdb.
  set (n := shards (w_stores w)) in *. pose proof (wo_shards _ _ _ _ _ _ _ Hw) as [Hn _].
  assert (owner_shard k n < n) as Ho by (apply owner_shard_lt; unfold n, shards; lia).
  destruct (lookup_lt_is_Some_2 (w_stores w) (N.to_nat (owner_shard k n)) ltac:(unfold n, shards in *; lia)) as [s Hj].
  set (j := N.to_nat (owner_shard k n)) in *. assert (owner_shard k n = N.of_nat j) as Hoj by (unfold j; lia).
  destruct (wo_stores _ _ _ _ _ _ _ Hw j s Hj) as (Hok & _ & _ & Hfit). rewrite (keyspace_of_shard w j s _ _ Hw Hj Hoj).
  destruct (lookup_lt_is_Some_2 news j ltac:(apply lookup_lt_Some in Hj; lia)) as [x Hx].
  assert (x.2 = delta_of encode_kvobj s (dirty_of s) (clock (N.of_nat j))) as Hx2.
  { assert (news.*2 !! j = Some x.2) as Hx' by (by rewrite list_lookup_fmap, Hx). rewrite E2 in Hx'.
    unfold delta_recs in Hx'. rewrite list_lookup_imap, Hj in Hx'. by injection Hx'. }
  assert (of_shard (N.of_nat j) news = [x]) as Hof.
  { apply (filter_position (λ d : DeltaManifestEntry * list DeltaRecord, d_shard d.1) news 0 j x); [|done].
    intros i y Hy. rewrite N.add_0_l. apply Hnews. by rewrite list_lookup_fmap, Hy. }
  assert (d_delta_epoch x.1 = epoch) as Hxe by (by apply (Hnews j); rewrite list_lookup_fmap, Hx).
  unfold snap_lookup. rewrite fold_records_lookup, (records_of_owner (λ k, owner_shard k n)) by done. cbn beta. rewrite Hoj.
  rewrite (sorted_chain_snoc ds ds0 news (N.of_nat j) x) by (rewrite ?Hxe; done).
  rewrite fmap_app, concat_app, filter_app. cbn [fmap list_fmap concat]. rewrite app_nil_r, Hx2, delta_of_filter by done.
  case_decide as Hin.
  - rewrite last_snoc. rewrite (delta_record_eval encode_kvobj decode_kvobj canon good)
      by (done || (etransitivity; [apply Hclock|done]) || (intros o; apply Hfit)).
    done.
  - rewrite app_nil_r, <- Hoj. rewrite <- (records_of_owner (λ k, owner_shard k n) ds0 db k) by (intros d rs r H1 H2; by eapply Hown0).
    assert (find_obj (N.to_nat db) k s = w_cut w db k) as ->.
    { destruct (Hdirty j s Hj) as (dirty & Ed & Hd). apply Hd; [done..|].
      unfold dirty_of in Hin. by rewrite Ed in Hin. }
    rewrite <- (Hl now db k) by (done || lia). unfold snap_lookup. rewrite fold_records_lookup.
    by rewrite (base_map_perm (concat bs.*2) (concat bs0.*2)) by (by rewrite Pb).
Qed.

(** One round follows the chain. *)
Lemma round_positions (ds0 news : list DeltaManifestEntry) epoch : NoDup (map chain_pos ds0) →
  (∀ d, d ∈ ds0 → d_delta_epoch d < epoch) →
  (∀ i d, news !! i = Some d → d_shard d = N.of_nat i ∧ d_delta_epoch d = epoch) →
  NoDup (map chain_pos (ds0 ++ news)).
Proof.
  intros H0 Hlt Hnews. rewrite map_app. apply NoDup_app. split; [done|]. split.
  - intros p (d & -> & Hd)%list_elem_of_fmap (d' & [= _ E] & Hd')%list_elem_of_fmap.
    apply list_elem_of_lookup in Hd' as [i Hi]. destruct (Hnews i d' Hi) as [_ He]. specialize (Hlt d Hd). lia.
  - apply NoDup_alt. intros i i' p Hi Hi'.
    rewrite list_lookup_fmap in Hi, Hi'. destruct (news !! i) as [d|] eqn:E; [|done]. destruct (news !! i') as [d'|] eqn:E'; [|done].
    injection Hi as <-. injection Hi' as Hs _. destruct (Hnews i d E) as [Hi _]. destruct (Hnews i' d' E') as [Hi' _]. lia.
Qed.

Lemma round_depth {A} m (ds0 news : list (DeltaManifestEntry * A)) epoch : m_deltas m ≡ₚ (ds0 ++ news).*1 → news ≠ [] →
  (∀ d, d ∈ ds0 → d_delta_epoch d.1 < epoch) → (∀ d, d ∈ news → d_delta_epoch d.1 = epoch) → chain_depth m = epoch.
Proof.
  intros Hp Hne Hlt Heq. apply chain_depth_eq.
  - intros d Hd. rewrite Hp in Hd. apply list_elem_of_fmap in Hd as (x & -> & [Hx|Hx]%elem_of_app).
    + by apply N.lt_le_incl, Hlt.
    + by rewrite (Heq x Hx).
  - destruct news as [|x news]; [done|]. exists x.1. split; [|apply Heq; by left]. rewrite Hp.
    apply list_elem_of_fmap_2, elem_of_app. right. by left.
Qed.

Lemma cut_dirty (w : World) j s : ok w → sd = true → map (cut_store sd) (w_stores w) !! j = Some s →
  ∃ dirty, dirty_keys s = Some dirty ∧ ∀ db k, db < D → owner_shard k (shards (w_stores w)) = N.of_nat j →
    (db, k) ∉ dirty → find_obj (N.to_nat db) k s = keyspace_of (w_stores w) db k.
Proof.
  intros Hw Hsd Hj. rewrite list_lookup_fmap in Hj. destruct (w_stores w !! j) as [s0|] eqn:E; [|done]. injection Hj as <-.
  exists ∅. split; [cbn; by rewrite Hsd|]. intros db k Hdb Ho _. by rewrite (keyspace_of_shard w j s0 _ _ Hw E Ho).
Qed.

(** Sealing a round on top of a snapshot leaves a snapshot of the keyspace. *)
Lemma delta_commit_ok (w : World) m bs0 ds0 news base epoch dir1 removable secs p clock t : ok w → sd = true →
  snapshot encode_kvobj decode_kvobj good dir1 m bs0 ds0 →
  (∀ now db k, w_time w ≤ now → db < D → snap_lookup decode_kvobj canon bs0 ds0 now db k = alive_at now (canon <$> w_cut w db k)) →
  N.of_nat (length bs0) < 2 ^ 32 → chain_ok D w m ds0 → base = m_save_id m → epoch = chain_depth m + 1 →
  chain_depth m < MAX_DELTAS_PER_BASE →
  news.*2 = delta_recs (w_stores w) clock → length news = length (w_stores w) →
  Forall (delta_file decode_kvobj dir1) news → Forall delta_wf news.*1 →
  (∀ i d, news.*1 !! i = Some d → d_shard d = N.of_nat i ∧ d_base_epoch d = base ∧ d_delta_epoch d = epoch) →
  u64 secs → w_time w ≤ t → (∀ j, clock j ≤ t) →
  ok (mkWorld (map (cut_store sd) (w_stores w)) p
    (gc_orphan_deltas (manifest_v2 base secs bs0.*1 (ds0 ++ news).*1) removable
      (write_file_atomic MANIFEST_NAME (manifest_encode (manifest_v2 base secs bs0.*1 (ds0 ++ news).*1)) dir1))
    (keyspace_of (w_stores w)) t).
Proof.
  intros Hw Hsd Hs1 Hl Hb Hch Hbase Hep Hdepth E2 Hnl Hfiles Hnwf Hnews Hsecs Ht Hclock.
  pose proof (wo_shards _ _ _ _ _ _ _ Hw) as [Hn Hle].
  destruct (sn_wf _ _ _ _ _ _ _ Hs1) as (_ & _ & Hmid & _ & _ & Hew & _ & Hdw).
  rewrite (sn_entries _ _ _ _ _ _ _ Hs1) in Hew. rewrite (sn_deltas _ _ _ _ _ _ _ Hs1) in Hdw.
  assert (∀ d, d ∈ ds0.*1 → d_delta_epoch d < epoch) as Hlt.
  { intros d Hd. assert (d_delta_epoch d ≤ chain_depth m); [|lia]. apply chain_depth_le. by rewrite (sn_deltas _ _ _ _ _ _ _ Hs1). }
  assert (∀ d rs, (d, rs) ∈ news → ∃ i s, w_stores w !! i = Some s ∧ d_shard d = N.of_nat i ∧ d_delta_epoch d = epoch ∧ d_base_epoch d = base ∧
    rs = delta_of encode_kvobj s (dirty_of s) (clock (N.of_nat i))) as Hnew.
  { intros d rs [i Hi]%list_elem_of_lookup. destruct (Hnews i d) as (H1 & H2 & H3); [by rewrite list_lookup_fmap, Hi|].
    assert (news.*2 !! i = Some rs) as Hr by (by rewrite list_lookup_fmap, Hi). rewrite E2 in Hr. unfold delta_recs in Hr.
    rewrite list_lookup_imap in Hr. destruct (w_stores w !! i) as [s|] eqn:Hs; [|done]. injection Hr as <-. by exists i, s. }
  destruct (commit_snapshot dir1 removable base secs bs0 (ds0 ++ news)) as (bs & ds & Pb & Pd & Hs).
  1: apply Hs1. 1: apply Forall_app; split; [apply Hs1|done]. 1: done.
  1: rewrite fmap_app; by apply Forall_app.
  { rewrite fmap_app. apply Forall_app. split; [rewrite Hbase; apply Hs1|]. apply Forall_lookup_2. intros i d Hd. by apply (Hnews i). }
  { rewrite fmap_app. eapply round_positions; [apply strict_NoDup, Hs1|done|]. intros i d Hd. by destruct (Hnews i d Hd) as (? & _ & ?). }
  1: apply Hs1. 1: done.
  { rewrite length_app, Hnl, Nat2N.inj_add, (ch_length _ _ _ _ Hch). unfold shards, MAX_DELTAS_PER_BASE in *. nia. }
  1: by rewrite Hbase. 1: done.
  set (m' := manifest_v2 _ _ _ _) in *.
  constructor; cbn [w_stores w_cut w_persist w_dir w_time]; rewrite ?shards_cut.
  - by rewrite length_map.
  - intros j s Hj. by eapply cut_stores_ok.
  - intros db k o. by apply keyspace_of_wf.
  - assert (∀ d rs r, (d, rs) ∈ ds → r ∈ rs → owner_shard (record_key r).2 (shards (w_stores w)) = d_shard d) as Hown.
    { intros d rs r Hd Hr. rewrite Pd in Hd. apply elem_of_app in Hd as [Hd|Hd]; [by eapply (ch_owned _ _ _ _ Hch)|].
      destruct (Hnew d rs Hd) as (i & s & Hi & -> & _ & _ & ->). by eapply delta_recs_wf. }
    right. exists m', bs, ds. split; [done|]. split; [|split].
    + intros now db k Hnow Hdb.
      eapply (delta_round_lookup w m bs bs0 ds ds0 news clock t epoch); try done; [apply Hs1|apply Hs|apply Hs1|..].
      * intros i d Hd. by destruct (Hnews i d Hd) as (? & _ & ?).
      * intros d Hd. by apply Hlt, list_elem_of_fmap_2.
    + by rewrite Pb.
    + intros _ _. constructor; cbn [w_stores w_cut]; rewrite ?shards_cut.
      * rewrite Pd, length_app, Hnl, Nat2N.inj_add, (ch_length _ _ _ _ Hch).
        rewrite (round_depth m' ds0 news epoch); [rewrite Hep; unfold shards; lia|..].
        -- by rewrite (sn_deltas _ _ _ _ _ _ _ Hs), Pd.
        -- intros ->. cbn in Hnl. lia.
        -- intros d Hd. by apply Hlt, list_elem_of_fmap_2.
        -- intros [d rs] Hd. by destruct (Hnew d rs Hd) as (i & s & _ & _ & E & _).
      * done.
      * intros j s Hj. by apply cut_dirty.
Qed.

Lemma step_save_delta_ok (w : World) base epoch clock io removable secs p stores dir t : ok w →
  next_mode sd w = SDelta base epoch →
  save_all_to_dir encode_kvobj sd true clock io true removable secs (w_persist w) (w_stores w) (w_dir w) =
    Some (true, p, stores, dir) →
  u64 secs → w_time w ≤ t → (∀ j, clock j ≤ t) → ok (mkWorld stores p dir (keyspace_of (w_stores w)) t).
Proof.
  intros Hw Hmode Hsave Hsecs Ht Hclock. pose proof (wo_shards _ _ _ _ _ _ _ Hw) as [Hn Hle].
  destruct (next_mode_delta _ w base epoch Hmode) as (Hsd & _).
  destruct (save_committed w _ _ _ _ _ _ _ Hsave) as (dir1 & replies & rs & id & bf & df & Hfan & Hrs & (id0 & Hid & Hc) & -> & Hnb).
  rewrite Hmode in Hfan, Hc.
  destruct (round_frame encode_kvobj decode_kvobj canon good D sd w base epoch dir1 Hw Hmode) as (m & bs0 & ds0 & Hs0 & Hs1 & Hl & Hb & Hch & Hbase & Hep & Hdepth).
  { intros f H1 H2. destruct (fan_out_frame encode_kvobj sd (SDelta base epoch) clock io 0 (w_stores w) (w_dir w)) as (dir' & replies' & Hfan' & Hf).
    rewrite Hfan in Hfan'. injection Hfan' as _ <- _. apply Hf. intros j Hj. split; [|apply H2]. apply H1. unfold shards in Hle. lia. }
  pose proof (sn_wf _ _ _ _ _ _ _ Hs1) as (_ & _ & Hmid & _).
  destruct (delta_round w base epoch _ _ _ _ _ _ Hw Hsd ltac:(by rewrite Hbase) ltac:(unfold u64, U64_MAX, MAX_DELTAS_PER_BASE in *; lia) Hfan Hrs)
    as (-> & Hbas & news & E1 & E2 & Hnl & Hfiles & Hnwf & Hnews).
  unfold assemble_commit in Hc. rewrite Hbas, decide_False in Hc by tauto.
  rewrite (read_manifest_snapshot _ _ _ _ _ _ _ Hs0), obind_Some in Hc. case_decide; [done|]. injection Hc as <- <- <-.
  rewrite (sn_entries _ _ _ _ _ _ _ Hs0), (sn_deltas _ _ _ _ _ _ _ Hs0), <- E1, <- fmap_app.
  by apply (delta_commit_ok w m bs0 ds0 news base epoch dir1 removable secs p clock t).
Qed.

(** ** Warm start *)

Lemma world_step_ok (w w' : World) : ok w → world_step encode_kvobj decode_kvobj good D sd w w' → ok w'.
Proof.
  intros Hw Hstep. destruct Hstep.
  - by eapply step_ops_ok.
  - destruct (next_mode sd w) as [|base epoch] eqn:Hmode; [by eapply step_save_base_ok|by eapply step_save_delta_ok].
  - by eapply step_failed_ok.
  - by eapply step_torn_ok.
  - by eapply step_reboot_ok.
Qed.

Lemma reachable_ok n slots_per_db (w : World) : (0 < n)%nat → N.of_nat n ≤ 2 ^ 28 →
  rtc (world_step encode_kvobj decode_kvobj good D sd) (world_new D n slots_per_db) w → ok w.
Proof.
  intros Hn Hle Hr. assert (ok (world_new D n slots_per_db)) as Hok by (by apply world_new_ok).
  induction Hr as [|w1 w2 w3 Hstep _ IH]; [done|]. by eapply IH, world_step_ok.
Qed.

(** Whatever the entries and their codec. *)
Lemma warm_start n slots_per_db (w : World) shard total now slots_per_db' :
  (0 < n)%nat → N.of_nat n ≤ 2 ^ 28 →
  rtc (world_step encode_kvobj decode_kvobj good D sd) (world_new D n slots_per_db) w →
  total ≠ 0 → w_time w ≤ now →
  ∃ loaded s,
    load_shard_resharded decode_kvobj (w_dir w) shard total now owner_shard (store_new D slots_per_db') = Some (loaded, s) ∧
    store_ok s ∧ databases s = D ∧
    ∀ db k, db < D →
      find_obj (N.to_nat db) k s = if bool_decide (owner_shard k total = shard) then alive_at now (canon <$> w_cut w db k) else None.
Proof.
  intros Hn Hle Hr Ht Hnow. pose proof (reachable_ok n slots_per_db w Hn Hle Hr) as Hw.
  destruct (world_load encode_kvobj decode_kvobj canon good D sd w total shard now slots_per_db' Hw D_pos Ht Hnow)
    as (loaded & s & Hrun & [Hok _] & HD & Hf). by exists loaded, s.
Qed.

End restore.
