(* ===== verification/SnapshotScenarios.v ===== *)
(** * Warm start

    The warm-start theorem for the values and the codec of the program, and runs of
    a node of two shards and two databases: one that witnesses the theorem, and a
    base save that fails half way and takes a shard of the previous snapshot with
    it. *)

From Stdlib Require Import Lia ZArith NArith.
From S2P Require Import Prelude RaftCodecProofs ReplFrames Keyspace KeyspaceProofs KeyspaceOps Values Snapshot SnapshotSave SnapshotLoad SnapshotChain KvCodec KvCodecProofs SnapshotWorld SnapshotRestore.
From stdpp Require Import strings.

#[local] Open Scope N_scope.

(** ** Warm start *)

#[local] Notation "'World'" := (SnapshotWorld.World (V := Val)).
#[local] Abbreviation step_to sd := (world_step encode_entry decode_entry good_obj 2 sd).


(** ** The runs *)

Definition text (s : string) : Val := str_from_bytes (String.list_byte_of_string s).

Definition key_a : list byte := String.list_byte_of_string "a".
Definition key_b : list byte := String.list_byte_of_string "b".
Definition key_c : list byte := String.list_byte_of_string "c".

Definition ops_on (j : nat) (ops : list (store_op Val)) (w : World) : World :=
  match s ← w_stores w !! j; for_each ops run_store_op s with
  | Some (_, s') => mkWorld (<[j := s']> (w_stores w)) (w_persist w) (w_dir w) (w_cut w) (w_time w)
  | None => w
  end.

Definition save_of (sd : bool) (t : N) (io : N → bool) (w : World) :=
  save_all_to_dir encode_entry sd true (λ _, t) io true (λ _, true) t (w_persist w) (w_stores w) (w_dir w).

Definition save_at (sd : bool) (t : N) (w : World) : World :=
  match save_of sd t (λ _, true) w with
  | Some (_, p, stores, dir) => mkWorld stores p dir (keyspace_of (w_stores w)) t
  | None => w
  end.

(** The entries of a store. *)
Definition store_objs (s : ShardStore Val) : list (KvObj Val) := (concat (dbs s) ≫= map_to_list).*2.

Lemma find_obj_objs s i k o : find_obj i k s = Some o → o ∈ store_objs s.
Proof.
  unfold find_obj, slot_table, store_objs. intros (t & (dbv & E1 & E2)%bind_Some & Ho)%bind_Some.
  apply list_elem_of_fmap. exists (k, o). split; [done|]. apply list_elem_of_bind. exists t.
  split; [by apply elem_of_map_to_list|]. apply list_elem_of_In, in_concat. exists dbv.
  split; apply list_elem_of_In, list_elem_of_lookup; eauto.
Qed.

(** A check that suffices for the strings of the runs. *)
Definition small_string (o : KvObj Val) : bool :=
  match ko_value o with
  | VStr EEmbStr b =>
      (len (ko_key o) <? 2 ^ 32) && (from_option id 0 (ko_expire o) <=? U64_MAX) && (len b <? 2 ^ 32) && (len (encode_entry o) <? 2 ^ 32)
  | _ => false
  end.

Lemma small_string_good o : small_string o = true → good_obj o.
Proof.
  unfold small_string. destruct (ko_value o) as [e b| | | |] eqn:Ev; try done. destruct e; try done.
  rewrite !andb_true_iff, !N.ltb_lt, N.leb_le. intros (((Hk & Hx) & Hb) & Hl). split; [|done]. split; [done|]. rewrite Ev. split; [|done].
  intros d Hd. by rewrite Hd in Hx.
Qed.

Definition ops_ok (w : World) (j : nat) (ops : list (store_op Val)) : bool :=
  match s ← w_stores w !! j; for_each ops run_store_op s with
  | Some (_, s') => forallb small_string (store_objs s')
  | None => false
  end.

Lemma ops_step sd w j ops : ops_ok w j ops = true →
  Forall (λ op, op_in_range 2 op = true ∧ op_keys (shard_key (shards (w_stores w)) (N.of_nat j)) op) ops →
  step_to sd w (ops_on j ops w).
Proof.
  unfold ops_ok, ops_on. intros Hok Hops. destruct (w_stores w !! j) as [s|] eqn:Hj; [|done]. cbn [mbind option_bind] in *.
  destruct (for_each ops run_store_op s) as [[[] s']|] eqn:Hr; [|done]. apply (ws_ops _ _ _ _ _ w j s ops s'); [done..|].
  intros i k o Ho. rewrite forallb_forall in Hok. apply small_string_good, Hok, list_elem_of_In. by eapply find_obj_objs.
Qed.

Definition commits (sd : bool) (t : N) (w : World) : bool :=
  match save_of sd t (λ _, true) w with Some (b, _, _, _) => b | None => false end.

Lemma save_step sd w t : commits sd t w = true → w_time w ≤ t → u64 t → step_to sd w (save_at sd t w).
Proof.
  unfold commits, save_at. destruct (save_of sd t (λ _, true) w) as [[[[b p] stores] dir]|] eqn:E; [|done]. intros -> Ht Hu.
  by apply (ws_save _ _ _ _ _ w (λ _, t) (λ _, true) (λ _, true) t).
Qed.

Lemma same_text v : same_value (text "1st") v → v = text "1st".
Proof.
  assert (text "1st" = VStr EEmbStr (String.list_byte_of_string "1st")) as -> by (vm_compute; reflexivity).
  destruct v as [e b| | | |]; cbn [same_value]; [|discriminate..]. intros [-> He]. rewrite He; [reflexivity|vm_compute; reflexivity].
Qed.

(** A base save, a delta save on top of it, a deletion no save has seen, and a
    second delta round that stopped after one of its files. *)
Definition ops_a : list (store_op Val) := [OpInsert 0 (mkObj key_a None (text "1st"))].
Definition ops_b : list (store_op Val) := [OpInsert 1 (mkObj key_b (Some 50) (text "2nd"))].
Definition ops_c : list (store_op Val) := [OpInsert 0 (mkObj key_c None (text "3rd"))].
Definition ops_d : list (store_op Val) := [OpDelete 0 key_a 21].

Definition w_one : World := ops_on 1 ops_a (world_new 2 2 4).
Definition w_two : World := ops_on 0 ops_b w_one.
Definition after_base : World := save_at true 10 w_two.
Definition w_three : World := ops_on 0 ops_c after_base.
Definition w_four : World := save_at true 20 w_three.
Definition after_delta : World := ops_on 1 ops_d w_four.

Definition after_torn : World :=
  mkWorld (w_stores after_delta) (w_persist after_delta) (write_file_atomic (delta_file_name 0 2) [x00] (w_dir after_delta))
    (w_cut after_delta) (w_time after_delta).

#[local] Ltac ops_check :=
  match goal with |- step_to _ _ ?w => unfold w end; apply ops_step;
  [vm_compute; reflexivity|constructor; [|constructor]; split; [reflexivity|];
   (split; [exact I|]); first [exact I|split; vm_compute; reflexivity]].

Lemma step_one : step_to true (world_new 2 2 4) w_one.
Proof. ops_check. Qed.

Lemma step_two : step_to true w_one w_two.
Proof. ops_check. Qed.

Lemma step_base : step_to true w_two after_base.
Proof. apply save_step; [vm_compute; reflexivity|vm_compute; discriminate|discriminate]. Qed.

Lemma step_three : step_to true after_base w_three.
Proof. ops_check. Qed.

Lemma step_delta : step_to true w_three w_four.
Proof. apply save_step; [vm_compute; reflexivity|vm_compute; discriminate|discriminate]. Qed.

Lemma step_four : step_to true w_four after_delta.
Proof. ops_check. Qed.

Lemma step_torn : step_to true after_delta after_torn.
Proof.
  apply (ws_torn _ _ _ _ _ after_delta 1 2); [vm_compute; reflexivity|].
  apply (td_shard _ _ 0 [x00] _ (write_file_atomic (delta_file_name 0 2) [x00] (w_dir after_delta)));
    [vm_compute; reflexivity|apply aw_renamed|apply td_none].
Qed.

Lemma after_torn_reachable : rtc (step_to true) (world_new 2 2 4) after_torn.
Proof.
  refine (rtc_l _ _ _ _ step_one (rtc_l _ _ _ _ step_two (rtc_l _ _ _ _ step_base _))).
  exact (rtc_l _ _ _ _ step_three (rtc_l _ _ _ _ step_delta (rtc_l _ _ _ _ step_four (rtc_once _ _ step_torn)))).
Qed.


(** ** A base save that fails half way *)

(** The entry a boot of one shard gives a key. *)
Definition restored (dir : Dir) (now db : N) (key : list byte) : option (KvObj Val) :=
  '(_, s) ← load_shard_resharded decode_entry dir 0 1 now owner_shard (store_new 2 8); find_obj (N.to_nat db) key s.

(** With delta saves off: a base save commits, [key_c] is written, and the next
    base save dumps shard 0 but not shard 1. *)
Definition committed_base : World := save_at false 10 w_two.
Definition before_base : World := ops_on 0 ops_c committed_base.

Lemma before_base_reachable : rtc (step_to false) (world_new 2 2 4) before_base.
Proof.
  refine (rtc_l _ _ _ _ (_ : step_to false _ w_one) (rtc_l _ _ _ _ (_ : step_to false _ w_two)
    (rtc_l _ _ _ _ (_ : step_to false _ committed_base) (rtc_once _ _ _)))); [ops_check|ops_check| |ops_check].
  apply save_step; [vm_compute; reflexivity|vm_compute; discriminate|discriminate].
Qed.

